(* ===== verification/_CoqProject ===== *)
-Q . S2P
Prelude.v
Std.v
Ids.v
Retry.v
Events.v
Serde.v
SerdeFacts.v
Job.v
Lifecycle.v
Commands.v
Ports.v
UseCases.v
Contract.v
UseCaseFacts.v
System.v
MemStore.v
MemDispatcher.v
MemFacts.v
MemSelect.v
MemDispatchFacts.v
MemSweep.v
MemSystem.v
Grpc.v
GrpcFacts.v
Stream.v
StreamFacts.v
Signal.v
Hub.v
Server.v
DevLoop.v
ServerFacts.v
Kept.v
Postgres.v
PgSerde.v
PgStore.v
PgDispatcher.v
PgRelay.v
Serve.v
DevRun.v
PgRows.v
PgTx.v
PgAppend.v
PgInsert.v
PgProject.v
PgCommit.v
PgPublish.v
PgRelayFacts.v
PgNotify.v
Wakeup.v
PgContract.v
Agree.v
PgPick.v
PgRecord.v
PgClaim.v
PgRetire.v
PgHeartbeat.v
PgRebuild.v
PgSystem.v
PgPromises.v
PgSafe.v
ServeFacts.v
JsonSamples.v
ChannelSamples.v
TestKit.v
JobTests.v
DomainTests.v
StoreTests.v
EdgeTests.v
PgSamples.v
PgRuns.v
PgWitnesses.v
ServeWitnesses.v
Samples.v
Witnesses.v
