(* ===== verification/Prelude.v ===== *)
(** * Koine: a verification library for the koine job broker

    Koine is an event-sourced job broker. A job is a stream of events; a
    worker claims a job under a lease, heartbeats it, and reports success or
    failure; expired leases are swept and the job is retried or parked. The
    crates are layered: [koine-domain] decides, [koine-application]
    orchestrates through ports, the store crates implement the ports,
    [koine-grpc] exposes them and [koine-server] assembles them. The library
    follows the same layers and reads in the order of [_CoqProject].

    ** Shared

    - [Prelude]: outcomes [Ok]/[Err]/[Panic] (a panic is not an error value),
      the state and error monad [ST] in which every [&mut self] method and
      every shared object is written, its notations, tactics and lemmas.
    - [Std]: what the code uses of the Rust standard library: wrapping and
      saturating integers at their width, [Duration], UTF-8, the iterator
      reductions [max_by_key] and [min]; the standard streams and [println!],
      which panics when a line is not taken; and [Externals], the operations
      of chrono, uuid and serde_json, with the documented facts used of them
      and a concrete instance.

    ** Domain ([src/crates/koine-domain])

    - [Ids] ([error.rs], [ids.rs], [queue.rs]): validated identifiers; the
      accepted strings are characterised byte by byte.
    - [Retry] ([retry.rs]): back-off with full jitter; bounds, and that the
      SplitMix64 step reaches every delay of the window.
    - [Events] ([events.rs]): the nineteen events and the envelope.
    - [Serde] (the serde attributes of these files): what the derived
      implementations write and read, over an opaque JSON value that is looked
      at through a view; the forms besides an object that a reader takes are
      parameters that give its fields. [SerdeFacts]: round trips, also through
      a storage that keeps values up to their view, additive evolution of the
      envelope, and that reading validates.
    - [Job] ([job.rs]): the fold [from_events], the state machine [apply] and
      the commands.
    - [Lifecycle]: the lifecycle of the documentation
      ([docs/architecture/event-model.md]) as a table of phases and events;
      [apply] implements it but for signals to parked jobs, which the document
      delivers and the code rejects. Facts on folding streams.
    - [Commands]: every outcome of every command; events of a command always
      apply; a job driven by commands counts its attempts exactly.

    ** Application ([src/crates/koine-application])

    - [Ports] ([ports.rs], [lineage.rs]): the ports as classes over the state
      [W] their implementation lives in; envelopes and their lineage.
    - [UseCases] ([use_cases/]): every [execute], over any [W]. The loop of
      the sweep has fuel and answers [None] when it ends too early; one round
      more than there are leases in the index is enough, which is proved.
    - [Contract]: what the event-store port promises, as a class; it is what
      the use cases and the system are proved against.
    - [UseCaseFacts]: each use case on every branch, for every store that
      keeps the contract.
    - [System]: handlers run concurrently, so the broker is a transition
      system whose steps are single port calls and in which a handler may
      append what it decided on a snapshot taken any time before. Invariants
      by induction over runs. The dispatcher's promise to the log is the
      class [DispatcherContract].

    ** In-memory adapters ([src/crates/koine-store-memory])

    - [MemStore] ([store.rs]): streams, dispatch index and counter behind a
      mutex that a panic poisons.
    - [MemDispatcher] ([dispatcher.rs], [test_support.rs]): claim, heartbeat
      and retirement as critical sections; the clock and ids of the tests.
    - [MemFacts]: the append is all or nothing, the index is the projection
      of the log up to heartbeats, and the store keeps the contract.
    - [MemSelect]: what claim, heartbeat and retirement select, independent
      of the iteration order of the hash map.
    - [MemDispatchFacts], [MemSweep]: claim, heartbeat, retirement and sweep;
      the fencing between heartbeat and retirement; how a start forgets
      heartbeats; how an unusable ttl poisons the store.
    - [MemSystem]: the adapters as an instance of the system; the dispatch
      order stays well defined on every run.

    ** gRPC ([src/crates/koine-grpc])

    - [Grpc] ([auth.rs], [service.rs]): authentication, validation, the five
      methods; [GrpcFacts]: who is let in, what a refusal leaves behind, and
      what a report is answered.
    - [Stream] ([service.rs], [fetch]): the spawned task with its channel of
      sixteen messages and its reader as a machine whose turns come in any
      order (the channel is the class [Mpsc] with tokio's documented
      behaviour); back-pressure and what a hang-up leaves. [StreamFacts]: the
      clamp on the requested lease time protects the store for the whole life
      of a stream.

    ** PostgreSQL adapters ([src/crates/koine-store-postgres])

    Any number of brokers share one database. A broker's state is a [PgWorld]:
    the database, its own id source and clock, and a script of what happens
    around its round trips (other sessions commit and hold locks; the round
    trip fails; the answer of a commit is lost). Each SQL statement of the
    source is a definition [sql_*] over what its transaction sees.

    - [Postgres]: the tables of [migrations/], transactions under READ
      COMMITTED with row locks, and the class [Postgres] of what the server,
      the driver and the JSON encoder do with values; [PgSerde]: an instance
      of it from the encoder of [Serde], so that an event a JSONB column took
      comes back.
    - [PgStore] ([store.rs], [rows.rs]), [PgDispatcher] ([dispatcher.rs]),
      [PgRelay] ([relay.rs], [presence.rs], [PgSignal::notify]): the code.
    - [PgRows], [PgTx]: the invariant [db_ok] of a database (the log folds,
      the dispatch table is its projection, the outbox announces events of
      the log in stream order), what other sessions may do to it ([db_grows],
      [fate_ok]), and the invariant [tx_inv] of an open transaction.
    - [PgAppend], [PgInsert], [PgProject], [PgCommit], [PgPublish]: the
      append, statement by statement, up to what its commit publishes;
      [Kept]: folding what a backend kept.
    - [PgPick], [PgRecord], [PgClaim], [PgRetire], [PgHeartbeat]: claim,
      retirement and heartbeat, on every branch; [PgRebuild]: the rebuild;
      [PgRelayFacts]: the relay, presence and notifications; [PgNotify]: an
      append announces the queue of the job it leaves pending, with its commit.
    - [PgContract], [PgSystem]: on an undisturbed database the adapters keep
      the contracts of [Contract] and [System], so that what is proved of the
      use cases and of the system holds of the broker on PostgreSQL.
    - [Agree]: two stores that keep the contract give the same answers up to
      what the JSON column keeps; the in-memory and the PostgreSQL store do.
    - [PgPromises]: each call among other brokers, atomic for every answer;
      that every call is itself such an other broker; and what a call does
      when nothing disturbs it, also in the tick in which a job becomes due.
    - [PgSafe]: programs made of calls that keep the database sound keep it
      sound; the ports as an interface that the adapters implement and the use
      cases and the gRPC handlers rely on.

    ** Signals and the composition root ([src/crates/koine-server])

    - [Signal] (both [signal.rs]): waiters and the listener's loop.
    - [Hub] ([PgSignal]): the listener task, its broadcast channel (the class
      [Broadcast]), the clones that share it and the waits that subscribe, in
      any order of turns; no wake-up is lost, and a wait ends for a reason.
      [Wakeup]: from the commit of an append to the wait that returns.
    - [Server] ([serve.rs], [runtime.rs], [main.rs], [PoolConfig]):
      configuration, tickers, production clock and ids; [ServerFacts]: which
      environments are accepted, and the fold of the jitter seed.
    - [DevLoop], [DevRun] ([dev_loop.rs]): the end-to-end exercise, its worker
      and its main loop interleaved by a schedule; what its success means.
    - [Serve] ([serve::run], [connect_pool], [server]): from the environment
      to the serving process, a machine whose turns are calls, fetch streams,
      ticks, notifications and other brokers in any order, over the
      PostgreSQL adapters; how connections, the transport and the writes to
      the standard streams turn out is an argument. [ServeFacts]: the process
      stays in order, its tickers and its listener running unless a line could
      not be printed, and only callers with the token count.

    ** The unit tests

    - [TestKit]: assertions; [JobTests], [DomainTests], [StoreTests],
      [EdgeTests]: the tests of [job.rs]; of [events.rs], [retry.rs],
      [queue.rs], [ids.rs] and [lineage.rs]; of the in-memory [store.rs] and
      [dispatcher.rs]; of [auth.rs] and [serve.rs], translated like the code,
      each file with the lemma that the model passes them. The tests of the
      in-memory signal measure time, which is not modelled.

    ** Concrete states

    - [JsonSamples]: JSON as trees, with an encoder that evaluates;
      [ChannelSamples]: channels as lists.
    - [Samples]: an in-memory broker driven through the life of a job by
      evaluation; [Witnesses]: the theorems applied at its states.
    - [PgSamples]: a concrete server and JSON encoder; [PgRuns]: the exercise
      run to its end on it; [PgWitnesses]: the theorems applied to that
      database, also with other brokers around it; [ServeWitnesses]: a server
      over that database through a few calls and ticks.

    ** Conventions and bounds

    Integers are [Z] with the wrap-around of a release build written out;
    times are nanoseconds. Theorems about versions carry the bound the code
    leaves implicit, that a stream is shorter than 2^64 events, or 2^63 in
    PostgreSQL; a run from an empty store of at most 2^63 steps satisfies it
    ([System]). JSON payloads are opaque. Async functions are sequential
    programs: a port call of the in-memory adapters is atomic by their mutex,
    one of the PostgreSQL adapters by its transaction, which is proved.
    The theorems on an undisturbed database assume event ids that are fresh
    and a clock whose times fit a TIMESTAMPTZ ([PgContract]); those among
    other brokers do not.

    ** Not modelled

    Connecting, migrating and pooling (sqlx), the scheduling of tasks, timers
    and the inside of channels (tokio), the transport (tonic): their outcomes
    are arguments, their channels classes with the documented laws, their
    schedules lists of turns over which the theorems quantify. The parsing of
    socket addresses and UUIDs and the text of JSON are parameters with the
    facts used of them. The code generated from the protobuf definitions and
    the crates without behaviour are left out; time passes only as readings of
    clocks. Strings are byte strings; the theorems hold of all of
    them, the UTF-8 ones of the code included. *)

From Stdlib Require Export Ascii String.
From stdpp Require Export base tactics countable pretty strings numbers list gmap.

(** ** Outcomes of Rust computations

    [Ok]/[Err] are the two constructors of [std::result::Result]; [Panic] is
    the third thing a call can do, and is kept apart from [Err] because a
    panic is not a value the caller can match on. *)

Inductive result (A E : Type) : Type :=
| Ok (a : A)
| Err (e : E)
| Panic.

Arguments Ok {A E} a.
Arguments Err {A E} e.
Arguments Panic {A E}.

Definition result_bind {A B E : Type} (r : result A E) (k : A → result B E) : result B E :=
  match r with
  | Ok a => k a
  | Err e => Err e
  | Panic => Panic
  end.

Definition map_err {A E F : Type} (f : E → F) (r : result A E) : result A F :=
  match r with
  | Ok a => Ok a
  | Err e => Err (f e)
  | Panic => Panic
  end.

Definition ok_or {A E : Type} (o : option A) (e : E) : result A E :=
  match o with
  | Some a => Ok a
  | None => Err e
  end.

(** A value the code obtains with a panicking operator ([t + d] on
    [chrono::DateTime], an index into a [Vec]). *)
Definition or_panic {A E : Type} (o : option A) : result A E :=
  match o with
  | Some a => Ok a
  | None => Panic
  end.

Definition is_ok {A E : Type} (r : result A E) : bool :=
  match r with
  | Ok _ => true
  | _ => false
  end.

Definition is_panic {A E : Type} (r : result A E) : bool :=
  match r with
  | Panic => true
  | _ => false
  end.

(** ** Stateful, fallible code

    A method on [&mut self] (or on an object behind an [Arc]) that returns a
    [Result] is a function of the state that also returns the state it
    leaves behind, on every outcome: an early return keeps the writes made
    before it. *)

Definition ST (S E A : Type) : Type := S → result A E * S.

Definition st_ret {S E A : Type} (a : A) : ST S E A := λ s, (Ok a, s).

Definition st_err {S E A : Type} (e : E) : ST S E A := λ s, (Err e, s).

Definition st_get {S E : Type} : ST S E S := λ s, (Ok s, s).

Definition st_modify {S E : Type} (f : S → S) : ST S E unit := λ s, (Ok tt, f s).

Definition st_bind {S E A B : Type} (m : ST S E A) (k : A → ST S E B) : ST S E B := λ s,
  match m s with
  | (Ok a, s') => k a s'
  | (Err e, s') => (Err e, s')
  | (Panic, s') => (Panic, s')
  end.

(** A pure fallible call inside stateful code. *)
Definition st_lift {S E A : Type} (r : result A E) : ST S E A := λ s, (r, s).

(** A total stateful call (a clock reading, a fresh identifier). *)
Definition st_total {S E A : Type} (m : S → A * S) : ST S E A := λ s, let '(a, s') := m s in (Ok a, s').

Definition st_map_err {S E F A : Type} (f : E → F) (m : ST S E A) : ST S F A := λ s,
  let '(r, s') := m s in (map_err f r, s').

(** Running stateful code on a part of a larger state. *)
Definition st_zoom {S T E A : Type} (get : T → S) (put : S → T → T) (m : ST S E A) : ST T E A := λ t,
  let '(r, s') := m (get t) in (r, put s' t).

Declare Scope koine_scope.
Delimit Scope koine_scope with koine.

Notation "'let?' x ':=' r 'in' k" := (result_bind r (λ x, k))
  (at level 10, x pattern, r at level 100, k at level 200) : koine_scope.
Notation "'let!' x ':=' m 'in' k" := (st_bind m (λ x, k))
  (at level 10, x pattern, m at level 100, k at level 200) : koine_scope.

Open Scope koine_scope.

(** ** Proof automation *)

Create HintDb koine.

Create Rewrite HintDb koine.

(** Unfold the monad so that [simpl] and [case_match] can run a program. *)
Ltac st_unfold :=
  unfold st_bind, st_ret, st_err, st_get, st_modify, st_lift, st_total, st_map_err, st_zoom in *.

(** Decide every boolean comparison on [Z] in the context. *)
Ltac zb :=
  repeat match goal with
  | H : context [Z.leb ?a ?b] |- _ => destruct (Z.leb_spec a b)
  | H : context [Z.ltb ?a ?b] |- _ => destruct (Z.ltb_spec a b)
  | H : context [Z.eqb ?a ?b] |- _ => destruct (Z.eqb_spec a b)
  | |- context [Z.leb ?a ?b] => destruct (Z.leb_spec a b)
  | |- context [Z.ltb ?a ?b] => destruct (Z.ltb_spec a b)
  | |- context [Z.eqb ?a ?b] => destruct (Z.eqb_spec a b)
  end.

(** Case analysis on the scrutinee of the outermost match of a hypothesis. *)
Ltac case_hyp H :=
  match type of H with
  | context [match ?x with _ => _ end] => destruct x eqn:?
  end; simplify_eq/=.

(** ** Shared lemmas *)

Lemma result_bind_ok {A B E : Type} (r : result A E) (k : A → result B E) (b : B) :
  result_bind r k = Ok b ↔ ∃ a, r = Ok a ∧ k a = Ok b.
Proof. destruct r; simpl; naive_solver. Qed.

Lemma st_bind_ok {S E A B : Type} (m : ST S E A) (k : A → ST S E B) s b s' :
  st_bind m k s = (Ok b, s') ↔ ∃ a s1, m s = (Ok a, s1) ∧ k a s1 = (Ok b, s').
Proof. unfold st_bind. destruct (m s) as [[] ?]; naive_solver. Qed.

Lemma is_ok_spec {A E : Type} (r : result A E) : is_ok r = true ↔ ∃ a, r = Ok a.
Proof. destruct r; naive_solver. Qed.

Lemma Ok_inj {A E : Type} (a b : A) : Ok (E:=E) a = Ok b → a = b.
Proof. by intros [= ->]. Qed.

Lemma not_panic {A E : Type} (r : result A E) : is_panic r = false → r ≠ Panic.
Proof. by intros ? ->. Qed.

(** Running the first call of a sequence. *)
Lemma st_bind_run {S E A B : Type} (m : ST S E A) (k : A → ST S E B) s a s' :
  m s = (Ok a, s') → st_bind m k s = k a s'.
Proof. unfold st_bind. by intros ->. Qed.

Lemma st_bind_err {S E A B : Type} (m : ST S E A) (k : A → ST S E B) s e s' :
  m s = (Err e, s') → st_bind m k s = (Err e, s').
Proof. unfold st_bind. by intros ->. Qed.

Lemma st_total_run {S E A : Type} (m : S → A * S) s a s' :
  m s = (a, s') → st_total (E:=E) m s = (Ok a, s').
Proof. unfold st_total. by intros ->. Qed.

Lemma st_map_err_run {S E F A : Type} (f : E → F) (m : ST S E A) s a s' :
  m s = (Ok a, s') → st_map_err f m s = (Ok a, s').
Proof. unfold st_map_err. by intros ->. Qed.

Lemma st_map_err_err {S E F A : Type} (f : E → F) (m : ST S E A) s e s' :
  m s = (Err e, s') → st_map_err f m s = (Err (f e), s').
Proof. unfold st_map_err. by intros ->. Qed.

(** ** Weakest preconditions

    [wp m s Q X]: run from [s], the call does not panic, a result satisfies
    [Q] and an error [X], each with the state it leaves. *)
Definition wp {S E A : Type} (m : ST S E A) (s : S) (Q : A → S → Prop) (X : E → S → Prop) : Prop :=
  match m s with
  | (Ok a, s') => Q a s'
  | (Err e, s') => X e s'
  | (Panic, _) => False
  end.

Section wp.
Context {S E A : Type}.
Implicit Types (s : S) (Q : A → S → Prop) (X : E → S → Prop).

Lemma wp_ret a s Q X : Q a s → wp (st_ret a) s Q X.
Proof. done. Qed.

Lemma wp_err e s Q X : X e s → wp (st_err e) s Q X.
Proof. done. Qed.

Lemma wp_get s (Q : S → S → Prop) X : Q s s → wp st_get s Q X.
Proof. done. Qed.

Lemma wp_modify f s (Q : unit → S → Prop) X : Q tt (f s) → wp (st_modify f) s Q X.
Proof. done. Qed.

Lemma wp_lift r s Q X :
  match r with Ok a => Q a s | Err e => X e s | Panic => False end → wp (st_lift r) s Q X.
Proof. done. Qed.

Lemma wp_total (m : S → A * S) s Q X : Q (m s).1 (m s).2 → wp (st_total m) s Q X.
Proof. unfold wp, st_total. by destruct (m s). Qed.

Lemma wp_bind {B : Type} (m : ST S E B) (k : B → ST S E A) s Q X :
  wp m s (λ b s', wp (k b) s' Q X) X → wp (st_bind m k) s Q X.
Proof. unfold wp, st_bind. by destruct (m s) as [[] ?]. Qed.

Lemma wp_map_err {F : Type} (f : E → F) m s Q (X : F → S → Prop) :
  wp m s Q (λ e, X (f e)) → wp (st_map_err f m) s Q X.
Proof. unfold wp, st_map_err. by destruct (m s) as [[] ?]. Qed.

Lemma wp_zoom {T : Type} (get : T → S) (put : S → T → T) m t (Q : A → T → Prop) (X : E → T → Prop) :
  wp m (get t) (λ a s', Q a (put s' t)) (λ e s', X e (put s' t)) → wp (st_zoom get put m) t Q X.
Proof. unfold wp, st_zoom. by destruct (m (get t)) as [[] ?]. Qed.

Lemma wp_mono m s Q X (Q' : A → S → Prop) (X' : E → S → Prop) :
  wp m s Q X → (∀ a s', Q a s' → Q' a s') → (∀ e s', X e s' → X' e s') → wp m s Q' X'.
Proof. unfold wp. destruct (m s) as [[] ?]; auto. Qed.
End wp.

(** [wpt] also allows a panic, with what it leaves. *)
Definition wpt {S E A : Type} (m : ST S E A) (s : S) (Q : A → S → Prop) (X : E → S → Prop)
    (Y : S → Prop) : Prop :=
  match m s with
  | (Ok a, s') => Q a s'
  | (Err e, s') => X e s'
  | (Panic, s') => Y s'
  end.

Lemma wp_wpt {S E A : Type} (m : ST S E A) s Q X Y : wp m s Q X → wpt m s Q X Y.
Proof. unfold wp, wpt. by destruct (m s) as [[] ?]. Qed.

Lemma wpt_bind {S E A B : Type} (m : ST S E B) (k : B → ST S E A) s Q X Y :
  wpt m s (λ b s', wpt (k b) s' Q X Y) X Y → wpt (st_bind m k) s Q X Y.
Proof. unfold wpt, st_bind. by destruct (m s) as [[] ?]. Qed.

Lemma wpt_lift {S E A : Type} (r : result A E) (s : S) Q X Y :
  match r with Ok a => Q a s | Err e => X e s | Panic => Y s end → wpt (st_lift r) s Q X Y.
Proof. by destruct r. Qed.

Lemma wpt_step {S E A B : Type} (m : ST S E B) (k : B → ST S E A) s Q X Y :
  wp m s (λ b s', wpt (k b) s' Q X Y) X → wpt (st_bind m k) s Q X Y.
Proof. intros Hm. by apply wpt_bind, wp_wpt. Qed.
