(* ===== verification/Std.v ===== *)
(** * What the sources use of the Rust standard library and of other crates

    Machine integers with their wrap-around and saturation, [Duration],
    UTF-8 strings, and [Externals]: the operations of the crates [chrono],
    [uuid] and [serde_json] that the modelled code calls, as parameters with
    the documented behaviour the proofs rely on. *)

From S2P Require Import Prelude.

Open Scope Z_scope.

(** ** Machine integers

    A w-bit unsigned integer is a [Z] in [0, 2^w); the arithmetic operators
    wrap, as they do in a release build (the workspace sets no profile). *)

Definition U32_MAX : Z := 2 ^ 32 - 1.

Definition U64_MAX : Z := 2 ^ 64 - 1.

Definition wrap (w : Z) (x : Z) : Z := x mod 2 ^ w.

Definition u32_add (a b : Z) : Z := wrap 32 (a + b).

Definition u64_add (a b : Z) : Z := wrap 64 (a + b).

Definition u64_wrapping_mul (a b : Z) : Z := wrap 64 (a * b).

Definition u32_saturating_sub (a b : Z) : Z := Z.max 0 (a - b).

Definition u32_saturating_pow (a n : Z) : Z := Z.min (a ^ n) U32_MAX.

(** [u64::try_from(x).unwrap_or(u64::MAX)] on an unsigned wider integer. *)
Definition u64_try_from_or_max (x : Z) : Z := if x <=? U64_MAX then x else U64_MAX.

(** ** [std::time::Duration]: total nanoseconds, up to [Duration::MAX] *)

Abbreviation Duration := Z (only parsing).

Definition DURATION_MAX : Duration := 2 ^ 64 * 1000000000 - 1.

Definition Duration_from_millis (ms : Z) : Duration := ms * 1000000.

Definition Duration_from_secs (s : Z) : Duration := s * 1000000000.

Definition Duration_from_mins (m : Z) : Duration := m * 60000000000.

Definition Duration_as_millis (d : Duration) : Z := d / 1000000.

Definition Duration_saturating_mul (d : Duration) (n : Z) : Duration := Z.min (d * n) DURATION_MAX.

(** ** Strings: UTF-8 bytes, [chars] decodes them to scalar values *)

Definition byte (a : ascii) : Z := Z.of_N (Ascii.N_of_ascii a).

Definition is_continuation (a : ascii) : bool := (128 <=? byte a) && (byte a <? 192).

Definition REPLACEMENT : Z := 65533.

(** A Rust [str] is always valid UTF-8; on other byte strings (which no
    Rust value holds) an undecodable byte counts as U+FFFD. *)
Fixpoint chars (s : string) : list Z :=
  match s with
  | EmptyString => []
  | String a s1 =>
      if byte a <? 128 then byte a :: chars s1
      else if byte a <? 194 then REPLACEMENT :: chars s1
      else if byte a <? 224 then
        match s1 with
        | String a1 s2 =>
            if is_continuation a1
            then (byte a - 192) * 64 + (byte a1 - 128) :: chars s2
            else REPLACEMENT :: chars s1
        | EmptyString => [REPLACEMENT]
        end
      else if byte a <? 240 then
        match s1 with
        | String a1 (String a2 s3) =>
            let c := (byte a - 224) * 4096 + (byte a1 - 128) * 64 + (byte a2 - 128) in
            if is_continuation a1 && is_continuation a2 && (2048 <=? c)
            then c :: chars s3 else REPLACEMENT :: chars s1
        | _ => REPLACEMENT :: chars s1
        end
      else
        match s1 with
        | String a1 (String a2 (String a3 s4)) =>
            let c := (byte a - 240) * 262144 + (byte a1 - 128) * 4096
                     + (byte a2 - 128) * 64 + (byte a3 - 128) in
            if is_continuation a1 && is_continuation a2 && is_continuation a3
               && (65536 <=? c) && (c <=? 1114111)
            then c :: chars s4 else REPLACEMENT :: chars s1
        | _ => REPLACEMENT :: chars s1
        end
  end.

(** [str::len]: bytes, not characters. *)
Definition str_len (s : string) : Z := Z.of_nat (String.length s).

Definition str_is_empty (s : string) : bool := str_len s =? 0.

Fixpoint bytes (s : string) : list Z :=
  match s with
  | EmptyString => []
  | String a s1 => byte a :: bytes s1
  end.

(** [char::is_control]: the Unicode category Cc. *)
Definition char_is_control (c : Z) : bool := (c <=? 31) || ((127 <=? c) && (c <=? 159)).

Definition char_is_ascii_lowercase (c : Z) : bool := (97 <=? c) && (c <=? 122).

Definition char_is_ascii_digit (c : Z) : bool := (48 <=? c) && (c <=? 57).

(** ** Iterators

    [Iterator::max_by_key] keeps the last of several maxima, [Iterator::min]
    the first of several minima; [leb] is the order on the keys. *)

Definition max_by {A : Type} (leb : A → A → bool) (l : list A) : option A :=
  foldl (λ best x,
    match best with
    | None => Some x
    | Some b => if leb b x then Some x else Some b
    end) None l.

Definition min_by {A : Type} (leb : A → A → bool) (l : list A) : option A :=
  foldl (λ best x,
    match best with
    | None => Some x
    | Some b => if leb b x then Some b else Some x
    end) None l.

(** ** Other crates

    A [DateTime<Utc>] is its count of nanoseconds since the Unix epoch, a
    [TimeDelta] a count of nanoseconds, a [Uuid] its 128-bit value. *)

Abbreviation DateTime := Z (only parsing).
Abbreviation TimeDelta := Z (only parsing).
Abbreviation Uuid := N (only parsing).

Definition Uuid_nil : Uuid := 0%N.

Class Externals : Type := {
  (** [serde_json::Value]: opaque to the broker. *)
  Value : Type;
  Value_eq_dec :: EqDecision Value;
  (** [Display] of [uuid::Uuid]. *)
  Uuid_to_string : Uuid → string;
  (** [chrono::TimeDelta::from_std]: [None] is [OutOfRangeError]. *)
  TimeDelta_from_std : Duration → option TimeDelta;
  (** [chrono::DateTime::checked_add_signed]. The [+] operator is the same
      sum and panics where this returns [None]. *)
  checked_add_signed : DateTime → TimeDelta → option DateTime;
  from_std_exact : ∀ d δ, TimeDelta_from_std d = Some δ → δ = d;
  from_std_downward : ∀ d d', 0 ≤ d' ≤ d →
    is_Some (TimeDelta_from_std d) → is_Some (TimeDelta_from_std d');
  checked_add_exact : ∀ t δ t', checked_add_signed t δ = Some t' → t' = t + δ;
  checked_add_downward : ∀ t δ δ', 0 ≤ δ' ≤ δ →
    is_Some (checked_add_signed t δ) → is_Some (checked_add_signed t δ');
}.

(** A concrete choice, with the limits chrono 0.4 documents: a delta is at
    most [i64::MAX] milliseconds, a date between the years -262143 and
    262142. Payloads are their JSON text. *)

Definition TIMEDELTA_MAX : Z := (2 ^ 63 - 1) * 1000000.

Definition DATETIME_MIN : Z := -8334601228800 * 1000000000.

Definition DATETIME_MAX : Z := 8210266876799 * 1000000000 + 999999999.

Definition sample_from_std (d : Duration) : option TimeDelta :=
  if d <=? TIMEDELTA_MAX then Some d else None.

Definition sample_checked_add (t : DateTime) (δ : TimeDelta) : option DateTime :=
  if (t + δ <=? DATETIME_MAX) && (DATETIME_MIN <=? t) && (DATETIME_MIN <=? t + δ)
  then Some (t + δ) else None.

(** Identifiers print as their bits, lowest first. *)
Fixpoint bits_of_pos (p : positive) : string :=
  match p with
  | xH => "1"
  | xO p => String "0" (bits_of_pos p)
  | xI p => String "1" (bits_of_pos p)
  end.

Definition sample_uuid_to_string (u : Uuid) : string :=
  match u with
  | N0 => EmptyString
  | Npos p => bits_of_pos p
  end.

Definition sample_externals : Externals.
Proof.
  refine {|
    Value := string;
    Uuid_to_string := sample_uuid_to_string;
    TimeDelta_from_std := sample_from_std;
    checked_add_signed := sample_checked_add;
  |}; unfold sample_from_std, sample_checked_add, is_Some;
  intros; zb; simplify_eq/=; destruct_and?; naive_solver lia.
Defined.

(** ** Lemmas *)

Lemma wrap_id w x : 0 ≤ x < 2 ^ w → wrap w x = x.
Proof. apply Z.mod_small. Qed.

Lemma wrap_range w x : 0 ≤ w → 0 ≤ wrap w x < 2 ^ w.
Proof. intros ?. apply Z.mod_pos_bound. lia. Qed.

Lemma u32_add_id a b : 0 ≤ a → 0 ≤ b → a + b ≤ U32_MAX → u32_add a b = a + b.
Proof. unfold U32_MAX. intros. apply wrap_id. lia. Qed.

Lemma u64_add_id a b : 0 ≤ a → 0 ≤ b → a + b ≤ U64_MAX → u64_add a b = a + b.
Proof. unfold U64_MAX. intros. apply wrap_id. lia. Qed.

#[export] Hint Rewrite u32_add_id u64_add_id using (solve [lia]) : koine.

Lemma byte_range a : 0 ≤ byte a < 256.
Proof.
  unfold byte. pose proof (N_ascii_bounded a). lia.
Qed.

Lemma str_is_empty_spec s : str_is_empty s = true ↔ s = EmptyString.
Proof.
  unfold str_is_empty, str_len. rewrite Z.eqb_eq.
  destruct s; simpl; split; intros; [done | done | lia | done].
Qed.

(** The first character of a string that starts with a non-ASCII byte is
    not an ASCII character. *)
Lemma chars_non_ascii_head a s :
  128 ≤ byte a → ∃ c cs, chars (String a s) = c :: cs ∧ 128 ≤ c.
Proof.
  intros Ha. simpl. pose proof (byte_range a).
  destruct (Z.ltb_spec (byte a) 128); [lia|].
  destruct (Z.ltb_spec (byte a) 194); [by eexists _, _|].
  destruct (Z.ltb_spec (byte a) 224).
  { destruct s as [|a1 s2]; [by eexists _, _|].
    destruct (is_continuation a1) eqn:E; [|by eexists _, _].
    eexists _, _. split; [done|]. unfold is_continuation in E. zb; simpl in *; [lia|done..]. }
  destruct (Z.ltb_spec (byte a) 240).
  { destruct s as [|a1 [|a2 s3]]; [by eexists _, _..|].
    case_match eqn:E; [|by eexists _, _].
    eexists _, _. split; [done|]. apply andb_true_iff in E as [_ E%Z.leb_le]. lia. }
  destruct s as [|a1 [|a2 [|a3 s4]]]; [by eexists _, _..|].
  case_match eqn:E; [|by eexists _, _].
  eexists _, _. split; [done|].
  apply andb_true_iff in E as [[_ E%Z.leb_le]%andb_true_iff _]. lia.
Qed.

(** A predicate that holds of ASCII characters only holds of every character
    of a string exactly when it holds of every byte. *)
Lemma chars_all_ascii (f : Z → bool) s :
  (∀ c, f c = true → c < 128) →
  forallb f (chars s) = forallb f (bytes s).
Proof.
  intros Hf. induction s as [|a s IH]; [done|].
  destruct (Z.lt_ge_cases (byte a) 128) as [Ha|Ha].
  - simpl. destruct (Z.ltb_spec (byte a) 128); [|lia]. simpl. by rewrite IH.
  - destruct (chars_non_ascii_head a s Ha) as (c & cs & -> & Hc). simpl.
    destruct (f c) eqn:E; [apply Hf in E; lia|].
    destruct (f (byte a)) eqn:E'; [apply Hf in E'; lia|done].
Qed.

(** ** The standard streams

    A stream of the process: the lines written to it, the lines it did not
    take, and how the next writes turn out (they succeed when nothing is
    said). *)

Record Output : Type := Output_mk {
  out_lines : list string;
  out_lost : list string;
  out_script : list bool;
}.

(** A stream that takes every line. *)
Definition Output_new : Output := Output_mk [] [] [].

(** [println!] and [eprintln!]: they panic when the line cannot be written. *)
Definition println {E : Type} (line : string) : ST Output E unit := λ o,
  match out_script o with
  | false :: rest => (Panic, Output_mk (out_lines o) (out_lost o ++ [line]) rest)
  | true :: rest => (Ok tt, Output_mk (out_lines o ++ [line]) (out_lost o) rest)
  | [] => (Ok tt, Output_mk (out_lines o ++ [line]) (out_lost o) [])
  end.

(** One after the other. *)
Fixpoint printlns {E : Type} (lines : list string) : ST Output E unit :=
  match lines with
  | [] => st_ret tt
  | line :: lines => let! _ := println line in printlns lines
  end.

(** Printing ends in a panic exactly when a line is lost. *)
Definition printing {E : Type} (o : Output) (x : result unit E * Output) : Prop :=
  x.1 = Ok tt ∧ out_lost x.2 = out_lost o ∨ x.1 = Panic ∧ out_lost x.2 ≠ [].

Lemma println_cases {E : Type} line o : printing o (println (E:=E) line o).
Proof.
  unfold println. destruct (out_script o) as [|[] rest]; [by left|by left|]. right. split; [done|]. simpl.
  by destruct (out_lost o).
Qed.

Lemma printlns_cases {E : Type} lines o : printing o (printlns (E:=E) lines o).
Proof.
  revert o. induction lines as [|line lines IH]; intros o; [by left|]. simpl. unfold st_bind.
  destruct (println_cases (E:=E) line o) as [[Hr Hl]|[Hr Hl]]; destruct (println line o) as [r o1]; simpl in *; subst r.
  - destruct (IH o1) as [[? H2]|?]; [left|by right]. by rewrite H2, Hl.
  - by right.
Qed.

(** The iterator reductions, for a total preorder on the keys. *)
Section iterators.
Context {A : Type} (leb : A → A → bool).
Hypothesis leb_total : ∀ a b, leb a b = true ∨ leb b a = true.
Hypothesis leb_trans : ∀ a b c, leb a b = true → leb b c = true → leb a c = true.

Lemma leb_refl a : leb a a = true.
Proof. by destruct (leb_total a a). Qed.

Lemma max_by_spec l :
  match max_by leb l with
  | None => l = []
  | Some x => x ∈ l ∧ ∀ y, y ∈ l → leb y x = true
  end.
Proof.
  unfold max_by. induction l as [|x l IH] using rev_ind; [done|].
  rewrite foldl_app. simpl.
  destruct (foldl _ None l) as [b|]; [destruct IH as [Hb Hmax], (leb b x) eqn:E|subst];
    setoid_rewrite elem_of_app; setoid_rewrite list_elem_of_singleton.
  - split; [by right|]. intros y [?| ->]; [eauto|apply leb_refl].
  - split; [by left|]. intros y [?| ->]; [auto|]. destruct (leb_total b x); [congruence|done].
  - split; [by right|]. intros y [Hy| ->]; [by apply elem_of_nil in Hy|apply leb_refl].
Qed.

Lemma min_by_spec l :
  match min_by leb l with
  | None => l = []
  | Some x => x ∈ l ∧ ∀ y, y ∈ l → leb x y = true
  end.
Proof.
  unfold min_by. induction l as [|x l IH] using rev_ind; [done|].
  rewrite foldl_app. simpl.
  destruct (foldl _ None l) as [b|]; [destruct IH as [Hb Hmin], (leb b x) eqn:E|subst];
    setoid_rewrite elem_of_app; setoid_rewrite list_elem_of_singleton.
  - split; [by left|]. intros y [?| ->]; auto.
  - destruct (leb_total b x); [congruence|].
    split; [by right|]. intros y [?| ->]; [eauto|apply leb_refl].
  - split; [by right|]. intros y [Hy| ->]; [by apply elem_of_nil in Hy|apply leb_refl].
Qed.
End iterators.
