(* ===== verification/Ids.v ===== *)
(** * Domain errors, identifiers and queue names

    [koine-domain/src/error.rs], [ids.rs] and [queue.rs]: the error type of
    the domain with its [Display] text, the UUID newtypes, the two validated
    string newtypes ([WorkerId], [QueueName]) and [Priority]. *)

From S2P Require Import Prelude Std.

Open Scope string_scope.
Open Scope list_scope.
Open Scope Z_scope.

(** ** error.rs *)

Inductive DomainError : Type :=
| IllegalTransition (state event : string)
| InvalidQueueName (reason : string)
| InvalidWorkerId (reason : string)
| StreamMustStartWithEnqueued (got : string)
| LeaseMismatch
| InvalidTtl
| NonSequentialVersion (expected got : Z).

(** The [#[error(...)]] texts. *)
Definition DomainError_to_string (e : DomainError) : string :=
  match e with
  | IllegalTransition state event =>
      "illegal transition: event `" +:+ event +:+ "` in state `" +:+ state +:+ "`"
  | InvalidQueueName reason => "invalid queue name: " +:+ reason
  | InvalidWorkerId reason => "invalid worker id: " +:+ reason
  | StreamMustStartWithEnqueued got =>
      "event stream must start with `enqueued`, got `" +:+ got +:+ "`"
  | LeaseMismatch => "lease mismatch"
  | InvalidTtl => "ttl out of range"
  | NonSequentialVersion expected got =>
      "non-sequential version: expected " +:+ pretty expected +:+ ", got " +:+ pretty got
  end.

(** ** ids.rs *)

Record JobId : Type := JobId_new { JobId_as_uuid : Uuid }.

Record EventId : Type := EventId_new { EventId_as_uuid : Uuid }.

Record LeaseId : Type := LeaseId_new { LeaseId_as_uuid : Uuid }.

Record CorrelationId : Type := CorrelationId_new { CorrelationId_as_uuid : Uuid }.

#[export] Instance JobId_eq_dec : EqDecision JobId.
Proof. solve_decision. Defined.

#[export] Instance EventId_eq_dec : EqDecision EventId.
Proof. solve_decision. Defined.

#[export] Instance LeaseId_eq_dec : EqDecision LeaseId.
Proof. solve_decision. Defined.

#[export] Instance CorrelationId_eq_dec : EqDecision CorrelationId.
Proof. solve_decision. Defined.

#[export] Instance JobId_countable : Countable JobId.
Proof. apply (inj_countable' JobId_as_uuid JobId_new). by intros []. Defined.

(** The derived [Ord] of a newtype is that of its UUID. *)
Definition JobId_leb (a b : JobId) : bool := N.leb (JobId_as_uuid a) (JobId_as_uuid b).

(** The field of [WorkerId] is private: [WorkerId_new] is the only way to
    make one outside the crate, [WorkerId_mk] stands for [Self(id)]. *)
Record WorkerId : Type := WorkerId_mk { WorkerId_as_str : string }.

#[export] Instance WorkerId_eq_dec : EqDecision WorkerId.
Proof. solve_decision. Defined.

Definition WorkerId_new (id : string) : result WorkerId DomainError :=
  if str_is_empty id then Err (InvalidWorkerId "empty")
  else if 256 <? str_len id then Err (InvalidWorkerId "longer than 256 bytes")
  else if existsb char_is_control (chars id) then Err (InvalidWorkerId "control characters")
  else Ok (WorkerId_mk id).

(** [TryFrom<String>] (also what deserialization runs) and [From<WorkerId>]. *)
Definition WorkerId_try_from (value : string) : result WorkerId DomainError := WorkerId_new value.

Definition WorkerId_into (value : WorkerId) : string := WorkerId_as_str value.

(** ** queue.rs *)

Record QueueName : Type := QueueName_mk { QueueName_as_str : string }.

#[export] Instance QueueName_eq_dec : EqDecision QueueName.
Proof. solve_decision. Defined.

#[export] Instance QueueName_countable : Countable QueueName.
Proof. apply (inj_countable' QueueName_as_str QueueName_mk). by intros []. Defined.

(** The closure of [QueueName::new]: [.] is 46, [_] is 95, [-] is 45. *)
Definition queue_char_ok (c : Z) : bool :=
  char_is_ascii_lowercase c || char_is_ascii_digit c || ((c =? 46) || (c =? 95) || (c =? 45)).

Definition QueueName_new (name : string) : result QueueName DomainError :=
  if str_is_empty name then Err (InvalidQueueName "empty")
  else if 128 <? str_len name then Err (InvalidQueueName "longer than 128 bytes")
  else
    let ok := forallb queue_char_ok (chars name) in
    if negb ok then Err (InvalidQueueName "only [a-z0-9._-] allowed")
    else Ok (QueueName_mk name).

Definition QueueName_try_from (value : string) : result QueueName DomainError := QueueName_new value.

Definition QueueName_into (value : QueueName) : string := QueueName_as_str value.

(** [Priority(pub i16)], ordered as its number; [Default] is 0. *)
Record Priority : Type := Priority_mk { priority_value : Z }.

Definition Priority_default : Priority := Priority_mk 0.

(** ** Lemmas *)

Lemma JobId_leb_total a b : JobId_leb a b = true ∨ JobId_leb b a = true.
Proof. unfold JobId_leb. rewrite !N.leb_le. lia. Qed.

Lemma JobId_leb_antisymm a b : JobId_leb a b = true → JobId_leb b a = true → a = b.
Proof.
  unfold JobId_leb. rewrite !N.leb_le. destruct a as [a], b as [b]; simpl. intros.
  f_equal. lia.
Qed.

Lemma JobId_leb_trans a b c : JobId_leb a b = true → JobId_leb b c = true → JobId_leb a c = true.
Proof. unfold JobId_leb. rewrite !N.leb_le. lia. Qed.

Lemma queue_char_ok_spec c :
  queue_char_ok c = true ↔ 97 ≤ c ≤ 122 ∨ 48 ≤ c ≤ 57 ∨ c ∈ [46; 95; 45].
Proof.
  unfold queue_char_ok, char_is_ascii_lowercase, char_is_ascii_digit.
  rewrite !orb_true_iff, !andb_true_iff, !Z.leb_le, !Z.eqb_eq, !elem_of_cons, elem_of_nil.
  tauto.
Qed.

Lemma queue_char_ok_ascii c : queue_char_ok c = true → c < 128.
Proof.
  rewrite queue_char_ok_spec, !elem_of_cons, elem_of_nil. lia.
Qed.

Lemma forallb_Forall {A} (f : A → bool) (P : A → Prop) (l : list A) :
  (∀ x, f x = true ↔ P x) → forallb f l = true ↔ Forall P l.
Proof.
  intros Hf. induction l as [|x l IH]; simpl.
  - by split; constructor.
  - by rewrite andb_true_iff, Forall_cons, IH, Hf.
Qed.

Lemma str_len_pos s : str_is_empty s = false → 1 ≤ str_len s.
Proof. unfold str_is_empty, str_len. intros ?%Z.eqb_neq. lia. Qed.

(** ** Theorems *)

(** A string is a queue name exactly when it has 1 to 128 bytes and each of
    them is one of [a-z0-9._-]; the name wraps the string unchanged. *)
Theorem QueueName_new_spec (name : string) (q : QueueName) :
  QueueName_new name = Ok q ↔
    QueueName_as_str q = name ∧ 1 ≤ str_len name ≤ 128 ∧
    Forall (λ b, 97 ≤ b ≤ 122 ∨ 48 ≤ b ≤ 57 ∨ b ∈ [46; 95; 45]) (bytes name).
Proof.
  rewrite <-(forallb_Forall _ _ _ queue_char_ok_spec).
  rewrite <-(chars_all_ascii _ _ queue_char_ok_ascii). unfold QueueName_new.
  destruct (str_is_empty name) eqn:E0.
  { apply str_is_empty_spec in E0 as ->. unfold str_len; simpl. naive_solver lia. }
  apply str_len_pos in E0.
  destruct (Z.ltb_spec 128 (str_len name)); [naive_solver lia|].
  destruct (forallb _ _); simpl; [|naive_solver].
  destruct q as [s]; simpl. split; [intros [= ->]; auto with lia|]. intros (-> & _). done.
Qed.

(** A string is a worker id exactly when it has 1 to 256 bytes and no
    character of the Unicode control category; the id wraps it unchanged. *)
Theorem WorkerId_new_spec (id : string) (w : WorkerId) :
  WorkerId_new id = Ok w ↔
    WorkerId_as_str w = id ∧ 1 ≤ str_len id ≤ 256 ∧
    Forall (λ c, ¬ (c ≤ 31 ∨ 127 ≤ c ≤ 159)) (chars id).
Proof.
  assert (Hc : ∀ c, negb (char_is_control c) = true ↔ ¬ (c ≤ 31 ∨ 127 ≤ c ≤ 159)).
  { intros c. unfold char_is_control.
    rewrite negb_true_iff, orb_false_iff, andb_false_iff, !Z.leb_gt. lia. }
  rewrite <-(forallb_Forall _ _ _ Hc). unfold WorkerId_new.
  destruct (str_is_empty id) eqn:E0.
  { apply str_is_empty_spec in E0 as ->. unfold str_len; simpl. naive_solver lia. }
  apply str_len_pos in E0.
  destruct (Z.ltb_spec 256 (str_len id)); [naive_solver lia|].
  assert (existsb char_is_control (chars id)
          = negb (forallb (λ c, negb (char_is_control c)) (chars id))) as ->.
  { induction (chars id) as [|c cs IH]; simpl; [done|]. rewrite IH. by destruct (char_is_control c). }
  destruct (forallb _ _); simpl; [|naive_solver].
  destruct w as [s]; simpl. split; [intros [= ->]; auto with lia|]. intros (-> & _). done.
Qed.

(** A name or worker id that passed its validation passes it again when it is
    read back: deserialization of what was serialized gives the same value. *)
Theorem names_survive_serde n q i w :
  QueueName_new n = Ok q → WorkerId_new i = Ok w →
  QueueName_try_from (QueueName_into q) = Ok q ∧ QueueName_into q = n ∧
  WorkerId_try_from (WorkerId_into w) = Ok w ∧ WorkerId_into w = i.
Proof.
  intros Hq Hw. unfold QueueName_try_from, WorkerId_try_from.
  assert (QueueName_into q = n) as -> by (unfold QueueName_new in Hq; repeat case_match; naive_solver).
  assert (WorkerId_into w = i) as -> by (unfold WorkerId_new in Hw; repeat case_match; naive_solver).
  done.
Qed.

Lemma names_survive_serde_witness :
  QueueName_try_from "mail.outgoing" = Ok (QueueName_mk "mail.outgoing").
Proof.
  apply (names_survive_serde "mail.outgoing" (QueueName_mk "mail.outgoing") "w-1" (WorkerId_mk "w-1"));
    by vm_compute.
Defined.
