(* ===== verification/Retry.v ===== *)
(** * The retry policy ([koine-domain/src/retry.rs])

    Exponential backoff with full jitter as a pure function of the policy,
    the completed attempts and a seed, and the [SplitMix64] step that turns
    the seed into the jitter. *)

From S2P Require Import Prelude Std.

Open Scope Z_scope.

(** ** Definitions *)

Inductive RetryDecision : Type :=
| RetryAfter (delay : Duration)
| Park.

Record RetryPolicy : Type := RetryPolicy_mk {
  max_attempts : Z;
  base_delay : Duration;
  max_delay : Duration;
}.

Definition RetryPolicy_default : RetryPolicy := {|
  max_attempts := 20;
  base_delay := Duration_from_secs 2;
  max_delay := Duration_from_mins 15;
|}.

Definition splitmix64 (x : Z) : Z :=
  let z := u64_add x 0x9E3779B97F4A7C15 in
  let z := u64_wrapping_mul (Z.lxor z (Z.shiftr z 30)) 0xBF58476D1CE4E5B9 in
  let z := u64_wrapping_mul (Z.lxor z (Z.shiftr z 27)) 0x94D049BB133111EB in
  Z.lxor z (Z.shiftr z 31).

(** The jitter window in milliseconds: the inclusive upper end of the range
    [RetryPolicy::decide] draws from (the [millis] of the source). *)
Definition backoff_millis (self : RetryPolicy) (attempts_completed : Z) : Z :=
  let exp := Z.min (u32_saturating_sub attempts_completed 1) 31 in
  let uncapped := Duration_saturating_mul (base_delay self) (u32_saturating_pow 2 exp) in
  let capped := Z.min uncapped (max_delay self) in
  Z.min (u64_try_from_or_max (Duration_as_millis capped)) (U64_MAX - 1).

Definition RetryPolicy_decide (self : RetryPolicy) (attempts_completed seed : Z) : RetryDecision :=
  if max_attempts self <=? attempts_completed then Park
  else
    let millis := backoff_millis self attempts_completed in
    let jittered :=
      if millis =? 0 then 0
      else splitmix64 (Z.lxor seed attempts_completed) mod (u64_add millis 1) in
    RetryAfter (Duration_from_millis jittered).

(** The ranges of the field types ([u32], [Duration]). *)
Definition RetryPolicy_typed (p : RetryPolicy) : Prop :=
  0 ≤ max_attempts p ≤ U32_MAX ∧ 0 ≤ base_delay p ≤ DURATION_MAX ∧ 0 ≤ max_delay p ≤ DURATION_MAX.

(** The inverse of the [SplitMix64] step, the witness that the step permutes
    the 64-bit integers: undo the final mix, then each multiplication by the
    inverse of its odd constant modulo 2^64. *)
Definition unmix (k x : Z) : Z := Z.lxor (Z.lxor x (Z.shiftr x k)) (Z.shiftr x (2 * k)).

Definition splitmix64_inv (y : Z) : Z :=
  let z := unmix 31 y in
  let z := unmix 27 (u64_wrapping_mul z 3573116690164977347) in
  let z := unmix 30 (u64_wrapping_mul z 10871156337175269513) in
  wrap 64 (z - 0x9E3779B97F4A7C15).

(** ** Lemmas *)

Lemma u64_bits x i : 0 ≤ x < 2 ^ 64 → 64 ≤ i → Z.testbit x i = false.
Proof.
  intros Hx ?. rewrite <-(Z.mod_small x (2 ^ 64)) by lia. by apply Z.mod_pow2_bits_high.
Qed.

Lemma u64_of_bits x : 0 ≤ x → (∀ i, 64 ≤ i → Z.testbit x i = false) → x < 2 ^ 64.
Proof.
  intros Hx Hb. assert (x = x mod 2 ^ 64) as ->; [|by apply Z.mod_pos_bound].
  apply Z.bits_inj'; intros i ?. destruct (Z.lt_ge_cases i 64).
  - by rewrite Z.mod_pow2_bits_low.
  - rewrite Z.mod_pow2_bits_high by done. auto.
Qed.

Lemma lxor_range x y : 0 ≤ x < 2 ^ 64 → 0 ≤ y < 2 ^ 64 → 0 ≤ Z.lxor x y < 2 ^ 64.
Proof.
  intros Hx Hy. assert (0 ≤ Z.lxor x y) by (apply Z.lxor_nonneg; lia).
  split; [done|]. apply u64_of_bits; [done|]. intros i ?.
  by rewrite Z.lxor_spec, !u64_bits.
Qed.

Lemma shiftr_range x k : 0 ≤ x < 2 ^ 64 → 0 ≤ k → 0 ≤ Z.shiftr x k < 2 ^ 64.
Proof.
  intros Hx Hk. assert (0 ≤ Z.shiftr x k) by (apply Z.shiftr_nonneg; lia).
  split; [done|]. apply u64_of_bits; [done|]. intros i ?.
  rewrite Z.shiftr_spec by lia. apply u64_bits; lia.
Qed.

#[export] Hint Resolve lxor_range shiftr_range : koine.

Lemma mix_range x k : 0 ≤ x < 2 ^ 64 → 0 ≤ k → 0 ≤ Z.lxor x (Z.shiftr x k) < 2 ^ 64.
Proof. auto with koine. Qed.

Lemma unmix_range k x : 0 ≤ x < 2 ^ 64 → 0 ≤ k → 0 ≤ unmix k x < 2 ^ 64.
Proof. intros. unfold unmix. auto 6 with koine lia. Qed.

(** [x ^ (x >> k)] undoes [unmix k] when three shifts clear the word. *)
Lemma mix_unmix k x : 22 ≤ k → 0 ≤ x < 2 ^ 64 →
  Z.lxor (unmix k x) (Z.shiftr (unmix k x) k) = x.
Proof.
  intros Hk Hx. unfold unmix. apply Z.bits_inj'; intros i ?.
  rewrite !Z.lxor_spec, !Z.shiftr_spec, !Z.lxor_spec, !Z.shiftr_spec by lia.
  replace (i + k + 2 * k) with (i + 3 * k) by lia.
  replace (i + k + k) with (i + 2 * k) by lia.
  rewrite (u64_bits x (i + 3 * k)) by lia.
  by destruct (Z.testbit x i), (Z.testbit x (i + k)), (Z.testbit x (i + 2 * k)).
Qed.

Lemma wrapping_mul_inverse x c d :
  (d * c) mod 2 ^ 64 = 1 → 0 ≤ x < 2 ^ 64 →
  u64_wrapping_mul (u64_wrapping_mul x d) c = x.
Proof.
  intros Hdc Hx. unfold u64_wrapping_mul, wrap.
  rewrite Z.mul_mod_idemp_l, <-Z.mul_assoc, <-Z.mul_mod_idemp_r, Hdc, Z.mul_1_r by done.
  by apply Z.mod_small.
Qed.

Lemma u64_wrapping_mul_range x c : 0 ≤ u64_wrapping_mul x c < 2 ^ 64.
Proof. by apply wrap_range. Qed.

(** The step is onto the 64-bit integers. *)
Lemma splitmix64_surjective y : 0 ≤ y < 2 ^ 64 → splitmix64 (splitmix64_inv y) = y.
Proof.
  intros Hy. unfold splitmix64, splitmix64_inv.
  assert (H1 : 0 ≤ unmix 31 y < 2 ^ 64) by (apply unmix_range; lia).
  set (a := unmix 31 y) in *.
  pose proof (u64_wrapping_mul_range a 3573116690164977347) as H2.
  set (b := u64_wrapping_mul a 3573116690164977347) in *.
  pose proof (u64_wrapping_mul_range (unmix 27 b) 10871156337175269513) as H3.
  set (c := u64_wrapping_mul (unmix 27 b) 10871156337175269513) in *.
  assert (u64_add (wrap 64 (unmix 30 c - 0x9E3779B97F4A7C15)) 0x9E3779B97F4A7C15 = unmix 30 c) as ->.
  { unfold u64_add, wrap. rewrite Z.add_mod_idemp_l by done.
    replace (_ - _ + _) with (unmix 30 c) by lia. apply Z.mod_small, unmix_range; lia. }
  rewrite mix_unmix by lia. unfold c. rewrite wrapping_mul_inverse; [|done|by apply unmix_range].
  rewrite mix_unmix by lia. unfold b. rewrite wrapping_mul_inverse by done.
  by apply mix_unmix.
Qed.

Lemma saturating_pow_2 n : 0 ≤ n ≤ 31 → u32_saturating_pow 2 n = 2 ^ n.
Proof.
  intros. unfold u32_saturating_pow, U32_MAX. apply Z.min_l.
  assert (2 ^ n ≤ 2 ^ 31) by (apply Z.pow_le_mono_r; lia). lia.
Qed.

(** The window, without machine arithmetic. *)
Lemma backoff_millis_bounds p n :
  RetryPolicy_typed p → 1 ≤ n ≤ U32_MAX →
  0 ≤ backoff_millis p n < U64_MAX ∧
  Duration_from_millis (backoff_millis p n) ≤ max_delay p ∧
  Duration_from_millis (backoff_millis p n) ≤ base_delay p * 2 ^ Z.min (n - 1) 31.
Proof.
  intros (_ & Hb & Hm) Hn. unfold backoff_millis, u32_saturating_sub.
  rewrite (Z.max_r 0 (n - 1)), saturating_pow_2 by lia.
  set (e := 2 ^ Z.min (n - 1) 31).
  assert (0 < e) by (apply Z.pow_pos_nonneg; lia).
  unfold Duration_saturating_mul, Duration_as_millis, Duration_from_millis, u64_try_from_or_max.
  set (capped := Z.min _ (max_delay p)).
  assert (0 ≤ capped ≤ max_delay p) by (unfold capped, DURATION_MAX in *; nia).
  assert (capped ≤ base_delay p * e) by (unfold capped; lia).
  assert (0 ≤ capped / 1000000 * 1000000 ≤ capped).
  { pose proof (Z.mul_div_le capped 1000000). pose proof (Z.div_pos capped 1000000). lia. }
  unfold U64_MAX. destruct (Z.leb_spec (capped / 1000000) (2 ^ 64 - 1)); lia.
Qed.

Lemma decide_retry p n seed :
  n < max_attempts p →
  RetryPolicy_decide p n seed = RetryAfter (Duration_from_millis
    (if backoff_millis p n =? 0 then 0
     else splitmix64 (Z.lxor seed n) mod u64_add (backoff_millis p n) 1)).
Proof. intros. unfold RetryPolicy_decide. by destruct (Z.leb_spec (max_attempts p) n); [lia|]. Qed.

Lemma decide_park p n seed : max_attempts p ≤ n → RetryPolicy_decide p n seed = Park.
Proof. intros. unfold RetryPolicy_decide. by destruct (Z.leb_spec (max_attempts p) n); [|lia]. Qed.

Lemma decide_delay_range p n seed d :
  RetryPolicy_typed p → 1 ≤ n ≤ U32_MAX →
  RetryPolicy_decide p n seed = RetryAfter d →
  n < max_attempts p ∧ 0 ≤ d ≤ Duration_from_millis (backoff_millis p n).
Proof.
  intros Hp Hn Hd. pose proof (backoff_millis_bounds p n Hp Hn) as ([H0 Hmax] & _).
  destruct (Z.lt_ge_cases n (max_attempts p)) as [Hlt|Hge];
    [|by rewrite decide_park in Hd].
  rewrite decide_retry in Hd by done. simplify_eq. split; [done|].
  unfold Duration_from_millis.
  destruct (Z.eqb_spec (backoff_millis p n) 0); [lia|].
  rewrite u64_add_id by lia.
  pose proof (Z.mod_pos_bound (splitmix64 (Z.lxor seed n)) (backoff_millis p n + 1)). lia.
Qed.

(** ** Theorems *)

(** C34: Attempts below the policy's maximum are retried and the others parked;
    a retry's delay lies in [0, min(base * 2^(n-1), cap)], with the exponent
    stopping at 31, whatever the seed. *)
Theorem decide_bounds p n seed :
  RetryPolicy_typed p → 1 ≤ n ≤ U32_MAX →
  (RetryPolicy_decide p n seed = Park ∧ max_attempts p ≤ n) ∨
  (∃ d, RetryPolicy_decide p n seed = RetryAfter d ∧ n < max_attempts p ∧
     0 ≤ d ≤ Z.min (base_delay p * 2 ^ Z.min (n - 1) 31) (max_delay p)).
Proof.
  intros Hp Hn. destruct (Z.lt_ge_cases n (max_attempts p)) as [Hlt|Hge].
  - right. eexists. split; [by apply decide_retry|]. split; [done|].
    pose proof (backoff_millis_bounds p n Hp Hn) as (_ & ? & ?).
    edestruct (decide_delay_range p n seed) as [_ ?]; [done|done|by apply decide_retry|]. lia.
  - left. by rewrite decide_park.
Qed.

Lemma decide_bounds_witness :
  ∃ d, RetryPolicy_decide RetryPolicy_default 3 42 = RetryAfter d ∧
       0 ≤ d ≤ Duration_from_secs 8.
Proof.
  assert (Hw : Z.min (base_delay RetryPolicy_default * 2 ^ Z.min (3 - 1) 31)
                 (max_delay RetryPolicy_default) = Duration_from_secs 8) by (by vm_compute).
  destruct (decide_bounds RetryPolicy_default 3 42) as [[_ Hge]|(d & Hd & _ & Hr)].
  - by vm_compute.
  - by vm_compute.
  - by vm_compute in Hge.
  - exists d. split; [exact Hd|]. rewrite Hw in Hr. exact Hr.
Defined.

(** The jitter is full: every millisecond of the window is the delay of
    some 64-bit seed. *)
Theorem decide_full_jitter p n k :
  RetryPolicy_typed p → 1 ≤ n ≤ U32_MAX → n < max_attempts p →
  0 ≤ k ≤ backoff_millis p n →
  ∃ seed, 0 ≤ seed ≤ U64_MAX ∧
    RetryPolicy_decide p n seed = RetryAfter (Duration_from_millis k).
Proof.
  intros Hp Hn Hlt Hk. pose proof (backoff_millis_bounds p n Hp Hn) as ([? ?] & _).
  assert (Hk64 : 0 ≤ k < 2 ^ 64) by (unfold U64_MAX in *; lia).
  assert (Hi : 0 ≤ splitmix64_inv k < 2 ^ 64) by (apply wrap_range; lia).
  assert (Hn64 : 0 ≤ n < 2 ^ 64) by (unfold U32_MAX in *; lia).
  exists (Z.lxor (splitmix64_inv k) n). split.
  { pose proof (lxor_range _ _ Hi Hn64). unfold U64_MAX. lia. }
  rewrite decide_retry by done. do 2 f_equal.
  rewrite Z.lxor_assoc, Z.lxor_nilpotent, Z.lxor_0_r, splitmix64_surjective by done.
  destruct (Z.eqb_spec (backoff_millis p n) 0); [lia|].
  rewrite u64_add_id by lia. apply Z.mod_small. lia.
Qed.

Lemma decide_full_jitter_witness :
  ∃ seed, 0 ≤ seed ≤ U64_MAX ∧
    RetryPolicy_decide RetryPolicy_default 1 seed = RetryAfter (Duration_from_millis 1234).
Proof. apply (decide_full_jitter RetryPolicy_default 1 1234); by vm_compute. Defined.
