(* ===== verification/Events.v ===== *)
(** * Events and their envelope ([koine-domain/src/events.rs])

    The whole event taxonomy, reserved kinds included, the canonical kind
    strings, and the storage envelope. Constructors of [JobEvent] carry the
    prefix [E_], as [Job::apply] abbreviates the type to [E]. *)

From S2P Require Import Prelude Std Ids Retry.

Open Scope string_scope.
Open Scope list_scope.
Open Scope Z_scope.

Definition SCHEMA_VERSION : Z := 1.

Record JobError : Type := JobError_mk {
  error_kind : string;
  message : string;
  stacktrace : option string;
  retryable : bool;
}.

Inductive ParkReason : Type :=
| RetriesExhausted
| NonRetryableError
| ApprovalDenied.

Inductive ReportedOutcome : Type :=
| Reported_Succeeded
| Reported_Failed.

Inductive JobEvent `{ext : Externals} : Type :=
| E_Enqueued (queue : QueueName) (payload : Value) (priority : Priority)
    (retry_policy : RetryPolicy) (not_before : option DateTime)
| E_Leased (worker : WorkerId) (lease : LeaseId) (expires_at : DateTime)
| E_Started (worker : WorkerId)
| E_Succeeded (result : option Value)
| E_Failed (error : JobError) (attempt : Z)
| E_LeaseExpired (lease : LeaseId)
| E_RetryScheduled (attempt : Z) (not_before : DateTime)
| E_Parked (reason : ParkReason)
| E_Cancelled (reason : option string)
| E_LateAckConflict (worker : WorkerId) (lease : LeaseId) (reported : ReportedOutcome)
| E_Stalled
| E_CheckpointRecorded (key : string) (data : Value)
| E_SignalReceived (name : string) (data : Value)
| E_ApprovalRequested (key : string)
| E_ApprovalGranted (key approver : string)
| E_ApprovalDenied (key approver : string)
| E_Suspended
| E_Resumed
| E_Repaired (new_payload : option Value) (note : string).

Definition kind `{ext : Externals} (self : JobEvent) : string :=
  match self with
  | E_Enqueued _ _ _ _ _ => "enqueued"
  | E_Leased _ _ _ => "leased"
  | E_Started _ => "started"
  | E_Succeeded _ => "succeeded"
  | E_Failed _ _ => "failed"
  | E_LeaseExpired _ => "lease_expired"
  | E_RetryScheduled _ _ => "retry_scheduled"
  | E_Parked _ => "parked"
  | E_Cancelled _ => "cancelled"
  | E_LateAckConflict _ _ _ => "late_ack_conflict"
  | E_Stalled => "stalled"
  | E_CheckpointRecorded _ _ => "checkpoint_recorded"
  | E_SignalReceived _ _ => "signal_received"
  | E_ApprovalRequested _ => "approval_requested"
  | E_ApprovalGranted _ _ => "approval_granted"
  | E_ApprovalDenied _ _ => "approval_denied"
  | E_Suspended => "suspended"
  | E_Resumed => "resumed"
  | E_Repaired _ _ => "repaired"
  end.

Record EventEnvelope `{ext : Externals} : Type := EventEnvelope_mk {
  event_id : EventId;
  stream_id : JobId;
  envelope_version : Z;
  recorded_at : DateTime;
  correlation_id : CorrelationId;
  causation_id : option EventId;
  traceparent : option string;
  schema_version : Z;
  event : JobEvent;
}.

