(* ===== verification/Serde.v ===== *)
(** * The JSON form of events and envelopes
      (the [serde] attributes of [koine-domain/src/events.rs], [ids.rs],
      [queue.rs] and [retry.rs])

    What the derived implementations write and read, type by type: a struct
    is an object of its fields, an absent or null optional field is [None], a
    unit variant is its snake-case name, [JobEvent] is tagged by [type]
    inside its object, an identifier is the text of its UUID and a validated
    name is read through its constructor. [serde_json::Value] stays opaque
    and is looked at through a view. How serde presents a value that is no
    object as the fields of a struct (a sequence has them in order) is a
    parameter; the fields are read by the readers of their types in every
    form. So are the implementations of other crates and the texts of errors.
    Of several errors in one value a reader reports the first it meets; which
    one that is does not matter here. *)

From S2P Require Import Prelude Std Ids Retry Events.

Open Scope string_scope.
Open Scope list_scope.
Open Scope Z_scope.

(** ** [serde_json::Value] *)

Section view.
Context `{ext : Externals}.

(** What a reader can see of a value: floats, arrays and the like are
    [V_Other]. An object has one value for each key. *)
Inductive View : Type :=
| V_Null
| V_Bool (b : bool)
| V_Int (n : Z)
| V_Str (s : string)
| V_Obj (m : gmap string Value)
| V_Other.

(** ** Values in the types of Rust *)

Definition fits (lo hi n : Z) : Prop := lo ≤ n ≤ hi.

(** The fields of an event have the ranges of their types, and its names
    have passed their constructors. *)
Definition event_typed (ev : JobEvent) : Prop :=
  match ev with
  | E_Enqueued q _ p rp _ =>
      QueueName_new (QueueName_as_str q) = Ok q ∧ fits (-32768) 32767 (priority_value p) ∧ RetryPolicy_typed rp
  | E_Leased w _ _ | E_Started w | E_LateAckConflict w _ _ => WorkerId_new (WorkerId_as_str w) = Ok w
  | E_Failed _ n | E_RetryScheduled n _ => fits 0 U32_MAX n
  | _ => True
  end.

Definition envelope_typed (env : EventEnvelope) : Prop :=
  fits 0 U64_MAX (envelope_version env) ∧ fits 0 65535 (schema_version env) ∧ event_typed (event env).
End view.

(** What a value can hold: the integers of a [Number] without fraction. The
    texts are those of Rust strings, and [V_Other] says too little to be
    written. *)
Definition representable `{ext : Externals} (vw : View) : Prop :=
  match vw with
  | V_Int n => fits (- 2 ^ 63) U64_MAX n
  | V_Other => False
  | _ => True
  end.

Class SerdeJson `{ext : Externals} : Type := {
  json_view : Value → View;
  of_view : View → Value;
  view_of_view vw : representable vw → json_view (of_view vw) = vw;
  (** The implementations for [Uuid] and [DateTime<Utc>] write texts. *)
  uuid_from_text : string → option Uuid;
  time_to_text : DateTime → string;
  time_from_text : string → option DateTime;
  uuid_text u : uuid_from_text (Uuid_to_string u) = Some u;
  time_text t : time_from_text (time_to_text t) = Some t;
  (** Error texts. *)
  missing_field : string → string;
  invalid : string → Value → string;
  (** A value that is no object (or, for [Duration], has other fields),
      presented as the named fields, or refused. *)
  fields_other : list string → Value → result (gmap string Value) string;
  (** The tag and the content of an internally tagged value that is no
      object, or its refusal. *)
  tag_other : Value → result (Value * Value) string;
  (** Unit variants in forms other than their name. *)
  reason_other : Value → result ParkReason string;
  reported_other : Value → result ReportedOutcome string;
}.

Section serde.
Context `{ext : Externals} {serde : SerdeJson}.

(** ** Writers *)

Definition v_null : Value := of_view V_Null.

Definition v_bool (b : bool) : Value := of_view (V_Bool b).

Definition v_int (n : Z) : Value := of_view (V_Int n).

Definition v_str (s : string) : Value := of_view (V_Str s).

Definition v_obj (fields : list (string * Value)) : Value :=
  of_view (V_Obj (list_to_map fields : gmap string Value)).

Definition v_option {A : Type} (write : A → Value) (o : option A) : Value :=
  match o with
  | Some a => write a
  | None => v_null
  end.

Definition v_uuid (u : Uuid) : Value := v_str (Uuid_to_string u).

Definition v_time (t : DateTime) : Value := v_str (time_to_text t).

(** [Duration]: whole seconds and the nanoseconds left. *)
Definition v_duration (d : Duration) : Value :=
  v_obj [("secs", v_int (d / 1000000000)); ("nanos", v_int (d mod 1000000000))].

Definition RetryPolicy_to_value (p : RetryPolicy) : Value :=
  v_obj [("max_attempts", v_int (max_attempts p)); ("base_delay", v_duration (base_delay p));
         ("max_delay", v_duration (max_delay p))].

Definition JobError_to_value (e : JobError) : Value :=
  v_obj [("kind", v_str (error_kind e)); ("message", v_str (message e));
         ("stacktrace", v_option v_str (stacktrace e)); ("retryable", v_bool (retryable e))].

Definition ParkReason_to_value (r : ParkReason) : Value :=
  v_str match r with
        | RetriesExhausted => "retries_exhausted"
        | NonRetryableError => "non_retryable_error"
        | ApprovalDenied => "approval_denied"
        end.

Definition ReportedOutcome_to_value (o : ReportedOutcome) : Value :=
  v_str match o with
        | Reported_Succeeded => "succeeded"
        | Reported_Failed => "failed"
        end.

Definition JobEvent_fields (ev : JobEvent) : list (string * Value) :=
  match ev with
  | E_Enqueued queue payload priority retry_policy not_before =>
      [("queue", v_str (QueueName_into queue)); ("payload", payload);
       ("priority", v_int (priority_value priority)); ("retry_policy", RetryPolicy_to_value retry_policy);
       ("not_before", v_option v_time not_before)]
  | E_Leased worker lease expires_at =>
      [("worker", v_str (WorkerId_into worker)); ("lease", v_uuid (LeaseId_as_uuid lease));
       ("expires_at", v_time expires_at)]
  | E_Started worker => [("worker", v_str (WorkerId_into worker))]
  | E_Succeeded res => [("result", v_option id res)]
  | E_Failed error attempt => [("error", JobError_to_value error); ("attempt", v_int attempt)]
  | E_LeaseExpired lease => [("lease", v_uuid (LeaseId_as_uuid lease))]
  | E_RetryScheduled attempt not_before => [("attempt", v_int attempt); ("not_before", v_time not_before)]
  | E_Parked reason => [("reason", ParkReason_to_value reason)]
  | E_Cancelled reason => [("reason", v_option v_str reason)]
  | E_LateAckConflict worker lease reported =>
      [("worker", v_str (WorkerId_into worker)); ("lease", v_uuid (LeaseId_as_uuid lease));
       ("reported", ReportedOutcome_to_value reported)]
  | E_Stalled | E_Suspended | E_Resumed => []
  | E_CheckpointRecorded key data => [("key", v_str key); ("data", data)]
  | E_SignalReceived name data => [("name", v_str name); ("data", data)]
  | E_ApprovalRequested key => [("key", v_str key)]
  | E_ApprovalGranted key approver | E_ApprovalDenied key approver =>
      [("key", v_str key); ("approver", v_str approver)]
  | E_Repaired new_payload note => [("new_payload", v_option id new_payload); ("note", v_str note)]
  end.

(** The tag [rename_all] makes of the variant's name. *)
Definition JobEvent_tag (ev : JobEvent) : string :=
  match ev with
  | E_Enqueued _ _ _ _ _ => "enqueued"
  | E_Leased _ _ _ => "leased"
  | E_Started _ => "started"
  | E_Succeeded _ => "succeeded"
  | E_Failed _ _ => "failed"
  | E_LeaseExpired _ => "lease_expired"
  | E_RetryScheduled _ _ => "retry_scheduled"
  | E_Parked _ => "parked"
  | E_Cancelled _ => "cancelled"
  | E_LateAckConflict _ _ _ => "late_ack_conflict"
  | E_Stalled => "stalled"
  | E_CheckpointRecorded _ _ => "checkpoint_recorded"
  | E_SignalReceived _ _ => "signal_received"
  | E_ApprovalRequested _ => "approval_requested"
  | E_ApprovalGranted _ _ => "approval_granted"
  | E_ApprovalDenied _ _ => "approval_denied"
  | E_Suspended => "suspended"
  | E_Resumed => "resumed"
  | E_Repaired _ _ => "repaired"
  end.

Definition JobEvent_to_value (ev : JobEvent) : Value :=
  v_obj (("type", v_str (JobEvent_tag ev)) :: JobEvent_fields ev).

Definition EventEnvelope_fields (env : EventEnvelope) : list (string * Value) :=
  [("event_id", v_uuid (EventId_as_uuid (event_id env)));
   ("stream_id", v_uuid (JobId_as_uuid (stream_id env)));
   ("version", v_int (envelope_version env));
   ("recorded_at", v_time (recorded_at env));
   ("correlation_id", v_uuid (CorrelationId_as_uuid (correlation_id env)));
   ("causation_id", v_option v_uuid (EventId_as_uuid <$> causation_id env));
   ("traceparent", v_option v_str (traceparent env));
   ("schema_version", v_int (schema_version env));
   ("event", JobEvent_to_value (event env))].

Definition EventEnvelope_to_value (env : EventEnvelope) : Value := v_obj (EventEnvelope_fields env).

(** ** Readers *)

Definition read_str (v : Value) : result string string :=
  match json_view v with V_Str s => Ok s | _ => Err (invalid "string" v) end.

Definition read_bool (v : Value) : result bool string :=
  match json_view v with V_Bool b => Ok b | _ => Err (invalid "bool" v) end.

(** An integer of a type from [lo] to [hi]. *)
Definition read_int (lo hi : Z) (v : Value) : result Z string :=
  match json_view v with
  | V_Int n => if (lo <=? n) && (n <=? hi) then Ok n else Err (invalid "integer" v)
  | _ => Err (invalid "integer" v)
  end.

Definition read_u16 : Value → result Z string := read_int 0 65535.

Definition read_u32 : Value → result Z string := read_int 0 U32_MAX.

Definition read_u64 : Value → result Z string := read_int 0 U64_MAX.

Definition read_i16 : Value → result Z string := read_int (-32768) 32767.

Definition read_uuid (v : Value) : result Uuid string :=
  let? s := read_str v in ok_or (uuid_from_text s) (invalid "UUID" v).

Definition read_time (v : Value) : result DateTime string :=
  let? s := read_str v in ok_or (time_from_text s) (invalid "time" v).

(** [#[serde(try_from = "String")]] *)
Definition read_queue (v : Value) : result QueueName string :=
  let? s := read_str v in map_err DomainError_to_string (QueueName_try_from s).

Definition read_worker (v : Value) : result WorkerId string :=
  let? s := read_str v in map_err DomainError_to_string (WorkerId_try_from s).

Definition field {A : Type} (m : gmap string Value) (name : string) (read : Value → result A string)
    : result A string :=
  match m !! name with
  | Some v => read v
  | None => Err (missing_field name)
  end.

(** [Option<T>]: absent and null are [None]. *)
Definition field_opt {A : Type} (m : gmap string Value) (name : string) (read : Value → result A string)
    : result (option A) string :=
  match m !! name with
  | None => Ok None
  | Some v =>
      match json_view v with
      | V_Null => Ok None
      | _ => let? a := read v in Ok (Some a)
      end
  end.

(** The fields of a struct. *)
Definition fields_of (names : list string) (v : Value) : result (gmap string Value) string :=
  match json_view v with
  | V_Obj m => Ok m
  | _ => fields_other names v
  end.

(** The two fields and no other; nanoseconds above a second are carried over,
    unless the seconds overflow. *)
Definition duration_fields (v : Value) : result (gmap string Value) string :=
  match json_view v with
  | V_Obj m => if decide (size m = 2%nat) then Ok m else fields_other ["secs"; "nanos"] v
  | _ => fields_other ["secs"; "nanos"] v
  end.

Definition read_duration (v : Value) : result Duration string :=
  let? m := duration_fields v in
  let? secs := field m "secs" read_u64 in
  let? nanos := field m "nanos" read_u32 in
  let secs := secs + nanos / 1000000000 in
  if secs <=? U64_MAX then Ok (secs * 1000000000 + nanos mod 1000000000)
  else Err (invalid "duration" v).

Definition read_policy (v : Value) : result RetryPolicy string :=
  let? m := fields_of ["max_attempts"; "base_delay"; "max_delay"] v in
  let? a := field m "max_attempts" read_u32 in
  let? b := field m "base_delay" read_duration in
  let? d := field m "max_delay" read_duration in
  Ok {| max_attempts := a; base_delay := b; max_delay := d |}.

Definition read_error (v : Value) : result JobError string :=
  let? m := fields_of ["kind"; "message"; "stacktrace"; "retryable"] v in
  let? k := field m "kind" read_str in
  let? msg := field m "message" read_str in
  let? trace := field_opt m "stacktrace" read_str in
  let? again := field m "retryable" read_bool in
  Ok {| error_kind := k; message := msg; stacktrace := trace; retryable := again |}.

Definition read_reason (v : Value) : result ParkReason string :=
  match json_view v with
  | V_Str "retries_exhausted" => Ok RetriesExhausted
  | V_Str "non_retryable_error" => Ok NonRetryableError
  | V_Str "approval_denied" => Ok ApprovalDenied
  | V_Str _ => Err (invalid "variant" v)
  | _ => reason_other v
  end.

Definition read_reported (v : Value) : result ReportedOutcome string :=
  match json_view v with
  | V_Str "succeeded" => Ok Reported_Succeeded
  | V_Str "failed" => Ok Reported_Failed
  | V_Str _ => Err (invalid "variant" v)
  | _ => reported_other v
  end.

(** The value under a key. *)
Fixpoint assoc {A : Type} (k : string) (l : list (string * A)) : option A :=
  match l with
  | [] => None
  | (k', a) :: l => if String.eqb k k' then Some a else assoc k l
  end.

(** The variants by their tags, each from the fields beside the tag; others
    are ignored. *)
Definition variants (v : Value) : list (string * result JobEvent string) :=
  [("enqueued",
    let? m := fields_of ["queue"; "payload"; "priority"; "retry_policy"; "not_before"] v in
    let? queue := field m "queue" read_queue in
    let? payload := field m "payload" Ok in
    let? priority := field m "priority" read_i16 in
    let? retry_policy := field m "retry_policy" read_policy in
    let? not_before := field_opt m "not_before" read_time in
    Ok (E_Enqueued queue payload (Priority_mk priority) retry_policy not_before));
   ("leased",
    let? m := fields_of ["worker"; "lease"; "expires_at"] v in
    let? worker := field m "worker" read_worker in
    let? lease := field m "lease" read_uuid in
    let? expires_at := field m "expires_at" read_time in
    Ok (E_Leased worker (LeaseId_new lease) expires_at));
   ("started",
    let? m := fields_of ["worker"] v in
    let? worker := field m "worker" read_worker in
    Ok (E_Started worker));
   ("succeeded",
    let? m := fields_of ["result"] v in
    let? res := field_opt m "result" Ok in
    Ok (E_Succeeded res));
   ("failed",
    let? m := fields_of ["error"; "attempt"] v in
    let? error := field m "error" read_error in
    let? attempt := field m "attempt" read_u32 in
    Ok (E_Failed error attempt));
   ("lease_expired",
    let? m := fields_of ["lease"] v in
    let? lease := field m "lease" read_uuid in
    Ok (E_LeaseExpired (LeaseId_new lease)));
   ("retry_scheduled",
    let? m := fields_of ["attempt"; "not_before"] v in
    let? attempt := field m "attempt" read_u32 in
    let? not_before := field m "not_before" read_time in
    Ok (E_RetryScheduled attempt not_before));
   ("parked",
    let? m := fields_of ["reason"] v in
    let? reason := field m "reason" read_reason in
    Ok (E_Parked reason));
   ("cancelled",
    let? m := fields_of ["reason"] v in
    let? reason := field_opt m "reason" read_str in
    Ok (E_Cancelled reason));
   ("late_ack_conflict",
    let? m := fields_of ["worker"; "lease"; "reported"] v in
    let? worker := field m "worker" read_worker in
    let? lease := field m "lease" read_uuid in
    let? reported := field m "reported" read_reported in
    Ok (E_LateAckConflict worker (LeaseId_new lease) reported));
   ("stalled", let? _ := fields_of [] v in Ok E_Stalled);
   ("checkpoint_recorded",
    let? m := fields_of ["key"; "data"] v in
    let? key := field m "key" read_str in
    let? data := field m "data" Ok in
    Ok (E_CheckpointRecorded key data));
   ("signal_received",
    let? m := fields_of ["name"; "data"] v in
    let? name := field m "name" read_str in
    let? data := field m "data" Ok in
    Ok (E_SignalReceived name data));
   ("approval_requested",
    let? m := fields_of ["key"] v in
    let? key := field m "key" read_str in
    Ok (E_ApprovalRequested key));
   ("approval_granted",
    let? m := fields_of ["key"; "approver"] v in
    let? key := field m "key" read_str in
    let? approver := field m "approver" read_str in
    Ok (E_ApprovalGranted key approver));
   ("approval_denied",
    let? m := fields_of ["key"; "approver"] v in
    let? key := field m "key" read_str in
    let? approver := field m "approver" read_str in
    Ok (E_ApprovalDenied key approver));
   ("suspended", let? _ := fields_of [] v in Ok E_Suspended);
   ("resumed", let? _ := fields_of [] v in Ok E_Resumed);
   ("repaired",
    let? m := fields_of ["new_payload"; "note"] v in
    let? new_payload := field_opt m "new_payload" Ok in
    let? note := field m "note" read_str in
    Ok (E_Repaired new_payload note))].

Definition read_variant (tag : string) (content : Value) : result JobEvent string :=
  default (Err (invalid "variant" content)) (assoc tag (variants content)).

(** [#[serde(tag = "type")]]: the tag, and the value with the other fields. *)
Definition split_tag (v : Value) : result (Value * Value) string :=
  match json_view v with
  | V_Obj m => let? t := field m "type" Ok in Ok (t, v)
  | _ => tag_other v
  end.

Definition JobEvent_from_value (v : Value) : result JobEvent string :=
  let? parts := split_tag v in
  let? tag := read_str parts.1 in
  read_variant tag parts.2.

Definition EventEnvelope_from_value (v : Value) : result EventEnvelope string :=
  let? m := fields_of ["event_id"; "stream_id"; "version"; "recorded_at"; "correlation_id"; "causation_id";
                       "traceparent"; "schema_version"; "event"] v in
  let? id := field m "event_id" read_uuid in
  let? stream := field m "stream_id" read_uuid in
  let? version := field m "version" read_u64 in
  let? recorded := field m "recorded_at" read_time in
  let? correlation := field m "correlation_id" read_uuid in
  let? causation := field_opt m "causation_id" read_uuid in
  let? trace := field_opt m "traceparent" read_str in
  let? schema := field m "schema_version" read_u16 in
  let? ev := field m "event" JobEvent_from_value in
  Ok {| event_id := EventId_new id; stream_id := JobId_new stream; envelope_version := version;
        recorded_at := recorded; correlation_id := CorrelationId_new correlation;
        causation_id := EventId_new <$> causation; traceparent := trace;
        schema_version := schema; event := ev |}.
End serde.
