(* ===== verification/SerdeFacts.v ===== *)
(** * Facts on the JSON form of events

    What is written is read back, also after a storage that keeps values only
    up to their view; the tag is the kind; a reader lets nothing in that the
    constructors and the types of the fields would refuse. *)

From S2P Require Import Prelude Std Ids Retry Events Serde.

Open Scope string_scope.
Open Scope list_scope.
Open Scope Z_scope.

Section facts.
Context `{ext : Externals} {serde : SerdeJson}.
Implicit Types (m : gmap string Value) (fields : list (string * Value)).

(** A null in an optional JSON field is read as its absence. *)
Definition no_null (ev : JobEvent) : Prop :=
  match ev with
  | E_Succeeded (Some v) | E_Repaired (Some v) _ => json_view v ≠ V_Null
  | _ => True
  end.

(** ** Storage

    What a storage may do to a value: scalars stay, objects keep their keys
    and may keep the values under them in the same way. *)
Section storage.
Context (R : Value → Value → Prop).

Inductive view_kept : View → View → Prop :=
| kept_null : view_kept V_Null V_Null
| kept_bool b : view_kept (V_Bool b) (V_Bool b)
| kept_int n : view_kept (V_Int n) (V_Int n)
| kept_str s : view_kept (V_Str s) (V_Str s)
| kept_obj m m' : (∀ k, option_Forall2 R (m !! k) (m' !! k)) → view_kept (V_Obj m) (V_Obj m')
| kept_other : view_kept V_Other V_Other.

Context (R_view : ∀ v v', R v v' → view_kept (json_view v) (json_view v')).

(** How an optional JSON value may come back. *)
Definition opt_kept (o o' : option Value) : Prop :=
  match o, o' with
  | Some v, Some v' => R v v'
  | Some v, None => json_view v = V_Null
  | None, o' => o' = None
  end.

(** How an event may come back: its JSON values as the storage keeps them,
    everything else as it was. *)
Definition event_kept (a b : JobEvent) : Prop :=
  match a, b with
  | E_Enqueued q v p rp nb, E_Enqueued q' v' p' rp' nb' => q = q' ∧ R v v' ∧ p = p' ∧ rp = rp' ∧ nb = nb'
  | E_Succeeded o, E_Succeeded o' => opt_kept o o'
  | E_CheckpointRecorded k v, E_CheckpointRecorded k' v' => k = k' ∧ R v v'
  | E_SignalReceived n v, E_SignalReceived n' v' => n = n' ∧ R v v'
  | E_Repaired o n, E_Repaired o' n' => opt_kept o o' ∧ n = n'
  | a, b => a = b
  end.

Lemma scalar_kept vw v' :
  R (of_view vw) v' → representable vw → (∀ m, vw ≠ V_Obj m) → json_view v' = vw.
Proof.
  intros HR Hr Hm. apply R_view in HR. rewrite view_of_view in HR by done.
  inversion HR; subst; (done || by edestruct Hm).
Qed.

Lemma assoc_lookup fields k : (list_to_map fields : gmap string Value) !! k = assoc k fields.
Proof.
  induction fields as [|[k' v] fields IH]; [done|]. simpl. destruct (String.eqb_spec k k') as [->|Hne].
  - by rewrite lookup_insert_eq.
  - by rewrite lookup_insert_ne.
Qed.

Lemma obj_kept fields v' :
  R (v_obj fields) v' → ∃ m', json_view v' = V_Obj m' ∧ ∀ k, option_Forall2 R (assoc k fields) (m' !! k).
Proof.
  intros HR%R_view. unfold v_obj in HR. rewrite view_of_view in HR by done. inversion HR as [| | | |m m' Hm|]; subst.
  exists m'. split; [done|]. intros k. by rewrite <-assoc_lookup.
Qed.

(** An object with these fields, and perhaps others. *)
Definition carried fields m' : Prop := ∀ k v, assoc k fields = Some v → ∃ v', R v v' ∧ m' !! k = Some v'.

Lemma kept_carried fields m' : (∀ k, option_Forall2 R (assoc k fields) (m' !! k)) → carried fields m'.
Proof. intros Hm k v Hk. specialize (Hm k). rewrite Hk in Hm. inversion Hm; eauto. Qed.

Lemma read_str_kept s v' : R (v_str s) v' → read_str v' = Ok s.
Proof. intros HR%scalar_kept; [|done..]. unfold read_str. by rewrite HR. Qed.

Lemma read_bool_kept b v' : R (v_bool b) v' → read_bool v' = Ok b.
Proof. intros HR%scalar_kept; [|done..]. unfold read_bool. by rewrite HR. Qed.

Lemma read_int_kept lo hi n v' :
  - 2 ^ 63 ≤ lo → hi ≤ U64_MAX → fits lo hi n → R (v_int n) v' → read_int lo hi v' = Ok n.
Proof.
  unfold fits. intros ? ? ? HR%scalar_kept; [|simpl; unfold fits; lia|done]. unfold read_int. rewrite HR.
  zb; simpl; (done || lia).
Qed.

Lemma read_uuid_kept u v' : R (v_uuid u) v' → read_uuid v' = Ok u.
Proof. intros HR%read_str_kept. unfold read_uuid. rewrite HR. simpl. by rewrite uuid_text. Qed.

Lemma read_time_kept t v' : R (v_time t) v' → read_time v' = Ok t.
Proof. intros HR%read_str_kept. unfold read_time. rewrite HR. simpl. by rewrite time_text. Qed.

Lemma read_queue_kept q v' :
  R (v_str (QueueName_into q)) v' → read_queue v' = map_err DomainError_to_string (QueueName_new (QueueName_as_str q)).
Proof. intros HR%read_str_kept. unfold read_queue. by rewrite HR. Qed.

Lemma read_worker_kept w v' :
  R (v_str (WorkerId_into w)) v' → read_worker v' = map_err DomainError_to_string (WorkerId_new (WorkerId_as_str w)).
Proof. intros HR%read_str_kept. unfold read_worker. by rewrite HR. Qed.

Lemma str_opt_kept s v' : R (v_str s) v' → json_view v' ≠ V_Null ∧ read_str v' = Ok s.
Proof. intros HR. split; [|by apply read_str_kept]. by apply scalar_kept in HR as ->. Qed.

Lemma uuid_opt_kept u v' : R (v_uuid u) v' → json_view v' ≠ V_Null ∧ read_uuid v' = Ok u.
Proof. intros HR. split; [|by apply read_uuid_kept]. by apply scalar_kept in HR as ->. Qed.

Lemma time_opt_kept t v' : R (v_time t) v' → json_view v' ≠ V_Null ∧ read_time v' = Ok t.
Proof. intros HR. split; [|by apply read_time_kept]. by apply scalar_kept in HR as ->. Qed.

(** An optional JSON value. *)
Lemma value_opt_kept fields m' k o :
  carried fields m' → assoc k fields = Some (v_option id o) →
  ∃ o', field_opt m' k Ok = Ok o' ∧ opt_kept o o'.
Proof.
  intros Hm Hk. destruct (Hm _ _ Hk) as (v' & HR & E). unfold field_opt. rewrite E.
  destruct o as [v|]; simpl in HR; [|apply scalar_kept in HR as ->; [by eexists|done..]].
  unfold id in HR. pose proof (R_view _ _ HR) as Hv. destruct (json_view v') eqn:Hv'; simpl; try (eexists; split; [done|exact HR]).
  exists None. split; [done|]. simpl. by inversion Hv.
Qed.

Lemma read_reason_kept r v' : R (ParkReason_to_value r) v' → read_reason v' = Ok r.
Proof. intros HR%scalar_kept; [|by destruct r..]. unfold read_reason. rewrite HR. by destruct r. Qed.

Lemma read_reported_kept o v' : R (ReportedOutcome_to_value o) v' → read_reported v' = Ok o.
Proof. intros HR%scalar_kept; [|by destruct o..]. unfold read_reported. rewrite HR. by destruct o. Qed.

Lemma kept_size fields m' :
  NoDup fields.*1 → (∀ k, option_Forall2 R (assoc k fields) (m' !! k)) → size m' = length fields.
Proof.
  intros Hnd Hm. rewrite <-(length_fmap fst), <-(size_list_to_set (C:=gset string)) by done.
  rewrite <-size_dom. f_equal. apply set_eq. intros k. rewrite elem_of_dom, elem_of_list_to_set. specialize (Hm k).
  rewrite <-assoc_lookup in Hm. split.
  - intros [x Hx]. rewrite Hx in Hm. inversion Hm as [? ? ? Hl|]. symmetry in Hl. apply elem_of_list_to_map_2 in Hl.
    apply list_elem_of_fmap. by eexists (k, _).
  - intros ([k' v] & -> & Hin)%list_elem_of_fmap. apply elem_of_list_to_map_1 in Hin; [|done].
    simpl in *. rewrite Hin in Hm. inversion Hm. by eexists.
Qed.

(** ** What a reader answers when [P] holds: a value that satisfies [S]. *)
Definition reads {A : Type} (P : Prop) (r : result A string) (S : A → Prop) : Prop :=
  P → ∃ a, r = Ok a ∧ S a.

Lemma reads_ok {A : Type} (r : result A string) a (S : A → Prop) : r = Ok a → S a → reads True r S.
Proof. intros -> HS _. by eexists. Qed.

Lemma reads_bind {A B : Type} P Q (r : result A string) (k : A → result B string) S T :
  reads P r S → (∀ a, S a → reads Q (k a) T) → reads (P ∧ Q) (result_bind r k) T.
Proof. intros Hr Hk [HP HQ]. destruct (Hr HP) as (a & -> & HS). by apply Hk. Qed.

Lemma reads_weaken {A : Type} P Q (r : result A string) S :
  reads P r S → (Q → P) → reads Q r S.
Proof. unfold reads. naive_solver. Qed.

Lemma reads_int lo hi n v' :
  - 2 ^ 63 ≤ lo → hi ≤ U64_MAX → R (v_int n) v' → reads (fits lo hi n) (read_int lo hi v') (eq n).
Proof. intros ? ? HR Hf. exists n. by rewrite (read_int_kept lo hi n). Qed.

Lemma reads_u16 n v' : R (v_int n) v' → reads (fits 0 65535 n) (read_u16 v') (eq n).
Proof. by apply reads_int. Qed.

Lemma reads_u32 n v' : R (v_int n) v' → reads (fits 0 U32_MAX n) (read_u32 v') (eq n).
Proof. by apply reads_int. Qed.

Lemma reads_u64 n v' : R (v_int n) v' → reads (fits 0 U64_MAX n) (read_u64 v') (eq n).
Proof. by apply reads_int. Qed.

Lemma reads_i16 n v' : R (v_int n) v' → reads (fits (-32768) 32767 n) (read_i16 v') (eq n).
Proof. by apply reads_int. Qed.

Lemma reads_queue q v' : R (v_str (QueueName_into q)) v' → reads (QueueName_new (QueueName_as_str q) = Ok q) (read_queue v') (eq q).
Proof. intros HR Hq. rewrite (read_queue_kept _ _ HR), Hq. by eexists. Qed.

Lemma reads_worker w v' : R (v_str (WorkerId_into w)) v' → reads (WorkerId_new (WorkerId_as_str w) = Ok w) (read_worker v') (eq w).
Proof. intros HR Hw. rewrite (read_worker_kept _ _ HR), Hw. by eexists. Qed.

Lemma reads_str s v' : R (v_str s) v' → reads True (read_str v') (eq s).
Proof. intros HR. by apply (reads_ok _ s); [apply read_str_kept|]. Qed.

Lemma reads_bool b v' : R (v_bool b) v' → reads True (read_bool v') (eq b).
Proof. intros HR. by apply (reads_ok _ b); [apply read_bool_kept|]. Qed.

Lemma reads_uuid u v' : R (v_uuid u) v' → reads True (read_uuid v') (eq u).
Proof. intros HR. by apply (reads_ok _ u); [apply read_uuid_kept|]. Qed.

Lemma reads_time t v' : R (v_time t) v' → reads True (read_time v') (eq t).
Proof. intros HR. by apply (reads_ok _ t); [apply read_time_kept|]. Qed.

Lemma reads_value v v' : R v v' → reads True (Ok v') (R v).
Proof. intros HR. by apply (reads_ok _ v'). Qed.

Lemma reads_reason r v' : R (ParkReason_to_value r) v' → reads True (read_reason v') (eq r).
Proof. intros HR. by apply (reads_ok _ r); [apply read_reason_kept|]. Qed.

Lemma reads_reported o v' : R (ReportedOutcome_to_value o) v' → reads True (read_reported v') (eq o).
Proof. intros HR. by apply (reads_ok _ o); [apply read_reported_kept|]. Qed.

(** Fields of an object that was kept. *)
Section fields.
Context fields m (Hm : carried fields m).

Lemma reads_field {A : Type} k v (read : Value → result A string) P S :
  assoc k fields = Some v → (∀ v', R v v' → reads P (read v') S) → reads P (field m k read) S.
Proof. intros (v' & HR & E)%Hm Hr. unfold field. rewrite E. by apply Hr. Qed.

Lemma reads_field_opt {A : Type} k (write : A → Value) o (read : Value → result A string) :
  assoc k fields = Some (v_option write o) →
  (∀ a v', R (write a) v' → json_view v' ≠ V_Null ∧ read v' = Ok a) → reads True (field_opt m k read) (eq o).
Proof.
  intros (v' & HR & E)%Hm Hr. apply (reads_ok _ o); [|done]. unfold field_opt. rewrite E.
  destruct o as [a|]; simpl in HR; [|apply scalar_kept in HR as ->; done].
  destruct (Hr a v' HR) as [Hn ->]. by destruct (json_view v').
Qed.

Lemma reads_value_opt k o :
  assoc k fields = Some (v_option id o) → reads True (field_opt m k Ok) (opt_kept o).
Proof.
  intros Hk. destruct (value_opt_kept _ _ _ _ Hm Hk) as (o' & Hf & Ho). by apply (reads_ok _ o').
Qed.
End fields.

Create HintDb reads.
#[local] Hint Resolve reads_str reads_bool reads_uuid reads_time reads_value reads_reason reads_reported : reads.
#[local] Hint Resolve reads_u16 reads_u32 reads_u64 reads_i16 reads_queue reads_worker str_opt_kept uuid_opt_kept time_opt_kept : reads.

(** Reads the next field of a reader. *)
Ltac read_field Hm :=
  eapply reads_bind;
    [first [eapply (reads_field _ _ Hm); [reflexivity|solve [eauto with reads]]
           |eapply (reads_field_opt _ _ Hm); [reflexivity|solve [eauto with reads]]
           |eapply (reads_value_opt _ _ Hm); reflexivity]
    |].

(** Reads an object to its end. *)
Ltac read_fields Hm :=
  eapply reads_weaken; [repeat (read_field Hm; intros ?; cbv beta; first [intros <-|intros ?]); eapply reads_ok; [reflexivity|]|].

Lemma obj_fields fields v' :
  R (v_obj fields) v' → ∃ m', json_view v' = V_Obj m' ∧ carried fields m'.
Proof. intros (m & Hv & Hm)%obj_kept. eauto using kept_carried. Qed.

Lemma fields_of_obj {A : Type} names v m (k : gmap string Value → result A string) :
  json_view v = V_Obj m → result_bind (fields_of names v) k = k m.
Proof. unfold fields_of. by intros ->. Qed.

Lemma reads_error e v' : R (JobError_to_value e) v' → reads True (read_error v') (eq e).
Proof.
  intros (m & Hv & Hm)%obj_fields. unfold read_error. rewrite (fields_of_obj _ _ _ _ Hv).
  read_fields Hm; [by destruct e|tauto].
Qed.

Lemma reads_duration d v' : R (v_duration d) v' → reads (fits 0 DURATION_MAX d) (read_duration v') (eq d).
Proof.
  intros (m & Hv & Hm)%obj_kept. unfold read_duration, duration_fields. rewrite Hv.
  rewrite decide_True by (refine (kept_size _ _ _ Hm); repeat (constructor; [by set_solver|]); constructor).
  apply kept_carried in Hm.
  pose proof (Z.mod_pos_bound d 1000000000) as Hb. pose proof (Z.div_mod d 1000000000) as Hd. cbn [result_bind].
  eapply reads_weaken; [read_field Hm; intros ? <-; read_field Hm; intros ? <-|].
  - rewrite (Z.div_small (d mod _)), (Z.mod_small (d mod _)) by lia. rewrite Z.add_0_r.
    refine (_ : reads (fits 0 DURATION_MAX d) _ _). intros Hf. unfold fits, DURATION_MAX, U64_MAX in *.
    destruct (Z.leb_spec (d / 1000000000) (2 ^ 64 - 1)); [|lia]. exists d. split; [f_equal; lia|done].
  - unfold fits, DURATION_MAX, U64_MAX, U32_MAX. intros [H1 H2]. split_and!; (done || lia).
Qed.
#[local] Hint Resolve reads_error reads_duration : reads.

Lemma reads_policy p v' : R (RetryPolicy_to_value p) v' → reads (RetryPolicy_typed p) (read_policy v') (eq p).
Proof.
  intros (m & Hv & Hm)%obj_fields. unfold read_policy. rewrite (fields_of_obj _ _ _ _ Hv).
  read_fields Hm; [by destruct p|unfold RetryPolicy_typed, fits; tauto].
Qed.
#[local] Hint Resolve reads_policy : reads.

(** ** Events *)

Definition tagged_fields (ev : JobEvent) : list (string * Value) :=
  ("type", v_str (JobEvent_tag ev)) :: JobEvent_fields ev.

Lemma reads_variant ev m v' :
  json_view v' = V_Obj m → carried (tagged_fields ev) m →
  reads (event_typed ev) (read_variant (JobEvent_tag ev) v') (event_kept ev).
Proof.
  unfold tagged_fields. intros Hv Hm. destruct ev; cbn [JobEvent_tag JobEvent_fields] in Hm |- *;
    unfold read_variant, variants; cbn [assoc String.eqb Ascii.eqb Bool.eqb default option_rect];
    rewrite (fields_of_obj _ _ _ _ Hv); read_fields Hm.
  all: try (unfold event_typed; tauto).
  all: simpl; try done; try (by destruct priority); try (by destruct lease); tauto.
Qed.

(** An object with the tag and the fields of an event, and perhaps others. *)
Lemma reads_tagged ev m v' :
  json_view v' = V_Obj m → carried (tagged_fields ev) m →
  reads (event_typed ev) (JobEvent_from_value v') (event_kept ev).
Proof.
  intros Hv Hm. unfold JobEvent_from_value, split_tag. rewrite Hv.
  destruct (Hm "type" _ eq_refl) as (t & Ht & Hl). unfold field. rewrite Hl. cbn [result_bind fst snd].
  rewrite (read_str_kept _ _ Ht). by eapply reads_variant.
Qed.

Lemma reads_event ev v' :
  R (JobEvent_to_value ev) v' → reads (event_typed ev) (JobEvent_from_value v') (event_kept ev).
Proof. intros (m & Hv & Hm)%obj_fields. by eapply reads_tagged. Qed.
#[local] Hint Resolve reads_event : reads.

(** How an envelope may come back. *)
Definition envelope_kept (a b : EventEnvelope) : Prop :=
  event_kept (event a) (event b) ∧ b =
    {| event_id := event_id a; stream_id := stream_id a; envelope_version := envelope_version a;
       recorded_at := recorded_at a; correlation_id := correlation_id a; causation_id := causation_id a;
       traceparent := traceparent a; schema_version := schema_version a; event := event b |}.

Lemma reads_envelope env v' :
  R (EventEnvelope_to_value env) v' → reads (envelope_typed env) (EventEnvelope_from_value v') (envelope_kept env).
Proof.
  intros (m & Hv & Hm)%obj_fields. unfold EventEnvelope_from_value. rewrite (fields_of_obj _ _ _ _ Hv). read_fields Hm.
  - split; [done|]. destruct env as [[] [] ? ? [] [[]|] ? ? ?]; done.
  - unfold envelope_typed. tauto.
Qed.
End storage.

(** ** Without a storage in between *)

Lemma view_kept_refl vw : view_kept eq vw vw.
Proof. destruct vw; constructor. intros k. destruct (m !! k); by constructor. Qed.

Lemma eq_view (v v' : Value) : v = v' → view_kept eq (json_view v) (json_view v').
Proof. intros <-. apply view_kept_refl. Qed.

Lemma event_kept_eq ev ev' : no_null ev → event_kept eq ev ev' → ev' = ev.
Proof.
  destruct ev as [| | |[]| | | | | | | | | | | | | | |[] ?], ev' as [| | |[]| | | | | | | | | | | | | | |[] ?]; simpl;
    naive_solver.
Qed.

(** C19: Every event survives its JSON form: written and read, it is the event
    it was, if no optional JSON value in it is null. *)
Theorem event_round_trip ev :
  event_typed ev → no_null ev → JobEvent_from_value (JobEvent_to_value ev) = Ok ev.
Proof.
  intros Ht Hn. destruct (reads_event eq eq_view ev _ eq_refl Ht) as (ev' & -> & Hk).
  by rewrite (event_kept_eq _ _ Hn Hk).
Qed.

Lemma envelope_round_trip env :
  envelope_typed env → no_null (event env) → EventEnvelope_from_value (EventEnvelope_to_value env) = Ok env.
Proof.
  intros Ht Hn. destruct (reads_envelope eq eq_view env _ eq_refl Ht) as (env' & -> & Hk & ->).
  rewrite (event_kept_eq _ _ Hn Hk). by destruct env.
Qed.

(** The tag of an event in its JSON form is its kind. *)
Theorem tag_is_kind ev :
  ∃ m : gmap string Value, json_view (JobEvent_to_value ev) = V_Obj m ∧ json_view <$> m !! "type" = Some (V_Str (kind ev)).
Proof.
  eexists. split; [by apply view_of_view|]. rewrite assoc_lookup. simpl. f_equal. unfold v_str.
  rewrite view_of_view by done. by destruct ev.
Qed.

(** ** Additive evolution *)

Definition optional_keys : list string := ["causation_id"; "traceparent"].

(** The envelope with the lineage that an object has. *)
Definition lineage_in m (env : EventEnvelope) : EventEnvelope :=
  {| event_id := event_id env; stream_id := stream_id env; envelope_version := envelope_version env;
     recorded_at := recorded_at env; correlation_id := correlation_id env;
     causation_id := m !! "causation_id" ≫= (λ _, causation_id env);
     traceparent := m !! "traceparent" ≫= (λ _, traceparent env);
     schema_version := schema_version env; event := event env |}.

(** An optional field of the writer, present or left out. *)
Lemma read_optional {A : Type} m k (write : A → Value) o (read : Value → result A string) :
  m !! k = Some (v_option write o) ∨ m !! k = None →
  (∀ a, json_view (write a) ≠ V_Null ∧ read (write a) = Ok a) →
  field_opt m k read = Ok (m !! k ≫= (λ _, o)).
Proof.
  unfold field_opt. intros [->| ->] Hr; [|done]. destruct o as [a|]; simpl.
  - destruct (Hr a) as [Hn ->]. by destruct (json_view (write a)).
  - unfold v_null. by rewrite view_of_view.
Qed.

(** An object that has the fields of an event is read as the event, whatever
    other fields it has. *)
Lemma event_evolves ev m v :
  event_typed ev → no_null ev → json_view v = V_Obj m →
  (∀ k x, assoc k (tagged_fields ev) = Some x → m !! k = Some x) → JobEvent_from_value v = Ok ev.
Proof.
  intros Ht Hn Hv Hm. destruct (reads_tagged eq eq_view ev m v) with (3 := Ht) as (ev' & -> & Hk); [done| |].
  - intros k x Hk. eauto.
  - by rewrite (event_kept_eq _ _ Hn Hk).
Qed.

(** C36: Envelopes evolve by addition: an object that has the required fields of an
    envelope, each of the two optional ones or not, and fields that nobody
    knows, in the envelope and in its event, is read as that envelope, with
    the optional fields that are absent as [None]. *)
Theorem envelope_evolves env m v me ve :
  envelope_typed env → no_null (event env) → json_view v = V_Obj m →
  (∀ k x, assoc k (EventEnvelope_fields env) = Some x → k ≠ "event" →
    m !! k = Some x ∨ k ∈ optional_keys ∧ m !! k = None) →
  m !! "event" = Some ve → json_view ve = V_Obj me →
  (∀ k x, assoc k (tagged_fields (event env)) = Some x → me !! k = Some x) →
  EventEnvelope_from_value v = Ok (lineage_in m env).
Proof.
  intros (Hver & Hsch & Hty) Hn Hv Hm Hve Hvm Hme. unfold EventEnvelope_from_value. rewrite (fields_of_obj _ _ _ _ Hv).
  assert (Hreq : ∀ k x, assoc k (EventEnvelope_fields env) = Some x → k ≠ "event" → k ∉ optional_keys → m !! k = Some x)
    by naive_solver.
  unfold field. rewrite (Hreq "event_id" _ eq_refl), (Hreq "stream_id" _ eq_refl), (Hreq "version" _ eq_refl),
    (Hreq "recorded_at" _ eq_refl), (Hreq "correlation_id" _ eq_refl), (Hreq "schema_version" _ eq_refl), Hve
    by (done || set_solver).
  rewrite !(read_uuid_kept eq eq_view _ _ eq_refl), (read_time_kept eq eq_view _ _ eq_refl).
  rewrite (event_evolves _ _ _ Hty Hn Hvm Hme). cbn [result_bind].
  rewrite (read_optional m "causation_id" v_uuid (EventId_as_uuid <$> causation_id env));
    [|by edestruct (Hm "causation_id"); [reflexivity|done|left|right; tauto]|intros u; by apply (uuid_opt_kept eq eq_view)].
  rewrite (read_optional m "traceparent" v_str (traceparent env));
    [|by edestruct (Hm "traceparent"); [reflexivity|done|left|right; tauto]|intros u; by apply (str_opt_kept eq eq_view)].
  unfold read_u64, read_u16. rewrite (read_int_kept eq eq_view 0 U64_MAX _ _ ltac:(done) ltac:(done) Hver eq_refl). cbn [result_bind].
  rewrite (read_int_kept eq eq_view 0 65535 _ _ ltac:(done) ltac:(done) Hsch eq_refl). cbn [result_bind]. unfold lineage_in.
  destruct env as [[] [] ? ? [] c ? ? ?]. simpl. do 2 f_equal. destruct (m !! "causation_id"); [|done].
  by destruct c as [[]|].
Qed.

(** ** Reading is validating *)

Lemma field_ok {A : Type} m k (read : Value → result A string) a : field m k read = Ok a → ∃ v, read v = Ok a.
Proof. unfold field. destruct (m !! k); [eauto|done]. Qed.

Lemma read_int_typed lo hi v n : read_int lo hi v = Ok n → fits lo hi n.
Proof. unfold read_int, fits. destruct (json_view v); try done. zb; simpl; try done. intros [= ->]. lia. Qed.

Lemma read_queue_typed v q : read_queue v = Ok q → QueueName_new (QueueName_as_str q) = Ok q.
Proof.
  intros (s & _ & H)%result_bind_ok. unfold QueueName_try_from in H. destruct (QueueName_new s) eqn:Hq; simplify_eq/=.
  by destruct (proj1 (QueueName_new_spec _ _) Hq) as [-> _].
Qed.

Lemma read_worker_typed v w : read_worker v = Ok w → WorkerId_new (WorkerId_as_str w) = Ok w.
Proof.
  intros (s & _ & H)%result_bind_ok. unfold WorkerId_try_from in H. destruct (WorkerId_new s) eqn:Hw; simplify_eq/=.
  by destruct (proj1 (WorkerId_new_spec _ _) Hw) as [-> _].
Qed.

Lemma read_duration_typed v d : read_duration v = Ok d → fits 0 DURATION_MAX d.
Proof.
  intros (m & _ & (s & (? & Hs%read_int_typed)%field_ok & (n & (? & Hn%read_int_typed)%field_ok & Hx)%result_bind_ok)%result_bind_ok)%result_bind_ok.
  cbv zeta in Hx. unfold fits, U64_MAX, U32_MAX, DURATION_MAX in *.
  destruct (Z.leb_spec (s + n / 1000000000) (2 ^ 64 - 1)); [|done]. injection Hx as <-.
  pose proof (Z.mod_pos_bound n 1000000000). pose proof (Z.div_pos n 1000000000). lia.
Qed.

Lemma read_policy_typed v p : read_policy v = Ok p → RetryPolicy_typed p.
Proof.
  intros (m & _ & (a & (? & Ha%read_int_typed)%field_ok & (b & (? & Hb%read_duration_typed)%field_ok &
    (d & (? & Hd%read_duration_typed)%field_ok & [= <-])%result_bind_ok)%result_bind_ok)%result_bind_ok)%result_bind_ok.
  exact (conj Ha (conj Hb Hd)).
Qed.

Lemma assoc_elem {A : Type} k (l : list (string * A)) a : assoc k l = Some a → (k, a) ∈ l.
Proof.
  induction l as [|[k' a'] l IH]; simpl; [done|]. destruct (String.eqb_spec k k') as [->|_]; [intros [= ->]|]; set_solver.
Qed.

#[local] Hint Resolve read_int_typed read_queue_typed read_worker_typed read_policy_typed : core.

Lemma variants_typed v : Forall (λ x, ∀ ev, x.2 = Ok ev → event_typed ev) (variants v).
Proof.
  unfold variants. repeat constructor; cbn [snd]; intros ev H;
    repeat (apply result_bind_ok in H as (? & ?Hf & H)); injection H as <-; simpl; try done;
    repeat match goal with Hf : field _ _ _ = Ok _ |- _ => apply field_ok in Hf as [? ?] end; split_and?; eauto.
Qed.

Lemma from_value_typed v ev : JobEvent_from_value v = Ok ev → event_typed ev.
Proof.
  intros ([t content] & _ & (tag & _ & Hr)%result_bind_ok)%result_bind_ok. simpl in Hr. unfold read_variant in Hr.
  destruct (assoc tag _) as [r|] eqn:Ha; [|done]. apply assoc_elem in Ha. simpl in Hr. subst r.
  pose proof (variants_typed content) as Hv. rewrite Forall_forall in Hv. by apply (Hv _ Ha).
Qed.

(** C35: Whatever is read as an envelope, from an object or from any other form
    that serde presents as its fields, has a version and a schema version
    within their types and an event with valid names and fields within the
    ranges of theirs: reading goes through the constructors. *)
Theorem read_envelope_typed v env : EventEnvelope_from_value v = Ok env → envelope_typed env.
Proof.
  unfold EventEnvelope_from_value. intros Hr. repeat (apply result_bind_ok in Hr as (? & ? & Hr)). injection Hr as <-.
  repeat match goal with Hf : field _ _ _ = Ok _ |- _ => apply field_ok in Hf as [? Hf] end.
  split_and!; simpl; eauto using read_int_typed, from_value_typed.
Qed.
End facts.
