(* ===== verification/Job.v ===== *)
(** * The [Job] aggregate ([koine-domain/src/job.rs])

    State is a fold of [apply] over the recorded events; commands validate
    and return the events to append. [apply] is a method on [&mut self], so
    it is stateful code over [Job]: its assignments happen in the order of
    the source and an early return keeps what was assigned before it. *)

From S2P Require Import Prelude Std Ids Retry Events.

Open Scope string_scope.
Open Scope list_scope.
Open Scope Z_scope.

(** ** State *)

Inductive JobState : Type :=
| S_Pending (not_before : option DateTime)
| S_Leased (worker : WorkerId) (lease : LeaseId) (expires_at : DateTime)
| S_Running (worker : WorkerId) (lease : LeaseId) (expires_at : DateTime)
| S_Succeeded
| S_Parked (reason : ParkReason)
| S_Cancelled
| S_Suspended
| S_AwaitingApproval (key : string).

Definition JobState_name (self : JobState) : string :=
  match self with
  | S_Pending _ => "pending"
  | S_Leased _ _ _ => "leased"
  | S_Running _ _ _ => "running"
  | S_Succeeded => "succeeded"
  | S_Parked _ => "parked"
  | S_Cancelled => "cancelled"
  | S_Suspended => "suspended"
  | S_AwaitingApproval _ => "awaiting_approval"
  end.

Section aggregate.
Context `{ext : Externals}.

Record Job : Type := Job_mk {
  job_id : JobId;
  job_queue : QueueName;
  job_priority : Priority;
  job_payload : Value;
  job_retry_policy : RetryPolicy;
  job_attempt : Z;
  job_state : JobState;
  job_version : Z;
}.

(** Assignments [self.attempt = a], [self.payload = p], [self.state = s] and
    [self.version = v]. *)
Definition set_attempt (a : Z) (j : Job) : Job :=
  Job_mk (job_id j) (job_queue j) (job_priority j) (job_payload j) (job_retry_policy j)
    a (job_state j) (job_version j).

Definition set_payload (p : Value) (j : Job) : Job :=
  Job_mk (job_id j) (job_queue j) (job_priority j) p (job_retry_policy j)
    (job_attempt j) (job_state j) (job_version j).

Definition set_state (s : JobState) (j : Job) : Job :=
  Job_mk (job_id j) (job_queue j) (job_priority j) (job_payload j) (job_retry_policy j)
    (job_attempt j) s (job_version j).

Definition set_version (v : Z) (j : Job) : Job :=
  Job_mk (job_id j) (job_queue j) (job_priority j) (job_payload j) (job_retry_policy j)
    (job_attempt j) (job_state j) v.

(** ** Events to state *)

Definition initial_event (queue : QueueName) (payload : Value) (priority : Priority)
    (retry_policy : RetryPolicy) (not_before : option DateTime) : JobEvent :=
  E_Enqueued queue payload priority retry_policy not_before.

Definition apply (ev : JobEvent) : ST Job DomainError unit :=
  let! self := st_get in
  let! next :=
    match job_state self, ev with
    | S_Pending _, E_Leased worker lease expires_at => st_ret (S_Leased worker lease expires_at)
    | S_Leased worker lease expires_at, E_Started _ => st_ret (S_Running worker lease expires_at)
    | S_Running _ _ _, E_Succeeded _ => st_ret S_Succeeded
    | S_Running _ _ _, E_Failed _ attempt =>
        let! _ := st_modify (set_attempt attempt) in
        st_ret (S_Pending None)
    | S_Pending _, E_RetryScheduled attempt not_before =>
        let! _ := st_modify (set_attempt attempt) in
        st_ret (S_Pending (Some not_before))
    | (S_Leased _ _ _ | S_Running _ _ _), E_LeaseExpired _ =>
        let! _ := st_modify (λ j, set_attempt (u32_add (job_attempt j) 1) j) in
        st_ret (S_Pending None)
    | S_Pending _, E_Parked reason => st_ret (S_Parked reason)
    | (S_Pending _ | S_Leased _ _ _ | S_Running _ _ _ | S_Suspended
       | S_AwaitingApproval _ | S_Parked _), E_Cancelled _ => st_ret S_Cancelled
    | state, E_LateAckConflict _ _ _ => st_ret state
    | S_Running _ _ _ as state, E_CheckpointRecorded _ _ => st_ret state
    | (S_Pending _ | S_Leased _ _ _ | S_Running _ _ _ | S_Suspended
       | S_AwaitingApproval _) as state, E_SignalReceived _ _ => st_ret state
    | (S_Leased _ _ _ | S_Running _ _ _) as state, E_Stalled => st_ret state
    | S_Running _ _ _, E_ApprovalRequested key => st_ret (S_AwaitingApproval key)
    | S_AwaitingApproval _, E_ApprovalGranted _ _ => st_ret (S_Pending None)
    | S_AwaitingApproval _, E_ApprovalDenied _ _ => st_ret (S_Parked ApprovalDenied)
    | (S_Pending _ | S_Running _ _ _), E_Suspended => st_ret S_Suspended
    | S_Suspended, E_Resumed => st_ret (S_Pending None)
    | S_Parked _, E_Repaired new_payload _ =>
        let! _ :=
          match new_payload with
          | Some payload => st_modify (set_payload payload)
          | None => st_ret tt
          end in
        let! _ := st_modify (set_attempt 0) in
        st_ret (S_Pending None)
    | state, ev => st_err (IllegalTransition (JobState_name state) (kind ev))
    end in
  let! _ := st_modify (set_state next) in
  st_modify (λ j, set_version (u64_add (job_version j) 1) j).

(** The loop of [from_events] over the envelopes after the first. *)
Fixpoint fold_rest (job : Job) (rest : list EventEnvelope) : result Job DomainError :=
  match rest with
  | [] => Ok job
  | envelope :: rest =>
      if negb (envelope_version envelope =? u64_add (job_version job) 1)
      then Err (NonSequentialVersion (u64_add (job_version job) 1) (envelope_version envelope))
      else
        match apply (event envelope) job with
        | (Ok tt, job) => fold_rest job rest
        | (Err e, _) => Err e
        | (Panic, _) => Panic
        end
  end.

Definition from_events (envelopes : list EventEnvelope) : result Job DomainError :=
  match envelopes with
  | [] => Err (StreamMustStartWithEnqueued "nothing")
  | first :: rest =>
      match event first with
      | E_Enqueued queue payload priority retry_policy not_before =>
          if negb (envelope_version first =? 1)
          then Err (NonSequentialVersion 1 (envelope_version first))
          else
            fold_rest
              {| job_id := stream_id first;
                 job_queue := queue;
                 job_priority := priority;
                 job_payload := payload;
                 job_retry_policy := retry_policy;
                 job_attempt := 0;
                 job_state := S_Pending not_before;
                 job_version := 1 |}
              rest
      | ev => Err (StreamMustStartWithEnqueued (kind ev))
      end
  end.

(** ** Commands *)

(** [not_before.is_none_or(|t| t <= now)] *)
Definition eligible_at (not_before : option DateTime) (now : DateTime) : bool :=
  match not_before with
  | None => true
  | Some t => t <=? now
  end.

Definition lease (self : Job) (worker : WorkerId) (lease : LeaseId) (now : DateTime)
    (ttl : Duration) : result JobEvent DomainError :=
  match job_state self with
  | S_Pending not_before =>
      if eligible_at not_before now then
        let? ttl := ok_or (TimeDelta_from_std ttl) InvalidTtl in
        let? expires_at := or_panic (checked_add_signed now ttl) in
        Ok (E_Leased worker lease expires_at)
      else Err (IllegalTransition (JobState_name (job_state self)) "leased")
  | state => Err (IllegalTransition (JobState_name state) "leased")
  end.

Definition start (self : Job) (worker : WorkerId) : result JobEvent DomainError :=
  match job_state self with
  | S_Leased holder _ _ =>
      if bool_decide (holder = worker) then Ok (E_Started worker) else Err LeaseMismatch
  | state => Err (IllegalTransition (JobState_name state) "started")
  end.

Definition succeed (self : Job) (lease : LeaseId) (res : option Value)
    : result JobEvent DomainError :=
  match job_state self with
  | S_Running _ held _ =>
      if bool_decide (held = lease) then Ok (E_Succeeded res) else Err LeaseMismatch
  | state => Err (IllegalTransition (JobState_name state) "succeeded")
  end.

Definition retry_decision_event (self : Job) (attempt : Z) (now : DateTime) (seed : Z)
    : result JobEvent DomainError :=
  match RetryPolicy_decide (job_retry_policy self) attempt seed with
  | RetryAfter delay =>
      let? delay := ok_or (TimeDelta_from_std delay) InvalidTtl in
      let? not_before := ok_or (checked_add_signed now delay) InvalidTtl in
      Ok (E_RetryScheduled attempt not_before)
  | Park => Ok (E_Parked RetriesExhausted)
  end.

Definition fail (self : Job) (lease : LeaseId) (error : JobError) (now : DateTime) (seed : Z)
    : result (list JobEvent) DomainError :=
  match job_state self with
  | S_Running _ held _ =>
      if bool_decide (held = lease) then
        let attempt := u32_add (job_attempt self) 1 in
        let? second :=
          if retryable error then retry_decision_event self attempt now seed
          else Ok (E_Parked NonRetryableError) in
        Ok [E_Failed error attempt; second]
      else Err LeaseMismatch
  | state => Err (IllegalTransition (JobState_name state) "failed")
  end.

Definition expire_lease (self : Job) (now : DateTime) (seed : Z)
    : result (list JobEvent) DomainError :=
  match job_state self with
  | S_Leased _ lease _ | S_Running _ lease _ =>
      let attempt := u32_add (job_attempt self) 1 in
      let? second := retry_decision_event self attempt now seed in
      Ok [E_LeaseExpired lease; second]
  | state => Err (IllegalTransition (JobState_name state) "lease_expired")
  end.

Definition cancel (self : Job) (reason : option string) : result JobEvent DomainError :=
  match job_state self with
  | S_Succeeded | S_Cancelled =>
      Err (IllegalTransition (JobState_name (job_state self)) "cancelled")
  | _ => Ok (E_Cancelled reason)
  end.

Definition late_ack (worker : WorkerId) (lease : LeaseId) (reported : ReportedOutcome) : JobEvent :=
  E_LateAckConflict worker lease reported.

End aggregate.
