(* ===== verification/Lifecycle.v ===== *)
(** * The job lifecycle: specification of [Job::apply] and facts on the fold

    [documented] is the event model of the documentation, by kinds of events
    and states; [apply] implements it with one exception. [step] is the
    transition relation of the code with the data of its states, which the
    facts below are proved with. Then the facts about folding a
    stream that the stores and the use cases rely on: folding splits over
    concatenation, a folded stream has consecutive versions, rejected events
    change nothing, terminal states absorb. *)

From S2P Require Import Prelude Std Ids Retry Events Job.

Open Scope string_scope.
Open Scope list_scope.
Open Scope Z_scope.

Section lifecycle.
Context `{ext : Externals}.
Implicit Types (j : Job) (ev : JobEvent) (s : JobState) (env : EventEnvelope).

(** ** Specification *)

(** States in which a lease is held. *)
Inductive holds (w : WorkerId) (l : LeaseId) (t : DateTime) : JobState → Prop :=
| holds_leased : holds w l t (S_Leased w l t)
| holds_running : holds w l t (S_Running w l t).

Definition terminal s : bool :=
  match s with
  | S_Succeeded | S_Cancelled => true
  | _ => false
  end.

(** Accepting signals in the code: neither terminal nor parked. *)
Definition signalable s : bool :=
  match s with
  | S_Succeeded | S_Cancelled | S_Parked _ => false
  | _ => true
  end.

Inductive step : JobState → JobEvent → JobState → Prop :=
| step_lease nb w l t : step (S_Pending nb) (E_Leased w l t) (S_Leased w l t)
| step_start w l t w' : step (S_Leased w l t) (E_Started w') (S_Running w l t)
| step_succeed w l t r : step (S_Running w l t) (E_Succeeded r) S_Succeeded
| step_fail w l t err n : step (S_Running w l t) (E_Failed err n) (S_Pending None)
| step_expire s w l t l' : holds w l t s → step s (E_LeaseExpired l') (S_Pending None)
| step_retry nb n t : step (S_Pending nb) (E_RetryScheduled n t) (S_Pending (Some t))
| step_park nb r : step (S_Pending nb) (E_Parked r) (S_Parked r)
| step_cancel s r : terminal s = false → step s (E_Cancelled r) S_Cancelled
| step_late s w l o : step s (E_LateAckConflict w l o) s
| step_checkpoint w l t k d : step (S_Running w l t) (E_CheckpointRecorded k d) (S_Running w l t)
| step_signal s n d : signalable s = true → step s (E_SignalReceived n d) s
| step_stall s w l t : holds w l t s → step s E_Stalled s
| step_ask w l t k : step (S_Running w l t) (E_ApprovalRequested k) (S_AwaitingApproval k)
| step_grant k k' a : step (S_AwaitingApproval k) (E_ApprovalGranted k' a) (S_Pending None)
| step_deny k k' a : step (S_AwaitingApproval k) (E_ApprovalDenied k' a) (S_Parked ApprovalDenied)
| step_suspend_pending nb : step (S_Pending nb) E_Suspended S_Suspended
| step_suspend_running w l t : step (S_Running w l t) E_Suspended S_Suspended
| step_resume : step S_Suspended E_Resumed (S_Pending None)
| step_repair r p n : step (S_Parked r) (E_Repaired p n) (S_Pending None).

(** ** The documented event model

    The states without what they carry, and what
    [docs/architecture/event-model.md] says of each kind of event: the column
    on who emits it and from where, and the state diagram. *)

Inductive Phase : Type :=
| P_Pending
| P_Leased
| P_Running
| P_Succeeded
| P_Parked
| P_Cancelled
| P_Suspended
| P_AwaitingApproval.

Definition same (p q : Phase) : bool :=
  match p, q with
  | P_Pending, P_Pending | P_Leased, P_Leased | P_Running, P_Running | P_Succeeded, P_Succeeded | P_Parked, P_Parked
  | P_Cancelled, P_Cancelled | P_Suspended, P_Suspended | P_AwaitingApproval, P_AwaitingApproval => true
  | _, _ => false
  end.

Definition phase s : Phase :=
  match s with
  | S_Pending _ => P_Pending
  | S_Leased _ _ _ => P_Leased
  | S_Running _ _ _ => P_Running
  | S_Succeeded => P_Succeeded
  | S_Parked _ => P_Parked
  | S_Cancelled => P_Cancelled
  | S_Suspended => P_Suspended
  | S_AwaitingApproval _ => P_AwaitingApproval
  end.

(** The states that [docs/architecture/koine-domain.md] calls terminal. *)
Definition is_terminal (p : Phase) : bool := existsb (same p) [P_Succeeded; P_Cancelled].

(** From one of the states to [q]. *)
Definition from (ps : list Phase) (q p : Phase) : option Phase := if existsb (same p) ps then Some q else None.

(** In one of the states, which stays. *)
Definition within (ps : list Phase) (p : Phase) : option Phase := if existsb (same p) ps then Some p else None.

(** The arrows by kind; [enqueued] only opens a stream. *)
Definition documented (kind : string) (p : Phase) : option Phase :=
  match kind with
  | "leased" => from [P_Pending] P_Leased p
  | "started" => from [P_Leased] P_Running p
  | "succeeded" => from [P_Running] P_Succeeded p
  | "failed" => from [P_Running] P_Pending p
  | "lease_expired" => from [P_Leased; P_Running] P_Pending p
  | "retry_scheduled" => from [P_Pending] P_Pending p
  | "parked" => from [P_Pending] P_Parked p
  | "cancelled" => if is_terminal p then None else Some P_Cancelled
  | "late_ack_conflict" => Some p
  | "stalled" => within [P_Leased; P_Running] p
  | "checkpoint_recorded" => within [P_Running] p
  | "signal_received" => if is_terminal p then None else Some p
  | "approval_requested" => from [P_Running] P_AwaitingApproval p
  | "approval_granted" => from [P_AwaitingApproval] P_Pending p
  | "approval_denied" => from [P_AwaitingApproval] P_Parked p
  | "suspended" => from [P_Pending; P_Running] P_Suspended p
  | "resumed" => from [P_Suspended] P_Pending p
  | "repaired" => from [P_Parked] P_Pending p
  | _ => None
  end.

(** What the state an event leads to carries: the lease that was granted and
    then held until it ends, the time of a retry, the reason of a parking, the
    key of an approval; a record changes nothing. *)
Definition lands ev s s' : Prop :=
  match ev with
  | E_Leased w l t => s' = S_Leased w l t
  | E_Started _ => ∃ w l t, s = S_Leased w l t ∧ s' = S_Running w l t
  | E_RetryScheduled _ t => s' = S_Pending (Some t)
  | E_Failed _ _ | E_LeaseExpired _ | E_ApprovalGranted _ _ | E_Resumed | E_Repaired _ _ => s' = S_Pending None
  | E_Parked r => s' = S_Parked r
  | E_ApprovalDenied _ _ => s' = S_Parked ApprovalDenied
  | E_ApprovalRequested k => s' = S_AwaitingApproval k
  | E_LateAckConflict _ _ _ | E_Stalled | E_CheckpointRecorded _ _ | E_SignalReceived _ _ => s' = s
  | _ => True
  end.

(** What an accepted event does to the attempt counter and the payload. *)
Definition attempt_after j ev : Z :=
  match ev with
  | E_Failed _ n | E_RetryScheduled n _ => n
  | E_LeaseExpired _ => u32_add (job_attempt j) 1
  | E_Repaired _ _ => 0
  | _ => job_attempt j
  end.

Definition payload_after j ev : Value :=
  match ev with
  | E_Repaired (Some p) _ => p
  | _ => job_payload j
  end.

(** Applying a batch of events in order, stopping at the first rejection. *)
Fixpoint apply_all (evs : list JobEvent) j : result Job DomainError :=
  match evs with
  | [] => Ok j
  | ev :: evs =>
      match apply ev j with
      | (Ok tt, j') => apply_all evs j'
      | (Err e, _) => Err e
      | (Panic, _) => Panic
      end
  end.

(** The envelopes continue version [v] one by one. *)
Fixpoint sequential (v : Z) (envs : list EventEnvelope) : Prop :=
  match envs with
  | [] => True
  | env :: envs => envelope_version env = u64_add v 1 ∧ sequential (u64_add v 1) envs
  end.

(** ** Lemmas on [apply] *)

Lemma apply_cases ev j :
  (∃ s', step (job_state j) ev s' ∧
     apply ev j = (Ok tt,
       Job_mk (job_id j) (job_queue j) (job_priority j) (payload_after j ev)
         (job_retry_policy j) (attempt_after j ev) s' (u64_add (job_version j) 1)))
  ∨ ((∀ s', ¬ step (job_state j) ev s') ∧
     apply ev j = (Err (IllegalTransition (JobState_name (job_state j)) (kind ev)), j)).
Proof.
  destruct j as [i q p v rp a st n].
  destruct st, ev; simpl;
    first
      [ left; eexists; split; [solve [econstructor; done || constructor]|reflexivity]
      | left; eexists; split; [solve [econstructor; done || constructor]|by case_match]
      | right; split; [|reflexivity]; intros s' Hs;
        inversion Hs; subst; try match goal with H : holds _ _ _ _ |- _ => inversion H end;
        discriminate ].
Qed.

Lemma step_functional s ev s1 s2 : step s ev s1 → step s ev s2 → s1 = s2.
Proof. intros H1 H2. inversion H1; subst; inversion H2; subst; congruence. Qed.

Lemma apply_ok ev j j' :
  apply ev j = (Ok tt, j') ↔
  step (job_state j) ev (job_state j') ∧
  j' = Job_mk (job_id j) (job_queue j) (job_priority j) (payload_after j ev)
         (job_retry_policy j) (attempt_after j ev) (job_state j') (u64_add (job_version j) 1).
Proof.
  destruct (apply_cases ev j) as [(s' & Hs & ->)|[Hn ->]].
  - split.
    + intros [= <-]. done.
    + intros [Hs' ->]. simpl in *. by rewrite (step_functional _ _ _ _ Hs Hs').
  - split; [done|]. intros [Hs _]. by destruct (Hn _ Hs).
Qed.

Lemma apply_ok_inv ev j j' :
  apply ev j = (Ok tt, j') →
  ∃ s', step (job_state j) ev s' ∧
  j' = Job_mk (job_id j) (job_queue j) (job_priority j) (payload_after j ev)
         (job_retry_policy j) (attempt_after j ev) s' (u64_add (job_version j) 1).
Proof. destruct (apply_cases ev j) as [(s' & Hs & ->)|[Hn ->]]; naive_solver. Qed.

Lemma apply_by_step ev j s' :
  step (job_state j) ev s' →
  apply ev j = (Ok tt,
    Job_mk (job_id j) (job_queue j) (job_priority j) (payload_after j ev)
      (job_retry_policy j) (attempt_after j ev) s' (u64_add (job_version j) 1)).
Proof. intros Hs. by apply apply_ok. Qed.

Lemma apply_no_panic ev j j' : apply ev j ≠ (Panic, j').
Proof. by destruct (apply_cases ev j) as [(s' & Hs & ->)|[Hn ->]]. Qed.

Lemma terminal_step s ev s' :
  terminal s = true → step s ev s' → s' = s ∧ ∃ w l o, ev = E_LateAckConflict w l o.
Proof.
  intros Ht Hs. inversion Hs; subst; simplify_eq/=; try by eauto.
  all: repeat match goal with H : holds _ _ _ _ |- _ => inversion H; clear H; subst end.
  all: simplify_eq/=; try congruence.
  all: by destruct s'.
Qed.
(** ** Lemmas on folding *)

Lemma fold_rest_app envs1 envs2 j :
  fold_rest j (envs1 ++ envs2) = (let? j1 := fold_rest j envs1 in fold_rest j1 envs2).
Proof.
  revert j. induction envs1 as [|env envs IH]; intros j; simpl; [done|].
  case_match; [done|]. destruct (apply (event env) j) as [[[]| |] j']; simpl; auto.
Qed.

Lemma from_events_app envs1 envs2 :
  envs1 ≠ [] →
  from_events (envs1 ++ envs2) = (let? j := from_events envs1 in fold_rest j envs2).
Proof.
  destruct envs1 as [|env envs1]; [done|intros _]. simpl.
  destruct (event env); try done. case_match; [done|]. apply fold_rest_app.
Qed.

(** Folding envelopes is checking their versions and applying their events. *)
Lemma fold_rest_ok envs j j' :
  fold_rest j envs = Ok j' ↔
  sequential (job_version j) envs ∧ apply_all (event <$> envs) j = Ok j'.
Proof.
  revert j. induction envs as [|env envs IH]; intros j; simpl; [naive_solver|].
  destruct (Z.eqb_spec (envelope_version env) (u64_add (job_version j) 1)) as [->|]; simpl;
    [|naive_solver].
  destruct (apply (event env) j) as [[[]| |] j1] eqn:Ha; [|naive_solver..].
  rewrite IH. apply apply_ok_inv in Ha as (s' & _ & ->). simpl. naive_solver.
Qed.

Lemma fold_rest_total envs j : (∃ j', fold_rest j envs = Ok j') ∨ (∃ e, fold_rest j envs = Err e).
Proof.
  revert j. induction envs as [|env envs IH]; intros j; simpl; [eauto|].
  case_match; [eauto|]. destruct (apply (event env) j) as [[[]| |] j1] eqn:Ha; [eauto..|].
  by apply apply_no_panic in Ha.
Qed.

Lemma from_events_no_panic envs : from_events envs ≠ Panic.
Proof.
  destruct envs as [|env envs]; [done|]. simpl. destruct (event env); try done.
  case_match; [done|].
  match goal with |- fold_rest ?j _ ≠ _ => destruct (fold_rest_total envs j) as [[? ->]|[? ->]] end;
    done.
Qed.

(** The fixed part of a job: identity, queue, priority, policy. *)
Lemma apply_all_fixed evs j j' :
  apply_all evs j = Ok j' →
  job_id j' = job_id j ∧ job_queue j' = job_queue j ∧ job_priority j' = job_priority j ∧
  job_retry_policy j' = job_retry_policy j.
Proof.
  revert j. induction evs as [|ev evs IH]; intros j; simpl; [naive_solver|].
  destruct (apply ev j) as [[[]| |] j1] eqn:Ha; [|done..].
  intros Hf%IH. apply apply_ok_inv in Ha as (s' & _ & ->). simpl in *. naive_solver.
Qed.

Lemma apply_all_version evs j j' :
  apply_all evs j = Ok j' → 0 ≤ job_version j →
  job_version j + Z.of_nat (length evs) ≤ U64_MAX →
  job_version j' = job_version j + Z.of_nat (length evs).
Proof.
  revert j. induction evs as [|ev evs IH]; intros j; simpl; [intros; simplify_eq; lia|].
  destruct (apply ev j) as [[[]| |] j1] eqn:Ha; [|done..]. intros Hf ? ?.
  apply apply_ok_inv in Ha as (s' & _ & ->).
  rewrite (IH _ Hf); simpl; rewrite u64_add_id by lia; lia.
Qed.

Lemma sequential_lookup envs v i env :
  sequential v envs → 0 ≤ v → v + Z.of_nat (length envs) ≤ U64_MAX →
  envs !! i = Some env → envelope_version env = v + 1 + Z.of_nat i.
Proof.
  revert v i. induction envs as [|env' envs IH]; intros v i; simpl; [done|].
  intros [He Hs] ? ? Hi. rewrite u64_add_id in He, Hs by lia.
  destruct i as [|i]; simplify_eq/=; [lia|].
  rewrite (IH (v + 1) i) by (done || lia). lia.
Qed.

Lemma from_events_inv envs j :
  from_events envs = Ok j →
  ∃ env rest q p pr rp nb, envs = env :: rest ∧ event env = E_Enqueued q p pr rp nb ∧
    envelope_version env = 1 ∧
    fold_rest (Job_mk (stream_id env) q pr p rp 0 (S_Pending nb) 1) rest = Ok j.
Proof.
  destruct envs as [|env rest]; [done|]. simpl. destruct (event env) eqn:He; try done.
  destruct (Z.eqb_spec (envelope_version env) 1); [|done]. simpl. intros. naive_solver.
Qed.

Lemma from_events_nonempty envs j : from_events envs = Ok j → envs ≠ [].
Proof. by destruct envs. Qed.

Lemma from_events_version envs j :
  from_events envs = Ok j → Z.of_nat (length envs) ≤ U64_MAX →
  job_version j = Z.of_nat (length envs).
Proof.
  intros (env & rest & q & p & pr & rp & nb & -> & _ & _ & Hf)%from_events_inv Hlen.
  simpl length in *. apply fold_rest_ok in Hf as [_ Ha].
  apply apply_all_version in Ha; simpl in *; [|lia|rewrite length_fmap; lia].
  rewrite length_fmap in Ha. lia.
Qed.

Lemma from_events_id envs j :
  from_events envs = Ok j → ∃ env, head envs = Some env ∧ job_id j = stream_id env.
Proof.
  intros (env & rest & q & p & pr & rp & nb & -> & _ & _ & Hf)%from_events_inv.
  apply fold_rest_ok in Hf as [_ (-> & _)%apply_all_fixed]. eauto.
Qed.

(** In a terminal state only late acks apply, and they change nothing but
    the version. *)
Lemma apply_all_terminal evs j j' :
  terminal (job_state j) = true → apply_all evs j = Ok j' →
  job_state j' = job_state j ∧ job_attempt j' = job_attempt j ∧
  job_payload j' = job_payload j ∧ Forall (λ ev, kind ev = "late_ack_conflict") evs.
Proof.
  revert j. induction evs as [|ev evs IH]; intros j Ht; simpl; [naive_solver|].
  destruct (apply ev j) as [[[]| |] j1] eqn:Ha; [|done..]. intros Hf.
  apply apply_ok_inv in Ha as (s' & [-> (w & l & o & ->)]%terminal_step & ->); [|done].
  destruct (λ H, IH _ H Hf) as (-> & -> & -> & ?); [done|]. simpl. by rewrite Forall_cons.
Qed.

(** ** Theorems *)

(** C25: [apply] against the documentation: an event applies exactly when the event
    model has an arrow for its kind from the state the job is in, with one
    exception, a signal to a parked job, which the event model delivers (the
    job is not terminal) and the code rejects. An applied event leaves the job
    in the state the arrow leads to, one version on, with the attempts and the
    payload that [attempt_after] and [payload_after] give and the rest of the
    job as it was; a rejected one is an illegal transition and leaves the job
    untouched. *)
Theorem apply_implements_lifecycle ev j :
  match documented (kind ev) (phase (job_state j)) with
  | Some p =>
      if String.eqb (kind ev) "signal_received" && same (phase (job_state j)) P_Parked
      then apply ev j = (Err (IllegalTransition "parked" "signal_received"), j)
      else ∃ s', phase s' = p ∧ lands ev (job_state j) s' ∧
        apply ev j = (Ok tt,
          Job_mk (job_id j) (job_queue j) (job_priority j) (payload_after j ev)
            (job_retry_policy j) (attempt_after j ev) s' (u64_add (job_version j) 1))
  | None => apply ev j = (Err (IllegalTransition (JobState_name (job_state j)) (kind ev)), j)
  end.
Proof.
  destruct j as [i q p v rp a st n].
  destruct st, ev; simpl;
    first
      [ reflexivity
      | eexists; refine (conj _ (conj _ _)); cycle 2;
        [reflexivity|reflexivity|first [exact I|reflexivity|by eexists _, _, _]]
      | exists (S_Pending None); (split; [|split]); [done..|];
        match goal with |- apply (E_Repaired ?o _) _ = _ => by destruct o end ].
Qed.

(** A stream that folds is numbered 1, 2, ..., n, and the fold's version is
    n: the version is the optimistic-concurrency token of the next append. *)
Theorem from_events_numbered envs j :
  from_events envs = Ok j → Z.of_nat (length envs) ≤ U64_MAX →
  job_version j = Z.of_nat (length envs) ∧
  ∀ i env, envs !! i = Some env → envelope_version env = Z.of_nat i + 1.
Proof.
  intros Hf Hlen. split; [by apply from_events_version|].
  apply from_events_inv in Hf as (env0 & rest & q & p & pr & rp & nb & -> & _ & Hv & Hf).
  apply fold_rest_ok in Hf as [Hs _]. simpl in *. intros [|i] env Hi; simplify_eq/=; [lia|].
  rewrite (sequential_lookup _ _ _ _ Hs) by (done || lia). lia.
Qed.

(** Once a stream folds to a terminal state, every extension of it that
    still folds adds late-ack records only and keeps the state, the attempt
    counter and the payload. *)
Theorem terminal_absorbs envs more j j' :
  from_events envs = Ok j → terminal (job_state j) = true →
  from_events (envs ++ more) = Ok j' →
  job_state j' = job_state j ∧ job_attempt j' = job_attempt j ∧
  job_payload j' = job_payload j ∧
  Forall (λ env, kind (event env) = "late_ack_conflict") more.
Proof.
  intros Hf Ht. rewrite from_events_app by (by eapply from_events_nonempty).
  rewrite Hf. simpl. intros [_ Ha]%fold_rest_ok.
  destruct (apply_all_terminal _ _ _ Ht Ha) as (? & ? & ? & Hall).
  by rewrite Forall_fmap in Hall.
Qed.
End lifecycle.
