(* ===== verification/Commands.v ===== *)
(** * What the commands of [Job] guarantee

    Each command's functional behaviour on every branch; then jobs driven by
    commands alone: commands only emit applicable events, a failed or expired
    attempt counts once, the attempt counter never passes the policy's
    maximum, and a job is handed out at most that many times. *)

From S2P Require Import Prelude Std Ids Retry Events Job Lifecycle.

Open Scope string_scope.
Open Scope list_scope.
Open Scope Z_scope.

Section commands.
Context `{ext : Externals}.
Implicit Types (j : Job) (ev : JobEvent).

(** ** Specification *)

(** A call of one command method, with its arguments. *)
Inductive command : Type :=
| C_Lease (w : WorkerId) (l : LeaseId) (now : DateTime) (ttl : Duration)
| C_Start (w : WorkerId)
| C_Succeed (l : LeaseId) (r : option Value)
| C_Fail (l : LeaseId) (err : JobError) (now : DateTime) (seed : Z)
| C_Expire (now : DateTime) (seed : Z)
| C_Cancel (reason : option string)
| C_LateAck (w : WorkerId) (l : LeaseId) (o : ReportedOutcome).

Definition one (r : result JobEvent DomainError) : result (list JobEvent) DomainError :=
  let? ev := r in Ok [ev].

Definition exec (c : command) j : result (list JobEvent) DomainError :=
  match c with
  | C_Lease w l now ttl => one (lease j w l now ttl)
  | C_Start w => one (start j w)
  | C_Succeed l r => one (succeed j l r)
  | C_Fail l err now seed => fail j l err now seed
  | C_Expire now seed => expire_lease j now seed
  | C_Cancel reason => one (cancel j reason)
  | C_LateAck w l o => Ok [late_ack w l o]
  end.

(** Whether a command that goes through counts an attempt. *)
Definition counts_attempt (c : command) : bool :=
  match c with
  | C_Fail _ _ _ _ | C_Expire _ _ => true
  | _ => false
  end.

(** A job as the broker makes them: opened by [initial_event], then moved by
    the events of commands; the list is its history after the first event. *)
Inductive driven : list JobEvent → Job → Prop :=
| driven_init i q p pr rp nb :
    RetryPolicy_typed rp →
    driven [] (Job_mk i q pr p rp 0 (S_Pending nb) 1)
| driven_command hist j c evs j' :
    driven hist j → exec c j = Ok evs → apply_all evs j = Ok j' →
    driven (hist ++ evs) j'.

(** The number of attempts a policy allows; a maximum of 0 still lets the
    first attempt run. *)
Definition attempts_allowed (p : RetryPolicy) : Z := Z.max 1 (max_attempts p).

Definition deliveries (evs : list JobEvent) : Z :=
  Z.of_nat (length (filter (λ ev, kind ev = "leased") evs)).

(** The invariant of driven jobs: how the counter relates to the policy and
    to the number of leases granted so far. *)
Definition attempt_inv (n : Z) j : Prop :=
  let cap := attempts_allowed (job_retry_policy j) in
  RetryPolicy_typed (job_retry_policy j) ∧ 0 ≤ job_attempt j ∧
  match job_state j with
  | S_Pending _ => job_attempt j < cap ∧ n = job_attempt j
  | S_Leased _ _ _ | S_Running _ _ _ => job_attempt j < cap ∧ n = job_attempt j + 1
  | S_Succeeded => job_attempt j < cap ∧ n = job_attempt j + 1
  | S_Parked RetriesExhausted => job_attempt j = cap ∧ n = job_attempt j
  | S_Parked NonRetryableError => job_attempt j ≤ cap ∧ n = job_attempt j
  | S_Parked ApprovalDenied | S_Suspended | S_AwaitingApproval _ => False
  | S_Cancelled => job_attempt j ≤ cap ∧ job_attempt j ≤ n ≤ cap
  end.

(** ** Lemmas: what each command emits *)

Lemma lease_ok j w l now ttl ev :
  lease j w l now ttl = Ok ev →
  ∃ nb, job_state j = S_Pending nb ∧ eligible_at nb now = true ∧
        is_Some (TimeDelta_from_std ttl) ∧ ev = E_Leased w l (now + ttl).
Proof.
  unfold lease. destruct (job_state j) as [nb| | | | | | |]; try done.
  destruct (eligible_at nb now) eqn:He; [|done].
  destruct (TimeDelta_from_std ttl) as [δ|] eqn:Hd; [|done]. simpl.
  destruct (checked_add_signed now δ) as [t|] eqn:Ha; [|done]. simpl. intros [= <-].
  apply from_std_exact in Hd as ->. apply checked_add_exact in Ha as ->. eauto 10.
Qed.

Lemma start_ok j w ev :
  start j w = Ok ev → ∃ l t, job_state j = S_Leased w l t ∧ ev = E_Started w.
Proof. unfold start. destruct (job_state j); try done. case_bool_decide; naive_solver. Qed.

Lemma succeed_ok j l r ev :
  succeed j l r = Ok ev → ∃ w t, job_state j = S_Running w l t ∧ ev = E_Succeeded r.
Proof. unfold succeed. destruct (job_state j); try done. case_bool_decide; naive_solver. Qed.

Lemma cancel_ok j r ev :
  cancel j r = Ok ev → terminal (job_state j) = false ∧ ev = E_Cancelled r.
Proof. unfold cancel. destruct (job_state j); naive_solver. Qed.

(** The second event of a failed or expired attempt. *)
Lemma retry_decision_ok j n now seed ev :
  retry_decision_event j n now seed = Ok ev →
  (max_attempts (job_retry_policy j) ≤ n ∧ ev = E_Parked RetriesExhausted) ∨
  (n < max_attempts (job_retry_policy j) ∧ ∃ d,
     RetryPolicy_decide (job_retry_policy j) n seed = RetryAfter d ∧
     ev = E_RetryScheduled n (now + d)).
Proof.
  unfold retry_decision_event.
  destruct (Z.lt_ge_cases n (max_attempts (job_retry_policy j))).
  - rewrite decide_retry by done. simpl.
    match goal with |- context [TimeDelta_from_std ?d] => destruct (TimeDelta_from_std d) eqn:Hd end;
      [|done]. simpl.
    match goal with |- context [checked_add_signed ?t ?d] =>
      destruct (checked_add_signed t d) eqn:Ha end; [|done]. simpl. intros [= <-].
    apply from_std_exact in Hd as ->. apply checked_add_exact in Ha as ->. right. eauto.
  - rewrite decide_park by lia. intros [= <-]. left. auto with lia.
Qed.

Lemma fail_ok j l err now seed evs :
  fail j l err now seed = Ok evs →
  ∃ w t second, job_state j = S_Running w l t ∧
    evs = [E_Failed err (u32_add (job_attempt j) 1); second] ∧
    if retryable err
    then retry_decision_event j (u32_add (job_attempt j) 1) now seed = Ok second
    else second = E_Parked NonRetryableError.
Proof.
  unfold fail. destruct (job_state j); try done. case_bool_decide as Hl; [|done]. subst.
  intros (second & Hs & [= <-])%result_bind_ok. do 3 eexists. split_and!; [done..|].
  destruct (retryable err); naive_solver.
Qed.

Lemma expire_no_panic j now seed : expire_lease j now seed ≠ Panic.
Proof.
  unfold expire_lease, retry_decision_event. destruct (job_state j); try done;
    destruct (RetryPolicy_decide _ _ _) as [delay|]; simpl; try done;
    destruct (TimeDelta_from_std delay) as [δ|]; simpl; try done; by destruct (checked_add_signed now δ).
Qed.

Lemma expire_ok j now seed evs :
  expire_lease j now seed = Ok evs →
  ∃ w l t second, holds w l t (job_state j) ∧
    evs = [E_LeaseExpired l; second] ∧
    retry_decision_event j (u32_add (job_attempt j) 1) now seed = Ok second.
Proof.
  unfold expire_lease. destruct (job_state j); try done;
    intros (second & Hs & [= <-])%result_bind_ok; do 4 eexists;
    (split_and!; [constructor|done|done]).
Qed.
(** ** Lemmas: running a command *)

Lemma deliveries_app evs1 evs2 : deliveries (evs1 ++ evs2) = deliveries evs1 + deliveries evs2.
Proof. unfold deliveries. rewrite filter_app, length_app. lia. Qed.

Lemma apply_all_one ev j s' :
  step (job_state j) ev s' →
  apply_all [ev] j = Ok (Job_mk (job_id j) (job_queue j) (job_priority j) (payload_after j ev)
    (job_retry_policy j) (attempt_after j ev) s' (u64_add (job_version j) 1)).
Proof. intros Hs. simpl. by rewrite (apply_by_step _ _ _ Hs). Qed.

(** The retry decision of attempt [n] applies after the event that ended the
    attempt, and leaves the counter at [n]. *)
Lemma apply_decision ev second j n :
  step (job_state j) ev (S_Pending None) → attempt_after j ev = n →
  payload_after j ev = job_payload j →
  (second = E_Parked RetriesExhausted ∨ second = E_Parked NonRetryableError
   ∨ ∃ t, second = E_RetryScheduled n t) →
  apply_all [ev; second] j = Ok (Job_mk (job_id j) (job_queue j) (job_priority j) (job_payload j)
    (job_retry_policy j) n
    (match second with E_Parked r => S_Parked r | E_RetryScheduled _ t => S_Pending (Some t)
     | _ => S_Pending None end)
    (u64_add (u64_add (job_version j) 1) 1)).
Proof.
  intros Hs Hn Hp H2. simpl. rewrite (apply_by_step _ _ _ Hs). simpl. rewrite Hn, Hp.
  by destruct H2 as [->|[->|[t ->]]].
Qed.

(** What an accepted command does to the job. *)
Definition outcome (c : command) (evs : list JobEvent) j j' : Prop :=
  apply_all evs j = Ok j' ∧
  (if counts_attempt c then length evs = 2%nat ∧ deliveries evs = 0 ∧
     job_attempt j' = u32_add (job_attempt j) 1 ∧
     (∃ w l t, holds w l t (job_state j)) ∧
     ((∃ t, job_state j' = S_Pending (Some t)
        ∧ job_attempt j' < max_attempts (job_retry_policy j)) ∨
      (job_state j' = S_Parked RetriesExhausted
        ∧ max_attempts (job_retry_policy j) ≤ job_attempt j') ∨
      job_state j' = S_Parked NonRetryableError)
   else length evs = 1%nat ∧ job_attempt j' = job_attempt j ∧
     ∃ ev, evs = [ev] ∧ step (job_state j) ev (job_state j') ∧
       match c with
       | C_Lease w l now ttl => ev = E_Leased w l (now + ttl)
       | C_Start w => ev = E_Started w
       | C_Succeed _ r => ev = E_Succeeded r
       | C_Cancel r => ev = E_Cancelled r
       | C_LateAck w l o => ev = E_LateAckConflict w l o
       | _ => True
       end).

Lemma outcome_one c ev j s' :
  counts_attempt c = false → step (job_state j) ev s' → attempt_after j ev = job_attempt j →
  match c with
  | C_Lease w l now ttl => ev = E_Leased w l (now + ttl)
  | C_Start w => ev = E_Started w
  | C_Succeed _ r => ev = E_Succeeded r
  | C_Cancel r => ev = E_Cancelled r
  | C_LateAck w l o => ev = E_LateAckConflict w l o
  | _ => True
  end → ∃ j', outcome c [ev] j j'.
Proof.
  intros Hc Hs Ha Hev. eexists. split; [by apply apply_all_one|]. rewrite Hc. simpl. eauto 8.
Qed.

Lemma outcome_decision c ev second j now seed n w l t :
  counts_attempt c = true → n = u32_add (job_attempt j) 1 → holds w l t (job_state j) →
  step (job_state j) ev (S_Pending None) → attempt_after j ev = n →
  payload_after j ev = job_payload j → deliveries [ev; second] = 0 →
  (second = E_Parked NonRetryableError ∨ retry_decision_event j n now seed = Ok second) →
  ∃ j', outcome c [ev; second] j j'.
Proof.
  intros Hc Hn Hh Hs Ha Hp Hd H2.
  eexists. split.
  { apply (apply_decision ev second j n); [done..|].
    destruct H2 as [->|[[_ ->]|(_ & d & _ & ->)]%retry_decision_ok]; eauto. }
  rewrite Hc. simpl. split_and!; [done|done|done|by eauto|].
  destruct H2 as [->|[[? ->]|(? & d & _ & ->)]%retry_decision_ok]; eauto.
Qed.

(** Commands only emit applicable events. *)
Lemma exec_outcome c j evs : exec c j = Ok evs → ∃ j', outcome c evs j j'.
Proof.
  destruct c as [w l now ttl|w|l r|l err now seed|now seed|r|w l o]; simpl.
  - intros (ev & (nb & Hs & _ & _ & ->)%lease_ok & [= <-])%result_bind_ok.
    eapply outcome_one; [done|rewrite Hs; constructor|done..].
  - intros (ev & (l & t & Hs & ->)%start_ok & [= <-])%result_bind_ok.
    eapply outcome_one; [done|rewrite Hs; constructor|done..].
  - intros (ev & (w & t & Hs & ->)%succeed_ok & [= <-])%result_bind_ok.
    eapply outcome_one; [done|rewrite Hs; constructor|done..].
  - intros (w & t & second & Hs & -> & H2)%fail_ok.
    eapply (outcome_decision _ _ _ _ now seed); [done|done|rewrite Hs; constructor
      |rewrite Hs; constructor|done|done| |].
    + destruct (retryable err); [|by subst].
      by apply retry_decision_ok in H2 as [[_ ->]|(_ & d & _ & ->)].
    + destruct (retryable err); auto.
  - intros (w & l & t & second & Hh & -> & H2)%expire_ok.
    eapply (outcome_decision _ _ _ _ now seed); [done|done|exact Hh|by econstructor|done|done| |auto].
    by apply retry_decision_ok in H2 as [[_ ->]|(_ & d & _ & ->)].
  - intros (ev & (Hs & ->)%cancel_ok & [= <-])%result_bind_ok.
    eapply outcome_one; [done|by constructor|done..].
  - intros [= <-]. eapply outcome_one; [done|constructor|done..].
Qed.

Lemma attempts_allowed_u32 p : RetryPolicy_typed p → 1 ≤ attempts_allowed p ≤ U32_MAX.
Proof. unfold RetryPolicy_typed, attempts_allowed, U32_MAX. lia. Qed.

Lemma attempt_inv_step n c j evs j' :
  attempt_inv n j → exec c j = Ok evs → apply_all evs j = Ok j' →
  attempt_inv (n + deliveries evs) j'.
Proof.
  intros (Hp & H0 & Hinv) (j2 & Ha & Hout)%exec_outcome Ha'.
  assert (j2 = j') as -> by congruence. clear Ha'.
  pose proof (attempts_allowed_u32 _ Hp) as Hcap.
  destruct (apply_all_fixed _ _ _ Ha) as (_ & _ & _ & Hrp).
  unfold attempt_inv. rewrite Hrp. split; [done|].
  destruct (counts_attempt c) eqn:Hc.
  - destruct Hout as (_ & -> & Hat & (w & l & t & Hh) & Hst).
    assert (job_attempt j < attempts_allowed (job_retry_policy j) ∧ n = job_attempt j + 1)
      as [? ->] by (inversion Hh as [Hs|Hs]; by rewrite <-Hs in Hinv).
    rewrite Hat, u32_add_id in * by lia. split; [lia|].
    unfold attempts_allowed in *.
    destruct Hst as [(t' & -> & ?)|[[-> ?]| ->]]; lia.
  - destruct Hout as (_ & Hat & ev & -> & Hst & Hev). rewrite Hat. split; [done|].
    destruct c; try done; subst ev; unfold deliveries; inversion Hst; subst; simpl;
      repeat match goal with
      | H : S_Pending _ = job_state j |- _ => rewrite <-H in Hinv
      | H : S_Leased _ _ _ = job_state j |- _ => rewrite <-H in Hinv
      | H : S_Running _ _ _ = job_state j |- _ => rewrite <-H in Hinv
      | H : job_state j = job_state j' |- _ => rewrite <-H
      end; rewrite ?Z.add_0_r; try done; try lia.
    destruct (job_state j) as [| | | |[] | | |]; simpl in *; try done; lia.
Qed.

Lemma driven_attempt_inv hist j : driven hist j → attempt_inv (deliveries hist) j.
Proof.
  induction 1 as [i q p pr rp nb Hrp|hist j c evs j' _ IH Hc Ha].
  - unfold attempt_inv, deliveries; simpl. pose proof (attempts_allowed_u32 _ Hrp). auto with lia.
  - rewrite deliveries_app. by eapply attempt_inv_step.
Qed.

(** The decision on a retry goes through whenever the policy's longest delay
    can be added to the current time. *)
Lemma retry_decision_total j n now seed δ :
  RetryPolicy_typed (job_retry_policy j) → 1 ≤ n ≤ U32_MAX →
  TimeDelta_from_std (max_delay (job_retry_policy j)) = Some δ →
  is_Some (checked_add_signed now δ) →
  ∃ ev, retry_decision_event j n now seed = Ok ev.
Proof.
  intros Hp Hn Hδ Hadd. unfold retry_decision_event.
  destruct (RetryPolicy_decide _ n seed) as [d|] eqn:Hd; [|eauto].
  pose proof (decide_delay_range _ _ _ _ Hp Hn Hd) as [_ Hr].
  pose proof (backoff_millis_bounds _ _ Hp Hn) as (_ & Hm & _).
  pose proof (from_std_exact _ _ Hδ) as ->.
  destruct (from_std_downward (max_delay (job_retry_policy j)) d) as [d' Hd']; [lia|by eauto|].
  rewrite Hd'. simpl. apply from_std_exact in Hd' as ->.
  destruct (checked_add_downward now (max_delay (job_retry_policy j)) d) as [t ->]; [lia|done|].
  eauto.
Qed.

(** ** Theorems *)

(** C33: Whatever command is called on whatever job, if it returns events they
    all apply, in order: the version advances by their number, and a failure
    or an expiry counts exactly one attempt where the other commands count
    none. *)
Theorem commands_emit_applicable_events c j evs :
  exec c j = Ok evs →
  0 ≤ job_version j → job_version j + 2 ≤ U64_MAX → 0 ≤ job_attempt j < U32_MAX →
  ∃ j', apply_all evs j = Ok j' ∧
    job_version j' = job_version j + Z.of_nat (length evs) ∧
    job_attempt j' = job_attempt j + (if counts_attempt c then 1 else 0).
Proof.
  intros (j' & Ha & Hout)%exec_outcome ? ? ?. exists j'. split; [done|].
  destruct (counts_attempt c); destruct Hout as (Hl & Hout).
  - destruct Hout as (_ & -> & _). split; [apply apply_all_version; [done|lia|lia]|].
    apply u32_add_id; lia.
  - destruct Hout as (-> & _). split; [apply apply_all_version; [done|lia|lia]|lia].
Qed.

(** A driven job's attempt counter never passes the attempts its policy
    allows, the job has been leased at most that many times, and it is
    parked for exhaustion exactly at the limit: after [max_attempts] leases,
    not one earlier. *)
Theorem attempts_capped hist j :
  driven hist j →
  0 ≤ job_attempt j ≤ attempts_allowed (job_retry_policy j) ∧
  deliveries hist ≤ attempts_allowed (job_retry_policy j) ∧
  (job_state j = S_Parked RetriesExhausted →
   job_attempt j = attempts_allowed (job_retry_policy j) ∧ deliveries hist = job_attempt j).
Proof.
  intros (Hp & H0 & Hinv)%driven_attempt_inv.
  destruct (job_state j) as [| | | |[] | | |]; try done; split_and!; try done; lia.
Qed.

(** Acks are fenced by the lease: a success is accepted exactly from a
    running job under the presented lease, a failure only there, and a
    stale ack is rejected with [LeaseMismatch] (another lease runs the job)
    or [IllegalTransition] (nothing runs it). *)
Theorem acks_fenced_by_lease j l r err now seed :
  (is_ok (succeed j l r) = true ↔ ∃ w t, job_state j = S_Running w l t) ∧
  (is_ok (fail j l err now seed) = true → ∃ w t, job_state j = S_Running w l t) ∧
  (∀ w l' t, job_state j = S_Running w l' t → l' ≠ l →
     succeed j l r = Err LeaseMismatch ∧ fail j l err now seed = Err LeaseMismatch) ∧
  ((∀ w l' t, job_state j ≠ S_Running w l' t) →
     succeed j l r = Err (IllegalTransition (JobState_name (job_state j)) "succeeded") ∧
     fail j l err now seed = Err (IllegalTransition (JobState_name (job_state j)) "failed")).
Proof.
  split_and!.
  - rewrite is_ok_spec. split; [intros [ev (w & t & ? & _)%succeed_ok]; eauto|].
    intros (w & t & Hs). unfold succeed. rewrite Hs, bool_decide_true by done. eauto.
  - rewrite is_ok_spec. intros [evs (w & t & ? & ? & _)%fail_ok]. eauto.
  - intros w l' t Hs Hne. unfold succeed, fail. by rewrite Hs, !bool_decide_false.
  - intros Hs. unfold succeed, fail. destruct (job_state j); naive_solver.
Qed.

(** Every outcome of [lease]: not pending or not yet eligible is an
    [IllegalTransition]; an unrepresentable ttl is [InvalidTtl]; a deadline
    past the range of dates panics; otherwise the event carries the worker,
    the lease and the deadline [now + ttl]. *)
Theorem lease_outcomes j w l now ttl :
  match job_state j with
  | S_Pending nb =>
      if eligible_at nb now then
        match TimeDelta_from_std ttl with
        | None => lease j w l now ttl = Err InvalidTtl
        | Some δ =>
            match checked_add_signed now δ with
            | None => lease j w l now ttl = Panic
            | Some _ => lease j w l now ttl = Ok (E_Leased w l (now + ttl))
            end
        end
      else lease j w l now ttl = Err (IllegalTransition "pending" "leased")
  | s => lease j w l now ttl = Err (IllegalTransition (JobState_name s) "leased")
  end.
Proof.
  unfold lease. destruct (job_state j) as [nb| | | | | | |]; try done.
  destruct (eligible_at nb now); [|done].
  destruct (TimeDelta_from_std ttl) as [δ|] eqn:Hd; [|done]. simpl.
  destruct (checked_add_signed now δ) as [t|] eqn:Ha; [|done]. simpl.
  apply from_std_exact in Hd as ->. by apply checked_add_exact in Ha as ->.
Qed.
End commands.
