(* ===== verification/Ports.v ===== *)
(** * The driven ports and the lineage of envelopes
      ([koine-application/src/ports.rs], [lineage.rs])

    A port is a class over the state [W] its implementation lives in. The
    adapters are shared objects behind [Arc]s with interior mutability, and
    several ports may share one state (the in-memory dispatcher works on the
    event store it was given), so a call takes the whole state and returns
    the state it leaves. *)

From S2P Require Import Prelude Std Ids Retry Events Job Lifecycle.

Open Scope string_scope.
Open Scope list_scope.
Open Scope Z_scope.

(** ** ports.rs *)

Inductive EventStoreError : Type :=
| VersionConflict (stream : JobId) (expected : Z)
| StreamNotFound (stream : JobId)
| Store_Backend (msg : string).

Inductive DispatchError : Type :=
| Dispatch_Store (e : EventStoreError)
| Dispatch_Domain (e : DomainError)
| Dispatch_Backend (msg : string).

(** [Display], from the [error] attributes. *)
Definition EventStoreError_to_string `{ext : Externals} (e : EventStoreError) : string :=
  match e with
  | VersionConflict stream expected =>
      "version conflict on " +:+ Uuid_to_string (JobId_as_uuid stream) +:+ ": expected "
      +:+ pretty expected
  | StreamNotFound stream => "stream " +:+ Uuid_to_string (JobId_as_uuid stream) +:+ " not found"
  | Store_Backend msg => "backend: " +:+ msg
  end.

Definition DispatchError_to_string `{ext : Externals} (e : DispatchError) : string :=
  match e with
  | Dispatch_Store e => EventStoreError_to_string e
  | Dispatch_Domain e => DomainError_to_string e
  | Dispatch_Backend msg => "backend: " +:+ msg
  end.

Inductive SinkError : Type :=
| Sink_Failed (msg : string).

Inductive RelayError : Type :=
| Relay_Sink (e : SinkError)
| Relay_Backend (msg : string).

Definition SinkError_to_string (e : SinkError) : string :=
  match e with Sink_Failed msg => "sink: " +:+ msg end.

Definition RelayError_to_string (e : RelayError) : string :=
  match e with
  | Relay_Sink e => SinkError_to_string e
  | Relay_Backend msg => "backend: " +:+ msg
  end.

Record LeasedJob `{ext : Externals} : Type := LeasedJob_mk {
  leased_job_id : JobId;
  leased_queue : QueueName;
  leased_payload : Value;
  leased_attempt : Z;
  leased_lease : LeaseId;
  leased_expires_at : DateTime;
  leased_correlation_id : CorrelationId;
  leased_traceparent : option string;
}.

Class EventStore `{ext : Externals} (W : Type) : Type := {
  store_append : JobId → Z → list EventEnvelope → ST W EventStoreError unit;
  store_load : JobId → ST W EventStoreError (list EventEnvelope);
}.

Class Dispatcher `{ext : Externals} (W : Type) : Type := {
  lease_next : QueueName → WorkerId → Duration → ST W DispatchError (option LeasedJob);
  extend_lease : LeaseId → Duration → ST W DispatchError bool;
  retire_next_expired_lease : ST W DispatchError (option JobId);
}.

(** Two readings of a clock may differ, so a reading moves the state. *)
Class Clock (W : Type) : Type := {
  clock_now : W → DateTime * W;
}.

Class IdGenerator (W : Type) : Type := {
  gen_job_id : W → JobId * W;
  gen_event_id : W → EventId * W;
  gen_lease_id : W → LeaseId * W;
  gen_correlation_id : W → CorrelationId * W;
  jitter_seed : W → Z * W;
}.

Class WorkerPresence (W : Type) : Type := {
  presence_seen : WorkerId → option QueueName → W → W;
}.

Class EventSink `{ext : Externals} (S : Type) : Type := {
  sink_deliver : list EventEnvelope → ST S SinkError unit;
}.

(** ** lineage.rs *)

Record Lineage : Type := Lineage_mk {
  lineage_correlation_id : option CorrelationId;
  lineage_causation_id : option EventId;
  lineage_traceparent : option string;
}.

Definition Lineage_default : Lineage := Lineage_mk None None None.

Section lineage.
Context `{ext : Externals} {W : Type} `{!IdGenerator W, !Clock W}.

(** The closure of [wrap_events] run over the events: the version counter
    and the id source advance with each. *)
Fixpoint wrap_each (stream : JobId) (recorded : DateTime) (correlation : CorrelationId)
    (causation : option EventId) (trace : option string) (version : Z)
    (events : list JobEvent) (w : W) : list EventEnvelope * W :=
  match events with
  | [] => ([], w)
  | ev :: events =>
      let version := u64_add version 1 in
      let '(id, w) := gen_event_id w in
      let env :=
        {| event_id := id;
           stream_id := stream;
           envelope_version := version;
           recorded_at := recorded;
           correlation_id := correlation;
           causation_id := causation;
           traceparent := trace;
           schema_version := SCHEMA_VERSION;
           event := ev |} in
      let '(envs, w) := wrap_each stream recorded correlation causation trace version events w in
      (env :: envs, w)
  end.

Definition wrap_events (stream : JobId) (base_version : Z) (correlation : CorrelationId)
    (causation : option EventId) (trace : option string) (events : list JobEvent)
    (w : W) : list EventEnvelope * W :=
  let '(recorded, w) := clock_now w in
  wrap_each stream recorded correlation causation trace base_version events w.

End lineage.

Arguments wrap_events : simpl never.

Definition lineage_of `{ext : Externals} (stream : list EventEnvelope)
    : CorrelationId * option EventId * option string :=
  let correlation :=
    match head stream with
    | None => CorrelationId_new Uuid_nil
    | Some env => correlation_id env
    end in
  let causation := event_id <$> last stream in
  let trace := head stream ≫= traceparent in
  (correlation, causation, trace).

Arguments lineage_of : simpl never.

(** ** Lemmas *)

Section wrap_facts.
Context `{ext : Externals} {W : Type} `{!IdGenerator W, !Clock W}.

(** What every envelope of a batch carries. *)
Definition wrapped (stream : JobId) (correlation : CorrelationId) (causation : option EventId)
    (trace : option string) (env : EventEnvelope) : Prop :=
  stream_id env = stream ∧ correlation_id env = correlation ∧ causation_id env = causation ∧
  traceparent env = trace ∧ schema_version env = SCHEMA_VERSION.

Lemma wrap_each_spec stream recorded corr caus trace v evs w envs w' :
  wrap_each stream recorded corr caus trace v evs w = (envs, w') →
  event <$> envs = evs ∧ sequential v envs ∧ Forall (wrapped stream corr caus trace) envs.
Proof.
  revert v w envs w'. induction evs as [|ev evs IH]; intros v w envs w'; simpl.
  - intros [= <- <-]. by split_and!; [| |constructor].
  - destruct (gen_event_id w) as [id w1].
    destruct (wrap_each _ _ _ _ _ _ evs w1) as [envs1 w2] eqn:Hw.
    intros [= <- <-]. destruct (IH _ _ _ _ Hw) as (<- & ? & ?). simpl.
    split_and!; [done..|by constructor].
Qed.
End wrap_facts.
