(* ===== verification/UseCases.v ===== *)
(** * The application use cases ([koine-application/src/use_cases/])

    Thin orchestration over the ports: enqueue (with the policy's sanity
    bounds), the worker's acks, cancellation, lease, heartbeat and sweep.
    Each [execute] is one definition over any state that implements the ports
    it uses, with its calls in the order of the source. *)

From S2P Require Import Prelude Std Ids Retry Events Job Lifecycle Commands Ports.

Open Scope string_scope.
Open Scope list_scope.
Open Scope Z_scope.

(** ** enqueue.rs *)

Inductive EnqueueError : Type :=
| InvalidPolicy (reason : string)
| Enqueue_Store (e : EventStoreError).

Definition MAX_SANE_DELAY : Duration := Duration_from_secs (60 * 60 * 24 * 30).

Definition MAX_SANE_ATTEMPTS : Z := 10000.

Definition validate_policy (policy : RetryPolicy) : result unit EnqueueError :=
  if max_attempts policy =? 0 then Err (InvalidPolicy "max_attempts must be >= 1")
  else if MAX_SANE_ATTEMPTS <? max_attempts policy
  then Err (InvalidPolicy "max_attempts above sane ceiling")
  else if max_delay policy <? base_delay policy
  then Err (InvalidPolicy "base_delay exceeds max_delay")
  else if MAX_SANE_DELAY <? max_delay policy
  then Err (InvalidPolicy "max_delay above 30-day ceiling")
  else Ok tt.

Record EnqueueCommand `{ext : Externals} : Type := EnqueueCommand_mk {
  cmd_queue : QueueName;
  cmd_payload : Value;
  cmd_priority : Priority;
  cmd_retry_policy : RetryPolicy;
  cmd_not_before : option DateTime;
  cmd_lineage : Lineage;
}.

(** ** worker_ack.rs *)

Inductive AckError : Type :=
| Ack_Store (e : EventStoreError)
| Ack_Domain (e : DomainError).

Inductive AckOutcome : Type :=
| Recorded
| Conflict.

(** ** sweep.rs *)

Inductive SweepError : Type :=
| Sweep_Dispatch (e : DispatchError).

Section use_cases.
Context `{ext : Externals} {W : Type}.

(** [unwrap_or_else(|| ids.correlation_id())] *)
Definition correlation_or_fresh `{!IdGenerator W} (c : option CorrelationId)
    (w : W) : CorrelationId * W :=
  match c with
  | Some c => (c, w)
  | None => gen_correlation_id w
  end.

Definition EnqueueJob_execute `{!EventStore W, !IdGenerator W, !Clock W}
    (cmd : EnqueueCommand) : ST W EnqueueError JobId :=
  let! _ := st_lift (validate_policy (cmd_retry_policy cmd)) in
  let! job_id := st_total gen_job_id in
  let! correlation := st_total (correlation_or_fresh (lineage_correlation_id (cmd_lineage cmd))) in
  let ev := initial_event (cmd_queue cmd) (cmd_payload cmd) (cmd_priority cmd)
              (cmd_retry_policy cmd) (cmd_not_before cmd) in
  let! envelopes := st_total (wrap_events job_id 0 correlation
    (lineage_causation_id (cmd_lineage cmd)) (lineage_traceparent (cmd_lineage cmd)) [ev]) in
  let! _ := st_map_err Enqueue_Store (store_append job_id 0 envelopes) in
  st_ret job_id.

(** The private helpers of [WorkerAck]. *)
Definition WorkerAck_load `{!EventStore W} (id : JobId)
    : ST W AckError (Job * list EventEnvelope) :=
  let! stream := st_map_err Ack_Store (store_load id) in
  let! job := st_lift (map_err Ack_Domain (from_events stream)) in
  st_ret (job, stream).

Definition WorkerAck_append `{!EventStore W, !IdGenerator W, !Clock W}
    (job : Job) (stream : list EventEnvelope) (events : list JobEvent)
    : ST W EventStoreError unit :=
  let '(correlation, causation, trace) := lineage_of stream in
  let! envelopes := st_total (wrap_events (job_id job) (job_version job)
    correlation causation trace events) in
  store_append (job_id job) (job_version job) envelopes.

Definition record_conflict `{!EventStore W, !IdGenerator W, !Clock W}
    (job : Job) (stream : list EventEnvelope) (worker : WorkerId) (lease : LeaseId)
    (reported : ReportedOutcome) : ST W EventStoreError unit :=
  WorkerAck_append job stream [late_ack worker lease reported].

Definition WorkerAck_start `{!EventStore W, !IdGenerator W, !Clock W}
    (id : JobId) (worker : WorkerId) : ST W AckError unit :=
  let! (job, stream) := WorkerAck_load id in
  let! ev := st_lift (map_err Ack_Domain (start job worker)) in
  let! _ := st_map_err Ack_Store (WorkerAck_append job stream [ev]) in
  st_ret tt.

Definition WorkerAck_succeed `{!EventStore W, !IdGenerator W, !Clock W}
    (id : JobId) (worker : WorkerId) (lease : LeaseId) (res : option Value)
    : ST W AckError AckOutcome :=
  let! (job, stream) := WorkerAck_load id in
  match succeed job lease res with
  | Ok ev =>
      let! _ := st_map_err Ack_Store (WorkerAck_append job stream [ev]) in
      st_ret Recorded
  | Err _ =>
      let! _ := st_map_err Ack_Store
        (record_conflict job stream worker lease Reported_Succeeded) in
      st_ret Conflict
  | Panic => st_lift Panic
  end.

Definition WorkerAck_fail `{!EventStore W, !IdGenerator W, !Clock W}
    (id : JobId) (worker : WorkerId) (lease : LeaseId) (error : JobError)
    : ST W AckError AckOutcome :=
  let! (job, stream) := WorkerAck_load id in
  let! now := st_total clock_now in
  let! seed := st_total jitter_seed in
  match fail job lease error now seed with
  | Ok evs =>
      let! _ := st_map_err Ack_Store (WorkerAck_append job stream evs) in
      st_ret Recorded
  | Err _ =>
      let! _ := st_map_err Ack_Store
        (record_conflict job stream worker lease Reported_Failed) in
      st_ret Conflict
  | Panic => st_lift Panic
  end.

(** ** cancel.rs *)

Definition CancelJob_execute `{!EventStore W, !IdGenerator W, !Clock W}
    (id : JobId) (reason : option string) : ST W AckError unit :=
  let! stream := st_map_err Ack_Store (store_load id) in
  let! job := st_lift (map_err Ack_Domain (from_events stream)) in
  let! ev := st_lift (map_err Ack_Domain (cancel job reason)) in
  let '(correlation, causation, trace) := lineage_of stream in
  let! envelopes := st_total (wrap_events (job_id job) (job_version job)
    correlation causation trace [ev]) in
  let! _ := st_map_err Ack_Store (store_append (job_id job) (job_version job) envelopes) in
  st_ret tt.

(** ** heartbeat.rs, lease.rs *)

Definition Heartbeat_execute `{!Dispatcher W} (lease : LeaseId) (ttl : Duration)
    : ST W DispatchError bool :=
  extend_lease lease ttl.

Definition LeaseNextJob_execute `{!Dispatcher W} (queue : QueueName) (worker : WorkerId)
    (ttl : Duration) : ST W DispatchError (option LeasedJob) :=
  lease_next queue worker ttl.

(** The [while] loop of the sweep; the answer is [None] when the fuel ends
    before the loop does. *)
Fixpoint sweep_loop `{!Dispatcher W} (fuel : nat) (swept : Z) : ST W SweepError (option Z) :=
  match fuel with
  | O => st_ret None
  | S fuel =>
      let! retired := st_map_err Sweep_Dispatch retire_next_expired_lease in
      match retired with
      | Some _ => sweep_loop fuel (u32_add swept 1)
      | None => st_ret (Some swept)
      end
  end.

Definition SweepExpiredLeases_execute `{!Dispatcher W} (fuel : nat) : ST W SweepError (option Z) :=
  sweep_loop fuel 0.

End use_cases.
