(* ===== verification/Contract.v ===== *)
(** * The event-store contract and the use cases proved against it

    [EventStoreContract] states what the [EventStore] port promises
    (documentation of the trait in [koine-application/src/ports.rs]): a log
    of streams that all fold, [load] returns a stream, [append] accepts a
    batch exactly when it continues the stream and still folds, and a
    refused append changes no stream. A backend may keep less than it was
    given: record times at its own precision, opaque JSON values in its own
    normal form; and it may refuse a batch it cannot hold. The use cases of
    [UseCases] are specified and proved from the contract alone; each adapter
    discharges it. *)

From S2P Require Import Prelude Std Ids Retry Events Job Lifecycle Commands Ports UseCases.

Open Scope string_scope.
Open Scope list_scope.
Open Scope Z_scope.

Section acceptable.
Context `{ext : Externals}.

(** When a batch may extend a stream: optimistic concurrency, numbering,
    addressing, and domain legality of the whole. *)
Definition acceptable (old : list EventEnvelope) (id : JobId) (expected : Z)
    (envs : list EventEnvelope) : Prop :=
  Z.of_nat (length old) = expected ∧ sequential expected envs ∧
  Forall (λ env, stream_id env = id) envs ∧ ∃ j, from_events (old ++ envs) = Ok j.

(** A stream of a log: addressed to its id, within the version range, and
    folding. *)
Definition stream_ok (id : JobId) (s : list EventEnvelope) : Prop :=
  Z.of_nat (length s) ≤ U64_MAX ∧ Forall (λ env, stream_id env = id) s ∧
  ∃ j, from_events s = Ok j.

(** The same event up to its opaque JSON values. *)
Definition similar (a b : JobEvent) : Prop :=
  match a, b with
  | E_Enqueued q _ pr rp nb, E_Enqueued q' _ pr' rp' nb' => q = q' ∧ pr = pr' ∧ rp = rp' ∧ nb = nb'
  | E_Succeeded _, E_Succeeded _ => True
  | E_CheckpointRecorded k _, E_CheckpointRecorded k' _ => k = k'
  | E_SignalReceived n _, E_SignalReceived n' _ => n = n'
  | E_Repaired _ n, E_Repaired _ n' => n = n'
  | a, b => a = b
  end.

(** How an envelope may be kept. *)
Record kept_as (env env' : EventEnvelope) : Prop := {
  kept_event_id : event_id env' = event_id env;
  kept_stream_id : stream_id env' = stream_id env;
  kept_version : envelope_version env' = envelope_version env;
  kept_correlation : correlation_id env' = correlation_id env;
  kept_causation : causation_id env' = causation_id env;
  kept_traceparent : traceparent env' = traceparent env;
  kept_schema : schema_version env' = schema_version env;
  kept_event : similar (event env) (event env');
}.

(** Events with a field of JSON. *)
Definition carries_json (ev : JobEvent) : bool :=
  match ev with
  | E_Enqueued _ _ _ _ _ | E_Succeeded _ | E_CheckpointRecorded _ _ | E_SignalReceived _ _
  | E_Repaired _ _ => true
  | _ => false
  end.

Lemma similar_plain a b : carries_json a = false → similar a b → b = a.
Proof. by destruct a, b. Qed.

Lemma similar_all_plain evs evs' :
  Forall (λ ev, carries_json ev = false) evs → Forall2 similar evs evs' → evs' = evs.
Proof.
  intros Hp Hs. revert Hp. induction Hs as [|a b evs evs' Hab _ IH]; [done|].
  intros [Ha Hp]%Forall_cons. rewrite (IH Hp). f_equal. by apply similar_plain.
Qed.

Lemma retry_decision_plain j n now seed ev :
  retry_decision_event j n now seed = Ok ev → carries_json ev = false.
Proof. by intros [[_ ->]|(_ & d & _ & ->)]%retry_decision_ok. Qed.

(** The only JSON in the events of a command is the result of a success,
    which is the caller's: what is similar to a decision is a decision. *)
Lemma similar_exec c j evs evs' :
  exec c j = Ok evs → Forall2 similar evs evs' → ∃ c', exec c' j = Ok evs'.
Proof.
  intros Hx Hs. destruct c as [w l now ttl|w|l r|l err now seed|now seed|r|w l o].
  3: { simpl in Hx. apply result_bind_ok in Hx as (ev & Hx & [= <-]).
    apply succeed_ok in Hx as (w & t & Hst & ->).
    apply Forall2_cons_inv_l in Hs as (ev' & ? & He & ->%Forall2_nil_inv_l & ->).
    destruct ev' as [| | |r'| | | | | | | | | | | | | | |]; try done.
    exists (C_Succeed l r'). simpl. unfold succeed. rewrite Hst. by rewrite bool_decide_true. }
  all: eexists; rewrite (similar_all_plain evs evs'); [exact Hx| |exact Hs]; simpl in Hx.
  - apply result_bind_ok in Hx as (ev & (? & ? & ? & ? & ->)%lease_ok & [= <-]). by constructor.
  - apply result_bind_ok in Hx as (ev & (? & ? & ? & ->)%start_ok & [= <-]). by constructor.
  - apply fail_ok in Hx as (? & ? & second & _ & -> & H2). constructor; [done|].
    apply Forall_singleton. destruct (retryable err); [by eapply retry_decision_plain|by subst].
  - apply expire_ok in Hx as (? & ? & ? & second & _ & -> & H2). constructor; [done|].
    apply Forall_singleton. by eapply retry_decision_plain.
  - apply result_bind_ok in Hx as (ev & (? & ->)%cancel_ok & [= <-]). by constructor.
  - injection Hx as <-. by constructor.
Qed.

Lemma similar_refl ev : similar ev ev.
Proof. by destruct ev. Qed.
End acceptable.

(** Calls that move the id source or the clock and nothing else. *)
Definition keeps {W A : Type} (P : W → W → Prop) (m : W → A * W) : Prop :=
  ∀ w, P w (snd (m w)).

Class EventStoreContract `{ext : Externals} (W : Type)
    `{!EventStore W, !IdGenerator W, !Clock W} : Type := {
  healthy : W → Prop;
  log_of : W → gmap JobId (list EventEnvelope);
  (** The longest stream the backend can number. *)
  max_len : Z;
  (** The events the backend keeps as they are. *)
  storable : JobEvent → Prop;
  (** The trace contexts the backend can hold. *)
  traceable : option string → Prop;
  (** What the backend may count on for a batch that was wrapped here. *)
  prepared : W → list EventEnvelope → Prop;
  (** Only the clock and the id source moved. *)
  quiet : W → W → Prop;
  same_log (w w' : W) : Prop := (healthy w → healthy w') ∧ log_of w' = log_of w;
  quiet_same_log w w' : quiet w w' → same_log w w';
  max_len_u64 : max_len ≤ U64_MAX;
  log_streams_ok w id s : healthy w → log_of w !! id = Some s → stream_ok id s;
  log_traceable w id s :
    healthy w → log_of w !! id = Some s → Forall (λ env, traceable (traceparent env)) s;
  load_spec w id : healthy w → store_load id w = (ok_or (log_of w !! id) (StreamNotFound id), w);
  append_spec w id expected envs :
    healthy w → prepared w envs →
    Z.of_nat (length (default [] (log_of w !! id)) + length envs) ≤ max_len →
    ∃ r w', store_append id expected envs w = (r, w') ∧ healthy w' ∧
      ((acceptable (default [] (log_of w !! id)) id expected envs ∧ r = Ok tt ∧
        ∃ kept, Forall2 kept_as envs kept ∧
          (Forall storable (event <$> envs) → event <$> kept = event <$> envs) ∧
          log_of w' = <[id := default [] (log_of w !! id) ++ kept]> (log_of w)) ∨
       (log_of w' = log_of w ∧
        (acceptable (default [] (log_of w !! id)) id expected envs →
         Forall storable (event <$> envs) → Forall (λ env, traceable (traceparent env)) envs → False) ∧
        if decide (Z.of_nat (length (default [] (log_of w !! id))) = expected)
        then ∃ msg, r = Err (Store_Backend msg)
        else r = Err (VersionConflict id expected)));
  job_id_keeps : keeps same_log gen_job_id;
  event_id_keeps : keeps same_log gen_event_id;
  lease_id_keeps : keeps same_log gen_lease_id;
  correlation_id_keeps : keeps same_log gen_correlation_id;
  jitter_keeps : keeps same_log jitter_seed;
  clock_keeps : keeps same_log clock_now;
  wrap_prepared w id v corr caus trace evs envs w' :
    healthy w → wrap_events id v corr caus trace evs w = (envs, w') → prepared w' envs;
}.

Section clients.
Context `{ext : Externals} {W : Type} `{!EventStore W, !IdGenerator W, !Clock W}.
Context `{!EventStoreContract W}.
Implicit Types (w : W) (s : list EventEnvelope) (j : Job).

(** Enough room for [n] more events in the stream [s]. *)
Definition room (n : Z) s : Prop := Z.of_nat (length s) + n ≤ max_len.

(** How an append by the broker extends a log: one stream grows by the
    wrapped events, with the lineage of what was there, and still folds. *)
Definition extends (w w' : W) (id : JobId) s (evs : list JobEvent) j' : Prop :=
  ∃ envs, log_of w' = <[id := s ++ envs]> (log_of w) ∧ healthy w' ∧
    event <$> envs = evs ∧ from_events (s ++ envs) = Ok j' ∧
    (let '(corr, caus, trace) := lineage_of s in Forall (wrapped id corr caus trace) envs).

(** ** Lemmas *)

Lemma same_log_trans w1 w2 w3 : same_log w1 w2 → same_log w2 w3 → same_log w1 w3.
Proof. intros [? H1] [? H2]. split; [auto|by rewrite H2]. Qed.

Lemma wrap_each_keeps id t corr caus trace v evs w :
  same_log w (snd (wrap_each id t corr caus trace v evs w)).
Proof.
  revert v w. induction evs as [|ev evs IH]; intros v w; simpl; [done|].
  pose proof (event_id_keeps w) as H1. destruct (gen_event_id w) as [eid w1]. simpl in *.
  specialize (IH (u64_add v 1) w1). destruct (wrap_each _ _ _ _ _ _ evs w1) as [envs w2].
  by eapply same_log_trans.
Qed.

Lemma wrap_events_spec id v corr caus trace evs w envs w' :
  healthy w → wrap_events id v corr caus trace evs w = (envs, w') →
  healthy w' ∧ log_of w' = log_of w ∧ event <$> envs = evs ∧ sequential v envs ∧
  Forall (wrapped id corr caus trace) envs.
Proof.
  intros Hw. unfold wrap_events. pose proof (clock_keeps w) as Hc.
  destruct (clock_now w) as [t w1]. simpl in Hc. intros He.
  pose proof (wrap_each_keeps id t corr caus trace v evs w1) as Hk. rewrite He in Hk.
  destruct (same_log_trans _ _ _ Hc Hk) as [? ?].
  destruct (wrap_each_spec _ _ _ _ _ _ _ _ _ _ He) as (? & ? & ?). auto.
Qed.

Lemma stream_job_id id s j : stream_ok id s → from_events s = Ok j → job_id j = id.
Proof.
  intros (_ & Hs & _) (env & Hh & ->)%from_events_id.
  destruct s; simplify_eq/=. by apply Forall_cons in Hs as [? _].
Qed.

Lemma wrapped_stream_ids id corr caus trace (envs : list EventEnvelope) :
  Forall (wrapped id corr caus trace) envs → Forall (λ env, stream_id env = id) envs.
Proof. intros H. eapply Forall_impl; [exact H|]. by intros env (? & _). Qed.

(** Keeping a batch keeps its addressing and its lineage. *)
Lemma kept_wrapped id corr caus trace (envs kept : list EventEnvelope) :
  Forall2 kept_as envs kept → Forall (wrapped id corr caus trace) envs →
  Forall (wrapped id corr caus trace) kept.
Proof.
  induction 1 as [|env env' envs kept Hk _ IH]; [done|].
  intros [(? & ? & ? & ? & ?) ?]%Forall_cons. constructor; [|auto].
  destruct Hk. unfold wrapped. split_and!; congruence.
Qed.

(** An append, prepared on the stream it was decided on. *)
Lemma append_prepared w id s j evs envs w1 corr caus trace :
  healthy w → log_of w !! id = Some s → from_events s = Ok j →
  room (Z.of_nat (length evs)) s →
  wrap_events id (Z.of_nat (length s)) corr caus trace evs w = (envs, w1) →
  ∃ r w', store_append id (Z.of_nat (length s)) envs w1 = (r, w') ∧ healthy w' ∧
    ((r = Ok tt ∧ ∃ kept, log_of w' = <[id := s ++ kept]> (log_of w) ∧
        Forall2 similar evs (event <$> kept) ∧ (Forall storable evs → event <$> kept = evs) ∧
        Forall (wrapped id corr caus trace) kept) ∨
     ((∃ msg, r = Err (Store_Backend msg)) ∧ log_of w' = log_of w ∧
        (Forall storable evs → traceable trace → ∀ j', apply_all evs j ≠ Ok j'))).
Proof.
  intros Hw Hs Hj Hroom Hwrap.
  pose proof (log_streams_ok _ _ _ Hw Hs) as (Hlen & Hids & _).
  pose proof (from_events_version _ _ Hj Hlen) as Hv.
  pose proof (wrap_events_spec _ _ _ _ _ _ _ _ _ Hw Hwrap) as (Hw1 & Hlog & Hev & Hseq & Hwr).
  assert (length envs = length evs) as Hle by (by rewrite <-Hev, length_fmap).
  destruct (append_spec w1 id (Z.of_nat (length s)) envs Hw1 (wrap_prepared _ _ _ _ _ _ _ _ _ Hw Hwrap)) as (r & w2 & Happ & Hw2 & Hcase).
  { rewrite Hlog, Hs. simpl. unfold room in Hroom. lia. }
  exists r, w2. split; [done|]. split; [done|]. rewrite Hlog, Hs in Hcase. simpl in Hcase.
  destruct Hcase as [(_ & -> & kept & Hk & Hsame & Hl2)|(Hl2 & Hn & Hr)]; [left|right].
  - split; [done|]. exists kept. rewrite Hev in Hsame. split_and!; [done| |done|by eapply kept_wrapped].
    rewrite <-Hev. apply Forall2_fmap. eapply Forall2_impl; [exact Hk|]. by intros ?? [].
  - rewrite decide_True in Hr by done. split_and!; [done|done|]. intros Hst Htr j' Ha.
    apply Hn; [|by rewrite Hev|].
    2: { eapply Forall_impl; [exact Hwr|]. by intros env (_ & _ & _ & -> & _). }
    split_and!; [done|done|by eapply wrapped_stream_ids|]. exists j'.
    rewrite from_events_app by (by eapply from_events_nonempty). rewrite Hj. simpl.
    apply fold_rest_ok. by rewrite Hev, Hv.
Qed.

Lemma lineage_traceable w id s j corr_caus trace :
  healthy w → log_of w !! id = Some s → from_events s = Ok j → lineage_of s = (corr_caus, trace) →
  traceable trace.
Proof.
  intros Hw Hs Hj Hl. pose proof (log_traceable _ _ _ Hw Hs) as Ht. apply from_events_nonempty in Hj.
  destruct s as [|env s]; [done|]. apply Forall_cons in Ht as [Ht _]. unfold lineage_of in Hl.
  by injection Hl as _ <-.
Qed.

(** The append of the use cases, on a stream it has just loaded. *)
Lemma append_events_spec w id s j evs j' :
  healthy w → log_of w !! id = Some s → from_events s = Ok j →
  apply_all evs j = Ok j' → room (Z.of_nat (length evs)) s → Forall storable evs →
  ∃ w', WorkerAck_append j s evs w = (Ok tt, w') ∧ extends w w' id s evs j'.
Proof.
  intros Hw Hs Hj Ha Hroom Hst. pose proof (log_streams_ok _ _ _ Hw Hs) as Hok.
  pose proof Hok as (Hlen & _). pose proof (stream_job_id _ _ _ Hok Hj) as Hid.
  pose proof (from_events_version _ _ Hj Hlen) as Hv.
  unfold WorkerAck_append, extends. destruct (lineage_of s) as [[corr caus] trace] eqn:Hl.
  rewrite Hid, Hv.
  destruct (wrap_events id (Z.of_nat (length s)) corr caus trace evs w) as [envs w1] eqn:Hwrap.
  rewrite (st_bind_run _ _ _ _ _ (st_total_run _ _ _ _ Hwrap)).
  destruct (append_prepared _ _ _ _ _ _ _ _ _ _ Hw Hs Hj Hroom Hwrap)
    as (r & w' & Happ & Hw' & [(-> & kept & Hlog & _ & Hsame & Hwr)|(_ & _ & Hn)]);
    [|destruct (Hn Hst (lineage_traceable _ _ _ _ _ _ Hw Hs Hj Hl) j'); done].
  exists w'. split; [done|]. exists kept. specialize (Hsame Hst).
  split_and!; try done.
  rewrite from_events_app by (by eapply from_events_nonempty). rewrite Hj. simpl.
  pose proof (log_streams_ok w' id (s ++ kept) Hw') as (_ & _ & j2 & Hj2);
    [by rewrite Hlog, lookup_insert_eq|].
  rewrite from_events_app, Hj in Hj2 by (by eapply from_events_nonempty). simpl in Hj2.
  rewrite Hj2. apply fold_rest_ok in Hj2 as [_ Ha2]. rewrite Hsame in Ha2. congruence.
Qed.

Lemma load_fold_spec w id s j :
  healthy w → log_of w !! id = Some s → from_events s = Ok j →
  WorkerAck_load id w = (Ok (j, s), w).
Proof.
  intros Hw Hs Hj. unfold WorkerAck_load. st_unfold. rewrite load_spec, Hs by done.
  simpl. by rewrite Hj.
Qed.

Lemma load_missing w id :
  healthy w → log_of w !! id = None →
  WorkerAck_load id w = (Err (Ack_Store (StreamNotFound id)), w).
Proof. intros Hw Hs. unfold WorkerAck_load. st_unfold. by rewrite load_spec, Hs. Qed.
End clients.
