(* ===== verification/UseCaseFacts.v ===== *)
(** * Correctness of the use cases

    Proved for every event store that satisfies [EventStoreContract]: what
    enqueue accepts and records, that an ack is recorded exactly when its
    lease runs the job and otherwise kept as a conflict without touching the
    job's state, that refused commands change no stream, and that an append
    decided on a stale stream is refused. *)

From S2P Require Import Prelude Std Ids Retry Events Job Lifecycle Commands Ports UseCases Contract.

Open Scope string_scope.
Open Scope list_scope.
Open Scope Z_scope.

(** What [validate_policy] lets through. *)
Definition sane_policy (p : RetryPolicy) : Prop :=
  1 ≤ max_attempts p ≤ MAX_SANE_ATTEMPTS ∧ base_delay p ≤ max_delay p ≤ MAX_SANE_DELAY.

Lemma validate_policy_ok p :
  0 ≤ max_attempts p → validate_policy p = Ok tt ↔ sane_policy p.
Proof.
  intros ?. unfold validate_policy, sane_policy, MAX_SANE_ATTEMPTS.
  zb; split; intros; try done; lia.
Qed.

Lemma validate_policy_err p :
  0 ≤ max_attempts p → ¬ sane_policy p → ∃ reason, validate_policy p = Err (InvalidPolicy reason).
Proof.
  intros H0 Hn. rewrite <-validate_policy_ok in Hn by done.
  unfold validate_policy in *. repeat case_match; eauto. done.
Qed.

Section facts.
Context `{ext : Externals} {W : Type} `{!EventStore W, !IdGenerator W, !Clock W}.
Context `{!EventStoreContract W}.
Implicit Types (w : W) (s : list EventEnvelope) (j : Job).

(** The job runs under this very lease. *)
Definition runs_under (l : LeaseId) j : bool :=
  match job_state j with
  | S_Running _ l' _ => bool_decide (l' = l)
  | _ => false
  end.

Lemma runs_under_succeed j l r :
  if runs_under l j then succeed j l r = Ok (E_Succeeded r)
  else ∃ e, succeed j l r = Err e.
Proof. unfold runs_under, succeed. destruct (job_state j); eauto. case_bool_decide; eauto. Qed.

(** Recording a late ack. *)
Lemma conflict_spec w id s j worker l o :
  healthy w → log_of w !! id = Some s → from_events s = Ok j → room 1 s →
  storable (E_LateAckConflict worker l o) →
  ∃ w' j', record_conflict j s worker l o w = (Ok tt, w') ∧
    extends w w' id s [E_LateAckConflict worker l o] j' ∧
    job_state j' = job_state j ∧ job_attempt j' = job_attempt j.
Proof.
  intros Hw Hs Hj Hr Hst.
  pose proof (apply_all_one _ _ _ (step_late (job_state j) worker l o)) as Ha.
  destruct (append_events_spec w id s j _ _ Hw Hs Hj Ha Hr) as (w' & Happ & Hext).
  { by apply Forall_singleton. }
  eexists w', _. split; [exact Happ|]. split; [exact Hext|done].
Qed.

(** Bookkeeping of a stateful call that leaves the log alone. *)
Lemma kept {A} (m : W → A * W) w a w' :
  keeps same_log m → healthy w → m w = (a, w') → healthy w' ∧ log_of w' = log_of w.
Proof. intros Hk Hw He. specialize (Hk w). rewrite He in Hk. destruct Hk. auto. Qed.

Lemma extends_same_log w0 w w' id s evs j :
  log_of w = log_of w0 → extends w w' id s evs j → extends w0 w' id s evs j.
Proof. intros Hl (envs & Hlog & ?). exists envs. by rewrite Hlog, Hl. Qed.

(** [fail] on its branches: it never panics, it is accepted only under the
    running lease, and under it the only error is an unrepresentable time. *)
Lemma fail_cases j l err now seed :
  match fail j l err now seed with
  | Ok evs => runs_under l j = true ∧ head evs = Some (E_Failed err (u32_add (job_attempt j) 1))
  | Err e => runs_under l j = true → e = InvalidTtl
  | Panic => False
  end.
Proof.
  unfold fail, runs_under. destruct (job_state j); try done. case_bool_decide; [|done].
  destruct (retryable err); simpl; [|done].
  unfold retry_decision_event. destruct (RetryPolicy_decide _ _ _) as [d|]; simpl; [|done].
  destruct (TimeDelta_from_std d) as [δ|]; simpl; [|done].
  by destruct (checked_add_signed now δ).
Qed.

(** [CancelJob] repeats the steps of the ack helpers. *)
Lemma cancel_via_append id reason w :
  CancelJob_execute id reason w =
  (let! (job, stream) := WorkerAck_load id in
   let! ev := st_lift (map_err Ack_Domain (cancel job reason)) in
   let! _ := st_map_err Ack_Store (WorkerAck_append job stream [ev]) in
   st_ret tt) w.
Proof.
  unfold CancelJob_execute, WorkerAck_load, WorkerAck_append. st_unfold.
  destruct (store_load id w) as [[stream| |] w1]; simpl; try done.
  destruct (from_events stream) as [job| |]; simpl; try done.
  destruct (cancel job reason) as [ev| |]; simpl; try done.
  destruct (wrap_events _ _ _ _ _ _ w1) as [envs w2]. by destruct (store_append _ _ _ w2) as [[] ?].
Qed.

(** The event an enqueue records. *)
Definition enqueued_event (cmd : EnqueueCommand) : JobEvent :=
  initial_event (cmd_queue cmd) (cmd_payload cmd) (cmd_priority cmd)
    (cmd_retry_policy cmd) (cmd_not_before cmd).

(** What an enqueue with a sane policy is about to append. *)
Lemma enqueue_prepares cmd w :
  healthy w → validate_policy (cmd_retry_policy cmd) = Ok tt →
  let id := fst (gen_job_id w) in
  ∃ w3 env, EnqueueJob_execute cmd w
      = (let! _ := st_map_err Enqueue_Store (store_append id 0 [env]) in st_ret id) w3 ∧
    healthy w3 ∧ log_of w3 = log_of w ∧
    prepared w3 [env] ∧ traceparent env = lineage_traceparent (cmd_lineage cmd) ∧
    stream_id env = id ∧ envelope_version env = 1 ∧ event env = enqueued_event cmd ∧
    (∀ c, lineage_correlation_id (cmd_lineage cmd) = Some c → correlation_id env = c) ∧
    causation_id env = lineage_causation_id (cmd_lineage cmd).
Proof.
  intros Hw Hp id. subst id. unfold EnqueueJob_execute.
  unfold st_bind at 1, st_lift at 1. rewrite Hp.
  destruct (gen_job_id w) as [id w1] eqn:E1. simpl in *.
  rewrite (st_bind_run _ _ _ _ _ (st_total_run _ _ _ _ E1)).
  destruct (kept _ _ _ _ job_id_keeps Hw E1) as [Hw1 Hl1].
  destruct (correlation_or_fresh (lineage_correlation_id (cmd_lineage cmd)) w1) as [corr w2] eqn:E2.
  rewrite (st_bind_run _ _ _ _ _ (st_total_run _ _ _ _ E2)).
  assert (healthy w2 ∧ log_of w2 = log_of w1 ∧
    ∀ c, lineage_correlation_id (cmd_lineage cmd) = Some c → corr = c) as (Hw2 & Hl2 & Hc).
  { unfold correlation_or_fresh in E2. destruct (lineage_correlation_id _) as [c|].
    - naive_solver.
    - destruct (kept _ _ _ _ correlation_id_keeps Hw1 E2). naive_solver. }
  match goal with |- context [wrap_events ?a ?b ?c ?d ?e ?f] =>
    destruct (wrap_events a b c d e f w2) as [envs w3] eqn:E3 end.
  rewrite (st_bind_run _ _ _ _ _ (st_total_run _ _ _ _ E3)).
  destruct (wrap_events_spec _ _ _ _ _ _ _ _ _ Hw2 E3) as (Hw3 & Hl3 & Hev & Hseq & Hwr).
  destruct envs as [|env [|]]; try done. simpl in Hev. injection Hev as Hev.
  destruct Hseq as [Hv _]. apply Forall_cons in Hwr as [(Hid & Hcorr & Hcaus & Htr & _) _].
  exists w3, env. split_and!; [done|done|congruence|by eapply (wrap_prepared w2)|done..| |done].
  intros c Hc'. by rewrite Hcorr, (Hc _ Hc').
Qed.

(** A command emits at least one event and at most two. *)
Lemma exec_length c j evs : exec c j = Ok evs → (1 ≤ length evs ≤ 2)%nat.
Proof. intros (j' & _ & Ho)%exec_outcome. destruct (counts_attempt c); destruct Ho as [-> _]; lia. Qed.

(** A decision made on a stale stream cannot be recorded. *)
Lemma stale_append w id s j evs s_now :
  healthy w → stream_ok id s → from_events s = Ok j →
  log_of w !! id = Some s_now → length s_now ≠ length s →
  room (Z.of_nat (length evs)) s_now →
  ∃ w', WorkerAck_append j s evs w = (Err (VersionConflict id (Z.of_nat (length s))), w') ∧
    healthy w' ∧ log_of w' = log_of w.
Proof.
  intros Hw Hok Hj Hs Hne Hr. pose proof (stream_job_id _ _ _ Hok Hj) as Hid.
  pose proof Hok as (Hlen & _). pose proof (from_events_version _ _ Hj Hlen) as Hv.
  unfold WorkerAck_append. destruct (lineage_of s) as [[corr caus] trace].
  rewrite Hid, Hv.
  destruct (wrap_events id (Z.of_nat (length s)) corr caus trace evs w) as [envs w1] eqn:E.
  rewrite (st_bind_run _ _ _ _ _ (st_total_run _ _ _ _ E)).
  destruct (wrap_events_spec _ _ _ _ _ _ _ _ _ Hw E) as (Hw1 & Hl1 & Hev & _).
  destruct (append_spec w1 id (Z.of_nat (length s)) envs) as (r & w2 & Happ & Hw2 & Hcase);
    [done|by eapply (wrap_prepared w)| |].
  { rewrite Hl1, Hs. simpl. unfold room in Hr. rewrite <-Hev, length_fmap in Hr. lia. }
  rewrite Hl1, Hs in Hcase. simpl in Hcase. exists w2. rewrite Happ.
  destruct Hcase as [((? & _) & _)|(Hl2 & _ & Hr')]; [lia|].
  rewrite decide_False in Hr' by lia. by rewrite Hr'.
Qed.
(** A success report, on both branches. *)
Lemma ack_succeed_spec w id s j worker l res :
  healthy w → log_of w !! id = Some s → from_events s = Ok j → room 1 s →
  storable (E_Succeeded res) → storable (E_LateAckConflict worker l Reported_Succeeded) →
  ∃ w' j',
    (if runs_under l j
     then WorkerAck_succeed id worker l res w = (Ok Recorded, w') ∧
          extends w w' id s [E_Succeeded res] j' ∧ job_state j' = S_Succeeded
     else WorkerAck_succeed id worker l res w = (Ok Conflict, w') ∧
          extends w w' id s [E_LateAckConflict worker l Reported_Succeeded] j' ∧
          job_state j' = job_state j) ∧
    job_attempt j' = job_attempt j.
Proof.
  intros Hw Hs Hj Hr Hst1 Hst2. unfold WorkerAck_succeed.
  rewrite !(st_bind_run _ _ _ _ _ (load_fold_spec _ _ _ _ Hw Hs Hj)).
  pose proof (runs_under_succeed j l res) as Hu. destruct (runs_under l j).
  - rewrite Hu. apply succeed_ok in Hu as (w1 & t & Hst & _).
    pose proof (apply_all_one (E_Succeeded res) j S_Succeeded) as Ha.
    rewrite Hst in Ha. specialize (Ha (step_succeed _ _ _ _)).
    destruct (append_events_spec w id s j _ _ Hw Hs Hj Ha Hr) as (w' & Happ & Hext).
    { by apply Forall_singleton. }
    eexists w', _. rewrite (st_bind_run _ _ _ _ _ (st_map_err_run _ _ _ _ _ Happ)).
    split; [split_and!; [done|exact Hext|done]|done].
  - destruct Hu as [e Hu]. rewrite Hu.
    destruct (conflict_spec w id s j worker l Reported_Succeeded) as (w' & j' & Hc & Hext & ? & ?);
      [done..|].
    exists w', j'. by rewrite (st_bind_run _ _ _ _ _ (st_map_err_run _ _ _ _ _ Hc)).
Qed.

(** ** Theorems *)

(** An enqueue with a sane policy and a fresh id opens a stream with the one
    event the command asked for, at version 1, under the caller's correlation
    id if there is one, and returns the id; the stream folds to a pending
    job with no attempt counted. *)
Theorem enqueue_opens_stream cmd w :
  healthy w → 0 ≤ max_attempts (cmd_retry_policy cmd) → 1 ≤ max_len →
  sane_policy (cmd_retry_policy cmd) → log_of w !! fst (gen_job_id w) = None →
  storable (enqueued_event cmd) → traceable (lineage_traceparent (cmd_lineage cmd)) →
  let id := fst (gen_job_id w) in
  ∃ w' env, EnqueueJob_execute cmd w = (Ok id, w') ∧ healthy w' ∧
    log_of w' = <[id := [env]]> (log_of w) ∧ envelope_version env = 1 ∧ event env = enqueued_event cmd ∧
    (∀ c, lineage_correlation_id (cmd_lineage cmd) = Some c → correlation_id env = c) ∧
    causation_id env = lineage_causation_id (cmd_lineage cmd) ∧
    from_events [env] = Ok (Job_mk id (cmd_queue cmd) (cmd_priority cmd) (cmd_payload cmd)
      (cmd_retry_policy cmd) 0 (S_Pending (cmd_not_before cmd)) 1).
Proof.
  intros Hw H0 H1 Hp Hfresh Hst Htrc id.
  destruct (enqueue_prepares cmd w Hw) as (w3 & env & -> & Hw3 & Hl3 & Hprep & Htr & Hid & Hv & Hev & Hc & Hcaus).
  { by apply validate_policy_ok. }
  fold id in Hid, Hfresh |- *. clearbody id.
  destruct (append_spec w3 id 0 [env] Hw3 Hprep) as (r & w4 & Happ & Hw4 & Hcase).
  { rewrite Hl3, Hfresh. simpl. lia. }
  rewrite Hl3, Hfresh in Hcase. simpl in Hcase.
  assert (Hfold : ∀ env', envelope_version env' = 1 → stream_id env' = id →
    event env' = enqueued_event cmd → from_events [env'] = Ok (Job_mk id (cmd_queue cmd)
    (cmd_priority cmd) (cmd_payload cmd) (cmd_retry_policy cmd) 0 (S_Pending (cmd_not_before cmd)) 1)).
  { intros env' Hv' Hid' Hev'. simpl. by rewrite Hev', Hv', Hid'. }
  destruct Hcase as [(_ & -> & kept & Hk & Hsame & Hlog)|(_ & Hn & _)].
  - apply Forall2_cons_inv_l in Hk as (env' & nl & Hk & ->%Forall2_nil_inv_l & ->).
    assert (event env' = enqueued_event cmd) as Hev'.
    { rewrite <-Hev. simpl in Hsame. rewrite Forall_singleton, Hev in Hsame. rewrite Hev.
      by injection (Hsame Hst). }
    exists w4, env'. rewrite (st_bind_run _ _ _ _ _ (st_map_err_run _ _ _ _ _ Happ)).
    pose proof (kept_version _ _ Hk). pose proof (kept_stream_id _ _ Hk).
    pose proof (kept_causation _ _ Hk).
    split_and!; [done|done|done|congruence|done| |congruence|apply Hfold; congruence].
    intros c Hc'. rewrite (kept_correlation _ _ Hk). auto.
  - destruct Hn; [|by rewrite Forall_singleton, Hev|by rewrite Forall_singleton, Htr].
    split_and!; [done|by split|by apply Forall_singleton|by eauto].
Qed.

(** A policy outside the sanity bounds is refused before anything is drawn
    or written. *)
Theorem enqueue_refuses_bad_policy cmd w :
  0 ≤ max_attempts (cmd_retry_policy cmd) → ¬ sane_policy (cmd_retry_policy cmd) →
  ∃ reason, EnqueueJob_execute cmd w = (Err (InvalidPolicy reason), w).
Proof.
  intros H0 (reason & Hv)%validate_policy_err; [|done]. exists reason.
  unfold EnqueueJob_execute. unfold st_bind at 1, st_lift at 1. by rewrite Hv.
Qed.

(** C26: A success report is recorded as the worker meant it exactly when the job
    runs under the presented lease. Otherwise it is kept as a
    [late_ack_conflict] that changes neither state nor attempt count. Either
    way one event is appended to the job's stream, and to no other. *)
Theorem succeed_recorded_or_conflict w id s j worker l res :
  healthy w → log_of w !! id = Some s → from_events s = Ok j → room 1 s →
  storable (E_Succeeded res) → storable (E_LateAckConflict worker l Reported_Succeeded) →
  ∃ w' j',
    (if runs_under l j
     then WorkerAck_succeed id worker l res w = (Ok Recorded, w') ∧
          extends w w' id s [E_Succeeded res] j' ∧ job_state j' = S_Succeeded
     else WorkerAck_succeed id worker l res w = (Ok Conflict, w') ∧
          extends w w' id s [E_LateAckConflict worker l Reported_Succeeded] j' ∧
          job_state j' = job_state j) ∧
    job_attempt j' = job_attempt j.
Proof. apply ack_succeed_spec. Qed.

(** C27: A failure report: recorded as [failed] plus the retry decision, counting
    one attempt and sending the job back to pending with a retry time or to
    parked, or kept as a conflict that changes neither state nor count. A
    report under the running lease is a conflict only when the retry time
    cannot be represented as a date. *)
Theorem fail_recorded_or_conflict w id s j worker l err :
  healthy w → log_of w !! id = Some s → from_events s = Ok j → room 2 s →
  let now := fst (clock_now w) in
  let seed := fst (jitter_seed (snd (clock_now w))) in
  (∀ evs, fail j l err now seed = Ok evs → Forall storable evs) →
  storable (E_LateAckConflict worker l Reported_Failed) →
  ∃ out w' evs j', WorkerAck_fail id worker l err w = (Ok out, w') ∧
    extends w w' id s evs j' ∧
    match out with
    | Recorded =>
        runs_under l j = true ∧ head evs = Some (E_Failed err (u32_add (job_attempt j) 1)) ∧
        job_attempt j' = u32_add (job_attempt j) 1 ∧
        ((∃ t, job_state j' = S_Pending (Some t)) ∨ job_state j' = S_Parked RetriesExhausted ∨
         job_state j' = S_Parked NonRetryableError)
    | Conflict =>
        evs = [E_LateAckConflict worker l Reported_Failed] ∧ job_state j' = job_state j ∧
        job_attempt j' = job_attempt j ∧
        (runs_under l j = true → fail j l err now seed = Err InvalidTtl)
    end.
Proof.
  intros Hw Hs Hj Hr. unfold WorkerAck_fail. cbn zeta.
  rewrite !(st_bind_run _ _ _ _ _ (load_fold_spec _ _ _ _ Hw Hs Hj)).
  destruct (clock_now w) as [now w1] eqn:E1.
  destruct (kept _ _ _ _ clock_keeps Hw E1) as [Hw1 Hl1]. simpl.
  rewrite (st_bind_run _ _ _ _ _ (st_total_run _ _ _ _ E1)).
  destruct (jitter_seed w1) as [seed w2] eqn:E2.
  destruct (kept _ _ _ _ jitter_keeps Hw1 E2) as [Hw2 Hl2]. simpl.
  rewrite (st_bind_run _ _ _ _ _ (st_total_run _ _ _ _ E2)). intros Hst1 Hst2.
  assert (Hs2 : log_of w2 !! id = Some s) by (by rewrite Hl2, Hl1).
  assert (Hl : log_of w2 = log_of w) by (by rewrite Hl2, Hl1).
  pose proof (fail_cases j l err now seed) as Hf.
  destruct (fail j l err now seed) as [evs|e|] eqn:Ef; [| |done].
  - destruct (exec_outcome (C_Fail l err now seed) j evs Ef) as (j' & Ha & Hlen & _ & Hat & _ & Hst).
    destruct (append_events_spec w2 id s j evs j') as (w' & Happ & Hext);
      [done..|by rewrite Hlen|by apply Hst1|].
    exists Recorded, w', evs, j'.
    rewrite (st_bind_run _ _ _ _ _ (st_map_err_run _ _ _ _ _ Happ)).
    split_and!; [done|by eapply extends_same_log|apply Hf..|done|].
    destruct Hst as [(t & -> & _)|[[-> _]| ->]]; eauto.
  - destruct (conflict_spec w2 id s j worker l Reported_Failed) as (w' & j' & Hc & Hext & ? & ?);
      [done..|unfold room in *; lia|done|].
    eexists Conflict, w', _, j'. rewrite (st_bind_run _ _ _ _ _ (st_map_err_run _ _ _ _ _ Hc)).
    split_and!; [done|by eapply extends_same_log|done..|].
    intros Hu. by rewrite (Hf Hu).
Qed.

(** A start by the worker that holds the lease moves the job to running
    under that lease; by anyone else, or in another state, it is refused and
    nothing is written. *)
Theorem start_by_holder_only w id s j worker :
  healthy w → log_of w !! id = Some s → from_events s = Ok j → room 1 s →
  storable (E_Started worker) →
  match job_state j with
  | S_Leased holder l t =>
      if decide (holder = worker)
      then ∃ w' j', WorkerAck_start id worker w = (Ok tt, w') ∧
             extends w w' id s [E_Started worker] j' ∧ job_state j' = S_Running worker l t
      else WorkerAck_start id worker w = (Err (Ack_Domain LeaseMismatch), w)
  | st => WorkerAck_start id worker w
          = (Err (Ack_Domain (IllegalTransition (JobState_name st) "started")), w)
  end.
Proof.
  intros Hw Hs Hj Hr Hst. unfold WorkerAck_start.
  rewrite !(st_bind_run _ _ _ _ _ (load_fold_spec _ _ _ _ Hw Hs Hj)).
  pose proof (apply_all_one (E_Started worker) j) as Ha.
  unfold start. destruct (job_state j) as [|holder l t| | | | | |]; try done.
  destruct (decide (holder = worker)) as [->|Hne]; [|by rewrite bool_decide_false].
  rewrite bool_decide_true by done. specialize (Ha _ (step_start _ _ _ _)).
  destruct (append_events_spec w id s j _ _ Hw Hs Hj Ha Hr) as (w' & Happ & Hext).
  { by apply Forall_singleton. }
  eexists w', _. unfold st_bind at 1, st_lift. simpl.
  rewrite (st_bind_run _ _ _ _ _ (st_map_err_run _ _ _ _ _ Happ)).
  split_and!; [done|exact Hext|done].
Qed.

(** A cancellation goes through in every non-terminal state and is refused,
    with nothing written, in the terminal ones. *)
Theorem cancel_until_terminal w id s j reason :
  healthy w → log_of w !! id = Some s → from_events s = Ok j → room 1 s →
  storable (E_Cancelled reason) →
  if terminal (job_state j)
  then CancelJob_execute id reason w
       = (Err (Ack_Domain (IllegalTransition (JobState_name (job_state j)) "cancelled")), w)
  else ∃ w' j', CancelJob_execute id reason w = (Ok tt, w') ∧
         extends w w' id s [E_Cancelled reason] j' ∧ job_state j' = S_Cancelled.
Proof.
  intros Hw Hs Hj Hr Hst. rewrite cancel_via_append.
  destruct (terminal (job_state j)) eqn:Ht.
  - rewrite (st_bind_run _ _ _ _ _ (load_fold_spec _ _ _ _ Hw Hs Hj)).
    unfold cancel. by destruct (job_state j).
  - pose proof (apply_all_one _ _ _ (step_cancel _ reason Ht)) as Ha.
    destruct (append_events_spec w id s j _ _ Hw Hs Hj Ha Hr) as (w' & Happ & Hext).
    { by apply Forall_singleton. }
    eexists w', _. rewrite (st_bind_run _ _ _ _ _ (load_fold_spec _ _ _ _ Hw Hs Hj)).
    assert (cancel j reason = Ok (E_Cancelled reason)) as ->
      by (unfold cancel; by destruct (job_state j)).
    unfold st_bind at 1, st_lift. simpl.
    rewrite (st_bind_run _ _ _ _ _ (st_map_err_run _ _ _ _ _ Happ)).
    split_and!; [done|exact Hext|done].
Qed.

(** Of two decisions taken on the same state of a job at most one is
    recorded: after the first append the second is refused with
    [VersionConflict] and changes no stream, however the clock and the id
    source moved in between. *)
Theorem decisions_race w id s j c1 c2 evs1 evs2 :
  healthy w → log_of w !! id = Some s → from_events s = Ok j → room 4 s →
  exec c1 j = Ok evs1 → exec c2 j = Ok evs2 → Forall storable evs1 →
  ∃ w1, WorkerAck_append j s evs1 w = (Ok tt, w1) ∧
    ∀ w2, same_log w1 w2 → ∃ w3,
      WorkerAck_append j s evs2 w2 = (Err (VersionConflict id (Z.of_nat (length s))), w3) ∧
      healthy w3 ∧ log_of w3 = log_of w1.
Proof.
  intros Hw Hs Hj Hr E1 E2 Hst.
  destruct (exec_outcome _ _ _ E1) as (j1 & Ha1 & _).
  pose proof (exec_length _ _ _ E1) as Hl1. pose proof (exec_length _ _ _ E2) as Hl2.
  destruct (append_events_spec w id s j evs1 j1) as (w1 & Happ & envs & Hlog & Hw1 & Hev & _);
    [done..|unfold room in *; lia|done|].
  assert (length envs = length evs1) as Hle by (rewrite <-Hev; by rewrite length_fmap).
  exists w1. split; [done|]. intros w2 [Hh Hsame].
  destruct (stale_append w2 id s j evs2 (s ++ envs)) as (w3 & ? & ? & ?).
  { auto. } { exact (log_streams_ok _ _ _ Hw Hs). } { done. } { by rewrite Hsame, Hlog, lookup_insert_eq. }
  { rewrite length_app. lia. } { unfold room in *. rewrite length_app. lia. }
  exists w3. split_and!; [done..|congruence].
Qed.
End facts.
