(* ===== verification/System.v ===== *)
(** * The broker as a transition system

    Handlers run concurrently; what is atomic is one call of a port. A step
    of the system is one such call: an enqueue, a load that gives some
    handler a snapshot of a stream, an append of what a handler decided on a
    snapshot it took at any earlier time, a claim, a heartbeat, a retirement;
    between them the clock and the id source move freely. The invariant of
    the system is proved from the contracts of the event store and of the
    dispatcher, and with it the promises a client can rely on whatever the
    interleaving: streams are append-only, every stream was produced by the
    commands of [Job], a job is handed out at most as often as its policy
    allows, and a finished job stays finished. *)

From S2P Require Import Prelude Std Ids Retry Events Job Lifecycle Commands Ports UseCases Contract.
From S2P Require Import UseCaseFacts.

Open Scope string_scope.
Open Scope list_scope.
Open Scope Z_scope.

Section log_steps.
Context `{ext : Externals}.
Implicit Types (L : gmap JobId (list EventEnvelope)) (id : JobId) (s : list EventEnvelope).

(** A new stream: one event, which opens a job under a policy of the
    declared types. *)
Definition opening id (env : EventEnvelope) : Prop :=
  stream_id env = id ∧ envelope_version env = 1 ∧
  ∃ q p pr rp nb, event env = E_Enqueued q p pr rp nb ∧ RetryPolicy_typed rp.

(** What one port call may do to the log. *)
Inductive log_step L : gmap JobId (list EventEnvelope) → Prop :=
| log_same : log_step L L
| log_open id env : L !! id = None → opening id env → log_step L (<[id := [env]]> L)
| log_command id s j c evs envs j' :
    L !! id = Some s → from_events s = Ok j → exec c j = Ok evs → event <$> envs = evs →
    Forall (λ env, stream_id env = id) envs → from_events (s ++ envs) = Ok j' →
    log_step L (<[id := s ++ envs]> L).

(** A stream whose events after the first come from commands. *)
Definition driven_stream s : Prop :=
  ∃ env rest j, s = env :: rest ∧ from_events s = Ok j ∧ driven (event <$> rest) j.

End log_steps.

(** What the dispatcher promises about the log: a claim appends a lease, a
    retirement an expiry, both decided on the stream as it is; a heartbeat
    writes nothing; only a panic costs the store its health. *)
Class DispatcherContract `{ext : Externals} (W : Type)
    `{!EventStore W, !IdGenerator W, !Clock W, !Dispatcher W, !EventStoreContract W} : Prop := {
  lease_next_log w q wk ttl r w' :
    healthy w → (∀ id s, log_of w !! id = Some s → room 1 s) →
    lease_next q wk ttl w = (r, w') →
    log_step (log_of w) (log_of w') ∧ (r ≠ Panic → healthy w');
  extend_lease_log w l ttl r w' :
    healthy w → extend_lease l ttl w = (r, w') →
    log_of w' = log_of w ∧ (r ≠ Panic → healthy w');
  retire_log w r w' :
    healthy w → (∀ id s, log_of w !! id = Some s → room 2 s) →
    retire_next_expired_lease w = (r, w') →
    log_step (log_of w) (log_of w') ∧ (r ≠ Panic → healthy w');
}.

Section system.
Context `{ext : Externals} {W : Type} `{!EventStore W, !IdGenerator W, !Clock W, !Dispatcher W}.
Context `{!EventStoreContract W}.
Implicit Types (w : W) (id : JobId) (s : list EventEnvelope) (j : Job).

(** ** The system *)

(** The adapters' state, and the snapshots handlers hold. *)
Record Sys : Type := Sys_mk {
  sys_world : W;
  sys_snapshots : list (JobId * list EventEnvelope);
}.

Inductive sys_step : Sys → Sys → Prop :=
| sys_enqueue w sn cmd r w' :
    RetryPolicy_typed (cmd_retry_policy cmd) →
    EnqueueJob_execute cmd w = (r, w') → r ≠ Panic →
    sys_step (Sys_mk w sn) (Sys_mk w' sn)
| sys_load w sn id s w' :
    store_load id w = (Ok s, w') →
    sys_step (Sys_mk w sn) (Sys_mk w' ((id, s) :: sn))
| sys_record w sn id s j c evs r w' :
    (id, s) ∈ sn → from_events s = Ok j → exec c j = Ok evs →
    WorkerAck_append j s evs w = (r, w') → r ≠ Panic →
    sys_step (Sys_mk w sn) (Sys_mk w' sn)
| sys_lease w sn q wk ttl r w' :
    LeaseNextJob_execute q wk ttl w = (r, w') → r ≠ Panic →
    sys_step (Sys_mk w sn) (Sys_mk w' sn)
| sys_heartbeat w sn l ttl r w' :
    Heartbeat_execute l ttl w = (r, w') → r ≠ Panic →
    sys_step (Sys_mk w sn) (Sys_mk w' sn)
| sys_retire w sn r w' :
    retire_next_expired_lease w = (r, w') → r ≠ Panic →
    sys_step (Sys_mk w sn) (Sys_mk w' sn)
| sys_time w sn w' :
    quiet w w' →
    sys_step (Sys_mk w sn) (Sys_mk w' sn).

(** [n] steps. *)
Inductive runs : nat → Sys → Sys → Prop :=
| runs_nil σ : runs 0 σ σ
| runs_snoc n σ σ1 σ2 : runs n σ σ1 → sys_step σ1 σ2 → runs (S n) σ σ2.

(** ** The invariant *)

(** After [n] steps from an empty log. *)
Record sys_inv (n : Z) (σ : Sys) : Prop := {
  inv_healthy : healthy (sys_world σ);
  inv_driven : ∀ id s, log_of (sys_world σ) !! id = Some s → driven_stream s;
  inv_length : ∀ id s, log_of (sys_world σ) !! id = Some s → Z.of_nat (length s) ≤ 2 * n;
  inv_snapshots : ∀ id s, (id, s) ∈ sys_snapshots σ →
    ∃ cur, log_of (sys_world σ) !! id = Some cur ∧ s `prefix_of` cur;
}.

(** ** Lemmas *)

Lemma opening_fold id env :
  opening id env → ∃ q p pr rp nb, RetryPolicy_typed rp ∧
    from_events [env] = Ok (Job_mk id q pr p rp 0 (S_Pending nb) 1).
Proof.
  intros (<- & Hv & q & p & pr & rp & nb & He & Hrp). exists q, p, pr, rp, nb. split; [done|].
  simpl. by rewrite He, Hv.
Qed.

Lemma opening_driven id env : opening id env → driven_stream [env].
Proof.
  intros (q & p & pr & rp & nb & Hrp & Hf)%opening_fold. exists env, [].
  eexists. split_and!; [done|exact Hf|]. by constructor.
Qed.

Lemma command_driven s j c evs envs j' :
  driven_stream s → from_events s = Ok j → exec c j = Ok evs → event <$> envs = evs →
  from_events (s ++ envs) = Ok j' → driven_stream (s ++ envs).
Proof.
  intros (env & rest & j0 & -> & Hj0 & Hd) Hj Hc <- Hj'. assert (j0 = j) as -> by congruence.
  exists env, (rest ++ envs), j'. split_and!; [done|done|]. rewrite fmap_app.
  econstructor; [done..|]. rewrite from_events_app, Hj in Hj' by done. simpl in Hj'.
  by apply fold_rest_ok in Hj' as [_ ?].
Qed.

(** A step of the log keeps the invariant's clauses about the log, and only
    appends. *)
Lemma log_step_driven (L L' : gmap JobId (list EventEnvelope)) :
  log_step L L' → (∀ id s, L !! id = Some s → driven_stream s) →
  ∀ id s, L' !! id = Some s → driven_stream s.
Proof.
  intros Hs Hd id s. destruct Hs as [|id' env Hn Ho|id' s' j c evs envs j' Hl Hj Hc Hev _ Hj'];
    [by apply Hd| |]; intros [[<- <-]|[_ ?]]%lookup_insert_Some; eauto.
  - by eapply opening_driven.
  - eapply command_driven; eauto.
Qed.

Lemma log_step_grows (L L' : gmap JobId (list EventEnvelope)) id s :
  log_step L L' → L !! id = Some s →
  ∃ more, L' !! id = Some (s ++ more) ∧ (length more ≤ 2)%nat.
Proof.
  intros Hs Hl. assert (Hsame : ∃ more, Some s = Some (s ++ more) ∧ (length more ≤ 2)%nat).
  { exists []. rewrite app_nil_r. simpl. auto with lia. }
  destruct Hs as [|id' env Hn Ho|id' s' j c evs envs j' Hl' Hj Hc Hev _ Hj']; [by rewrite Hl| |].
  - by rewrite lookup_insert_ne, Hl by congruence.
  - destruct (decide (id' = id)) as [->|Hne]; [|by rewrite lookup_insert_ne, Hl].
    rewrite lookup_insert_eq. simplify_eq. exists envs. split; [done|].
    apply exec_length in Hc. rewrite length_fmap in Hc. lia.
Qed.

Lemma log_step_length (L L' : gmap JobId (list EventEnvelope)) n :
  log_step L L' → 0 ≤ n → (∀ id s, L !! id = Some s → Z.of_nat (length s) ≤ 2 * n) →
  ∀ id s, L' !! id = Some s → Z.of_nat (length s) ≤ 2 * (n + 1).
Proof.
  intros Hs Hn Hl id s. destruct Hs as [|id' env Hno Ho|id' s' j c evs envs j' Hl' Hj Hc Hev _ Hj'];
    [intros ?%Hl; lia| |]; intros [[<- <-]|[_ ?%Hl]]%lookup_insert_Some; try lia.
  - simpl. lia.
  - apply Hl in Hl'. apply exec_length in Hc. rewrite <-Hev, length_fmap in Hc.
    rewrite length_app. lia.
Qed.

Lemma kept_opening env env' cmd :
  kept_as env env' → envelope_version env = 1 → event env = enqueued_event cmd →
  RetryPolicy_typed (cmd_retry_policy cmd) → opening (stream_id env) env'.
Proof.
  intros [_ Hid Hv _ _ _ _ He] Hver Hev Hp. rewrite Hev in He. unfold opening.
  rewrite Hid, Hv. split_and!; [done..|]. unfold enqueued_event, initial_event in He.
  destruct (event env'); try done. destruct He as (<- & <- & <- & <-). by do 5 eexists.
Qed.

Lemma enqueue_log w cmd r w' :
  healthy w → RetryPolicy_typed (cmd_retry_policy cmd) →
  Z.of_nat (length (default [] (log_of w !! fst (gen_job_id w)))) + 1 ≤ max_len →
  EnqueueJob_execute cmd w = (r, w') →
  log_step (log_of w) (log_of w') ∧ healthy w' ∧ r ≠ Panic.
Proof.
  intros Hw Hp Hroom Hrun.
  destruct (validate_policy (cmd_retry_policy cmd)) as [[]|e|] eqn:Hv.
  - destruct (enqueue_prepares cmd w Hw Hv)
      as (w3 & env & Heq & Hw3 & Hl3 & Hprep & _ & Hid & Hver & Hev & _).
    rewrite Heq in Hrun. set (id := fst (gen_job_id w)) in *. clearbody id.
    destruct (append_spec w3 id 0 [env] Hw3 Hprep) as (r' & w4 & Happ & Hw4 & Hcase).
    { rewrite Hl3. simpl. lia. }
    unfold st_bind, st_map_err, st_ret in Hrun. rewrite Happ, <-?Hl3 in *.
    destruct Hcase as [((Hz & _) & -> & kept & Hk & _ & Hlog)|(Hlog & _ & Hr)].
    + simpl in Hrun. simplify_eq. rewrite Hlog. split; [|done].
      apply Forall2_cons_inv_l in Hk as (env' & ? & Hk & ->%Forall2_nil_inv_l & ->).
      destruct (log_of w3 !! stream_id env) as [[|env0 s0]|] eqn:Hs; simpl in *; [|lia|].
      * apply log_streams_ok in Hs as (_ & _ & j & Hj); done.
      * apply log_open; [done|]. by eapply kept_opening.
    + destruct r' as [[]| |]; simpl in Hrun; simplify_eq; rewrite Hlog.
      * case_decide; [by destruct Hr|done].
      * by split; [constructor|].
      * case_decide; [by destruct Hr|done].
  - unfold EnqueueJob_execute in Hrun. unfold st_bind at 1, st_lift at 1 in Hrun. rewrite Hv in Hrun.
    simplify_eq. by split; [constructor|].
  - exfalso. revert Hv. unfold validate_policy. by repeat case_match.
Qed.

(** A decision on a snapshot is recorded only if the snapshot is current. *)
Lemma record_log w id s cur j c evs r w' :
  healthy w → log_of w !! id = Some cur → s `prefix_of` cur → room 2 cur →
  from_events s = Ok j → exec c j = Ok evs → WorkerAck_append j s evs w = (r, w') →
  log_step (log_of w) (log_of w') ∧ healthy w' ∧ r ≠ Panic.
Proof.
  intros Hw Hcur [more ->] Hroom Hj Hc Hrun. pose proof (log_streams_ok _ _ _ Hw Hcur) as Hok.
  pose proof (exec_length _ _ _ Hc) as Hlen. destruct more as [|env more].
  - rewrite app_nil_r in *. revert Hrun. unfold WorkerAck_append.
    destruct (lineage_of s) as [[corr caus] trace]. pose proof (stream_job_id _ _ _ Hok Hj) as ->.
    rewrite (from_events_version _ _ Hj (proj1 Hok)).
    destruct (wrap_events id (Z.of_nat (length s)) corr caus trace evs w) as [envs w1] eqn:Hwrap.
    rewrite (st_bind_run _ _ _ _ _ (st_total_run _ _ _ _ Hwrap)). intros Hrun.
    assert (room (Z.of_nat (length evs)) s) as Hroom' by (unfold room in *; lia).
    destruct (append_prepared _ _ _ _ _ _ _ _ _ _ Hw Hcur Hj Hroom' Hwrap) as (r' & w2 & Happ & Hw2 & Hcase).
    rewrite Hrun in Happ. simplify_eq.
    destruct Hcase as [(-> & kept & Hlog & Hsim & _ & Hwr)|((msg & ->) & -> & _)];
      [|split; [constructor|done]].
    split; [|done]. destruct (similar_exec _ _ _ _ Hc Hsim) as [c' Hc'].
    assert (log_of w2 !! id = Some (s ++ kept)) as Hnow by (by rewrite Hlog, lookup_insert_eq).
    apply log_streams_ok in Hnow as (_ & _ & j' & Hj'); [|done]. rewrite Hlog.
    eapply log_command; [done..|by eapply wrapped_stream_ids|done].
  - destruct Hok as (Hle & Hids & _). rewrite length_app in Hle. simpl in Hle.
    apply Forall_app in Hids as [Hids _].
    destruct (stale_append w id s j evs (s ++ env :: more)) as (w2 & Happ & Hw2 & Hlog);
      [done|by split_and!; [lia| |eauto]|done|done| |unfold room in *; lia|].
    { rewrite length_app. simpl. lia. }
    rewrite Hrun in Happ. simplify_eq. rewrite Hlog. split; [constructor|done].
Qed.

Context `{!DispatcherContract W}.

Lemma sys_step_log n σ σ' :
  sys_inv n σ → 0 ≤ n → 2 * n + 2 ≤ max_len → sys_step σ σ' →
  log_step (log_of (sys_world σ)) (log_of (sys_world σ')) ∧ healthy (sys_world σ').
Proof.
  intros [Hw Hd Hl Hsn] Hn Hmax Hs.
  assert (Hroom : ∀ m id s, m ≤ 2 → log_of (sys_world σ) !! id = Some s → room m s).
  { intros m id s ? ?%Hl. unfold room. lia. }
  destruct Hs as [w sn cmd r w' Hp Hrun Hr|w sn id s w' Hrun|w sn id s j c evs r w' Hin Hj Hc Hrun Hr
    |w sn q wk ttl r w' Hrun Hr|w sn l ttl r w' Hrun Hr|w sn r w' Hrun Hr|w sn w' [Hh Hlog]%quiet_same_log]; simpl in *.
  - eapply enqueue_log in Hrun as (? & ? & _); [done..|].
    destruct (log_of w !! _) as [s|] eqn:Hs; simpl; [apply Hl in Hs; lia|lia].
  - rewrite load_spec in Hrun by done. simplify_eq. by split; [constructor|].
  - destruct (Hsn _ _ Hin) as (cur & Hcur & Hpre).
    eapply record_log in Hrun as (? & ? & _); [done..| |done|done]. by eapply Hroom.
  - destruct (lease_next_log w q wk ttl r w') as [? ?]; [done| |done|by auto].
    intros id s. by apply Hroom.
  - destruct (extend_lease_log w l ttl r w') as [Hlog ?]; [done..|]. rewrite Hlog.
    split; [constructor|auto].
  - destruct (retire_log w r w') as [? ?]; [done| |done|by auto]. intros id s. by apply Hroom.
  - rewrite Hlog. split; [constructor|auto].
Qed.

Lemma sys_step_snapshots σ σ' id s :
  healthy (sys_world σ) → sys_step σ σ' → (id, s) ∈ sys_snapshots σ' →
  (id, s) ∈ sys_snapshots σ ∨ log_of (sys_world σ) !! id = Some s.
Proof.
  intros Hw Hs. destruct Hs as [| ? ? id' s' w' Hrun | | | | |]; simpl in *; auto.
  rewrite load_spec in Hrun by done. intros [?|?]%elem_of_cons; [right|by left].
  destruct (log_of _ !! id') eqn:Hl; simplify_eq/=. done.
Qed.

Lemma sys_inv_step n σ σ' :
  sys_inv n σ → 0 ≤ n → 2 * n + 2 ≤ max_len → sys_step σ σ' → sys_inv (n + 1) σ'.
Proof.
  intros Hinv Hn Hmax Hs. pose proof (sys_step_log _ _ _ Hinv Hn Hmax Hs) as [Hlog Hw'].
  destruct Hinv as [Hw Hd Hl Hsn]. split; [done|..].
  - by eapply log_step_driven.
  - by eapply log_step_length.
  - intros id s [Hin|Hcur]%(sys_step_snapshots σ); [|..|done|done].
    + destruct (Hsn _ _ Hin) as (cur & Hcur & Hpre).
      destruct (log_step_grows _ _ _ _ Hlog Hcur) as (more & ? & _).
      exists (cur ++ more). split; [done|]. by apply prefix_app_r.
    + destruct (log_step_grows _ _ _ _ Hlog Hcur) as (more & ? & _).
      exists (s ++ more). split; [done|]. by apply prefix_app_r.
Qed.

(** From a log with no streams and no snapshots. *)
Definition initial (σ : Sys) : Prop :=
  healthy (sys_world σ) ∧ log_of (sys_world σ) = ∅ ∧ sys_snapshots σ = [].

Lemma initial_inv σ : initial σ → sys_inv 0 σ.
Proof.
  intros (Hw & Hl & Hsn). split; [done|..]; rewrite ?Hl, ?Hsn; intros id s H.
  - by apply lookup_empty_Some in H.
  - by apply lookup_empty_Some in H.
  - by apply elem_of_nil in H.
Qed.

Lemma runs_inv m n σ σ' :
  runs n σ σ' → sys_inv m σ → 0 ≤ m → 2 * (m + Z.of_nat n) ≤ max_len → sys_inv (m + Z.of_nat n) σ'.
Proof.
  induction 1 as [σ|n σ σ1 σ2 _ IH Hs]; intros Hinv Hm Hmax.
  - by rewrite Z.add_0_r.
  - replace (m + Z.of_nat (S n)) with ((m + Z.of_nat n) + 1) by lia.
    eapply sys_inv_step; [|lia| |done]; [apply IH; [done|done|lia]|lia].
Qed.

Lemma runs_append_only m n σ σ' id s :
  runs n σ σ' → sys_inv m σ → 0 ≤ m → 2 * (m + Z.of_nat n) ≤ max_len →
  log_of (sys_world σ) !! id = Some s → ∃ more, log_of (sys_world σ') !! id = Some (s ++ more).
Proof.
  induction 1 as [σ|n σ σ1 σ2 Hr IH Hs]; intros Hinv Hm Hmax Hl.
  - exists []. by rewrite app_nil_r.
  - destruct IH as (more & Hl1); [done|done|lia|done|].
    assert (sys_inv (m + Z.of_nat n) σ1) as Hinv1 by (apply (runs_inv _ _ _ _ Hr); [done|done|lia]).
    destruct (sys_step_log _ σ1 σ2 Hinv1) as [Hlog _]; [lia|lia|done|].
    destruct (log_step_grows _ _ _ _ Hlog Hl1) as (more' & Hl2 & _).
    exists (more ++ more'). by rewrite app_assoc.
Qed.

(** ** Theorems *)

(** C1: Whatever the interleaving, every stream of the log was written by the
    commands of [Job]: it folds, it was opened by an enqueue, and the job has
    been handed out at most as often as its retry policy allows; if it is
    parked for exhausted retries, exactly that often. *)
Theorem deliveries_bounded n σ σ' id s :
  initial σ → runs n σ σ' → 2 * Z.of_nat n ≤ max_len →
  log_of (sys_world σ') !! id = Some s →
  ∃ j, from_events s = Ok j ∧
    let allowed := attempts_allowed (job_retry_policy j) in
    deliveries (event <$> s) ≤ allowed ∧ 0 ≤ job_attempt j ≤ allowed ∧
    (job_state j = S_Parked RetriesExhausted → deliveries (event <$> s) = allowed).
Proof.
  intros Hi Hr Hmax Hs. pose proof (runs_inv 0 _ _ _ Hr (initial_inv _ Hi)) as Hinv.
  destruct (inv_driven _ _ (Hinv ltac:(lia) ltac:(lia)) _ _ Hs) as (env & rest & j & -> & Hj & Hd).
  exists j. split; [done|]. cbn zeta. rewrite fmap_cons.
  assert (deliveries (event env :: (event <$> rest)) = deliveries (event <$> rest)) as ->.
  { apply from_events_inv in Hj as (env' & rest' & q & p & pr & rp & nb & [= <- <-] & He & _).
    unfold deliveries. by rewrite He. }
  pose proof (driven_attempt_inv _ _ Hd) as (Hp & H0 & Ha).
  destruct (job_state j) as [| | | |[] | | |]; try done; split_and!; try done; lia.
Qed.

(** C5: A finished job stays finished: once its stream folds to a succeeded or
    cancelled job, every later state of the system has the same outcome, the
    same attempt count and the same payload, and what was appended since are
    late acks only. *)
Theorem finished_stays_finished n m σ0 σ σ' id s j :
  initial σ0 → runs n σ0 σ → runs m σ σ' → 2 * (Z.of_nat n + Z.of_nat m) ≤ max_len →
  log_of (sys_world σ) !! id = Some s → from_events s = Ok j → terminal (job_state j) = true →
  ∃ more j', log_of (sys_world σ') !! id = Some (s ++ more) ∧ from_events (s ++ more) = Ok j' ∧
    job_state j' = job_state j ∧ job_attempt j' = job_attempt j ∧ job_payload j' = job_payload j ∧
    Forall (λ env, kind (event env) = "late_ack_conflict") more.
Proof.
  intros Hi Hn Hm Hmax Hs Hj Ht.
  assert (sys_inv (Z.of_nat n) σ) as Hinv by (apply (runs_inv 0 _ _ _ Hn (initial_inv _ Hi)); lia).
  destruct (runs_append_only _ _ _ _ _ _ Hm Hinv ltac:(lia) ltac:(lia) Hs) as (more & Hs').
  pose proof (runs_inv _ _ _ _ Hm Hinv ltac:(lia) ltac:(lia)) as Hinv'.
  destruct (inv_driven _ _ Hinv' _ _ Hs') as (_ & _ & j' & _ & Hj' & _).
  exists more, j'. split_and!; [done|done|..];
    rewrite from_events_app, Hj in Hj' by (by eapply from_events_nonempty); simpl in Hj';
    apply fold_rest_ok in Hj' as [_ Ha];
    destruct (apply_all_terminal _ _ _ Ht Ha) as (? & ? & ? & Hall); try done.
  by rewrite Forall_fmap in Hall.
Qed.

(** C6: A decision taken on a snapshot that is no longer current is never
    recorded: the only streams the log can gain events in through a handler's
    append are those whose snapshot is the whole stream. *)
Theorem stale_snapshot_never_recorded n σ0 w sn id s cur j c evs r w' :
  initial σ0 → runs n σ0 (Sys_mk w sn) → 2 * Z.of_nat n + 2 ≤ max_len →
  (id, s) ∈ sn → log_of w !! id = Some cur → s ≠ cur →
  from_events s = Ok j → exec c j = Ok evs → WorkerAck_append j s evs w = (r, w') →
  r = Err (VersionConflict id (Z.of_nat (length s))) ∧ log_of w' = log_of w ∧ healthy w'.
Proof.
  intros Hi Hr Hmax Hin Hcur Hne Hj Hc Hrun.
  pose proof (runs_inv 0 _ _ _ Hr (initial_inv _ Hi) ltac:(lia) ltac:(lia)) as [Hw _ Hl Hsn].
  simpl in *. destruct (Hsn _ _ Hin) as (cur' & Hcur' & more & ->).
  rewrite Hcur in Hcur'. simplify_eq.
  pose proof (log_streams_ok _ _ _ Hw Hcur) as (Hle & Hids & _). rewrite length_app in Hle.
  apply Forall_app in Hids as [Hids _]. pose proof (exec_length _ _ _ Hc) as Hlen.
  apply Hl in Hcur as Hb. destruct more as [|env more]; [by rewrite app_nil_r in Hne|].
  destruct (stale_append w id s j evs (s ++ env :: more)) as (w2 & Happ & Hw2 & Hlog);
    [done|by split_and!; [lia| |eauto]|done|done| | |].
  { rewrite length_app. simpl. lia. }
  { unfold room. lia. }
  rewrite Hrun in Happ. simplify_eq. done.
Qed.
End system.
