(* ===== verification/MemStore.v ===== *)
(** * The in-memory event store ([koine-store-memory/src/store.rs])

    One mutex guards the streams, the dispatch index and the sequence
    counter; every operation of the store is a critical section. The mutex
    is poisoned by a panic inside a section, and a poisoned store answers
    every later call with a backend error. *)

From S2P Require Import Prelude Std Ids Retry Events Job Ports.

Open Scope string_scope.
Open Scope list_scope.
Open Scope Z_scope.

Record LeaseState : Type := LeaseState_mk {
  ls_lease : LeaseId;
  ls_worker : WorkerId;
  ls_expires_at : DateTime;
}.

Record DispatchEntry : Type := DispatchEntry_mk {
  entry_queue : QueueName;
  entry_priority : Priority;
  entry_seq : Z;
  entry_not_before : option DateTime;
  entry_lease : option LeaseState;
}.

Section store.
Context `{ext : Externals}.

Record Inner : Type := Inner_mk {
  streams : gmap JobId (list EventEnvelope);
  index : gmap JobId DispatchEntry;
  inner_seq : Z;
}.

(** [Inner::default()] *)
Definition Inner_default : Inner := Inner_mk ∅ ∅ 0.

Definition set_streams (m : gmap JobId (list EventEnvelope)) (i : Inner) : Inner :=
  Inner_mk m (index i) (inner_seq i).

Definition set_index (m : gmap JobId DispatchEntry) (i : Inner) : Inner :=
  Inner_mk (streams i) m (inner_seq i).

Definition set_inner_seq (n : Z) (i : Inner) : Inner :=
  Inner_mk (streams i) (index i) n.

(** The entry a folded job has in the index, [None] for no entry: the match
    of [project_locked]. *)
Definition projection (job : Job) (seq : Z) : option DispatchEntry :=
  match job_state job with
  | S_Pending not_before =>
      Some {| entry_queue := job_queue job;
              entry_priority := job_priority job;
              entry_seq := seq;
              entry_not_before := not_before;
              entry_lease := None |}
  | S_Leased worker lease expires_at | S_Running worker lease expires_at =>
      Some {| entry_queue := job_queue job;
              entry_priority := job_priority job;
              entry_seq := seq;
              entry_not_before := None;
              entry_lease := Some {| ls_lease := lease;
                                     ls_worker := worker;
                                     ls_expires_at := expires_at |} |}
  | S_Succeeded | S_Parked _ | S_Cancelled | S_Suspended | S_AwaitingApproval _ => None
  end.

(** A job without an entry takes the next sequence number (also when it gets
    no entry), an indexed one keeps its own. *)
Definition project_locked (job : Job) (inner : Inner) : Inner :=
  let '(seq, inner) :=
    match index inner !! job_id job with
    | None =>
        let n := u64_add (inner_seq inner) 1 in (n, set_inner_seq n inner)
    | Some entry => (entry_seq entry, inner)
    end in
  match projection job seq with
  | Some entry => set_index (<[job_id job := entry]> (index inner)) inner
  | None => set_index (delete (job_id job) (index inner)) inner
  end.

(** The validation loop of [append_locked] over the batch. *)
Fixpoint batch_well_formed (stream : JobId) (next : Z) (envelopes : list EventEnvelope) : bool :=
  match envelopes with
  | [] => true
  | envelope :: envelopes =>
      let next := u64_add next 1 in
      if negb (envelope_version envelope =? next) || negb (bool_decide (stream_id envelope = stream))
      then false
      else batch_well_formed stream next envelopes
  end.

Definition append_locked (stream : JobId) (expected_version : Z)
    (envelopes : list EventEnvelope) : ST Inner EventStoreError unit :=
  let! inner := st_get in
  let len := Z.of_nat (from_option length 0%nat (streams inner !! stream)) in
  let! current := st_lift
    (if len <=? U64_MAX then Ok len else Err (Store_Backend "stream too long")) in
  if negb (current =? expected_version)
  then st_err (VersionConflict stream expected_version)
  else if negb (batch_well_formed stream current envelopes)
  then st_err (Store_Backend
    ("malformed envelope batch for " +:+ Uuid_to_string (JobId_as_uuid stream)))
  else
    let combined := default [] (streams inner !! stream) ++ envelopes in
    let! folded := st_lift (map_err
      (λ e, Store_Backend ("batch does not fold: " +:+ DomainError_to_string e))
      (from_events combined)) in
    let! _ := st_modify (λ i, set_streams (<[stream := combined]> (streams i)) i) in
    st_modify (project_locked folded).

(** ** The store behind its mutex, beside the id source and the clock *)

Record InMemoryEventStore : Type := InMemoryEventStore_mk {
  inner : Inner;
  poisoned : bool;
}.

Definition InMemoryEventStore_new : InMemoryEventStore :=
  InMemoryEventStore_mk Inner_default false.

End store.

Section world.
Context `{ext : Externals} {G C : Type}.

(** What the adapters of one process share through their [Arc]s. *)
Record MemWorld : Type := MemWorld_mk {
  mem_store : InMemoryEventStore;
  mem_ids : G;
  mem_clock : C;
}.

Definition mem_inner (w : MemWorld) : Inner := inner (mem_store w).

Definition set_mem_inner (i : Inner) (w : MemWorld) : MemWorld :=
  MemWorld_mk (InMemoryEventStore_mk i (poisoned (mem_store w))) (mem_ids w) (mem_clock w).

Definition poison (w : MemWorld) : MemWorld :=
  MemWorld_mk (InMemoryEventStore_mk (mem_inner w) true) (mem_ids w) (mem_clock w).

Definition set_mem_ids (g : G) (w : MemWorld) : MemWorld :=
  MemWorld_mk (mem_store w) g (mem_clock w).

Definition set_mem_clock (c : C) (w : MemWorld) : MemWorld :=
  MemWorld_mk (mem_store w) (mem_ids w) c.

(** Critical sections. *)
Definition locked {T : Type} (f : ST MemWorld EventStoreError T) : ST MemWorld EventStoreError T :=
  λ w,
    if poisoned (mem_store w) then (Err (Store_Backend "store mutex poisoned"), w)
    else
      match f w with
      | (Panic, w') => (Panic, poison w')
      | r => r
      end.

(** Work on the guarded state inside a section. *)
Definition on_inner {T : Type} (f : ST Inner EventStoreError T) : ST MemWorld EventStoreError T :=
  st_zoom mem_inner set_mem_inner f.

Definition InMemory_append (stream : JobId) (expected_version : Z)
    (envelopes : list EventEnvelope) : ST MemWorld EventStoreError unit :=
  locked (on_inner (append_locked stream expected_version envelopes)).

Definition InMemory_load (stream : JobId) : ST MemWorld EventStoreError (list EventEnvelope) :=
  locked (on_inner (
    let! inner := st_get in
    st_lift (ok_or (streams inner !! stream) (StreamNotFound stream)))).

#[export] Instance InMemory_EventStore : EventStore MemWorld := {|
  store_append := InMemory_append;
  store_load := InMemory_load;
|}.

(** The id source and the clock of the process. *)
#[export] Instance MemWorld_Clock `{!Clock C} : Clock MemWorld := {|
  clock_now w := let '(t, c) := clock_now (mem_clock w) in (t, set_mem_clock c w);
|}.

#[export] Instance MemWorld_IdGenerator `{!IdGenerator G} : IdGenerator MemWorld := {|
  gen_job_id w := let '(x, g) := gen_job_id (mem_ids w) in (x, set_mem_ids g w);
  gen_event_id w := let '(x, g) := gen_event_id (mem_ids w) in (x, set_mem_ids g w);
  gen_lease_id w := let '(x, g) := gen_lease_id (mem_ids w) in (x, set_mem_ids g w);
  gen_correlation_id w := let '(x, g) := gen_correlation_id (mem_ids w) in (x, set_mem_ids g w);
  jitter_seed w := let '(x, g) := jitter_seed (mem_ids w) in (x, set_mem_ids g w);
|}.

End world.

Arguments MemWorld {_} G C.
