(* ===== verification/MemDispatcher.v ===== *)
(** * The in-memory dispatcher ([koine-store-memory/src/dispatcher.rs],
      [test_support.rs])

    Claim, heartbeat and retirement as critical sections of the store's
    mutex, and the deterministic clock and id source of the crate. *)

From S2P Require Import Prelude Std Ids Retry Events Job Ports MemStore.

Open Scope string_scope.
Open Scope list_scope.
Open Scope Z_scope.

(** ** Selection *)

(** The order of the keys [(priority, Reverse(seq))]. *)
Definition claim_key_leb (a b : JobId * DispatchEntry) : bool :=
  let pa := priority_value (entry_priority a.2) in
  let pb := priority_value (entry_priority b.2) in
  (pa <? pb) || ((pa =? pb) && (entry_seq b.2 <=? entry_seq a.2)).

(** The filter closure of [pick_eligible]. *)
Definition claimable (queue : QueueName) (now : DateTime) (e : DispatchEntry) : bool :=
  bool_decide (entry_queue e = queue)
  && (match entry_lease e with None => true | Some _ => false end)
  && eligible_at (entry_not_before e) now.

(** The filter closure of [retire_one]. *)
Definition expired (now : DateTime) (e : DispatchEntry) : bool :=
  match entry_lease e with
  | None => false
  | Some ls => ls_expires_at ls <=? now
  end.

(** Selection over the entries in the order the map yields them. *)
Definition pick_from (queue : QueueName) (now : DateTime)
    (entries : list (JobId * DispatchEntry)) : option JobId :=
  fst <$> max_by claim_key_leb (base.filter (λ x, claimable queue now x.2 = true) entries).

Definition retire_from (now : DateTime) (entries : list (JobId * DispatchEntry)) : option JobId :=
  min_by JobId_leb (base.filter (λ x, expired now x.2 = true) entries).*1.

(** The loop of [extend_lease] over the entries: the answer and, when the
    deadline moves, the job whose entry it moves in. *)
Fixpoint extend_from (now : DateTime) (lease : LeaseId)
    (entries : list (JobId * DispatchEntry)) : bool * option JobId :=
  match entries with
  | [] => (false, None)
  | (id, e) :: entries =>
      match entry_lease e with
      | Some ls =>
          if bool_decide (ls_lease ls = lease) then
            if ls_expires_at ls <=? now then (false, None) else (true, Some id)
          else extend_from now lease entries
      | None => extend_from now lease entries
      end
  end.

(** [state.expires_at = deadline] *)
Definition set_deadline (deadline : DateTime) (e : DispatchEntry) : DispatchEntry :=
  DispatchEntry_mk (entry_queue e) (entry_priority e) (entry_seq e) (entry_not_before e)
    ((λ ls, LeaseState_mk (ls_lease ls) (ls_worker ls) deadline) <$> entry_lease e).

Section dispatcher.
Context `{ext : Externals} {G C : Type} `{!IdGenerator G, !Clock C}.
Local Abbreviation World := (MemWorld G C).

Definition pick_eligible (inner : Inner) (queue : QueueName) (now : DateTime) : option JobId :=
  pick_from queue now (map_to_list (index inner)).

(** [match &envelopes[0].event { Leased { expires_at, .. } => .. }] *)
Definition leased_deadline (envelopes : list EventEnvelope) : result DateTime EventStoreError :=
  match envelopes with
  | [] => Panic
  | env :: _ =>
      match event env with
      | E_Leased _ _ expires_at => Ok expires_at
      | _ => Err (Store_Backend "lease produced non-lease")
      end
  end.

(** The closure [claim] runs under the lock. *)
Definition claim_locked (queue : QueueName) (worker : WorkerId) (ttl : Duration) (now : DateTime)
    : ST World EventStoreError (option LeasedJob) :=
  let! w := st_get in
  match pick_eligible (mem_inner w) queue now with
  | None => st_ret None
  | Some id =>
      let! stream := st_lift (ok_or (streams (mem_inner w) !! id) (StreamNotFound id)) in
      let! job := st_lift (map_err
        (λ e, Store_Backend ("fold: " +:+ DomainError_to_string e)) (from_events stream)) in
      let! lease_id := st_total gen_lease_id in
      let! ev := st_lift (map_err
        (λ e, Store_Backend ("index/state drift: " +:+ DomainError_to_string e))
        (lease job worker lease_id now ttl)) in
      let '(correlation, causation, trace) := lineage_of stream in
      let! envelopes := st_total (wrap_events id (job_version job)
        correlation causation trace [ev]) in
      let! expires_at := st_lift (leased_deadline envelopes) in
      let! _ := on_inner (append_locked id (job_version job) envelopes) in
      st_ret (Some
        {| leased_job_id := id;
           leased_queue := job_queue job;
           leased_payload := job_payload job;
           leased_attempt := job_attempt job;
           leased_lease := lease_id;
           leased_expires_at := expires_at;
           leased_correlation_id := correlation;
           leased_traceparent := trace |})
  end.

Definition claim (queue : QueueName) (worker : WorkerId) (ttl : Duration)
    : ST World DispatchError (option LeasedJob) :=
  let! now := st_total clock_now in
  st_map_err Dispatch_Store (locked (claim_locked queue worker ttl now)).

(** The closure of [retire_one]: a domain error is a value of the section,
    a store error leaves it. *)
Definition retire_locked : ST World EventStoreError (result (option JobId) DomainError) :=
  let! now := st_total clock_now in
  let! w := st_get in
  match retire_from now (map_to_list (index (mem_inner w))) with
  | None => st_ret (Ok None)
  | Some id =>
      let! stream := st_lift (ok_or (streams (mem_inner w) !! id) (StreamNotFound id)) in
      match from_events stream with
      | Err error => st_ret (Err error)
      | Panic => st_lift Panic
      | Ok job =>
          let! seed := st_total jitter_seed in
          match expire_lease job now seed with
          | Err error => st_ret (Err error)
          | Panic => st_lift Panic
          | Ok events =>
              let '(correlation, causation, trace) := lineage_of stream in
              let! envelopes := st_total (wrap_events id (job_version job)
                correlation causation trace events) in
              let! _ := on_inner (append_locked id (job_version job) envelopes) in
              st_ret (Ok (Some id))
          end
      end
  end.

Definition retire_one : ST World DispatchError (option JobId) :=
  let! res := st_map_err Dispatch_Store (locked retire_locked) in
  st_lift (map_err Dispatch_Domain res).

(** The closure of [extend_lease]. *)
Definition extend_locked (lease : LeaseId) (ttl : Duration)
    : ST World EventStoreError (result bool DispatchError) :=
  let! now := st_total clock_now in
  match TimeDelta_from_std ttl with
  | None => st_ret (Err (Dispatch_Backend "ttl out of range"))
  | Some delta =>
      let! deadline := st_lift (or_panic (checked_add_signed now delta)) in
      let! w := st_get in
      let '(answer, moved) := extend_from now lease (map_to_list (index (mem_inner w))) in
      let! _ :=
        match moved with
        | Some id => st_modify (λ w,
            set_mem_inner (set_index (alter (set_deadline deadline) id (index (mem_inner w)))
              (mem_inner w)) w)
        | None => st_ret tt
        end in
      st_ret (Ok answer)
  end.

Definition mem_extend_lease (lease : LeaseId) (ttl : Duration) : ST World DispatchError bool :=
  let! res := st_map_err Dispatch_Store (locked (extend_locked lease ttl)) in
  st_lift res.

#[export] Instance InMemory_Dispatcher : Dispatcher World := {|
  lease_next := claim;
  extend_lease := mem_extend_lease;
  retire_next_expired_lease := retire_one;
|}.

End dispatcher.

(** [NoopPresence] (signal.rs): sightings are not recorded. *)
#[export] Instance NoopPresence `{ext : Externals} {G C : Type} : WorkerPresence (MemWorld G C) := {|
  presence_seen _ _ w := w;
|}.

Arguments pick_from : simpl never.
Arguments retire_from : simpl never.

(** ** test_support.rs *)

Record FixedClock : Type := FixedClock_at { fixed_now : DateTime }.

(** [FixedClock::advance]; [+=] panics past the range of dates. *)
Definition FixedClock_advance `{ext : Externals} (delta_max by_ : Duration)
    : ST FixedClock Empty_set unit :=
  let delta := default delta_max (TimeDelta_from_std by_) in
  let! c := st_get in
  let! t := st_lift (or_panic (checked_add_signed (fixed_now c) delta)) in
  st_modify (λ _, FixedClock_at t).

#[export] Instance FixedClock_Clock : Clock FixedClock := {|
  clock_now c := (fixed_now c, c);
|}.

Record SeededIds : Type := SeededIds_mk {
  ids_seed : Z;
  ids_counter : Z;
}.

Definition SeededIds_new (seed : Z) : SeededIds := SeededIds_mk seed 1.

(** [(u128::from(seed) << 64) | u128::from(n)]; [fetch_add] wraps. *)
Definition SeededIds_next (g : SeededIds) : Uuid * SeededIds :=
  (Z.to_N (Z.lor (Z.shiftl (ids_seed g) 64) (ids_counter g)),
   SeededIds_mk (ids_seed g) (u64_add (ids_counter g) 1)).

#[export] Instance SeededIds_IdGenerator : IdGenerator SeededIds := {|
  gen_job_id g := let '(u, g) := SeededIds_next g in (JobId_new u, g);
  gen_event_id g := let '(u, g) := SeededIds_next g in (EventId_new u, g);
  gen_lease_id g := let '(u, g) := SeededIds_next g in (LeaseId_new u, g);
  gen_correlation_id g := let '(u, g) := SeededIds_next g in (CorrelationId_new u, g);
  jitter_seed g := (ids_seed g, g);
|}.
