(* ===== verification/MemFacts.v ===== *)
(** * Correctness of the in-memory store

    The invariant of the guarded state: every stream folds, and the dispatch
    index is the projection of the folded streams up to the ephemeral lease
    deadlines. [append_locked] preserves it, refuses a batch without a trace,
    and satisfies the event-store contract. *)

From S2P Require Import Prelude Std Ids Retry Events Job Lifecycle Commands Ports UseCases Contract.
From S2P Require Import MemStore MemDispatcher.

Open Scope string_scope.
Open Scope list_scope.
Open Scope Z_scope.

Section mem_facts.
Context `{ext : Externals}.
Implicit Types (i : Inner) (j : Job) (id : JobId) (s : list EventEnvelope) (e : DispatchEntry).

(** ** Specification *)

(** An entry without its deadline: what the event log determines. *)
Definition strip e : DispatchEntry := set_deadline 0 e.

(** The entry (or its absence) is the projection of the job, up to the
    deadline; the sequence number is the entry's own. *)
Definition agrees (oe : option DispatchEntry) j : Prop :=
  ∃ seq, strip <$> oe = strip <$> projection j seq.

Definition log_ok i : Prop := ∀ id s, streams i !! id = Some s → stream_ok id s.

Definition index_ok i : Prop := ∀ id,
  match streams i !! id with
  | None => index i !! id = None
  | Some s => ∀ j, from_events s = Ok j → agrees (index i !! id) j
  end.

Definition seq_ok i : Prop :=
  0 ≤ inner_seq i ∧
  (∀ id e, index i !! id = Some e → 0 ≤ entry_seq e ≤ inner_seq i) ∧
  (∀ id1 id2 e1 e2, index i !! id1 = Some e1 → index i !! id2 = Some e2 →
     entry_seq e1 = entry_seq e2 → id1 = id2).

(** The invariant of the guarded state. *)
Definition sound i : Prop := log_ok i ∧ index_ok i.

(** The sequence number [project_locked] gives to a job. *)
Definition seq_for i id : Z :=
  match index i !! id with
  | Some e => entry_seq e
  | None => u64_add (inner_seq i) 1
  end.

(** What an append to the stream of [j] does to the index and the counter:
    the entry of [id] becomes the projection of [j], under its old sequence
    number or the next one, and no other entry moves. *)
Definition reindexed i i' id j : Prop :=
  (∀ id', index i' !! id'
     = if decide (id' = id) then projection j (seq_for i id) else index i !! id') ∧
  inner_seq i' = match index i !! id with
                 | Some _ => inner_seq i
                 | None => u64_add (inner_seq i) 1
                 end.

(** ** Lemmas *)

Lemma projection_seq j seq e : projection j seq = Some e → entry_seq e = seq.
Proof. unfold projection. destruct (job_state j); naive_solver. Qed.

Lemma agrees_projection j seq : agrees (projection j seq) j.
Proof. by exists seq. Qed.

Lemma strip_set_deadline t e : strip (set_deadline t e) = strip e.
Proof. unfold strip, set_deadline. simpl. by destruct (entry_lease e). Qed.

(** What an entry that agrees with a job says about the job. *)
Lemma agrees_inv e j :
  agrees (Some e) j →
  entry_queue e = job_queue j ∧ entry_priority e = job_priority j ∧
  match entry_lease e with
  | None => job_state j = S_Pending (entry_not_before e)
  | Some ls => entry_not_before e = None ∧
      ∃ t, holds (ls_worker ls) (ls_lease ls) t (job_state j)
  end.
Proof.
  intros [seq H]. unfold projection, strip, set_deadline in H.
  destruct (job_state j) as [nb|w l t|w l t| | | | |] eqn:Hj; simplify_eq/=;
    destruct (entry_lease e) as [[]|] eqn:Hl; simplify_eq/=; try done;
    (split_and!; [done..|]); by eexists; constructor.
Qed.

Lemma project_streams j i : streams (project_locked j i) = streams i.
Proof. unfold project_locked. by destruct (index i !! _), (projection j _). Qed.

Lemma project_index j i id :
  index (project_locked j i) !! id
  = if decide (id = job_id j) then projection j (seq_for i (job_id j)) else index i !! id.
Proof.
  unfold project_locked, seq_for.
  destruct (index i !! job_id j) as [e|] eqn:Hi; simpl;
    destruct (projection j _) as [e'|] eqn:Hp; simpl; case_decide; subst; by simplify_map_eq.
Qed.

Lemma project_seq j i :
  inner_seq (project_locked j i)
  = match index i !! job_id j with
    | Some _ => inner_seq i
    | None => u64_add (inner_seq i) 1
    end.
Proof. unfold project_locked. by destruct (index i !! _), (projection j _). Qed.

Lemma batch_well_formed_spec id v (envs : list EventEnvelope) :
  batch_well_formed id v envs = true ↔
  sequential v envs ∧ Forall (λ env, stream_id env = id) envs.
Proof.
  revert v. induction envs as [|env envs IH]; intros v; simpl.
  - split; [by split|done].
  - rewrite Forall_cons.
    destruct (Z.eqb_spec (envelope_version env) (u64_add v 1)); simpl; [|naive_solver].
    case_bool_decide; simpl; [|naive_solver]. rewrite IH. naive_solver.
Qed.

(** [append_locked] on a well-formed log, as a decision. *)
Lemma append_locked_eq i id expected envs :
  log_ok i →
  let old := default [] (streams i !! id) in
  append_locked id expected envs i =
  if negb (Z.of_nat (length old) =? expected) then (Err (VersionConflict id expected), i)
  else if negb (batch_well_formed id expected envs)
  then (Err (Store_Backend
    ("malformed envelope batch for " +:+ Uuid_to_string (JobId_as_uuid id))), i)
  else
    match from_events (old ++ envs) with
    | Ok j => (Ok tt, project_locked j (set_streams (<[id := old ++ envs]> (streams i)) i))
    | Err e => (Err (Store_Backend ("batch does not fold: " +:+ DomainError_to_string e)), i)
    | Panic => (Panic, i)
    end.
Proof.
  intros Hok. simpl. unfold append_locked. st_unfold. simpl.
  assert (Hlen : from_option length 0%nat (streams i !! id)
    = length (default [] (streams i !! id))) by (by destruct (streams i !! id)).
  rewrite Hlen.
  assert (Z.of_nat (length (default [] (streams i !! id))) ≤ U64_MAX).
  { destruct (streams i !! id) as [s|] eqn:Hs; [by apply Hok in Hs as [? _]|]. by vm_compute. }
  destruct (Z.leb_spec (Z.of_nat (length (default [] (streams i !! id)))) U64_MAX); [|lia].
  destruct (Z.eqb_spec (Z.of_nat (length (default [] (streams i !! id)))) expected) as [->|]; simpl;
    [|done].
  destruct (batch_well_formed id expected envs); simpl; [|done].
  by destruct (from_events _).
Qed.

(** The state an accepted append leaves. *)
Definition appended id s j i : Inner :=
  project_locked j (set_streams (<[id := s]> (streams i)) i).

Lemma appended_streams id s j i : streams (appended id s j i) = <[id := s]> (streams i).
Proof. unfold appended. by rewrite project_streams. Qed.

Lemma appended_index id s j i id' :
  index (appended id s j i) !! id'
  = if decide (id' = job_id j) then projection j (seq_for i (job_id j)) else index i !! id'.
Proof. unfold appended. by rewrite project_index. Qed.

Lemma appended_sound id s j i :
  sound i → stream_ok id s → from_events s = Ok j → sound (appended id s j i).
Proof.
  intros [Hlog Hidx] Hs Hj. pose proof (stream_job_id _ _ _ Hs Hj) as Hid. split.
  - intros id' s'. rewrite appended_streams. intros [[<- <-]|[_ ?]]%lookup_insert_Some; [done|].
    by apply Hlog.
  - intros id'. rewrite appended_streams, appended_index, Hid. case_decide as Hd.
    + subst id'. rewrite lookup_insert_eq. intros j' Hj'. assert (j' = j) as -> by congruence.
      apply agrees_projection.
    + rewrite lookup_insert_ne by congruence. apply Hidx.
Qed.

Lemma appended_reindexed id s j i :
  job_id j = id → reindexed i (appended id s j i) id j.
Proof.
  intros Hid. unfold reindexed, appended.
  setoid_rewrite project_index. rewrite project_seq, Hid. done.
Qed.

Lemma reindexed_seq_ok i i' id j :
  reindexed i i' id j → seq_ok i → inner_seq i < U64_MAX →
  seq_ok i' ∧ inner_seq i' ≤ inner_seq i + 1.
Proof.
  intros [Hre Hseq] (H0 & Hrange & Hinj) Hmax. rewrite u64_add_id in Hseq by lia.
  assert (Hfor : seq_for i id = match index i !! id with
    | Some e => entry_seq e | None => inner_seq i + 1 end).
  { unfold seq_for. by rewrite u64_add_id by lia. }
  assert (Hnew : ∀ e, projection j (seq_for i id) = Some e →
    entry_seq e = match index i !! id with Some e => entry_seq e | None => inner_seq i + 1 end)
    by (intros e He; by rewrite (projection_seq _ _ _ He)).
  split; [|rewrite Hseq; destruct (index i !! id); lia]. split_and!.
  - rewrite Hseq. destruct (index i !! id); lia.
  - intros id' e. rewrite Hre, Hseq. case_decide.
    + intros ->%Hnew. destruct (index i !! id) eqn:Hj; [|lia]. by eapply Hrange.
    + intros He%Hrange. destruct (index i !! id); lia.
  - intros id1 id2 e1 e2. rewrite !Hre.
    repeat case_decide; subst; [done|..]; intros He1 He2 Heq; [| |by eapply Hinj];
      [rewrite (Hnew _ He1) in Heq|rewrite (Hnew _ He2) in Heq];
      destruct (index i !! id) as [e|] eqn:Hj; try (by eapply Hinj);
      [apply Hrange in He2|apply Hrange in He1]; lia.
Qed.

Lemma acceptable_dec old id expected envs :
  Z.of_nat (length old) = expected → batch_well_formed id expected envs = true →
  match from_events (old ++ envs) with
  | Ok _ => acceptable old id expected envs
  | _ => ¬ acceptable old id expected envs
  end.
Proof.
  intros ? [? ?]%batch_well_formed_spec. pose proof (from_events_no_panic (old ++ envs)).
  destruct (from_events _) as [j|e|] eqn:Hf; [|intros (_ & _ & _ & j & ?); congruence|done].
  split_and!; eauto.
Qed.

(** The outcome of an append on a sound state: accepted exactly when the
    batch continues the stream and the whole still folds, and refused without
    a trace otherwise. *)
Lemma append_locked_cases i id expected envs :
  sound i → let old := default [] (streams i !! id) in
  (acceptable old id expected envs ∧ ∃ j, from_events (old ++ envs) = Ok j ∧
     append_locked id expected envs i = (Ok tt, appended id (old ++ envs) j i)) ∨
  (¬ acceptable old id expected envs ∧ ∃ e : EventStoreError,
     append_locked id expected envs i = (Err e, i) ∧
     if decide (Z.of_nat (length old) = expected)
     then ∃ msg, e = Store_Backend msg else e = VersionConflict id expected).
Proof.
  intros [Hlog _] old. rewrite append_locked_eq by done. fold old.
  destruct (Z.eqb_spec (Z.of_nat (length old)) expected) as [He|Hne]; simpl.
  - destruct (decide (Z.of_nat (length old) = expected)); [|done].
    destruct (batch_well_formed id expected envs) eqn:Hb; simpl.
    + pose proof (acceptable_dec old id expected envs He Hb) as Ha.
      pose proof (from_events_no_panic (old ++ envs)).
      destruct (from_events _) as [j|err|] eqn:Hf; [left; eauto|right; eauto|done].
    + right. split; [|by eauto]. intros (_ & ? & ? & _).
      assert (batch_well_formed id expected envs = true) by (by apply batch_well_formed_spec).
      congruence.
  - destruct (decide (Z.of_nat (length old) = expected)); [done|]. right. split; [by intros [? _]|eauto].
Qed.

Lemma acceptable_stream_ok i id expected envs :
  sound i → acceptable (default [] (streams i !! id)) id expected envs →
  Z.of_nat (length (default [] (streams i !! id)) + length envs) ≤ U64_MAX →
  stream_ok id (default [] (streams i !! id) ++ envs).
Proof.
  intros [Hlog _] (_ & _ & Hids & j & Hj) ?. split_and!; [by rewrite length_app| |by eauto].
  apply Forall_app. split; [|done].
  destruct (streams i !! id) as [s|] eqn:Hs; simpl; [by apply Hlog in Hs as (_ & ? & _)|constructor].
Qed.
End mem_facts.

(** ** The store satisfies the event-store contract *)

Section mem_contract.
Context `{ext : Externals} {G C : Type} `{!IdGenerator G, !Clock C}.
Local Abbreviation World := (MemWorld G C).

Definition mem_healthy (w : World) : Prop :=
  poisoned (mem_store w) = false ∧ sound (mem_inner w).

Lemma locked_run {T} (f : ST World EventStoreError T) w r w' :
  poisoned (mem_store w) = false → f w = (r, w') → r ≠ Panic → locked f w = (r, w').
Proof. unfold locked. intros -> ->. by destruct r. Qed.

Lemma mem_append_cases w id expected envs :
  mem_healthy w → let old := default [] (streams (mem_inner w) !! id) in
  (acceptable old id expected envs ∧ ∃ j, from_events (old ++ envs) = Ok j ∧
     InMemory_append id expected envs w
     = (Ok tt, set_mem_inner (appended id (old ++ envs) j (mem_inner w)) w)) ∨
  (¬ acceptable old id expected envs ∧ ∃ e, InMemory_append id expected envs w = (Err e, w) ∧
     if decide (Z.of_nat (length old) = expected)
     then ∃ msg, e = Store_Backend msg else e = VersionConflict id expected).
Proof.
  intros [Hp Hw] old. unfold InMemory_append, on_inner, st_zoom.
  destruct (append_locked_cases _ id expected envs Hw) as [(Ha & j & Hj & Happ)|(Ha & e & Happ & He)].
  - left. split; [done|]. exists j. split; [done|]. apply locked_run; [done| |done].
    by rewrite Happ.
  - right. split; [done|]. exists e. split; [|done]. apply locked_run; [done| |done].
    rewrite Happ. by destruct w as [[] ? ?].
Qed.

(** Fresh ids and clock readings do not touch the store. *)
Lemma wrap_each_store id t corr caus trace v evs (w : World) :
  mem_store (snd (wrap_each id t corr caus trace v evs w)) = mem_store w ∧
  mem_clock (snd (wrap_each id t corr caus trace v evs w)) = mem_clock w.
Proof.
  revert v w. induction evs as [|ev evs IH]; intros v w; simpl; [done|].
  destruct (gen_event_id (mem_ids w)) as [eid g]. specialize (IH (u64_add v 1) (set_mem_ids g w)).
  by destruct (wrap_each _ _ _ _ _ _ evs _).
Qed.

Lemma wrap_events_store id v corr caus trace evs (w : World) envs w' :
  wrap_events id v corr caus trace evs w = (envs, w') →
  mem_store w' = mem_store w ∧ event <$> envs = evs ∧ sequential v envs ∧
  Forall (wrapped id corr caus trace) envs ∧ mem_clock w' = snd (clock_now (mem_clock w)).
Proof.
  unfold wrap_events. simpl. destruct (clock_now (mem_clock w)) as [t c]. intros Hw.
  pose proof (wrap_each_store id t corr caus trace v evs (set_mem_clock c w)) as Hs.
  rewrite Hw in Hs. destruct Hs as [Hs Hc]. split; [done|].
  destruct (wrap_each_spec _ _ _ _ _ _ _ _ _ _ Hw) as (? & ? & ?). auto.
Qed.

#[export] Program Instance mem_EventStoreContract : EventStoreContract World := {|
  healthy := mem_healthy;
  log_of w := streams (mem_inner w);
  max_len := U64_MAX;
  storable _ := True;
  traceable _ := True;
  prepared _ _ := True;
  quiet w w' := mem_store w' = mem_store w;
|}.
Next Obligation. intros w w' Hq. unfold mem_healthy, mem_inner. by rewrite Hq. Qed.
Next Obligation. done. Qed.
Next Obligation. intros w id s [_ [Hlog _]]. apply Hlog. Qed.
Next Obligation. intros w id s _ _. by apply Forall_true. Qed.
Next Obligation.
  intros w id [Hp _]. apply locked_run; [done| |by destruct (streams _ !! _)].
  unfold on_inner. st_unfold. by destruct w as [[] ? ?].
Qed.
Next Obligation.
  intros w id expected envs Hw _ Hlen. simpl in *.
  destruct (mem_append_cases w id expected envs Hw) as [(Ha & j & Hj & ->)|(Ha & e & -> & He)].
  - eexists _, _. split; [done|]. split.
    + split; [apply Hw|]. apply appended_sound; [apply Hw| |done].
      by eapply acceptable_stream_ok; [apply Hw| |].
    + left. split_and!; [done..|]. exists envs. split_and!; [|done|by apply appended_streams].
      apply Forall_Forall2_diag, Forall_true. intros env. split; try done. apply similar_refl.
  - eexists _, _. split; [done|]. split; [done|]. right. split_and!; [done..|].
    case_decide; naive_solver.
Qed.
Next Obligation. intros w. unfold keeps. simpl. by destruct (gen_job_id (mem_ids w)). Qed.
Next Obligation. intros w. simpl. by destruct (gen_event_id (mem_ids w)). Qed.
Next Obligation. intros w. simpl. by destruct (gen_lease_id (mem_ids w)). Qed.
Next Obligation. intros w. simpl. by destruct (gen_correlation_id (mem_ids w)). Qed.
Next Obligation. intros w. simpl. by destruct (jitter_seed (mem_ids w)). Qed.
Next Obligation. intros w. simpl. by destruct (clock_now (mem_clock w)). Qed.
Next Obligation. done. Qed.

(** ** Theorems *)

(** C13: An append is all or nothing: a batch that continues the stream (expected
    version, consecutive numbers, right address) and folds with it is stored
    and loads back after what was there, no other stream changes, and the
    index entry is the projection of the folded job; any other batch leaves
    the whole store as it was, with [VersionConflict] exactly when the
    expected version is not the stream's. *)
Theorem append_all_or_nothing (w : World) id expected envs :
  mem_healthy w → let old := default [] (streams (mem_inner w) !! id) in
  Z.of_nat (length old + length envs) ≤ U64_MAX →
  (acceptable old id expected envs ∧ ∃ j w', store_append id expected envs w = (Ok tt, w') ∧
     mem_healthy w' ∧ store_load id w' = (Ok (old ++ envs), w') ∧ from_events (old ++ envs) = Ok j ∧
     (∀ id', id' ≠ id → streams (mem_inner w') !! id' = streams (mem_inner w) !! id') ∧
     reindexed (mem_inner w) (mem_inner w') id j) ∨
  (¬ acceptable old id expected envs ∧ ∃ e, store_append id expected envs w = (Err e, w) ∧
     (e = VersionConflict id expected ↔ Z.of_nat (length old) ≠ expected)).
Proof.
  intros Hw old Hlen.
  destruct (mem_append_cases w id expected envs Hw) as [(Ha & j & Hj & Happ)|(Ha & e & Happ & He)];
    fold old in Ha; [left|right]; (split; [done|]).
  - pose proof (acceptable_stream_ok _ _ _ _ (proj2 Hw) Ha Hlen) as Hok.
    exists j, (set_mem_inner (appended id (old ++ envs) j (mem_inner w)) w). split; [exact Happ|].
    assert (Hw' : mem_healthy (set_mem_inner (appended id (old ++ envs) j (mem_inner w)) w)).
    { split; [apply Hw|]. by apply appended_sound; [apply Hw| |]. }
    split; [exact Hw'|]. split_and!; [|exact Hj| |].
    + pose proof (load_spec (W:=World) _ id Hw') as Hl. simpl in *. rewrite Hl.
      unfold mem_inner. simpl. by rewrite appended_streams, lookup_insert_eq.
    + intros id' Hne. unfold mem_inner. simpl. by rewrite appended_streams, lookup_insert_ne.
    + apply appended_reindexed. by eapply stream_job_id.
  - exists e. split; [exact Happ|]. fold old in He. case_decide; [|by subst].
    destruct He as [msg ->]. naive_solver.
Qed.

(** In a sound store the index is what the log says, up to heartbeats: a job
    has an entry without a lease exactly while it is pending, one with its
    lease exactly while it is leased or running, and none otherwise. *)
Theorem index_reflects_log (i : Inner) id s j :
  sound i → streams i !! id = Some s → from_events s = Ok j →
  match job_state j with
  | S_Pending nb => ∃ seq, index i !! id
      = Some {| entry_queue := job_queue j; entry_priority := job_priority j; entry_seq := seq;
                entry_not_before := nb; entry_lease := None |}
  | S_Leased worker l _ | S_Running worker l _ => ∃ seq deadline, index i !! id
      = Some {| entry_queue := job_queue j; entry_priority := job_priority j; entry_seq := seq;
                entry_not_before := None;
                entry_lease := Some {| ls_lease := l; ls_worker := worker;
                                       ls_expires_at := deadline |} |}
  | _ => index i !! id = None
  end.
Proof.
  intros [_ Hidx] Hs Hj. specialize (Hidx id). rewrite Hs in Hidx.
  destruct (Hidx j Hj) as [seq Ha]. unfold projection, strip, set_deadline in Ha.
  destruct (job_state j); destruct (index i !! id) as [[q p sq nb [[l' w' t']|]]|]; simplify_eq/=;
    eauto.
Qed.
End mem_contract.
