(* ===== verification/MemSelect.v ===== *)
(** * Which entry the in-memory dispatcher picks

    The dispatch index is a hash map, so [pick_eligible], [retire_one] and
    [extend_lease] see its entries in an unspecified order. Each selection is
    specified on the map and shown not to depend on that order. *)

From S2P Require Import Prelude Std Ids Retry Events Job Lifecycle Commands Ports UseCases Contract.
From S2P Require Import MemStore MemDispatcher MemFacts.

Open Scope string_scope.
Open Scope list_scope.
Open Scope Z_scope.

Section select.
Context `{ext : Externals}.
Implicit Types (i : Inner) (id : JobId) (e : DispatchEntry) (q : QueueName) (now : DateTime).
Implicit Types (m : gmap JobId DispatchEntry) (l : list (JobId * DispatchEntry)).

(** ** Specification *)

(** Dispatch order: a higher priority first, among equals the entry indexed
    first. *)
Definition before e e' : Prop :=
  priority_value (entry_priority e') < priority_value (entry_priority e) ∨
  (priority_value (entry_priority e) = priority_value (entry_priority e') ∧
   entry_seq e < entry_seq e').

(** No two entries carry the same sequence number. *)
Definition seqs_differ m : Prop := ∀ id1 id2 e1 e2,
  m !! id1 = Some e1 → m !! id2 = Some e2 → entry_seq e1 = entry_seq e2 → id1 = id2.

(** No two entries carry the same lease. *)
Definition leases_differ m : Prop := ∀ id1 id2 e1 e2 ls1 ls2,
  m !! id1 = Some e1 → m !! id2 = Some e2 →
  entry_lease e1 = Some ls1 → entry_lease e2 = Some ls2 → ls_lease ls1 = ls_lease ls2 → id1 = id2.

(** [id] is the job to dispatch from [q]. *)
Definition first_claimable q now m id : Prop :=
  ∃ e, m !! id = Some e ∧ claimable q now e = true ∧
    ∀ id' e', m !! id' = Some e' → claimable q now e' = true → id' = id ∨ before e e'.

(** [id] is the expired lease to retire. *)
Definition first_expired now m id : Prop :=
  ∃ e, m !! id = Some e ∧ expired now e = true ∧
    ∀ id' e', m !! id' = Some e' → expired now e' = true → JobId_leb id id' = true.

(** The lease is in the index with a deadline still ahead. *)
Definition live (lease : LeaseId) now m id : Prop :=
  ∃ e ls, m !! id = Some e ∧ entry_lease e = Some ls ∧ ls_lease ls = lease ∧ now < ls_expires_at ls.

(** ** Lemmas *)

Lemma claim_key_leb_spec (a b : JobId * DispatchEntry) :
  claim_key_leb a b = true ↔
  priority_value (entry_priority a.2) < priority_value (entry_priority b.2) ∨
  (priority_value (entry_priority a.2) = priority_value (entry_priority b.2) ∧
   entry_seq b.2 ≤ entry_seq a.2).
Proof.
  unfold claim_key_leb. rewrite orb_true_iff, andb_true_iff, Z.ltb_lt, Z.eqb_eq, Z.leb_le. done.
Qed.

Lemma claim_key_total a b : claim_key_leb a b = true ∨ claim_key_leb b a = true.
Proof. rewrite !claim_key_leb_spec. lia. Qed.

Lemma claim_key_trans a b c :
  claim_key_leb a b = true → claim_key_leb b c = true → claim_key_leb a c = true.
Proof. rewrite !claim_key_leb_spec. lia. Qed.

Lemma elem_of_entries l m id e : l ≡ₚ map_to_list m → (id, e) ∈ l ↔ m !! id = Some e.
Proof. intros ->. apply elem_of_map_to_list. Qed.

(** The entries that pass a boolean test. *)
Lemma elem_of_filtered (f : DispatchEntry → bool) l m id e :
  l ≡ₚ map_to_list m →
  (id, e) ∈ base.filter (λ x, f x.2 = true) l ↔ m !! id = Some e ∧ f e = true.
Proof. intros Hl. rewrite list_elem_of_filter, (elem_of_entries _ _ _ _ Hl). naive_solver. Qed.

Lemma pick_from_spec q now l m :
  l ≡ₚ map_to_list m → seqs_differ m →
  match pick_from q now l with
  | Some id => first_claimable q now m id
  | None => ∀ id e, m !! id = Some e → claimable q now e = false
  end.
Proof.
  intros Hl Hseq. unfold pick_from.
  pose proof (max_by_spec _ claim_key_total claim_key_trans
    (base.filter (λ x, claimable q now x.2 = true) l)) as Hmax.
  destruct (max_by _ _) as [[id e]|]; simpl.
  - destruct Hmax as [[He Hc]%(elem_of_filtered _ _ _ _ _ Hl) Hmax]. exists e. split_and!; [done..|].
    intros id' e' He' Hc'. destruct (decide (id' = id)) as [|Hne]; [by left|right].
    specialize (Hmax (id', e')). rewrite (elem_of_filtered _ _ _ _ _ Hl) in Hmax.
    apply (conj He') in Hc' as Hle%Hmax%claim_key_leb_spec. simpl in *.
    assert (entry_seq e ≠ entry_seq e') by (intros ?; destruct Hne; symmetry; eauto).
    unfold before. lia.
  - intros id e He. destruct (claimable q now e) eqn:Hc; [|done].
    assert ((id, e) ∈ base.filter (λ x, claimable q now x.2 = true) l) as Hin
      by (by apply (elem_of_filtered _ _ _ _ _ Hl)).
    rewrite Hmax in Hin. by apply elem_of_nil in Hin.
Qed.

(** Without any hypothesis: what is picked is claimable. *)
Lemma pick_from_claimable q now l m id :
  l ≡ₚ map_to_list m → pick_from q now l = Some id →
  ∃ e, m !! id = Some e ∧ claimable q now e = true.
Proof.
  intros Hl. unfold pick_from.
  pose proof (max_by_spec _ claim_key_total claim_key_trans
    (base.filter (λ x, claimable q now x.2 = true) l)) as Hmax.
  destruct (max_by _ _) as [[id' e]|]; [|done]. intros [= ->]. exists e.
  destruct Hmax as [Hin _]. by apply (elem_of_filtered _ _ _ _ _ Hl) in Hin.
Qed.

Lemma first_claimable_unique q now m id1 id2 :
  first_claimable q now m id1 → first_claimable q now m id2 → id1 = id2.
Proof.
  intros (e1 & H1 & C1 & M1) (e2 & H2 & C2 & M2).
  destruct (M1 _ _ H2 C2) as [|B1]; [done|]. destruct (M2 _ _ H1 C1) as [|B2]; [done|].
  unfold before in *. lia.
Qed.

Lemma retire_from_spec now l m :
  l ≡ₚ map_to_list m →
  match retire_from now l with
  | Some id => first_expired now m id
  | None => ∀ id e, m !! id = Some e → expired now e = false
  end.
Proof.
  intros Hl. unfold retire_from.
  pose proof (min_by_spec _ JobId_leb_total JobId_leb_trans
    (base.filter (λ x, expired now x.2 = true) l).*1) as Hmin.
  destruct (min_by _ _) as [id|].
  - destruct Hmin as [([id' e] & -> & [He Hx]%(elem_of_filtered _ _ _ _ _ Hl))%list_elem_of_fmap Hmin].
    exists e. split_and!; [done..|]. intros id2 e2 He2 Hx2. apply Hmin.
    apply list_elem_of_fmap. exists (id2, e2). split; [done|].
    by apply (elem_of_filtered _ _ _ _ _ Hl).
  - intros id e He. destruct (expired now e) eqn:Hx; [|done].
    assert ((id, e) ∈ base.filter (λ x, expired now x.2 = true) l) as Hin
      by (by apply (elem_of_filtered _ _ _ _ _ Hl)).
    apply fmap_nil_inv in Hmin. rewrite Hmin in Hin. by apply elem_of_nil in Hin.
Qed.

Lemma first_expired_unique now m id1 id2 :
  first_expired now m id1 → first_expired now m id2 → id1 = id2.
Proof.
  intros (e1 & H1 & C1 & M1) (e2 & H2 & C2 & M2). apply JobId_leb_antisymm; eauto.
Qed.

Lemma live_unique lease now now' m id1 id2 :
  leases_differ m → live lease now m id1 → live lease now' m id2 → id1 = id2.
Proof.
  intros Hd (e1 & ls1 & H1 & L1 & E1 & _) (e2 & ls2 & H2 & L2 & E2 & _).
  eapply Hd; [exact H1|exact H2|exact L1|exact L2|congruence].
Qed.

Lemma extend_from_sound now lease l :
  match extend_from now lease l with
  | (true, Some id) => ∃ e ls, (id, e) ∈ l ∧ entry_lease e = Some ls ∧ ls_lease ls = lease ∧
      now < ls_expires_at ls
  | (false, None) => (∀ id e ls, (id, e) ∈ l → entry_lease e = Some ls → ls_lease ls ≠ lease) ∨
      ∃ id e ls, (id, e) ∈ l ∧ entry_lease e = Some ls ∧ ls_lease ls = lease ∧
      ls_expires_at ls ≤ now
  | _ => False
  end.
Proof.
  induction l as [|[id e] l IH]; simpl.
  { left. intros id e ls He. by apply elem_of_nil in He. }
  assert (Hskip : (∀ ls, entry_lease e = Some ls → ls_lease ls ≠ lease) →
    match extend_from now lease l with
    | (true, Some id') => ∃ e' ls, (id', e') ∈ (id, e) :: l ∧ entry_lease e' = Some ls ∧
        ls_lease ls = lease ∧ now < ls_expires_at ls
    | (false, None) => (∀ id' e' ls, (id', e') ∈ (id, e) :: l → entry_lease e' = Some ls →
        ls_lease ls ≠ lease) ∨
        ∃ id' e' ls, (id', e') ∈ (id, e) :: l ∧ entry_lease e' = Some ls ∧ ls_lease ls = lease ∧
        ls_expires_at ls ≤ now
    | _ => False
    end).
  { intros Hne. destruct (extend_from now lease l) as [[] [id'|]]; try done;
      setoid_rewrite elem_of_cons; naive_solver. }
  destruct (entry_lease e) as [ls|] eqn:Hl; [|by apply Hskip].
  case_bool_decide as Hb; [|apply Hskip; naive_solver].
  assert ((id, e) ∈ (id, e) :: l) by (by left).
  destruct (Z.leb_spec (ls_expires_at ls) now); [right|]; eauto 10.
Qed.

Lemma extend_from_spec now lease l m :
  l ≡ₚ map_to_list m → leases_differ m →
  match extend_from now lease l with
  | (true, Some id) => live lease now m id
  | (false, None) => ∀ id, ¬ live lease now m id
  | _ => False
  end.
Proof.
  intros Hl Hd. pose proof (extend_from_sound now lease l) as Hs.
  destruct (extend_from now lease l) as [[] [id|]]; [|done|done|];
    setoid_rewrite (λ id e, elem_of_entries l m id e Hl) in Hs; [done|].
  intros id (e & ls & He & Hls & Heq & Hlt). destruct Hs as [Hs|(id' & e' & ls' & He' & Hls' & Heq' & ?)].
  - by eapply Hs.
  - assert (id' = id) as -> by (eapply Hd; [exact He'|exact He|done|done|congruence]).
    simplify_eq. lia.
Qed.

(** ** Theorems *)

(** The dispatcher picks the claimable entry of highest priority, the one
    indexed first among equals, and nothing exactly when no entry is
    claimable. *)
Theorem pick_eligible_spec i q now :
  seq_ok i →
  match pick_eligible i q now with
  | Some id => first_claimable q now (index i) id
  | None => ∀ id e, index i !! id = Some e → claimable q now e = false
  end.
Proof. intros (_ & _ & Hseq). by apply pick_from_spec. Qed.

(** None of the three selections depends on the order in which the hash map
    yields its entries. *)
Theorem selection_order_independent i q now lease l :
  seq_ok i → leases_differ (index i) → l ≡ₚ map_to_list (index i) →
  pick_from q now l = pick_eligible i q now ∧
  retire_from now l = retire_from now (map_to_list (index i)) ∧
  extend_from now lease l = extend_from now lease (map_to_list (index i)).
Proof.
  intros (_ & _ & Hseq) Hd Hl. unfold pick_eligible. split_and!.
  - pose proof (pick_from_spec q now _ _ Hl Hseq) as H1.
    pose proof (pick_from_spec q now (map_to_list (index i)) _ (reflexivity _) Hseq) as H2.
    destruct (pick_from q now l), (pick_from q now (map_to_list _)); [|..|done].
    + f_equal. by eapply first_claimable_unique.
    + destruct H1 as (e & He & Hc & _). by rewrite (H2 _ _ He) in Hc.
    + destruct H2 as (e & He & Hc & _). by rewrite (H1 _ _ He) in Hc.
  - pose proof (retire_from_spec now _ _ Hl) as H1.
    pose proof (retire_from_spec now (map_to_list (index i)) _ (reflexivity _)) as H2.
    destruct (retire_from now l), (retire_from now (map_to_list _)); [|..|done].
    + f_equal. by eapply first_expired_unique.
    + destruct H1 as (e & He & Hc & _). by rewrite (H2 _ _ He) in Hc.
    + destruct H2 as (e & He & Hc & _). by rewrite (H1 _ _ He) in Hc.
  - pose proof (extend_from_spec now lease _ _ Hl Hd) as H1.
    pose proof (extend_from_spec now lease (map_to_list (index i)) _ (reflexivity _) Hd) as H2.
    destruct (extend_from now lease l) as [[] []],
      (extend_from now lease (map_to_list _)) as [[] []]; try done.
    + do 2 f_equal. by eapply live_unique.
    + by destruct (H2 _ H1).
    + by destruct (H1 _ H2).
Qed.
End select.
