(* ===== verification/MemDispatchFacts.v ===== *)
(** * Correctness of the in-memory dispatcher

    Claim, heartbeat and retirement on a sound store: what each returns, what
    it appends, what it does to the index, and that none of them can meet an
    index that disagrees with the log. Then the sweep: it terminates, and it
    leaves no expired lease behind. *)

From S2P Require Import Prelude Std Ids Retry Events Job Lifecycle Commands Ports UseCases Contract.
From S2P Require Import MemStore MemDispatcher MemFacts MemSelect.

Open Scope string_scope.
Open Scope list_scope.
Open Scope Z_scope.

Section dispatch_facts.
Context `{ext : Externals} {G C : Type} `{!IdGenerator G, !Clock C}.
Local Abbreviation World := (MemWorld G C).
Implicit Types (w : World) (i : Inner) (j : Job) (id : JobId) (s : list EventEnvelope).

(** ** Specification *)

(** The reading an operation that starts in [w] takes of the clock. *)
Definition now_of w : DateTime := fst (clock_now (mem_clock w)).

(** The retry of a job that is due now can be scheduled. *)
Definition retirable now s j : Prop :=
  Z.of_nat (length s) + 2 ≤ U64_MAX ∧ RetryPolicy_typed (job_retry_policy j) ∧
  0 ≤ job_attempt j < U32_MAX ∧
  ∃ δ, TimeDelta_from_std (max_delay (job_retry_policy j)) = Some δ ∧
    is_Some (checked_add_signed now δ).

(** The decision after a lost attempt: another one later, or the end. *)
Definition rescheduled now (second : JobEvent) j j' : Prop :=
  job_attempt j' = job_attempt j + 1 ∧
  if decide (job_attempt j + 1 < max_attempts (job_retry_policy j))
  then ∃ d, 0 ≤ d ≤ max_delay (job_retry_policy j) ∧
    second = E_RetryScheduled (job_attempt j + 1) (now + d) ∧
    job_state j' = S_Pending (Some (now + d))
  else second = E_Parked RetriesExhausted ∧ job_state j' = S_Parked RetriesExhausted.

(** ** Lemmas *)

(** Wrapping a command's events and appending them inside a critical
    section. *)
Lemma record_locked w w0 id s j evs j' envs w1 :
  sound (mem_inner w) → mem_store w0 = mem_store w →
  streams (mem_inner w) !! id = Some s → from_events s = Ok j → apply_all evs j = Ok j' →
  Z.of_nat (length s) + Z.of_nat (length evs) ≤ U64_MAX →
  (let '(corr, caus, trace) := lineage_of s in
   wrap_events id (job_version j) corr caus trace evs w0 = (envs, w1)) →
  ∃ w', on_inner (append_locked id (job_version j) envs) w1 = (Ok tt, w') ∧
    poisoned (mem_store w') = poisoned (mem_store w) ∧
    (poisoned (mem_store w) = false → extends w w' id s evs j') ∧
    event <$> envs = evs ∧ reindexed (mem_inner w) (mem_inner w') id j' ∧
    mem_clock w' = snd (clock_now (mem_clock w0)).
Proof.
  intros Hw H0 Hs Hj Ha Hlen Hwrap. pose proof Hw as [Hlog _].
  pose proof (Hlog _ _ Hs) as Hok. pose proof Hok as (Hl & Hids & _).
  pose proof (from_events_version _ _ Hj Hl) as Hv.
  unfold extends. destruct (lineage_of s) as [[corr caus] trace].
  destruct (wrap_events_store _ _ _ _ _ _ _ _ _ Hwrap) as (Hst & Hev & Hseq & Hwr & Hclk).
  rewrite Hv in *.
  assert (Hfold : from_events (s ++ envs) = Ok j').
  { rewrite from_events_app by (by eapply from_events_nonempty). rewrite Hj. simpl.
    apply fold_rest_ok. by rewrite Hev, Hv. }
  assert (Hi : mem_inner w1 = mem_inner w) by (unfold mem_inner; congruence).
  assert (Hacc : acceptable (default [] (streams (mem_inner w) !! id)) id
    (Z.of_nat (length s)) envs).
  { rewrite Hs. split_and!; [done|done|by eapply wrapped_stream_ids|by eauto]. }
  assert (Hok' : stream_ok id (s ++ envs)).
  { pose proof (acceptable_stream_ok _ _ _ _ Hw Hacc) as H. rewrite Hs in H. apply H.
    rewrite <-Hev, length_fmap in Hlen. simpl. lia. }
  pose proof (append_locked_cases _ id (Z.of_nat (length s)) envs Hw) as [(_ & j2 & Hj2 & Happ)|(? & _)];
    [|done].
  rewrite Hs in Hj2, Happ. simpl in *. assert (j2 = j') as -> by congruence.
  unfold on_inner, st_zoom. rewrite Hi, Happ.
  eexists. split; [done|]. split; [by rewrite <-H0, <-Hst|]. split_and!; [|done| |done].
  - intros Hp. exists envs. split_and!; [by apply appended_streams| |done..].
    split; [simpl; by rewrite Hst, H0|]. by apply appended_sound.
  - apply appended_reindexed. by eapply stream_job_id.
Qed.

(** A claimable entry belongs to a job that can be leased. *)
Lemma claimable_pending w q now id e :
  sound (mem_inner w) → index (mem_inner w) !! id = Some e → claimable q now e = true →
  ∃ s j, streams (mem_inner w) !! id = Some s ∧ from_events s = Ok j ∧ job_queue j = q ∧
    job_state j = S_Pending (entry_not_before e) ∧ eligible_at (entry_not_before e) now = true.
Proof.
  intros [Hlog Hidx] He Hc. specialize (Hidx id). rewrite He in Hidx.
  destruct (streams (mem_inner w) !! id) as [s|] eqn:Hs; [|done].
  destruct (Hlog _ _ Hs) as (_ & _ & j & Hj). exists s, j.
  destruct (agrees_inv _ _ (Hidx _ Hj)) as (Hq & _ & Hl).
  unfold claimable in Hc. destruct (entry_lease e); [by rewrite andb_false_r in Hc|].
  apply andb_true_iff in Hc as [[Hq' _]%andb_true_iff ?]. apply bool_decide_eq_true in Hq'.
  split_and!; congruence.
Qed.

(** An entry with a lease belongs to a job that is held under it. *)
Lemma leased_held i id e ls :
  sound i → index i !! id = Some e → entry_lease e = Some ls →
  ∃ s j t, streams i !! id = Some s ∧ from_events s = Ok j ∧
    holds (ls_worker ls) (ls_lease ls) t (job_state j).
Proof.
  intros [Hlog Hidx] He Hl. specialize (Hidx id). rewrite He in Hidx.
  destruct (streams i !! id) as [s|] eqn:Hs; [|done].
  destruct (Hlog _ _ Hs) as (_ & _ & j & Hj).
  destruct (agrees_inv _ _ (Hidx _ Hj)) as (_ & _ & Hinv). rewrite Hl in Hinv.
  destruct Hinv as (_ & t & ?). eauto 10.
Qed.

Lemma apply_one_to ev j st' :
  step (job_state j) ev st' → ∃ j', apply_all [ev] j = Ok j' ∧ job_state j' = st'.
Proof. intros Hs. eexists. split; [by apply apply_all_one|done]. Qed.

(** The section of a claim, on a job that can be leased. *)
Lemma claim_locked_grants w q worker ttl now id s j nb δ :
  sound (mem_inner w) → poisoned (mem_store w) = false →
  pick_eligible (mem_inner w) q now = Some id →
  streams (mem_inner w) !! id = Some s → from_events s = Ok j →
  job_state j = S_Pending nb → eligible_at nb now = true →
  TimeDelta_from_std ttl = Some δ → is_Some (checked_add_signed now δ) →
  Z.of_nat (length s) + 1 ≤ U64_MAX →
  let l := fst (gen_lease_id (mem_ids w)) in
  ∃ w' j', claim_locked q worker ttl now w
    = (Ok (Some {| leased_job_id := id; leased_queue := job_queue j;
         leased_payload := job_payload j; leased_attempt := job_attempt j; leased_lease := l;
         leased_expires_at := now + ttl; leased_correlation_id := (lineage_of s).1.1;
         leased_traceparent := (lineage_of s).2 |}), w') ∧
    extends w w' id s [E_Leased worker l (now + ttl)] j' ∧
    job_state j' = S_Leased worker l (now + ttl) ∧ reindexed (mem_inner w) (mem_inner w') id j' ∧
    mem_clock w' = snd (clock_now (mem_clock w)).
Proof.
  intros Hw Hp Hpick Hs Hj Hst Hel Hd [t Ht] Hlen.
  destruct (gen_lease_id (mem_ids w)) as [l g] eqn:Hg. intros l0. simpl in l0. subst l0.
  assert (Hlease : lease j worker l now ttl = Ok (E_Leased worker l (now + ttl))).
  { unfold lease. rewrite Hst, Hel, Hd. simpl. rewrite Ht. simpl.
    by rewrite (checked_add_exact _ _ _ Ht), (from_std_exact _ _ Hd). }
  destruct (apply_one_to (E_Leased worker l (now + ttl)) j (S_Leased worker l (now + ttl)))
    as (j' & Ha & Hst'); [rewrite Hst; constructor|].
  unfold claim_locked. st_unfold. rewrite Hpick, Hs. cbn. rewrite Hj. cbn. rewrite Hg. cbn.
  rewrite Hlease. cbn. destruct (lineage_of s) as [[corr caus] trace] eqn:Hlin.
  destruct (wrap_events id (job_version j) corr caus trace _ (set_mem_ids g w))
    as [envs w1] eqn:Hwrap.
  destruct (record_locked w (set_mem_ids g w) id s j _ _ envs w1 Hw eq_refl Hs Hj Ha)
    as (w' & Happ & Hp' & Hext & Hev & Hre & Hclk); [done|by rewrite Hlin|].
  assert (leased_deadline envs = Ok (now + ttl)) as ->.
  { destruct envs as [|env [|]]; try done. injection Hev as Hev'. simpl. by rewrite Hev'. }
  rewrite Happ. exists w', j'. split_and!; [done|by apply Hext|done|done|done].
Qed.

Lemma claim_run q worker ttl w now c :
  clock_now (mem_clock w) = (now, c) →
  claim q worker ttl w
  = st_map_err Dispatch_Store (locked (claim_locked q worker ttl now)) (set_mem_clock c w).
Proof. unfold claim. st_unfold. simpl. by intros ->. Qed.

(** ** Retirement *)

(** Expiring a lease that is held and can be retried. *)
Lemma expire_total now seed s j wk l t :
  holds wk l t (job_state j) → retirable now s j →
  ∃ second j', expire_lease j now seed = Ok [E_LeaseExpired l; second] ∧
    apply_all [E_LeaseExpired l; second] j = Ok j' ∧ rescheduled now second j j'.
Proof.
  intros Hh (_ & Hp & Hat & δ & Hδ & Hadd).
  destruct (retry_decision_total j (job_attempt j + 1) now seed δ) as [second H2]; [done|lia|done..|].
  exists second. pose proof (apply_decision (E_LeaseExpired l) second j (job_attempt j + 1)) as Ha.
  assert (Hn : u32_add (job_attempt j) 1 = job_attempt j + 1) by (apply u32_add_id; lia).
  assert (He : expire_lease j now seed = Ok [E_LeaseExpired l; second]).
  { unfold expire_lease. rewrite Hn, H2. by inversion Hh. }
  pose proof (retry_decision_ok _ _ _ _ _ H2) as H2'.
  eexists. split; [done|]. split; [apply Ha; [by econstructor|exact Hn|done|]|].
  { destruct H2' as [[_ ->]|(_ & d & _ & ->)]; eauto. }
  split; [done|]. destruct H2' as [[? ->]|(? & d & Hd & ->)]; case_decide; try lia; [done|].
  assert (1 ≤ job_attempt j + 1 ≤ U32_MAX) as Hr by lia.
  pose proof (decide_delay_range _ _ _ _ Hp Hr Hd). pose proof (backoff_millis_bounds _ _ Hp Hr).
  exists d. split_and!; [lia..|done|done].
Qed.

(** The section of a retirement, on an expired lease. *)
Lemma retire_locked_expires w id e ls s j now c seed g t :
  sound (mem_inner w) → poisoned (mem_store w) = false →
  clock_now (mem_clock w) = (now, c) → jitter_seed (mem_ids w) = (seed, g) →
  retire_from now (map_to_list (index (mem_inner w))) = Some id →
  index (mem_inner w) !! id = Some e → entry_lease e = Some ls →
  streams (mem_inner w) !! id = Some s → from_events s = Ok j →
  holds (ls_worker ls) (ls_lease ls) t (job_state j) → retirable now s j →
  ∃ second j' w', retire_locked w = (Ok (Ok (Some id)), w') ∧
    extends w w' id s [E_LeaseExpired (ls_lease ls); second] j' ∧ reindexed (mem_inner w) (mem_inner w') id j' ∧
    rescheduled now second j j' ∧ mem_clock w' = snd (clock_now c).
Proof.
  intros Hw Hp Hc Hg Hr He Hl Hs Hj Hh Hret.
  destruct (expire_total now seed s j _ _ _ Hh Hret) as (second & j' & Hexp & Ha & Hst).
  unfold retire_locked. st_unfold. cbn. rewrite Hc. cbn.
  change (mem_inner (set_mem_clock c w)) with (mem_inner w). rewrite Hr, Hs. cbn.
  rewrite Hj. cbn. rewrite Hg. cbn. rewrite Hexp. cbn.
  destruct (lineage_of s) as [[corr caus] trace] eqn:Hlin.
  destruct (wrap_events id (job_version j) corr caus trace _ _) as [envs w1] eqn:Hwrap.
  destruct (record_locked w (set_mem_ids g (set_mem_clock c w)) id s j _ _ envs w1 Hw eq_refl Hs Hj Ha)
    as (w' & Happ & Hp' & Hext & Hev & Hre & Hclk); [simpl; destruct Hret; lia|by rewrite Hlin|].
  rewrite Happ. exists second, j', w'. split_and!; [done|by apply Hext|done..].
Qed.

Lemma retire_one_run w r w' :
  poisoned (mem_store w) = false → retire_locked w = (Ok r, w') →
  retire_one w = (map_err Dispatch_Domain r, w').
Proof.
  intros Hp Hr. unfold retire_one.
  assert (locked retire_locked w = (Ok r, w')) as Hl by (by apply locked_run).
  by rewrite (st_bind_run _ _ _ _ _ (st_map_err_run _ _ _ _ _ Hl)).
Qed.

(** ** Heartbeat *)

(** The index after an accepted heartbeat. *)
Definition with_deadline (deadline : DateTime) id w : World :=
  set_mem_inner (set_index (alter (set_deadline deadline) id (index (mem_inner w))) (mem_inner w)) w.

Lemma with_deadline_sound deadline id w : sound (mem_inner w) → sound (mem_inner (with_deadline deadline id w)).
Proof.
  intros [Hlog Hidx]. split; [exact Hlog|]. intros id'. specialize (Hidx id'). simpl in *.
  destruct (decide (id = id')) as [<-|Hne]; [rewrite lookup_alter_eq|by rewrite lookup_alter_ne].
  destruct (streams _ !! id); [|by rewrite Hidx]. intros j Hj.
  destruct (Hidx j Hj) as [seq Hs]. exists seq. rewrite <-Hs.
  destruct (index _ !! id); simpl; [|done]. by rewrite strip_set_deadline.
Qed.

Lemma extend_run w lease ttl now c δ deadline :
  poisoned (mem_store w) = false → clock_now (mem_clock w) = (now, c) →
  TimeDelta_from_std ttl = Some δ → checked_add_signed now δ = Some deadline →
  mem_extend_lease lease ttl w =
  match extend_from now lease (map_to_list (index (mem_inner w))) with
  | (answer, Some id) => (Ok answer, with_deadline deadline id (set_mem_clock c w))
  | (answer, None) => (Ok answer, set_mem_clock c w)
  end.
Proof.
  intros Hp Hc Hd Ht. unfold mem_extend_lease, extend_locked, locked. st_unfold. simpl.
  rewrite Hp, Hc, Hd. cbn. rewrite Ht. cbn.
  change (mem_inner (set_mem_clock c w)) with (mem_inner w).
  by destruct (extend_from _ _ _) as [b [id|]].
Qed.

(** ** Appends through the use cases *)

Lemma ack_append_reindexed w id s j evs j' :
  mem_healthy w → streams (mem_inner w) !! id = Some s → from_events s = Ok j →
  apply_all evs j = Ok j' → Z.of_nat (length s) + Z.of_nat (length evs) ≤ U64_MAX →
  ∃ w', WorkerAck_append j s evs w = (Ok tt, w') ∧ extends w w' id s evs j' ∧ reindexed (mem_inner w) (mem_inner w') id j'.
Proof.
  intros [Hp Hw] Hs Hj Ha Hlen. pose proof Hw as [Hlog _].
  pose proof (stream_job_id _ _ _ (Hlog _ _ Hs) Hj) as Hid.
  unfold WorkerAck_append. rewrite Hid. destruct (lineage_of s) as [[corr caus] trace] eqn:Hl.
  destruct (wrap_events id (job_version j) corr caus trace evs w) as [envs w1] eqn:Hwrap.
  rewrite (st_bind_run _ _ _ _ _ (st_total_run _ _ _ _ Hwrap)).
  destruct (record_locked w w id s j evs j' envs w1) as (w' & Happ & Hp' & Hext & _ & Hre & _);
    [done..|by rewrite Hl|].
  exists w'. split_and!; [|by apply Hext|done]. apply locked_run; [|exact Happ|done].
  apply wrap_events_store in Hwrap as (-> & _). done.
Qed.

(** ** Leases in the index *)

Lemma pending_unleased j seq e :
  (∃ nb, job_state j = S_Pending nb) ∨ (∃ r, job_state j = S_Parked r) →
  projection j seq = Some e → entry_lease e = None.
Proof. unfold projection. intros [[nb ->]|[r ->]]; [by intros [= <-]|done]. Qed.

Lemma expired_lease now e : expired now e = true → ∃ ls, entry_lease e = Some ls ∧ ls_expires_at ls ≤ now.
Proof. unfold expired. destruct (entry_lease e); [|done]. intros ?%Z.leb_le. eauto. Qed.

(** Every lease in the index belongs to a job whose retry can be scheduled. *)
Definition all_retirable now i : Prop := ∀ id e ls s j,
  index i !! id = Some e → entry_lease e = Some ls → streams i !! id = Some s →
  from_events s = Ok j → retirable now s j.

(** What a retirement does. *)
Definition retired w w' now id : Prop :=
  ∃ e ls s j second j', index (mem_inner w) !! id = Some e ∧ entry_lease e = Some ls ∧
    ls_expires_at ls ≤ now ∧ streams (mem_inner w) !! id = Some s ∧ from_events s = Ok j ∧
    extends w w' id s [E_LeaseExpired (ls_lease ls); second] j' ∧ reindexed (mem_inner w) (mem_inner w') id j' ∧
    rescheduled now second j j'.

Lemma retire_one_cases w :
  mem_healthy w → let now := now_of w in all_retirable now (mem_inner w) →
  (∃ w', retire_one w = (Ok None, w') ∧ mem_store w' = mem_store w ∧
     mem_clock w' = snd (clock_now (mem_clock w)) ∧
     ∀ id e, index (mem_inner w) !! id = Some e → expired now e = false) ∨
  (∃ id w', retire_one w = (Ok (Some id), w') ∧ first_expired now (index (mem_inner w)) id ∧
     retired w w' now id ∧ mem_clock w' = snd (clock_now (snd (clock_now (mem_clock w))))).
Proof.
  intros [Hp Hw]. unfold now_of. destruct (clock_now (mem_clock w)) as [now c] eqn:Hc. simpl.
  intros Hall. pose proof (retire_from_spec now (map_to_list (index (mem_inner w))) _ (reflexivity _)) as Hr.
  destruct (retire_from now _) as [id|] eqn:Hrf; [right|left].
  - pose proof Hr as (e & He & (ls & Hl & Hle)%expired_lease & _).
    destruct (leased_held _ _ _ _ Hw He Hl) as (s & j & t & Hs & Hj & Hh).
    destruct (jitter_seed (mem_ids w)) as [seed g] eqn:Hg.
    destruct (retire_locked_expires w id e ls s j now c seed g t)
      as (second & j' & w' & Hrun & Hext & Hre & Hst & Hclk); [done..|by eapply Hall|].
    exists id, w'. rewrite (retire_one_run _ _ _ Hp Hrun). split_and!; [done|exact Hr| |done].
    by exists e, ls, s, j, second, j'.
  - eexists. rewrite (retire_one_run w (Ok None) (set_mem_clock c w)); [by eauto|done|].
    unfold retire_locked. st_unfold. cbn. rewrite Hc. cbn.
    change (mem_inner (set_mem_clock c w)) with (mem_inner w). by rewrite Hrf.
Qed.

(** ** Theorems *)

(** C11: A claim hands out the job that is first in dispatch order and records a
    lease until [now + ttl] on its stream, or hands out nothing and changes
    nothing exactly when no entry of the queue is claimable. On a sound store
    it cannot fail: the index never disagrees with the log. *)
Theorem claim_leases_first_claimable w q worker ttl δ :
  mem_healthy w → seq_ok (mem_inner w) →
  TimeDelta_from_std ttl = Some δ → is_Some (checked_add_signed (now_of w) δ) →
  (∀ id s, streams (mem_inner w) !! id = Some s → Z.of_nat (length s) + 1 ≤ U64_MAX) →
  let now := now_of w in
  (∃ w', claim q worker ttl w = (Ok None, w') ∧ mem_store w' = mem_store w ∧
     ∀ id e, index (mem_inner w) !! id = Some e → claimable q now e = false) ∨
  (∃ lj w' s j j', let id := leased_job_id lj in
     claim q worker ttl w = (Ok (Some lj), w') ∧ first_claimable q now (index (mem_inner w)) id ∧
     streams (mem_inner w) !! id = Some s ∧ from_events s = Ok j ∧
     leased_queue lj = q ∧ leased_payload lj = job_payload j ∧ leased_attempt lj = job_attempt j ∧
     leased_expires_at lj = now + ttl ∧
     extends w w' id s [E_Leased worker (leased_lease lj) (now + ttl)] j' ∧
     job_state j' = S_Leased worker (leased_lease lj) (now + ttl) ∧ reindexed (mem_inner w) (mem_inner w') id j').
Proof.
  intros [Hp Hw] (_ & _ & Hseq) Hd Ht Hroom now.
  destruct (clock_now (mem_clock w)) as [t c] eqn:Hc.
  assert (now = t) as -> by (unfold now, now_of; by rewrite Hc).
  rewrite (claim_run _ _ _ _ _ _ Hc).
  pose proof (pick_from_spec q t (map_to_list (index (mem_inner w))) _ (reflexivity _) Hseq) as Hpick.
  fold (pick_eligible (mem_inner w) q t) in Hpick.
  destruct (pick_eligible (mem_inner w) q t) as [id|] eqn:Hpe; [right|left].
  - pose proof Hpick as (e & He & Hcl & _).
    destruct (claimable_pending w q t id e Hw He Hcl) as (s & j & Hs & Hj & Hq & Hst & Hel).
    unfold now_of in Ht. rewrite Hc in Ht.
    destruct (claim_locked_grants (set_mem_clock c w) q worker ttl t id s j
      (entry_not_before e) δ)
      as (w' & j' & Hrun & Hext & Hst' & Hre & _); [done..|by eapply Hroom|].
    eexists _, w', s, j, j'. cbn zeta.
    rewrite (st_map_err_run _ _ _ _ _ (locked_run _ (set_mem_clock c w) _ _ Hp Hrun ltac:(done))).
    split_and!; [done|exact Hpick|done..|exact Hext|exact Hst'|exact Hre].
  - eexists. split; [|split; [|exact Hpick]].
    + apply st_map_err_run, locked_run; [done| |done]. unfold claim_locked. st_unfold.
      change (mem_inner (set_mem_clock c w)) with (mem_inner w). by rewrite Hpe.
    + done.
Qed.
End dispatch_facts.
