(* ===== verification/MemSweep.v ===== *)
(** * Heartbeats and the sweep on the in-memory dispatcher

    A heartbeat moves the deadline of a live lease and nothing else; the
    sweep terminates, retires exactly the leases whose deadline has passed
    and leaves none behind; the mutex serialises the two, so the earlier
    critical section fences the later one. The last part shows how an append
    re-derives the index and with it the deadline of a held lease. *)

From S2P Require Import Prelude Std Ids Retry Events Job Lifecycle Commands Ports UseCases Contract.
From S2P Require Import UseCaseFacts MemStore MemDispatcher MemFacts MemSelect MemDispatchFacts.

Open Scope string_scope.
Open Scope list_scope.
Open Scope Z_scope.

Section sweep.
Context `{ext : Externals} {G C : Type} `{!IdGenerator G, !Clock C}.
Local Abbreviation World := (MemWorld G C).
Implicit Types (w : World) (i : Inner) (j : Job) (id : JobId) (s : list EventEnvelope).

(** ** Specification *)

Definition is_leased (e : DispatchEntry) : bool :=
  match entry_lease e with
  | Some _ => true
  | None => false
  end.

(** The entries that hold a lease: the sweep's measure. *)
Definition leased_entries i : gmap JobId DispatchEntry :=
  base.filter (λ x : JobId * DispatchEntry, is_leased x.2 = true) (index i).

(** ** Lemmas *)

Lemma rescheduled_unleased now second j j' :
  rescheduled now second j j' → (∃ nb, job_state j' = S_Pending nb) ∨ (∃ r, job_state j' = S_Parked r).
Proof. unfold rescheduled. case_decide; naive_solver. Qed.

(** A retired job has no lease in the index, the others are as before. *)
Lemma retired_index w w' now id :
  retired w w' now id →
  (∀ e, index (mem_inner w') !! id = Some e → entry_lease e = None) ∧
  (∀ id', id' ≠ id → index (mem_inner w') !! id' = index (mem_inner w) !! id').
Proof.
  intros (e & ls & s & j & second & j' & He & Hl & Hle & Hs & Hj & Hext & Hre & Hst). split.
  - intros e'. rewrite (proj1 Hre), decide_True by done. eapply pending_unleased.
    by eapply rescheduled_unleased.
  - intros id' Hne. by rewrite (proj1 Hre), decide_False.
Qed.

Lemma retired_streams w w' now id :
  retired w w' now id → mem_healthy w' ∧
  ∀ id', id' ≠ id → streams (mem_inner w') !! id' = streams (mem_inner w) !! id'.
Proof.
  intros (e & ls & s & j & second & j' & He & Hl & Hle & Hs & Hj & Hext & Hre & Hst).
  destruct Hext as (envs & Hlog & Hw' & _). split; [exact Hw'|].
  intros id' Hne. simpl in Hlog. rewrite Hlog. by rewrite lookup_insert_ne.
Qed.

Lemma retired_measure w w' now id :
  retired w w' now id →
  size (leased_entries (mem_inner w)) = S (size (leased_entries (mem_inner w'))).
Proof.
  intros Hr. pose proof (retired_index _ _ _ _ Hr) as [Hid Hne].
  destruct Hr as (e & ls & s & j & second & j' & He & Hl & _).
  assert (leased_entries (mem_inner w') = delete id (leased_entries (mem_inner w))) as ->.
  { apply map_eq. intros id'. apply option_eq. intros e'. unfold leased_entries.
    rewrite map_lookup_filter_Some. destruct (decide (id' = id)) as [->|Hd].
    - rewrite lookup_delete_eq. split; [|done]. intros [H' Hx]. apply Hid in H'.
      unfold is_leased in Hx. simpl in Hx. by rewrite H' in Hx.
    - by rewrite lookup_delete_ne, map_lookup_filter_Some, Hne. }
  assert (leased_entries (mem_inner w) !! id = Some e) as Hin.
  { apply map_lookup_filter_Some. split; [done|]. unfold is_leased. simpl. by rewrite Hl. }
  rewrite map_size_delete_Some by eauto.
  destruct (size (leased_entries (mem_inner w))) eqn:Hz; [|done].
  apply map_size_empty_inv in Hz. rewrite Hz in Hin. by apply lookup_empty_Some in Hin.
Qed.

Lemma retired_retirable w w' now id t :
  retired w w' now id → all_retirable t (mem_inner w) → all_retirable t (mem_inner w').
Proof.
  intros Hr Hall id' e ls s j He Hl Hs Hj.
  pose proof (retired_index _ _ _ _ Hr) as [Hid Hne].
  pose proof (retired_streams _ _ _ _ Hr) as [_ Hst].
  destruct (decide (id' = id)) as [->|Hd].
  - apply Hid in He. congruence.
  - rewrite Hne in He by done. rewrite Hst in Hs by done. by eapply Hall.
Qed.

(** ** The sweep *)

Section termination.
(** The clock states the sweep can meet. *)
Context (good : C → Prop).
Hypothesis good_next : ∀ c, good c → good (snd (clock_now c)).

Lemma sweep_loop_finishes fuel n w :
  mem_healthy w → good (mem_clock w) →
  (∀ c, good c → all_retirable (fst (clock_now c)) (mem_inner w)) →
  (size (leased_entries (mem_inner w)) < fuel)%nat →
  ∃ k w' c, sweep_loop fuel (wrap 32 n) w = (Ok (Some (wrap 32 (n + k))), w') ∧
    mem_healthy w' ∧ good c ∧
    k = Z.of_nat (size (leased_entries (mem_inner w)))
        - Z.of_nat (size (leased_entries (mem_inner w'))) ∧
    (∀ id e, index (mem_inner w') !! id = Some e → expired (fst (clock_now c)) e = false) ∧
    ∀ id e, index (mem_inner w) !! id = Some e → is_leased e = true →
      index (mem_inner w') !! id = Some e ∨
      ∃ w1 w2 c', good c' ∧ retired w1 w2 (fst (clock_now c')) id ∧
        index (mem_inner w1) !! id = Some e.
Proof.
  revert n w. induction fuel as [|fuel IH]; intros n w Hw Hg Hall Hfuel; [lia|]. simpl.
  destruct (retire_one_cases w Hw (Hall _ Hg)) as
    [(w' & Hrun & Hst & Hclk & Hnone)|(id & w1 & Hrun & Hfirst & Hret & Hclk)].
  - exists 0, w', (mem_clock w). rewrite (st_bind_run _ _ _ _ _ (st_map_err_run _ _ _ _ _ Hrun)).
    assert (mem_inner w' = mem_inner w) as Hi by (unfold mem_inner; by rewrite Hst).
    rewrite Hi, Z.add_0_r. split_and!; [done| |done|lia|exact Hnone|by eauto].
    unfold mem_healthy. rewrite Hi, Hst. apply Hw.
  - pose proof (retired_streams _ _ _ _ Hret) as [Hw1 _].
    pose proof (retired_measure _ _ _ _ Hret) as Hm.
    destruct (IH (n + 1) w1) as (k & w' & c & Hloop & Hw' & Hgc & Hk & Hnone & Hkept).
    { done. } { rewrite Hclk. auto. } { intros c' Hc'. by eapply retired_retirable; [|apply Hall]. }
    { lia. }
    exists (1 + k), w', c. rewrite (st_bind_run _ _ _ _ _ (st_map_err_run _ _ _ _ _ Hrun)).
    assert (u32_add (wrap 32 n) 1 = wrap 32 (n + 1)) as ->
      by (unfold u32_add, wrap; by rewrite Z.add_mod_idemp_l by lia).
    rewrite Hloop, Z.add_assoc. split_and!; [done..|lia|done|].
    intros id' e He Hl. destruct (decide (id' = id)) as [->|Hne].
    + right. exists w, w1, (mem_clock w). done.
    + pose proof (retired_index _ _ _ _ Hret) as [_ Hsame]. rewrite <-Hsame in He by done. auto.
Qed.
End termination.

(** ** Leases and sections *)

Lemma leased_entries_bound i : (size (leased_entries i) ≤ size (index i))%nat.
Proof. apply map_subseteq_size, map_filter_subseteq. Qed.

Lemma retire_one_picks w id w' :
  retire_one w = (Ok (Some id), w') →
  retire_from (now_of w) (map_to_list (index (mem_inner w))) = Some id.
Proof.
  unfold retire_one, locked, retire_locked, now_of. st_unfold. cbn.
  destruct (poisoned (mem_store w)); [done|]. destruct (clock_now (mem_clock w)) as [now c]. cbn.
  change (mem_inner (set_mem_clock c w)) with (mem_inner w).
  destruct (retire_from now _) as [id'|]; [|done]. intros H. f_equal.
  repeat (case_match; simplify_eq/=; try done).
Qed.

Lemma live_with_deadline deadline id w lease now :
  live lease now (index (mem_inner w)) id →
  ∃ e ls, index (mem_inner (with_deadline deadline id w)) !! id = Some e ∧
    entry_lease e = Some ls ∧ ls_lease ls = lease ∧ ls_expires_at ls = deadline.
Proof.
  intros (e & ls & He & Hl & Heq & _). unfold with_deadline. simpl.
  rewrite lookup_alter_eq, He. simpl. eexists _, _. split; [done|]. simpl. rewrite Hl. done.
Qed.

(** A poisoned store refuses every critical section and keeps its state. *)
Lemma locked_poisoned {T} (f : ST World EventStoreError T) w :
  poisoned (mem_store w) = true → locked f w = (Err (Store_Backend "store mutex poisoned"), w).
Proof. unfold locked. by intros ->. Qed.

(** ** Theorems *)

(** C28: A heartbeat on a lease that is in the index with its deadline ahead is
    accepted and moves that deadline to [now + ttl]; on any other lease it is
    refused and the store is untouched. It never writes to the log and never
    touches another entry or another field. *)
Theorem heartbeat_moves_live_deadline w lease ttl δ :
  mem_healthy w → leases_differ (index (mem_inner w)) →
  TimeDelta_from_std ttl = Some δ → is_Some (checked_add_signed (now_of w) δ) →
  ∃ w', mem_healthy w' ∧ streams (mem_inner w') = streams (mem_inner w) ∧
  ((∃ id, mem_extend_lease lease ttl w = (Ok true, w') ∧
      live lease (now_of w) (index (mem_inner w)) id ∧
      index (mem_inner w') = alter (set_deadline (now_of w + ttl)) id (index (mem_inner w))) ∨
   (mem_extend_lease lease ttl w = (Ok false, w') ∧
      (∀ id, ¬ live lease (now_of w) (index (mem_inner w)) id) ∧ mem_store w' = mem_store w)).
Proof.
  intros [Hp Hw] Hd Hδ [t Ht]. unfold now_of in *.
  destruct (clock_now (mem_clock w)) as [now c] eqn:Hc. simpl in *.
  pose proof (extend_from_spec now lease (map_to_list (index (mem_inner w))) _ (reflexivity _) Hd) as Hs.
  pose proof (extend_run w lease ttl now c δ t Hp Hc Hδ Ht) as Hrun.
  assert (t = now + ttl) as -> by (rewrite (checked_add_exact _ _ _ Ht); by rewrite (from_std_exact _ _ Hδ)).
  destruct (extend_from now lease _) as [[] [id|]]; [|done|done|]; rewrite Hrun.
  - eexists. split; [|split; [|left; exists id; split; [done|by split]]]; [|done].
    split; [done|]. by apply with_deadline_sound.
  - eexists. split; [|split; [|right; done]]; [|done]. by split.
Qed.

(** An accepted heartbeat fences the sweep: as long as nothing else touches
    the store, no retirement before the new deadline takes the job. *)
Theorem heartbeat_fences_retirement w lease ttl δ w1 :
  poisoned (mem_store w) = false → leases_differ (index (mem_inner w)) →
  TimeDelta_from_std ttl = Some δ → is_Some (checked_add_signed (now_of w) δ) →
  mem_extend_lease lease ttl w = (Ok true, w1) →
  ∃ id, live lease (now_of w) (index (mem_inner w)) id ∧
    ∀ w2 w3 id', mem_store w2 = mem_store w1 → now_of w2 < now_of w + ttl →
      retire_one w2 = (Ok (Some id'), w3) → id' ≠ id.
Proof.
  intros Hp Hd Hδ [t Ht] Hrun. unfold now_of in Ht. destruct (clock_now (mem_clock w)) as [now c] eqn:Hc.
  assert (now_of w = now) as Hnow by (unfold now_of; by rewrite Hc). rewrite Hnow. clear Hnow. simpl in *.
  pose proof (extend_from_spec now lease (map_to_list (index (mem_inner w))) _ (reflexivity _) Hd) as Hs.
  rewrite (extend_run w lease ttl now c δ t) in Hrun by done.
  assert (t = now + ttl) as -> by (rewrite (checked_add_exact _ _ _ Ht); by rewrite (from_std_exact _ _ Hδ)).
  destruct (extend_from now lease _) as [[] [id|]]; try done. simplify_eq/=. exists id. split; [done|].
  intros w2 w3 id' Hst Hlt Hr%retire_one_picks ->.
  pose proof (retire_from_spec (now_of w2) (map_to_list (index (mem_inner w2))) _ (reflexivity _)) as Hf.
  rewrite Hr in Hf. destruct Hf as (e & He & (ls & Hl & Hle)%expired_lease & _).
  destruct (live_with_deadline (now + ttl) id (set_mem_clock c w) lease now Hs)
    as (e' & ls' & He' & Hl' & _ & Hdl).
  unfold mem_inner in He, He'. rewrite Hst in He.
  assert (Some e = Some e') by (rewrite <-He; exact He'). simplify_eq. lia.
Qed.

(** A retirement fences the heartbeat: once a job has been retired under a
    lease, a heartbeat on that lease is refused and changes nothing, whatever
    the clock says. *)
Theorem retirement_fences_heartbeat w id w1 ttl δ :
  mem_healthy w → leases_differ (index (mem_inner w)) → all_retirable (now_of w) (mem_inner w) →
  retire_one w = (Ok (Some id), w1) →
  ∃ e ls, index (mem_inner w) !! id = Some e ∧ entry_lease e = Some ls ∧
    ls_expires_at ls ≤ now_of w ∧
    ∀ w2, mem_store w2 = mem_store w1 →
      TimeDelta_from_std ttl = Some δ → is_Some (checked_add_signed (now_of w2) δ) →
      ∃ w3, mem_extend_lease (ls_lease ls) ttl w2 = (Ok false, w3) ∧ mem_store w3 = mem_store w2.
Proof.
  intros Hw Hd Hall Hrun.
  destruct (retire_one_cases w Hw Hall) as [(? & ? & _)|(id' & w' & Hrun' & _ & Hret & _)]; [congruence|].
  rewrite Hrun in Hrun'. simplify_eq. pose proof (retired_index _ _ _ _ Hret) as [Hid Hne].
  pose proof (retired_streams _ _ _ _ Hret) as [[Hp1 _] _].
  destruct Hret as (e & ls & s & j & second & j' & He & Hl & Hle & _).
  exists e, ls. split_and!; [done..|]. intros w2 Hst Hδ [t Ht]. unfold now_of in Ht.
  destruct (clock_now (mem_clock w2)) as [now c] eqn:Hc. simpl in Ht.
  assert (Hi : mem_inner w2 = mem_inner w') by (unfold mem_inner; by rewrite Hst).
  rewrite (extend_run w2 _ ttl now c δ t) by (done || by rewrite Hst).
  pose proof (extend_from_sound now (ls_lease ls) (map_to_list (index (mem_inner w2)))) as Hs.
  assert (Hno : ∀ id' e' ls', (id', e') ∈ map_to_list (index (mem_inner w2)) →
    entry_lease e' = Some ls' → ls_lease ls' ≠ ls_lease ls).
  { intros id2 e' ls' Hin Hl' Heq. rewrite Hi in Hin. apply elem_of_map_to_list in Hin.
    destruct (decide (id2 = id')) as [->|Hd'].
    - apply Hid in Hin. congruence.
    - rewrite Hne in Hin by done. apply Hd'. by eapply (Hd id2 id' e' e ls' ls). }
  destruct (extend_from now _ _) as [[] [id2|]]; [|done|done|eauto].
  destruct Hs as (e' & ls' & Hin & Hl' & Heq & _). by destruct (Hno _ _ _ Hin Hl' Heq).
Qed.

(** C12: The sweep returns: with fuel for one more round than there are leases in
    the index it ends, answers the number of leases it retired (as a [u32]),
    and leaves no entry that is expired at the last reading of the clock. A
    lease it did not retire is untouched, and one it did retire had expired
    at a reading the sweep made. *)
Theorem sweep_retires_all_expired (good : C → Prop) w fuel :
  (∀ c, good c → good (snd (clock_now c))) → mem_healthy w → good (mem_clock w) →
  (∀ c, good c → all_retirable (fst (clock_now c)) (mem_inner w)) →
  (size (index (mem_inner w)) < fuel)%nat →
  ∃ k w' c, SweepExpiredLeases_execute fuel w = (Ok (Some (wrap 32 k)), w') ∧
    mem_healthy w' ∧ good c ∧
    k = Z.of_nat (size (leased_entries (mem_inner w)))
        - Z.of_nat (size (leased_entries (mem_inner w'))) ∧
    (∀ id e, index (mem_inner w') !! id = Some e → expired (fst (clock_now c)) e = false) ∧
    ∀ id e, index (mem_inner w) !! id = Some e → is_leased e = true →
      index (mem_inner w') !! id = Some e ∨
      ∃ w1 w2 c', good c' ∧ retired w1 w2 (fst (clock_now c')) id ∧
        index (mem_inner w1) !! id = Some e.
Proof.
  intros Hgood Hw Hg Hall Hfuel. pose proof (leased_entries_bound (mem_inner w)).
  destruct (sweep_loop_finishes good Hgood fuel 0 w Hw Hg Hall) as (k & w' & c & Hrun & H'); [lia|].
  exists k, w', c. split; [exact Hrun|exact H'].
Qed.

(** C30: Recording a start re-derives the index entry from the log and with it
    the deadline: whatever extension the heartbeats of the lease had won is
    lost, and between the recorded and the extended deadline the lease counts
    as expired again. *)
Theorem start_forgets_heartbeats w id s j worker l t e ls :
  mem_healthy w → streams (mem_inner w) !! id = Some s → from_events s = Ok j →
  job_state j = S_Leased worker l t → Z.of_nat (length s) + 1 ≤ U64_MAX →
  index (mem_inner w) !! id = Some e → entry_lease e = Some ls →
  ∃ w' e', WorkerAck_start id worker w = (Ok tt, w') ∧
    index (mem_inner w') !! id = Some e' ∧
    entry_lease e' = Some {| ls_lease := l; ls_worker := worker; ls_expires_at := t |} ∧
    ∀ now, t ≤ now < ls_expires_at ls → expired now e = false ∧ expired now e' = true.
Proof.
  intros Hw Hs Hj Hst Hlen He Hl.
  destruct (apply_one_to (E_Started worker) j (S_Running worker l t)) as (j' & Ha & Hst');
    [rewrite Hst; constructor|].
  destruct (ack_append_reindexed w id s j [E_Started worker] j' Hw Hs Hj Ha) as (w' & Happ & _ & Hre);
    [done|].
  exists w'. destruct Hre as [Hre _]. specialize (Hre id). rewrite decide_True in Hre by done.
  unfold projection in Hre. rewrite Hst' in Hre. eexists. split; [|split; [exact Hre|]].
  - unfold WorkerAck_start.
    rewrite (st_bind_run _ _ _ _ _ (load_fold_spec (EventStoreContract0:=mem_EventStoreContract) w id s j Hw Hs Hj)).
    unfold start. rewrite Hst, bool_decide_true by done. unfold st_bind at 1, st_lift. simpl.
    by rewrite (st_bind_run _ _ _ _ _ (st_map_err_run _ _ _ _ _ Happ)).
  - split; [done|]. intros now Hnow. unfold expired. simpl. rewrite Hl. zb; split; (done || lia).
Qed.

(** C31: A lease whose deadline is not a date panics inside the critical section
    of the claim: the store is left as it was but poisoned, and from then on
    every append, load, claim, heartbeat and retirement fails. *)
Theorem unrepresentable_deadline_poisons w q worker ttl δ id :
  mem_healthy w → pick_eligible (mem_inner w) q (now_of w) = Some id →
  seq_ok (mem_inner w) → TimeDelta_from_std ttl = Some δ → checked_add_signed (now_of w) δ = None →
  ∃ w', claim q worker ttl w = (Panic, w') ∧ mem_inner w' = mem_inner w ∧
    let refused := Store_Backend "store mutex poisoned" in
    ∀ id' v envs q' worker' ttl' l, ∃ w1,
      store_append id' v envs w' = (Err refused, w') ∧ store_load id' w' = (Err refused, w') ∧
      claim q' worker' ttl' w' = (Err (Dispatch_Store refused), w1) ∧
      mem_extend_lease l ttl' w' = (Err (Dispatch_Store refused), w') ∧
      retire_one w' = (Err (Dispatch_Store refused), w') ∧ mem_store w1 = mem_store w'.
Proof.
  intros [Hp Hw] Hpick (_ & _ & Hseq) Hδ Ht. unfold now_of in *.
  destruct (clock_now (mem_clock w)) as [now c] eqn:Hc. simpl in *.
  pose proof (pick_from_spec q now (map_to_list (index (mem_inner w))) _ (reflexivity _) Hseq) as Hf.
  fold (pick_eligible (mem_inner w) q now) in Hf. rewrite Hpick in Hf.
  destruct Hf as (e & He & Hcl & _).
  destruct (claimable_pending w q now id e Hw He Hcl) as (s & j & Hs & Hj & Hq & Hst & Hel).
  destruct (gen_lease_id (mem_ids w)) as [l g] eqn:Hg.
  assert (Hrun : claim_locked q worker ttl now (set_mem_clock c w)
    = (Panic, set_mem_ids g (set_mem_clock c w))).
  { unfold claim_locked. st_unfold. change (mem_inner (set_mem_clock c w)) with (mem_inner w).
    rewrite Hpick, Hs. cbn. rewrite Hj. cbn. rewrite Hg. cbn.
    unfold lease. rewrite Hst, Hel, Hδ. cbn. by rewrite Ht. }
  exists (poison (set_mem_ids g (set_mem_clock c w))). split_and!; [|done|].
  - rewrite (claim_run _ _ _ _ _ _ Hc). unfold st_map_err, locked. simpl. by rewrite Hp, Hrun.
  - intros id' v envs q' worker' ttl' l'.
    set (w' := poison _).
    destruct (clock_now (mem_clock w')) as [now' c'] eqn:Hc'. exists (set_mem_clock c' w').
    split_and!; [by apply locked_poisoned|by apply locked_poisoned| | | |done].
    + rewrite (claim_run _ _ _ _ _ _ Hc'). apply st_map_err_err. by apply locked_poisoned.
    + unfold mem_extend_lease. apply st_bind_err, st_map_err_err. by apply locked_poisoned.
    + unfold retire_one. apply st_bind_err, st_map_err_err. by apply locked_poisoned.
Qed.
End sweep.
