(* ===== verification/MemSystem.v ===== *)
(** * The in-memory adapters as an instance of the system

    The dispatcher of [koine-store-memory] satisfies the dispatcher's
    contract, so every theorem of [System] holds of a broker assembled from
    the in-memory adapters, with any clock and any id source. Besides, the
    sequence numbers that order dispatch stay distinct along every run. *)

From S2P Require Import Prelude Std Ids Retry Events Job Lifecycle Commands Ports UseCases Contract.
From S2P Require Import UseCaseFacts System MemStore MemDispatcher MemFacts MemSelect MemDispatchFacts MemSweep.

Open Scope string_scope.
Open Scope list_scope.
Open Scope Z_scope.

Section mem_system.
Context `{ext : Externals} {G C : Type} `{!IdGenerator G, !Clock C}.
Local Abbreviation World := (MemWorld G C).
Implicit Types (w : World) (id : JobId) (s : list EventEnvelope) (j : Job).

(** ** Lemmas: every outcome of a section *)

Lemma extends_log_step w w' id s j c evs j' :
  streams (mem_inner w) !! id = Some s → from_events s = Ok j → exec c j = Ok evs →
  extends w w' id s evs j' → log_step (streams (mem_inner w)) (streams (mem_inner w')).
Proof.
  intros Hs Hj Hc (envs & Hlog & _ & Hev & Hf & Hwr). simpl in Hlog. rewrite Hlog.
  eapply log_command; [done..| |done]. destruct (lineage_of s) as [[corr caus] trace].
  by eapply wrapped_stream_ids.
Qed.

(** The section of a claim either appends a lease or leaves the store. *)
Lemma claim_locked_outcomes w q wk ttl now r w' :
  mem_healthy w → (∀ id s, streams (mem_inner w) !! id = Some s → Z.of_nat (length s) + 1 ≤ U64_MAX) →
  claim_locked q wk ttl now w = (r, w') →
  mem_store w' = mem_store w ∨
  (mem_healthy w' ∧ r ≠ Panic ∧ ∃ id s j l evs j', streams (mem_inner w) !! id = Some s ∧
     from_events s = Ok j ∧ exec (C_Lease wk l now ttl) j = Ok evs ∧ extends w w' id s evs j' ∧
     reindexed (mem_inner w) (mem_inner w') id j').
Proof.
  intros [Hp Hw] Hroom Hrun. destruct (pick_eligible (mem_inner w) q now) as [id|] eqn:Hpick.
  - destruct (pick_from_claimable q now _ _ _ (reflexivity _) Hpick) as (e & He & Hcl).
    destruct (claimable_pending w q now id e Hw He Hcl) as (s & j & Hs & Hj & Hq & Hst & Hel).
    destruct (gen_lease_id (mem_ids w)) as [l g] eqn:Hg.
    assert (Hl : ∀ l, lease j wk l now ttl =
      let? δ := ok_or (TimeDelta_from_std ttl) InvalidTtl in
      let? t := or_panic (checked_add_signed now δ) in Ok (E_Leased wk l t)).
    { intros l'. unfold lease. by rewrite Hst, Hel. }
    destruct (TimeDelta_from_std ttl) as [δ|] eqn:Hδ;
      [destruct (checked_add_signed now δ) as [t|] eqn:Ht|].
    2, 3: left; revert Hrun; unfold claim_locked; st_unfold; rewrite Hpick, Hs; cbn; rewrite Hj; cbn;
      rewrite Hg; cbn; rewrite Hl; cbn; rewrite ?Ht; cbn; by intros [= _ <-].
    right. destruct (claim_locked_grants w q wk ttl now id s j _ δ Hw Hp Hpick Hs Hj Hst Hel Hδ)
      as (w2 & j' & Hrun' & Hext & Hst' & Hre & _); [by eauto|by eapply Hroom|].
    rewrite Hrun in Hrun'. simplify_eq. rewrite Hg in Hext. simpl in Hext.
    pose proof Hext as (envs & _ & Hw2 & _). split_and!; [exact Hw2|done|].
    exists id, s, j, l. do 2 eexists. split_and!; [done|done| |exact Hext|exact Hre].
    unfold exec. rewrite Hl. simpl. rewrite Ht. simpl.
    by rewrite (checked_add_exact _ _ _ Ht), (from_std_exact _ _ Hδ).
  - left. revert Hrun. unfold claim_locked. st_unfold. rewrite Hpick. by intros [= _ <-].
Qed.

(** The section of a retirement either appends an expiry or leaves the
    store, and never panics. *)
Lemma retire_locked_outcomes w r w' :
  mem_healthy w → (∀ id s, streams (mem_inner w) !! id = Some s → Z.of_nat (length s) + 2 ≤ U64_MAX) →
  retire_locked w = (r, w') →
  r ≠ Panic ∧
  (mem_store w' = mem_store w ∨
   (mem_healthy w' ∧ ∃ id s j now seed evs j', streams (mem_inner w) !! id = Some s ∧
     from_events s = Ok j ∧ exec (C_Expire now seed) j = Ok evs ∧ extends w w' id s evs j' ∧
     reindexed (mem_inner w) (mem_inner w') id j')).
Proof.
  intros [Hp Hw] Hroom. unfold retire_locked. st_unfold. cbn.
  destruct (clock_now (mem_clock w)) as [now c] eqn:Hc. cbn.
  change (mem_inner (set_mem_clock c w)) with (mem_inner w).
  pose proof (retire_from_spec now (map_to_list (index (mem_inner w))) _ (reflexivity _)) as Hr.
  destruct (retire_from now _) as [id|] eqn:Hrf; [|intros [= <- <-]; auto].
  destruct Hr as (e & He & (ls & Hl & Hle)%expired_lease & _).
  destruct (leased_held _ _ _ _ Hw He Hl) as (s & j & t & Hs & Hj & Hh).
  rewrite Hs. cbn. rewrite Hj. cbn. destruct (jitter_seed (mem_ids w)) as [seed g] eqn:Hg. cbn.
  pose proof (expire_no_panic j now seed) as Hnp.
  destruct (expire_lease j now seed) as [evs|err|] eqn:Hexp; [|intros [= <- <-]; auto|done].
  destruct (exec_outcome (C_Expire now seed) j evs Hexp) as (j' & Ha & Hlen & _).
  destruct (lineage_of s) as [[corr caus] trace] eqn:Hlin.
  destruct (wrap_events id (job_version j) corr caus trace evs _) as [envs w1] eqn:Hwrap.
  destruct (record_locked w (set_mem_ids g (set_mem_clock c w)) id s j _ _ envs w1 Hw eq_refl Hs Hj Ha)
    as (w2 & Happ & Hp' & Hext & Hev & Hre & _); [rewrite Hlen; by eapply Hroom|by rewrite Hlin|].
  rewrite Happ. intros [= <- <-]. split; [done|right]. specialize (Hext Hp).
  pose proof Hext as (? & _ & Hw2 & _). split; [exact Hw2|]. by exists id, s, j, now, seed, evs, j'.
Qed.

(** A heartbeat moves at most one deadline. *)
Lemma extend_locked_outcomes w l ttl r w' :
  mem_healthy w → extend_locked l ttl w = (r, w') →
  mem_store w' = mem_store w ∨
  (r ≠ Panic ∧ ∃ id c deadline, w' = with_deadline deadline id (set_mem_clock c w)).
Proof.
  intros [Hp Hw]. unfold extend_locked. st_unfold. cbn.
  destruct (clock_now (mem_clock w)) as [now c]. cbn.
  destruct (TimeDelta_from_std ttl) as [δ|]; [|by intros [= _ <-]; left].
  destruct (checked_add_signed now δ) as [t|]; cbn; [|by intros [= _ <-]; left].
  destruct (extend_from _ _ _) as [b [id|]]; intros [= <- <-]; [right|by left].
  split; [done|]. by exists id, c, t.
Qed.

(** Running a section in the shared state: what the section did, or a
    poisoned store. *)
Lemma locked_outcomes {T} (f : ST World EventStoreError T) w r w' :
  poisoned (mem_store w) = false → locked f w = (r, w') →
  ∃ w1, f w = (r, w1) ∧ (r ≠ Panic → w' = w1) ∧ (r = Panic → w' = poison w1).
Proof.
  intros Hp. unfold locked. rewrite Hp. destruct (f w) as [[] w1]; intros [= <- <-];
    exists w1; by split_and!.
Qed.

Lemma store_same_healthy w w' : mem_store w' = mem_store w → mem_healthy w → mem_healthy w'.
Proof. unfold mem_healthy, mem_inner. by intros ->. Qed.

Lemma store_same_streams w w' :
  mem_store w' = mem_store w → streams (mem_inner w') = streams (mem_inner w).
Proof. unfold mem_inner. by intros ->. Qed.

Lemma section_streams {T} (r : result T EventStoreError) w w1 w' :
  (r ≠ Panic → w' = w1) → (r = Panic → w' = poison w1) → mem_store w1 = mem_store w →
  streams (mem_inner w') = streams (mem_inner w).
Proof.
  intros Hok Hpanic <-%store_same_streams.
  destruct r; [by rewrite Hok|by rewrite Hok|by rewrite Hpanic].
Qed.

#[export] Instance mem_DispatcherContract : DispatcherContract World.
Proof.
  split; simpl.
  - intros w q wk ttl r w' Hw Hroom Hrun.
    destruct (clock_now (mem_clock w)) as [now c] eqn:Hc. rewrite (claim_run _ _ _ _ _ _ Hc) in Hrun.
    unfold st_map_err in Hrun.
    destruct (locked (claim_locked q wk ttl now) (set_mem_clock c w)) as [r0 w0] eqn:Hl. simplify_eq.
    destruct (locked_outcomes _ (set_mem_clock c w) _ _ (proj1 Hw) Hl) as (w1 & Hrun & Hok & Hpanic).
    eapply claim_locked_outcomes in Hrun as [Hst|(Hw1 & Hnp & id & s & j & l & evs & j' & Hs & Hj & Hx & Hext & _)];
      [..|exact Hw|exact Hroom].
    + split.
      * rewrite (section_streams r0 (set_mem_clock c w) w1 w') by done. constructor.
      * intros Hnp. rewrite Hok by (by destruct r0). by eapply store_same_healthy.
    + rewrite Hok by done. split; [|done]. by eapply (extends_log_step (set_mem_clock c w)).
  - intros w l ttl r w' Hw Hrun. unfold mem_extend_lease, st_bind, st_map_err, st_lift in Hrun.
    destruct (locked (extend_locked l ttl) w) as [r0 w0] eqn:Hl.
    destruct (locked_outcomes _ _ _ _ (proj1 Hw) Hl) as (w1 & Hrun1 & Hok & Hpanic).
    apply extend_locked_outcomes in Hrun1 as [Hst|(Hnp & id & c & t & ->)]; [..|done].
    + pose proof (section_streams r0 w w1 w0 Hok Hpanic Hst) as Hs.
      destruct r0 as [r0|e|]; simpl in Hrun; simplify_eq; split; try done;
        intros _; rewrite Hok by done; by eapply store_same_healthy.
    + rewrite Hok in Hrun by done. destruct r0 as [r0|e|]; [..|done]; simpl in Hrun; simplify_eq;
        (split; [done|intros _]); (split; [apply Hw|]); by apply with_deadline_sound, Hw.
  - intros w r w' Hw Hroom Hrun. unfold retire_one, st_bind, st_map_err, st_lift in Hrun.
    destruct (locked retire_locked w) as [r0 w0] eqn:Hl.
    destruct (locked_outcomes _ _ _ _ (proj1 Hw) Hl) as (w1 & Hrun1 & Hok & _).
    eapply retire_locked_outcomes in Hrun1 as [Hnp Hcase]; [|exact Hw|exact Hroom].
    specialize (Hok Hnp) as ->. assert (w' = w1) as -> by (destruct r0; by simplify_eq/=).
    destruct Hcase as [Hst|(Hw1 & id & s & j & now & seed & evs & j' & Hs & Hj & Hx & Hext & _)].
    + rewrite (store_same_streams _ _ Hst). split; [constructor|]. intros _.
      by eapply store_same_healthy.
    + split; [|done]. by eapply (extends_log_step w).
Qed.

(** ** The dispatch order along a run *)

(** What one port call may do to the index and its counter. *)
Inductive index_step (i i' : Inner) : Prop :=
| index_same : index i' = index i → inner_seq i' = inner_seq i → index_step i i'
| index_append id j : reindexed i i' id j → index_step i i'
| index_deadline id t : index i' = alter (set_deadline t) id (index i) → inner_seq i' = inner_seq i →
    index_step i i'.

Lemma store_same_index w w' : mem_store w' = mem_store w → index_step (mem_inner w) (mem_inner w').
Proof. unfold mem_inner. intros ->. by apply index_same. Qed.

Lemma index_step_seq i i' :
  index_step i i' → seq_ok i → inner_seq i < U64_MAX → seq_ok i' ∧ inner_seq i' ≤ inner_seq i + 1.
Proof.
  intros [Hi Hq|id j Hre|id t Hi Hq] Hs Hmax; [|by eapply reindexed_seq_ok|];
    unfold seq_ok in *; rewrite Hq; (split; [|lia]); [by rewrite Hi|].
  assert (Hat : ∀ id' e, index i' !! id' = Some e →
    ∃ e0, index i !! id' = Some e0 ∧ entry_seq e = entry_seq e0).
  { intros id' e. rewrite Hi. destruct (decide (id = id')) as [->|Hne];
      [rewrite lookup_alter_eq|rewrite lookup_alter_ne by done; eauto].
    destruct (index i !! id') as [e0|]; intros [= <-]. eauto. }
  destruct Hs as (H0 & Hr & Hinj). split_and!; [done|..].
  - intros id' e (e0 & He0 & ->)%Hat. by eapply Hr.
  - intros id1 id2 e1 e2 (e1' & H1 & ->)%Hat (e2' & H2 & ->)%Hat. by eapply Hinj.
Qed.

Lemma mem_append_index w id v envs r w' :
  mem_healthy w → InMemory_append id v envs w = (r, w') →
  index_step (mem_inner w) (mem_inner w').
Proof.
  intros Hw Hrun.
  destruct (mem_append_cases w id v envs Hw) as [(Ha & j & Hj & Happ)|(_ & e & Happ & _)];
    rewrite Hrun in Happ; simplify_eq; [|by apply store_same_index].
  apply (index_append _ _ id j). apply appended_reindexed.
  destruct (from_events_id _ _ Hj) as (env & Hh & ->).
  destruct (streams (mem_inner w) !! id) as [[|env0 s]|] eqn:Hs; simpl in Hh; [|simplify_eq|].
  - apply (proj1 (proj2 Hw)) in Hs as (_ & _ & ? & ?). done.
  - apply (proj1 (proj2 Hw)) in Hs as (_ & [? _]%Forall_cons & _). done.
  - destruct Ha as (_ & _ & Hids & _). destruct envs; simplify_eq/=.
    by apply Forall_cons in Hids as [? _].
Qed.

Lemma ack_append_index w j s evs r w' :
  mem_healthy w → WorkerAck_append j s evs w = (r, w') → index_step (mem_inner w) (mem_inner w').
Proof.
  intros Hw. unfold WorkerAck_append. destruct (lineage_of s) as [[corr caus] trace].
  destruct (wrap_events (job_id j) (job_version j) corr caus trace evs w) as [envs w1] eqn:Hwrap.
  rewrite (st_bind_run _ _ _ _ _ (st_total_run _ _ _ _ Hwrap)).
  apply wrap_events_store in Hwrap as (Hst & _).
  assert (mem_inner w = mem_inner w1) as -> by (unfold mem_inner; by rewrite Hst).
  apply mem_append_index. by eapply store_same_healthy.
Qed.

Lemma enqueue_index w cmd r w' :
  mem_healthy w → EnqueueJob_execute cmd w = (r, w') → index_step (mem_inner w) (mem_inner w').
Proof.
  intros Hw. unfold EnqueueJob_execute, correlation_or_fresh. unfold st_bind at 1, st_lift at 1.
  destruct (validate_policy _); [|by intros [= _ <-]; apply store_same_index..].
  unfold st_bind, st_total, st_map_err, st_ret. cbn. destruct (gen_job_id (mem_ids w)) as [id g].
  match goal with |- context [match ?o with Some c => (c, ?x) | None => ?y end] =>
    destruct (match o with Some c => (c, x) | None => y end) as [corr w2] eqn:E2 end.
  assert (Hst : mem_store w2 = mem_store w).
  { revert E2. destruct (lineage_correlation_id _); [by intros [= _ <-]|]. cbn.
    destruct (gen_correlation_id _). by intros [= _ <-]. }
  match goal with |- context [wrap_events ?a ?b ?c ?d ?e ?f] =>
    destruct (wrap_events a b c d e f w2) as [envs w3] eqn:E3 end.
  apply wrap_events_store in E3 as (Hst3 & _).
  assert (mem_inner w = mem_inner w3) as -> by (unfold mem_inner; by rewrite Hst3, Hst).
  destruct (InMemory_append id 0 envs w3) as [r3 w4] eqn:Happ. intros H.
  assert (w' = w4) as -> by (destruct r3; by simplify_eq/=).
  eapply mem_append_index; [|exact Happ]. eapply store_same_healthy; [|exact Hw]. congruence.
Qed.

Lemma section_index {T} (r : result T EventStoreError) w w1 w' :
  (r ≠ Panic → w' = w1) → (r = Panic → w' = poison w1) →
  index_step (mem_inner w) (mem_inner w1) → index_step (mem_inner w) (mem_inner w').
Proof. intros Hok Hpanic H. destruct r; [by rewrite Hok|by rewrite Hok|by rewrite Hpanic]. Qed.

Lemma lease_index w q wk ttl r w' :
  mem_healthy w → (∀ id s, streams (mem_inner w) !! id = Some s → Z.of_nat (length s) + 1 ≤ U64_MAX) →
  claim q wk ttl w = (r, w') → index_step (mem_inner w) (mem_inner w').
Proof.
  intros Hw Hroom Hrun. destruct (clock_now (mem_clock w)) as [now c] eqn:Hc.
  rewrite (claim_run _ _ _ _ _ _ Hc) in Hrun. unfold st_map_err in Hrun.
  destruct (locked _ _) as [r0 w0] eqn:Hl. simplify_eq.
  destruct (locked_outcomes _ (set_mem_clock c w) _ _ (proj1 Hw) Hl) as (w1 & Hrun & Hok & Hpanic).
  eapply (section_index r0); [done..|].
  eapply claim_locked_outcomes in Hrun as [Hst|(_ & _ & id & s & j & l & evs & j' & _ & _ & _ & _ & Hre)];
    [by apply (store_same_index (set_mem_clock c w))|by eapply index_append|done|done].
Qed.

Lemma heartbeat_index w l ttl r w' :
  mem_healthy w → mem_extend_lease l ttl w = (r, w') → index_step (mem_inner w) (mem_inner w').
Proof.
  intros Hw. unfold mem_extend_lease, st_bind, st_map_err, st_lift.
  destruct (locked (extend_locked l ttl) w) as [r0 w0] eqn:Hl. intros Hrun.
  assert (w' = w0) as -> by (destruct r0; by simplify_eq/=).
  destruct (locked_outcomes _ _ _ _ (proj1 Hw) Hl) as (w1 & Hrun1 & Hok & Hpanic).
  eapply (section_index r0); [done..|].
  apply extend_locked_outcomes in Hrun1 as [Hst|(_ & id & c & t & ->)]; [by apply store_same_index| |done].
  by apply (index_deadline _ _ id t).
Qed.

Lemma retire_index w r w' :
  mem_healthy w → (∀ id s, streams (mem_inner w) !! id = Some s → Z.of_nat (length s) + 2 ≤ U64_MAX) →
  retire_one w = (r, w') → index_step (mem_inner w) (mem_inner w').
Proof.
  intros Hw Hroom. unfold retire_one, st_bind, st_map_err, st_lift.
  destruct (locked retire_locked w) as [r0 w0] eqn:Hl. intros Hrun.
  assert (w' = w0) as -> by (destruct r0; by simplify_eq/=).
  destruct (locked_outcomes _ _ _ _ (proj1 Hw) Hl) as (w1 & Hrun1 & Hok & Hpanic).
  eapply (section_index r0); [done..|].
  eapply retire_locked_outcomes in Hrun1
    as [_ [Hst|(_ & id & s & j & now & seed & evs & j' & _ & _ & _ & _ & Hre)]];
    [by apply store_same_index|by eapply index_append|done|done].
Qed.

Lemma sys_step_index n (σ σ' : Sys (W:=World)) :
  sys_inv n σ → 0 ≤ n → 2 * n + 2 ≤ U64_MAX → sys_step σ σ' →
  index_step (mem_inner (sys_world σ)) (mem_inner (sys_world σ')).
Proof.
  intros [Hw _ Hl _] Hn Hmax Hs.
  assert (Hroom : ∀ m, m ≤ 2 → ∀ id s, streams (mem_inner (sys_world σ)) !! id = Some s →
    Z.of_nat (length s) + m ≤ U64_MAX) by (intros m ? id s ?%Hl; lia).
  destruct Hs as [w sn cmd r w' Hp Hrun Hr|w sn id s w' Hrun|w sn id s j c evs r w' Hin Hj Hc Hrun Hr
    |w sn q wk ttl r w' Hrun Hr|w sn l ttl r w' Hrun Hr|w sn r w' Hrun Hr|w sn w' Hq]; simpl in *.
  - by eapply enqueue_index.
  - pose proof (load_spec (W:=World) w id Hw) as Hload. simpl in Hload. rewrite Hrun in Hload.
    simplify_eq. by apply store_same_index.
  - by eapply ack_append_index.
  - eapply lease_index; [done|by apply Hroom|done].
  - by eapply heartbeat_index.
  - eapply retire_index; [done|by apply Hroom|done].
  - by apply store_same_index.
Qed.

Lemma mem_initial (σ : Sys (W:=World)) :
  mem_store (sys_world σ) = InMemoryEventStore_new → sys_snapshots σ = [] → initial σ.
Proof.
  intros Hst Hsn. unfold initial. simpl. unfold mem_healthy, mem_inner. rewrite Hst.
  by split_and!.
Qed.

Lemma runs_seq n (σ σ' : Sys (W:=World)) :
  runs n σ σ' → sys_inv 0 σ → 2 * Z.of_nat n ≤ U64_MAX →
  seq_ok (mem_inner (sys_world σ)) → inner_seq (mem_inner (sys_world σ)) = 0 →
  seq_ok (mem_inner (sys_world σ')) ∧ inner_seq (mem_inner (sys_world σ')) ≤ Z.of_nat n.
Proof.
  induction 1 as [σ|n σ σ1 σ2 Hr IH Hs]; intros Hinv Hmax Hseq H0; [split; [done|lia]|].
  destruct IH as [Hseq1 Hle]; [done|lia|done|done|].
  pose proof (runs_inv 0 _ _ _ Hr Hinv ltac:(lia)) as Hinv1. simpl in Hinv1.
  destruct (index_step_seq (mem_inner (sys_world σ1)) (mem_inner (sys_world σ2))); [|done|lia|split; [done|lia]].
  eapply (sys_step_index (Z.of_nat n)); [apply Hinv1; lia|lia|lia|done].
Qed.

(** ** Theorems *)

(** On every run from an empty store the sequence numbers of the index are
    distinct and bounded by the counter, and the index is the projection of
    the log up to heartbeats: dispatch order is well defined in every state
    the in-memory broker can reach. *)
Theorem dispatch_order_well_defined n (σ σ' : Sys (W:=World)) :
  mem_store (sys_world σ) = InMemoryEventStore_new → sys_snapshots σ = [] → runs n σ σ' →
  2 * Z.of_nat n ≤ U64_MAX →
  seq_ok (mem_inner (sys_world σ')) ∧ sound (mem_inner (sys_world σ')) ∧
  poisoned (mem_store (sys_world σ')) = false.
Proof.
  intros Hst Hsn Hr Hmax. pose proof (initial_inv _ (mem_initial _ Hst Hsn)) as Hinv.
  destruct (runs_seq n σ σ') as [? _]; [done..| | |].
  - unfold mem_inner. rewrite Hst. split_and!; [done|by intros ? ?..].
  - unfold mem_inner. by rewrite Hst.
  - pose proof (inv_healthy _ _ (runs_inv 0 _ _ _ Hr Hinv ltac:(lia) ltac:(simpl; lia))) as [Hp Hw].
    by split_and!.
Qed.
End mem_system.
