(* ===== verification/Grpc.v ===== *)
(** * The gRPC data plane ([koine-grpc/src/auth.rs], [service.rs])

    Authentication, the validation and clamping of requests, and the handlers
    of [WorkerService] over the use cases; the task behind a fetch stream is
    in [Stream]. The messages are those of [koine-proto/proto/koine/v1/worker.proto];
    metadata, UUID parsing and JSON text belong to other crates and are
    parameters. *)

From S2P Require Import Prelude Std Ids Retry Events Job Lifecycle Commands Ports UseCases.

Open Scope string_scope.
Open Scope list_scope.
Open Scope Z_scope.

(** ** tonic::Status *)

Inductive Code : Type :=
| Unauthenticated
| InvalidArgument
| FailedPrecondition
| NotFound
| Internal
| Unavailable.

Record Status : Type := Status_new {
  status_code : Code;
  status_message : string;
}.

(** ** What the service uses of other crates *)

Class Wire `{ext : Externals} : Type := {
  MetadataMap : Type;
  (** [metadata.get(name).and_then(|v| v.to_str().ok())] *)
  metadata_str : MetadataMap → string → option string;
  (** [uuid::Uuid::parse_str] *)
  Uuid_parse_str : string → option Uuid;
  (** [serde_json::from_str] and [serde_json::to_string] on [Value] *)
  json_from_str : string → option Value;
  json_to_string : Value → option string;
  (** What [Display] of a UUID writes, [parse_str] reads. *)
  parse_display : ∀ u, Uuid_parse_str (Uuid_to_string u) = Some u;
}.

(** [str::strip_prefix] *)
Fixpoint strip_prefix (prefix s : string) : option string :=
  match prefix, s with
  | EmptyString, _ => Some s
  | String a prefix, String b s => if Ascii.eqb a b then strip_prefix prefix s else None
  | String _ _, EmptyString => None
  end.

(** [subtle::ConstantTimeEq] on byte strings: 1 exactly when they are equal. *)
Definition ct_eq (a b : string) : bool := bool_decide (bytes a = bytes b).

(** ** Messages *)

Record FetchRequest : Type := FetchRequest_mk {
  fetch_queue : string;
  fetch_lease_ttl_ms : Z;
}.

Record v1_LeasedJob : Type := v1_LeasedJob_mk {
  msg_job_id : string;
  msg_queue : string;
  msg_payload_json : string;
  msg_attempt : Z;
  msg_lease_id : string;
  msg_expires_at_unix_ms : Z;
  msg_correlation_id : string;
  msg_traceparent : option string;
}.

Record StartRequest : Type := StartRequest_mk { start_job_id : string }.

Record SucceedRequest : Type := SucceedRequest_mk {
  succeed_job_id : string;
  succeed_lease_id : string;
  succeed_result_json : option string;
}.

(** The wire's [JobError] has the fields of the domain's. *)
Record FailRequest : Type := FailRequest_mk {
  fail_job_id : string;
  fail_lease_id : string;
  fail_error : option JobError;
}.

Record HeartbeatRequest : Type := HeartbeatRequest_mk {
  heartbeat_lease_id : string;
  heartbeat_ttl_ms : Z;
}.

(** [v1::AckOutcome as i32] *)
Definition ACK_OUTCOME_RECORDED : Z := 1.

Definition ACK_OUTCOME_CONFLICT : Z := 2.

Record GrpcConfig : Type := GrpcConfig_mk {
  token : string;
  max_lease_ttl : Duration;
  idle_poll : Duration;
}.

(** ** auth.rs *)

Section wire.
Context `{ext : Externals} {wire : Wire}.

Definition unauthenticated : Status := Status_new Unauthenticated "invalid credentials".

Definition check (metadata : MetadataMap) (expected_token : string) : result WorkerId Status :=
  if str_is_empty expected_token then Err unauthenticated
  else
    let? auth := ok_or (metadata_str metadata "authorization") unauthenticated in
    let? presented := ok_or (strip_prefix "Bearer " auth) unauthenticated in
    let token_ok := (str_len presented =? str_len expected_token) && ct_eq presented expected_token in
    if negb token_ok then Err unauthenticated
    else
      let? worker := ok_or (metadata_str metadata "koine-worker-id") unauthenticated in
      map_err (λ _, unauthenticated) (WorkerId_new worker).

(** ** service.rs: helpers *)

Definition clamp_lease_ttl (requested_ms : Z) (max : Duration) : result Duration Status :=
  if requested_ms =? 0
  then Err (Status_new InvalidArgument "lease_ttl_ms must be greater than zero")
  else Ok (Z.min (Duration_from_millis requested_ms) max).

Definition parse_uuid (field raw : string) : result Uuid Status :=
  ok_or (Uuid_parse_str raw) (Status_new InvalidArgument ("invalid " +:+ field)).

Definition map_ack_error (err : AckError) : Status :=
  match err with
  | Ack_Domain _ =>
      Status_new FailedPrecondition "job state no longer permits this operation; refetch"
  | Ack_Store (StreamNotFound _) => Status_new NotFound "job not found"
  | Ack_Store _ => Status_new Internal "store error"
  end.

Definition to_proto_outcome (outcome : AckOutcome) : Z :=
  match outcome with
  | Recorded => ACK_OUTCOME_RECORDED
  | Conflict => ACK_OUTCOME_CONFLICT
  end.

(** [DateTime::timestamp_millis] *)
Definition timestamp_millis (t : DateTime) : Z := t / 1000000.

Definition leased_job_to_proto (job : LeasedJob) : result v1_LeasedJob Status :=
  let? payload_json := ok_or (json_to_string (leased_payload job))
    (Status_new Internal "payload encode") in
  Ok {| msg_job_id := Uuid_to_string (JobId_as_uuid (leased_job_id job));
        msg_queue := QueueName_as_str (leased_queue job);
        msg_payload_json := payload_json;
        msg_attempt := leased_attempt job;
        msg_lease_id := Uuid_to_string (LeaseId_as_uuid (leased_lease job));
        msg_expires_at_unix_ms := timestamp_millis (leased_expires_at job);
        msg_correlation_id := Uuid_to_string (CorrelationId_as_uuid (leased_correlation_id job));
        msg_traceparent := leased_traceparent job |}.

(** [raw.map(serde_json::from_str).transpose()] *)
Definition parse_result (raw : option string) : result (option Value) Status :=
  match raw with
  | None => Ok None
  | Some raw =>
      let? v := ok_or (json_from_str raw) (Status_new InvalidArgument "malformed result_json") in
      Ok (Some v)
  end.

(** ** service.rs: handlers *)

Section handlers.
Context {W : Type}
  `{!EventStore W, !Dispatcher W, !IdGenerator W, !Clock W, !WorkerPresence W} (config : GrpcConfig).

(** The part of [fetch] before the task is spawned. *)
Definition WorkerApi_fetch (metadata : MetadataMap) (req : FetchRequest)
    : ST W Status (QueueName * WorkerId * Duration) :=
  let! worker := st_lift (check metadata (token config)) in
  let! queue := st_lift (map_err (λ e, Status_new InvalidArgument (DomainError_to_string e))
    (QueueName_new (fetch_queue req))) in
  let! ttl := st_lift (clamp_lease_ttl (fetch_lease_ttl_ms req) (max_lease_ttl config)) in
  let! _ := st_modify (presence_seen worker (Some queue)) in
  st_ret (queue, worker, ttl).

Definition WorkerApi_start (metadata : MetadataMap) (req : StartRequest) : ST W Status unit :=
  let! worker := st_lift (check metadata (token config)) in
  let! id := st_lift (parse_uuid "job_id" (start_job_id req)) in
  let! _ := st_modify (presence_seen worker None) in
  st_map_err map_ack_error (WorkerAck_start (JobId_new id) worker).

Definition WorkerApi_succeed (metadata : MetadataMap) (req : SucceedRequest) : ST W Status Z :=
  let! worker := st_lift (check metadata (token config)) in
  let! id := st_lift (parse_uuid "job_id" (succeed_job_id req)) in
  let! lease := st_lift (parse_uuid "lease_id" (succeed_lease_id req)) in
  let! res := st_lift (parse_result (succeed_result_json req)) in
  let! outcome := st_map_err map_ack_error
    (WorkerAck_succeed (JobId_new id) worker (LeaseId_new lease) res) in
  st_ret (to_proto_outcome outcome).

Definition WorkerApi_fail (metadata : MetadataMap) (req : FailRequest) : ST W Status Z :=
  let! worker := st_lift (check metadata (token config)) in
  let! id := st_lift (parse_uuid "job_id" (fail_job_id req)) in
  let! lease := st_lift (parse_uuid "lease_id" (fail_lease_id req)) in
  let! error := st_lift (ok_or (fail_error req) (Status_new InvalidArgument "error is required")) in
  let! outcome := st_map_err map_ack_error
    (WorkerAck_fail (JobId_new id) worker (LeaseId_new lease) error) in
  st_ret (to_proto_outcome outcome).

Definition WorkerApi_heartbeat (metadata : MetadataMap) (req : HeartbeatRequest) : ST W Status bool :=
  let! _ := st_lift (check metadata (token config)) in
  let! lease := st_lift (parse_uuid "lease_id" (heartbeat_lease_id req)) in
  let! ttl := st_lift (clamp_lease_ttl (heartbeat_ttl_ms req) (max_lease_ttl config)) in
  st_map_err (λ e, Status_new Internal ("dispatch: " +:+ DispatchError_to_string e))
    (Heartbeat_execute (LeaseId_new lease) ttl).

End handlers.
End wire.
