(* ===== verification/GrpcFacts.v ===== *)
(** * Correctness of the gRPC data plane

    Who is let in, what a refused request leaves behind, what an
    authenticated report is answered, and that the identifiers of a fetched
    job lead back to it. *)

From S2P Require Import Prelude Std Ids Retry Events Job Lifecycle Commands Ports UseCases Contract.
From S2P Require Import UseCaseFacts System MemStore MemDispatcher MemFacts MemSelect MemDispatchFacts.
From S2P Require Import MemSweep MemSystem Grpc.

Open Scope string_scope.
Open Scope list_scope.
Open Scope Z_scope.

(** ** Lemmas on strings *)

Lemma strip_prefix_spec p s r : strip_prefix p s = Some r ↔ s = p +:+ r.
Proof.
  revert s. induction p as [|a p IH]; intros s; simpl; [naive_solver|].
  destruct s as [|b s]; [by split|]. destruct (Ascii.eqb_spec a b) as [->|Hne].
  - rewrite IH. split; [by intros ->|by intros [= ->]].
  - split; [done|by intros [= ->]].
Qed.

Lemma byte_inj a b : byte a = byte b → a = b.
Proof.
  unfold byte. intros H%N2Z.inj. by rewrite <-(ascii_N_embedding a), H, ascii_N_embedding.
Qed.

Lemma bytes_inj a b : bytes a = bytes b → a = b.
Proof.
  revert b. induction a as [|x a IH]; intros [|y b]; simpl; try done.
  intros [= ->%byte_inj ->%IH]. done.
Qed.

Lemma WorkerId_new_no_panic s : WorkerId_new s ≠ Panic.
Proof. unfold WorkerId_new. by repeat case_match. Qed.

Section grpc_facts.
Context `{ext : Externals} {wire : Wire}.

(** The outcome of [check], decided. *)
Lemma check_cases metadata tok :
  (∃ worker s, check metadata tok = Ok worker ∧ tok ≠ "" ∧
     metadata_str metadata "authorization" = Some ("Bearer " +:+ tok) ∧
     metadata_str metadata "koine-worker-id" = Some s ∧ WorkerId_new s = Ok worker) ∨
  (check metadata tok = Err unauthenticated ∧
   ¬ (tok ≠ "" ∧ metadata_str metadata "authorization" = Some ("Bearer " +:+ tok) ∧
      ∃ s worker, metadata_str metadata "koine-worker-id" = Some s ∧ WorkerId_new s = Ok worker)).
Proof.
  unfold check. destruct (str_is_empty tok) eqn:He.
  { apply str_is_empty_spec in He as ->. right. naive_solver. }
  assert (tok ≠ "") as Hne by (intros ->; done).
  destruct (metadata_str metadata "authorization") as [auth|]; cbn [result_bind ok_or];
    [|right; naive_solver].
  destruct (strip_prefix "Bearer " auth) as [presented|] eqn:Hp; cbn [result_bind ok_or].
  - apply strip_prefix_spec in Hp as ->.
    destruct (decide (presented = tok)) as [->|Hd].
    + rewrite Z.eqb_refl. unfold ct_eq. rewrite bool_decide_true by done. cbn [andb negb].
      destruct (metadata_str metadata "koine-worker-id") as [s|]; cbn [result_bind ok_or];
        [|right; naive_solver].
      pose proof (WorkerId_new_no_panic s) as Hnp.
      destruct (WorkerId_new s) as [worker|e|] eqn:Hw; simpl; [left; naive_solver|right|done].
      split; [done|]. intros (_ & _ & s' & worker & Hs & Hw').
      apply (inj Some) in Hs as <-. congruence.
    + right. assert (ct_eq presented tok = false) as ->.
      { apply bool_decide_eq_false. intros H. by apply Hd, bytes_inj. }
      rewrite andb_false_r. cbn [negb]. split; [done|]. intros (_ & Heq & _). apply Hd.
      by injection Heq.
  - right. split; [done|]. intros (_ & Heq & _). apply (inj Some) in Heq as ->.
    by rewrite (proj2 (strip_prefix_spec "Bearer " ("Bearer " +:+ tok) tok)) in Hp.
Qed.

Lemma clamp_ok ms max t :
  clamp_lease_ttl ms max = Ok t → ms ≠ 0 ∧ t = Z.min (Duration_from_millis ms) max.
Proof. unfold clamp_lease_ttl. destruct (Z.eqb_spec ms 0); naive_solver. Qed.

Lemma parse_uuid_display field u : parse_uuid field (Uuid_to_string u) = Ok u.
Proof. unfold parse_uuid. by rewrite parse_display. Qed.

(** ** Theorems *)

(** C37: A caller is let in exactly with the configured, non-empty token after
    [Bearer ] and a valid worker id; everyone else gets the one answer
    [UNAUTHENTICATED: invalid credentials], whatever was wrong. *)
Theorem check_spec metadata tok :
  (∀ worker, check metadata tok = Ok worker ↔
     tok ≠ "" ∧ metadata_str metadata "authorization" = Some ("Bearer " +:+ tok) ∧
     ∃ s, metadata_str metadata "koine-worker-id" = Some s ∧ WorkerId_new s = Ok worker) ∧
  (is_ok (check metadata tok) = false → check metadata tok = Err unauthenticated).
Proof.
  destruct (check_cases metadata tok) as [(wk & s & Hc & H1 & H2 & H3 & H4)|(Hc & Hn)]; rewrite Hc.
  - split; [|done]. intros worker. split.
    + intros [= <-]. eauto 6.
    + intros (_ & _ & s' & Hs' & Hw'). rewrite H3 in Hs'. apply (inj Some) in Hs' as <-. congruence.
  - split; [|done]. intros worker. split; [done|]. intros (? & ? & s & ? & ?). destruct Hn. eauto 6.
Qed.

Section contract_handlers.
Context {W : Type} `{!EventStore W, !Dispatcher W, !IdGenerator W, !Clock W, !WorkerPresence W}.
Context `{!EventStoreContract W}.

(** A request that is not let in is answered with the refusal and leaves the
    whole state as it was, on every method of the service. *)
Theorem refused_leaves_no_trace config metadata st (w : W) fr sr cr xr hr :
  check metadata (token config) = Err st →
  WorkerApi_fetch config metadata fr w = (Err st, w) ∧
  WorkerApi_start config metadata sr w = (Err st, w) ∧
  WorkerApi_succeed config metadata cr w = (Err st, w) ∧
  WorkerApi_fail config metadata xr w = (Err st, w) ∧
  WorkerApi_heartbeat config metadata hr w = (Err st, w).
Proof.
  intros Hc. unfold WorkerApi_fetch, WorkerApi_start, WorkerApi_succeed, WorkerApi_fail,
    WorkerApi_heartbeat. st_unfold. by rewrite Hc.
Qed.

(** The result that a report carries. *)
Definition carries (raw : option string) (res : option Value) : Prop :=
  match raw, res with
  | None, None => True
  | Some s, Some v => json_from_str s = Some v
  | _, _ => False
  end.

Lemma carries_parsed raw res : carries raw res → parse_result raw = Ok res.
Proof. destruct raw, res; simpl; try done. by intros ->. Qed.

(** C38: A worker that echoes the identifiers of a job it fetched reaches that job
    under that lease, with the result it sends or without one: the answer
    tells whether the success is recorded with its result, kept as a late
    report, or the job is unknown. A result that is not JSON is refused and
    leaves nothing behind. *)
Theorem echoed_success_reaches_job config metadata worker (w : W) lj msg raw :
  check metadata (token config) = Ok worker → leased_job_to_proto lj = Ok msg → healthy w →
  let id := leased_job_id lj in
  let req := SucceedRequest_mk (msg_job_id msg) (msg_lease_id msg) raw in
  (∀ s, raw = Some s → json_from_str s = None →
    WorkerApi_succeed config metadata req w = (Err (Status_new InvalidArgument "malformed result_json"), w)) ∧
  ∀ res, carries raw res → storable (E_Succeeded res) →
    storable (E_LateAckConflict worker (leased_lease lj) Reported_Succeeded) →
    match log_of w !! id with
    | None => WorkerApi_succeed config metadata req w = (Err (Status_new NotFound "job not found"), w)
    | Some s => room 1 s → ∀ j, from_events s = Ok j →
        ∃ w' j', if runs_under (leased_lease lj) j
          then WorkerApi_succeed config metadata req w = (Ok ACK_OUTCOME_RECORDED, w') ∧
               extends w w' id s [E_Succeeded res] j' ∧ job_state j' = S_Succeeded
          else WorkerApi_succeed config metadata req w = (Ok ACK_OUTCOME_CONFLICT, w') ∧
               extends w w' id s
                 [E_LateAckConflict worker (leased_lease lj) Reported_Succeeded] j' ∧
               job_state j' = job_state j
    end.
Proof.
  intros Hc Hm Hw. cbv zeta.
  assert (msg_job_id msg = Uuid_to_string (JobId_as_uuid (leased_job_id lj)) ∧
    msg_lease_id msg = Uuid_to_string (LeaseId_as_uuid (leased_lease lj))) as [Hid Hl].
  { revert Hm. unfold leased_job_to_proto. destruct (json_to_string _); [|done]. by intros [= <-]. }
  assert (Hrun : WorkerApi_succeed config metadata
      (SucceedRequest_mk (msg_job_id msg) (msg_lease_id msg) raw) w
    = (let! res := st_lift (parse_result raw) in
       let! outcome := st_map_err map_ack_error
         (WorkerAck_succeed (leased_job_id lj) worker (leased_lease lj) res) in
       st_ret (to_proto_outcome outcome)) w).
  { unfold WorkerApi_succeed. st_unfold. simpl. rewrite Hc, Hid, Hl, !parse_uuid_display.
    by destruct (leased_job_id lj), (leased_lease lj). }
  rewrite Hrun. clear Hrun. split; [intros s -> Hs; st_unfold; simpl; by rewrite Hs|].
  intros res Hres%carries_parsed Hst1 Hst2. rewrite (st_bind_run _ _ w _ _ (f_equal (λ r, (r, w)) Hres)).
  destruct (log_of w !! leased_job_id lj) as [s|] eqn:Hs.
  - intros Hr j Hj.
    destruct (ack_succeed_spec w (leased_job_id lj) s j worker (leased_lease lj) res Hw Hs Hj Hr
      Hst1 Hst2) as (w' & j' & Hcase & _).
    exists w', j'. destruct (runs_under _ j); destruct Hcase as [Hack ?];
      rewrite (st_bind_run _ _ _ _ _ (st_map_err_run _ _ _ _ _ Hack)); by split.
  - apply st_bind_err. unfold WorkerAck_succeed.
    by rewrite (st_map_err_err _ _ _ _ _ (st_bind_err _ _ _ _ _ (load_missing w _ Hw Hs))).
Qed.
End contract_handlers.

End grpc_facts.
