(* ===== verification/Stream.v ===== *)
(** * The stream behind a fetch ([koine-grpc/src/service.rs], [fetch])

    The task that [fetch] spawns, its channel of sixteen messages and the
    reader at the other end, as a machine whose turns interleave with
    everything else. The channel belongs to tokio and is a class with its
    documented behaviour. *)

From S2P Require Import Prelude Std Ids Retry Events Job Lifecycle Commands Ports UseCases Grpc.

Open Scope string_scope.
Open Scope list_scope.
Open Scope Z_scope.

(** ** [tokio::sync::mpsc] *)

Definition Message : Type := result v1_LeasedJob Status.

(** What a poll of [Sender::send] meets. *)
Inductive SendAnswer : Type :=
| Sent
| Full
| Gone.

Class Mpsc (Ch : Type) : Type := {
  mpsc_channel : nat → Ch;
  mpsc_send : Message → Ch → SendAnswer * Ch;
  mpsc_recv : Ch → option Message * Ch;
  (** The receiver is dropped. *)
  mpsc_hangup : Ch → Ch;
  queued : Ch → list Message;
  room : Ch → nat;
  gone : Ch → bool;
  channel_empty n : queued (mpsc_channel n) = [] ∧ room (mpsc_channel n) = n ∧ gone (mpsc_channel n) = false;
  send_gone m c : gone c = true → mpsc_send m c = (Gone, c);
  send_full m c : gone c = false → (room c ≤ length (queued c))%nat → mpsc_send m c = (Full, c);
  send_room m c : gone c = false → (length (queued c) < room c)%nat →
    ∃ c', mpsc_send m c = (Sent, c') ∧ queued c' = queued c ++ [m] ∧ room c' = room c ∧ gone c' = false;
  recv_empty c : queued c = [] → mpsc_recv c = (None, c);
  recv_first c m ms : queued c = m :: ms →
    ∃ c', mpsc_recv c = (Some m, c') ∧ queued c' = ms ∧ room c' = room c ∧ gone c' = gone c;
  hangup_gone c : gone (mpsc_hangup c) = true ∧ queued (mpsc_hangup c) = [] ∧ room (mpsc_hangup c) = room c;
}.

(** ** The task *)

(** Where the task stands: before a claim; before a send, and whether it
    breaks after it; in the [select!]; or past its loop. *)
Inductive TaskState : Type :=
| Claiming
| Sending (m : Message) (breaks : bool)
| Waiting
| Ended.

Section stream.
Context `{ext : Externals} {wire : Wire} {Ch : Type} `{!Mpsc Ch}.

Record Stream : Type := Stream_mk {
  st_queue : QueueName;
  st_worker : WorkerId;
  st_ttl : Duration;
  st_task : TaskState;
  st_chan : Ch;
  (** What the channel took, what was read from it, and which jobs the task
      leased. *)
  st_sent : list Message;
  st_read : list Message;
  st_claimed : list LeasedJob;
}.

(** The stream that [fetch] returns, once the request is accepted. *)
Definition fetch_open (accepted : QueueName * WorkerId * Duration) : Stream :=
  let '(queue, worker, ttl) := accepted in
  {| st_queue := queue; st_worker := worker; st_ttl := ttl; st_task := Claiming;
     st_chan := mpsc_channel 16; st_sent := []; st_read := []; st_claimed := [] |}.

Definition set_task (t : TaskState) (s : Stream) : Stream :=
  Stream_mk (st_queue s) (st_worker s) (st_ttl s) t (st_chan s) (st_sent s) (st_read s) (st_claimed s).

Definition set_chan (c : Ch) (s : Stream) : Stream :=
  Stream_mk (st_queue s) (st_worker s) (st_ttl s) (st_task s) c (st_sent s) (st_read s) (st_claimed s).

Definition note_claim (job : LeasedJob) (s : Stream) : Stream :=
  Stream_mk (st_queue s) (st_worker s) (st_ttl s) (st_task s) (st_chan s) (st_sent s) (st_read s) (st_claimed s ++ [job]).

Definition note_sent (m : Message) (s : Stream) : Stream :=
  Stream_mk (st_queue s) (st_worker s) (st_ttl s) (st_task s) (st_chan s) (st_sent s ++ [m]) (st_read s) (st_claimed s).

Definition note_read (m : Message) (s : Stream) : Stream :=
  Stream_mk (st_queue s) (st_worker s) (st_ttl s) (st_task s) (st_chan s) (st_sent s) (st_read s ++ [m]) (st_claimed s).

Section task.
Context {W : Type} `{!Dispatcher W}.

(** What the task does with a claimed job. *)
Definition to_send (job : LeasedJob) : TaskState :=
  match leased_job_to_proto job with
  | Ok message => Sending (Ok message) false
  | Err status => Sending (Err status) true
  | Panic => Ended
  end.

(** The task runs to its next [await]. *)
Definition task_turn (s : Stream) (w : W) : Stream * W :=
  match st_task s with
  | Claiming =>
      match LeaseNextJob_execute (st_queue s) (st_worker s) (st_ttl s) w with
      | (Ok (Some job), w) => (set_task (to_send job) (note_claim job s), w)
      | (Ok None, w) => (set_task Waiting s, w)
      | (Err e, w) =>
          (set_task (Sending (Err (Status_new Unavailable ("dispatch: " +:+ DispatchError_to_string e))) true) s, w)
      | (Panic, w) => (set_task Ended s, w)
      end
  | Sending m breaks =>
      match mpsc_send m (st_chan s) with
      | (Sent, c) => (set_task (if breaks then Ended else Claiming) (note_sent m (set_chan c s)), w)
      | (Full, c) => (set_chan c s, w)
      | (Gone, c) => (set_task Ended (set_chan c s), w)
      end
  | Waiting | Ended => (s, w)
  end.

(** A turn: the task's; the wait of the [select!] is over; the task sees
    there that the reader is gone; the reader takes a message; it hangs up;
    something else happens to the broker. Of two branches of a [select!] that
    are both ready either may be taken. *)
Inductive StreamTurn : Type :=
| Task_turn
| Wait_over
| Sees_closed
| Reader_turn
| Reader_gone
| World_turn (f : W → W).

Definition stream_turn (t : StreamTurn) (x : Stream * W) : Stream * W :=
  let '(s, w) := x in
  match t with
  | Task_turn => task_turn s w
  | Wait_over => match st_task s with Waiting => (set_task Claiming s, w) | _ => (s, w) end
  | Sees_closed =>
      match st_task s with
      | Waiting => if gone (st_chan s) then (set_task Ended s, w) else (s, w)
      | _ => (s, w)
      end
  | Reader_turn =>
      match mpsc_recv (st_chan s) with
      | (Some m, c) => (note_read m (set_chan c s), w)
      | (None, c) => (set_chan c s, w)
      end
  | Reader_gone => (set_chan (mpsc_hangup (st_chan s)) s, w)
  | World_turn f => (s, f w)
  end.

Definition stream_run (turns : list StreamTurn) (x : Stream * W) : Stream * W :=
  foldl (λ x t, stream_turn t x) x turns.

(** The turns of others on the broker are not those of this stream. *)
Definition own_turn (t : StreamTurn) : bool := match t with World_turn _ => false | _ => true end.

(** ** Facts *)

(** The message a job becomes, if it becomes one. *)
Definition message_of (job : LeasedJob) : option v1_LeasedJob :=
  match leased_job_to_proto job with Ok m => Some m | _ => None end.

Definition jobs_in (ms : list Message) : list v1_LeasedJob :=
  omap (λ m, match m with Ok m => Some m | _ => None end) ms.

Definition in_hand (t : TaskState) : list Message :=
  match t with Sending m _ => [m] | _ => [] end.

(** While somebody reads, the channel holds what was sent and not read, what
    was leased is on its way in the order of the claims, and no claim is
    ahead of a send by more than one. *)
Record stream_ok (s : Stream) : Prop := {
  so_room : room (st_chan s) = 16%nat;
  so_queued : (length (queued (st_chan s)) ≤ 16)%nat;
  so_sent : gone (st_chan s) = false → st_sent s = st_read s ++ queued (st_chan s);
  so_order : gone (st_chan s) = false → jobs_in (st_sent s ++ in_hand (st_task s)) = omap message_of (st_claimed s);
  so_ahead : gone (st_chan s) = false →
    (length (st_claimed s) ≤ length (st_sent s) + match st_task s with Sending _ _ | Ended => 1 | _ => 0 end)%nat;
}.

Lemma jobs_in_app a b : jobs_in (a ++ b) = jobs_in a ++ jobs_in b.
Proof. apply omap_app. Qed.

Lemma open_ok accepted : stream_ok (fetch_open accepted).
Proof.
  destruct accepted as [[q wk] ttl]. destruct (channel_empty 16) as (Hq & Hr & Hg).
  split; simpl; rewrite ?Hq; simpl; try done; lia.
Qed.

Lemma to_send_jobs job : jobs_in (in_hand (to_send job)) = omap message_of [job].
Proof. unfold to_send. simpl. unfold message_of. by destruct (leased_job_to_proto job). Qed.

Lemma task_turn_ok s w : stream_ok s → stream_ok (task_turn s w).1.
Proof.
  intros [Hr Hq Hs Ho Ha]. unfold task_turn. destruct (st_task s) as [|m breaks| |] eqn:Ht; [| |by split; simpl; rewrite ?Ht..].
  - simpl in *. destruct (LeaseNextJob_execute _ _ _ w) as [[[job|]|e|] w1]; split; simpl; try done.
    + intros Hg. rewrite jobs_in_app, to_send_jobs, omap_app, <-(Ho Hg), app_nil_r. done.
    + intros Hg. specialize (Ha Hg). rewrite length_app. unfold to_send. destruct (leased_job_to_proto job); simpl; lia.
    + intros Hg. rewrite jobs_in_app. simpl. specialize (Ho Hg). by rewrite !app_nil_r in *.
    + intros Hg. specialize (Ha Hg). lia.
    + intros Hg. specialize (Ha Hg). lia.
  - destruct (gone (st_chan s)) eqn:Hg.
    { rewrite send_gone by done. split; simpl; try done; congruence. }
    specialize (Hs eq_refl). specialize (Ho eq_refl). specialize (Ha eq_refl).
    destruct (decide (room (st_chan s) ≤ length (queued (st_chan s)))%nat) as [Hf|Hf].
    { rewrite send_full by done. split; simpl; rewrite ?Ht; done. }
    destruct (send_room m (st_chan s) Hg) as (c & -> & Hq' & Hr' & Hg'); [lia|]. split; simpl.
    + congruence.
    + rewrite Hq', length_app. simpl. lia.
    + intros _. by rewrite Hs, Hq', app_assoc.
    + intros _. destruct breaks; simpl; by rewrite app_nil_r.
    + intros _. rewrite length_app. simpl. destruct breaks; lia.
Qed.

Lemma stream_turn_ok t s w : stream_ok s → stream_ok (stream_turn t (s, w)).1.
Proof.
  intros Hok. destruct t; simpl; [by apply task_turn_ok|..|done].
  - destruct (st_task s) eqn:Ht; try done. destruct Hok as [Hr Hq Hs Ho Ha]. rewrite ?Ht in *. by split.
  - destruct (st_task s) eqn:Ht; try done. destruct (gone (st_chan s)) eqn:Hg; [|done].
    destruct Hok as [Hr Hq _ _ _]. split; simpl; try done; congruence.
  - destruct Hok as [Hr Hq Hs Ho Ha]. destruct (queued (st_chan s)) as [|m ms] eqn:Hqs.
    + rewrite recv_empty by done. split; simpl; rewrite ?Hqs; done.
    + destruct (recv_first _ _ _ Hqs) as (c & -> & Hq' & Hr' & Hg'). split; simpl; rewrite ?Hr', ?Hq', ?Hg'; try done.
      * simpl in Hq. lia.
      * intros Hg. by rewrite (Hs Hg), <-app_assoc.
  - destruct Hok as [Hr Hq _ _ _]. destruct (hangup_gone (st_chan s)) as (Hg & Hqs & Hr').
    split; simpl; rewrite ?Hg, ?Hqs, ?Hr'; simpl; try done; lia.
Qed.

Lemma stream_run_ok turns x : stream_ok x.1 → stream_ok (stream_run turns x).1.
Proof.
  revert x. induction turns as [|t turns IH]; intros [s w] Hok; [done|]. by apply IH, stream_turn_ok.
Qed.

(** C18: A reader that does not read stops the claims: as long as it has not hung
    up, at most seventeen jobs are leased to it that it has not read, the
    sixteen the channel holds and one in hand; and it reads the jobs in the
    order in which they were leased, without a gap. *)
Theorem fetch_backpressure accepted turns (w : W) :
  let s := (stream_run turns (fetch_open accepted, w)).1 in
  gone (st_chan s) = false →
  (length (st_claimed s) ≤ length (st_read s) + 17)%nat ∧
  jobs_in (st_read s) `prefix_of` omap message_of (st_claimed s).
Proof.
  cbv zeta. intros Hg. pose proof (stream_run_ok turns (fetch_open accepted, w) (open_ok accepted)) as [_ Hq Hs Ho Ha].
  set (s := (stream_run turns _).1) in *. specialize (Hs Hg). specialize (Ho Hg). specialize (Ha Hg). split.
  - rewrite Hs, length_app in Ha. destruct (st_task s); lia.
  - rewrite <-Ho, Hs, !jobs_in_app, <-app_assoc. by apply prefix_app_r.
Qed.

(** ** After the reader has gone *)

(** How many jobs the task may still lease. *)
Definition still_leases (s : Stream) : nat :=
  match st_task s with Claiming | Waiting => 1 | _ => 0 end.

Lemma gone_turn t s w :
  gone (st_chan s) = true →
  let s' := (stream_turn t (s, w)).1 in
  gone (st_chan s') = true ∧ st_sent s' = st_sent s ∧
  (length (st_claimed s') + still_leases s' ≤ length (st_claimed s) + still_leases s)%nat.
Proof.
  unfold still_leases. intros Hg. destruct t; simpl.
  - unfold task_turn. destruct (st_task s) as [|m breaks| |] eqn:Ht; [| |simpl; rewrite ?Ht; split_and!; (done || lia)..].
    + destruct (LeaseNextJob_execute _ _ _ w) as [[[job|]|e|] w1]; simpl; split_and!; try done; try lia.
      rewrite length_app. unfold to_send. destruct (leased_job_to_proto job); simpl; lia.
    + rewrite send_gone by done. simpl. split_and!; try done; lia.
  - destruct (st_task s) eqn:Ht; simpl; rewrite ?Ht; done.
  - destruct (st_task s) eqn:Ht; try (simpl; rewrite ?Ht; done). rewrite Hg. simpl. split_and!; try done; lia.
  - destruct (queued (st_chan s)) as [|m ms] eqn:Hq; [rewrite recv_empty by done; simpl; by rewrite Hg|].
    destruct (recv_first _ _ _ Hq) as (c & -> & _ & _ & Hg'). simpl. by rewrite Hg'.
  - by destruct (hangup_gone (st_chan s)) as (-> & _ & _).
  - done.
Qed.

(** C29: When the reader hangs up, the task puts nothing more on the stream and
    leases at most one more job, whatever happens. *)
Theorem hangup_ends_claims turns s (w : W) :
  let s0 := (stream_turn Reader_gone (s, w)).1 in
  let s' := (stream_run turns (s0, w)).1 in
  st_sent s' = st_sent s ∧ (length (st_claimed s') ≤ length (st_claimed s) + 1)%nat.
Proof.
  cbv zeta. set (s0 := (stream_turn Reader_gone (s, w)).1).
  assert (Hg : gone (st_chan s0) = true) by (simpl; by destruct (hangup_gone (st_chan s))).
  change (st_sent s) with (st_sent s0). change (st_claimed s) with (st_claimed s0). clearbody s0. clear s.
  assert (Hrun : ∀ s w, gone (st_chan s) = true → let s' := (stream_run turns (s, w)).1 in
    st_sent s' = st_sent s ∧ (length (st_claimed s') + still_leases s' ≤ length (st_claimed s) + still_leases s)%nat).
  { clear. induction turns as [|t turns IH]; intros s w Hg; [done|].
    destruct (gone_turn t s w Hg) as (Hg1 & Hs1 & Hc1).
    change (stream_run (t :: turns) (s, w)) with (stream_run turns (stream_turn t (s, w))).
    destruct (stream_turn t (s, w)) as [s1 w1]. destruct (IH s1 w1 Hg1) as [Hs Hc]. cbn [fst] in *. split; [congruence|lia]. }
  destruct (Hrun s0 w Hg) as [Hs Hc]. split; [done|]. unfold still_leases in Hc. destruct (st_task s0), (st_task _); lia.
Qed.
End task.
End stream.
