(* ===== verification/StreamFacts.v ===== *)
(** * A fetch stream over the in-memory adapters

    Clamping the lease time a worker asks for keeps its stream from breaking
    the store. *)

From S2P Require Import Prelude Std Ids Retry Events Job Lifecycle Commands Ports UseCases Contract.
From S2P Require Import UseCaseFacts System MemStore MemDispatcher MemFacts MemSelect MemDispatchFacts.
From S2P Require Import MemSweep MemSystem Grpc GrpcFacts Stream.

Open Scope string_scope.
Open Scope list_scope.
Open Scope Z_scope.

Section mem_fetch.
Context `{ext : Externals} {wire : Wire} {Ch : Type} `{!Mpsc Ch} {G C : Type} `{!IdGenerator G, !Clock C}.
Local Abbreviation World := (MemWorld G C).
Implicit Types (w : World).

(** Every stream has room for [n] more events. *)
Definition roomy (n : Z) w : Prop :=
  ∀ id s, streams (mem_inner w) !! id = Some s → Z.of_nat (length s) + n ≤ U64_MAX.

(** With a representable deadline a claim returns, keeps the store sound and
    adds at most one event to a stream. *)
Lemma claim_total w q worker ttl δ n :
  mem_healthy w → TimeDelta_from_std ttl = Some δ → is_Some (checked_add_signed (now_of w) δ) →
  1 ≤ n → roomy n w →
  ∃ r w', claim q worker ttl w = (Ok r, w') ∧ mem_healthy w' ∧ roomy (n - 1) w' ∧
    (mem_clock w' = snd (clock_now (mem_clock w)) ∨
     mem_clock w' = snd (clock_now (snd (clock_now (mem_clock w))))).
Proof.
  intros [Hp Hw] Hd Ht Hn Hroom. unfold now_of in Ht.
  destruct (clock_now (mem_clock w)) as [now c] eqn:Hc. simpl in Ht. rewrite (claim_run _ _ _ _ _ _ Hc).
  destruct (pick_eligible (mem_inner w) q now) as [id|] eqn:Hpick.
  - destruct (pick_from_claimable q now _ _ _ (reflexivity _) Hpick) as (e & He & Hcl).
    destruct (claimable_pending w q now id e Hw He Hcl) as (s & j & Hs & Hj & Hq & Hst & Hel).
    destruct (claim_locked_grants (set_mem_clock c w) q worker ttl now id s j (entry_not_before e) δ)
      as (w' & j' & Hrun & Hext & _ & _ & Hclk); [done..|apply Hroom in Hs; lia|].
    eexists _, w'.
    rewrite (st_map_err_run _ _ _ _ _ (locked_run _ (set_mem_clock c w) _ _ Hp Hrun ltac:(done))).
    destruct Hext as (envs & Hlog & Hw' & Hev & _). split_and!; [done|exact Hw'| |by right].
    intros id' s'. simpl in Hlog. rewrite Hlog. intros [[<- <-]|[_ Hs']]%lookup_insert_Some.
    + apply (f_equal length) in Hev. rewrite length_fmap in Hev. simpl in Hev.
      rewrite length_app. apply Hroom in Hs. lia.
    + apply Hroom in Hs'. lia.
  - exists None, (set_mem_clock c w). split_and!; [|done| |by left].
    + apply st_map_err_run, locked_run; [done| |done]. unfold claim_locked. st_unfold.
      change (mem_inner (set_mem_clock c w)) with (mem_inner w). by rewrite Hpick.
    + intros id s Hs. apply Hroom in Hs. lia.
Qed.

Section clock.
Context (good : C → Prop).
Hypothesis good_next : ∀ c, good c → good (snd (clock_now c)).

(** What others do between the turns of a stream: they keep the store sound
    and the clock good, and append at most two events to a stream. *)
Definition others_ok (t : StreamTurn (W:=World)) : Prop :=
  match t with
  | World_turn f => ∀ n w, mem_healthy w → good (mem_clock w) → roomy n w →
      mem_healthy (f w) ∧ good (mem_clock (f w)) ∧ roomy (n - 2) (f w)
  | _ => True
  end.

Lemma roomy_le n m w : m ≤ n → roomy n w → roomy m w.
Proof. intros ? Hn id s Hs%Hn. lia. Qed.

(** The deadline of the lease can be added to every time the clock shows. *)
Definition ttl_fits (ttl : Duration) : Prop :=
  ∃ δ, TimeDelta_from_std ttl = Some δ ∧ ∀ c, good c → is_Some (checked_add_signed (fst (clock_now c)) δ).

Definition st_ready (n : Z) (x : Stream (Ch:=Ch) * World) : Prop :=
  ttl_fits (st_ttl x.1) ∧ mem_healthy x.2 ∧ good (mem_clock x.2) ∧ roomy n x.2.

Lemma task_turn_ready n s w : 2 ≤ n → st_ready n (s, w) → st_ready (n - 2) (task_turn s w).
Proof.
  intros Hn ((δ & Hδ & Hadd) & Hw & Hg & Hr). simpl in *.
  assert (Hsame : ∀ s', st_ttl s' = st_ttl s → st_ready (n - 2) (s', w)).
  { intros s' Ht. split; [simpl; rewrite Ht; by exists δ|]. split_and!; [done..|]. eapply roomy_le; [|done]. lia. }
  unfold task_turn. destruct (st_task s) as [|m breaks| |]; [|by destruct (mpsc_send _ _) as [[] ?]; apply Hsame|by apply Hsame..].
  destruct (claim_total w (st_queue s) (st_worker s) (st_ttl s) δ n)
    as (r & w' & Hrun & Hw' & Hroom' & Hclk); [done|done|by apply Hadd|lia|done|].
  unfold LeaseNextJob_execute. change (lease_next (st_queue s) (st_worker s) (st_ttl s) w) with (claim (st_queue s) (st_worker s) (st_ttl s) w).
  rewrite Hrun. assert (good (mem_clock w')) as Hg' by (destruct Hclk as [->| ->]; auto).
  assert (roomy (n - 2) w') by (eapply roomy_le; [|done]; lia).
  destruct r as [lj|]; split_and!; simpl; try done; by exists δ.
Qed.

Lemma turn_ready n t s w :
  2 ≤ n → others_ok t → st_ready n (s, w) → st_ready (n - 2) (stream_turn t (s, w)).
Proof.
  intros Hn Ht Hs. assert (Hsame : ∀ s', st_ttl s' = st_ttl s → st_ready (n - 2) (s', w)).
  { intros s' E. destruct Hs as (? & ? & ? & ?). split_and!; simpl in *; [by rewrite E|done..|]. eapply roomy_le; [|done]. lia. }
  destruct t; simpl; [by apply task_turn_ready|..].
  - destruct (st_task s); by apply Hsame.
  - destruct (st_task s); [..|destruct (gone _)|]; by apply Hsame.
  - destruct (mpsc_recv _) as [[]]; by apply Hsame.
  - by apply Hsame.
  - destruct Hs as (? & ? & ? & ?). simpl in *. destruct (Ht n w) as (? & ? & ?); [done..|]. by split_and!.
Qed.

Lemma run_ready turns s w :
  Forall others_ok turns → st_ready (2 * Z.of_nat (length turns)) (s, w) → st_ready 0 (stream_run turns (s, w)).
Proof.
  intros Hok. revert s w. induction Hok as [|t turns Ht _ IH]; intros s w Hs; [done|].
  change (stream_run (t :: turns) (s, w)) with (stream_run turns (stream_turn t (s, w))).
  apply (turn_ready _ t) in Hs; [|cbn [length]; lia|done]. destruct (stream_turn t (s, w)) as [s' w']. apply IH.
  by replace (2 * Z.of_nat (length turns)) with (2 * Z.of_nat (length (t :: turns)) - 2) by (cbn [length]; lia).
Qed.
End clock.

(** C39: Clamping keeps the store safe from workers: if the configured ceiling can
    be added to every time the clock shows, no accepted fetch request,
    whatever lease time it asks for, leads to a panic in the store during the
    whole life of its stream, whatever the turns of its task, of its reader
    and of others on the store. *)
Theorem clamped_fetch_keeps_store config metadata req w q worker ttl w1 turns (good : C → Prop) δ :
  (∀ c, good c → good (snd (clock_now c))) → good (mem_clock w) → mem_healthy w →
  0 ≤ fetch_lease_ttl_ms req → 0 ≤ max_lease_ttl config →
  TimeDelta_from_std (max_lease_ttl config) = Some δ →
  (∀ c, good c → is_Some (checked_add_signed (fst (clock_now c)) δ)) →
  Forall (others_ok good) turns → roomy (2 * Z.of_nat (length turns)) w →
  WorkerApi_fetch config metadata req w = (Ok (q, worker, ttl), w1) →
  0 ≤ ttl ≤ max_lease_ttl config ∧ mem_healthy (stream_run turns (fetch_open (Ch:=Ch) (q, worker, ttl), w1)).2.
Proof.
  intros Hnext Hg Hw H0 Hmax Hδ Hadd Hok Hroom Hf.
  unfold WorkerApi_fetch in Hf. apply st_bind_ok in Hf as (wk & w2 & [= Hck <-] & Hf).
  apply st_bind_ok in Hf as (queue & w2 & [= Hq <-] & Hf).
  apply st_bind_ok in Hf as (t & w2 & [= Hcl <-] & [= <- <- <- <-]).
  apply clamp_ok in Hcl as [Hne Ht]. unfold Duration_from_millis in Ht.
  assert (0 ≤ t ≤ max_lease_ttl config) as Hr by lia. split; [done|].
  pose proof (from_std_exact _ _ Hδ) as ->.
  destruct (from_std_downward (max_lease_ttl config) t) as [δ' Hδ']; [lia|by eauto|].
  pose proof (from_std_exact _ _ Hδ') as ->.
  eapply (run_ready good Hnext); [done|]. split_and!; simpl; [|done..].
  exists t. split; [done|]. intros c Hc. eapply checked_add_downward; [|by apply Hadd]. lia.
Qed.
End mem_fetch.
