(* ===== verification/Signal.v ===== *)
(** * Wake-up signals
      ([koine-store-memory/src/signal.rs], [koine-store-postgres/src/signal.rs])

    A signal is a hint: a fetch that is woken claims, and claims anyway when
    its wait times out. The in-memory signal wakes whoever waits on the
    queue at that moment; the PostgreSQL one fans the notifications of one
    listener out to everybody who waits, each looking for its queue. *)

From S2P Require Import Prelude Std Ids.

Open Scope string_scope.
Open Scope list_scope.
Open Scope Z_scope.

(** ** [NotifySignal]: a [tokio::sync::Notify] per queue, created on demand;
       its waiters by number *)

Record NotifySignal : Type := NotifySignal_mk {
  ns_channels : gmap string (list nat);
}.

Definition NotifySignal_new : NotifySignal := NotifySignal_mk ∅.

(** The waiters [notify_waiters] wakes: those registered by then. *)
Definition NotifySignal_notify (queue : QueueName) (s : NotifySignal) : list nat * NotifySignal :=
  let q := QueueName_as_str queue in
  (default [] (ns_channels s !! q), NotifySignal_mk (<[q := []]> (ns_channels s))).

(** A wait registers on its queue, and until a notification or its timeout. *)
Definition NotifySignal_wait (waiter : nat) (queue : QueueName) (s : NotifySignal) : NotifySignal :=
  let q := QueueName_as_str queue in
  NotifySignal_mk (<[q := default [] (ns_channels s !! q) ++ [waiter]]> (ns_channels s)).

Definition NotifySignal_timeout (waiter : nat) (queue : QueueName) (s : NotifySignal) : NotifySignal :=
  let q := QueueName_as_str queue in
  NotifySignal_mk (<[q := base.filter (λ n, n ≠ waiter) (default [] (ns_channels s !! q))]> (ns_channels s)).

(** ** [PgSignal]: the listener task *)

(** [PgListener::recv] *)
Inductive Recv : Type :=
| Notification (payload : string)
| Recv_error (text : string).

Record Listener : Type := Listener_mk {
  ln_degraded : bool;
  ln_log : list string;
  ln_sent : list string;
}.

Definition Listener_new : Listener := Listener_mk false [] [].

Definition LOST (text : string) : string :=
  "signal: dispatch listener lost (" +:+ text +:+ "); wakeups degrade to idle-poll until it reconnects".

Definition RECONNECTED : string := "signal: dispatch listener reconnected".

(** What a round of the listener's loop has to print. *)
Definition listener_line (r : Recv) (l : Listener) : option string :=
  match r with
  | Notification _ => if ln_degraded l then Some RECONNECTED else None
  | Recv_error text => if ln_degraded l then None else Some (LOST text)
  end.

(** One round of the loop, its line written. *)
Definition listener_step (r : Recv) (l : Listener) : Listener :=
  match r with
  | Notification payload =>
      Listener_mk false (ln_log l ++ option_list (listener_line r l)) (ln_sent l ++ [payload])
  | Recv_error text =>
      Listener_mk true (ln_log l ++ option_list (listener_line r l)) (ln_sent l)
  end.

Definition listen (rs : list Recv) (l : Listener) : Listener := foldl (λ l r, listener_step r l) l rs.

(** ** [PgSignal::wait] *)

(** What a waiting receiver meets, in order. *)
Inductive HubEvent : Type :=
| Payload (payload : string)
| Lagged
| Closed
| Timeout.

(** How many events a wait on [queue] consumes before it returns; [None]: it
    still waits. *)
Fixpoint wait (queue : QueueName) (events : list HubEvent) : option nat :=
  match events with
  | [] => None
  | Payload p :: events =>
      if decide (p = QueueName_as_str queue) then Some 1%nat else S <$> wait queue events
  | (Lagged | Closed | Timeout) :: _ => Some 1%nat
  end.

(** ** Properties *)

(** A notification wakes those who wait on its queue, once, and nobody on
    another queue. *)
Theorem notify_wakes_queue queue other waiter s :
  let '(woken, s') := NotifySignal_notify queue (NotifySignal_wait waiter queue s) in
  waiter ∈ woken ∧ (NotifySignal_notify queue s').1 = [] ∧
  (other ≠ queue → (NotifySignal_notify other s').1 = (NotifySignal_notify other s).1).
Proof.
  unfold NotifySignal_notify, NotifySignal_wait. simpl. rewrite !lookup_insert_eq. simpl. split_and!.
  - apply elem_of_app. right. by left.
  - done.
  - intros Hne. rewrite !lookup_insert_ne; [done|..]; destruct other, queue; simpl; congruence.
Qed.

(** The lines of a listener's log alternate, the first reporting a loss. *)
Fixpoint alternates (lost : bool) (log : list string) : Prop :=
  match log with
  | [] => True
  | line :: log => (if lost then line = RECONNECTED else ∃ text, line = LOST text) ∧ alternates (negb lost) log
  end.

Lemma alternates_app lost log1 log2 :
  alternates lost log1 → alternates (xorb lost (Nat.odd (length log1))) log2 → alternates lost (log1 ++ log2).
Proof.
  revert lost. induction log1 as [|line log1 IH]; intros lost; simpl; [by rewrite xorb_false_r|].
  intros [? H1] H2. split; [done|]. apply IH; [done|].
  rewrite Nat.odd_succ, <-Nat.negb_odd in H2. by destruct lost, (Nat.odd (length log1)).
Qed.

(** Every notification is passed on, in order; the log reports each loss and
    each recovery once. *)
Theorem listener_reports_transitions rs :
  let l := listen rs Listener_new in
  ln_sent l = omap (λ r, match r with Notification p => Some p | Recv_error _ => None end) rs ∧
  alternates false (ln_log l) ∧ ln_degraded l = Nat.odd (length (ln_log l)).
Proof.
  cbv zeta. unfold listen. induction rs as [|r rs IH] using rev_ind; [done|].
  rewrite foldl_snoc, omap_app. destruct IH as (Hs & Ha & Hd).
  destruct (foldl _ Listener_new rs) as [degraded log sent]. simpl in *. subst degraded sent.
  destruct r as [p|text]; simpl; destruct (Nat.odd (length log)) eqn:Ho; rewrite ?app_nil_r; split_and!; try done;
    rewrite ?length_app; simpl.
  - apply alternates_app; [done|]. by rewrite Ho.
  - rewrite Nat.add_1_r, Nat.odd_succ, <-Nat.negb_odd. by rewrite Ho.
  - apply alternates_app; [done|]. rewrite Ho. split; [by exists text|done].
  - rewrite Nat.add_1_r, Nat.odd_succ, <-Nat.negb_odd. by rewrite Ho.
Qed.

(** A wait returns for its own queue, a gap, the end of the hub or the
    timeout, and for no other queue's payload. *)
Theorem wait_ignores_others queue events n :
  wait queue events = Some n ↔
  ∃ others last, take n events = (Payload <$> others) ++ [last] ∧ n = S (length others) ∧
    Forall (λ p, p ≠ QueueName_as_str queue) others ∧
    (last = Payload (QueueName_as_str queue) ∨ last = Lagged ∨ last = Closed ∨ last = Timeout).
Proof.
  revert n. induction events as [|ev events IH]; intros n; simpl.
  { split; [done|]. intros (others & last & Ht & _). rewrite take_nil in Ht. by destruct (Payload <$> others). }
  destruct ev as [p| | |].
  2-4: split; [intros [= <-]; exists []; eexists; split_and!; [by rewrite firstn_cons|done|constructor|tauto]|];
    intros ([|p others] & last & Ht & -> & _ & _); [done|]; by rewrite firstn_cons in Ht.
  destruct (decide (p = QueueName_as_str queue)) as [->|Hne].
  - split.
    + intros [= <-]. exists [], (Payload (QueueName_as_str queue)). split_and!; [done|done|constructor|by left].
    + intros ([|p others] & last & Ht & -> & Hf & _); [done|]. rewrite firstn_cons in Ht.
      injection Ht as <- _. by apply Forall_cons in Hf as [? _].
  - split.
    + intros (k & (others & last & Ht & -> & Hf & Hl)%IH & ->)%fmap_Some. exists (p :: others), last.
      rewrite firstn_cons, Ht. split_and!; [done|done|by constructor|done].
    + intros ([|p' others] & last & Ht & -> & Hf & Hl); rewrite firstn_cons in Ht; simpl in Ht; [|injection Ht as <- Ht].
      * injection Ht as <-. naive_solver.
      * apply Forall_cons in Hf as [_ Hf]. apply fmap_Some. exists (S (length others)). split; [|done].
        apply IH. by exists others, last.
Qed.
