(* ===== verification/Hub.v ===== *)
(** * The hub of the PostgreSQL signal
      ([koine-store-postgres/src/signal.rs])

    One listener task receives the notifications of the database and fans
    them out over a broadcast channel; a wait subscribes to the channel and
    looks for its queue. The channel belongs to tokio and is a class with its
    documented behaviour: a receiver gets what is sent after it subscribed,
    in order, and one that falls behind by more than the buffer is told so.
    The clones of a signal share the hub; the last one to go stops the
    task. *)

From S2P Require Import Prelude Std Ids Signal.

Open Scope string_scope.
Open Scope list_scope.
Open Scope Z_scope.

(** ** [tokio::sync::broadcast] *)

(** What [Receiver::recv] meets; [Pending]: it goes on waiting. *)
Inductive Received : Type :=
| Got (event : HubEvent)
| Pending.

Class Broadcast (B R : Type) : Type := {
  bc_channel : nat → B;
  bc_subscribe : B → R;
  bc_send : string → B → B;
  (** The last sender is gone. *)
  bc_close : B → B;
  bc_recv : B → R → Received * R;
  (** What has been sent, where a receiver stands in it, how far it may fall
      behind, and whether the senders are gone. *)
  bc_sent : B → list string;
  bc_pos : R → nat;
  bc_room : B → nat;
  bc_closed : B → bool;
  channel_new n : bc_sent (bc_channel n) = [] ∧ (n ≤ bc_room (bc_channel n))%nat ∧ bc_closed (bc_channel n) = false;
  subscribe_pos b : bc_pos (bc_subscribe b) = length (bc_sent b);
  send_sent p b : bc_sent (bc_send p b) = bc_sent b ++ [p] ∧ bc_room (bc_send p b) = bc_room b ∧
    bc_closed (bc_send p b) = bc_closed b;
  close_sent b : bc_sent (bc_close b) = bc_sent b ∧ bc_room (bc_close b) = bc_room b ∧ bc_closed (bc_close b) = true;
  (** A receiver within the buffer gets the next message. *)
  recv_next b r p : bc_sent b !! bc_pos r = Some p → (length (bc_sent b) - bc_pos r ≤ bc_room b)%nat →
    (bc_recv b r).1 = Got (Payload p) ∧ bc_pos (bc_recv b r).2 = S (bc_pos r);
  (** One that fell behind is told, and goes on at the oldest message left. *)
  recv_lagged b r : (bc_room b < length (bc_sent b) - bc_pos r)%nat →
    (bc_recv b r).1 = Got Lagged ∧ bc_pos (bc_recv b r).2 = (length (bc_sent b) - bc_room b)%nat;
  (** One that has everything waits, or learns of the end. *)
  recv_end b r : bc_pos r = length (bc_sent b) →
    (bc_recv b r).1 = (if bc_closed b then Got Closed else Pending) ∧ bc_pos (bc_recv b r).2 = bc_pos r;
}.

Definition NOTIFICATION_BUFFER : nat := 1024.

(** The pause after a failed [recv]; time is not modelled. *)
Definition RECONNECT_BACKOFF : Duration := Duration_from_millis 100.

Section hub.
Context {B R : Type} `{!Broadcast B R}.

(** ** [SignalHub] and [PgSignal] *)

Record SignalHub : Type := SignalHub_mk {
  hub_notifications : B;
  hub_listener : Listener;
  (** The task runs. *)
  hub_listening : bool;
}.

(** [Arc<SignalHub>]: the hub and the signals that share it. *)
Record PgSignal : Type := PgSignal_mk {
  sig_hub : SignalHub;
  sig_clones : nat;
}.

(** [connect], given how the pool, the listener's connection and its [LISTEN]
    turn out; the task is spawned last. *)
Definition PgSignal_connect {E : Type} (pool listener listen : result unit E) : result PgSignal E :=
  let? _ := pool in
  let? _ := listener in
  let? _ := listen in
  Ok {| sig_hub := {| hub_notifications := bc_channel NOTIFICATION_BUFFER;
                      hub_listener := Listener_new;
                      hub_listening := true |};
        sig_clones := 1 |}.

(** A round of the listener task whose line, if it has one, is written: what
    it received goes to the channel. *)
Definition hub_round (r : Recv) (h : SignalHub) : SignalHub :=
  if hub_listening h then
    {| hub_notifications :=
         match r with
         | Notification payload => bc_send payload (hub_notifications h)
         | Recv_error _ => hub_notifications h
         end;
       hub_listener := listener_step r (hub_listener h);
       hub_listening := true |}
  else h.

(** A round with the standard error. The task ends with the panic of a line
    that cannot be written, before anything is passed on; its sender goes,
    the hub's stays. *)
Definition hub_round_on (r : Recv) (err : Output) (h : SignalHub) : Output * SignalHub :=
  match (if hub_listening h then listener_line r (hub_listener h) else None) with
  | None => (err, hub_round r h)
  | Some line =>
      let '(x, err) := println (E:=Empty_set) line err in
      (err, if is_panic x then SignalHub_mk (hub_notifications h) (hub_listener h) false else hub_round r h)
  end.

(** [Drop for SignalHub]: the task is aborted, and with it and the hub both
    senders are gone. *)
Definition SignalHub_drop (h : SignalHub) : SignalHub :=
  {| hub_notifications := bc_close (hub_notifications h);
     hub_listener := hub_listener h;
     hub_listening := false |}.

(** With no signal left there is nothing to clone. *)
Definition PgSignal_clone (s : PgSignal) : PgSignal :=
  match sig_clones s with
  | O => s
  | S n => PgSignal_mk (sig_hub s) (S (S n))
  end.

Definition PgSignal_drop (s : PgSignal) : PgSignal :=
  match sig_clones s with
  | O => s
  | 1%nat => PgSignal_mk (SignalHub_drop (sig_hub s)) 0
  | S n => PgSignal_mk (sig_hub s) n
  end.

(** ** [PgSignal::wait], as far as it has got *)

Record Waiter : Type := Waiter_mk {
  wt_queue : QueueName;
  wt_receiver : R;
  wt_met : list HubEvent;
}.

(** The wait is over. *)
Definition returned (w : Waiter) : bool := bool_decide (is_Some (wait (wt_queue w) (wt_met w))).

Definition PgSignal_wait (queue : QueueName) (h : SignalHub) : Waiter :=
  Waiter_mk queue (bc_subscribe (hub_notifications h)) [].

Definition meets (ev : HubEvent) (rx : R) (w : Waiter) : Waiter :=
  Waiter_mk (wt_queue w) rx (wt_met w ++ [ev]).

(** A turn of its loop. *)
Definition wait_poll (h : SignalHub) (w : Waiter) : Waiter :=
  if returned w then w
  else
    match bc_recv (hub_notifications h) (wt_receiver w) with
    | (Got ev, rx) => meets ev rx w
    | (Pending, rx) => Waiter_mk (wt_queue w) rx (wt_met w)
    end.

Definition wait_timeout (w : Waiter) : Waiter :=
  if returned w then w else meets Timeout (wt_receiver w) w.

(** ** A wait among the rounds of the listener *)

Inductive HubTurn : Type :=
| Listener_turn (r : Recv)
| Waiter_turn
| Waiter_timeout
| Clone_turn
| Drop_turn.

Definition hub_turn (t : HubTurn) (x : PgSignal * Waiter) : PgSignal * Waiter :=
  let '(s, w) := x in
  match t with
  | Listener_turn r => (PgSignal_mk (hub_round r (sig_hub s)) (sig_clones s), w)
  | Waiter_turn => (s, wait_poll (sig_hub s) w)
  | Waiter_timeout => (s, wait_timeout w)
  | Clone_turn => (PgSignal_clone s, w)
  | Drop_turn => (PgSignal_drop s, w)
  end.

Definition hub_run (turns : list HubTurn) (x : PgSignal * Waiter) : PgSignal * Waiter :=
  foldl (λ x t, hub_turn t x) x turns.

(** ** Facts *)

Lemma wait_app queue evs evs' :
  wait queue (evs ++ evs') = match wait queue evs with Some n => Some n | None => Nat.add (length evs) <$> wait queue evs' end.
Proof.
  induction evs as [|ev evs IH]; simpl; [by destruct (wait queue evs')|]. destruct ev; try done. case_decide; [done|].
  rewrite IH. destruct (wait queue evs); [done|]. by destruct (wait queue evs').
Qed.

Lemma returned_meets w ev rx :
  returned w = false → returned (meets ev rx w) = bool_decide (is_Some (wait (wt_queue w) [ev])).
Proof.
  unfold returned. intros Hr%bool_decide_eq_false. simpl. rewrite wait_app. apply eq_None_not_Some in Hr as ->.
  apply bool_decide_ext. by rewrite fmap_is_Some.
Qed.

Lemma returned_poll h w : returned w = true → wait_poll h w = w.
Proof. unfold wait_poll. by intros ->. Qed.

(** What the hub has broadcast. *)
Local Abbreviation sent h := (bc_sent (hub_notifications h)).

(** Why a wait may be over that subscribed when [base] messages had been
    sent. *)
Definition reason (base : nat) (queue : QueueName) (h : SignalHub) (w : Waiter) : Prop :=
  Timeout ∈ wt_met w ∨
  (∃ i, (base ≤ i)%nat ∧ sent h !! i = Some (QueueName_as_str queue)) ∨
  (bc_room (hub_notifications h) < length (sent h) - base)%nat ∨
  bc_closed (hub_notifications h) = true.

(** It has not missed its queue, and is over for a reason. *)
Record tracks (base : nat) (queue : QueueName) (h : SignalHub) (w : Waiter) : Prop := {
  tr_queue : wt_queue w = queue;
  tr_base : (base ≤ bc_pos (wt_receiver w))%nat;
  tr_pos : (bc_pos (wt_receiver w) ≤ length (sent h))%nat;
  tr_seen : returned w = false → ∀ i, (base ≤ i < bc_pos (wt_receiver w))%nat →
    sent h !! i ≠ Some (QueueName_as_str queue);
  tr_why : returned w = true → reason base queue h w;
}.

Lemma wait_tracks queue h : tracks (length (sent h)) queue h (PgSignal_wait queue h).
Proof. split; simpl; rewrite ?subscribe_pos; [done|lia|lia| |by intros [? ?]%bool_decide_eq_true]. intros _ i Hi. lia. Qed.

(** What a poll does: it ends the wait, or takes the next message, or there
    is none. *)
Lemma poll_cases base queue h w :
  tracks base queue h w → returned w = false →
  let w' := wait_poll h w in
  tracks base queue h w' ∧
  (returned w' = true ∨
   returned w' = false ∧ bc_pos (wt_receiver w') = S (bc_pos (wt_receiver w)) ∧
     (bc_pos (wt_receiver w) < length (sent h))%nat ∨
   returned w' = false ∧ bc_pos (wt_receiver w') = bc_pos (wt_receiver w) ∧
     bc_pos (wt_receiver w) = length (sent h) ∧ bc_closed (hub_notifications h) = false).
Proof.
  intros [Hq Hb Hp Hs _] Hr. specialize (Hs Hr). unfold wait_poll. rewrite Hr. cbv zeta.
  destruct h as [b l on]. destruct w as [q rx met]. simpl in *. subst q.
  assert (Hover : ∀ ev rx', is_Some (wait queue [ev]) → (base ≤ bc_pos rx' ≤ length (bc_sent b))%nat →
    reason base queue (SignalHub_mk b l on) (meets ev rx' (Waiter_mk queue rx met)) →
    tracks base queue (SignalHub_mk b l on) (meets ev rx' (Waiter_mk queue rx met)) ∧
    returned (meets ev rx' (Waiter_mk queue rx met)) = true).
  { intros ev rx' Hw Hp' Hwhy. assert (Hd : returned (meets ev rx' (Waiter_mk queue rx met)) = true)
      by (rewrite returned_meets by done; by apply bool_decide_true).
    split; [split; simpl; [done|lia|lia|congruence|done]|done]. }
  destruct (decide (bc_pos rx = length (bc_sent b))) as [He|Hne].
  { destruct (recv_end b rx He) as [Ha Hpos]. destruct (bc_recv b rx) as [a rx'] eqn:E. simpl in Ha, Hpos. subst a.
    destruct (bc_closed b) eqn:Hc.
    - destruct (Hover Closed rx') as [? ?]; [by eexists|lia|unfold reason; simpl; tauto|]. auto.
    - split; [split; simpl; [done|lia|lia| |]|right; right].
      + intros _ i Hi. apply Hs. lia.
      + unfold returned in *. simpl in *. congruence.
      + split; [exact Hr|]. by simpl. }
  destruct (decide (length (bc_sent b) - bc_pos rx ≤ bc_room b)%nat) as [Hroom|Hroom].
  - destruct (lookup_lt_is_Some_2 (bc_sent b) (bc_pos rx)) as [p Hl]; [lia|].
    destruct (recv_next b rx p Hl Hroom) as [Ha Hpos]. destruct (bc_recv b rx) as [a rx'] eqn:E. simpl in Ha, Hpos. subst a.
    destruct (decide (p = QueueName_as_str queue)) as [->|Hne'].
    + destruct (Hover (Payload (QueueName_as_str queue)) rx') as [? ?]; [simpl; by rewrite decide_True|lia| |by auto].
      right. left. by exists (bc_pos rx).
    + assert (Hd : returned (meets (Payload p) rx' (Waiter_mk queue rx met)) = false).
      { rewrite returned_meets by done. apply bool_decide_false. simpl. rewrite decide_False by done. by intros [? ?]. }
      split; [split; simpl; [done|lia|lia| |congruence]|right; left; by split_and!; [|simpl; lia|lia]].
      intros _ i Hi. destruct (decide (i = bc_pos rx)) as [->|]; [rewrite Hl; congruence|]. apply Hs. lia.
  - destruct (recv_lagged b rx) as [Ha Hpos]; [lia|]. destruct (bc_recv b rx) as [a rx'] eqn:E. simpl in Ha, Hpos. subst a.
    destruct (Hover Lagged rx') as [? ?]; [by eexists|lia| |by auto]. right. right. left. simpl. lia.
Qed.

Lemma polls_tracks base queue h n w : tracks base queue h w → tracks base queue h (Nat.iter n (wait_poll h) w).
Proof.
  intros Ht. induction n as [|n IH]; simpl; [done|]. destruct (returned (Nat.iter n (wait_poll h) w)) eqn:Hr.
  - by rewrite returned_poll.
  - by apply poll_cases.
Qed.

(** Polled often enough, a wait is over or has everything that was sent. *)
Lemma polls_catch_up base queue h n w :
  tracks base queue h w → let w' := Nat.iter n (wait_poll h) w in
  returned w' = true ∨ (Nat.min (length (sent h)) (bc_pos (wt_receiver w) + n) ≤ bc_pos (wt_receiver w'))%nat.
Proof.
  intros Ht. cbv zeta. induction n as [|n IH]; simpl; [right; lia|].
  pose proof (polls_tracks _ _ _ n _ Ht) as Ht'. set (w' := Nat.iter n (wait_poll h) w) in *.
  destruct (returned w') eqn:Hr; [rewrite returned_poll by done; by left|]. destruct IH as [|IH]; [done|].
  destruct (poll_cases _ _ _ _ Ht' Hr) as [_ [?|[(_ & -> & ?)|(_ & -> & ? & _)]]]; [by left|right; lia..].
Qed.

(** Polled as often as there are messages for it, a wait on a queue that was
    named since it subscribed is over, and so is one whose hub is gone. *)
Lemma polls_return base queue h n w :
  tracks base queue h w → (length (sent h) - bc_pos (wt_receiver w) < n)%nat →
  (∃ i, (base ≤ i)%nat ∧ sent h !! i = Some (QueueName_as_str queue)) ∨ bc_closed (hub_notifications h) = true →
  returned (Nat.iter n (wait_poll h) w) = true.
Proof.
  intros Ht Hn Hwhy. destruct n as [|n]; [lia|]. simpl.
  destruct (returned (Nat.iter n (wait_poll h) w)) eqn:Hr; [by rewrite returned_poll|].
  pose proof (polls_tracks _ _ _ n _ Ht) as Ht'. destruct (polls_catch_up _ _ _ n _ Ht) as [|Hpos]; [congruence|].
  destruct (poll_cases _ _ _ _ Ht' Hr) as [_ [?|[(_ & _ & ?)|(_ & _ & Hp & Hc)]]]; [done|lia|].
  destruct Hwhy as [(i & Hi & Hl)|?]; [|congruence]. exfalso. apply (tr_seen _ _ _ _ Ht' Hr i); [|done].
  apply lookup_lt_Some in Hl. lia.
Qed.

(** ** Turns *)

Definition payloads (turns : list HubTurn) : list string :=
  omap (λ t, match t with Listener_turn (Notification p) => Some p | _ => None end) turns.

(** The hub listens as long as a signal shares it, and its channel is open
    as long as it listens. *)
Definition hub_ok (s : PgSignal) : Prop :=
  hub_listening (sig_hub s) = bool_decide (0 < sig_clones s)%nat ∧
  bc_closed (hub_notifications (sig_hub s)) = negb (hub_listening (sig_hub s)).

Lemma hub_turn_ok t s w : hub_ok s → hub_ok (hub_turn t (s, w)).1.
Proof.
  unfold hub_ok. destruct s as [[b l on] n]. intros [Ho Hc]. simpl in *. destruct t; simpl; try done.
  - unfold hub_round. simpl. destruct on eqn:Hon; [|done]. simpl. split; [done|]. destruct r; [|done].
    by destruct (send_sent payload b) as (_ & _ & ->).
  - destruct n; [done|]. simpl. split; [|done]. rewrite Ho. by rewrite !bool_decide_true by lia.
  - destruct n as [|[|n]]; [done| |].
    + simpl. by destruct (close_sent b) as (_ & _ & ->).
    + simpl. split; [|done]. rewrite Ho. by rewrite !bool_decide_true by lia.
Qed.

(** A hub that has sent more, to the same waiter. *)
Lemma tracks_grows base queue h h' w :
  tracks base queue h w → sent h `prefix_of` sent h' → bc_room (hub_notifications h') = bc_room (hub_notifications h) →
  (bc_closed (hub_notifications h) = true → bc_closed (hub_notifications h') = true) → tracks base queue h' w.
Proof.
  intros [Hq Hb Hp Hs Hw] [new Hnew] Hroom Hc. split; [done|done|rewrite Hnew, length_app; lia| |].
  - intros Hr i Hi. rewrite Hnew, lookup_app_l by lia. by apply Hs.
  - intros Hr. destruct (Hw Hr) as [?|[(i & Hi & Hl)|[?|?]]]; [by left|right; left|right; right; left|right; right; right; auto].
    + exists i. split; [done|]. rewrite Hnew. by apply lookup_app_l_Some.
    + rewrite Hroom, Hnew, length_app. lia.
Qed.

(** What the listener receives while the hub listens is broadcast. *)
Lemma round_grows r h :
  let h' := hub_round r h in
  hub_listening h' = hub_listening h ∧ bc_room (hub_notifications h') = bc_room (hub_notifications h) ∧
  bc_closed (hub_notifications h') = bc_closed (hub_notifications h) ∧
  sent h' = sent h ++ (if hub_listening h then payloads [Listener_turn r] else []).
Proof.
  unfold hub_round. destruct h as [b l []]; simpl; [|by rewrite app_nil_r]. destruct r as [p|]; simpl; [|by rewrite app_nil_r].
  destruct (send_sent p b) as (-> & -> & ->). done.
Qed.

Lemma drop_grows s :
  let s' := PgSignal_drop s in
  (hub_listening (sig_hub s') = true → hub_listening (sig_hub s) = true) ∧
  bc_room (hub_notifications (sig_hub s')) = bc_room (hub_notifications (sig_hub s)) ∧
  (bc_closed (hub_notifications (sig_hub s)) = true → bc_closed (hub_notifications (sig_hub s')) = true) ∧
  sent (sig_hub s') = sent (sig_hub s).
Proof.
  destruct s as [[b l on] [|[|n]]]; simpl; [done| |done]. by destruct (close_sent b) as (-> & -> & ->).
Qed.

(** What a turn leaves of a wait and broadcasts. *)
Lemma hub_turn_tracks base queue t s w :
  tracks base queue (sig_hub s) w → let '(s', w') := hub_turn t (s, w) in
  tracks base queue (sig_hub s') w' ∧
  (hub_listening (sig_hub s') = true → hub_listening (sig_hub s) = true) ∧
  sent (sig_hub s') = sent (sig_hub s) ++ (if hub_listening (sig_hub s) then payloads [t] else []).
Proof.
  intros Ht.
  assert (Hskip : ∀ on : bool, (if on then [] else []) = @nil string) by by intros [].
  destruct t; simpl; rewrite ?Hskip, ?app_nil_r.
  - destruct (round_grows r (sig_hub s)) as (Ho & Hr & Hc & Hs). split; [|split; [by rewrite Ho|done]].
    eapply tracks_grows; [exact Ht|rewrite Hs; by apply prefix_app_r|done|by rewrite Hc].
  - split; [|done]. destruct (returned w) eqn:Hr; [by rewrite returned_poll|by apply poll_cases].
  - split; [|done]. unfold wait_timeout. destruct (returned w) eqn:Hr; [done|]. destruct Ht as [Hq ? ? ? _].
    assert (Hd : returned (meets Timeout (wt_receiver w) w) = true)
      by (rewrite returned_meets by done; by apply bool_decide_true).
    split; simpl; [done..|congruence|]. intros _. left. simpl. apply elem_of_app. right. by left.
  - by destruct s as [h []].
  - destruct (drop_grows s) as (Ho & Hr & Hc & Hs). split; [|done].
    eapply tracks_grows; [exact Ht|by rewrite Hs|done|done].
Qed.

Lemma hub_run_tracks base queue turns s w :
  tracks base queue (sig_hub s) w → let '(s', w') := hub_run turns (s, w) in
  tracks base queue (sig_hub s') w' ∧
  (hub_listening (sig_hub s') = true → hub_listening (sig_hub s) = true) ∧
  (length (sent (sig_hub s')) ≤ length (sent (sig_hub s)) + length turns)%nat ∧
  (hub_listening (sig_hub s') = true → sent (sig_hub s') = sent (sig_hub s) ++ payloads turns).
Proof.
  revert s w. induction turns as [|t turns IH]; intros s w Ht; [simpl; rewrite app_nil_r; by split_and!; [| |lia|]|].
  change (hub_run (t :: turns) (s, w)) with (hub_run turns (hub_turn t (s, w))).
  pose proof (hub_turn_tracks base queue t s w Ht) as H1. destruct (hub_turn t (s, w)) as [s1 w1].
  destruct H1 as (Ht1 & Ho1 & Hs1). specialize (IH s1 w1 Ht1).
  destruct (hub_run turns (s1, w1)) as [s' w']. destruct IH as (Ht' & Ho & Hlen & Hs). split_and!; [done|tauto| |].
  - rewrite Hs1, length_app in Hlen. destruct (hub_listening (sig_hub s)); simpl in Hlen |- *; [|lia].
    assert (length (payloads [t]) ≤ 1)%nat by (destruct t as [[]| | | |]; simpl; lia). simpl in *. lia.
  - intros Hl. rewrite (Hs Hl), Hs1, (Ho1 (Ho Hl)), <-app_assoc. f_equal. by destruct t as [[]| | | |].
Qed.

Lemma hub_run_ok turns x : hub_ok x.1 → hub_ok (hub_run turns x).1.
Proof.
  revert x. induction turns as [|t turns IH]; intros [s w] Ho; [done|]. by apply IH, hub_turn_ok.
Qed.

(** ** Theorems *)

(** No wake-up is lost: whatever else happens, a wait that had subscribed when
    the listener received a notification of its queue is over after as many
    more polls as there were turns, and so is one whose hub was dropped, even
    if more notifications came than the channel holds. *)
Theorem no_lost_wakeup queue turns s :
  hub_ok s → (0 < sig_clones s)%nat →
  let '(s', w') := hub_run turns (s, PgSignal_wait queue (sig_hub s)) in
  QueueName_as_str queue ∈ payloads turns ∨ sig_clones s' = 0%nat →
  returned (Nat.iter (S (length turns)) (wait_poll (sig_hub s')) w') = true.
Proof.
  intros Hok Hn. pose proof (hub_run_tracks _ _ turns s _ (wait_tracks queue (sig_hub s))) as Hrun.
  pose proof (hub_run_ok turns (s, PgSignal_wait queue (sig_hub s)) Hok) as Hok'.
  destruct (hub_run turns _) as [s' w']. destruct Hrun as (Ht & _ & Hlen & Hs), Hok' as [Ho Hc]. simpl in Ho, Hc. intros Hwhy.
  eapply polls_return; [exact Ht|pose proof (tr_base _ _ _ _ Ht); lia|].
  destruct (hub_listening (sig_hub s')) eqn:Hl; [left|by right; rewrite Hc].
  symmetry in Ho. apply bool_decide_eq_true in Ho. destruct Hwhy as [Hin|]; [|lia]. rewrite (Hs eq_refl).
  apply list_elem_of_lookup in Hin as [i Hi].
  exists (length (sent (sig_hub s)) + i)%nat. split; [lia|]. rewrite lookup_app_r by lia. by replace (_ + i - _)%nat with i by lia.
Qed.

(** A wait is over for a reason: it timed out, its queue was named since it
    subscribed, it fell behind by more than the channel holds, or the last
    signal was dropped. *)
Theorem woken_for_a_reason queue turns s :
  hub_ok s →
  let '(s', w') := hub_run turns (s, PgSignal_wait queue (sig_hub s)) in
  returned w' = true →
  Timeout ∈ wt_met w' ∨ QueueName_as_str queue ∈ payloads turns ∨
  (bc_room (hub_notifications (sig_hub s')) < length (payloads turns))%nat ∨ sig_clones s' = 0%nat.
Proof.
  intros Hok. pose proof (hub_run_tracks _ _ turns s _ (wait_tracks queue (sig_hub s))) as Hrun.
  pose proof (hub_run_ok turns (s, PgSignal_wait queue (sig_hub s)) Hok) as Hok'.
  destruct (hub_run turns _) as [s' w']. destruct Hrun as (Ht & _ & _ & Hs), Hok' as [Ho Hc]. simpl in Ho, Hc.
  intros Hr. destruct (hub_listening (sig_hub s')) eqn:Hl.
  - specialize (Hs eq_refl). destruct (tr_why _ _ _ _ Ht Hr) as [?|[(i & Hi & Hlk)|[Hroom|?]]].
    + by left.
    + right. left. rewrite Hs, lookup_app_r in Hlk by lia. by eapply list_elem_of_lookup_2.
    + right. right. left. rewrite Hs, length_app in Hroom. lia.
    + simpl in Hc. congruence.
  - right. right. right. symmetry in Ho. apply bool_decide_eq_false in Ho. lia.
Qed.
End hub.
