(* ===== verification/DevLoop.v ===== *)
(** * The end-to-end exercise ([koine-server/src/dev_loop.rs])

    Three jobs, a worker that decides by flags in the payload, and the check
    of the recorded stories. Connecting, the tasks and their timing belong to
    sqlx and tokio: the worker is one round of its loop. *)

From S2P Require Import Prelude Std Ids Retry Events Job Lifecycle Commands Ports UseCases.

Open Scope string_scope.
Open Scope list_scope.
Open Scope Z_scope.

(** ** Texts of errors *)

Definition EnqueueError_to_string `{ext : Externals} (e : EnqueueError) : string :=
  match e with
  | InvalidPolicy reason => "invalid retry policy: " +:+ reason
  | Enqueue_Store e => EventStoreError_to_string e
  end.

Definition AckError_to_string `{ext : Externals} (e : AckError) : string :=
  match e with
  | Ack_Store e => EventStoreError_to_string e
  | Ack_Domain e => DomainError_to_string e
  end.

(** [slice::join] *)
Fixpoint join (sep : string) (parts : list string) : string :=
  match parts with
  | [] => ""
  | [part] => part
  | part :: parts => part +:+ sep +:+ join sep parts
  end.

(** What the exercise uses of [serde_json]. *)
Class Json `{ext : Externals} : Type := {
  (** [Value::get(name).and_then(Value::as_bool)] *)
  get_bool : Value → string → option bool;
  (** [json!({name: value, ...})] and [json!("...")] *)
  json_flags : list (string * bool) → Value;
  json_string : string → Value;
  get_flag name value : get_bool (json_flags [(name, value)]) name = Some value;
  get_other name other value : other ≠ name → get_bool (json_flags [(other, value)]) name = None;
  get_none name : get_bool (json_flags []) name = None;
}.

Definition dev_retry_policy : RetryPolicy :=
  {| max_attempts := 3;
     base_delay := Duration_from_millis 500;
     max_delay := Duration_from_secs 2 |}.

Section dev_loop.
Context `{ext : Externals} {json : Json} {W : Type}.

Definition flag (payload : Value) (name : string) : bool := default false (get_bool payload name).

Definition show_job (id : JobId) : string := Uuid_to_string (JobId_as_uuid id).

(** Loads a job's recorded event kinds, oldest first. *)
Definition story `{!EventStore W} (job : JobId) : ST W string (list string) :=
  let! envelopes := st_map_err (λ e, "load " +:+ show_job job +:+ ": " +:+ EventStoreError_to_string e)
    (store_load job) in
  st_ret ((λ env, kind (event env)) <$> envelopes).

(** One round of [worker_loop]; the answer is whether there was a job. *)
Definition worker_round `{!EventStore W, !Dispatcher W, !IdGenerator W, !Clock W}
    (queue : QueueName) (worker : WorkerId) (ttl : Duration) : ST W string bool :=
  let! leased := st_map_err (λ e, "lease_next: " +:+ DispatchError_to_string e)
    (LeaseNextJob_execute queue worker ttl) in
  match leased with
  | None => st_ret false
  | Some leased =>
      if flag (leased_payload leased) "crashy" && (leased_attempt leased =? 0) then st_ret true
      else
        let! _ := st_map_err
          (λ e, "start " +:+ show_job (leased_job_id leased) +:+ ": " +:+ AckError_to_string e)
          (WorkerAck_start (leased_job_id leased) worker) in
        if flag (leased_payload leased) "flaky" && (leased_attempt leased =? 0) then
          let error := {| error_kind := "io"; message := "simulated transient io error";
                          stacktrace := None; retryable := true |} in
          let! _ := st_map_err
            (λ e, "fail " +:+ show_job (leased_job_id leased) +:+ ": " +:+ AckError_to_string e)
            (WorkerAck_fail (leased_job_id leased) worker (leased_lease leased) error) in
          st_ret true
        else
          let! _ := st_map_err
            (λ e, "succeed " +:+ show_job (leased_job_id leased) +:+ ": " +:+ AckError_to_string e)
            (WorkerAck_succeed (leased_job_id leased) worker (leased_lease leased)
              (Some (json_string "done"))) in
          st_ret true
  end.

Definition dev_job (queue : QueueName) (payload : Value) : EnqueueCommand :=
  {| cmd_queue := queue; cmd_payload := payload; cmd_priority := Priority_mk 0;
     cmd_retry_policy := dev_retry_policy; cmd_not_before := None; cmd_lineage := Lineage_default |}.

(** The loop of [enqueue_dev_jobs] over the roles and payloads. *)
Fixpoint enqueue_roles `{!EventStore W, !IdGenerator W, !Clock W} (queue : QueueName)
    (roles : list (string * Value)) : ST W string (list JobId) :=
  match roles with
  | [] => st_ret []
  | (role, payload) :: roles =>
      let! job := st_map_err (λ e, "enqueue " +:+ role +:+ ": " +:+ EnqueueError_to_string e)
        (EnqueueJob_execute (dev_job queue payload)) in
      let! jobs := enqueue_roles queue roles in
      st_ret (job :: jobs)
  end.

Definition enqueue_dev_jobs `{!EventStore W, !IdGenerator W, !Clock W} (queue : QueueName)
    : ST W string (JobId * JobId * JobId) :=
  let! enqueued := enqueue_roles queue
    [("job1 (plain)", json_flags []);
     ("job2 (crashy)", json_flags [("crashy", true)]);
     ("job3 (flaky)", json_flags [("flaky", true)])] in
  match enqueued with
  | [job1; job2; job3] => st_ret (job1, job2, job3)
  | _ => st_lift Panic
  end.

Definition contains (kinds : list string) (k : string) : bool := bool_decide (k ∈ kinds).

(** The verdict of [check_stories] on the three stories. *)
Definition missing_markers (job1_story job2_story job3_story : list string) : list string :=
  (if bool_decide (job1_story = ["enqueued"; "leased"; "started"; "succeeded"]) then []
   else ["job1 (plain): expected enqueued,leased,started,succeeded — got " +:+ join "," job1_story]) ++
  (if contains job2_story "lease_expired" then [] else ["job2 (crashy): missing lease_expired"]) ++
  (if contains job3_story "failed" && contains job3_story "retry_scheduled" then []
   else ["job3 (flaky): missing failed and/or retry_scheduled"]).
End dev_loop.
