(* ===== verification/ServerFacts.v ===== *)
(** * What the composition root promises

    Which environments [parse_config] accepts and what it makes of them; and
    that the seed of the retry jitter keeps the entropy of both halves of the
    UUID it is folded from. *)

From S2P Require Import Prelude Std Ids Retry Events Job Lifecycle Commands Ports UseCases Grpc Server.

Open Scope string_scope.
Open Scope list_scope.
Open Scope Z_scope.

(** ** Numbers *)

Definition is_digit (b : Z) : Prop := 48 ≤ b ≤ 57.

(** The number a run of digits denotes. *)
Definition number (acc : Z) (digits : list Z) : Z := foldl (λ n b, n * 10 + (b - 48)) acc digits.

Lemma to_digit_cases b : (is_digit b ∧ to_digit b = Some (b - 48)) ∨ (¬ is_digit b ∧ to_digit b = None).
Proof. unfold is_digit, to_digit. destruct (Z.leb_spec 48 b), (Z.leb_spec b 57); simpl; (left + right); split; (done || lia). Qed.

Lemma number_ge acc digits : 0 ≤ acc → Forall is_digit digits → acc ≤ number acc digits.
Proof.
  intros Ha Hd. revert acc Ha. induction Hd as [|b digits Hb _ IH]; intros acc Ha; simpl; [lia|].
  unfold is_digit in Hb. etrans; [|apply IH; lia]. lia.
Qed.

Lemma parse_digits_spec max acc digits n :
  0 ≤ acc ≤ max → parse_digits max acc digits = Ok n ↔
  Forall is_digit digits ∧ number acc digits = n ∧ n ≤ max.
Proof.
  revert acc. induction digits as [|b digits IH]; intros acc Ha; simpl.
  { split; [intros [= <-]; by split_and!; [constructor| |lia]|by intros (_ & -> & _)]. }
  rewrite Forall_cons. destruct (to_digit_cases b) as [[Hb ->]|[Hb ->]]; [|by split; [|intros [[? _] _]]].
  unfold is_digit in Hb. assert (Hge : Forall is_digit digits → acc * 10 + (b - 48) ≤ number (acc * 10 + (b - 48)) digits).
  { apply number_ge. lia. }
  destruct (Z.ltb_spec max (acc * 10)); [split; [done|]; intros ([_ ?] & Hn & ?); simpl in Hn; specialize (Hge ltac:(done)); lia|].
  destruct (Z.ltb_spec max (acc * 10 + (b - 48)));
    [split; [done|]; intros ([_ ?] & Hn & ?); simpl in Hn; specialize (Hge ltac:(done)); lia|].
  rewrite IH by lia. unfold is_digit. naive_solver.
Qed.

Lemma parse_uint_ok max s n :
  0 ≤ max → parse_uint max s = Ok n ↔
  ∃ digits, digits ≠ [] ∧ (bytes s = digits ∨ bytes s = 43 :: digits) ∧
    Forall is_digit digits ∧ number 0 digits = n ∧ n ≤ max.
Proof.
  intros Hm. unfold parse_uint. destruct (bytes s) as [|b [|b' rest]].
  - split; [done|]. by intros (digits & Hne & [<-|?] & _).
  - assert (Hsign : b = 43 ∨ b = 45 → ¬ is_digit b) by (unfold is_digit; lia).
    destruct (Z.eqb_spec b 43) as [->|Hb]; simpl.
    { split; [done|]. intros (digits & Hne & [<-|[= <-]] & Hd & _); [|done].
      apply Forall_cons in Hd as [Hd _]. unfold is_digit in Hd. lia. }
    destruct (Z.eqb_spec b 45) as [->|Hb']; simpl.
    { split; [done|]. intros (digits & Hne & [<-|?] & Hd & _); [|done].
      apply Forall_cons in Hd as [Hd _]. unfold is_digit in Hd. lia. }
    change (match to_digit b with Some x => _ | None => _ end) with (parse_digits max 0 [b]).
    rewrite parse_digits_spec by lia. split.
    + intros (? & ? & ?). exists [b]. auto.
    + intros (digits & Hne & [<-|[= ? _]] & ? & ? & ?); [done|lia].
  - destruct (Z.eqb_spec b 43) as [->|Hb]; rewrite parse_digits_spec by lia.
    + split.
      * intros (? & ? & ?). exists (b' :: rest). auto.
      * intros (digits & Hne & [<-|[= <-]] & Hd & ? & ?); [|done].
        apply Forall_cons in Hd as [Hd _]. unfold is_digit in Hd. lia.
    + split.
      * intros (? & ? & ?). exists (b :: b' :: rest). auto.
      * intros (digits & Hne & [<-|[= ? _]] & ? & ? & ?); [done|lia].
Qed.

(** ** Configuration *)

Section config.
Context `{platform : Platform}.
Context (lookup : string → option string).

(** The value of a numeric setting: a positive number of its type, read off
    the environment or the default. *)
Definition setting (max : Z) (name : string) (default v : Z) : Prop :=
  1 ≤ v ≤ max ∧
  match lookup name with
  | None => v = default
  | Some raw => ∃ digits, digits ≠ [] ∧ (bytes raw = digits ∨ bytes raw = 43 :: digits) ∧
      Forall is_digit digits ∧ number 0 digits = v
  end.

Lemma parse_non_zero_ok max name default v :
  1 ≤ default ≤ max → parse_non_zero lookup max name default = Ok v ↔ setting max name default v.
Proof.
  intros Hd. unfold parse_non_zero, setting. destruct (lookup name) as [raw|]; simpl.
  2: { destruct (Z.eqb_spec default 0); [lia|]. split; [by intros [= <-]|by intros [_ ->]]. }
  assert (Hv : (1 ≤ v ≤ max ∧ ∃ digits, digits ≠ [] ∧ (bytes raw = digits ∨ bytes raw = 43 :: digits) ∧
    Forall is_digit digits ∧ number 0 digits = v) ↔ 1 ≤ v ∧ parse_uint max raw = Ok v).
  { rewrite parse_uint_ok by lia. naive_solver lia. }
  rewrite Hv. destruct (parse_uint max raw) as [n|e|] eqn:Hp; simpl; [|naive_solver..].
  apply parse_uint_ok in Hp as (digits & _ & _ & Hds & <- & _); [|lia].
  pose proof (number_ge 0 digits ltac:(lia) Hds). destruct (Z.eqb_spec (number 0 digits) 0); naive_solver lia.
Qed.

(** What serves has a token. *)
Lemma token_configured cfg :
  parse_config lookup = Ok cfg → lookup "KOINE_WORKER_TOKEN" = Some (cfg_worker_token cfg) ∧ cfg_worker_token cfg ≠ "".
Proof.
  unfold parse_config. intros Hp. destruct (lookup "KOINE_WORKER_TOKEN") as [[|a s]|]; [done| |done].
  destruct (SocketAddr_parse _) as [addr|e]; [|done]. cbn [result_bind] in Hp.
  repeat (apply result_bind_ok in Hp as (? & _ & Hp)). by injection Hp as <-.
Qed.

(** C40: The server starts exactly with a non-empty worker token, an address that
    is one, and settings that are positive decimal numbers within their
    types, each from the environment or its default. *)
Theorem parse_config_spec cfg :
  parse_config lookup = Ok cfg ↔
  cfg_worker_token cfg ≠ "" ∧ lookup "KOINE_WORKER_TOKEN" = Some (cfg_worker_token cfg) ∧
  cfg_database_url cfg = default DEFAULT_DATABASE_URL (lookup "DATABASE_URL") ∧
  SocketAddr_parse (default DEFAULT_GRPC_ADDR (lookup "KOINE_GRPC_ADDR")) = inl (cfg_grpc_addr cfg) ∧
  (∃ ttl, setting U64_MAX "KOINE_MAX_LEASE_TTL_MS" DEFAULT_MAX_LEASE_TTL_MS ttl ∧
     cfg_max_lease_ttl cfg = Duration_from_millis ttl) ∧
  (∃ poll, setting U64_MAX "KOINE_IDLE_POLL_MS" DEFAULT_IDLE_POLL_MS poll ∧
     cfg_idle_poll cfg = Duration_from_millis poll) ∧
  setting U32_MAX "KOINE_DB_MAX_CONNECTIONS" DEFAULT_DB_MAX_CONNECTIONS
    (pool_max_connections (cfg_pool_config cfg)) ∧
  setting U64_MAX "KOINE_DB_ACQUIRE_TIMEOUT_MS" DEFAULT_DB_ACQUIRE_TIMEOUT_MS
    (pool_acquire_timeout_ms (cfg_pool_config cfg)).
Proof.
  unfold parse_config, parse_non_zero_u64, parse_non_zero_u32. split.
  - intros Hp. destruct (lookup "KOINE_WORKER_TOKEN") as [[|a s]|] eqn:Ht; [done| |done].
    destruct (SocketAddr_parse _) as [addr|e] eqn:Hs; [|done]. cbn [result_bind] in Hp.
    apply result_bind_ok in Hp as (ttl & Httl & Hp). apply result_bind_ok in Hp as (poll & Hpoll & Hp).
    apply result_bind_ok in Hp as (conns & Hconns & Hp). apply result_bind_ok in Hp as (acq & Hacq & [= <-]).
    apply parse_non_zero_ok in Httl, Hpoll, Hconns, Hacq; [|done..]. simpl. split_and!; eauto.
  - intros (Hne & Ht & Hdb & Ha & (ttl & Httl & He1) & (poll & Hpoll & He2) & Hconns & Hacq).
    rewrite Ht, Ha. apply parse_non_zero_ok in Httl, Hpoll, Hconns, Hacq; [|done..].
    rewrite Httl, Hpoll, Hconns, Hacq. destruct cfg as [db tok addr mx idle [c1 c2]]. simpl in *. subst.
    by destruct tok.
Qed.
End config.

(** ** The seed of the retry jitter *)

Theorem jitter_folds_both_halves hi lo :
  0 ≤ hi ≤ U64_MAX → 0 ≤ lo ≤ U64_MAX →
  fold_halves (Z.shiftl hi 64 + lo) = Z.lxor lo hi ∧
  0 ≤ fold_halves (Z.shiftl hi 64 + lo) ≤ U64_MAX ∧
  (∀ lo', 0 ≤ lo' ≤ U64_MAX → fold_halves (Z.shiftl hi 64 + lo') = fold_halves (Z.shiftl hi 64 + lo) → lo' = lo) ∧
  ∀ hi', 0 ≤ hi' ≤ U64_MAX → fold_halves (Z.shiftl hi' 64 + lo) = fold_halves (Z.shiftl hi 64 + lo) → hi' = hi.
Proof.
  intros Hhi Hlo.
  assert (Hf : ∀ h l, 0 ≤ h ≤ U64_MAX → 0 ≤ l ≤ U64_MAX → fold_halves (Z.shiftl h 64 + l) = Z.lxor l h).
  { intros h l Hh Hl. unfold fold_halves, wrap, U64_MAX in *. rewrite Z.shiftl_mul_pow2, Z.shiftr_div_pow2 by lia.
    f_equal.
    - rewrite Z.add_comm, Z.mod_add by lia. apply Z.mod_small. lia.
    - rewrite Z.div_add_l by lia. rewrite (Z.div_small l), Z.add_0_r by lia. apply Z.mod_small. lia. }
  assert (Hinj : ∀ a b c, Z.lxor a c = Z.lxor b c → a = b).
  { intros a b c He. rewrite <-(Z.lxor_0_r a), <-(Z.lxor_nilpotent c), <-Z.lxor_assoc, He, Z.lxor_assoc.
    by rewrite Z.lxor_nilpotent, Z.lxor_0_r. }
  split; [by apply Hf|]. split; [rewrite Hf by done; pose proof (lxor_range lo hi); unfold U64_MAX in *; lia|]. split.
  - intros lo' Hl. rewrite !Hf by done. apply Hinj.
  - intros hi' Hh. rewrite !Hf by done. rewrite !(Z.lxor_comm lo). apply Hinj.
Qed.
