(* ===== verification/Kept.v ===== *)
(** * Folding what a backend kept

    A stream kept with other JSON values and other record times folds
    exactly when the original does, to the same job up to its payload: no
    decision of the broker depends on what [kept_as] leaves open. *)

From S2P Require Import Prelude Std Ids Retry Events Job Lifecycle Commands Ports UseCases Contract.

Open Scope Z_scope.

Section kept.
Context `{ext : Externals}.
Implicit Types (j : Job) (ev : JobEvent) (s envs kept : list EventEnvelope).

Lemma similar_sym ev ev' : similar ev ev' → similar ev' ev.
Proof. destruct ev, ev'; simpl; intros; destruct_and?; by subst. Qed.

Lemma kept_as_sym (env env' : EventEnvelope) : kept_as env env' → kept_as env' env.
Proof. intros []. split; try done. by apply similar_sym. Qed.

Lemma kept_as_refl (env : EventEnvelope) : kept_as env env.
Proof. split; try done. apply similar_refl. Qed.

Lemma all_kept_refl s : Forall2 kept_as s s.
Proof. induction s; constructor; auto using kept_as_refl. Qed.

Lemma all_kept_sym envs kept : Forall2 kept_as envs kept → Forall2 kept_as kept envs.
Proof. intros H. apply Forall2_flip. eapply Forall2_impl; [exact H|]. apply kept_as_sym. Qed.

Lemma step_similar st ev ev' st' : step st ev st' → similar ev ev' → step st ev' st'.
Proof.
  intros Hs He. destruct (carries_json ev) eqn:Hc.
  - destruct ev; try done; inversion Hs; subst; destruct ev'; try done; by constructor.
  - by apply similar_plain in He as ->.
Qed.

(** The same job up to its payload. *)
Definition alike j j' : Prop := j' = set_payload (job_payload j') j.

Lemma alike_intro p j : alike j (set_payload p j).
Proof. by destruct j. Qed.

Lemma alike_sym j j' : alike j j' → alike j' j.
Proof. unfold alike. generalize (job_payload j'). intros p ->. by destruct j. Qed.

Lemma alike_state j j' : alike j j' → job_state j' = job_state j ∧ job_version j' = job_version j ∧
  job_id j' = job_id j ∧ job_queue j' = job_queue j ∧ job_priority j' = job_priority j ∧
  job_attempt j' = job_attempt j ∧ job_retry_policy j' = job_retry_policy j.
Proof. unfold alike. by generalize (job_payload j'); intros p ->. Qed.

Lemma apply_alike ev ev' j j' j1 :
  similar ev ev' → alike j j' → apply ev j = (Ok tt, j1) →
  ∃ j1', apply ev' j' = (Ok tt, j1') ∧ alike j1 j1'.
Proof.
  intros He Hj (st & Hst & ->)%apply_ok_inv. pose proof (step_similar _ _ _ _ Hst He) as Hst'.
  apply alike_state in Hj as (Hs & Hv & Hi & Hq & Hp & Ha & Hr). rewrite <-Hs in Hst'.
  eexists. split; [by apply apply_by_step|]. unfold alike, set_payload. simpl.
  rewrite Hi, Hq, Hp, Hr, Hv. f_equal.
  destruct (carries_json ev) eqn:Hc; [|apply similar_plain in He as ->; [|done]].
  - destruct ev, ev'; simpl in *; try done; by destruct_and?.
  - destruct ev; simpl; congruence.
Qed.

Lemma fold_rest_alike envs kept j j' j1 :
  Forall2 kept_as envs kept → alike j j' → fold_rest j envs = Ok j1 →
  ∃ j1', fold_rest j' kept = Ok j1' ∧ alike j1 j1'.
Proof.
  intros Hk. revert j j'. induction Hk as [|env env' envs kept Hk _ IH]; intros j j' Hj; simpl.
  - intros [= ->]. eauto.
  - pose proof (alike_state _ _ Hj) as (_ & -> & _). rewrite (kept_version _ _ Hk).
    destruct (negb _); [done|].
    destruct (apply (event env) j) as [[[]| |] j2] eqn:Ha; [|done..].
    destruct (apply_alike _ _ _ _ _ (kept_event _ _ Hk) Hj Ha) as (j2' & -> & Hj2). by apply IH.
Qed.

Lemma from_events_alike envs kept j :
  Forall2 kept_as envs kept → from_events envs = Ok j →
  ∃ j', from_events kept = Ok j' ∧ alike j j'.
Proof.
  intros Hk (env & rest & q & p & pr & rp & nb & -> & He & Hv & Hf)%from_events_inv.
  apply Forall2_cons_inv_l in Hk as (env' & kept' & Hk & Hks & ->).
  pose proof (kept_event _ _ Hk) as Hs. rewrite He in Hs.
  simpl. destruct (event env'); try done. destruct Hs as (<- & <- & <- & <-).
  rewrite (kept_version _ _ Hk), (kept_stream_id _ _ Hk), Hv. simpl.
  eapply fold_rest_alike; [exact Hks| |exact Hf]. by apply alike_intro.
Qed.

Lemma kept_sequential v envs kept : Forall2 kept_as envs kept → sequential v envs → sequential v kept.
Proof.
  intros Hk. revert v. induction Hk as [|env env' envs kept Hk _ IH]; intros v; simpl; [done|].
  intros [Hv Hs]. rewrite (kept_version _ _ Hk). auto.
Qed.

(** Whether a batch is acceptable does not depend on how it is kept. *)
Lemma acceptable_kept old id expected envs kept :
  Forall2 kept_as envs kept → acceptable old id expected envs → acceptable old id expected kept.
Proof.
  intros Hk (? & Hseq & Hids & j & Hj). split_and!; [done|..].
  - by eapply kept_sequential.
  - clear -Hk Hids. induction Hk as [|env env' envs kept Hk _ IH]; [done|].
    apply Forall_cons in Hids as [? ?]. constructor; [|auto]. by rewrite (kept_stream_id _ _ Hk).
  - destruct (from_events_alike (old ++ envs) (old ++ kept) j) as (j' & ? & _); [|done|eauto].
    apply Forall2_app; [apply all_kept_refl|done].
Qed.
End kept.
