(* ===== verification/Postgres.v ===== *)
(** * PostgreSQL as the adapters of [koine-store-postgres] use it

    The tables of [migrations/], transactions, and the world a statement runs
    in. The schema and the SQL text of the statements belong to the sources
    and are translated (the statements in [PgStore], [PgDispatcher] and
    [PgRelay]); what the server, the driver and the JSON encoder do with a
    value is the class [Postgres], with the documented facts used of it.

    A transaction runs under READ COMMITTED, the default: each statement sees
    what other sessions have committed before it, overlaid with the
    transaction's own writes; a commit publishes the writes at once and a
    dropped transaction leaves none of them. What happens around a round trip
    to the server is read off a script: other sessions commit before it, or
    it fails. *)

From stdpp Require Import sorting.
From S2P Require Import Prelude Std Ids Retry Events Job Lifecycle Commands Ports UseCases Contract.

Open Scope string_scope.
Open Scope list_scope.
Open Scope Z_scope.

(** ** Errors of the driver *)

(** [sqlx::Error]: an error the server reports, with its SQLSTATE and the
    constraint it names, or anything else (connection, pool, decoding). *)
Inductive SqlxError : Type :=
| Sqlx_Database (code : string) (constraint : option string) (text : string)
| Sqlx_Other (text : string).

Definition UNIQUE_VIOLATION : string := "23505".

(** The name of a constraint that the migration does not name itself is made
    of the table and the column. *)
Definition EVENT_ID_UNIQUE : string := "events_event_id_key".

Definition STREAM_VERSION_UNIQUE : string := "events_stream_version_unique".

Definition of_sum {A E : Type} (x : A + E) : result A E :=
  match x with
  | inl a => Ok a
  | inr e => Err e
  end.

(** Deserialization validates names: [#[serde(try_from = "String")]]. *)
Definition names_valid `{ext : Externals} (ev : JobEvent) : bool :=
  match ev with
  | E_Enqueued q _ _ _ _ => is_ok (QueueName_try_from (QueueName_into q))
  | E_Leased w _ _ | E_Started w | E_LateAckConflict w _ _ =>
      is_ok (WorkerId_try_from (WorkerId_into w))
  | _ => true
  end.

(** Not the report of a violated unique constraint. *)
Definition not_unique (e : SqlxError) : Prop := ∀ c text, e ≠ Sqlx_Database UNIQUE_VIOLATION c text.

(** ** The server, the driver and the JSON encoder *)

Class Postgres `{ext : Externals} : Type := {
  (** [serde_json::to_value] and [from_value]; the error is its text. *)
  event_to_value : JobEvent → Value + string;
  event_from_value : Value → JobEvent + string;
  envelope_to_value : EventEnvelope → Value + string;
  envelope_from_value : Value → EventEnvelope + string;
  (** What a JSONB column gives back for a value, or its refusal. *)
  jsonb : Value → Value + SqlxError;
  (** What a TIMESTAMPTZ column or parameter makes of a time. *)
  timestamptz : DateTime → DateTime + SqlxError;
  (** The refusal of a TEXT value with a NUL character. *)
  invalid_text : SqlxError;
  (** The refusal of a negative [LIMIT]. *)
  negative_limit : SqlxError;
  (** The text of a reported unique violation. *)
  violation_text : string → string;
  (** Which of two violated constraints an error names is not specified. *)
  names_version_first : bool;
  (** [Display] of [sqlx::Error]. *)
  SqlxError_to_string : SqlxError → string;
  (** An event read back is the one written up to JSON values. *)
  event_read_back ev v v' ev' :
    event_to_value ev = inl v → jsonb v = inl v' → event_from_value v' = inl ev' → similar ev ev';
  event_names_read ev v : event_from_value v = inl ev → names_valid ev = true;
  (** An envelope encodes when its event does and its trace is a text. *)
  envelope_encodes env v v' :
    event_to_value (event env) = inl v → jsonb v = inl v' →
    (∀ s, traceparent env = Some s → Forall (λ b, b ≠ 0) (bytes s)) →
    ∃ x x', envelope_to_value env = inl x ∧ jsonb x = inl x';
  (** A refused value is no unique violation. *)
  jsonb_refusal v e : jsonb v = inr e → not_unique e;
  timestamptz_refusal t e : timestamptz t = inr e → not_unique e;
  text_refusal : not_unique invalid_text;
  (** TIMESTAMPTZ keeps microseconds. *)
  timestamptz_near t t' : timestamptz t = inl t' → t - 1000 < t' < t + 1000;
  timestamptz_mono t1 t2 t1' t2' :
    timestamptz t1 = inl t1' → timestamptz t2 = inl t2' → t1 ≤ t2 → t1' ≤ t2';
  timestamptz_again t t' : timestamptz t = inl t' → timestamptz t' = inl t';
}.

(** A TEXT column or parameter. *)
Definition text_ok (s : string) : bool := forallb (λ b, negb (b =? 0)) (bytes s).

(** A NUL byte is a character of its own. *)
Lemma chars_nul s : 0 ∈ bytes s → 0 ∈ chars s.
Proof.
  assert (Hn : ∀ n s, (String.length s ≤ n)%nat → 0 ∈ bytes s → 0 ∈ chars s); [|by eapply Hn].
  clear s. intros n. induction n as [|n IH]; intros s Hlen Hin.
  { destruct s; [by apply elem_of_nil in Hin|simpl in Hlen; lia]. }
  destruct s as [|a s1]; [by apply elem_of_nil in Hin|]. simpl in Hlen, Hin |- *.
  destruct (Z.ltb_spec (byte a) 128) as [Ha|Ha].
  { apply elem_of_cons in Hin as [->|Hin]; [by left|right; apply IH; [lia|done]]. }
  apply elem_of_cons in Hin as [?|Hin]; [lia|].
  assert (Hskip : 0 ∈ chars s1) by (apply IH; [lia|done]).
  repeat case_match; subst; try (by right); right;
    repeat match goal with
    | H : (_ && _)%bool = true |- _ => apply andb_true_iff in H as [? ?]
    | H : is_continuation _ = true |- _ => unfold is_continuation in H
    | H : (_ <=? _) = true |- _ => apply Z.leb_le in H
    end; simpl in Hlen, Hin; repeat (apply elem_of_cons in Hin as [?|Hin]; [lia|]);
    by apply IH; [lia|].
Qed.

Lemma text_ok_spec s : text_ok s = true ↔ 0 ∉ bytes s.
Proof.
  unfold text_ok. induction (bytes s) as [|b bs IH]; simpl; [by split; [intros _ ?%elem_of_nil|]|].
  rewrite andb_true_iff, IH, negb_true_iff, Z.eqb_neq, not_elem_of_cons. naive_solver.
Qed.

Lemma valid_queue_text q : is_ok (QueueName_try_from q) = true → text_ok q = true.
Proof.
  unfold QueueName_try_from, QueueName_new. repeat case_match; try done. intros _.
  match goal with H : negb _ = false |- _ => apply negb_false_iff in H as Hok end.
  rewrite (chars_all_ascii _ _ queue_char_ok_ascii) in Hok. apply text_ok_spec. intros Hin.
  rewrite forallb_forall in Hok. apply list_elem_of_In, Hok in Hin. done.
Qed.

Lemma valid_worker_text w : is_ok (WorkerId_try_from w) = true → text_ok w = true.
Proof.
  unfold WorkerId_try_from, WorkerId_new. repeat case_match; try done. intros _.
  apply text_ok_spec. intros Hin%chars_nul%list_elem_of_In.
  match goal with H : existsb _ _ = false |- _ => apply not_true_iff_false in H; apply H end.
  apply existsb_exists. by exists 0.
Qed.

(** ** The tables ([migrations/0001_event_store.sql],
       [0002_worker_presence.sql]), each by its primary key *)

Record DispatchRow : Type := DispatchRow_mk {
  dq_queue : string;
  dq_priority : Z;
  dq_seq : Z;
  dq_not_before : option DateTime;
  dq_lease_id : option Uuid;
  dq_worker_id : option string;
  dq_lease_expires_at : option DateTime;
}.

#[export] Instance DispatchRow_eq_dec : EqDecision DispatchRow.
Proof. solve_decision. Defined.

Section tables.
Context `{ext : Externals}.

Record EventRow : Type := EventRow_mk {
  ev_stream_id : Uuid;
  ev_version : Z;
  ev_event_id : Uuid;
  ev_event_type : string;
  ev_schema_version : Z;
  ev_payload : Value;
  ev_correlation_id : Uuid;
  ev_causation_id : option Uuid;
  ev_traceparent : option string;
  ev_recorded_at : DateTime;
}.

Record OutboxRow : Type := OutboxRow_mk {
  ob_event_id : Uuid;
  ob_stream_id : Uuid;
  ob_envelope : Value;
}.

#[export] Instance OutboxRow_eq_dec : EqDecision OutboxRow.
Proof. solve_decision. Defined.

Record WorkerRow : Type := WorkerRow_mk {
  wk_first_seen : DateTime;
  wk_last_seen : DateTime;
  wk_last_queue : option string;
}.

Record Tables : Type := Tables_mk {
  tb_events : gmap Z EventRow;
  tb_dispatch : gmap Uuid DispatchRow;
  tb_outbox : gmap Z OutboxRow;
  tb_workers : gmap string WorkerRow;
}.

(** The sequences behind the identity columns and [dispatch_seq]: the last
    value given out. They are not transactional. *)
Record Seqs : Type := Seqs_mk {
  sq_global : Z;
  sq_dispatch : Z;
  sq_outbox : Z;
}.

(** The database, and the notifications it has delivered on the channel
    [koine_dispatch]. *)
Record Db : Type := Db_mk {
  db_tables : Tables;
  db_seqs : Seqs;
  db_notified : list string;
}.

(** A migrated, empty database. *)
Definition Db_empty : Db := Db_mk (Tables_mk ∅ ∅ ∅ ∅) (Seqs_mk 0 0 0) [].

(** ** Transactions *)

(** What an open transaction has written ([None]: deleted), the rows it has
    locked, and the notifications it will deliver. *)
Record Writes : Type := Writes_mk {
  wr_events : gmap Z EventRow;
  wr_dispatch : gmap Uuid (option DispatchRow);
  wr_outbox : gmap Z (option OutboxRow);
  wr_locked_jobs : gset Uuid;
  wr_locked_outbox : gset Z;
  wr_notify : list string;
}.

Definition no_writes : Writes := Writes_mk ∅ ∅ ∅ ∅ ∅ [].

Definition overlay {K A : Type} `{Countable K} (d : gmap K (option A)) (m : gmap K A) : gmap K A :=
  merge (λ o x, match o with Some y => y | None => x end) d m.

(** The tables as a statement of the transaction sees them. *)
Definition view (wr : Writes) (tb : Tables) : Tables :=
  Tables_mk (wr_events wr ∪ tb_events tb) (overlay (wr_dispatch wr) (tb_dispatch tb))
    (overlay (wr_outbox wr) (tb_outbox tb)) (tb_workers tb).

(** The transaction of another session that brings the tables from [tb] to
    [tb'] need not wait for the open one: it leaves the rows that one has
    written or locked, and its events are no duplicates of uncommitted
    ones. *)
Definition compatible (wr : Writes) (tb tb' : Tables) : bool :=
  bool_decide (set_Forall (λ k, tb_dispatch tb' !! k = tb_dispatch tb !! k)
    (dom (wr_dispatch wr) ∪ wr_locked_jobs wr)) &&
  bool_decide (set_Forall (λ k, tb_outbox tb' !! k = tb_outbox tb !! k)
    (dom (wr_outbox wr) ∪ wr_locked_outbox wr)) &&
  bool_decide (map_Forall (λ k row, tb_events tb' !! k = None ∧
    map_Forall (λ _ row', ¬ (ev_stream_id row' = ev_stream_id row ∧ ev_version row' = ev_version row)
      ∧ ev_event_id row' ≠ ev_event_id row) (tb_events tb')) (wr_events wr)).

End tables.

Section sessions.
Context `{ext : Externals} {G C : Type}.

(** What happens at a round trip: other sessions commit before the statement
    runs, and hold the locks [locked_jobs] and [locked_outbox] while it does;
    the round trip fails; or (of a commit) it takes effect and the answer is
    lost. *)
Inductive Fate : Type :=
| Runs (others : Db → Db) (locked_jobs : gset Uuid) (locked_outbox : gset Z)
| Fails (e : SqlxError)
| AnswerLost (e : SqlxError).

(** The database, what it has in store for this process, and the process's
    id source and clock. *)
Record PgWorld : Type := PgWorld_mk {
  pg_db : Db;
  pg_script : list Fate;
  pg_ids : G;
  pg_clock : C;
}.

Definition set_pg_db (db : Db) (w : PgWorld) : PgWorld :=
  PgWorld_mk db (pg_script w) (pg_ids w) (pg_clock w).

Definition set_pg_script (s : list Fate) (w : PgWorld) : PgWorld :=
  PgWorld_mk (pg_db w) s (pg_ids w) (pg_clock w).

Definition set_pg_ids (g : G) (w : PgWorld) : PgWorld :=
  PgWorld_mk (pg_db w) (pg_script w) g (pg_clock w).

Definition set_pg_clock (c : C) (w : PgWorld) : PgWorld :=
  PgWorld_mk (pg_db w) (pg_script w) (pg_ids w) c.

#[export] Instance PgWorld_Clock `{!Clock C} : Clock PgWorld := {|
  clock_now w := let '(t, c) := clock_now (pg_clock w) in (t, set_pg_clock c w);
|}.

#[export] Instance PgWorld_IdGenerator `{!IdGenerator G} : IdGenerator PgWorld := {|
  gen_job_id w := let '(x, g) := gen_job_id (pg_ids w) in (x, set_pg_ids g w);
  gen_event_id w := let '(x, g) := gen_event_id (pg_ids w) in (x, set_pg_ids g w);
  gen_lease_id w := let '(x, g) := gen_lease_id (pg_ids w) in (x, set_pg_ids g w);
  gen_correlation_id w := let '(x, g) := gen_correlation_id (pg_ids w) in (x, set_pg_ids g w);
  jitter_seed w := let '(x, g) := jitter_seed (pg_ids w) in (x, set_pg_ids g w);
|}.

(** A [Transaction] in that world. *)
Record Tx : Type := Tx_mk {
  tx_world : PgWorld;
  tx_writes : Writes;
}.

Definition set_tx_world (w : PgWorld) (t : Tx) : Tx := Tx_mk w (tx_writes t).

Definition set_tx_writes (wr : Writes) (t : Tx) : Tx := Tx_mk (tx_world t) wr.

Definition tx_db (t : Tx) : Db := pg_db (tx_world t).

(** What the next statement sees. *)
Definition tx_view (t : Tx) : Tables := view (tx_writes t) (db_tables (tx_db t)).

(** A session whose locks are in its way waits: its commit does not come
    before the statement. *)
Definition interfere (others : Db → Db) (t : Tx) : Tx :=
  let db' := others (tx_db t) in
  if compatible (tx_writes t) (db_tables (tx_db t)) (db_tables db')
  then set_tx_world (set_pg_db db' (tx_world t)) t
  else t.

Definition next_script (t : Tx) : Tx :=
  set_tx_world (set_pg_script (tail (pg_script (tx_world t))) (tx_world t)) t.

(** One statement; [body] gets the rows other sessions hold locks on. *)
Definition round_trip {T : Type} (body : gset Uuid → gset Z → ST Tx SqlxError T)
    : ST Tx SqlxError T := λ t,
  match pg_script (tx_world t) with
  | [] => body ∅ ∅ t
  | Runs others jobs outbox :: _ => body jobs outbox (interfere others (next_script t))
  | Fails e :: _ | AnswerLost e :: _ => (Err e, next_script t)
  end.

(** [pool.begin()] *)
Definition sql_begin : ST Tx SqlxError unit := round_trip (λ _ _, st_ret tt).

Definition publish (t : Tx) : Tx :=
  set_tx_world (set_pg_db (Db_mk (tx_view t) (db_seqs (tx_db t))
    (db_notified (tx_db t) ++ wr_notify (tx_writes t))) (tx_world t)) (set_tx_writes no_writes t).

(** [tx.commit()] *)
Definition sql_commit : ST Tx SqlxError unit := λ t,
  match pg_script (tx_world t) with
  | [] => (Ok tt, publish t)
  | Runs others _ _ :: _ => (Ok tt, publish (interfere others (next_script t)))
  | Fails e :: _ => (Err e, next_script t)
  | AnswerLost e :: _ => (Err e, publish (next_script t))
  end.

(** A transaction opened on the pool and dropped at the end of [f]: what [f]
    has not committed by then is rolled back. *)
Definition with_tx {E T : Type} (f : ST Tx E T) : ST PgWorld E T := λ w,
  let '(r, t) := f (Tx_mk w no_writes) in (r, tx_world t).

(** ** Parts of statements *)

(** A write of the transaction. *)
Definition write (f : Writes → Writes) (t : Tx) : Tx := set_tx_writes (f (tx_writes t)) t.

(** [nextval]: the value stays given out if the transaction is dropped. *)
Definition set_seqs (s : Seqs) (t : Tx) : Tx :=
  set_tx_world (set_pg_db (Db_mk (db_tables (tx_db t)) s (db_notified (tx_db t))) (tx_world t)) t.

Definition next_global (t : Tx) : Z * Tx :=
  let s := db_seqs (tx_db t) in
  let n := sq_global s + 1 in (n, set_seqs (Seqs_mk n (sq_dispatch s) (sq_outbox s)) t).

Definition next_dispatch (t : Tx) : Z * Tx :=
  let s := db_seqs (tx_db t) in
  let n := sq_dispatch s + 1 in (n, set_seqs (Seqs_mk (sq_global s) n (sq_outbox s)) t).

Definition next_outbox (t : Tx) : Z * Tx :=
  let s := db_seqs (tx_db t) in
  let n := sq_outbox s + 1 in (n, set_seqs (Seqs_mk (sq_global s) (sq_dispatch s) n) t).

End sessions.

Arguments PgWorld : clear implicits.
Arguments PgWorld {ext} G C.
Arguments Tx {ext} G C.
Arguments tx_view : simpl never.

(** Parameters and columns by type. *)
Definition bind_text `{Postgres} {S : Type} (s : string) : ST S SqlxError string :=
  if text_ok s then st_ret s else st_err invalid_text.

Definition bind_text_opt `{Postgres} {S : Type} (s : option string) : ST S SqlxError (option string) :=
  match s with
  | Some s => let! s := bind_text s in st_ret (Some s)
  | None => st_ret None
  end.

Definition bind_time `{Postgres} {S : Type} (t : DateTime) : ST S SqlxError DateTime :=
  st_lift (of_sum (timestamptz t)).

Definition bind_time_opt `{Postgres} {S : Type} (t : option DateTime)
    : ST S SqlxError (option DateTime) :=
  match t with
  | Some t => let! t := bind_time t in st_ret (Some t)
  | None => st_ret None
  end.

Definition bind_jsonb `{Postgres} {S : Type} (v : Value) : ST S SqlxError Value :=
  st_lift (of_sum (jsonb v)).

(** [ORDER BY] *)
Definition leb_rel {A : Type} (leb : A → A → bool) : relation A := λ a b, leb a b = true.

#[export] Instance leb_rel_dec {A : Type} (leb : A → A → bool) : RelDecision (leb_rel leb).
Proof. intros a b. unfold leb_rel. apply _. Defined.

Definition order_by {A : Type} (leb : A → A → bool) (l : list A) : list A :=
  merge_sort (leb_rel leb) l.
