(* ===== verification/PgSerde.v ===== *)
(** * The JSON form of events in a JSONB column

    The facts that [Postgres] states of the JSON encoder, from the encoder:
    the form of [Serde] and a column that keeps values up to their view give
    an instance of that class. *)

From S2P Require Import Prelude Std Ids Retry Events Serde SerdeFacts Job Lifecycle Commands Ports UseCases Contract.
From S2P Require Import Postgres.

Open Scope string_scope.
Open Scope list_scope.
Open Scope Z_scope.

(** ** The server without the encoder *)

Class PgServer `{ext : Externals} {serde : SerdeJson} : Type := {
  srv_jsonb : Value → Value + SqlxError;
  srv_timestamptz : DateTime → DateTime + SqlxError;
  srv_invalid_text : SqlxError;
  srv_negative_limit : SqlxError;
  srv_violation_text : string → string;
  srv_names_version_first : bool;
  srv_error_to_string : SqlxError → string;
  (** A JSONB value has the scalars and the keys of the JSON it was given. *)
  srv_jsonb_view v v' :
    srv_jsonb v = inl v' → view_kept (λ x x', srv_jsonb x = inl x') (json_view v) (json_view v');
  (** It is refused for a NUL in a text, and for what its parts are. *)
  srv_jsonb_null : ∃ v', srv_jsonb v_null = inl v';
  srv_jsonb_int n : ∃ v', srv_jsonb (v_int n) = inl v';
  srv_jsonb_str s : text_ok s = true → ∃ v', srv_jsonb (v_str s) = inl v';
  srv_jsonb_obj fields :
    Forall (λ x, text_ok x.1 = true ∧ ∃ v', srv_jsonb x.2 = inl v') fields → ∃ v', srv_jsonb (v_obj fields) = inl v';
  srv_jsonb_refusal v e : srv_jsonb v = inr e → not_unique e;
  (** Identifiers and times have no NUL in their texts. *)
  srv_uuid_text u : text_ok (Uuid_to_string u) = true;
  srv_time_text t : text_ok (time_to_text t) = true;
  srv_timestamptz_refusal t e : srv_timestamptz t = inr e → not_unique e;
  srv_text_refusal : not_unique srv_invalid_text;
  srv_timestamptz_near t t' : srv_timestamptz t = inl t' → t - 1000 < t' < t + 1000;
  srv_timestamptz_mono t1 t2 t1' t2' :
    srv_timestamptz t1 = inl t1' → srv_timestamptz t2 = inl t2' → t1 ≤ t2 → t1' ≤ t2';
  srv_timestamptz_again t t' : srv_timestamptz t = inl t' → srv_timestamptz t' = inl t';
}.

Definition to_sum {A : Type} (r : result A string) : A + string :=
  match r with
  | Ok a => inl a
  | Err e => inr e
  | Panic => inr "panic"
  end.

(** The types of the fields, decided. *)
Definition fitsb (lo hi n : Z) : bool := (lo <=? n) && (n <=? hi).

Definition policy_typedb (p : RetryPolicy) : bool :=
  fitsb 0 U32_MAX (max_attempts p) && fitsb 0 DURATION_MAX (base_delay p) && fitsb 0 DURATION_MAX (max_delay p).

Definition event_typedb `{ext : Externals} (ev : JobEvent) : bool :=
  match ev with
  | E_Enqueued q _ p rp _ =>
      is_ok (QueueName_new (QueueName_as_str q)) && fitsb (-32768) 32767 (priority_value p) && policy_typedb rp
  | E_Leased w _ _ | E_Started w | E_LateAckConflict w _ _ => is_ok (WorkerId_new (WorkerId_as_str w))
  | E_Failed _ n | E_RetryScheduled n _ => fitsb 0 U32_MAX n
  | _ => true
  end.

Lemma fitsb_spec lo hi n : fitsb lo hi n = true → fits lo hi n.
Proof. unfold fitsb, fits. intros [?%Z.leb_le ?%Z.leb_le]%andb_true_iff. done. Qed.

Lemma queue_typedb q : is_ok (QueueName_new (QueueName_as_str q)) = true → QueueName_new (QueueName_as_str q) = Ok q.
Proof.
  destruct (QueueName_new _) as [q'| |] eqn:Hq; [|done..]. intros _. f_equal.
  destruct (proj1 (QueueName_new_spec _ _) Hq) as [Hs _]. destruct q, q'. simpl in *. congruence.
Qed.

Lemma worker_typedb w : is_ok (WorkerId_new (WorkerId_as_str w)) = true → WorkerId_new (WorkerId_as_str w) = Ok w.
Proof.
  destruct (WorkerId_new _) as [w'| |] eqn:Hw; [|done..]. intros _. f_equal.
  destruct (proj1 (WorkerId_new_spec _ _) Hw) as [Hs _]. destruct w, w'. simpl in *. congruence.
Qed.

Lemma event_typedb_spec `{ext : Externals} ev : event_typedb ev = true → event_typed ev.
Proof.
  destruct ev; simpl; eauto using worker_typedb, fitsb_spec. unfold policy_typedb.
  rewrite !andb_true_iff. intros [[Hq Hp] [[H1 H2] H3]]. apply fitsb_spec in Hp, H1, H2, H3.
  split; [by apply queue_typedb|]. by split.
Qed.

Section server.
Context `{ext : Externals} {serde : SerdeJson} {server : PgServer}.

Lemma to_sum_inl {A : Type} (r : result A string) a : to_sum r = inl a → r = Ok a.
Proof. destruct r; simpl; naive_solver. Qed.

Lemma kept_similar (R : Value → Value → Prop) ev ev' : event_kept R ev ev' → similar ev ev'.
Proof. destruct ev, ev'; simpl; naive_solver. Qed.

Lemma typed_names ev : event_typed ev → names_valid ev = true.
Proof.
  destruct ev; simpl; try done; unfold QueueName_try_from, QueueName_into, WorkerId_try_from, WorkerId_into;
    [intros [-> _]|intros ->..]; done.
Qed.

Lemma envelope_accepted env v' :
  srv_jsonb (JobEvent_to_value (event env)) = inl v' →
  (∀ s, traceparent env = Some s → text_ok s = true) →
  ∃ x', srv_jsonb (EventEnvelope_to_value env) = inl x'.
Proof.
  intros Hev Htr. apply srv_jsonb_obj. unfold EventEnvelope_fields. repeat constructor; cbn [snd]; eauto using
    srv_jsonb_int, srv_jsonb_str, srv_uuid_text, srv_time_text.
  - destruct (causation_id env); simpl; eauto using srv_jsonb_str, srv_uuid_text, srv_jsonb_null.
  - destruct (traceparent env); simpl; eauto using srv_jsonb_str, srv_jsonb_null.
Qed.

Lemma text_ok_forall s : Forall (λ b, b ≠ 0) (bytes s) → text_ok s = true.
Proof. intros Hf. apply text_ok_spec. intros Hin. rewrite Forall_forall in Hf. by apply (Hf 0). Qed.

(** The encoder of [Serde] over the server. An event out of the ranges of its
    types is no value in Rust, and is refused here. *)
#[export] Instance serde_postgres : Postgres.
Proof.
  refine {|
    event_to_value ev := if event_typedb ev then inl (JobEvent_to_value ev) else inr "out of range";
    event_from_value v := to_sum (JobEvent_from_value v);
    envelope_to_value env := inl (EventEnvelope_to_value env);
    envelope_from_value v := to_sum (EventEnvelope_from_value v);
    jsonb := srv_jsonb;
    timestamptz := srv_timestamptz;
    invalid_text := srv_invalid_text;
    negative_limit := srv_negative_limit;
    violation_text := srv_violation_text;
    names_version_first := srv_names_version_first;
    SqlxError_to_string := srv_error_to_string;
  |}.
  - intros ev v v' ev' Hv Hj Hr%to_sum_inl. destruct (event_typedb ev) eqn:Ht; [|done]. injection Hv as <-.
    destruct (reads_event _ srv_jsonb_view ev v' Hj (event_typedb_spec _ Ht)) as (ev2 & Hr2 & Hs).
    rewrite Hr in Hr2. injection Hr2 as <-. by eapply kept_similar.
  - intros ev v Hr%to_sum_inl. by apply typed_names, (from_value_typed v).
  - intros env v v' Hv Hj Htr. destruct (event_typedb (event env)); [|done]. injection Hv as <-.
    destruct (envelope_accepted env v' Hj) as [x' Hx]; [|by eexists _, x'].
    intros s Hs. by apply text_ok_forall, Htr.
  - apply srv_jsonb_refusal.
  - apply srv_timestamptz_refusal.
  - apply srv_text_refusal.
  - apply srv_timestamptz_near.
  - apply srv_timestamptz_mono.
  - apply srv_timestamptz_again.
Defined.

(** An event a JSONB column took comes back: it can be read, with valid names
    and the same fields, its JSON values as the column keeps them. *)
Theorem stored_event_reads_back ev v' :
  event_typed ev → srv_jsonb (JobEvent_to_value ev) = inl v' →
  ∃ ev', JobEvent_from_value v' = Ok ev' ∧ event_typed ev' ∧ kind ev' = kind ev ∧
    event_kept (λ x x', srv_jsonb x = inl x') ev ev'.
Proof.
  intros Ht Hj. destruct (reads_event _ srv_jsonb_view ev v' Hj Ht) as (ev' & Hr & Hk).
  exists ev'. split; [done|]. split; [by apply (from_value_typed v')|]. split; [|done].
  clear -Hk. destruct ev, ev'; simpl in *; naive_solver.
Qed.
End server.
