(* ===== verification/PgStore.v ===== *)
(** * The PostgreSQL event store
      ([koine-store-postgres/src/store.rs], [rows.rs])

    Append, dispatch projection and outbox in one transaction, the load of a
    stream, and the rebuild of the dispatch table from the log. Each SQL
    statement of the source is a definition [sql_*] over what the transaction
    sees; its text is in the source lines it is mapped to. *)

From S2P Require Import Prelude Std Ids Retry Events Job Lifecycle Commands Ports UseCases Contract.
From S2P Require Import Postgres.

Open Scope string_scope.
Open Scope list_scope.
Open Scope Z_scope.

Definition I64_MAX : Z := 2 ^ 63 - 1.

Definition I16_MAX : Z := 2 ^ 15 - 1.

Section store.
Context `{ext : Externals} {pg : Postgres} {G C : Type}.
Local Abbreviation World := (PgWorld G C).
Local Abbreviation Tx := (Tx G C).

(** ** rows.rs *)

Definition db (e : SqlxError) : EventStoreError := Store_Backend ("db: " +:+ SqlxError_to_string e).

Definition envelope_from_row (row : EventRow) : result EventEnvelope EventStoreError :=
  let? ev := map_err (λ e, Store_Backend ("payload decode: " +:+ e))
    (of_sum (event_from_value (ev_payload row))) in
  let? version := if 0 <=? ev_version row then Ok (ev_version row)
    else Err (Store_Backend "negative version") in
  let? schema_version := if 0 <=? ev_schema_version row then Ok (ev_schema_version row)
    else Err (Store_Backend "negative schema_version") in
  Ok {| event_id := EventId_new (ev_event_id row);
        stream_id := JobId_new (ev_stream_id row);
        envelope_version := version;
        recorded_at := ev_recorded_at row;
        correlation_id := CorrelationId_new (ev_correlation_id row);
        causation_id := EventId_new <$> ev_causation_id row;
        traceparent := ev_traceparent row;
        schema_version := schema_version;
        event := ev |}.

(** [rows.iter().map(envelope_from_row).collect()]: stops at the first
    error. *)
Fixpoint envelopes_from_rows (rows : list EventRow) : result (list EventEnvelope) EventStoreError :=
  match rows with
  | [] => Ok []
  | row :: rows =>
      let? env := envelope_from_row row in
      let? envs := envelopes_from_rows rows in
      Ok (env :: envs)
  end.

(** ** store.rs: statements *)

Definition is_version_conflict (e : SqlxError) : bool :=
  match e with
  | Sqlx_Database code (Some constraint) _ =>
      bool_decide (code = UNIQUE_VIOLATION) && bool_decide (constraint = STREAM_VERSION_UNIQUE)
  | _ => false
  end.

(** [WHERE stream_id = $1] *)
Definition stream_rows (m : gmap Z EventRow) (u : Uuid) : list EventRow :=
  base.filter (λ row, ev_stream_id row = u) (map_to_list m).*2.

Definition version_leb (a b : EventRow) : bool := ev_version a <=? ev_version b.

(** [SELECT ... WHERE stream_id = $1 ORDER BY version] *)
Definition rows_of (m : gmap Z EventRow) (u : Uuid) : list EventRow :=
  order_by version_leb (stream_rows m u).

(** [max(version)]: NULL over no rows. *)
Definition max_version (rows : list EventRow) : option Z :=
  foldr (λ row acc, Some (match acc with Some v => Z.max (ev_version row) v | None => ev_version row end))
    None rows.

Definition sql_select_stream (u : Uuid) : ST Tx SqlxError (list EventRow) :=
  round_trip (λ _ _, let! t := st_get in st_ret (rows_of (tb_events (tx_view t)) u)).

Definition sql_max_version (u : Uuid) : ST Tx SqlxError (option Z) :=
  round_trip (λ _ _,
    let! t := st_get in st_ret (max_version (stream_rows (tb_events (tx_view t)) u))).

(** The unique constraints of [events] other than the identity key. *)
Definition violates_event_id (m : gmap Z EventRow) (row : EventRow) : bool :=
  existsb (λ row', bool_decide (ev_event_id row' = ev_event_id row)) (map_to_list m).*2.

Definition violates_stream_version (m : gmap Z EventRow) (row : EventRow) : bool :=
  existsb (λ row', bool_decide (ev_stream_id row' = ev_stream_id row ∧ ev_version row' = ev_version row))
    (map_to_list m).*2.

Definition violation (constraint : string) : SqlxError :=
  Sqlx_Database UNIQUE_VIOLATION (Some constraint) (violation_text constraint).

Definition event_conflict (m : gmap Z EventRow) (row : EventRow) : option SqlxError :=
  match violates_event_id m row, violates_stream_version m row with
  | false, false => None
  | true, false => Some (violation EVENT_ID_UNIQUE)
  | false, true => Some (violation STREAM_VERSION_UNIQUE)
  | true, true =>
      Some (violation (if names_version_first then STREAM_VERSION_UNIQUE else EVENT_ID_UNIQUE))
  end.

Definition write_event (k : Z) (row : EventRow) (wr : Writes) : Writes :=
  Writes_mk (<[k := row]> (wr_events wr)) (wr_dispatch wr) (wr_outbox wr) (wr_locked_jobs wr)
    (wr_locked_outbox wr) (wr_notify wr).

Definition write_outbox (k : Z) (row : option OutboxRow) (wr : Writes) : Writes :=
  Writes_mk (wr_events wr) (wr_dispatch wr) (<[k := row]> (wr_outbox wr)) (wr_locked_jobs wr)
    (wr_locked_outbox wr) (wr_notify wr).

Definition write_dispatch (k : Uuid) (row : option DispatchRow) (wr : Writes) : Writes :=
  Writes_mk (wr_events wr) (<[k := row]> (wr_dispatch wr)) (wr_outbox wr) (wr_locked_jobs wr)
    (wr_locked_outbox wr) (wr_notify wr).

(** A payload notified twice in a transaction is delivered once. *)
Definition write_notify (payload : string) (wr : Writes) : Writes :=
  Writes_mk (wr_events wr) (wr_dispatch wr) (wr_outbox wr) (wr_locked_jobs wr) (wr_locked_outbox wr)
    (if bool_decide (payload ∈ wr_notify wr) then wr_notify wr else wr_notify wr ++ [payload]).

Definition sql_insert_event (stream : Uuid) (version : Z) (event_id : Uuid) (event_type : string)
    (schema_version : Z) (payload : Value) (correlation_id : Uuid) (causation_id : option Uuid)
    (traceparent : option string) (recorded_at : DateTime) : ST Tx SqlxError unit :=
  round_trip (λ _ _,
    let! event_type := bind_text event_type in
    let! payload := bind_jsonb payload in
    let! traceparent := bind_text_opt traceparent in
    let! recorded_at := bind_time recorded_at in
    let row :=
      {| ev_stream_id := stream; ev_version := version; ev_event_id := event_id;
         ev_event_type := event_type; ev_schema_version := schema_version; ev_payload := payload;
         ev_correlation_id := correlation_id; ev_causation_id := causation_id;
         ev_traceparent := traceparent; ev_recorded_at := recorded_at |} in
    let! global_seq := st_total next_global in
    let! t := st_get in
    match event_conflict (tb_events (tx_view t)) row with
    | Some e => st_err e
    | None => st_modify (write (write_event global_seq row))
    end).

Definition sql_insert_outbox (event_id stream : Uuid) (envelope : Value) : ST Tx SqlxError unit :=
  round_trip (λ _ _,
    let! envelope := bind_jsonb envelope in
    let! outbox_seq := st_total next_outbox in
    st_modify (write (write_outbox outbox_seq
      (Some {| ob_event_id := event_id; ob_stream_id := stream; ob_envelope := envelope |})))).

(** [INSERT ... ON CONFLICT (job_id) DO UPDATE]: the proposed row takes the
    next sequence number; a row that is there keeps its own. *)
Definition upsert_dispatch (job : Uuid) (row : Z → DispatchRow) : ST Tx SqlxError unit :=
  let! seq := st_total next_dispatch in
  let! t := st_get in
  let seq := match tb_dispatch (tx_view t) !! job with
             | Some old => dq_seq old
             | None => seq
             end in
  st_modify (write (write_dispatch job (Some (row seq)))).

Definition sql_upsert_pending (job : Uuid) (queue : string) (priority : Z)
    (not_before : option DateTime) : ST Tx SqlxError unit :=
  round_trip (λ _ _,
    let! queue := bind_text queue in
    let! not_before := bind_time_opt not_before in
    upsert_dispatch job (λ seq,
      {| dq_queue := queue; dq_priority := priority; dq_seq := seq; dq_not_before := not_before;
         dq_lease_id := None; dq_worker_id := None; dq_lease_expires_at := None |})).

Definition sql_upsert_leased (job : Uuid) (queue : string) (priority : Z) (lease : Uuid)
    (worker : string) (expires_at : DateTime) : ST Tx SqlxError unit :=
  round_trip (λ _ _,
    let! queue := bind_text queue in
    let! worker := bind_text worker in
    let! expires_at := bind_time expires_at in
    upsert_dispatch job (λ seq,
      {| dq_queue := queue; dq_priority := priority; dq_seq := seq; dq_not_before := None;
         dq_lease_id := Some lease; dq_worker_id := Some worker;
         dq_lease_expires_at := Some expires_at |})).

Definition sql_delete_dispatch (job : Uuid) : ST Tx SqlxError unit :=
  round_trip (λ _ _, st_modify (write (write_dispatch job None))).

Definition sql_notify (queue : string) : ST Tx SqlxError unit :=
  round_trip (λ _ _, let! queue := bind_text queue in st_modify (write (write_notify queue))).

(** [SELECT stream_id ... GROUP BY stream_id ORDER BY min(global_seq)] *)
Definition stream_ids (m : gmap Z EventRow) : gset Uuid :=
  list_to_set (ev_stream_id <$> (map_to_list m).*2).

Definition min_global_seq (m : gmap Z EventRow) (u : Uuid) : Z :=
  match (base.filter (λ x, ev_stream_id x.2 = u) (map_to_list m)).*1 with
  | [] => 0
  | k :: ks => foldr Z.min k ks
  end.

Definition sql_select_streams : ST Tx SqlxError (list Uuid) :=
  round_trip (λ _ _,
    let! t := st_get in
    let m := tb_events (tx_view t) in
    st_ret (order_by (λ a b, min_global_seq m a <=? min_global_seq m b) (elements (stream_ids m)))).

(** ** store.rs: functions *)

Definition load_in_tx (stream : JobId) : ST Tx EventStoreError (list EventEnvelope) :=
  let! rows := st_map_err db (sql_select_stream (JobId_as_uuid stream)) in
  st_lift (envelopes_from_rows rows).

(** Re-derives the dispatch row of a folded job. *)
Definition project_in_tx (job : Job) : ST Tx EventStoreError unit :=
  match job_state job with
  | S_Pending not_before =>
      let! _ := st_map_err db (sql_upsert_pending (JobId_as_uuid (job_id job))
        (QueueName_as_str (job_queue job)) (priority_value (job_priority job)) not_before) in
      st_map_err db (sql_notify (QueueName_as_str (job_queue job)))
  | S_Leased worker lease expires_at | S_Running worker lease expires_at =>
      st_map_err db (sql_upsert_leased (JobId_as_uuid (job_id job))
        (QueueName_as_str (job_queue job)) (priority_value (job_priority job))
        (LeaseId_as_uuid lease) (WorkerId_as_str worker) expires_at)
  | S_Succeeded | S_Parked _ | S_Cancelled | S_Suspended | S_AwaitingApproval _ =>
      st_map_err db (sql_delete_dispatch (JobId_as_uuid (job_id job)))
  end.

(** The validation loop of [append_in_tx]. *)
Fixpoint batch_in_order (stream : JobId) (next : Z) (envelopes : list EventEnvelope) : bool :=
  match envelopes with
  | [] => true
  | envelope :: envelopes =>
      let next := u64_add next 1 in
      if negb (envelope_version envelope =? next) || negb (bool_decide (stream_id envelope = stream))
      then false
      else batch_in_order stream next envelopes
  end.

(** The insert loop of [append_in_tx]. *)
Fixpoint insert_envelopes (stream : JobId) (expected_version : Z) (envelopes : list EventEnvelope)
    : ST Tx EventStoreError unit :=
  match envelopes with
  | [] => st_ret tt
  | envelope :: envelopes =>
      let! payload := st_lift (map_err (λ e, Store_Backend ("payload encode: " +:+ e))
        (of_sum (event_to_value (event envelope)))) in
      let! version := st_lift
        (if envelope_version envelope <=? I64_MAX then Ok (envelope_version envelope)
         else Err (Store_Backend "version exceeds i64")) in
      let! schema := st_lift
        (if schema_version envelope <=? I16_MAX then Ok (schema_version envelope)
         else Err (Store_Backend "schema_version exceeds i16")) in
      let! _ := st_map_err
        (λ e, if is_version_conflict e then VersionConflict stream expected_version else db e)
        (sql_insert_event (JobId_as_uuid stream) version (EventId_as_uuid (event_id envelope))
          (kind (event envelope)) schema payload (CorrelationId_as_uuid (correlation_id envelope))
          (EventId_as_uuid <$> causation_id envelope) (traceparent envelope)
          (recorded_at envelope)) in
      let! envelope_json := st_lift (map_err (λ e, Store_Backend ("envelope encode: " +:+ e))
        (of_sum (envelope_to_value envelope))) in
      let! _ := st_map_err db (sql_insert_outbox (EventId_as_uuid (event_id envelope))
        (JobId_as_uuid stream) envelope_json) in
      insert_envelopes stream expected_version envelopes
  end.

Definition append_in_tx (stream : JobId) (expected_version : Z) (envelopes : list EventEnvelope)
    : ST Tx EventStoreError Job :=
  let! current := st_map_err db (sql_max_version (JobId_as_uuid stream)) in
  let! current := st_lift
    (if 0 <=? default 0 current then Ok (default 0 current)
     else Err (Store_Backend "negative stream version")) in
  if negb (current =? expected_version)
  then st_err (VersionConflict stream expected_version)
  else if negb (batch_in_order stream current envelopes)
  then st_err (Store_Backend
    ("malformed envelope batch for " +:+ Uuid_to_string (JobId_as_uuid stream)))
  else
    let! _ := insert_envelopes stream expected_version envelopes in
    let! stream_envelopes := load_in_tx stream in
    let! job := st_lift (map_err
      (λ e, Store_Backend ("stream does not fold: " +:+ DomainError_to_string e))
      (from_events stream_envelopes)) in
    let! _ := project_in_tx job in
    st_ret job.

Definition dispatchable (s : JobState) : bool :=
  match s with
  | S_Pending _ | S_Leased _ _ _ | S_Running _ _ _ => true
  | _ => false
  end.

(** The loop of [rebuild_dispatch]. *)
Fixpoint rebuild_streams (streams : list Uuid) (projected : Z) : ST Tx EventStoreError Z :=
  match streams with
  | [] => st_ret projected
  | stream_uuid :: streams =>
      let stream := JobId_new stream_uuid in
      let! envelopes := load_in_tx stream in
      let! job := st_lift (map_err
        (λ e, Store_Backend ("stream " +:+ Uuid_to_string (JobId_as_uuid stream) +:+ ": "
                             +:+ DomainError_to_string e))
        (from_events envelopes)) in
      let! _ := project_in_tx job in
      rebuild_streams streams
        (if dispatchable (job_state job) then u32_add projected 1 else projected)
  end.

Definition rebuild_dispatch : ST World EventStoreError Z :=
  with_tx (
    let! _ := st_map_err db sql_begin in
    let! streams := st_map_err db sql_select_streams in
    let! projected := rebuild_streams streams 0 in
    let! _ := st_map_err db sql_commit in
    st_ret projected).

Definition Postgres_append (stream : JobId) (expected_version : Z) (envelopes : list EventEnvelope)
    : ST World EventStoreError unit :=
  with_tx (
    let! _ := st_map_err db sql_begin in
    let! _ := append_in_tx stream expected_version envelopes in
    st_map_err db sql_commit).

Definition Postgres_load (stream : JobId) : ST World EventStoreError (list EventEnvelope) :=
  with_tx (
    let! rows := st_map_err db (sql_select_stream (JobId_as_uuid stream)) in
    match rows with
    | [] => st_err (StreamNotFound stream)
    | _ => st_lift (envelopes_from_rows rows)
    end).

#[export] Instance Postgres_EventStore : EventStore World := {|
  store_append := Postgres_append;
  store_load := Postgres_load;
|}.

End store.
