(* ===== verification/PgDispatcher.v ===== *)
(** * The PostgreSQL dispatcher ([koine-store-postgres/src/dispatcher.rs])

    Claim, heartbeat and retirement as transactions: a row is selected and
    locked, the domain decides on the stream as the transaction sees it, the
    events are appended by [append_in_tx], and all of it is committed at
    once. *)

From S2P Require Import Prelude Std Ids Retry Events Job Lifecycle Commands Ports UseCases Contract.
From S2P Require Import Postgres PgStore.

Open Scope string_scope.
Open Scope list_scope.
Open Scope Z_scope.

(** ** Selection *)

(** [WHERE queue = $1 AND lease_id IS NULL
    AND (not_before IS NULL OR not_before <= $2)] *)
Definition claim_where (queue : string) (now : DateTime) (row : DispatchRow) : bool :=
  bool_decide (dq_queue row = queue)
  && (match dq_lease_id row with None => true | Some _ => false end)
  && (match dq_not_before row with None => true | Some t => t <=? now end).

(** [ORDER BY priority DESC, seq] *)
Definition claim_order (a b : Uuid * DispatchRow) : bool :=
  (dq_priority b.2 <? dq_priority a.2)
  || ((dq_priority a.2 =? dq_priority b.2) && (dq_seq a.2 <=? dq_seq b.2)).

(** [WHERE lease_id IS NOT NULL AND lease_expires_at <= $1] *)
Definition retire_where (now : DateTime) (row : DispatchRow) : bool :=
  (match dq_lease_id row with None => false | Some _ => true end)
  && (match dq_lease_expires_at row with None => false | Some t => t <=? now end).

(** [ORDER BY lease_expires_at, job_id]; a NULL sorts last. *)
Definition retire_order (a b : Uuid * DispatchRow) : bool :=
  match dq_lease_expires_at a.2, dq_lease_expires_at b.2 with
  | Some ta, Some tb => (ta <? tb) || ((ta =? tb) && N.leb a.1 b.1)
  | Some _, None => true
  | None, Some _ => false
  | None, None => N.leb a.1 b.1
  end.

(** [WHERE lease_id = $2 AND lease_expires_at > $3] *)
Definition extend_where (lease : Uuid) (now : DateTime) (row : DispatchRow) : bool :=
  bool_decide (dq_lease_id row = Some lease)
  && (match dq_lease_expires_at row with None => false | Some t => now <? t end).

(** [SET lease_expires_at = $1] *)
Definition set_lease_expires_at (t : DateTime) (row : DispatchRow) : DispatchRow :=
  DispatchRow_mk (dq_queue row) (dq_priority row) (dq_seq row) (dq_not_before row) (dq_lease_id row)
    (dq_worker_id row) (Some t).

(** [SELECT job_id ... ORDER BY ... LIMIT 1 FOR UPDATE SKIP LOCKED] over the
    rows of the table, of which [locked] are held by other sessions. *)
Definition first_unlocked (locked : gset Uuid) (p : DispatchRow → bool)
    (leb : Uuid * DispatchRow → Uuid * DispatchRow → bool) (m : gmap Uuid DispatchRow) : option Uuid :=
  fst <$> head (order_by leb
    (base.filter (λ x, p x.2 = true ∧ x.1 ∉ locked) (map_to_list m))).

Section dispatcher.
Context `{ext : Externals} {pg : Postgres} {G C : Type} `{!IdGenerator G, !Clock C}.
Local Abbreviation World := (PgWorld G C).
Local Abbreviation Tx := (Tx G C).

Definition lock_job (k : Uuid) (wr : Writes) : Writes :=
  Writes_mk (wr_events wr) (wr_dispatch wr) (wr_outbox wr) ({[k]} ∪ wr_locked_jobs wr)
    (wr_locked_outbox wr) (wr_notify wr).

(** Selecting a row locks it. *)
Definition select_for_update (locked : gset Uuid) (p : DispatchRow → bool)
    (leb : Uuid * DispatchRow → Uuid * DispatchRow → bool) : ST Tx SqlxError (option Uuid) :=
  let! t := st_get in
  match first_unlocked locked p leb (tb_dispatch (tx_view t)) with
  | None => st_ret None
  | Some job =>
      let! _ := st_modify (write (lock_job job)) in
      st_ret (Some job)
  end.

Definition sql_pick_claim (queue : string) (now : DateTime) : ST Tx SqlxError (option Uuid) :=
  round_trip (λ locked _,
    let! queue := bind_text queue in
    let! now := bind_time now in
    select_for_update locked (claim_where queue now) claim_order).

Definition sql_pick_expired (now : DateTime) : ST Tx SqlxError (option Uuid) :=
  round_trip (λ locked _,
    let! now := bind_time now in
    select_for_update locked (retire_where now) retire_order).

(** The answer is the number of rows affected. *)
Definition sql_extend (deadline : DateTime) (lease : Uuid) (now : DateTime) : ST Tx SqlxError Z :=
  round_trip (λ _ _,
    let! deadline := bind_time deadline in
    let! now := bind_time now in
    let! t := st_get in
    let hit := base.filter (λ x, extend_where lease now x.2 = true)
                 (map_to_list (tb_dispatch (tx_view t))) in
    let! _ := st_modify (λ t, foldr (λ x t,
      write (write_dispatch x.1 (Some (set_lease_expires_at deadline x.2))) t) t hit) in
    st_ret (Z.of_nat (length hit))).

(** ** Functions *)

#[local] Instance Tx_Clock : Clock Tx := {|
  clock_now t := let '(x, w) := clock_now (tx_world t) in (x, set_tx_world w t);
|}.

#[local] Instance Tx_IdGenerator : IdGenerator Tx := {|
  gen_job_id t := let '(x, w) := gen_job_id (tx_world t) in (x, set_tx_world w t);
  gen_event_id t := let '(x, w) := gen_event_id (tx_world t) in (x, set_tx_world w t);
  gen_lease_id t := let '(x, w) := gen_lease_id (tx_world t) in (x, set_tx_world w t);
  gen_correlation_id t := let '(x, w) := gen_correlation_id (tx_world t) in (x, set_tx_world w t);
  jitter_seed t := let '(x, w) := jitter_seed (tx_world t) in (x, set_tx_world w t);
|}.

(** [let JobEvent::Leased { expires_at, .. } = envelopes[0].event else ...] *)
Definition granted_deadline (envelopes : list EventEnvelope) : result DateTime DispatchError :=
  match envelopes with
  | [] => Panic
  | env :: _ =>
      match event env with
      | E_Leased _ _ expires_at => Ok expires_at
      | _ => Err (Dispatch_Store (Store_Backend "lease produced non-lease"))
      end
  end.

Definition Postgres_claim (queue : QueueName) (worker : WorkerId) (ttl : Duration)
    : ST World DispatchError (option LeasedJob) :=
  let! now := st_total clock_now in
  with_tx (
    let! _ := st_map_err (Dispatch_Store ∘ db) sql_begin in
    let! picked := st_map_err (Dispatch_Store ∘ db) (sql_pick_claim (QueueName_as_str queue) now) in
    match picked with
    | None => st_ret None
    | Some job_uuid =>
        let job_id := JobId_new job_uuid in
        let! stream := st_map_err Dispatch_Store (load_in_tx job_id) in
        let! job := st_lift (map_err
          (λ e, Dispatch_Store (Store_Backend ("fold: " +:+ DomainError_to_string e)))
          (from_events stream)) in
        let! lease_id := st_total gen_lease_id in
        let! ev := st_lift (map_err
          (λ e, Dispatch_Store (Store_Backend ("index/state drift: " +:+ DomainError_to_string e)))
          (lease job worker lease_id now ttl)) in
        let '(correlation, causation, trace) := lineage_of stream in
        let! envelopes := st_total (wrap_events job_id (job_version job)
          correlation causation trace [ev]) in
        let! expires_at := st_lift (granted_deadline envelopes) in
        let! folded := st_map_err Dispatch_Store
          (append_in_tx job_id (job_version job) envelopes) in
        let! _ := st_map_err (Dispatch_Store ∘ db) sql_commit in
        st_ret (Some
          {| leased_job_id := job_id;
             leased_queue := job_queue folded;
             leased_payload := job_payload folded;
             leased_attempt := job_attempt folded;
             leased_lease := lease_id;
             leased_expires_at := expires_at;
             leased_correlation_id := correlation;
             leased_traceparent := trace |})
    end).

Definition Postgres_retire_one : ST World DispatchError (option JobId) :=
  with_tx (
    let! _ := st_map_err (Dispatch_Store ∘ db) sql_begin in
    let! now := st_total clock_now in
    let! picked := st_map_err (Dispatch_Store ∘ db) (sql_pick_expired now) in
    match picked with
    | None =>
        let! _ := st_map_err (Dispatch_Store ∘ db) sql_commit in
        st_ret None
    | Some job_uuid =>
        let job_id := JobId_new job_uuid in
        let! stream := st_map_err Dispatch_Store (load_in_tx job_id) in
        let! job := st_lift (map_err Dispatch_Domain (from_events stream)) in
        let! seed := st_total jitter_seed in
        let! events := st_lift (map_err Dispatch_Domain (expire_lease job now seed)) in
        let '(correlation, causation, trace) := lineage_of stream in
        let! envelopes := st_total (wrap_events job_id (job_version job)
          correlation causation trace events) in
        let! _ := st_map_err Dispatch_Store (append_in_tx job_id (job_version job) envelopes) in
        let! _ := st_map_err (Dispatch_Store ∘ db) sql_commit in
        st_ret (Some job_id)
    end).

Definition Postgres_extend_lease (lease : LeaseId) (ttl : Duration) : ST World DispatchError bool :=
  match TimeDelta_from_std ttl with
  | None => st_err (Dispatch_Backend "ttl out of range")
  | Some delta =>
      with_tx (
        let! _ := st_map_err (Dispatch_Store ∘ db) sql_begin in
        let! now := st_total clock_now in
        let! deadline := st_lift (or_panic (checked_add_signed now delta)) in
        let! updated := st_map_err (Dispatch_Store ∘ db)
          (sql_extend deadline (LeaseId_as_uuid lease) now) in
        let! _ := st_map_err (Dispatch_Store ∘ db) sql_commit in
        st_ret (0 <? updated))
  end.

#[export] Instance Postgres_Dispatcher : Dispatcher World := {|
  lease_next := Postgres_claim;
  extend_lease := Postgres_extend_lease;
  retire_next_expired_lease := Postgres_retire_one;
|}.

End dispatcher.
