(* ===== verification/PgRelay.v ===== *)
(** * The outbox relay, the presence tracker and the notifier
      ([koine-store-postgres/src/relay.rs], [presence.rs], [signal.rs]; the
      sink and the ticker of [koine-server/src/sinks.rs], [serve.rs])

    The relay delivers what the outbox holds to a sink and deletes what the
    sink has taken, in one transaction; the sink is another party, with a
    state of its own that no rollback restores. The printing sink's is the
    standard output, which may not take a line. *)

From stdpp Require Import sorting.
From S2P Require Import Prelude Std Ids Retry Events Job Lifecycle Commands Ports UseCases Contract.
From S2P Require Import Postgres PgStore.

Open Scope string_scope.
Open Scope list_scope.
Open Scope Z_scope.

Section statements.
Context `{ext : Externals} {pg : Postgres} {G C : Type}.
Local Abbreviation Tx := (Tx G C).

Definition outbox_leb (a b : Z * OutboxRow) : bool := a.1 <=? b.1.

Definition lock_outbox (ks : gset Z) (wr : Writes) : Writes :=
  Writes_mk (wr_events wr) (wr_dispatch wr) (wr_outbox wr) (wr_locked_jobs wr)
    (ks ∪ wr_locked_outbox wr) (wr_notify wr).

(** The first rows nobody else holds. *)
Definition first_rows (locked : gset Z) (batch : Z) (m : gmap Z OutboxRow) : list (Z * OutboxRow) :=
  take (Z.to_nat batch) (order_by outbox_leb (base.filter (λ x, x.1 ∉ locked) (map_to_list m))).

(** [SELECT ... ORDER BY outbox_seq LIMIT $1 FOR UPDATE SKIP LOCKED] *)
Definition sql_claim_outbox (batch : Z) : ST Tx SqlxError (list (Z * OutboxRow)) :=
  round_trip (λ _ locked,
    if batch <? 0 then st_err negative_limit
    else
      let! t := st_get in
      let rows := first_rows locked batch (tb_outbox (tx_view t)) in
      let! _ := st_modify (write (lock_outbox (list_to_set rows.*1))) in
      st_ret rows).

(** [DELETE ... WHERE outbox_seq = ANY($1)] *)
Definition sql_delete_outbox (seqs : list Z) : ST Tx SqlxError unit :=
  round_trip (λ _ _, st_modify (write (λ wr, foldr (λ k, write_outbox k None) wr seqs))).

(** The upsert of a worker's row; [now] is the server's [now()]. *)
Definition seen_row (now : DateTime) (queue : option string) (old : option WorkerRow) : WorkerRow :=
  match old with
  | None => {| wk_first_seen := now; wk_last_seen := now; wk_last_queue := queue |}
  | Some row =>
      {| wk_first_seen := wk_first_seen row; wk_last_seen := now;
         wk_last_queue := match queue with Some q => Some q | None => wk_last_queue row end |}
  end.

Definition set_workers (f : gmap string WorkerRow → gmap string WorkerRow) (db : Db) : Db :=
  Db_mk (Tables_mk (tb_events (db_tables db)) (tb_dispatch (db_tables db)) (tb_outbox (db_tables db))
    (f (tb_workers (db_tables db)))) (db_seqs db) (db_notified db).
End statements.

Section relay.
Context `{ext : Externals} {pg : Postgres} {G C : Type} {S : Type} `{!EventSink S}.
Local Abbreviation World := (PgWorld G C).
Local Abbreviation Tx := (Tx G C).

(** The relay's surroundings: the database and the sink. *)
Record RelayWorld : Type := RelayWorld_mk {
  rw_world : World;
  rw_sink : S;
}.

(** The same with an open transaction. *)
Record RelayTx : Type := RelayTx_mk {
  rt_tx : Tx;
  rt_sink : S;
}.

Definition on_tx {E T : Type} (m : ST Tx E T) : ST RelayTx E T :=
  st_zoom rt_tx (λ t x, RelayTx_mk t (rt_sink x)) m.

Definition on_sink {E T : Type} (m : ST S E T) : ST RelayTx E T :=
  st_zoom rt_sink (λ s x, RelayTx_mk (rt_tx x) s) m.

Definition with_relay_tx {E T : Type} (f : ST RelayTx E T) : ST RelayWorld E T := λ x,
  let '(r, y) := f (RelayTx_mk (Tx_mk (rw_world x) no_writes) (rw_sink x)) in
  (r, RelayWorld_mk (tx_world (rt_tx y)) (rt_sink y)).

(** The closure [backend] of [relay_once]. *)
Definition relay_backend (e : SqlxError) : RelayError := Relay_Backend ("db: " +:+ SqlxError_to_string e).

(** The decoding loop of [relay_once]. *)
Fixpoint decode_rows (rows : list (Z * OutboxRow)) : result (list Z * list EventEnvelope) RelayError :=
  match rows with
  | [] => Ok ([], [])
  | (seq, row) :: rows =>
      let? env := map_err (λ e, Relay_Backend ("envelope decode: " +:+ e))
        (of_sum (envelope_from_value (ob_envelope row))) in
      let? rest := decode_rows rows in
      Ok (seq :: rest.1, env :: rest.2)
  end.

Definition relay_once (batch : Z) : ST RelayWorld RelayError Z :=
  with_relay_tx (
    let! _ := st_map_err relay_backend (on_tx sql_begin) in
    let! rows := st_map_err relay_backend (on_tx (sql_claim_outbox batch)) in
    match rows with
    | [] => st_ret 0
    | _ =>
        let! decoded := st_lift (decode_rows rows) in
        let '(seqs, envelopes) := decoded in
        let! _ := st_map_err Relay_Sink (on_sink (sink_deliver envelopes)) in
        let! _ := st_map_err relay_backend (on_tx (sql_delete_outbox seqs)) in
        let! _ := st_map_err relay_backend (on_tx sql_commit) in
        st_ret (Z.min (Z.of_nat (length envelopes)) U32_MAX)
    end).

(** [RELAY_BATCH] (serve.rs). *)
Definition RELAY_BATCH : Z := 64.

(** The body of the relay ticker's loop (serve.rs): an error is printed and
    the next tick tries again. A panic, of the pass or of the print, ends the
    task; the answer is whether it goes on. *)
Definition relay_tick (err : Output) (x : RelayWorld) : bool * Output * RelayWorld :=
  match relay_once RELAY_BATCH x with
  | (Ok _, x) => (true, err, x)
  | (Err e, x) =>
      let '(r, err) := println (E:=Empty_set) ("serve: relay error: " +:+ RelayError_to_string e) err in
      (negb (is_panic r), err, x)
  | (Panic, x) => (false, err, x)
  end.

(** The loop, for [ticks] rounds. *)
Fixpoint relay_ticker (ticks : nat) (err : Output) (x : RelayWorld) : Output * RelayWorld :=
  match ticks with
  | O => (err, x)
  | Datatypes.S ticks =>
      let '(goes_on, err, x) := relay_tick err x in
      if goes_on then relay_ticker ticks err x else (err, x)
  end.
End relay.

Arguments RelayWorld {ext} G C S.
Arguments RelayTx {ext} G C S.

(** [PrintingSink] (sinks.rs) has no state but the standard output: it prints
    a line for each envelope, and panics at the first that cannot be written,
    with the lines before it out. *)
#[export] Instance PrintingSink_EventSink `{ext : Externals} : EventSink Output := {|
  sink_deliver envelopes := printlns
    ((λ env, "  [outbox→sink] " +:+ Uuid_to_string (JobId_as_uuid (stream_id env)) +:+ " v"
             +:+ pretty (envelope_version env) +:+ " " +:+ kind (event env)) <$> envelopes);
|}.

(** ** presence.rs *)

Section presence.
Context `{ext : Externals} {pg : Postgres} {G C : Type}.
Local Abbreviation World := (PgWorld G C).

Record PgPresence : Type := PgPresence_mk {
  pp_world : World;
  pp_dropped : Z;
}.

(** What a best-effort write can meet: no idle connection, the budget
    overrun before or after the statement took effect at the server, an
    error, or success at the server's time. *)
Inductive Attempt : Type :=
| Pool_saturated
| Budget_overrun (written : option DateTime)
| Statement_failed (e : SqlxError)
| Statement_ran (now : DateTime).

Definition presence_write (now : DateTime) (worker : WorkerId) (queue : option QueueName) (w : World) : World :=
  set_pg_db (set_workers (λ m, <[WorkerId_as_str worker :=
    seen_row now (QueueName_as_str <$> queue) (m !! WorkerId_as_str worker)]> m) (pg_db w)) w.

Definition count_drop (p : PgPresence) : PgPresence := PgPresence_mk (pp_world p) (u64_add (pp_dropped p) 1).

Definition on_presence_world (f : World → World) (p : PgPresence) : PgPresence :=
  PgPresence_mk (f (pp_world p)) (pp_dropped p).

Definition PgPresence_seen (attempt : Attempt) (worker : WorkerId) (queue : option QueueName)
    (p : PgPresence) : PgPresence :=
  match attempt with
  | Pool_saturated => count_drop p
  | Budget_overrun None | Statement_failed _ => count_drop p
  | Budget_overrun (Some now) => count_drop (on_presence_world (presence_write now worker queue) p)
  | Statement_ran now => on_presence_world (presence_write now worker queue) p
  end.
End presence.

Arguments PgPresence {ext} G C.

(** ** signal.rs: [PgSignal::notify] *)

Section notifier.
Context `{ext : Externals} {pg : Postgres} {G C : Type}.
Local Abbreviation World := (PgWorld G C).
Local Abbreviation Tx := (Tx G C).

(** A statement on the pool, a transaction of its own. *)
Definition autocommit {T : Type} (body : ST Tx SqlxError T) : ST World SqlxError T := λ w,
  let finish (t : Tx) :=
    match body t with
    | (Ok a, t) => (Ok a, tx_world (publish t))
    | (r, t) => (r, tx_world t)
    end in
  let t := Tx_mk w no_writes in
  match pg_script w with
  | [] => finish t
  | Runs others _ _ :: _ => finish (interfere others (next_script t))
  | Fails e :: _ => (Err e, tx_world (next_script t))
  | AnswerLost e :: _ => (Err e, snd (finish (next_script t)))
  end.

(** Whether it went through is nobody's business. *)
Definition PgSignal_notify (queue : QueueName) (w : World) : World :=
  snd (autocommit (let! q := bind_text (QueueName_as_str queue) in st_modify (write (write_notify q))) w).
End notifier.
