(* ===== verification/Serve.v ===== *)
(** * The server as a whole ([koine-server/src/serve.rs], [run])

    [run] from the environment to the serving process: the configuration, the
    pool and the listener, the two tickers, and the gRPC service over the
    PostgreSQL adapters. The process is a machine whose turns are the calls
    of clients, the turns of their fetch streams, the tickers, the listener
    and whatever happens elsewhere, in any order. Sockets, the pool and the
    runtime belong to tonic, sqlx and tokio: how they turn out is an
    argument, like the lines the standard streams take. A call is one turn; what the other calls of the process do
    around its round trips is, like what other brokers do, in the script of
    its database. *)

From S2P Require Import Prelude Std Ids Retry Events Job Lifecycle Commands Ports UseCases Contract.
From S2P Require Import Postgres PgStore PgDispatcher PgRelay Grpc Signal Hub Stream Server.

Open Scope string_scope.
Open Scope list_scope.
Open Scope Z_scope.

(** ** lib.rs: [connect_pool] *)

Definition PoolConfig_max_connections (c : PoolConfig) : Z := pool_max_connections c.

(** How [PgPoolOptions::connect], with the two settings, and the migrations
    turn out. *)
Definition connect_pool (connect : string → Z → Duration → result unit SqlxError) (migrate : result unit SqlxError)
    (url : string) (config : PoolConfig) : result unit SqlxError :=
  let? _ := connect url (PoolConfig_max_connections config) (PoolConfig_acquire_timeout config) in
  migrate.

(** ** The state of the process *)

Section state.
Context `{ext : Externals} {pg : Postgres} {G C : Type}.

(** What the ports of the service share: the database and this process's ids
    and clock, the dropped sightings, and how the next sightings turn out (no
    idle connection, when nothing is said). *)
Record ServeWorld : Type := ServeWorld_mk {
  sw_presence : PgPresence G C;
  sw_attempts : list Attempt;
}.

Definition sw_pg (w : ServeWorld) : PgWorld G C := pp_world (sw_presence w).

Definition set_sw_pg (p : PgWorld G C) (w : ServeWorld) : ServeWorld :=
  ServeWorld_mk (PgPresence_mk p (pp_dropped (sw_presence w))) (sw_attempts w).

Definition on_pg {E A : Type} (m : ST (PgWorld G C) E A) : ST ServeWorld E A := st_zoom sw_pg set_sw_pg m.

Definition from_pg {A : Type} (m : PgWorld G C → A * PgWorld G C) (w : ServeWorld) : A * ServeWorld :=
  let '(a, p) := m (sw_pg w) in (a, set_sw_pg p w).

Context `{!IdGenerator G, !Clock C}.

(** [Deps]: the adapters over the one pool. *)
#[export] Instance Serve_EventStore : EventStore ServeWorld := {|
  store_append id v envs := on_pg (store_append id v envs);
  store_load id := on_pg (store_load id);
|}.

#[export] Instance Serve_Dispatcher : Dispatcher ServeWorld := {|
  lease_next queue worker ttl := on_pg (lease_next queue worker ttl);
  extend_lease lease ttl := on_pg (extend_lease lease ttl);
  retire_next_expired_lease := on_pg retire_next_expired_lease;
|}.

#[export] Instance Serve_IdGenerator : IdGenerator ServeWorld := {|
  gen_job_id := from_pg gen_job_id;
  gen_event_id := from_pg gen_event_id;
  gen_lease_id := from_pg gen_lease_id;
  gen_correlation_id := from_pg gen_correlation_id;
  jitter_seed := from_pg jitter_seed;
|}.

#[export] Instance Serve_Clock : Clock ServeWorld := {| clock_now := from_pg clock_now |}.

#[export] Instance Serve_WorkerPresence : WorkerPresence ServeWorld := {|
  presence_seen worker queue w :=
    match sw_attempts w with
    | attempt :: rest => ServeWorld_mk (PgPresence_seen attempt worker queue (sw_presence w)) rest
    | [] => ServeWorld_mk (PgPresence_seen Pool_saturated worker queue (sw_presence w)) []
    end;
|}.
End state.

Arguments ServeWorld {ext} G C.

(** ** The service *)

Section service.
Context `{ext : Externals} {wire : Wire} {pg : Postgres} {G C : Type} `{!IdGenerator G, !Clock C}.
Context {Ch B R : Type} `{!Mpsc Ch, !Broadcast B R}.
Local Abbreviation World := (ServeWorld G C).

(** The methods of [WorkerService]. *)
Inductive Call : Type :=
| Call_fetch (req : FetchRequest)
| Call_start (req : StartRequest)
| Call_succeed (req : SucceedRequest)
| Call_fail (req : FailRequest)
| Call_heartbeat (req : HeartbeatRequest).

Inductive Reply : Type :=
| Streaming
| Acknowledged
| Outcome (code : Z)
| Extended (alive : bool).

(** A call, and the stream it opens. *)
Definition handle (config : GrpcConfig) (md : MetadataMap) (call : Call) : ST World Status (Reply * list (Stream (Ch:=Ch))) :=
  match call with
  | Call_fetch req => let! accepted := WorkerApi_fetch config md req in st_ret (Streaming, [fetch_open accepted])
  | Call_start req => let! _ := WorkerApi_start config md req in st_ret (Acknowledged, [])
  | Call_succeed req => let! code := WorkerApi_succeed config md req in st_ret (Outcome code, [])
  | Call_fail req => let! code := WorkerApi_fail config md req in st_ret (Outcome code, [])
  | Call_heartbeat req => let! alive := WorkerApi_heartbeat config md req in st_ret (Extended alive, [])
  end.

Record Process : Type := Process_mk {
  pr_world : World;
  pr_signal : PgSignal (B:=B);
  pr_streams : list (Stream (Ch:=Ch));
  (** The two tickers run. *)
  pr_sweeping : bool;
  pr_relaying : bool;
  (** The standard output and the standard error. *)
  pr_out : Output;
  pr_err : Output;
  pr_answers : list (result Reply Status);
}.

(** When the tickers are spawned and the service listens. *)
Definition Process_new (signal : PgSignal) (out err : Output) (w : World) : Process :=
  {| pr_world := w; pr_signal := signal; pr_streams := []; pr_sweeping := true; pr_relaying := true;
     pr_out := out; pr_err := err; pr_answers := [] |}.

Definition on_world (f : World → World) (p : Process) : Process :=
  Process_mk (f (pr_world p)) (pr_signal p) (pr_streams p) (pr_sweeping p) (pr_relaying p)
    (pr_out p) (pr_err p) (pr_answers p).

Definition call_turn (config : GrpcConfig) (md : MetadataMap) (call : Call) (p : Process) : Process :=
  let '(r, w) := handle config md call (pr_world p) in
  let opened := match r with Ok (_, streams) => streams | _ => [] end in
  let answer := match r with Ok (reply, _) => Ok reply | Err st => Err st | Panic => Panic end in
  Process_mk w (pr_signal p) (pr_streams p ++ opened) (pr_sweeping p) (pr_relaying p)
    (pr_out p) (pr_err p) (pr_answers p ++ [answer]).

(** A turn of the [i]-th stream. *)
Definition stream_at (i : nat) (t : StreamTurn (W:=World)) (p : Process) : Process :=
  match pr_streams p !! i with
  | None => p
  | Some s =>
      let '(s, w) := stream_turn t (s, pr_world p) in
      Process_mk w (pr_signal p) (<[i := s]> (pr_streams p)) (pr_sweeping p) (pr_relaying p)
        (pr_out p) (pr_err p) (pr_answers p)
  end.

(** A tick of the sweep, with a bound on its loop. *)
Definition sweep_turn (fuel : nat) (p : Process) : Process :=
  if pr_sweeping p then
    let '(goes_on, out, err, w) := sweep_tick fuel (pr_out p) (pr_err p) (pr_world p) in
    Process_mk w (pr_signal p) (pr_streams p) goes_on (pr_relaying p) out err (pr_answers p)
  else p.

(** A tick of the relay; its sink prints to the standard output. *)
Definition relay_turn (p : Process) : Process :=
  if pr_relaying p then
    let '(goes_on, err, x) := relay_tick (pr_err p) (RelayWorld_mk (sw_pg (pr_world p)) (pr_out p)) in
    Process_mk (set_sw_pg (rw_world x) (pr_world p)) (pr_signal p) (pr_streams p) (pr_sweeping p) goes_on
      (rw_sink x) err (pr_answers p)
  else p.

Definition listen_turn (r : Recv) (p : Process) : Process :=
  let '(err, hub) := hub_round_on r (pr_err p) (sig_hub (pr_signal p)) in
  Process_mk (pr_world p) (PgSignal_mk hub (sig_clones (pr_signal p)))
    (pr_streams p) (pr_sweeping p) (pr_relaying p) (pr_out p) err (pr_answers p).

Inductive ServeTurn : Type :=
| Called (md : MetadataMap) (call : Call)
| Stream_turns (i : nat) (t : StreamTurn (W:=World))
| Sweep_ticks (fuel : nat)
| Relay_ticks
| Listens (r : Recv)
| Elsewhere (f : World → World).

(** What a stream does to the broker, it does by its task. *)
Definition serve_turn (config : GrpcConfig) (t : ServeTurn) (p : Process) : Process :=
  match t with
  | Called md call => call_turn config md call p
  | Stream_turns i t => if own_turn t then stream_at i t p else p
  | Sweep_ticks fuel => sweep_turn fuel p
  | Relay_ticks => relay_turn p
  | Listens r => listen_turn r p
  | Elsewhere f => on_world f p
  end.

Definition serve_turns (config : GrpcConfig) (turns : list ServeTurn) (p : Process) : Process :=
  foldl (λ p t, serve_turn config t p) p turns.

(** ** [run] *)

(** How the outside turns out: connections, migrations, the transport, and
    the text of an address. *)
Record Outside `{platform : Platform} : Type := Outside_mk {
  out_connect : string → Z → Duration → result unit SqlxError;
  out_migrate : result unit SqlxError;
  (** The listener's pool, of one connection, its connection, its [LISTEN]. *)
  out_listener_pool : string → Z → Duration → result unit SqlxError;
  out_listener : result unit SqlxError;
  out_listen : result unit SqlxError;
  out_transport : result unit string;
  out_addr : SocketAddr → string;
}.

Context {platform : Platform}.

(** Everything before the service listens. *)
Definition start_up (lookup : string → option string) (out : Outside) : result (ServeConfig * PgSignal (B:=B)) string :=
  let? cfg := parse_config lookup in
  let? _ := map_err (λ e, "connect/migrate: " +:+ SqlxError_to_string e)
    (connect_pool (out_connect out) (out_migrate out) (cfg_database_url cfg) (cfg_pool_config cfg)) in
  let? signal := map_err (λ e, "listen koine_dispatch: " +:+ SqlxError_to_string e)
    (PgSignal_connect
      (out_listener_pool out (cfg_database_url cfg) 1 (PoolConfig_acquire_timeout (cfg_pool_config cfg)))
      (out_listener out) (out_listen out)) in
  Ok (cfg, signal).

(** The answer, and the process as the shutdown finds it, if it served; [o]
    and [err] are its standard streams. *)
Definition run (lookup : string → option string) (out : Outside) (turns : list ServeTurn) (o err : Output) (w : World)
    : result unit string * option Process :=
  match start_up lookup out with
  | Ok (cfg, signal) =>
      let listening := "koine-server: serve listening on " +:+ out_addr out (cfg_grpc_addr cfg)
        +:+ " — authenticated grpc data plane (all queues)" in
      match println (E:=string) listening o with
      | (Ok _, o) =>
          (map_err (λ e, "grpc serve: " +:+ e) (out_transport out),
           Some (serve_turns (serve_grpc_config cfg) turns (Process_new signal o err w)))
      | (r, _) => (r, None)
      end
  | Err e => (Err e, None)
  | Panic => (Panic, None)
  end.
End service.
