(* ===== verification/DevRun.v ===== *)
(** * The end-to-end exercise as a whole ([koine-server/src/dev_loop.rs], [run])

    The worker and the main loop are two tasks; how they interleave, and what
    happens between their turns, is a schedule. A worker that meets an error
    is gone: nobody awaits its task. What the exercise and its relay's sink
    print goes to the standard output; a line it does not take is a panic. *)

From S2P Require Import Prelude Std Ids Retry Events Job Lifecycle Commands Ports UseCases Contract.
From S2P Require Import DevLoop Postgres PgStore PgDispatcher PgRelay.

Open Scope string_scope.
Open Scope list_scope.
Open Scope Z_scope.

Section dev_run.
Context `{ext : Externals} {pg : Postgres} {json : Json} {G C : Type} `{!IdGenerator G, !Clock C}.
Local Abbreviation World := (PgWorld G C).
Local Abbreviation RWorld := (RelayWorld G C Output).

Definition on_store {E T : Type} (m : ST World E T) : ST RWorld E T :=
  st_zoom rw_world (λ w x, RelayWorld_mk w (rw_sink x)) m.

(** The exercise prints where its sink does. *)
Definition say {E : Type} (line : string) : ST RWorld E unit :=
  st_zoom rw_sink (λ o x, RelayWorld_mk (rw_world x) o) (println line).

Definition check_stories (job1 job2 job3 : JobId) : ST RWorld string unit :=
  let! job1_story := on_store (story job1) in
  let! job2_story := on_store (story job2) in
  let! job3_story := on_store (story job3) in
  let! _ := say ("dev-loop: job1 (plain) story:  " +:+ join "," job1_story) in
  let! _ := say ("dev-loop: job2 (crashy) story: " +:+ join "," job2_story) in
  let! _ := say ("dev-loop: job3 (flaky) story:  " +:+ join "," job3_story) in
  let missing := missing_markers job1_story job2_story job3_story in
  if decide (missing = []) then st_ret tt
  else st_err ("missing story markers: " +:+ join "; " missing).

(** The poll of the main loop: each story is loaded, whatever the others say. *)
Fixpoint all_succeeded (tracked : list JobId) : ST World string bool :=
  match tracked with
  | [] => st_ret true
  | job :: tracked =>
      let! kinds := story job in
      let! rest := all_succeeded tracked in
      st_ret (contains kinds "succeeded" && rest)
  end.

(** One round of the main loop; [fuel] bounds the sweep, [late] says whether
    the deadline has passed. The answer is whether the loop is left. *)
Definition main_round (fuel : nat) (tracked : list JobId) (late : bool) : ST RWorld string bool :=
  let! _ := st_map_err (λ e, match e with Sweep_Dispatch e => "sweep: " +:+ DispatchError_to_string e end)
    (on_store (SweepExpiredLeases_execute fuel)) in
  let! _ := st_map_err (λ e, "relay: " +:+ RelayError_to_string e) (relay_once 64) in
  let! all := on_store (all_succeeded tracked) in
  if all then st_ret true
  else if late then st_err "dev-loop timed out after 60s waiting for jobs to terminate"
  else st_ret false.

(** Whose turn it is. *)
Inductive Turn : Type :=
| Worker_turn
| Main_turn (late : bool)
| Between (f : World → World).

(** The two loops under a schedule; [alive]: the worker's task still runs.
    The answer is whether the main loop has been left. *)
Fixpoint dev_turns (fuel : nat) (queue : QueueName) (worker : WorkerId) (ttl : Duration)
    (tracked : list JobId) (alive : bool) (turns : list Turn) : ST RWorld string bool :=
  match turns with
  | [] => st_ret false
  | Worker_turn :: turns => λ x,
      if alive then
        match on_store (worker_round queue worker ttl) x with
        | (Ok _, x) => dev_turns fuel queue worker ttl tracked true turns x
        | (_, x) => dev_turns fuel queue worker ttl tracked false turns x
        end
      else dev_turns fuel queue worker ttl tracked false turns x
  | Main_turn late :: turns =>
      let! done := main_round fuel tracked late in
      if done then st_ret true else dev_turns fuel queue worker ttl tracked alive turns
  | Between f :: turns =>
      let! _ := st_modify (λ x, RelayWorld_mk (f (rw_world x)) (rw_sink x)) in
      dev_turns fuel queue worker ttl tracked alive turns
  end.

(** [run] after the pool is connected. [None]: the schedule ends before the
    loop does. *)
Definition run (fuel : nat) (turns : list Turn) : ST RWorld string (option unit) :=
  let! queue := st_lift (map_err (λ e, "queue: " +:+ DomainError_to_string e) (QueueName_new "dev")) in
  let lease_ttl := Duration_from_secs 2 in
  let! jobs := on_store (enqueue_dev_jobs queue) in
  let '(job1, job2, job3) := jobs in
  let! _ := say ("dev-loop: enqueued job1(plain)=" +:+ show_job job1 +:+ " job2(crashy)=" +:+ show_job job2
    +:+ " job3(flaky)=" +:+ show_job job3) in
  let! finished :=
    match WorkerId_new "dev-worker" with
    | Ok worker => dev_turns fuel queue worker lease_ttl [job1; job2; job3] true turns
    | _ => dev_turns fuel queue (WorkerId_mk "") lease_ttl [job1; job2; job3] false turns
    end in
  if finished then let! _ := check_stories job1 job2 job3 in st_ret (Some tt)
  else st_ret None.

(** ** The verdict *)

Lemma on_store_ok {E T : Type} (m : ST World E T) (x : RWorld) a x' :
  on_store m x = (Ok a, x') → m (rw_world x) = (Ok a, rw_world x').
Proof. unfold on_store, st_zoom. destruct (m (rw_world x)) as [r w]. by intros [= -> <-]. Qed.

Lemma say_ok {E : Type} line (x x' : RWorld) : say (E:=E) line x = (Ok tt, x') → rw_world x' = rw_world x.
Proof. unfold say, st_zoom. destruct (println line (rw_sink x)) as [r o]. by intros [= _ <-]. Qed.

Lemma contains_spec kinds k : contains kinds k = true ↔ k ∈ kinds.
Proof. apply bool_decide_eq_true. Qed.

Lemma main_round_done fuel tracked late (x x' : RWorld) :
  main_round fuel tracked late x = (Ok true, x') → ∃ w, all_succeeded tracked w = (Ok true, rw_world x').
Proof.
  intros (n & x1 & _ & H)%st_bind_ok. apply st_bind_ok in H as (m & x2 & _ & H).
  apply st_bind_ok in H as (all & x3 & H3 & H).
  apply on_store_ok in H3. destruct all; [injection H as <-; by eexists|]. by destruct late.
Qed.

Lemma dev_turns_done fuel queue worker ttl tracked alive turns (x x' : RWorld) :
  dev_turns fuel queue worker ttl tracked alive turns x = (Ok true, x') →
  ∃ w, all_succeeded tracked w = (Ok true, rw_world x').
Proof.
  revert alive x. induction turns as [|[|late|f] turns IH]; intros alive x; simpl; [done|..].
  - destruct alive; [|by apply IH]. destruct (on_store _ x) as [[] x1]; by apply IH.
  - intros ([] & x1 & H1 & H)%st_bind_ok; [injection H as <-; by eapply main_round_done|]. by eapply IH.
  - apply IH.
Qed.

Lemma missing_markers_none k1 k2 k3 :
  missing_markers k1 k2 k3 = [] →
  k1 = ["enqueued"; "leased"; "started"; "succeeded"] ∧ "lease_expired" ∈ k2 ∧ "failed" ∈ k3 ∧ "retry_scheduled" ∈ k3.
Proof.
  unfold missing_markers. destruct (bool_decide _) eqn:H1; [|done]. apply bool_decide_eq_true in H1.
  destruct (contains k2 _) eqn:H2; [|done]. destruct (contains k3 "failed") eqn:H3; [|done].
  destruct (contains k3 "retry_scheduled") eqn:H4; [|done]. rewrite contains_spec in H2, H3, H4. done.
Qed.

Lemma poll_spec job1 job2 job3 (w w' : World) :
  all_succeeded [job1; job2; job3] w = (Ok true, w') →
  ∃ k1 k2 k3 v1 v2, story job1 w = (Ok k1, v1) ∧ story job2 v1 = (Ok k2, v2) ∧ story job3 v2 = (Ok k3, w') ∧
    "succeeded" ∈ k1 ∧ "succeeded" ∈ k2 ∧ "succeeded" ∈ k3.
Proof.
  intros (k1 & v1 & H1 & (r1 & w1 & H & E1)%st_bind_ok)%st_bind_ok.
  apply st_bind_ok in H as (k2 & v2 & H2 & (r2 & w2 & H & E2)%st_bind_ok).
  apply st_bind_ok in H as (k3 & v3 & H3 & (r3 & w3 & H & E3)%st_bind_ok).
  injection H as <- <-. injection E3 as <- <-. injection E2 as <- <-. injection E1 as Hb <-.
  rewrite !andb_true_iff, !contains_spec in Hb. exists k1, k2, k3, v1, v2. tauto.
Qed.

Lemma check_stories_ok job1 job2 job3 (x x' : RWorld) :
  check_stories job1 job2 job3 x = (Ok tt, x') →
  ∃ k1 k2 k3 v1 v2, story job1 (rw_world x) = (Ok k1, v1) ∧ story job2 v1 = (Ok k2, v2) ∧
    story job3 v2 = (Ok k3, rw_world x') ∧ k1 = ["enqueued"; "leased"; "started"; "succeeded"] ∧
    "lease_expired" ∈ k2 ∧ "failed" ∈ k3 ∧ "retry_scheduled" ∈ k3.
Proof.
  intros (k1 & x1 & H1%on_store_ok & (k2 & x2 & H2%on_store_ok & (k3 & x3 & H3%on_store_ok & H)%st_bind_ok)%st_bind_ok)%st_bind_ok.
  apply st_bind_ok in H as ([] & x4 & E4%say_ok & ([] & x5 & E5%say_ok & ([] & x6 & E6%say_ok & H)%st_bind_ok)%st_bind_ok).
  cbv zeta in H. case_decide as Hm; [apply missing_markers_none in Hm|done]. injection H as <-.
  rewrite E6, E5, E4. exists k1, k2, k3, (rw_world x1), (rw_world x2). tauto.
Qed.

(** When the exercise answers success, under whatever schedule and with
    whatever other sessions: the jobs it enqueued had all succeeded when they
    were polled last, and of the stories loaded right after that, the plain
    one is the documented one, the crashed one has an expired lease, the
    flaky one a failure and a retry. *)
Theorem run_verdict fuel turns (x x' : RWorld) :
  run fuel turns x = (Ok (Some tt), x') →
  ∃ queue job1 job2 job3 w0 w1, QueueName_new "dev" = Ok queue ∧
    on_store (enqueue_dev_jobs queue) x = (Ok (job1, job2, job3), w0) ∧
    (∃ w k1 k2 k3 v1 v2, story job1 w = (Ok k1, v1) ∧ story job2 v1 = (Ok k2, v2) ∧ story job3 v2 = (Ok k3, w1) ∧
       "succeeded" ∈ k1 ∧ "succeeded" ∈ k2 ∧ "succeeded" ∈ k3) ∧
    (∃ k1 k2 k3 v1 v2, story job1 w1 = (Ok k1, v1) ∧ story job2 v1 = (Ok k2, v2) ∧
       story job3 v2 = (Ok k3, rw_world x') ∧ k1 = ["enqueued"; "leased"; "started"; "succeeded"] ∧
       "lease_expired" ∈ k2 ∧ "failed" ∈ k3 ∧ "retry_scheduled" ∈ k3).
Proof.
  intros (queue & x1 & H1 & H)%st_bind_ok. unfold st_lift in H1. destruct (QueueName_new "dev") as [q| |] eqn:Hq; [|done|done].
  injection H1 as <- <-.
  apply st_bind_ok in H as ([[job1 job2] job3] & x2 & H2 & H). apply st_bind_ok in H as ([] & x2' & _ & H).
  apply st_bind_ok in H as (fin & x3 & H3 & H).
  destruct fin; [|done]. assert (∃ w, all_succeeded [job1; job2; job3] w = (Ok true, rw_world x3)) as (w & Hp%poll_spec)
    by (destruct (WorkerId_new _); eapply dev_turns_done; exact H3).
  apply st_bind_ok in H as ([] & x4 & Hc & H). injection H as <-.
  exists q, job1, job2, job3, x2, (rw_world x3). split; [done|]. split; [exact H2|]. split; [exists w; exact Hp|].
  by apply check_stories_ok in Hc.
Qed.
End dev_run.
