(* ===== verification/PgRows.v ===== *)
(** * The log in the tables

    What the rows of [events] say: [pg_log] reads the log of streams off the
    table, and a new row with the next version of its stream is one more
    event at the end of that stream and no other change. *)

From stdpp Require Import sorting.
From S2P Require Import Prelude Std Ids Retry Events Job Lifecycle Commands Ports UseCases Contract.
From S2P Require Import Postgres PgStore.

Open Scope string_scope.
Open Scope list_scope.
Open Scope Z_scope.

(** ** Filtering *)

Lemma list_filter_all {A} (P : A → Prop) `{!∀ x, Decision (P x)} (l : list A) :
  Forall P l → base.filter P l = l.
Proof. induction 1 as [|x l Hx _ IH]; [done|]. by rewrite filter_cons_True, IH. Qed.

Lemma sorted_lookup {A} (R : relation A) (l : list A) i1 i2 a b :
  StronglySorted R l → (i1 < i2)%nat → l !! i1 = Some a → l !! i2 = Some b → R a b.
Proof.
  intros Hs. revert i1 i2. induction Hs as [|x l Hs IH Hx]; intros i1 i2 Hlt H1 H2; [done|].
  destruct i2 as [|i2]; [lia|]. destruct i1 as [|i1]; simplify_eq/=; [|by eapply (IH i1 i2); [lia|..]].
  rewrite Forall_lookup in Hx. by eapply Hx.
Qed.

Lemma list_filter_none {A} (P : A → Prop) `{!∀ x, Decision (P x)} (l : list A) :
  (∀ x, x ∈ l → ¬ P x) → base.filter P l = [].
Proof.
  induction l as [|x l IH]; intros Hn; [done|].
  rewrite filter_cons_False by (by apply Hn; left). apply IH. intros y Hy. apply Hn. by right.
Qed.

(** ** Sorting *)

Section sorting.
Context {A : Type} (leb : A → A → bool).
Hypothesis leb_total : ∀ a b, leb a b = true ∨ leb b a = true.
Hypothesis leb_trans : ∀ a b c, leb a b = true → leb b c = true → leb a c = true.

Lemma order_by_perm (l : list A) : order_by leb l ≡ₚ l.
Proof. apply merge_sort_Permutation. Qed.

Lemma order_by_sorted (l : list A) : StronglySorted (leb_rel leb) (order_by leb l).
Proof.
  apply StronglySorted_merge_sort; [|intros a b; apply leb_total].
  intros a b c. apply leb_trans.
Qed.

(** A sorted permutation is the sorting when the order tells its elements
    apart. *)
Lemma order_by_unique (l l' : list A) :
  StronglySorted (leb_rel leb) l' → l' ≡ₚ l →
  (∀ a b, a ∈ l → b ∈ l → leb a b = true → leb b a = true → a = b) →
  order_by leb l = l'.
Proof.
  intros Hs Hp Hu. apply (StronglySorted_unique_strong (leb_rel leb)); [|apply order_by_sorted|done|].
  - intros a b Ha Hb. apply Hu; [by rewrite <-order_by_perm|by rewrite <-Hp].
  - by rewrite order_by_perm.
Qed.

(** The head of a sorting is a least element. *)
Lemma order_by_head (l : list A) :
  match head (order_by leb l) with
  | None => l = []
  | Some x => x ∈ l ∧ ∀ y, y ∈ l → leb x y = true
  end.
Proof.
  pose proof (order_by_perm l) as Hp. pose proof (order_by_sorted l) as Hs.
  destruct (order_by leb l) as [|x rest]; simpl.
  - by apply Permutation_nil_l in Hp.
  - split; [rewrite <-Hp; by left|]. intros y. rewrite <-Hp. intros [->|Hy]%elem_of_cons.
    + by destruct (leb_total x x).
    + inversion Hs as [|?? _ Hall]; subst. rewrite Forall_forall in Hall. by apply Hall.
Qed.
End sorting.

Section rows.
Context `{ext : Externals} {pg : Postgres}.
Implicit Types (m : gmap Z EventRow) (row : EventRow) (rows : list EventRow) (u : Uuid).

(** ** Versions *)

Lemma version_leb_total a b : version_leb a b = true ∨ version_leb b a = true.
Proof. unfold version_leb. rewrite !Z.leb_le. lia. Qed.

Lemma version_leb_trans a b c :
  version_leb a b = true → version_leb b c = true → version_leb a c = true.
Proof. unfold version_leb. rewrite !Z.leb_le. lia. Qed.

(** Numbered from [v] on, one by one. *)
Definition numbered (v : Z) rows : Prop :=
  ∀ i row, rows !! i = Some row → ev_version row = v + Z.of_nat i.

Lemma numbered_app v rows1 rows2 :
  numbered v (rows1 ++ rows2) ↔ numbered v rows1 ∧ numbered (v + Z.of_nat (length rows1)) rows2.
Proof.
  split.
  - intros H. split; intros i row Hi.
    + apply H. by apply lookup_app_l_Some.
    + rewrite (H (length rows1 + i)%nat row); [lia|]. by rewrite lookup_app_r, Nat.add_comm, Nat.add_sub by lia.
  - intros [H1 H2] i row [Hi|[Hle Hi]]%lookup_app_Some; [by apply H1|].
    rewrite (H2 _ _ Hi). lia.
Qed.

Lemma numbered_sorted v rows : numbered v rows → StronglySorted (leb_rel version_leb) rows.
Proof.
  revert v. induction rows as [|row rows IH]; intros v Hn; [constructor|].
  apply (numbered_app v [row] rows) in Hn as [H1 H2]. constructor; [by eapply IH|].
  apply Forall_lookup. intros i row' Hi. unfold leb_rel, version_leb. apply Z.leb_le.
  rewrite (H2 _ _ Hi), (H1 0%nat row eq_refl). simpl. lia.
Qed.

Lemma numbered_inj v rows a b :
  numbered v rows → a ∈ rows → b ∈ rows → ev_version a = ev_version b → a = b.
Proof.
  intros Hn [i Hi]%list_elem_of_lookup [k Hk]%list_elem_of_lookup Heq.
  rewrite (Hn _ _ Hi), (Hn _ _ Hk) in Heq. assert (i = k) as -> by lia. congruence.
Qed.

(** ** Rows of a stream *)

Lemma elem_of_stream_rows m u row :
  row ∈ stream_rows m u ↔ ev_stream_id row = u ∧ ∃ k, m !! k = Some row.
Proof.
  unfold stream_rows. rewrite list_elem_of_filter, list_elem_of_fmap. split.
  - intros [? ([k r] & -> & Hk%elem_of_map_to_list)]. eauto.
  - intros [? (k & Hk)]. split; [done|]. exists (k, row). by rewrite elem_of_map_to_list.
Qed.

Lemma elem_of_rows_of m u row :
  row ∈ rows_of m u ↔ ev_stream_id row = u ∧ ∃ k, m !! k = Some row.
Proof. unfold rows_of. rewrite order_by_perm. apply elem_of_stream_rows. Qed.

Lemma rows_of_perm m u : rows_of m u ≡ₚ stream_rows m u.
Proof. apply order_by_perm. Qed.

Lemma map_to_list_disj_union (own m : gmap Z EventRow) :
  own ##ₘ m → map_to_list (own ∪ m) ≡ₚ map_to_list own ++ map_to_list m.
Proof.
  revert m. induction own as [|k row own Hk IH] using map_ind; intros m Hd.
  - by rewrite map_empty_union, map_to_list_empty.
  - apply map_disjoint_insert_l in Hd as [Hm Hd].
    rewrite <-insert_union_l, !map_to_list_insert; [|done|by apply lookup_union_None].
    by rewrite IH.
Qed.

(** A table in which every row reads and every stream is numbered. *)
Definition rows_ok m : Prop :=
  (∀ k row, m !! k = Some row → ∃ env, envelope_from_row row = Ok env) ∧
  ∀ u, numbered 1 (rows_of m u).

(** A listing of the rows of a stream in order is the sorted one. *)
Lemma rows_of_unique m u rows :
  rows ≡ₚ stream_rows m u → numbered 1 rows → rows_of m u = rows.
Proof.
  intros Hp Hn. apply order_by_unique; [apply version_leb_total|apply version_leb_trans
    |by eapply numbered_sorted|done|].
  intros a b. unfold version_leb. rewrite <-!Hp, !Z.leb_le. intros Ha Hb ? ?.
  apply (numbered_inj 1 rows); [done..|lia].
Qed.

(** Uncommitted rows [own] of one stream, laid over a table. *)
Lemma rows_of_union (own m : gmap Z EventRow) rows u u' :
  own ##ₘ m → (map_to_list own).*2 ≡ₚ rows → Forall (λ row, ev_stream_id row = u) rows →
  numbered 1 (rows_of m u ++ rows) → numbered 1 (rows_of m u') →
  rows_of (own ∪ m) u' = if decide (u' = u) then rows_of m u ++ rows else rows_of m u'.
Proof.
  intros Hd Hown Hu Hn Hn'.
  assert (Hs : stream_rows (own ∪ m) u'
    ≡ₚ base.filter (λ row, ev_stream_id row = u') rows ++ rows_of m u').
  { rewrite rows_of_perm. unfold stream_rows. rewrite (map_to_list_disj_union own m) by done.
    by rewrite fmap_app, filter_app, Hown. }
  case_decide as Heq; (apply rows_of_unique; [rewrite Hs; clear Hs|done]).
  - subst u'. rewrite list_filter_all by done.
    by rewrite Permutation_app_comm.
  - rewrite list_filter_none; [done|]. intros row Hr Heq'. rewrite Forall_forall in Hu.
    apply Heq. by rewrite <-Heq', (Hu _ Hr).
Qed.

(** ** Reading rows *)

Lemma read_row_ok row env :
  envelope_from_row row = Ok env ↔
  ∃ ev, event_from_value (ev_payload row) = inl ev ∧ 0 ≤ ev_version row ∧ 0 ≤ ev_schema_version row ∧
  env = {| event_id := EventId_new (ev_event_id row);
           stream_id := JobId_new (ev_stream_id row);
           envelope_version := ev_version row;
           recorded_at := ev_recorded_at row;
           correlation_id := CorrelationId_new (ev_correlation_id row);
           causation_id := EventId_new <$> ev_causation_id row;
           traceparent := ev_traceparent row;
           schema_version := ev_schema_version row;
           event := ev |}.
Proof.
  unfold envelope_from_row. destruct (event_from_value (ev_payload row)) as [ev|e]; simpl; [|naive_solver].
  zb; simpl; naive_solver lia.
Qed.

Lemma read_rows_ok rows envs :
  envelopes_from_rows rows = Ok envs ↔ Forall2 (λ row env, envelope_from_row row = Ok env) rows envs.
Proof.
  revert envs. induction rows as [|row rows IH]; intros envs; simpl.
  - split; [by intros [= <-]|by intros ->%Forall2_nil_inv_l].
  - split.
    + intros (env & ? & (envs' & ?%IH & [= <-])%result_bind_ok)%result_bind_ok. by constructor.
    + intros (env & envs' & Hr & Hrs%IH & ->)%Forall2_cons_inv_l. by rewrite Hr, Hrs.
Qed.

Lemma read_row_ids rows envs :
  envelopes_from_rows rows = Ok envs → EventId_as_uuid <$> (event_id <$> envs) = ev_event_id <$> rows.
Proof.
  intros Hr%read_rows_ok. rewrite <-list_fmap_compose. induction Hr as [|row env rows envs Hre _ IH]; [done|].
  rewrite !fmap_cons, IH. f_equal. by apply read_row_ok in Hre as (? & _ & _ & _ & ->).
Qed.

Lemma read_rows_app rows1 rows2 envs1 :
  envelopes_from_rows rows1 = Ok envs1 →
  envelopes_from_rows (rows1 ++ rows2)
  = (let? envs2 := envelopes_from_rows rows2 in Ok (envs1 ++ envs2)).
Proof.
  revert envs1. induction rows1 as [|row rows IH]; intros envs1; simpl.
  - intros [= <-]. by destruct (envelopes_from_rows rows2).
  - intros (env & -> & (envs & He & [= <-])%result_bind_ok)%result_bind_ok. simpl.
    rewrite (IH _ He). by destruct (envelopes_from_rows rows2).
Qed.

Lemma read_rows_no_panic rows : envelopes_from_rows rows ≠ Panic.
Proof.
  induction rows as [|row rows IH]; simpl; [done|]. unfold envelope_from_row.
  destruct (event_from_value _); simpl; [|done]. zb; simpl; try done;
    by destruct (envelopes_from_rows rows).
Qed.

Lemma read_rows_total rows :
  Forall (λ row, ∃ env, envelope_from_row row = Ok env) rows → ∃ envs, envelopes_from_rows rows = Ok envs.
Proof.
  induction 1 as [|row rows [env Hr] _ [envs IH]]; simpl; [eauto|]. rewrite Hr, IH. simpl. eauto.
Qed.

(** ** The log *)

(** The envelopes of a stream; what [load_in_tx] reads. *)
Definition envs_of m u : list EventEnvelope :=
  match envelopes_from_rows (rows_of m u) with
  | Ok envs => envs
  | _ => []
  end.

Definition pg_log m : gmap JobId (list EventEnvelope) :=
  set_to_map (λ u, (JobId_new u, envs_of m u)) (stream_ids m).

Lemma elem_of_stream_ids m u : u ∈ stream_ids m ↔ rows_of m u ≠ [].
Proof.
  unfold stream_ids. rewrite elem_of_list_to_set, list_elem_of_fmap. split.
  - intros (row & -> & ([k r] & -> & Hk%elem_of_map_to_list)%list_elem_of_fmap) Hnil. simpl in *.
    assert (r ∈ rows_of m (ev_stream_id r)) as Hin by (apply elem_of_rows_of; eauto).
    rewrite Hnil in Hin. by apply elem_of_nil in Hin.
  - destruct (rows_of m u) as [|row rows] eqn:Hr; [done|]. intros _.
    assert (row ∈ rows_of m u) as (Hu & k & Hk)%elem_of_rows_of by (rewrite Hr; by left).
    exists row. split; [done|]. apply list_elem_of_fmap. exists (k, row).
    by rewrite elem_of_map_to_list.
Qed.

Lemma pg_log_lookup m id :
  pg_log m !! id
  = if decide (rows_of m (JobId_as_uuid id) = []) then None else Some (envs_of m (JobId_as_uuid id)).
Proof.
  apply option_eq. intros s. unfold pg_log.
  rewrite lookup_set_to_map by (by intros u u' _ _ [= ->]).
  setoid_rewrite elem_of_stream_ids. split.
  - intros (u & Hu & [= <- <-]). simpl. by rewrite decide_False.
  - case_decide; [done|]. intros [= <-]. exists (JobId_as_uuid id). by destruct id.
Qed.

Lemma rows_readable m u : rows_ok m → envelopes_from_rows (rows_of m u) = Ok (envs_of m u).
Proof.
  intros [Hr _]. unfold envs_of. destruct (read_rows_total (rows_of m u)) as [envs ->]; [|done].
  apply Forall_forall. intros row (_ & k & Hk)%elem_of_rows_of. by eapply Hr.
Qed.

(** The stream of a job in the log, empty when there is none. *)
Lemma pg_log_stream m id :
  rows_ok m → default [] (pg_log m !! id) = envs_of m (JobId_as_uuid id).
Proof.
  intros _. rewrite pg_log_lookup. case_decide as Hn; [|done]. unfold envs_of. by rewrite Hn.
Qed.

Lemma envs_of_length m u : rows_ok m → length (envs_of m u) = length (rows_of m u).
Proof.
  intros Hm. pose proof (rows_readable m u Hm) as Hr%read_rows_ok. symmetry. by eapply Forall2_length.
Qed.

(** Laying uncommitted rows of one stream over a table appends what they
    read to that stream. *)
Lemma pg_log_union (own m : gmap Z EventRow) rows kept id :
  rows_ok m → own ##ₘ m → (map_to_list own).*2 ≡ₚ rows → rows ≠ [] →
  Forall (λ row, ev_stream_id row = JobId_as_uuid id) rows →
  numbered (1 + Z.of_nat (length (rows_of m (JobId_as_uuid id)))) rows →
  envelopes_from_rows rows = Ok kept →
  rows_ok (own ∪ m) ∧ pg_log (own ∪ m) = <[id := default [] (pg_log m !! id) ++ kept]> (pg_log m).
Proof.
  intros Hm Hd Hown Hne Hu Hn Hk.
  assert (Hnum : numbered 1 (rows_of m (JobId_as_uuid id) ++ rows)).
  { apply numbered_app. split; [apply Hm|done]. }
  assert (Hrows : ∀ u', rows_of (own ∪ m) u' = if decide (u' = JobId_as_uuid id)
    then rows_of m (JobId_as_uuid id) ++ rows else rows_of m u').
  { intros u'. apply rows_of_union; [done..|apply Hm]. }
  split; [split|].
  - intros k row [Hk'|[_ Hk']]%lookup_union_Some_raw; [|by eapply (proj1 Hm)].
    assert (row ∈ rows) as Hin.
    { rewrite <-Hown. apply list_elem_of_fmap. exists (k, row). by rewrite elem_of_map_to_list. }
    apply read_rows_ok in Hk. apply list_elem_of_lookup in Hin as [i Hi].
    destruct (Forall2_lookup_l _ _ _ _ _ Hk Hi) as (env & _ & ?). eauto.
  - intros u'. rewrite Hrows. case_decide; [done|apply Hm].
  - apply map_eq. intros id'. rewrite pg_log_lookup, Hrows, pg_log_stream by done.
    destruct (decide (id' = id)) as [->|Hne'].
    + destruct (decide (JobId_as_uuid id = _)) as [_|]; [|done].
      rewrite decide_False by (by intros [_ ?]%app_eq_nil).
      rewrite lookup_insert_eq. f_equal. unfold envs_of at 1. rewrite Hrows, decide_True by done.
      by rewrite (read_rows_app _ _ _ (rows_readable _ _ Hm)), Hk.
    + assert (JobId_as_uuid id' ≠ JobId_as_uuid id) as Hu' by (destruct id, id'; simpl; congruence).
      rewrite (decide_False _ _ Hu'), lookup_insert_ne, pg_log_lookup by done. case_decide; [done|].
      f_equal. unfold envs_of. by rewrite Hrows, (decide_False _ _ Hu').
Qed.

(** The highest version of a numbered stream is its length. *)
Lemma max_version_perm rows1 rows2 : rows1 ≡ₚ rows2 → max_version rows1 = max_version rows2.
Proof.
  induction 1 as [|x l l' _ IH|x y l|l1 l2 l3 _ IH1 _ IH2]; simpl; [done| | |congruence].
  - fold (max_version l) (max_version l'). by rewrite IH.
  - fold (max_version l). destruct (max_version l); f_equal; lia.
Qed.

Lemma max_version_numbered v rows :
  0 ≤ v → numbered (v + 1) rows → default v (max_version rows) = v + Z.of_nat (length rows).
Proof.
  revert v. induction rows as [|row rows IH]; intros v Hv Hn; simpl; [lia|].
  apply (numbered_app _ [row] rows) in Hn as [H1 H2]. simpl in H2.
  fold (max_version rows). specialize (IH (v + 1) ltac:(lia) H2).
  rewrite (H1 0%nat row eq_refl). destruct (max_version rows) as [n|]; simpl in *; lia.
Qed.

Lemma max_version_stream m u :
  rows_ok m → default 0 (max_version (stream_rows m u)) = Z.of_nat (length (envs_of m u)).
Proof.
  intros Hm. rewrite <-(max_version_perm (rows_of m u)) by apply rows_of_perm.
  rewrite (max_version_numbered 0), envs_of_length by (done || apply Hm). done.
Qed.

(** Which versions of a stream are taken. *)
Lemma version_taken m u v :
  rows_ok m → (∃ k row, m !! k = Some row ∧ ev_stream_id row = u ∧ ev_version row = v)
  ↔ 1 ≤ v ≤ Z.of_nat (length (envs_of m u)).
Proof.
  intros Hm. rewrite envs_of_length by done. destruct Hm as [_ Hm]. split.
  - intros (k & row & Hk & Hu & <-).
    assert (row ∈ rows_of m u) as [i Hi]%list_elem_of_lookup by (apply elem_of_rows_of; eauto).
    rewrite (Hm _ _ _ Hi). apply lookup_lt_Some in Hi. lia.
  - intros Hv. destruct (lookup_lt_is_Some_2 (rows_of m u) (Z.to_nat (v - 1))) as [row Hi]; [lia|].
    assert (row ∈ rows_of m u) as (Hu & k & Hk)%elem_of_rows_of by (by apply list_elem_of_lookup; eauto).
    exists k, row. split_and!; [done..|]. rewrite (Hm _ _ _ Hi). lia.
Qed.
End rows.
