(* ===== verification/PgTx.v ===== *)
(** * What holds of a database and of an open transaction

    [db_ok]: the log reads back and folds, the dispatch table is its
    projection, the sequences are ahead of their tables. Other sessions are
    brokers too: their commits keep [db_ok] and only extend streams
    ([fate_ok]). [tx_inv] says what an appending transaction has written, and
    survives whatever happens at a round trip. *)

From stdpp Require Import sorting.
From S2P Require Import Prelude Std Ids Retry Events Job Lifecycle Commands Ports UseCases Contract.
From S2P Require Import Postgres PgStore PgRows.

Open Scope string_scope.
Open Scope list_scope.
Open Scope Z_scope.

(** ** Parameters that a column accepts *)

Section columns.
Context `{ext : Externals} {pg : Postgres}.

Definition time_ok (t : DateTime) : Prop := ∃ t', timestamptz t = inl t'.

Definition trace_ok (trace : option string) : Prop :=
  ∀ s, trace = Some s → text_ok s = true.

(** The times of a state that are columns of its dispatch row. *)
Definition times_ok (s : JobState) : Prop :=
  match s with
  | S_Pending (Some t) | S_Leased _ _ t | S_Running _ _ t => time_ok t
  | _ => True
  end.

(** A column of a time holds what TIMESTAMPTZ makes of it. *)
Definition column_of (t t' : option DateTime) : Prop :=
  match t, t' with
  | None, None => True
  | Some t, Some t' => timestamptz t = inl t'
  | _, _ => False
  end.

(** The dispatch row of a job: absent unless it can be claimed or is leased;
    a lease's deadline is what the last grant or heartbeat made of it. *)
Definition dispatched (j : Job) (row : option DispatchRow) : Prop :=
  match job_state j with
  | S_Pending nb => ∃ seq nb', column_of nb nb' ∧
      row = Some {| dq_queue := QueueName_as_str (job_queue j);
                    dq_priority := priority_value (job_priority j); dq_seq := seq;
                    dq_not_before := nb'; dq_lease_id := None; dq_worker_id := None;
                    dq_lease_expires_at := None |}
  | S_Leased w l _ | S_Running w l _ => ∃ seq t',
      row = Some {| dq_queue := QueueName_as_str (job_queue j);
                    dq_priority := priority_value (job_priority j); dq_seq := seq;
                    dq_not_before := None; dq_lease_id := Some (LeaseId_as_uuid l);
                    dq_worker_id := Some (WorkerId_as_str w); dq_lease_expires_at := Some t' |}
  | _ => row = None
  end.
End columns.

Section db.
Context `{ext : Externals} {pg : Postgres} {G C : Type}.
Local Abbreviation World := (PgWorld G C).
Local Abbreviation Tx := (Tx G C).
Implicit Types (d : Db) (w : World) (t : Tx) (id : JobId).

Definition db_log d : gmap JobId (list EventEnvelope) := pg_log (tb_events (db_tables d)).

(** A stream as the database holds it. *)
Record stream_held id (s : list EventEnvelope) (row : option DispatchRow) : Prop := {
  held_ok : stream_ok id s;
  held_length : Z.of_nat (length s) ≤ I64_MAX;
  held_traces : Forall (λ env, trace_ok (traceparent env)) s;
  held_ids : NoDup (event_id <$> s);
  held_job j : from_events s = Ok j → times_ok (job_state j) ∧ dispatched j row;
}.

(** The stream of a job, empty when there is none. *)
Definition db_stream d id : list EventEnvelope := default [] (db_log d !! id).

(** The event in the log that an outbox row announces. *)
Definition announces d (ob : OutboxRow) (env : EventEnvelope) : Prop :=
  env ∈ db_stream d (JobId_new (ob_stream_id ob)) ∧ EventId_as_uuid (event_id env) = ob_event_id ob.

(** The log, the dispatch table and the outbox agree: a job's dispatch row is
    that of its fold; an outbox row announces an event of the log, those of a
    stream in the order of the stream. *)
Record db_ok d : Prop := {
  ok_rows : rows_ok (tb_events (db_tables d));
  ok_streams id s : db_log d !! id = Some s →
    stream_held id s (tb_dispatch (db_tables d) !! JobId_as_uuid id);
  ok_undispatched id : db_log d !! id = None → tb_dispatch (db_tables d) !! JobId_as_uuid id = None;
  ok_global k : is_Some (tb_events (db_tables d) !! k) → k ≤ sq_global (db_seqs d);
  ok_outbox k : is_Some (tb_outbox (db_tables d) !! k) → k ≤ sq_outbox (db_seqs d);
  ok_announced k ob : tb_outbox (db_tables d) !! k = Some ob → ∃ env, announces d ob env;
  ok_outbox_order k1 k2 ob1 ob2 env1 env2 : k1 < k2 →
    tb_outbox (db_tables d) !! k1 = Some ob1 → tb_outbox (db_tables d) !! k2 = Some ob2 →
    ob_stream_id ob1 = ob_stream_id ob2 → announces d ob1 env1 → announces d ob2 env2 →
    envelope_version env1 < envelope_version env2;
}.

(** Streams are only extended, sequences only advance, and what comes into
    the outbox announces an event that was not in the log. *)
Record db_grows d d' : Prop := {
  grows_log id s : db_log d !! id = Some s → ∃ s', db_log d' !! id = Some (s ++ s');
  grows_global : sq_global (db_seqs d) ≤ sq_global (db_seqs d');
  grows_outbox : sq_outbox (db_seqs d) ≤ sq_outbox (db_seqs d');
  grows_announced k ob env : tb_outbox (db_tables d') !! k = Some ob → announces d ob env →
    tb_outbox (db_tables d) !! k = Some ob;
}.

Definition fate_ok (f : Fate) : Prop :=
  match f with
  | Runs others _ _ => ∀ d, db_ok d → db_ok (others d) ∧ db_grows d (others d)
  | _ => True
  end.

Lemma log_extends_stream d d' id :
  (∀ id s, db_log d !! id = Some s → ∃ s', db_log d' !! id = Some (s ++ s')) →
  ∃ s', db_stream d' id = db_stream d id ++ s'.
Proof.
  intros Hg. unfold db_stream. destruct (db_log d !! id) as [s|] eqn:Hs; [|by eexists].
  destruct (Hg _ _ Hs) as [s' ->]. by exists s'.
Qed.

Lemma announces_mono d d' ob env :
  (∀ id s, db_log d !! id = Some s → ∃ s', db_log d' !! id = Some (s ++ s')) →
  announces d ob env → announces d' ob env.
Proof.
  intros Hg [Hin Hid]. split; [|done]. destruct (log_extends_stream d d' (JobId_new (ob_stream_id ob)) Hg) as [s' ->].
  apply elem_of_app. by left.
Qed.

#[export] Instance db_grows_preorder : PreOrder db_grows.
Proof.
  split.
  - intros d. split; [|lia..|done]. intros id s Hs. exists []. by rewrite app_nil_r.
  - intros d1 d2 d3 [H1 ? ? Ha1] [H2 ? ? Ha2]. split; [|lia..|].
    + intros id s (s1 & Hs1)%H1. apply H2 in Hs1 as (s2 & Hs2). exists (s1 ++ s2). by rewrite app_assoc.
    + intros k ob env Hk Han. apply (Ha1 k ob env); [|done]. apply (Ha2 k ob env); [done|]. by eapply announces_mono.
Qed.

Lemma db_stream_envs d id : db_ok d → db_stream d id = envs_of (tb_events (db_tables d)) (JobId_as_uuid id).
Proof. intros Hd. apply pg_log_stream, Hd. Qed.

Lemma grows_stream d d' id : db_grows d d' → ∃ s', db_stream d' id = db_stream d id ++ s'.
Proof. intros [Hg _ _ _]. by apply log_extends_stream. Qed.

Lemma announces_unique d ob env1 env2 :
  (∀ id, NoDup (event_id <$> db_stream d id)) → announces d ob env1 → announces d ob env2 → env1 = env2.
Proof.
  intros Hnd [Hin1 Hid1] [Hin2 Hid2]. specialize (Hnd (JobId_new (ob_stream_id ob))).
  apply list_elem_of_lookup in Hin1 as [i1 Hi1], Hin2 as [i2 Hi2].
  assert (event_id env1 = event_id env2) as Heq by (destruct (event_id env1), (event_id env2); simpl in *; congruence).
  enough (i1 = i2) as -> by congruence. eapply NoDup_lookup; [exact Hnd|..]; rewrite list_lookup_fmap.
  - by rewrite Hi1.
  - by rewrite Hi2, Heq.
Qed.

Lemma stream_version_bound d id env :
  db_ok d → env ∈ db_stream d id → envelope_version env ≤ Z.of_nat (length (db_stream d id)).
Proof.
  intros Hd [i Hi]%list_elem_of_lookup. unfold db_stream in *. destruct (db_log d !! id) as [s|] eqn:Hs; [|done].
  destruct (held_ok _ _ _ (ok_streams _ Hd _ _ Hs)) as (Hlen & _ & j & Hj).
  destruct (from_events_numbered _ _ Hj Hlen) as [_ Hn]. rewrite (Hn _ _ Hi). apply lookup_lt_Some in Hi. simpl in *. lia.
Qed.

(** Nothing enters the outbox about a stream that has not grown. *)
Lemma grows_quiet d d' k ob :
  db_ok d' → db_grows d d' → db_stream d' (JobId_new (ob_stream_id ob)) = db_stream d (JobId_new (ob_stream_id ob)) →
  tb_outbox (db_tables d') !! k = Some ob → tb_outbox (db_tables d) !! k = Some ob.
Proof.
  intros Hd' Hg Hs Hk. destruct (ok_announced _ Hd' _ _ Hk) as (env & Hin & Hid).
  apply (grows_announced _ _ Hg k ob env); [done|]. split; [by rewrite <-Hs|done].
Qed.

(** ** The world around a transaction *)

(** What the statements of a transaction do not change: the process's id
    source and clock, what the database had in store for it when it began,
    and the dispatch rows it has locked. *)
Record Around : Type := Around_mk {
  ar_ids : G;
  ar_clock : C;
  ar_script : list Fate;
  ar_locks : gmap Uuid DispatchRow;
}.

Definition around w : Around := Around_mk (pg_ids w) (pg_clock w) (pg_script w) ∅.

(** What the database can become without this process: a session of the
    script commits, or a number of a sequence is drawn. *)
Definition outside_step (script : list Fate) d d' : Prop :=
  (∃ others jobs outbox, Runs others jobs outbox ∈ script ∧ d' = others d) ∨
  (db_tables d' = db_tables d ∧ db_notified d' = db_notified d).

Definition outside (script : list Fate) : relation Db := rtc (outside_step script).

(** Nothing happens but this process's own statements; nothing fails, but
    other sessions commit. *)
Definition alone (own : Around) : Prop := ar_script own = [].

Definition calm (own : Around) : Prop :=
  ∀ f, f ∈ ar_script own → ∃ others jobs outbox, f = Runs others jobs outbox.

Lemma alone_calm own : alone own → calm own.
Proof. intros Hq f. unfold alone in Hq. rewrite Hq. by intros ?%elem_of_nil. Qed.

Lemma outside_alone d d' : outside [] d d' → db_tables d' = db_tables d.
Proof.
  induction 1 as [|d1 d2 d3 [(? & ? & ? & ?%elem_of_nil & _)|[Ht _]] _ IH]; [done|done|]. by rewrite IH.
Qed.

Section tx.
Context (d0 : Db) (own : Around).

Record world_inv w : Prop := {
  wi_fates : Forall fate_ok (pg_script w);
  wi_db : db_ok (pg_db w);
  wi_grows : db_grows d0 (pg_db w);
  wi_own : pg_ids w = ar_ids own ∧ pg_clock w = ar_clock own;
  wi_script : pg_script w ⊆ ar_script own;
  wi_outside : outside (ar_script own) d0 (pg_db w);
}.

Lemma wi_alone w : world_inv w → alone own → pg_script w = [] ∧ db_tables (pg_db w) = db_tables d0.
Proof.
  intros [_ _ _ _ Hs Ho] Hq. unfold alone in Hq. rewrite Hq in *. split; [|by apply outside_alone].
  by apply list_nil_subseteq in Hs.
Qed.

Context (id : JobId) (expected : Z).

(** What the transaction has appended to the stream [id], by key: event rows
    [L] and outbox rows [K]; and what it has written to the dispatch table. *)
Record tx_inv (L : list (Z * EventRow)) (K : list (Z * OutboxRow))
    (D : gmap Uuid (option DispatchRow)) t : Prop := {
  ti_world : world_inv (tx_world t);
  ti_events : wr_events (tx_writes t) = list_to_map L;
  ti_outbox : wr_outbox (tx_writes t) = list_to_map ((λ x, (x.1, Some x.2)) <$> K);
  ti_dispatch : wr_dispatch (tx_writes t) = D;
  ti_silent : D = ∅ → wr_notify (tx_writes t) = [];
  ti_locks u row : ar_locks own !! u = Some row →
    u ∈ dom (wr_dispatch (tx_writes t)) ∪ wr_locked_jobs (tx_writes t) ∧ tb_dispatch (db_tables (tx_db t)) !! u = Some row;
  ti_event_keys : NoDup L.*1 ∧ ∀ k, k ∈ L.*1 →
    tb_events (db_tables (tx_db t)) !! k = None ∧ k ≤ sq_global (db_seqs (tx_db t));
  ti_outbox_keys : StronglySorted Z.lt K.*1 ∧ ∀ k, k ∈ K.*1 →
    tb_outbox (db_tables (tx_db t)) !! k = None ∧ k ≤ sq_outbox (db_seqs (tx_db t));
  ti_stream : Forall (λ row, ev_stream_id row = JobId_as_uuid id) L.*2;
  ti_numbered : numbered (expected + 1) L.*2;
  ti_reached : 0 ≤ expected ≤ Z.of_nat (length (db_stream (tx_db t) id));
  ti_behind : L ≠ [] → Z.of_nat (length (db_stream (tx_db t) id)) = expected;
  ti_ids : NoDup (ev_event_id <$> L.*2) ∧ ∀ row env, row ∈ L.*2 → env ∈ db_stream (tx_db t) id →
    EventId_as_uuid (event_id env) ≠ ev_event_id row;
  ti_after k ob : tb_outbox (db_tables (tx_db t)) !! k = Some ob → ob_stream_id ob = JobId_as_uuid id →
    ∀ k', k' ∈ K.*1 → k < k';
  ti_paired : K ≠ [] → L ≠ [];
}.

(** ** Round trips *)

Lemma compatible_spec (wr : Writes) (tb tb' : Tables) :
  compatible wr tb tb' = true →
  (∀ k, k ∈ dom (wr_dispatch wr) ∪ wr_locked_jobs wr → tb_dispatch tb' !! k = tb_dispatch tb !! k) ∧
  (∀ k, k ∈ dom (wr_outbox wr) ∪ wr_locked_outbox wr → tb_outbox tb' !! k = tb_outbox tb !! k) ∧
  (∀ k row, wr_events wr !! k = Some row → tb_events tb' !! k = None ∧
    ∀ k' row', tb_events tb' !! k' = Some row' →
      ¬ (ev_stream_id row' = ev_stream_id row ∧ ev_version row' = ev_version row)).
Proof.
  unfold compatible. rewrite !andb_true_iff, !bool_decide_eq_true. intros [[Hd Ho] He]. split_and!.
  - intros k Hk. apply Hd. set_solver.
  - intros k Hk. apply Ho. set_solver.
  - intros k row Hk. destruct (He k row Hk) as [? Hu]. split; [done|]. intros k' row' Hk'.
    by destruct (Hu k' row' Hk').
Qed.

Lemma world_inv_db w db : world_inv w → db_ok db → db_grows (pg_db w) db →
  outside_step (ar_script own) (pg_db w) db →
  world_inv (set_pg_db db w).
Proof.
  intros [Hf Hd Hg ? ? ?] Hdb Hgr Ho. split; simpl; [done|done|by etrans|done|done|by eapply rtc_r].
Qed.

Lemma next_script_inv L K D t : tx_inv L K D t → tx_inv L K D (next_script t).
Proof.
  intros [[Hf Hd Hg ? Hs ?] ??????????????]. split; try done. split; simpl; try done.
  - by destruct (pg_script (tx_world t)); [|apply Forall_cons in Hf as [_ ?]].
  - intros f Hf'. apply Hs. destruct (pg_script (tx_world t)); [done|by right].
Qed.

(** A stream with an uncommitted row stays as it is. *)
Lemma behind_stays L K D t d' :
  tx_inv L K D t → db_ok d' → db_grows (tx_db t) d' →
  compatible (tx_writes t) (db_tables (tx_db t)) (db_tables d') = true → L ≠ [] →
  Z.of_nat (length (db_stream d' id)) = expected.
Proof.
  intros Hi Hd' Hg (_ & _ & He)%compatible_spec HL. pose proof (ti_behind _ _ _ _ Hi HL) as Hlen.
  destruct (grows_stream _ _ id Hg) as [s' Hs']. destruct s' as [|env s']; [by rewrite Hs', app_nil_r|].
  exfalso. destruct L as [|[k row] L]; [done|].
  destruct (He k row) as [_ Hno]; [rewrite (ti_events _ _ _ _ Hi); simpl; by rewrite lookup_insert_eq|].
  pose proof (ti_stream _ _ _ _ Hi) as Hst. pose proof (ti_numbered _ _ _ _ Hi) as Hn. simpl in *.
  apply Forall_cons in Hst as [Hst _]. specialize (Hn 0%nat row eq_refl).
  destruct (proj2 (version_taken (tb_events (db_tables d')) (JobId_as_uuid id) (ev_version row) (ok_rows _ Hd')))
    as (k' & row' & Hk' & ? & ?); [|by apply (Hno k' row'); [|split; congruence]].
  rewrite <-db_stream_envs, Hs', length_app by done. simpl. lia.
Qed.

Lemma interfere_inv L K D t others jobs outbox :
  Runs others jobs outbox ∈ ar_script own → fate_ok (Runs others jobs outbox) →
  tx_inv L K D t → tx_inv L K D (interfere others t).
Proof.
  intros Hin Hf Hi. unfold interfere. destruct (compatible _ _ _) eqn:Hc; [|done].
  destruct (Hf _ (wi_db _ (ti_world _ _ _ _ Hi))) as [Hd' Hg]. fold (tx_db t) in Hd', Hg.
  pose proof (behind_stays _ _ _ _ _ Hi Hd' Hg Hc) as Hb.
  apply compatible_spec in Hc as (Hcl & Hco & Hce). pose proof (ti_behind _ _ _ _ Hi) as Hb0.
  destruct Hi as [Hw He Ho HD ? Hlk [Hn1 Hk1] [Hn2 Hk2] ? ? ? _ [Hid1 Hid2] Haf Hpr].
  assert (Hsame : L ≠ [] → db_stream (others (tx_db t)) id = db_stream (tx_db t) id).
  { intros HL. destruct (grows_stream _ _ id Hg) as [s' Hs']. specialize (Hb HL). specialize (Hb0 HL).
    rewrite Hs', length_app in Hb. destruct s'; [by rewrite Hs', app_nil_r|simpl in Hb; lia]. }
  split; try done; simpl.
  - apply world_inv_db; try done. left. eauto.
  - intros u row Hu. destruct (Hlk u row Hu) as [Hin' Hr]. split; [done|]. unfold tx_db at 1. simpl.
    by rewrite Hcl.
  - split; [done|]. intros k Hk. destruct (Hk1 k Hk) as [_ Hle]. split.
    + apply list_elem_of_fmap in Hk as ([k' row] & -> & Hk). apply (Hce _ row). rewrite He.
      by apply elem_of_list_to_map.
    + etrans; [done|apply Hg].
  - split; [done|]. intros k Hk. destruct (Hk2 k Hk) as [Hnone Hle]. split.
    + change (pg_db (tx_world t)) with (tx_db t) in *. unfold tx_db at 1. simpl. rewrite Hco; [done|].
      apply elem_of_union_l. rewrite Ho. apply elem_of_dom. apply list_elem_of_fmap in Hk as ([k' row] & -> & Hk).
      apply not_eq_None_Some. intros Hno%not_elem_of_list_to_map. apply Hno.
      apply list_elem_of_fmap. exists (k', Some row). split; [done|].
      apply list_elem_of_fmap. by exists (k', row).
    + etrans; [done|apply Hg].
  - destruct (grows_stream _ _ id Hg) as [s' Hs']. change (pg_db (tx_world t)) with (tx_db t) in *.
    unfold tx_db at 1; simpl. rewrite Hs', length_app. lia.
  - split; [done|]. intros row env Hrow. unfold tx_db; simpl. fold (tx_db t).
    rewrite Hsame by by intros ->; apply elem_of_nil in Hrow. by apply Hid2.
  - unfold tx_db; simpl. fold (tx_db t). intros k ob Hk Hob k' Hk'.
    assert (K ≠ []) as HK by (intros ->; by apply elem_of_nil in Hk').
    apply (Haf k ob); [|done|done]. eapply grows_quiet; [exact Hd'|exact Hg| |exact Hk].
    destruct id. simpl in Hob. rewrite Hob. by apply Hsame, Hpr.
Qed.

(** A round trip runs its statement, or fails for a reason of its own; alone,
    nobody else holds a lock. *)
Lemma wp_round_trip_locks {A : Type} L K D t (body : gset Uuid → gset Z → ST Tx SqlxError A) Q X :
  tx_inv L K D t →
  (∀ jobs outbox t1, (alone own → jobs = ∅) → tx_inv L K D t1 → wp (body jobs outbox) t1 Q X) →
  (¬ calm own → ∀ e t1, tx_inv L K D t1 → X e t1) → wp (round_trip body) t Q X.
Proof.
  intros Hi Hbody Herr. unfold wp, round_trip. pose proof (ti_world _ _ _ _ Hi) as Hw.
  destruct (pg_script (tx_world t)) as [|f script] eqn:Hs; [by apply Hbody|].
  assert (f ∈ ar_script own) as Hin by (apply (wi_script _ Hw); rewrite Hs; by left).
  assert (¬ alone own) as Hna by (unfold alone; intros Ha; rewrite Ha in Hin; by apply elem_of_nil in Hin).
  pose proof (wi_fates _ Hw) as Hf. rewrite Hs in Hf. apply Forall_cons in Hf as [Hf _].
  apply next_script_inv in Hi. destruct f as [others jobs outbox|e|e];
    [by eapply Hbody, interfere_inv|apply Herr; [|done]..];
    intros Hc; by destruct (Hc _ Hin) as (? & ? & ? & ?).
Qed.

Lemma wp_round_trip {A : Type} L K D t (body : gset Uuid → gset Z → ST Tx SqlxError A) Q X :
  tx_inv L K D t →
  (∀ jobs outbox t1, tx_inv L K D t1 → wp (body jobs outbox) t1 Q X) →
  (¬ calm own → ∀ e t1, tx_inv L K D t1 → X e t1) → wp (round_trip body) t Q X.
Proof. intros Hi Hb. apply (wp_round_trip_locks _ _ _ _ _ _ _ Hi). intros jobs outbox t1 _. by apply Hb. Qed.
End tx.

(** The same facts from a later state on, and back. *)
Lemma world_inv_trans d0 d1 own w :
  world_inv d1 own w → db_grows d0 d1 → outside (ar_script own) d0 d1 → world_inv d0 own w.
Proof.
  intros [? ? Hg ? ? ?] Hg0 Ho. split; [done|done|by etrans|done|done|by etrans].
Qed.

Lemma tx_inv_rebase d0 own id expected L K D t :
  tx_inv d0 own id expected L K D t → tx_inv (tx_db t) own id expected L K D t.
Proof.
  intros [[? ? ? ? ? ?] ??????????????]. split; try done.
Qed.

Lemma tx_inv_trans d0 d1 own id expected L K D t :
  tx_inv d1 own id expected L K D t → db_grows d0 d1 → outside (ar_script own) d0 d1 → tx_inv d0 own id expected L K D t.
Proof. intros [? ? ? ? ? ? ? ? ? ? ? ? ? ? ?] ? ?. split; try done. by eapply world_inv_trans. Qed.

(** Once the transaction has a row in the stream, or nothing happens around
    it, the stream stays as it is. *)
Lemma stream_stays d0 own id expected L K D K' D' t t' :
  tx_inv d0 own id expected L K D t → tx_inv (tx_db t) own id expected L K' D' t' →
  L ≠ [] ∨ alone own → db_stream (tx_db t') id = db_stream (tx_db t) id.
Proof.
  intros Hi Hi' [HL|Hq].
  - pose proof (ti_behind _ _ _ _ _ _ _ _ Hi HL). pose proof (ti_behind _ _ _ _ _ _ _ _ Hi' HL).
    destruct (grows_stream (tx_db t) (tx_db t') id) as [s' Hs']; [apply Hi'|].
    rewrite Hs', length_app in *. destruct s'; [by rewrite app_nil_r|simpl in *; lia].
  - destruct (wi_alone _ _ _ (ti_world _ _ _ _ _ _ _ _ Hi') Hq) as [_ Ht].
    unfold db_stream, db_log, tx_db in *. by rewrite Ht.
Qed.
End db.

Arguments Around : clear implicits.
Arguments Around {ext} G C.

Arguments wi_fates {ext pg G C d0 own w} _.
Arguments wi_db {ext pg G C d0 own w} _.
Arguments wi_grows {ext pg G C d0 own w} _.
Arguments wi_alone {ext pg G C d0 own w} _.
Arguments wi_own {ext pg G C d0 own w} _.
Arguments wi_script {ext pg G C d0 own w} _.
Arguments wi_outside {ext pg G C d0 own w} _.
Arguments ti_world {ext pg G C d0 own id expected L K D t} _.
Arguments ti_events {ext pg G C d0 own id expected L K D t} _.
Arguments ti_outbox {ext pg G C d0 own id expected L K D t} _.
Arguments ti_dispatch {ext pg G C d0 own id expected L K D t} _.
Arguments ti_silent {ext pg G C d0 own id expected L K D t} _.
Arguments ti_locks {ext pg G C d0 own id expected L K D t} _.
Arguments ti_event_keys {ext pg G C d0 own id expected L K D t} _.
Arguments ti_outbox_keys {ext pg G C d0 own id expected L K D t} _.
Arguments ti_stream {ext pg G C d0 own id expected L K D t} _.
Arguments ti_numbered {ext pg G C d0 own id expected L K D t} _.
Arguments ti_reached {ext pg G C d0 own id expected L K D t} _.
Arguments ti_behind {ext pg G C d0 own id expected L K D t} _.
Arguments ti_ids {ext pg G C d0 own id expected L K D t} _.
Arguments ti_after {ext pg G C d0 own id expected L K D t} _.
Arguments ti_paired {ext pg G C d0 own id expected L K D t} _.

#[export] Hint Resolve wi_db wi_grows ti_world : koine.
