(* ===== verification/PgAppend.v ===== *)
(** * The statements of an append

    What each statement of [append_in_tx] does to [tx_inv], and under which
    condition it can fail when nothing else happens. *)

From stdpp Require Import sorting.
From S2P Require Import Prelude Std Ids Retry Events Job Lifecycle Commands Ports UseCases Contract Kept.
From S2P Require Import Postgres PgStore PgRows PgTx.

Open Scope string_scope.
Open Scope list_scope.
Open Scope Z_scope.

Section rows.
Context `{ext : Externals} {pg : Postgres}.
Implicit Types (env : EventEnvelope) (row : EventRow) (ob : OutboxRow) (ev : JobEvent).

(** The event survives the JSON column as it is, and its times fit their
    columns. *)
Definition times_fit ev : Prop :=
  match ev with
  | E_Enqueued _ _ _ _ (Some t) | E_Leased _ _ t | E_RetryScheduled _ t => time_ok t
  | _ => True
  end.

Definition pg_storable ev : Prop :=
  (∃ v v', event_to_value ev = inl v ∧ jsonb v = inl v' ∧ event_from_value v' = inl ev) ∧ times_fit ev.

(** The row of an envelope. *)
Record row_for env row : Prop := {
  row_stream : ev_stream_id row = JobId_as_uuid (stream_id env);
  row_version : ev_version row = envelope_version env;
  row_event_id : ev_event_id row = EventId_as_uuid (event_id env);
  row_schema : ev_schema_version row = schema_version env;
  row_payload : ∃ v, event_to_value (event env) = inl v ∧ jsonb v = inl (ev_payload row);
  row_correlation : ev_correlation_id row = CorrelationId_as_uuid (correlation_id env);
  row_causation : ev_causation_id row = EventId_as_uuid <$> causation_id env;
  row_traceparent : ev_traceparent row = traceparent env ∧ trace_ok (traceparent env);
  row_recorded : timestamptz (recorded_at env) = inl (ev_recorded_at row);
}.

(** The outbox row of an envelope. *)
Record outbox_for env ob : Prop := {
  outbox_event_id : ob_event_id ob = EventId_as_uuid (event_id env);
  outbox_stream : ob_stream_id ob = JobId_as_uuid (stream_id env);
  outbox_envelope : ∃ x, envelope_to_value env = inl x ∧ jsonb x = inl (ob_envelope ob);
}.

Lemma uuid_maps_back (o : option EventId) : EventId_new <$> (EventId_as_uuid <$> o) = o.
Proof. by destruct o as [[]|]. Qed.

(** What is read back of an envelope's row. *)
Lemma row_kept env row env' :
  row_for env row → envelope_from_row row = Ok env' →
  kept_as env env' ∧ trace_ok (traceparent env') ∧ names_valid (event env') = true.
Proof.
  intros [Hs Hv He Hsc (v & Hv1 & Hv2) Hc Hca [Ht Hok] Hr] (ev & Hev & _ & _ & ->)%read_row_ok.
  split_and!; simpl; [|by rewrite Ht|by eapply event_names_read].
  split; simpl; rewrite ?Hs, ?Hv, ?He, ?Hsc, ?Hc, ?Hca, ?Ht, ?uuid_maps_back; try done.
  - by destruct (event_id env).
  - by destruct (stream_id env).
  - by destruct (correlation_id env).
  - by eapply event_read_back.
Qed.

Lemma rows_kept envs rows kept :
  Forall2 row_for envs rows → envelopes_from_rows rows = Ok kept →
  Forall2 kept_as envs kept ∧ Forall (λ env, trace_ok (traceparent env)) kept.
Proof.
  intros Hr. revert kept. induction Hr as [|env row envs rows Hrow _ IH]; intros kept; simpl.
  - intros [= <-]. auto.
  - intros (env' & He & (kept' & Hk & [= <-])%result_bind_ok)%result_bind_ok.
    destruct (row_kept _ _ _ Hrow He) as (? & ? & _). destruct (IH _ Hk). auto.
Qed.

(** A storable event is read back as it was. *)
Lemma row_readable env row :
  row_for env row → pg_storable (event env) → 0 ≤ envelope_version env → 0 ≤ schema_version env →
  ∃ env', envelope_from_row row = Ok env' ∧ event env' = event env.
Proof.
  intros [Hs Hv He Hsc (v & Hv1 & Hv2) Hc Hca Ht Hr] [(v1 & v2 & H1 & H2 & H3) _] ? ?.
  eexists. split; [apply read_row_ok; exists (event env); split_and!; [congruence|lia..|reflexivity]|done].
Qed.

Lemma rows_as_they_were envs rows kept :
  Forall2 row_for envs rows → envelopes_from_rows rows = Ok kept →
  Forall pg_storable (event <$> envs) → event <$> kept = event <$> envs.
Proof.
  intros Hr. revert kept. induction Hr as [|env row envs rows Hrow _ IH]; intros kept; simpl.
  - by intros [= <-].
  - intros (env' & He & (kept' & Hk & [= <-])%result_bind_ok)%result_bind_ok.
    intros [[(v1 & v2 & H1 & H2 & H3) _] Hst]%Forall_cons. simpl. f_equal; [|by apply IH].
    apply read_row_ok in He as (ev & Hev & _ & _ & ->). simpl.
    destruct Hrow as [_ _ _ _ (v & Hv1 & Hv2) _ _ _ _]. congruence.
Qed.

(** ** Unique constraints *)

Lemma violates_version_spec m row :
  violates_stream_version m row = true ↔
  ∃ k row', m !! k = Some row' ∧ ev_stream_id row' = ev_stream_id row ∧ ev_version row' = ev_version row.
Proof.
  unfold violates_stream_version. rewrite existsb_exists. setoid_rewrite bool_decide_eq_true. split.
  - intros (row' & ([k r] & -> & Hk%elem_of_map_to_list)%list_elem_of_In%list_elem_of_fmap & ?). eauto.
  - intros (k & row' & Hk & ?). exists row'. split; [|done]. apply list_elem_of_In, list_elem_of_fmap.
    exists (k, row'). by rewrite elem_of_map_to_list.
Qed.

Lemma violates_id_spec m row :
  violates_event_id m row = true ↔ ∃ k row', m !! k = Some row' ∧ ev_event_id row' = ev_event_id row.
Proof.
  unfold violates_event_id. rewrite existsb_exists. setoid_rewrite bool_decide_eq_true. split.
  - intros (row' & ([k r] & -> & Hk%elem_of_map_to_list)%list_elem_of_In%list_elem_of_fmap & ?). eauto.
  - intros (k & row' & Hk & ?). exists row'. split; [|done]. apply list_elem_of_In, list_elem_of_fmap.
    exists (k, row'). by rewrite elem_of_map_to_list.
Qed.

Lemma event_conflict_none m row :
  event_conflict m row = None → violates_event_id m row = false ∧ violates_stream_version m row = false.
Proof. unfold event_conflict. by destruct (violates_event_id m row), (violates_stream_version m row). Qed.

Lemma no_duplicate_id m row k row' :
  violates_event_id m row = false → m !! k = Some row' → ev_event_id row' ≠ ev_event_id row.
Proof.
  intros Hv Hk Heq. apply not_true_iff_false in Hv. apply Hv, violates_id_spec. by exists k, row'.
Qed.

(** The row behind an event of the log. *)
Lemma stream_row d id env :
  db_ok d → env ∈ db_stream d id →
  ∃ k row, tb_events (db_tables d) !! k = Some row ∧ ev_event_id row = EventId_as_uuid (event_id env).
Proof.
  intros Hd. rewrite db_stream_envs by done. set (u := JobId_as_uuid id).
  pose proof (rows_readable _ u (ok_rows _ Hd)) as Hf%read_rows_ok. intros [i Hi]%list_elem_of_lookup.
  destruct (Forall2_lookup_r _ _ _ _ _ Hf Hi) as (row & Hr & (ev & _ & _ & _ & ->)%read_row_ok).
  apply list_elem_of_lookup_2, elem_of_rows_of in Hr as (_ & k & Hk). by exists k, row.
Qed.

Lemma event_conflict_id m row e :
  event_conflict m row = Some e → violates_stream_version m row = false →
  violates_event_id m row = true ∧ e = violation EVENT_ID_UNIQUE.
Proof.
  unfold event_conflict. destruct (violates_event_id m row), (violates_stream_version m row); naive_solver.
Qed.

Lemma event_conflict_version m row e :
  event_conflict m row = Some e → violates_event_id m row = false → e = violation STREAM_VERSION_UNIQUE.
Proof.
  unfold event_conflict. destruct (violates_event_id m row), (violates_stream_version m row); naive_solver.
Qed.

Lemma violation_is_conflict c : is_version_conflict (violation c) = bool_decide (c = STREAM_VERSION_UNIQUE).
Proof. done. Qed.
End rows.

Section statements.
Context `{ext : Externals} {pg : Postgres} {G C : Type}.
Local Abbreviation World := (PgWorld G C).
Local Abbreviation Tx := (Tx G C).
Implicit Types (t : Tx) (w : World) (env : EventEnvelope) (envs : list EventEnvelope).

(** ** Parameters *)

Lemma kind_text (ev : JobEvent) : text_ok (kind ev) = true.
Proof. by destruct ev. Qed.

Lemma not_unique_conflict e : not_unique e → is_version_conflict e = false.
Proof.
  intros Hn. destruct e as [code [c|] text|]; try done. simpl.
  destruct (bool_decide_reflect (code = UNIQUE_VIOLATION)) as [->|]; [|done]. by destruct (Hn (Some c) text).
Qed.

Lemma bind_text_run (s : string) {S : Type} (σ : S) :
  bind_text s σ = (if text_ok s then Ok s else Err invalid_text, σ).
Proof. unfold bind_text. by destruct (text_ok s). Qed.

Lemma bind_trace_run (s : option string) {S : Type} (σ : S) :
  (trace_ok s ∧ bind_text_opt s σ = (Ok s, σ)) ∨ (¬ trace_ok s ∧ bind_text_opt s σ = (Err invalid_text, σ)).
Proof.
  unfold trace_ok. destruct s as [s|]; simpl; [|by left].
  unfold st_bind. rewrite bind_text_run. destruct (text_ok s) eqn:Hs; simpl.
  - left. split; [by intros ? [= <-]|done].
  - right. split; [|done]. intros H. by rewrite (H s) in Hs.
Qed.

Lemma bind_times_run (o : option DateTime) {S : Type} (σ : S) :
  match bind_time_opt o σ with
  | (Ok o', σ') => column_of o o' ∧ σ' = σ
  | (Err e, σ') => not_unique e ∧ σ' = σ ∧ ∃ x, o = Some x ∧ ¬ time_ok x
  | (Panic, _) => False
  end.
Proof.
  destruct o as [x|]; simpl; [|done]. unfold st_bind, bind_time, st_lift.
  destruct (timestamptz x) as [x'|e] eqn:Hx; simpl; [done|].
  split_and!; [by eapply timestamptz_refusal|done|]. exists x. split; [done|]. intros [x' ?]. congruence.
Qed.

Context (d0 : Db) (own : Around G C) (id : JobId) (expected : Z).
Local Abbreviation inv := (tx_inv d0 own id expected).
Implicit Types (L : list (Z * EventRow)) (K : list (Z * OutboxRow)) (D : gmap Uuid (option DispatchRow)).

(** ** What the transaction sees *)

Lemma view_events L K D t :
  inv L K D t → tb_events (tx_view t) = list_to_map L ∪ tb_events (db_tables (tx_db t)).
Proof. intros Hi. unfold tx_view, view. simpl. by rewrite (ti_events Hi). Qed.

Lemma own_disjoint L K D t : inv L K D t → (list_to_map L : gmap Z EventRow) ##ₘ tb_events (db_tables (tx_db t)).
Proof.
  intros Hi. apply map_disjoint_spec. intros k row row' Hk Hk'.
  apply elem_of_list_to_map_2 in Hk. destruct (proj2 (ti_event_keys Hi) k) as [Hn _].
  - apply list_elem_of_fmap. by exists (k, row).
  - congruence.
Qed.

Lemma view_row L K D t k row :
  inv L K D t → tb_events (tx_view t) !! k = Some row ↔
    (k, row) ∈ L ∨ tb_events (db_tables (tx_db t)) !! k = Some row.
Proof.
  intros Hi. rewrite (view_events _ _ _ _ Hi), lookup_union_Some by (by eapply own_disjoint).
  by rewrite <-elem_of_list_to_map by apply (ti_event_keys Hi).
Qed.

Lemma inv_ok L K D t : inv L K D t → db_ok (tx_db t).
Proof. intros Hi. apply (wi_db (ti_world Hi)). Qed.

Lemma stream_length L K D t :
  inv L K D t → length (envs_of (tb_events (db_tables (tx_db t))) (JobId_as_uuid id)) = length (db_stream (tx_db t) id).
Proof. intros Hi. by rewrite db_stream_envs by (by eapply inv_ok). Qed.

(** The next version is free exactly while no other session has used it. *)
Lemma next_version_free L K D t row :
  inv L K D t → ev_stream_id row = JobId_as_uuid id → ev_version row = expected + 1 + Z.of_nat (length L) →
  violates_stream_version (tb_events (tx_view t)) row = false ↔
  Z.of_nat (length (db_stream (tx_db t) id)) = expected.
Proof.
  intros Hi Hs Hv. rewrite <-not_true_iff_false, violates_version_spec, Hs, Hv.
  pose proof (ok_rows _ (inv_ok _ _ _ _ Hi)) as Hrows.
  pose proof (ti_reached Hi) as Hre. pose proof (ti_numbered Hi) as Hn.
  split.
  - intros Hno. destruct L as [|x L]; [|by apply (ti_behind Hi)].
    destruct (decide (expected < Z.of_nat (length (db_stream (tx_db t) id)))); [|lia]. destruct Hno.
    destruct (proj2 (version_taken _ (JobId_as_uuid id) (expected + 1 + Z.of_nat (length (A:=Z*EventRow) [])) Hrows)) as (k & row' & Hk & ?).
    { rewrite (stream_length _ _ _ _ Hi). simpl. lia. }
    exists k, row'. split; [|done]. apply (view_row _ _ _ _ _ _ Hi). by right.
  - intros Hlen (k & row' & [Hk|Hk]%(view_row _ _ _ _ _ _ Hi) & Hs' & Hv').
    + assert (row' ∈ L.*2) as [i Hi']%list_elem_of_lookup by (apply list_elem_of_fmap; by exists (k, row')).
      rewrite (Hn _ _ Hi') in Hv'. apply lookup_lt_Some in Hi'. rewrite length_fmap in Hi'. lia.
    + pose proof (proj1 (version_taken _ (JobId_as_uuid id) (ev_version row') Hrows)
        (ex_intro _ k (ex_intro _ row' (conj Hk (conj Hs' eq_refl))))) as Ht.
      rewrite (stream_length _ _ _ _ Hi) in Ht. lia.
Qed.

(** ** Writing *)

Lemma set_seqs_inv L K D t s :
  inv L K D t → sq_global (db_seqs (tx_db t)) ≤ sq_global s → sq_outbox (db_seqs (tx_db t)) ≤ sq_outbox s →
  inv L K D (set_seqs s t).
Proof.
  intros [Hw ? ? ? ? ? [? Hk1] [? Hk2] ? ? ? ? ? ? ?] Hg Ho. destruct Hw as [Hf [Hr Hs Hu Hgl Hob ? ?] Hgr ? ? ?].
  split; try done.
  - split; simpl; try done.
    + split; try done; simpl; [intros k Hk; apply Hgl in Hk|intros k Hk; apply Hob in Hk];
        unfold tx_db in *; lia.
    + etrans; [exact Hgr|]. split; simpl; [|done..]. intros i s' Hs'. exists []. by rewrite app_nil_r.
    + eapply rtc_r; [done|]. by right.
  - split; [done|]. intros k Hk. destruct (Hk1 k Hk). split; [done|]. simpl. lia.
  - split; [done|]. intros k Hk. destruct (Hk2 k Hk). split; [done|]. simpl. lia.
Qed.

Lemma write_event_inv L K D t k row :
  inv L K D t → k ∉ L.*1 → tb_events (db_tables (tx_db t)) !! k = None → k ≤ sq_global (db_seqs (tx_db t)) →
  ev_stream_id row = JobId_as_uuid id → ev_version row = expected + 1 + Z.of_nat (length L) →
  Z.of_nat (length (db_stream (tx_db t) id)) = expected →
  ev_event_id row ∉ ev_event_id <$> L.*2 →
  (∀ env, env ∈ db_stream (tx_db t) id → EventId_as_uuid (event_id env) ≠ ev_event_id row) →
  inv (L ++ [(k, row)]) K D (write (write_event k row) t).
Proof.
  intros [Hw He ? ? ? ? [Hn Hk1] ? Hst Hnum ? _ [Hid1 Hid2] ? _] Hk Hnone Hle Hs Hv Hlen Hnew Hold.
  split; try done; simpl.
  - rewrite He, list_to_map_snoc; done.
  - rewrite fmap_app. split.
    + apply NoDup_app. split_and!; [done| |by apply NoDup_singleton].
      intros k' Hk' ->%list_elem_of_singleton. done.
    + intros k' [Hk'| ->%list_elem_of_singleton]%elem_of_app; auto.
  - rewrite fmap_app. apply Forall_app. by split; [|apply Forall_singleton].
  - rewrite fmap_app. apply numbered_app. split; [done|]. intros [|i] row' Hi; [|done]. simplify_eq/=.
    rewrite length_fmap. lia.
  - rewrite fmap_app. simpl. rewrite fmap_app. simpl. split.
    + apply NoDup_app. split_and!; [done| |by apply NoDup_singleton]. by intros x Hx ->%list_elem_of_singleton.
    + intros row' env [Hr| ->%list_elem_of_singleton]%elem_of_app Henv; auto.
  - by destruct L.
Qed.

Lemma write_outbox_inv L K D t k ob :
  inv L K D t → Forall (λ k', k' < k) K.*1 → tb_outbox (db_tables (tx_db t)) !! k = None →
  k ≤ sq_outbox (db_seqs (tx_db t)) → (∀ k', is_Some (tb_outbox (db_tables (tx_db t)) !! k') → k' < k) →
  L ≠ [] → inv L (K ++ [(k, ob)]) D (write (write_outbox k (Some ob)) t).
Proof.
  intros [Hw ? Ho ? ? ? ? [Hn Hk2] ? ? ? ? ? Haf ?] Hk Hnone Hle Hmax HL. rewrite Forall_forall in Hk. split; try done; simpl.
  - rewrite Ho, fmap_app. simpl. rewrite list_to_map_snoc; [done|].
    rewrite <-list_fmap_compose. intros Hin. enough (k < k) by lia. apply Hk.
    apply list_elem_of_fmap in Hin as ([k' ?] & -> & ?).
    apply list_elem_of_fmap. eauto.
  - rewrite fmap_app. split.
    + apply StronglySorted_app_2; [|done|by repeat constructor].
      intros x1 x2 H1 ->%list_elem_of_singleton. auto.
    + intros k' [Hk'| ->%list_elem_of_singleton]%elem_of_app; auto.
  - intros k1 ob1 Hk1 Hob1 k'. rewrite fmap_app. simpl.
    intros [Hk'| ->%list_elem_of_singleton]%elem_of_app; [by eapply Haf|]. apply Hmax. by exists ob1.
Qed.

Lemma write_dispatch_inv L K D t k row :
  inv L K D t → inv L K (<[k := row]> D) (write (write_dispatch k row) t).
Proof.
  intros [? ? ? HD ? Hl ? ? ? ? ? ? ? ? ?]. split; try done; simpl; [by rewrite HD| |].
  - intros Hn. by apply insert_non_empty in Hn.
  - intros u r Hu. destruct (Hl u r Hu). split; [set_solver|done].
Qed.

Lemma write_notify_inv L K D t q : D ≠ ∅ → inv L K D t → inv L K D (write (write_notify q) t).
Proof. intros ? []. by split. Qed.

Lemma alone_stream L K D t : inv L K D t → alone own → db_stream (tx_db t) id = db_stream d0 id.
Proof.
  intros Hi Hq. destruct (wi_alone (ti_world Hi) Hq) as [_ Ht]. unfold db_stream, db_log, tx_db in *.
  by rewrite Ht.
Qed.

(** An event id that violates no constraint is new to the stream and to the
    transaction. *)
Lemma new_event_id L K D t row :
  inv L K D t → violates_event_id (tb_events (tx_view t)) row = false →
  (ev_event_id row ∉ ev_event_id <$> L.*2) ∧
  ∀ env, env ∈ db_stream (tx_db t) id → EventId_as_uuid (event_id env) ≠ ev_event_id row.
Proof.
  intros Hi Hv. split.
  - intros (row' & Heq & ([k r] & -> & Hk)%list_elem_of_fmap)%list_elem_of_fmap. simpl in *.
    symmetry in Heq. revert Heq. eapply no_duplicate_id; [done|]. apply (view_row _ _ _ _ k r Hi). by left.
  - intros env Hin Heq. destruct (stream_row _ _ _ (inv_ok _ _ _ _ Hi) Hin) as (k & r & Hk & Hr).
    rewrite <-Hr in Heq. revert Heq. eapply no_duplicate_id; [done|]. apply (view_row _ _ _ _ k r Hi). by right.
Qed.

(** A value of a sequence, fresh for the table behind it. *)
Lemma next_global_inv L K D t k t' :
  inv L K D t → next_global t = (k, t') →
  inv L K D t' ∧ (k ∉ L.*1) ∧ tb_events (db_tables (tx_db t')) !! k = None ∧
  k ≤ sq_global (db_seqs (tx_db t')) ∧
  tx_view t' = tx_view t ∧ db_tables (tx_db t') = db_tables (tx_db t).
Proof.
  intros Hi [= <- <-]. split_and!; simpl; try done.
  - apply set_seqs_inv; [done|simpl; lia..].
  - intros Hk. apply (ti_event_keys Hi) in Hk as [_ ?]. lia.
  - apply eq_None_not_Some. intros Hk%(ok_global _ (inv_ok _ _ _ _ Hi)). lia.
Qed.

Lemma next_outbox_inv L K D t k t' :
  inv L K D t → next_outbox t = (k, t') →
  inv L K D t' ∧ Forall (λ k', k' < k) K.*1 ∧ tb_outbox (db_tables (tx_db t')) !! k = None ∧
  k ≤ sq_outbox (db_seqs (tx_db t')) ∧ ∀ k', is_Some (tb_outbox (db_tables (tx_db t')) !! k') → k' < k.
Proof.
  intros Hi [= <- <-]. split_and!; simpl; try done.
  - apply set_seqs_inv; [done|simpl; lia..].
  - apply Forall_forall. intros k' Hk. apply (ti_outbox_keys Hi) in Hk as [_ ?]. lia.
  - apply eq_None_not_Some. intros Hk%(ok_outbox _ (inv_ok _ _ _ _ Hi)). lia.
  - intros k' Hk%(ok_outbox _ (inv_ok _ _ _ _ Hi)). lia.
Qed.

Lemma next_dispatch_inv L K D t k t' :
  inv L K D t → next_dispatch t = (k, t') → inv L K D t'.
Proof. intros Hi [= <- <-]. apply set_seqs_inv; [done|simpl; lia..]. Qed.
End statements.
