(* ===== verification/PgInsert.v ===== *)
(** * [append_in_tx]

    The inserts, the load and the projection of an append as one piece: what
    it leaves in the transaction when it succeeds, and when it can fail. *)

From stdpp Require Import sorting.
From S2P Require Import Prelude Std Ids Retry Events Job Lifecycle Commands Ports UseCases Contract Kept.
From S2P Require Import Postgres PgStore PgRows PgTx PgAppend.

Open Scope string_scope.
Open Scope list_scope.
Open Scope Z_scope.

Section insert.
Context `{ext : Externals} {pg : Postgres} {G C : Type}.
Local Abbreviation Tx := (Tx G C).
Context (d0 : Db) (own : Around G C) (id : JobId) (expected : Z).
Local Abbreviation inv := (tx_inv d0 own id expected).
Implicit Types (t : Tx) (env : EventEnvelope) (envs : list EventEnvelope).
Implicit Types (L : list (Z * EventRow)) (K : list (Z * OutboxRow)) (D : gmap Uuid (option DispatchRow)).

(** An envelope every column takes. *)
Record fits env : Prop := {
  fits_trace : trace_ok (traceparent env);
  fits_recorded : time_ok (recorded_at env);
  fits_schema : 0 ≤ schema_version env ≤ I16_MAX;
  fits_event : pg_storable (event env);
}.

Definition unused (m : gmap Z EventRow) env : Prop :=
  ∀ k row, m !! k = Some row → ev_event_id row ≠ EventId_as_uuid (event_id env).

Definition insert_of env (payload : Value) : ST Tx SqlxError unit :=
  sql_insert_event (JobId_as_uuid id) (envelope_version env) (EventId_as_uuid (event_id env))
    (kind (event env)) (schema_version env) payload (CorrelationId_as_uuid (correlation_id env))
    (EventId_as_uuid <$> causation_id env) (traceparent env) (recorded_at env).

(** Why an insert may fail without a failure around it: the envelope does not
    fit, its id is in use, or another session has used its version. *)
Definition insert_excuse L K D env (e : SqlxError) t : Prop :=
  inv L K D t ∧
  (calm own → ¬ (fits env ∧ unused (list_to_map L ∪ tb_events (db_tables (tx_db t))) env) ∨
    (is_version_conflict e = true ∧ expected < Z.of_nat (length (db_stream (tx_db t) id)))) ∧
  (is_version_conflict e = true → calm own → expected < Z.of_nat (length (db_stream (tx_db t) id))).

Lemma insert_conflict L K D t env row e :
  inv L K D t → row_for env row → stream_id env = id →
  ev_version row = expected + 1 + Z.of_nat (length L) →
  event_conflict (tb_events (tx_view t)) row = Some e → insert_excuse L K D env e t.
Proof.
  intros Hi Hrow Hs Hv Hc.
  assert (ev_stream_id row = JobId_as_uuid id) as Hsr by (rewrite (row_stream _ _ Hrow); congruence).
  pose proof (next_version_free _ _ _ _ _ _ _ _ row Hi Hsr Hv) as Hfree. pose proof (ti_reached Hi) as Hre.
  destruct (violates_stream_version (tb_events (tx_view t)) row) eqn:Hvv.
  - assert (expected < Z.of_nat (length (db_stream (tx_db t) id))) as Hlt.
    { destruct (decide (Z.of_nat (length (db_stream (tx_db t) id)) = expected)) as [Heq|]; [|lia].
      by apply Hfree in Heq. }
    split_and!; [done| |done]. intros _. destruct (violates_event_id (tb_events (tx_view t)) row) eqn:Hid.
    + left. apply violates_id_spec in Hid as (k' & row' & Hk' & He). intros [_ Hun].
      rewrite (view_events _ _ _ _ _ _ _ _ Hi) in Hk'. apply (Hun _ _ Hk').
      by rewrite He, (row_event_id _ _ Hrow).
    + right. split; [|done]. by rewrite (event_conflict_version _ _ _ Hc Hid).
  - destruct (event_conflict_id _ _ _ Hc Hvv) as [(k' & row' & Hk' & He)%violates_id_spec ->].
    split_and!; [done| |done]. intros _. left. intros [_ Hun].
    rewrite (view_events _ _ _ _ _ _ _ _ Hi) in Hk'. apply (Hun _ _ Hk').
    by rewrite He, (row_event_id _ _ Hrow).
Qed.

Lemma wp_insert_event L K D t env v :
  inv L K D t → stream_id env = id → envelope_version env = expected + 1 + Z.of_nat (length L) →
  event_to_value (event env) = inl v →
  wp (insert_of env v) t
    (λ _ t', ∃ k row, inv (L ++ [(k, row)]) K D t' ∧ row_for env row)
    (insert_excuse L K D env).
Proof.
  intros Hi Hs Hv Hval. unfold insert_of, sql_insert_event. eapply wp_round_trip; [done| |by split].
  clear t Hi. intros _ _ t Hi. apply wp_bind.
  assert (Hplain : ∀ e, not_unique e → (fits env → False) → insert_excuse L K D env e t).
  { intros e Hn Hno. apply not_unique_conflict in Hn. split_and!; [done|naive_solver|congruence]. }
  unfold wp at 1. rewrite bind_text_run, kind_text. apply wp_bind.
  unfold bind_jsonb. apply wp_lift. destruct (jsonb v) as [v'|e] eqn:Hj; simpl.
  2: { apply Hplain; [by eapply jsonb_refusal|]. intros [_ _ _ [(v1 & v2 & ? & ? & ?) _]]. congruence. }
  apply wp_bind. unfold wp at 1.
  destruct (bind_trace_run (traceparent env) t) as [[Htr ->]|[Htr ->]].
  2: { apply Hplain; [apply text_refusal|]. by intros []. }
  apply wp_bind, wp_lift. destruct (timestamptz (recorded_at env)) as [rec|e] eqn:Hrec; simpl.
  2: { apply Hplain; [by eapply timestamptz_refusal|]. intros [_ [? ?] _ _]. congruence. }
  clear Hplain. apply wp_bind, wp_total. destruct (next_global t) as [k t1] eqn:Hk. simpl.
  destruct (next_global_inv _ _ _ _ _ _ _ _ _ _ Hi Hk) as (Hi1 & Hkn & Hkt & Hkle & _ & _).
  apply wp_bind, wp_get. set (row := EventRow_mk _ _ _ _ _ _ _ _ _ _).
  assert (row_for env row) as Hrow by (split; simpl; eauto; congruence).
  pose proof (next_version_free _ _ _ _ _ _ _ _ row Hi1 eq_refl Hv) as Hfree.
  destruct (event_conflict _ row) as [e|] eqn:Hc.
  - apply wp_err, insert_conflict with (t := t1) (row := row); done.
  - apply wp_modify. exists k, row. split; [|done].
    apply event_conflict_none in Hc as [Hc Hfree'%Hfree].
    destruct (new_event_id _ _ _ _ _ _ _ _ row Hi1 Hc). by apply write_event_inv.
Qed.

Lemma wp_insert_outbox L K D t env x :
  inv L K D t → L ≠ [] → stream_id env = id → envelope_to_value env = inl x →
  wp (sql_insert_outbox (EventId_as_uuid (event_id env)) (JobId_as_uuid id) x) t
    (λ _ t', ∃ k ob, inv L (K ++ [(k, ob)]) D t' ∧ outbox_for env ob)
    (λ e t', inv L K D t' ∧ (calm own → jsonb x = inr e)).
Proof.
  intros Hi HL Hs Hx. unfold sql_insert_outbox. eapply wp_round_trip; [done| |by split].
  clear t Hi. intros _ _ t Hi. apply wp_bind, wp_lift. destruct (jsonb x) as [x'|e] eqn:Hj; simpl; [|done].
  apply wp_bind, wp_total. destruct (next_outbox t) as [k t1] eqn:Hk. simpl.
  destruct (next_outbox_inv _ _ _ _ _ _ _ _ _ _ Hi Hk) as (Hi1 & ? & ? & ? & ?).
  apply wp_modify. eexists k, _. split; [by apply write_outbox_inv|].
  split; simpl; [done|by rewrite Hs|eauto].
Qed.

(** ** The insert loop *)

(** Nobody else ever uses the id of the envelope. *)
Definition unused_ever env : Prop :=
  ∀ d, outside (ar_script own) d0 d → unused (tb_events (db_tables d)) env.

Definition id_not_in (used : list Uuid) env : Prop := EventId_as_uuid (event_id env) ∉ used.

Lemma unused_union L K D t env :
  inv L K D t → id_not_in (ev_event_id <$> L.*2) env → unused_ever env →
  unused (list_to_map L ∪ tb_events (db_tables (tx_db t))) env.
Proof.
  intros Hi Hn Hu k row [Hk|[_ Hk]]%lookup_union_Some_raw.
  - intros Heq. apply Hn. rewrite <-Heq. apply list_elem_of_fmap. exists row. split; [done|].
    apply list_elem_of_fmap. exists (k, row). split; [done|]. by apply elem_of_list_to_map_2.
  - by apply (Hu _ (wi_outside (ti_world Hi)) k).
Qed.

Definition batch_fits (used : list Uuid) envs : Prop :=
  Forall fits envs ∧ NoDup (event_id <$> envs) ∧ Forall unused_ever envs ∧ Forall (id_not_in used) envs.

Lemma batch_fits_cons used env envs row :
  batch_fits used (env :: envs) → row_for env row → batch_fits (used ++ [ev_event_id row]) envs.
Proof.
  intros ([_ Hf]%Forall_cons & [Hne Hnd]%NoDup_cons & [_ Hu]%Forall_cons & [_ Hi]%Forall_cons) Hrow.
  split_and!; [done..|]. rewrite Forall_forall in *. intros env' Hin.
  intros [Hin'|Heq%list_elem_of_singleton]%elem_of_app; [by apply (Hi env')|].
  rewrite (row_event_id _ _ Hrow) in Heq. apply Hne, list_elem_of_fmap. exists env'.
  split; [|done]. by destruct (event_id env), (event_id env'); simplify_eq/=.
Qed.

Lemma fits_encodes env : fits env → ∃ x x', envelope_to_value env = inl x ∧ jsonb x = inl x'.
Proof.
  intros [Htr _ _ [(v & v' & Hv & Hv' & _) _]]. apply (envelope_encodes env v v'); [done..|].
  intros s Hs. apply Htr, text_ok_spec in Hs. apply Forall_forall. by intros b Hb ->.
Qed.

(** A call of the transaction has failed. Without a failure around it, it was
    not possible, or another session has extended the stream; when nothing
    happens around it, the error is a message. *)
Definition conflicted (e : EventStoreError) t : Prop :=
  e = VersionConflict id expected ∧ expected < Z.of_nat (length (db_stream (tx_db t) id)).

Definition excuse (possible : Prop) (e : EventStoreError) t : Prop :=
  world_inv d0 own (tx_world t) ∧ (calm own → ¬ possible ∨ conflicted e t) ∧
  (alone own → (∃ msg, e = Store_Backend msg) ∨ conflicted e t).

Lemma excuse_plain L K D t (P : Prop) msg :
  inv L K D t → (calm own → ¬ P) → excuse P (Store_Backend msg) t.
Proof. intros Hi HP. split_and!; [apply (ti_world Hi)|auto|eauto]. Qed.

Lemma excuse_mono (P P' : Prop) e t : (P' → P) → excuse P e t → excuse P' e t.
Proof. intros HP (? & Hc & ?). split_and!; [done| |done]. intros [?|?]%Hc; auto. Qed.

Lemma wp_insert_one env envs L K D t Q X :
  inv L K D t → stream_id env = id → envelope_version env = expected + 1 + Z.of_nat (length L) →
  (∀ t' k row k2 ob, inv (L ++ [(k, row)]) (K ++ [(k2, ob)]) D t' → row_for env row → outbox_for env ob →
    envelope_version env ≤ I64_MAX → wp (insert_envelopes id expected envs) t' Q X) →
  (∀ e t', excuse (envelope_version env ≤ I64_MAX ∧ fits env ∧ unused_ever env ∧
    id_not_in (ev_event_id <$> L.*2) env) e t' → X e t') →
  wp (insert_envelopes id expected (env :: envs)) t Q X.
Proof.
  intros Hi Hid Hv Hnext Hbad. simpl.
  assert (Hplain : ∀ t' L' K' msg, inv L' K' D t' →
    (calm own → envelope_version env ≤ I64_MAX → fits env → False) → X (Store_Backend msg) t').
  { intros t' L' K' msg Hi' Hno. eapply Hbad, excuse_plain; [done|]. naive_solver. }
  apply wp_bind, wp_lift. destruct (event_to_value (event env)) as [v|e] eqn:Hval; simpl.
  2: { eapply Hplain; [done|]. intros _ _ [_ _ _ [(v1 & v2 & ? & _) _]]. congruence. }
  apply wp_bind, wp_lift. destruct (Z.leb_spec (envelope_version env) I64_MAX); [|eapply Hplain; [done|lia]].
  apply wp_bind, wp_lift. destruct (Z.leb_spec (schema_version env) I16_MAX).
  2: { eapply Hplain; [done|]. intros _ _ [_ _ ? _]. lia. }
  apply wp_bind, wp_map_err.
  eapply wp_mono; [by apply (wp_insert_event L K D t env v)| |].
  2: { intros e t' (Hi' & Hq & Hvc). destruct (is_version_conflict e) eqn:Hc.
    - apply Hbad. split_and!; [apply (ti_world Hi')| |].
      + right. split; [done|]. by apply Hvc.
      + intros Hqu%alone_calm. right. split; [done|]. by apply Hvc.
    - eapply Hbad, excuse_plain; [done|]. intros Hcalm (_ & Hf & Hu & Hn).
      destruct (Hq Hcalm) as [Hno|[? _]]; [|done]. apply Hno. split; [done|]. by eapply unused_union. }
  clear t Hi. intros _ t (k & row & Hi & Hrow). apply wp_bind, wp_lift.
  destruct (envelope_to_value env) as [x|e] eqn:Hx; simpl.
  2: { eapply Hplain; [done|]. intros _ _ (x & x' & ? & _)%fits_encodes. congruence. }
  apply wp_bind, wp_map_err. eapply wp_mono; [eapply wp_insert_outbox; [done|by destruct L|done..]| |].
  - intros _ t' (k2 & ob & ? & ?). by eapply Hnext.
  - intros e t' [Hi' Hq]. eapply Hplain; [done|]. intros Hc%Hq _ (x1 & x' & ? & ?)%fits_encodes. congruence.
Qed.

Lemma wp_insert_envelopes envs L K D t :
  inv L K D t → Forall (λ env, stream_id env = id) envs →
  (∀ i env, envs !! i = Some env → envelope_version env = expected + 1 + Z.of_nat (length L + i)) →
  wp (insert_envelopes id expected envs) t
    (λ _ t', ∃ L' K', inv (L ++ L') (K ++ K') D t' ∧ Forall2 row_for envs L'.*2 ∧
      Forall2 outbox_for envs K'.*2 ∧ Forall (λ env, envelope_version env ≤ I64_MAX) envs)
    (excuse (Forall (λ env, envelope_version env ≤ I64_MAX) envs ∧
      batch_fits (ev_event_id <$> L.*2) envs)).
Proof.
  revert L K t. induction envs as [|env envs IH]; intros L K t Hi Hids Hv.
  { exists [], []. rewrite !app_nil_r. by split_and!. }
  apply Forall_cons in Hids as [Hid Hids]. apply (wp_insert_one _ _ L K D t); [done..| | |].
  - rewrite (Hv 0%nat env eq_refl). f_equal. lia.
  - clear t Hi. intros t k row k2 ob Hi Hrow Hob Hle.
    eapply wp_mono; [apply (IH _ _ _ Hi Hids)| |].
    + intros i env' Hi'. rewrite (Hv (S i) env' Hi'), length_app. simpl. lia.
    + intros _ t' (L' & K' & Hi' & Hrs & Hobs & ?). exists ((k, row) :: L'), ((k2, ob) :: K').
      rewrite <-!app_assoc in Hi'. simpl. split_and!; [done|by constructor..].
    + intros e t'. apply excuse_mono. intros [[_ ?]%Forall_cons Hfit]. split; [done|].
      rewrite !fmap_app. by eapply batch_fits_cons.
  - intros e t'. apply excuse_mono.
    intros ([? _]%Forall_cons & [? _]%Forall_cons & _ & [? _]%Forall_cons & [? _]%Forall_cons). done.
Qed.
End insert.
