(* ===== verification/PgProject.v ===== *)
(** * Load and projection inside a transaction

    [load_in_tx] reads the committed stream followed by the transaction's own
    rows; [project_in_tx] writes the dispatch row of the folded job. *)

From stdpp Require Import sorting.
From S2P Require Import Prelude Std Ids Retry Events Job Lifecycle Commands Ports UseCases Contract Kept.
From S2P Require Import Postgres PgStore PgRows PgTx PgAppend PgInsert.

Open Scope string_scope.
Open Scope list_scope.
Open Scope Z_scope.

(** ** Properties of the state of a folded job *)

Section states.
Context `{ext : Externals}.
Context (P : JobState → Prop) (Q : JobEvent → Prop).
Hypothesis start_ok : ∀ q p pr rp nb, Q (E_Enqueued q p pr rp nb) → P (S_Pending nb).
Hypothesis step_ok : ∀ s ev s', step s ev s' → Q ev → P s → P s'.

Lemma apply_all_state evs j j' :
  Forall Q evs → P (job_state j) → apply_all evs j = Ok j' → P (job_state j').
Proof.
  intros Hq. revert j. induction Hq as [|ev evs Hev _ IH]; intros j Hj; simpl; [by intros [= ->]|].
  destruct (apply ev j) as [[[]| |] j1] eqn:Ha; [|done..].
  apply apply_ok_inv in Ha as (s' & Hs & ->). apply IH. simpl. by eapply step_ok.
Qed.

Lemma from_events_state s j :
  Forall (λ env, Q (event env)) s → from_events s = Ok j → P (job_state j).
Proof.
  intros Hs (env & rest & q & p & pr & rp & nb & -> & He & _ & [_ Hf]%fold_rest_ok)%from_events_inv.
  apply Forall_cons in Hs as [Hq Hs]. rewrite He in Hq.
  eapply (apply_all_state (event <$> rest)); [by apply Forall_fmap| |exact Hf]. by eapply start_ok.
Qed.
End states.

Section texts.
Context `{ext : Externals} {pg : Postgres}.

(** The texts of a job that go to a column. *)
Definition texts_ok (s : JobState) : Prop :=
  match s with
  | S_Leased w _ _ | S_Running w _ _ => text_ok (WorkerId_as_str w) = true
  | _ => True
  end.

Lemma texts_step s ev s' : step s ev s' → names_valid ev = true → texts_ok s → texts_ok s'.
Proof.
  intros Hs Hn Ht. inversion Hs; subst; try done. by apply valid_worker_text.
Qed.

Lemma times_step s ev s' : step s ev s' → times_fit ev → times_ok s → times_ok s'.
Proof. intros Hs Hf Ht. by inversion Hs; subst. Qed.

Lemma read_names rows envs :
  envelopes_from_rows rows = Ok envs → Forall (λ env, names_valid (event env) = true) envs.
Proof.
  revert envs. induction rows as [|row rows IH]; intros envs; simpl; [by intros [= <-]|].
  intros (env & (ev & Hev & _ & _ & ->)%read_row_ok & (envs' & He & [= <-])%result_bind_ok)%result_bind_ok.
  constructor; [by eapply event_names_read|by apply IH].
Qed.

Lemma read_rows_error rows e : envelopes_from_rows rows = Err e → ∃ msg, e = Store_Backend msg.
Proof.
  revert e. induction rows as [|row rows IH]; intros e; simpl; [done|].
  unfold envelope_from_row. destruct (event_from_value _) as [ev|e']; simpl; [|naive_solver].
  zb; simpl; [|naive_solver..]. destruct (envelopes_from_rows rows); naive_solver.
Qed.

(** A job folded from what was read has valid names. *)
Lemma job_texts s j :
  Forall (λ env, names_valid (event env) = true) s → from_events s = Ok j →
  text_ok (QueueName_as_str (job_queue j)) = true ∧ texts_ok (job_state j).
Proof.
  intros Hs Hj. split.
  - apply from_events_inv in Hj as (env & rest & q & p & pr & rp & nb & -> & He & _ & [_ Hf]%fold_rest_ok).
    apply apply_all_fixed in Hf as (_ & -> & _). apply Forall_cons in Hs as [Hn _]. rewrite He in Hn.
    by apply valid_queue_text.
  - eapply (from_events_state texts_ok (λ ev, names_valid ev = true)); [done|apply texts_step|done|done].
Qed.
End texts.

Section project.
Context `{ext : Externals} {pg : Postgres} {G C : Type}.
Local Abbreviation Tx := (Tx G C).
Context (d0 : Db) (own : Around G C) (id : JobId) (expected : Z).
Local Abbreviation inv := (tx_inv d0 own id expected).
Local Abbreviation excuse := (excuse d0 own id expected).
Implicit Types (t : Tx) (L : list (Z * EventRow)) (K : list (Z * OutboxRow)) (D : gmap Uuid (option DispatchRow)).

(** ** The load *)

Lemma view_rows L K D t :
  inv L K D t → rows_of (tb_events (tx_view t)) (JobId_as_uuid id)
    = rows_of (tb_events (db_tables (tx_db t))) (JobId_as_uuid id) ++ L.*2.
Proof.
  intros Hi. rewrite (view_events _ _ _ _ _ _ _ _ Hi).
  pose proof (ok_rows _ (inv_ok _ _ _ _ _ _ _ _ Hi)) as Hr.
  destruct (decide (L = [])) as [->|HL].
  { simpl. by rewrite map_empty_union, app_nil_r. }
  rewrite (rows_of_union _ _ L.*2 (JobId_as_uuid id)), decide_True; try done.
  - by eapply own_disjoint.
  - rewrite map_to_list_to_map by apply (ti_event_keys Hi). done.
  - apply (ti_stream Hi).
  - apply numbered_app. split; [apply Hr|].
    rewrite <-envs_of_length, (stream_length _ _ _ _ _ _ _ _ Hi), (ti_behind Hi HL) by done.
    rewrite Z.add_comm. apply (ti_numbered Hi).
  - apply Hr.
Qed.

Lemma wp_load L K D t :
  inv L K D t →
  wp (load_in_tx id) t
    (λ envs t', inv L K D t' ∧ Forall (λ env, names_valid (event env) = true) envs ∧
      ∃ kept, envelopes_from_rows L.*2 = Ok kept ∧ envs = db_stream (tx_db t') id ++ kept)
    (excuse (∃ kept, envelopes_from_rows L.*2 = Ok kept)).
Proof.
  intros Hi. apply wp_bind, wp_map_err. eapply wp_round_trip; [done| |].
  2: { intros Hnc e t' Hi'. by eapply excuse_plain. }
  clear t Hi. intros _ _ t Hi. apply wp_bind, wp_get, wp_ret, wp_lift. rewrite (view_rows _ _ _ _ Hi).
  pose proof (rows_readable _ (JobId_as_uuid id) (ok_rows _ (inv_ok _ _ _ _ _ _ _ _ Hi))) as Hr.
  rewrite <-db_stream_envs in Hr by (by eapply inv_ok). pose proof (read_names _ _ Hr) as Hn1.
  rewrite (read_rows_app _ _ _ Hr).
  destruct (envelopes_from_rows L.*2) as [kept|e|] eqn:Hk; simpl.
  - split_and!; [done| |eauto]. apply Forall_app. split; [done|by eapply read_names].
  - destruct (read_rows_error _ _ Hk) as [msg ->]. eapply excuse_plain; [done|]. by intros _ [??].
  - by apply read_rows_no_panic in Hk.
Qed.

(** ** The projection *)

Lemma wp_upsert L K D t u row (Q : unit → Tx → Prop) X :
  inv L K D t → (∀ seq t', inv L K (<[u := Some (row seq)]> D) t' → Q tt t') →
  wp (upsert_dispatch u row) t Q X.
Proof.
  intros Hi HQ. apply wp_bind, wp_total. destruct (next_dispatch t) as [k t1] eqn:Hk. simpl.
  apply wp_bind, wp_get, wp_modify. eapply HQ, write_dispatch_inv. by eapply next_dispatch_inv.
Qed.

(** The dispatch row has been written for the job [j]. *)
Definition projected L K D j t : Prop :=
  ∃ row, inv L K (<[JobId_as_uuid id := row]> D) t ∧ dispatched j row ∧ times_ok (job_state j).

Lemma excused L K D (P : Prop) (e : SqlxError) t : inv L K D t → (calm own → ¬ P) → excuse P (db e) t.
Proof. apply excuse_plain. Qed.

Lemma wp_project_leased L K D t j w l x :
  inv L K D t → text_ok (QueueName_as_str (job_queue j)) = true → text_ok (WorkerId_as_str w) = true →
  job_state j = S_Leased w l x ∨ job_state j = S_Running w l x →
  wp (st_map_err db (sql_upsert_leased (JobId_as_uuid id) (QueueName_as_str (job_queue j))
    (priority_value (job_priority j)) (LeaseId_as_uuid l) (WorkerId_as_str w) x)) t
    (λ _, projected L K D j) (excuse (times_ok (job_state j))).
Proof.
  intros Hi Hq Hw Hst. apply wp_map_err. eapply wp_round_trip; [done| |by intros; eapply excused].
  clear t Hi. intros _ _ t Hi. apply wp_bind. unfold wp at 1. rewrite bind_text_run, Hq.
  apply wp_bind. unfold wp at 1. rewrite bind_text_run, Hw.
  apply wp_bind, wp_lift. destruct (timestamptz x) as [x'|e] eqn:Hx; simpl.
  - eapply wp_upsert; [done|]. intros seq t' Hi'. eexists. split; [done|]. unfold dispatched, times_ok.
    destruct Hst as [-> | ->]; (split; [by eexists seq, _|by exists x']).
  - eapply excused; [done|]. intros _. unfold times_ok. destruct Hst as [-> | ->]; intros [? ?]; congruence.
Qed.

Lemma wp_project_pending L K D t j nb :
  inv L K D t → text_ok (QueueName_as_str (job_queue j)) = true → job_state j = S_Pending nb →
  wp (let! _ := st_map_err db (sql_upsert_pending (JobId_as_uuid id) (QueueName_as_str (job_queue j))
        (priority_value (job_priority j)) nb) in
      st_map_err db (sql_notify (QueueName_as_str (job_queue j)))) t
    (λ _, projected L K D j) (excuse (times_ok (job_state j))).
Proof.
  intros Hi Hq Hst. apply wp_bind, wp_map_err. eapply wp_round_trip; [done| |by intros; eapply excused].
  clear t Hi. intros _ _ t Hi. apply wp_bind. unfold wp at 1. rewrite bind_text_run, Hq. apply wp_bind.
  pose proof (bind_times_run nb t) as Hb. unfold wp at 1.
  destruct (bind_time_opt nb t) as [[nb'|e|] t'] eqn:He; [|destruct Hb as (_ & -> & x & -> & Hx)|done].
  2: { eapply excused; [done|]. intros _. by rewrite Hst. }
  destruct Hb as [Hc ->]. eapply wp_upsert; [done|]. clear t Hi He. intros seq t Hi.
  apply wp_map_err. eapply wp_round_trip; [done| |by intros; eapply excused].
  clear t Hi. intros _ _ t Hi. apply wp_bind. unfold wp at 1. rewrite bind_text_run, Hq.
  apply wp_modify. eexists. split; [by apply write_notify_inv; [apply insert_non_empty|]|]. unfold dispatched, times_ok. rewrite Hst.
  split; [by eexists _, _|]. destruct nb as [x|], nb' as [x'|]; try done. by exists x'.
Qed.

Lemma wp_project_deleted L K D t j :
  inv L K D t → (∀ row, row = None → dispatched j row) → times_ok (job_state j) →
  wp (st_map_err db (sql_delete_dispatch (JobId_as_uuid id))) t
    (λ _, projected L K D j) (excuse (times_ok (job_state j))).
Proof.
  intros Hi Hrow Hti. apply wp_map_err. eapply wp_round_trip; [done| |by intros; eapply excused].
  clear t Hi. intros _ _ t Hi. apply wp_modify. exists None. split_and!; [|by apply Hrow|done].
  by apply write_dispatch_inv.
Qed.

Lemma wp_project L K D t j :
  inv L K D t → job_id j = id → text_ok (QueueName_as_str (job_queue j)) = true → texts_ok (job_state j) →
  wp (project_in_tx j) t (λ _, projected L K D j) (excuse (times_ok (job_state j))).
Proof.
  intros Hi Hid Hq Htx. unfold project_in_tx. rewrite Hid.
  destruct (job_state j) as [nb|w l x|w l x| | | | |] eqn:Hst; rewrite <-?Hst;
    try (apply wp_project_deleted; unfold dispatched; rewrite ?Hst; done).
  - by apply wp_project_pending.
  - eapply wp_project_leased; eauto.
  - eapply wp_project_leased; eauto.
Qed.
End project.
