(* ===== verification/PgCommit.v ===== *)
(** * The append as a whole

    [append_in_tx] under any interference; what a commit publishes. *)

From stdpp Require Import sorting.
From S2P Require Import Prelude Std Ids Retry Events Job Lifecycle Commands Ports UseCases Contract Kept.
From S2P Require Import Postgres PgStore PgRows PgTx PgAppend PgInsert PgProject.

Open Scope string_scope.
Open Scope list_scope.
Open Scope Z_scope.

Section append.
Context `{ext : Externals} {pg : Postgres} {G C : Type}.
Local Abbreviation Tx := (Tx G C).
Implicit Types (t : Tx) (id : JobId) (envs kept old : list EventEnvelope) (d : Db).
Implicit Types (L : list (Z * EventRow)) (K : list (Z * OutboxRow)) (D : gmap Uuid (option DispatchRow)).

Lemma batch_in_order_spec id v envs :
  batch_in_order id v envs = true ↔ sequential v envs ∧ Forall (λ env, stream_id env = id) envs.
Proof.
  revert v. induction envs as [|env envs IH]; intros v; simpl; [by split|].
  rewrite Forall_cons. destruct (Z.eqb_spec (envelope_version env) (u64_add v 1)); simpl; [|naive_solver].
  destruct (bool_decide_reflect (stream_id env = id)); simpl; [|naive_solver]. rewrite IH. naive_solver.
Qed.

(** The times of a stream extended by storable events fit their columns. *)
Lemma times_extend old kept j :
  (∀ j0, from_events old = Ok j0 → times_ok (job_state j0)) →
  Forall (λ env, times_fit (event env)) kept → from_events (old ++ kept) = Ok j → times_ok (job_state j).
Proof.
  intros Hold Hk Hj. destruct (decide (old = [])) as [->|Hne].
  - eapply (from_events_state times_ok times_fit); [|apply times_step|exact Hk|exact Hj].
    by intros ? ? ? ? [].
  - rewrite from_events_app in Hj by done. apply result_bind_ok in Hj as (j0 & Hj0 & [_ Hf]%fold_rest_ok).
    eapply (apply_all_state times_ok times_fit times_step (event <$> kept)); [by apply Forall_fmap|by apply Hold|done].
Qed.

Lemma folded_id id old j :
  Forall (λ env, stream_id env = id) old → from_events old = Ok j → job_id j = id.
Proof.
  intros Hs (env & Hh & ->)%from_events_id. destruct old; simplify_eq/=.
  by apply Forall_cons in Hs as [? _].
Qed.

Lemma db_stream_held d id :
  db_ok d → db_stream d id = [] ∨
    stream_held id (db_stream d id) (tb_dispatch (db_tables d) !! JobId_as_uuid id).
Proof.
  intros Hd. unfold db_stream. destruct (db_log d !! id) as [s|] eqn:Hs; [right|by left].
  by apply ok_streams.
Qed.

Lemma db_stream_ids d id : db_ok d → Forall (λ env, stream_id env = id) (db_stream d id).
Proof. intros [->|[(_ & ? & _) _ _ _]]%(db_stream_held d id); [constructor|done]. Qed.

Lemma kept_ids id envs kept :
  Forall2 kept_as envs kept → Forall (λ env, stream_id env = id) envs →
  Forall (λ env, stream_id env = id) kept.
Proof.
  induction 1 as [|env env' envs kept Hk _ IH]; [done|].
  intros [? ?]%Forall_cons. constructor; [|auto]. by rewrite (kept_stream_id _ _ Hk).
Qed.

(** The rows and outbox rows of a batch, and what is read back of it. *)
Record appended envs L K kept : Prop := {
  app_rows : Forall2 row_for envs L.*2;
  app_outbox : Forall2 outbox_for envs K.*2;
  app_read : envelopes_from_rows L.*2 = Ok kept;
  app_versions : Forall (λ env, envelope_version env ≤ I64_MAX) envs;
}.

Lemma appended_nonempty envs L K kept : appended envs L K kept → envs ≠ [] → L ≠ [].
Proof. intros [H _ _ _] Hne ->. by apply Forall2_nil_inv_r in H. Qed.

Lemma batch_readable envs rows :
  Forall2 row_for envs rows →
  Forall (λ env, pg_storable (event env) ∧ 0 ≤ envelope_version env ∧ 0 ≤ schema_version env) envs →
  ∃ kept, envelopes_from_rows rows = Ok kept.
Proof.
  intros Hr He. apply read_rows_total. revert He.
  induction Hr as [|env row envs rows Hrow _ IH]; [constructor|]. intros [(? & ? & ?) ?]%Forall_cons.
  constructor; [|auto]. destruct (row_readable _ _ Hrow) as (env' & ? & _); eauto.
Qed.

Section tx.
Context (d0 : Db) (own : Around G C) (id : JobId) (expected : Z) (envs : list EventEnvelope).
Context (D : gmap Uuid (option DispatchRow)).
Local Abbreviation inv := (tx_inv d0 own id expected).

(** What [append_in_tx] leaves in the transaction. *)
Record append_done (j : Job) t : Prop := {
  done_batch : sequential expected envs ∧ Forall (λ env, stream_id env = id) envs;
  done_length : Z.of_nat (length (db_stream (tx_db t) id)) = expected;
  done_tx : ∃ L K kept, projected d0 own id expected L K D j t ∧ appended envs L K kept ∧
    from_events (db_stream (tx_db t) id ++ kept) = Ok j;
}.

(** When the append must succeed, if nothing fails and no other session
    extends the stream. *)
Definition possible : Prop :=
  acceptable (db_stream d0 id) id expected envs ∧
  expected + Z.of_nat (length envs) ≤ I64_MAX ∧ batch_fits d0 own [] envs.

Hypothesis nonempty : envs ≠ [] ∨ alone own.

(** A stream that was at the expected version, and still is, is the same. *)
Lemma same_stream t :
  db_grows d0 (tx_db t) → Z.of_nat (length (db_stream d0 id)) = expected →
  Z.of_nat (length (db_stream (tx_db t) id)) = expected → db_stream (tx_db t) id = db_stream d0 id.
Proof.
  intros Hg H0 Ht. destruct (grows_stream _ _ id Hg) as [s Hs]. rewrite Hs, length_app in *.
  destruct s; [by rewrite app_nil_r|simpl in *; lia].
Qed.

Lemma possible_storable : possible → Forall pg_storable (event <$> envs).
Proof.
  intros (_ & _ & Hf & _). apply Forall_fmap. eapply Forall_impl; [exact Hf|]. by intros env [].
Qed.

Lemma storable_times kept :
  Forall pg_storable (event <$> envs) → event <$> kept = event <$> envs →
  Forall (λ env, times_fit (event env)) kept.
Proof.
  intros Hs He. rewrite <-He, Forall_fmap in Hs. eapply Forall_impl; [exact Hs|].
  by intros env [].
Qed.

Lemma wp_append_fold L K t kept (Q : Job → Tx → Prop) (X : EventStoreError → Tx → Prop) :
  inv L K D t → appended envs L K kept → sequential expected envs →
  Forall (λ env, stream_id env = id) envs →
  Z.of_nat (length (db_stream (tx_db t) id)) = expected →
  Forall (λ env, names_valid (event env) = true) (db_stream (tx_db t) id ++ kept) →
  (∀ j t', append_done j t' → Q j t') → (∀ e t', excuse d0 own id expected possible e t' → X e t') →
  wp (let! job := st_lift (map_err
        (λ e, Store_Backend ("stream does not fold: " +:+ DomainError_to_string e))
        (from_events (db_stream (tx_db t) id ++ kept))) in
      let! _ := project_in_tx job in st_ret job) t Q X.
Proof.
  intros Hi Happ Hseq Hids Hlen Hnames HQ HX.
  destruct (rows_kept _ _ _ (app_rows _ _ _ _ Happ) (app_read _ _ _ _ Happ)) as [Hkept _].
  apply wp_bind, wp_lift. destruct (from_events (_ ++ kept)) as [j|e|] eqn:Hj; simpl.
  3: by apply from_events_no_panic in Hj.
  2: { eapply HX, excuse_plain; [done|]. intros _ [Hacc _].
    rewrite <-(same_stream t) in Hacc by (done || apply (ti_world Hi) || apply Hacc).
    destruct (acceptable_kept _ _ _ _ _ Hkept Hacc) as (_ & _ & _ & j & ?). congruence. }
  destruct (job_texts _ _ Hnames Hj) as [Htq Hts].
  pose proof (db_stream_ids _ id (inv_ok _ _ _ _ _ _ _ _ Hi)) as Hold.
  assert (job_id j = id) as Hid.
  { eapply folded_id; [|exact Hj]. apply Forall_app. split; [done|by eapply kept_ids]. }
  pose proof (tx_inv_rebase _ _ _ _ _ _ _ _ Hi) as Hi0.
  apply wp_bind. eapply wp_mono; [by apply (wp_project (tx_db t) own id expected L K D t j)| |].
  - intros _ t' (row & Hi' & Hrow & Htm). apply wp_ret, HQ.
    assert (db_stream (tx_db t') id = db_stream (tx_db t) id) as Hst.
    { eapply stream_stays; [exact Hi|exact Hi'|]. destruct nonempty; [left|by right].
      by eapply appended_nonempty. }
    split; [done|by rewrite Hst|]. exists L, K, kept. split_and!; [|done|by rewrite Hst].
    exists row. split_and!; [|done..]. by eapply tx_inv_trans; [exact Hi'|apply (ti_world Hi)..].
  - intros e t' [Hw Hq]. apply HX. apply (excuse_mono _ _ _ _ (times_ok (job_state j))).
    2: { split; [by eapply world_inv_trans; [exact Hw|apply (ti_world Hi)..]|done]. }
    intros Hpos.
    pose proof (possible_storable Hpos) as Hsto.
    pose proof (rows_as_they_were _ _ _ (app_rows _ _ _ _ Happ) (app_read _ _ _ _ Happ) Hsto) as Hsame.
    eapply times_extend; [|by apply storable_times|exact Hj]. intros j0 Hj0.
    destruct (db_stream_held _ id (inv_ok _ _ _ _ _ _ _ _ Hi)) as [Hnil|Hheld].
    + by rewrite Hnil in Hj0.
    + by apply (held_job _ _ _ Hheld).
Qed.

Lemma batch_versions : 
  sequential expected envs → 0 ≤ expected ≤ I64_MAX → Z.of_nat (length envs) ≤ I64_MAX →
  ∀ i env, envs !! i = Some env → envelope_version env = expected + 1 + Z.of_nat i.
Proof.
  intros Hs He Hl i env Hi. eapply sequential_lookup; try done; [lia|].
  unfold I64_MAX, U64_MAX in *. lia.
Qed.

(** The inserts and the load, after the checks. *)
Lemma wp_append_inserts t (Q : Job → Tx → Prop) (X : EventStoreError → Tx → Prop) :
  inv [] [] D t → sequential expected envs → Forall (λ env, stream_id env = id) envs →
  expected ≤ I64_MAX → Z.of_nat (length envs) ≤ I64_MAX →
  Z.of_nat (length (db_stream (tx_db t) id)) = expected →
  (∀ j t', append_done j t' → Q j t') → (∀ e t', excuse d0 own id expected possible e t' → X e t') →
  wp (let! _ := insert_envelopes id expected envs in
      let! stream_envelopes := load_in_tx id in
      let! job := st_lift (map_err
        (λ e, Store_Backend ("stream does not fold: " +:+ DomainError_to_string e))
        (from_events stream_envelopes)) in
      let! _ := project_in_tx job in st_ret job) t Q X.
Proof.
  intros Hi Hseq Hids He Hl Hlen HQ HX. pose proof (ti_reached Hi) as Hre.
  assert (Hql : alone own → Z.of_nat (length (db_stream d0 id)) = expected).
  { intros Hq. by rewrite <-(alone_stream _ _ _ _ _ _ _ _ Hi Hq). }
  pose proof (batch_versions Hseq ltac:(lia) Hl) as Hv.
  apply wp_bind. eapply wp_mono; [by apply (wp_insert_envelopes d0 own id expected envs [] [] D)| |].
  2: { intros e t' Hex. eapply HX, excuse_mono, Hex. intros (_ & Hmax & Hf). split; [|done].
    apply Forall_lookup. intros i env Hen. rewrite (Hv _ _ Hen). apply lookup_lt_Some in Hen. lia. }
  assert (0 ≤ expected) as Hpos by lia.
  clear t Hi Hlen Hre. intros _ t (L & K & Hi & Hrows & Hobs & Hvs). simpl in Hi.
  apply wp_bind. eapply wp_mono; [by eapply wp_load| |].
  - clear t Hi. intros ss t (Hi & Hn & kept & Hk & ->).
    assert (appended envs L K kept) as Happ by done.
    apply (wp_append_fold L K t kept); try done.
    destruct nonempty as [Hne|Hq]; [|by rewrite (alone_stream _ _ _ _ _ _ _ _ Hi Hq), Hql].
    apply (ti_behind Hi). by eapply appended_nonempty.
  - intros e t' Hex. eapply HX, excuse_mono, Hex. intros (Hacc & Hmax & Hf & Hun). eapply batch_readable; [done|].
    apply Forall_lookup. intros i env Hen. rewrite Forall_lookup in Hf. destruct (Hf _ _ Hen).
    rewrite (Hv _ _ Hen). split_and!; [done|lia..].
Qed.

(** A failed append: possible only because of a failure around it or because
    another session has extended the stream. *)
Definition append_failed (e : EventStoreError) t : Prop :=
  world_inv d0 own (tx_world t) ∧ (calm own → ¬ possible ∨ conflicted id expected e t) ∧
  (alone own → if decide (Z.of_nat (length (db_stream d0 id)) = expected)
     then ∃ msg, e = Store_Backend msg else e = VersionConflict id expected).

Lemma excuse_failed L K D' t t0 (e : EventStoreError) :
  inv L K D' t0 → Z.of_nat (length (db_stream (tx_db t0) id)) = expected →
  excuse d0 own id expected possible e t → append_failed e t.
Proof.
  intros Hi Hlen (Hw & Hc & Hq). split_and!; [done..|]. intros Halone.
  rewrite (alone_stream _ _ _ _ _ _ _ _ Hi Halone) in Hlen. rewrite decide_True by done.
  destruct (Hq Halone) as [?|[_ Hlt]]; [done|]. destruct (wi_alone Hw Halone) as [_ Ht].
  unfold db_stream, db_log, tx_db in *. rewrite Ht in Hlt. lia.
Qed.

Lemma wp_append_in_tx t (Q : Job → Tx → Prop) (X : EventStoreError → Tx → Prop) :
  tx_inv d0 own id 0 [] [] D t → Z.of_nat (length envs) ≤ I64_MAX →
  (∀ j t', append_done j t' → Q j t') → (∀ e t', append_failed e t' → X e t') →
  wp (append_in_tx id expected envs) t Q X.
Proof.
  intros Hi Hl HQ HX. apply wp_bind, wp_map_err. eapply wp_round_trip; [done| |].
  2: { intros Hnc e t' Hi'. apply HX. split_and!; [apply (ti_world Hi')|done|by intros ?%alone_calm]. }
  clear t Hi. intros _ _ t Hi. apply wp_bind, wp_get, wp_ret, wp_bind, wp_lift.
  pose proof (inv_ok _ _ _ _ _ _ _ _ Hi) as Hok.
  assert (tb_events (tx_view t) = tb_events (db_tables (tx_db t))) as ->.
  { rewrite (view_events _ _ _ _ _ _ _ _ Hi). simpl. apply map_empty_union. }
  rewrite max_version_stream, <-db_stream_envs by (done || apply Hok).
  destruct (Z.leb_spec 0 (Z.of_nat (length (db_stream (tx_db t) id)))); [|lia].
  destruct (Z.eqb_spec (Z.of_nat (length (db_stream (tx_db t) id))) expected) as [Hlen|Hne]; simpl.
  2: { apply wp_err, HX. split_and!; [apply (ti_world Hi)| |].
    - intros _. destruct (decide (Z.of_nat (length (db_stream d0 id)) = expected)) as [He|He].
      + right. split; [done|]. destruct (grows_stream d0 (tx_db t) id) as [s Hs]; [apply (ti_world Hi)|].
        rewrite Hs, length_app in *. lia.
      + left. by intros [[? _] _].
    - intros Hq. by rewrite <-(alone_stream _ _ _ _ _ _ _ _ Hi Hq), decide_False. }
  assert (Hi0 : inv [] [] D t) by (destruct Hi; split; try done; split; [lia|by rewrite Hlen]).
  destruct (batch_in_order id _ envs) eqn:Hb; simpl.
  2: { eapply wp_err, HX, excuse_failed, excuse_plain; [exact Hi0|done|exact Hi0|]. intros _ [(_ & ? & ? & _) _].
    by rewrite Hlen, (proj2 (batch_in_order_spec _ _ _)) in Hb. }
  rewrite Hlen in Hb. apply batch_in_order_spec in Hb as [Hseq Hids].
  apply (wp_append_inserts t); try done.
  - destruct (db_stream_held _ id Hok) as [Hnil|Hheld]; [rewrite Hnil in Hlen; simpl in Hlen; unfold I64_MAX; lia|].
    rewrite <-Hlen. apply Hheld.
  - intros e t' Hex. by eapply HX, excuse_failed.
Qed.
End tx.
End append.
