(* ===== verification/PgPublish.v ===== *)
(** * What a commit publishes

    The transaction of an append becomes visible at once: the log, the
    outbox and the dispatch table change together or not at all. *)

From stdpp Require Import sorting.
From S2P Require Import Prelude Std Ids Retry Events Job Lifecycle Commands Ports UseCases Contract Kept.
From S2P Require Import Postgres PgStore PgRows PgTx PgAppend PgInsert PgProject PgCommit.

Open Scope string_scope.
Open Scope list_scope.
Open Scope Z_scope.

Section publish.
Context `{ext : Externals} {pg : Postgres} {G C : Type}.
Local Abbreviation Tx := (Tx G C).
Implicit Types (t : Tx) (id : JobId) (envs kept old : list EventEnvelope) (d : Db).
Implicit Types (L : list (Z * EventRow)) (K : list (Z * OutboxRow)) (D : gmap Uuid (option DispatchRow)).

(** An append of [envs] to the stream [id] at [expected], from the committed
    state [d] to [d']; [kept] is what the log keeps of the batch, [j] the job
    afterwards. *)
Record committed id (expected : Z) envs d d' kept (j : Job) : Prop := {
  com_acceptable : acceptable (db_stream d id) id expected envs;
  com_kept : Forall2 kept_as envs kept;
  com_same : Forall pg_storable (event <$> envs) → event <$> kept = event <$> envs;
  com_log : db_log d' = <[id := db_stream d id ++ kept]> (db_log d);
  com_job : from_events (db_stream d id ++ kept) = Ok j;
  com_dispatched : dispatched j (tb_dispatch (db_tables d') !! JobId_as_uuid id);
  com_others u : u ≠ JobId_as_uuid id →
    tb_dispatch (db_tables d') !! u = tb_dispatch (db_tables d) !! u;
  com_outbox : ∃ K, tb_outbox (db_tables d') = list_to_map K ∪ tb_outbox (db_tables d) ∧
    StronglySorted Z.lt K.*1 ∧ (∀ k, k ∈ K.*1 → tb_outbox (db_tables d) !! k = None) ∧
    Forall2 outbox_for envs K.*2;
  com_workers : tb_workers (db_tables d') = tb_workers (db_tables d);
}.

Lemma overlay_lookup {A B} `{Countable A} (m : gmap A (option B)) (n : gmap A B) k :
  overlay m n !! k = match m !! k with Some y => y | None => n !! k end.
Proof. unfold overlay. rewrite lookup_merge. by destruct (m !! k), (n !! k). Qed.

Lemma overlay_some {A B} `{Countable A} (l : list (A * B)) (n : gmap A B) :
  overlay (list_to_map ((λ x, (x.1, Some x.2)) <$> l)) n = list_to_map l ∪ n.
Proof.
  apply map_eq. intros k. rewrite overlay_lookup, lookup_union. induction l as [|[k' b] l IH]; simpl.
  - rewrite !lookup_empty. by destruct (n !! k).
  - destruct (decide (k' = k)) as [->|].
    + rewrite !lookup_insert_eq. by destruct (n !! k).
    + by rewrite !lookup_insert_ne.
Qed.

Section tx.
Context (d0 : Db) (own : Around G C) (id : JobId) (expected : Z) (envs : list EventEnvelope).
Context (j : Job) (t : Tx) (L : list (Z * EventRow)) (K : list (Z * OutboxRow)) (kept : list EventEnvelope).
Hypothesis Hproj : projected d0 own id expected L K ∅ j t.
Hypothesis Happ : appended envs L K kept.
Hypothesis Hjob : from_events (db_stream (tx_db t) id ++ kept) = Ok j.
Hypothesis Hbatch : sequential expected envs ∧ Forall (λ env, stream_id env = id) envs.
Hypothesis Hlen : Z.of_nat (length (db_stream (tx_db t) id)) = expected.

Local Abbreviation d := (tx_db t).
Local Abbreviation d' := (tx_db (publish t)).

Lemma publish_ok_before : db_ok d.
Proof. destruct Hproj as (row & Hi & _). by eapply inv_ok. Qed.

Lemma publish_kept : Forall2 kept_as envs kept ∧ Forall (λ env, trace_ok (traceparent env)) kept.
Proof. by eapply rows_kept; [apply (app_rows _ _ _ _ Happ)|apply (app_read _ _ _ _ Happ)]. Qed.

(** The tables a commit leaves. *)
Lemma publish_tables :
  tb_events (db_tables d') = list_to_map L ∪ tb_events (db_tables d) ∧
  tb_outbox (db_tables d') = list_to_map K ∪ tb_outbox (db_tables d) ∧
  (∀ u, u ≠ JobId_as_uuid id → tb_dispatch (db_tables d') !! u = tb_dispatch (db_tables d) !! u) ∧
  dispatched j (tb_dispatch (db_tables d') !! JobId_as_uuid id) ∧ times_ok (job_state j).
Proof.
  destruct Hproj as (row & Hi & Hrow & Htm). split_and!; [by eapply view_events| | | |done].
  - change (tb_outbox (db_tables d')) with (overlay (wr_outbox (tx_writes t)) (tb_outbox (db_tables d))).
    by rewrite (ti_outbox Hi), overlay_some.
  - intros u Hu.
    change (tb_dispatch (db_tables d')) with (overlay (wr_dispatch (tx_writes t)) (tb_dispatch (db_tables d))).
    by rewrite overlay_lookup, (ti_dispatch Hi), lookup_insert_ne, lookup_empty.
  - change (tb_dispatch (db_tables d')) with (overlay (wr_dispatch (tx_writes t)) (tb_dispatch (db_tables d))).
    by rewrite overlay_lookup, (ti_dispatch Hi), lookup_insert_eq.
Qed.

Lemma publish_log :
  rows_ok (tb_events (db_tables d')) ∧ db_log d' = <[id := db_stream d id ++ kept]> (db_log d).
Proof.
  pose proof publish_ok_before as Hok. unfold db_log. destruct publish_tables as (-> & _).
  destruct Hproj as (row & Hi & _). destruct (decide (L = [])) as [->|HL].
  - pose proof (app_read _ _ _ _ Happ) as Hk. simpl in Hk. injection Hk as <-.
    simpl. rewrite map_empty_union. split; [apply Hok|]. rewrite app_nil_r in *.
    symmetry. apply insert_id. apply from_events_nonempty in Hjob. unfold db_stream, db_log in *.
    by destruct (pg_log _ !! id).
  - apply pg_log_union with (rows := L.*2); [apply Hok|by eapply own_disjoint| | |apply (ti_stream Hi)| |apply Happ].
    + rewrite map_to_list_to_map by apply (ti_event_keys Hi). done.
    + by destruct L.
    + rewrite <-envs_of_length, (stream_length _ _ _ _ _ _ _ _ Hi), Hlen, Z.add_comm by apply Hok.
      apply (ti_numbered Hi).
Qed.

(** The highest version of the batch bounds the stream. *)
Lemma publish_length : Z.of_nat (length (db_stream d id ++ kept)) ≤ I64_MAX.
Proof.
  destruct publish_kept as [Hk _]. rewrite length_app, Nat2Z.inj_add, <-(Forall2_length _ _ _ Hk), Hlen.
  assert (expected ≤ I64_MAX ∧ 0 ≤ expected) as [Hle ?].
  { rewrite <-Hlen. split; [|lia]. destruct (db_stream_held d id publish_ok_before) as [->|Hh]; [done|apply Hh]. }
  destruct (decide (envs = [])) as [->|Hne]; [simpl; lia|].
  destruct (lookup_lt_is_Some_2 envs (length envs - 1)) as [env He]; [destruct envs; [done|simpl; lia]|].
  destruct (Forall2_lookup_l _ _ _ _ _ (app_rows _ _ _ _ Happ) He) as (row & Hr & Hrow).
  destruct Hproj as (? & Hi & _). pose proof (ti_numbered Hi _ _ Hr) as Hn.
  pose proof (app_versions _ _ _ _ Happ) as Hv. rewrite Forall_lookup in Hv. specialize (Hv _ _ He).
  rewrite (row_version _ _ Hrow) in Hn. destruct envs; [done|simpl in *; lia].
Qed.

(** Event ids are those of the rows, none of them twice. *)
Lemma kept_row_ids : EventId_as_uuid <$> (event_id <$> kept) = ev_event_id <$> L.*2.
Proof. by apply read_row_ids, (app_read _ _ _ _ Happ). Qed.

Lemma publish_ids : NoDup (event_id <$> (db_stream d id ++ kept)).
Proof.
  destruct Hproj as (row & Hi & _). destruct (ti_ids Hi) as [Hnd Hnew]. rewrite fmap_app. apply NoDup_app. split_and!.
  - destruct (db_stream_held d id publish_ok_before) as [->|Hh]; [constructor|apply Hh].
  - intros x (env & -> & Henv)%list_elem_of_fmap Hx.
    assert (EventId_as_uuid (event_id env) ∈ ev_event_id <$> L.*2) as (row' & Heq & Hrow)%list_elem_of_fmap
      by (rewrite <-kept_row_ids; by apply list_elem_of_fmap_2). by apply (Hnew row' env).
  - apply (NoDup_fmap_1 EventId_as_uuid). by rewrite kept_row_ids.
Qed.

Lemma publish_held : stream_held id (db_stream d id ++ kept) (tb_dispatch (db_tables d') !! JobId_as_uuid id).
Proof.
  pose proof publish_length as Hl. destruct publish_kept as [Hk Htr], Hbatch as [_ Hids].
  destruct publish_tables as (_ & _ & _ & Hdis & Htm). split.
  - split_and!; [unfold I64_MAX, U64_MAX in *; lia| |by exists j].
    apply Forall_app. split; [by apply db_stream_ids, publish_ok_before|by eapply kept_ids].
  - done.
  - apply Forall_app. split; [|done].
    destruct (db_stream_held d id publish_ok_before) as [->|Hh]; [constructor|apply Hh].
  - apply publish_ids.
  - intros j' Hj'. rewrite Hjob in Hj'. by injection Hj' as <-.
Qed.

(** ** The outbox *)

(** The outbox rows of the batch announce its events, in order. *)
Lemma publish_announces i k ob :
  K !! i = Some (k, ob) → ob_stream_id ob = JobId_as_uuid id ∧
  ∃ env, kept !! i = Some env ∧ EventId_as_uuid (event_id env) = ob_event_id ob.
Proof.
  intros Hi. assert (K.*2 !! i = Some ob) as Hob by by rewrite list_lookup_fmap, Hi.
  destruct (Forall2_lookup_r _ _ _ _ _ (app_outbox _ _ _ _ Happ) Hob) as (env & He & [Heid Hst _]).
  destruct (Forall2_lookup_l _ _ _ _ _ (proj1 publish_kept) He) as (env' & He' & Hk).
  destruct Hbatch as [_ Hids]. rewrite Forall_lookup in Hids. split; [by rewrite Hst, (Hids _ _ He)|].
  exists env'. split; [done|]. by rewrite (kept_event_id _ _ Hk).
Qed.

Lemma publish_streams id' :
  db_stream d' id' = if decide (id' = id) then db_stream d id ++ kept else db_stream d id'.
Proof.
  destruct publish_log as [_ Hlog]. unfold db_stream at 1. rewrite Hlog. case_decide as Hid.
  - subst. by rewrite lookup_insert_eq.
  - by rewrite lookup_insert_ne.
Qed.

Lemma publish_unique id' : NoDup (event_id <$> db_stream d' id').
Proof.
  rewrite publish_streams. case_decide; [apply publish_ids|].
  destruct (db_stream_held d id' publish_ok_before) as [->|Hh]; [constructor|apply Hh].
Qed.

Lemma publish_grows id' s : db_log d !! id' = Some s → ∃ s', db_log d' !! id' = Some (s ++ s').
Proof.
  intros Hs. destruct publish_log as [_ Hlog]. rewrite Hlog. destruct (decide (id' = id)) as [->|Hne].
  - rewrite lookup_insert_eq. exists kept. unfold db_stream. by rewrite Hs.
  - exists []. by rewrite lookup_insert_ne, app_nil_r.
Qed.

(** Where an announced event stands in its stream. *)
Lemma publish_position k ob env :
  tb_outbox (db_tables d') !! k = Some ob → announces d' ob env →
  (tb_outbox (db_tables d) !! k = Some ob ∧ announces d ob env) ∨
  (ob_stream_id ob = JobId_as_uuid id ∧ ∃ i, K !! i = Some (k, ob) ∧
    envelope_version env = expected + Z.of_nat i + 1).
Proof.
  intros Hk Han. destruct publish_tables as (_ & Hob & _). rewrite Hob in Hk.
  apply lookup_union_Some_raw in Hk as [Hk|[_ Hk]].
  - right. apply elem_of_list_to_map_2, list_elem_of_lookup in Hk as [i Hi].
    destruct (publish_announces _ _ _ Hi) as (Hst & env' & He' & Hid). split; [done|]. exists i. split; [done|].
    assert (env = env') as ->.
    { eapply announces_unique; [apply publish_unique|exact Han|]. split; [|done]. rewrite Hst.
      rewrite publish_streams, decide_True by by destruct id. apply elem_of_app. right. by eapply list_elem_of_lookup_2. }
    destruct (from_events_numbered _ _ Hjob) as [_ Hn].
    { pose proof publish_length. unfold I64_MAX, U64_MAX in *. lia. }
    rewrite (Hn (length (db_stream d id) + i)%nat); [lia|]. rewrite lookup_app_r by lia.
    by replace (_ + i - _)%nat with i by lia.
  - left. split; [done|]. destruct (ok_announced _ publish_ok_before _ _ Hk) as (env' & Han').
    enough (env = env') as -> by done. eapply announces_unique; [apply publish_unique|exact Han|].
    eapply announces_mono; [apply publish_grows|done].
Qed.

Lemma publish_outbox_order k1 k2 ob1 ob2 env1 env2 :
  k1 < k2 → tb_outbox (db_tables d') !! k1 = Some ob1 → tb_outbox (db_tables d') !! k2 = Some ob2 →
  ob_stream_id ob1 = ob_stream_id ob2 → announces d' ob1 env1 → announces d' ob2 env2 →
  envelope_version env1 < envelope_version env2.
Proof.
  intros Hlt H1 H2 Hst Ha1 Ha2. pose proof publish_ok_before as Hok. destruct Hproj as (row & Hi & _).
  destruct (publish_position _ _ _ H1 Ha1) as [[Hk1 Hd1]|(Hs1 & i1 & Hi1 & ->)],
    (publish_position _ _ _ H2 Ha2) as [[Hk2 Hd2]|(Hs2 & i2 & Hi2 & ->)].
  - by eapply (ok_outbox_order _ Hok k1 k2).
  - destruct Hd1 as [Hin _]. rewrite Hst, Hs2 in Hin.
    pose proof (stream_version_bound _ _ _ Hok Hin) as Hb.
    replace (JobId_new (JobId_as_uuid id)) with id in Hb by by destruct id. lia.
  - pose proof (ti_after Hi k2 ob2 Hk2) as Haf. enough (k2 < k1) by lia. apply Haf; [congruence|].
    apply list_elem_of_fmap. exists (k1, ob1). split; [done|]. by eapply list_elem_of_lookup_2.
  - destruct (decide (i1 < i2)%nat) as [?|Hge]; [lia|]. exfalso. pose proof (proj1 (ti_outbox_keys Hi)) as Hsort.
    assert (K.*1 !! i1 = Some k1 ∧ K.*1 !! i2 = Some k2) as [Hl1 Hl2] by (rewrite !list_lookup_fmap, Hi1, Hi2; done).
    destruct (decide (i1 = i2)) as [->|Hne]; [rewrite Hl1 in Hl2; injection Hl2 as ->; lia|].
    assert (k2 < k1) by (eapply (sorted_lookup Z.lt K.*1 i2 i1); [done|lia|done..]). lia.
Qed.

Lemma publish_ok : db_ok d' ∧ db_grows d d'.
Proof.
  pose proof publish_ok_before as Hok. destruct publish_log as [Hrows Hlog].
  destruct publish_tables as (Hev & Hob & Hdis & _), Hproj as (row & Hi & _).
  assert (Hu : ∀ id', id' ≠ id → JobId_as_uuid id' ≠ JobId_as_uuid id) by (intros [] ?; destruct id; simpl; congruence).
  split; split; try done.
  - intros id' s. rewrite Hlog. intros [[<- <-]|[Hne Hs]]%lookup_insert_Some; [apply publish_held|].
    rewrite Hdis by auto. by apply ok_streams.
  - intros id'. rewrite Hlog. intros [Hs Hne]%lookup_insert_None. rewrite Hdis by auto.
    by apply ok_undispatched.
  - intros k. rewrite Hev. intros [row' [Hk|[_ Hk]]%lookup_union_Some_raw].
    + apply elem_of_list_to_map_2 in Hk. apply (ti_event_keys Hi). apply list_elem_of_fmap. by exists (k, row').
    + apply (ok_global _ Hok). by exists row'.
  - intros k. rewrite Hob. intros [ob [Hk|[_ Hk]]%lookup_union_Some_raw].
    + apply elem_of_list_to_map_2 in Hk. apply (ti_outbox_keys Hi). apply list_elem_of_fmap. by exists (k, ob).
    + apply (ok_outbox _ Hok). by exists ob.
  - intros k ob Hk. assert (Hold : tb_outbox (db_tables d) !! k = Some ob → ∃ env, announces d' ob env).
    { intros (env & Han)%(ok_announced _ Hok). exists env. eapply announces_mono; [apply publish_grows|done]. }
    rewrite Hob in Hk. apply lookup_union_Some_raw in Hk as [Hk|[_ Hk]]; [|by apply Hold].
    apply elem_of_list_to_map_2, list_elem_of_lookup in Hk as [i Hik].
    destruct (publish_announces _ _ _ Hik) as (Hst & env & He & Hid). exists env. split; [|done].
    rewrite Hst, publish_streams, decide_True by by destruct id. apply elem_of_app. right. by eapply list_elem_of_lookup_2.
  - apply publish_outbox_order.
  - apply publish_grows.
  - intros k ob env Hk [Hin Hid]. rewrite Hob in Hk. apply lookup_union_Some_raw in Hk as [Hk|[_ Hk]]; [|done].
    exfalso. apply elem_of_list_to_map_2, list_elem_of_lookup in Hk as [i Hik].
    destruct (publish_announces _ _ _ Hik) as (Hst & env' & He & Hid'). rewrite Hst in Hin.
    replace (JobId_new (JobId_as_uuid id)) with id in Hin by by destruct id.
    pose proof publish_ids as Hnd. rewrite fmap_app in Hnd. apply NoDup_app in Hnd as (_ & Hno & _).
    apply (Hno (event_id env)); [by apply list_elem_of_fmap_2|]. apply list_elem_of_fmap. exists env'.
    split; [|by eapply list_elem_of_lookup_2]. destruct (event_id env), (event_id env'); simpl in *; congruence.
Qed.

Lemma publish_committed : committed id expected envs d d' kept j.
Proof.
  destruct publish_kept as [Hk _], Hbatch as [Hseq Hids], publish_log as [_ Hlog].
  destruct publish_tables as (_ & Hob & Hdis & Hrow & _), Hproj as (row & Hi & _). split; try done.
  - apply (acceptable_kept _ _ _ kept); [by apply all_kept_sym|].
    split_and!; [done| |by eapply kept_ids|by exists j].
    apply (kept_sequential _ _ _ Hk Hseq).
  - by eapply rows_as_they_were; apply Happ.
  - exists K. split_and!; [done|apply (ti_outbox_keys Hi)| |apply Happ].
    intros k Hkk. by apply (ti_outbox_keys Hi).
Qed.
End tx.

(** ** The commit *)

(** What is left of a transaction's facts by what happens around a round
    trip: all of them. *)
Definition stable own t t' : Prop :=
  ∀ d1 id expected L K D, tx_inv d1 own id expected L K D t → tx_inv d1 own id expected L K D t'.

Lemma wp_commit_cases d0 own id expected L K D t (Q : unit → Tx → Prop) (X : SqlxError → Tx → Prop) :
  tx_inv d0 own id expected L K D t →
  (∀ t', stable own t t' → Q tt (publish t')) →
  (∀ e t', ¬ calm own → stable own t t' → X e t') →
  (∀ e t', ¬ calm own → AnswerLost e ∈ ar_script own → stable own t t' → X e (publish t')) →
  wp sql_commit t Q X.
Proof.
  intros Hi HQ HX HL. unfold wp, sql_commit. pose proof (ti_world Hi) as Hw.
  destruct (pg_script (tx_world t)) as [|f script] eqn:Hs; [by apply HQ; intros ???????|].
  pose proof (wi_fates Hw) as Hf. rewrite Hs in Hf. apply Forall_cons in Hf as [Hf _].
  assert (Hin : f ∈ ar_script own) by (apply (wi_script Hw); rewrite Hs; by left).
  assert (Hnext : stable own t (next_script t)).
  { intros d1 i v L' K' D' Hi'. by apply next_script_inv. }
  destruct f as [others jobs outbox|e|e].
  - apply HQ. intros d1 i v L' K' D' Hi'. by eapply interfere_inv, Hnext.
  - apply HX; [|done]. intros Hc. by destruct (Hc _ Hin) as (? & ? & ? & ?).
  - apply HL; [|done|done]. intros Hc. by destruct (Hc _ Hin) as (? & ? & ? & ?).
Qed.

Section commit.
Context (d0 : Db) (own : Around G C) (id : JobId) (expected : Z) (envs : list EventEnvelope).
Local Abbreviation done := (append_done d0 own id expected envs ∅).

(** The world after a commit of the append has taken effect. *)
Record world_after (j : Job) (w' : PgWorld G C) : Prop := {
  wa_fates : Forall fate_ok (pg_script w');
  wa_ok : db_ok (pg_db w');
  wa_script : pg_script w' ⊆ ar_script own;
  wa_own : pg_ids w' = ar_ids own ∧ pg_clock w' = ar_clock own;
  wa_commit : ∃ d kept, outside (ar_script own) d0 d ∧ db_grows d0 d ∧ db_grows d (pg_db w') ∧ committed id expected envs d (pg_db w') kept j;
}.

Lemma publish_after j t : done j t → world_after j (tx_world (publish t)).
Proof.
  intros [Hb Hlen (L & K & kept & Hproj & Happ & Hjob)].
  destruct (publish_ok d0 own id expected envs j t L K kept Hproj Happ Hjob Hb Hlen) as [Hok Hg].
  pose proof (publish_committed d0 own id expected envs j t L K kept Hproj Happ Hjob Hb Hlen) as Hc.
  destruct Hproj as (row & [[? ? ? ? ? ?] ? ? ? ? ? ? ? ? ? ? ?] & _). split; try done.
  by exists (tx_db t), kept.
Qed.

Lemma done_world j t : done j t → world_inv d0 own (tx_world t).
Proof. intros [_ _ (? & ? & ? & (? & Hi & _) & _)]. apply (ti_world Hi). Qed.

(** The transaction is still the one to publish after what happens around a
    round trip. *)
Lemma done_stays j t t' : envs ≠ [] ∨ alone own → done j t → stable own t t' → done j t'.
Proof.
  intros Hne [Hb Hlen (L & K & kept & (row & Hi & Hrow) & Happ & Hjob)] Ht.
  assert (db_stream (tx_db t') id = db_stream (tx_db t) id) as Hst.
  { eapply stream_stays; [exact Hi|by eapply Ht, tx_inv_rebase|]. destruct Hne; [left|by right].
    by eapply appended_nonempty. }
  split; [done|by rewrite Hst|]. exists L, K, kept. split_and!; [|done|by rewrite Hst]. exists row. auto.
Qed.

Lemma wp_commit j t (Q : unit → Tx → Prop) (X : SqlxError → Tx → Prop) :
  envs ≠ [] ∨ alone own → done j t →
  (∀ t', world_after j (tx_world t') → Q tt t') →
  (∀ e t', ¬ calm own → world_inv d0 own (tx_world t') ∨
    (AnswerLost e ∈ ar_script own ∧ world_after j (tx_world t')) → X e t') →
  wp sql_commit t Q X.
Proof.
  intros Hne Hd HQ HX. pose proof Hd as [_ _ (L & K & kept & (row & Hi & _) & _)].
  eapply wp_commit_cases; [exact Hi|..].
  - intros t' Ht. eapply HQ, publish_after, done_stays; done.
  - intros e t' Hnc Ht. apply HX; [done|]. left. by eapply done_world, done_stays.
  - intros e t' Hnc Hlost Ht. apply HX; [done|]. right. split; [done|]. by eapply publish_after, done_stays.
Qed.
End commit.

(** ** [append] *)

Lemma begin_inv id (w : PgWorld G C) :
  db_ok (pg_db w) → Forall fate_ok (pg_script w) →
  tx_inv (pg_db w) (around w) id 0 [] [] ∅ (Tx_mk w no_writes).
Proof.
  intros Hok Hf. split; try done.
  - split; [constructor|]. by intros k ?%elem_of_nil.
  - split; [constructor|]. by intros k ?%elem_of_nil.
  - split; [done|lia].
  - split; [constructor|]. by intros row env ?%elem_of_nil.
  - by intros k ob _ _ k' ?%elem_of_nil.
Qed.

Lemma wp_begin d0 own id t (Q : unit → Tx → Prop) (X : SqlxError → Tx → Prop) :
  tx_inv d0 own id 0 [] [] ∅ t →
  (∀ t', tx_inv d0 own id 0 [] [] ∅ t' → Q tt t') →
  (∀ e t', ¬ calm own → tx_inv d0 own id 0 [] [] ∅ t' → X e t') → wp sql_begin t Q X.
Proof. intros Hi HQ HX. eapply wp_round_trip; [done| |auto]. intros _ _ t' Hi'. by apply HQ. Qed.

Lemma with_tx_run {E T : Type} (f : ST Tx E T) (P : result T E → PgWorld G C → Prop) w r w' :
  wp f (Tx_mk w no_writes) (λ a t', P (Ok a) (tx_world t')) (λ e t', P (Err e) (tx_world t')) →
  with_tx f w = (r, w') → P r w'.
Proof.
  unfold wp, with_tx. destruct (f _) as [[] t']; [by intros ? [= <- <-]..|done].
Qed.

(** What an append answers and leaves behind. *)
Definition append_outcome (d0 : Db) own id expected envs
    (r : result unit EventStoreError) (w' : PgWorld G C) : Prop :=
  match r with
  | Ok tt => ∃ j, world_after d0 own id expected envs j w'
  | Err e =>
      (∃ e0 j, e = db e0 ∧ AnswerLost e0 ∈ ar_script own ∧ world_after d0 own id expected envs j w') ∨
      (world_inv d0 own w' ∧
       (calm own → ¬ possible d0 own id expected envs ∨
         (e = VersionConflict id expected ∧ expected < Z.of_nat (length (db_stream (pg_db w') id)))) ∧
       (alone own → if decide (Z.of_nat (length (db_stream d0 id)) = expected)
         then ∃ msg, e = Store_Backend msg else e = VersionConflict id expected))
  | Panic => False
  end.

Lemma append_run id expected envs (w : PgWorld G C) r w' :
  db_ok (pg_db w) → Forall fate_ok (pg_script w) →
  envs ≠ [] ∨ alone (around w) → Z.of_nat (length envs) ≤ I64_MAX →
  Postgres_append id expected envs w = (r, w') →
  append_outcome (pg_db w) (around w) id expected envs r w'.
Proof.
  intros Hok Hf Hne Hl. pose proof (begin_inv id w Hok Hf) as Hi. apply with_tx_run.
  assert (Hfail : ∀ e t', ¬ calm (around w) → world_inv (pg_db w) (around w) (tx_world t') →
    append_outcome (pg_db w) (around w) id expected envs (Err (db e)) (tx_world t')).
  { intros e t' Hnc Hw. right. split_and!; [done|done|]. by intros ?%alone_calm. }
  apply wp_bind, wp_map_err. eapply wp_begin; [exact Hi| |].
  2: { intros e t' Hnc Hi'. apply Hfail; [done|apply (ti_world Hi')]. }
  intros t Hi1. apply wp_bind. eapply wp_append_in_tx; [done|exact Hi1|done| |].
  - intros j t' Hd. apply wp_map_err. eapply wp_commit; [done|exact Hd|by eexists|].
    intros e t2 Hnc [Hw|[Ha ?]]; [by apply Hfail|left]. by eexists e, _.
  - intros e t' Hw. by right.
Qed.
End publish.
