(* ===== verification/PgRelayFacts.v ===== *)
(** * What the relay promises

    Nothing leaves the outbox that the sink has not accepted, whatever
    happens around a pass; the rows of a stream go out in the order of the
    stream; and ticks with a sink that accepts empty the outbox. *)

From stdpp Require Import sorting.
From S2P Require Import Signal.
From S2P Require Import Prelude Std Ids Retry Events Job Lifecycle Commands Ports UseCases Contract Kept.
From S2P Require Import Postgres PgStore PgRelay PgRows PgTx PgAppend PgInsert PgProject PgCommit PgPublish.

Open Scope string_scope.
Open Scope list_scope.
Open Scope Z_scope.

Section pass.
Context `{ext : Externals} {pg : Postgres} {G C : Type} {S : Type} `{!EventSink S}.
Local Abbreviation World := (PgWorld G C).
Local Abbreviation Tx := (Tx G C).
Local Abbreviation RelayWorld := (RelayWorld G C S).
Implicit Types (t : Tx) (w : World) (x : RelayWorld) (d : Db) (rows : list (Z * OutboxRow)).

(** Nobody else locks outbox rows, as only a relay does. *)
Definition single_relay (script : list Fate) : Prop :=
  ∀ others jobs locked, Runs others jobs locked ∈ script → locked = ∅.

(** ** The transaction of a pass *)

(** It holds the rows [rows] and has deleted [dels]. *)
Record relaying w rows (dels : gmap Z (option OutboxRow)) t : Prop := {
  rl_world : world_inv (pg_db w) (around w) (tx_world t);
  rl_events : wr_events (tx_writes t) = ∅;
  rl_dispatch : wr_dispatch (tx_writes t) = ∅;
  rl_outbox : wr_outbox (tx_writes t) = dels;
  rl_rows k ob : (k, ob) ∈ rows → k ∈ wr_locked_outbox (tx_writes t) ∧
    tb_outbox (db_tables (tx_db t)) !! k = Some ob;
}.

Lemma relaying_next w rows dels t : relaying w rows dels t → relaying w rows dels (next_script t).
Proof.
  intros [[Hf Hd Hg ? Hs ?] ????]. split; try done. split; simpl; try done.
  - by destruct (pg_script (tx_world t)); [|apply Forall_cons in Hf as [_ ?]].
  - intros f Hf'. apply Hs. destruct (pg_script (tx_world t)); [done|by right].
Qed.

Lemma relaying_interfere w rows dels t others jobs outbox :
  Runs others jobs outbox ∈ pg_script w → fate_ok (Runs others jobs outbox) →
  relaying w rows dels t → relaying w rows dels (interfere others t).
Proof.
  intros Hin Hf Hi. unfold interfere. destruct (compatible _ _ _) eqn:Hc; [|done].
  destruct (Hf _ (wi_db (rl_world _ _ _ _ Hi))) as [Hd' Hg]. apply compatible_spec in Hc as (_ & Hco & _).
  destruct Hi as [Hw ? ? ? Hr]. split; try done; simpl.
  - apply world_inv_db; try done. left. eauto.
  - intros k ob Hk. destruct (Hr _ _ Hk) as [Hl ?]. split; [done|]. unfold tx_db; simpl. rewrite <-Hco in * by set_solver.
    done.
Qed.

Lemma wp_relay_trip {A : Type} w rows dels t (body : gset Uuid → gset Z → ST Tx SqlxError A) Q X :
  relaying w rows dels t →
  (∀ jobs locked t', (single_relay (pg_script w) → locked = ∅) → relaying w rows dels t' → wp (body jobs locked) t' Q X) →
  (∀ e t', ¬ calm (around w) → relaying w rows dels t' → X e t') → wp (round_trip body) t Q X.
Proof.
  intros Hi Hbody Herr. unfold wp, round_trip. pose proof (rl_world _ _ _ _ Hi) as Hw.
  destruct (pg_script (tx_world t)) as [|f script] eqn:Hs; [by apply Hbody|].
  assert (f ∈ pg_script w) as Hin by (apply (wi_script Hw); rewrite Hs; by left).
  pose proof (wi_fates Hw) as Hf. rewrite Hs in Hf. apply Forall_cons in Hf as [Hf _].
  apply relaying_next in Hi. destruct f as [others jobs outbox|e|e];
    [eapply Hbody; [intros Hsg; by eapply Hsg|by eapply relaying_interfere]|apply Herr; [|done]..];
    intros Hc; by destruct (Hc _ Hin) as (? & ? & ? & ?).
Qed.

(** ** What a commit takes *)

Record taken rows d d' : Prop := {
  tk_held k ob : (k, ob) ∈ rows → tb_outbox (db_tables d) !! k = Some ob;
  tk_outbox k : tb_outbox (db_tables d') !! k = if decide (k ∈ rows.*1) then None else tb_outbox (db_tables d) !! k;
  tk_events : tb_events (db_tables d') = tb_events (db_tables d);
  tk_dispatch : tb_dispatch (db_tables d') = tb_dispatch (db_tables d);
  tk_workers : tb_workers (db_tables d') = tb_workers (db_tables d);
  tk_seqs : db_seqs d' = db_seqs d;
}.

Lemma taken_ok rows d d' : taken rows d d' → db_ok d → db_ok d' ∧ db_grows d d'.
Proof.
  intros [_ Ho He Hd _ Hs] [Hrows Hstr Hun Hgl Hob Han Hord].
  assert (Hlog : db_log d' = db_log d) by (unfold db_log; by rewrite He).
  assert (Hann : ∀ ob env, announces d' ob env ↔ announces d ob env) by (intros; unfold announces, db_stream; by rewrite Hlog).
  assert (Hsub : ∀ k ob, tb_outbox (db_tables d') !! k = Some ob → tb_outbox (db_tables d) !! k = Some ob).
  { intros k ob. rewrite Ho. by case_decide. }
  split; split; rewrite ?Hlog, ?He, ?Hd, ?Hs; try done.
  - intros k [ob Hk%Hsub]. apply Hob. by exists ob.
  - intros k ob (env & Henv)%Hsub%Han. exists env. by apply Hann.
  - intros k1 k2 ob1 ob2 env1 env2 ? ?%Hsub ?%Hsub. rewrite !Hann. by apply (Hord k1 k2).
  - intros id s Hls. exists []. by rewrite app_nil_r.
  - intros k ob env ?%Hsub _. done.
Qed.

Definition deletions (ks : list Z) : gmap Z (option OutboxRow) := foldr (λ k, <[k := None]>) ∅ ks.

Lemma deletions_lookup ks k : deletions ks !! k = if decide (k ∈ ks) then Some None else None.
Proof.
  unfold deletions. induction ks as [|k' ks IH]; simpl; [done|]. destruct (decide (k' = k)) as [->|Hne].
  - rewrite lookup_insert_eq, decide_True; [done|by left].
  - rewrite lookup_insert_ne, IH by done. by repeat case_decide; set_solver.
Qed.

Lemma publish_taken w rows t :
  relaying w rows (deletions rows.*1) t → taken rows (tx_db t) (tx_db (publish t)).
Proof.
  intros Hi. split; try done.
  - intros k ob Hk. by apply (rl_rows _ _ _ _ Hi).
  - intros k. change (tb_outbox (db_tables (tx_db (publish t))))
      with (overlay (wr_outbox (tx_writes t)) (tb_outbox (db_tables (tx_db t)))).
    rewrite overlay_lookup, (rl_outbox _ _ _ _ Hi), deletions_lookup. by case_decide.
  - change (tb_events (db_tables (tx_db (publish t)))) with (wr_events (tx_writes t) ∪ tb_events (db_tables (tx_db t))).
    rewrite (rl_events _ _ _ _ Hi). apply map_empty_union.
  - change (tb_dispatch (db_tables (tx_db (publish t))))
      with (overlay (wr_dispatch (tx_writes t)) (tb_dispatch (db_tables (tx_db t)))).
    rewrite (rl_dispatch _ _ _ _ Hi). apply map_eq. intros u. by rewrite overlay_lookup, lookup_empty.
Qed.

(** ** A pass *)

Definition untouched w w' : Prop := world_inv (pg_db w) (around w) w'.

(** The rows a pass claims of the outbox it sees. *)
Definition claimed w (batch : Z) rows : Prop :=
  ∃ d locked, outside (pg_script w) (pg_db w) d ∧ db_ok d ∧ (single_relay (pg_script w) → locked = ∅) ∧ 0 ≤ batch ∧
    rows = first_rows locked batch (tb_outbox (db_tables d)).

(** The sink has accepted what was claimed, and it is gone. *)
Definition delivered x (batch : Z) x' (n : Z) : Prop :=
  let w := rw_world x in
  ∃ rows envs d, claimed w batch rows ∧ rows ≠ [] ∧ decode_rows rows = Ok (rows.*1, envs) ∧
    sink_deliver envs (rw_sink x) = (Ok tt, rw_sink x') ∧
    outside (pg_script w) (pg_db w) d ∧ db_ok d ∧ db_grows (pg_db w) d ∧ taken rows d (pg_db (rw_world x')) ∧
    Forall fate_ok (pg_script (rw_world x')) ∧ pg_script (rw_world x') ⊆ pg_script w ∧
    n = Z.min (Z.of_nat (length envs)) U32_MAX.

(** Why a pass may fail when no round trip does. *)
Inductive relay_excuse x (batch : Z) (e : RelayError) x' : Prop :=
| excuse_limit : batch < 0 → e = relay_backend negative_limit → rw_sink x' = rw_sink x → relay_excuse x batch e x'
| excuse_decode rows : claimed (rw_world x) batch rows → decode_rows rows = Err e → rw_sink x' = rw_sink x →
    relay_excuse x batch e x'
| excuse_sink rows seqs envs e0 : claimed (rw_world x) batch rows → decode_rows rows = Ok (seqs, envs) →
    sink_deliver envs (rw_sink x) = (Err e0, rw_sink x') → e = Relay_Sink e0 → relay_excuse x batch e x'.

Definition relay_outcome x (batch : Z) (r : result Z RelayError) x' : Prop :=
  match r with
  | Ok n => (n = 0 ∧ untouched (rw_world x) (rw_world x') ∧ rw_sink x' = rw_sink x ∧ claimed (rw_world x) batch []) ∨
      delivered x batch x' n
  | Err e => (untouched (rw_world x) (rw_world x') ∧ (calm (around (rw_world x)) → relay_excuse x batch e x')) ∨
      ∃ e0 n, AnswerLost e0 ∈ pg_script (rw_world x) ∧ e = relay_backend e0 ∧ delivered x batch x' n
  | Panic => untouched (rw_world x) (rw_world x') ∧
      ∃ rows seqs envs, claimed (rw_world x) batch rows ∧ decode_rows rows = Ok (seqs, envs) ∧
        sink_deliver envs (rw_sink x) = (Panic, rw_sink x')
  end.

(** ** A pass, by its parts *)

Lemma relaying_begin w :
  db_ok (pg_db w) → Forall fate_ok (pg_script w) → relaying w [] ∅ (Tx_mk w no_writes).
Proof. intros Hok Hf. split; try done. by intros k ob ?%elem_of_nil. Qed.

Lemma first_rows_in locked batch m k ob : (k, ob) ∈ first_rows locked batch m → m !! k = Some ob.
Proof.
  intros Hin. apply elem_of_take in Hin as (i & Hi & _). apply list_elem_of_lookup_2 in Hi.
  rewrite order_by_perm, list_elem_of_filter, elem_of_map_to_list in Hi. apply Hi.
Qed.

Lemma wp_claim_rows w t batch (Q : list (Z * OutboxRow) → Tx → Prop) (X : SqlxError → Tx → Prop) :
  relaying w [] ∅ t →
  (∀ rows t', claimed w batch rows → relaying w rows ∅ t' → Q rows t') →
  (∀ e t', (calm (around w) → batch < 0 ∧ e = negative_limit) → relaying w [] ∅ t' → X e t') →
  wp (sql_claim_outbox batch) t Q X.
Proof.
  intros Hi HQ HX. eapply wp_relay_trip; [exact Hi| |].
  2: { intros e t' Hnc Hi'. by apply HX. }
  clear t Hi. intros _ locked t Hlk Hi. destruct (Z.ltb_spec batch 0) as [Hneg|Hpos].
  { apply wp_err, HX; [done|exact Hi]. }
  apply wp_bind, wp_get, wp_bind, wp_modify, wp_ret.
  assert (tb_outbox (tx_view t) = tb_outbox (db_tables (tx_db t))) as ->.
  { change (tb_outbox (tx_view t)) with (overlay (wr_outbox (tx_writes t)) (tb_outbox (db_tables (tx_db t)))).
    rewrite (rl_outbox _ _ _ _ Hi). apply map_eq. intros k. by rewrite overlay_lookup, lookup_empty. }
  apply HQ.
  - exists (tx_db t), locked. pose proof (rl_world _ _ _ _ Hi) as Hw.
    split_and!; [apply (wi_outside Hw)|apply (wi_db Hw)|done|done|done].
  - destruct Hi as [Hw ????]. split; try done. intros k ob Hk. split; [|by eapply first_rows_in].
    simpl. apply elem_of_union_l, elem_of_list_to_set, list_elem_of_fmap. by exists (k, ob).
Qed.

Lemma wp_delete_rows w rows t (Q : unit → Tx → Prop) (X : SqlxError → Tx → Prop) :
  relaying w rows ∅ t →
  (∀ t', relaying w rows (deletions rows.*1) t' → Q tt t') →
  (∀ e t', ¬ calm (around w) → relaying w rows ∅ t' → X e t') →
  wp (sql_delete_outbox rows.*1) t Q X.
Proof.
  intros Hi HQ HX. eapply wp_relay_trip; [exact Hi| |done]. clear t Hi. intros _ _ t _ Hi. apply wp_modify, HQ.
  assert (Hfold : ∀ ks wr, wr_events (foldr (λ k, write_outbox k None) wr ks) = wr_events wr ∧
    wr_dispatch (foldr (λ k, write_outbox k None) wr ks) = wr_dispatch wr ∧
    wr_locked_outbox (foldr (λ k, write_outbox k None) wr ks) = wr_locked_outbox wr ∧
    wr_outbox (foldr (λ k, write_outbox k None) wr ks) = foldr (λ k, <[k := None]>) (wr_outbox wr) ks).
  { intros ks wr. induction ks as [|k ks (?&?&?&IH)]; simpl; [done|]. by rewrite IH. }
  destruct (Hfold rows.*1 (tx_writes t)) as (He & Hd & Hl & Ho). destruct Hi as [Hw Hev Hdi Hob Hr].
  split; simpl; [exact Hw|by rewrite He|by rewrite Hd|by rewrite Ho, Hob|by rewrite Hl].
Qed.

Lemma decode_keys rows seqs envs : decode_rows rows = Ok (seqs, envs) → seqs = rows.*1.
Proof.
  revert seqs envs. induction rows as [|[k ob] rows IH]; intros seqs envs; simpl; [by intros [= <- <-]|].
  destruct (envelope_from_value _); simpl; [|done]. destruct (decode_rows rows) as [[ks es]| |]; simpl; [|done..].
  intros [= <- <-]. f_equal. by eapply IH.
Qed.

Lemma decode_length rows seqs envs : decode_rows rows = Ok (seqs, envs) → length envs = length rows.
Proof.
  revert seqs envs. induction rows as [|[k ob] rows IH]; intros seqs envs; simpl; [by intros [= <- <-]|].
  destruct (envelope_from_value _); simpl; [|done]. destruct (decode_rows rows) as [[ks es]| |]; simpl; [|done..].
  intros [= <- <-]. simpl. f_equal. by eapply IH.
Qed.

Lemma decode_no_panic rows : decode_rows rows ≠ Panic.
Proof.
  induction rows as [|[k ob] rows IH]; simpl; [done|]. destruct (envelope_from_value _); simpl; [|done].
  by destruct (decode_rows rows).
Qed.

Lemma relaying_untouched w rows dels t : relaying w rows dels t → untouched w (tx_world t).
Proof. by intros []. Qed.

Lemma with_relay_run {E T : Type} (f : ST (RelayTx G C S) E T) (P : result T E → RelayWorld → Prop) x r x' :
  wpt f (RelayTx_mk (Tx_mk (rw_world x) no_writes) (rw_sink x))
    (λ a y, P (Ok a) (RelayWorld_mk (tx_world (rt_tx y)) (rt_sink y)))
    (λ e y, P (Err e) (RelayWorld_mk (tx_world (rt_tx y)) (rt_sink y)))
    (λ y, P Panic (RelayWorld_mk (tx_world (rt_tx y)) (rt_sink y))) →
  with_relay_tx f x = (r, x') → P r x'.
Proof. unfold wpt, with_relay_tx. destruct (f _) as [[] y]; by intros ? [= <- <-]. Qed.

(** The part after the sink has accepted. *)
Lemma wp_take x batch rows envs y (Q : Z → RelayTx G C S → Prop) (X : RelayError → RelayTx G C S → Prop) :
  let w := rw_world x in
  let at_end (y : RelayTx G C S) := RelayWorld_mk (tx_world (rt_tx y)) (rt_sink y) in
  relaying w rows ∅ (rt_tx y) → claimed w batch rows → rows ≠ [] → decode_rows rows = Ok (rows.*1, envs) →
  sink_deliver envs (rw_sink x) = (Ok tt, rt_sink y) →
  (∀ n y', delivered x batch (at_end y') n → Q n y') →
  (∀ e y', ¬ calm (around w) → untouched w (tx_world (rt_tx y')) → X e y') →
  (∀ e n y', AnswerLost e ∈ pg_script w → delivered x batch (at_end y') n → X (relay_backend e) y') →
  wp (let! _ := st_map_err relay_backend (on_tx (sql_delete_outbox rows.*1)) in
      let! _ := st_map_err relay_backend (on_tx sql_commit) in
      st_ret (Z.min (Z.of_nat (length envs)) U32_MAX)) y Q X.
Proof.
  intros w at_end Hi Hcl Hne Hdec Hsink HQ HX HL. destruct y as [t s]. simpl in *.
  apply wp_bind, wp_map_err, wp_zoom. eapply wp_delete_rows; [exact Hi| |].
  2: { intros e t' Hnc Hi'. apply HX; [done|]. by eapply relaying_untouched. }
  simpl. clear t Hi. intros t Hi. apply wp_bind, wp_map_err, wp_zoom. simpl.
  assert (Hdone : ∀ t', relaying w rows (deletions rows.*1) t' →
    delivered x batch (RelayWorld_mk (tx_world (publish t')) s) (Z.min (Z.of_nat (length envs)) U32_MAX)).
  { intros t' Hi'. pose proof (rl_world _ _ _ _ Hi') as [Hf Hok Hg _ Hs Ho]. exists rows, envs, (tx_db t').
    split_and!; try done. by eapply publish_taken. }
  unfold wp, sql_commit. pose proof (rl_world _ _ _ _ Hi) as Hw.
  destruct (pg_script (tx_world t)) as [|f script] eqn:Hs; [by apply HQ, Hdone|].
  assert (f ∈ pg_script w) as Hin by (apply (wi_script Hw); rewrite Hs; by left).
  pose proof (wi_fates Hw) as Hf. rewrite Hs in Hf. apply Forall_cons in Hf as [Hf _].
  apply relaying_next in Hi. destruct f as [others jobs outbox|e|e].
  - by eapply HQ, Hdone, relaying_interfere.
  - apply HX; [|by eapply relaying_untouched]. intros Hc. by destruct (Hc _ Hin) as (? & ? & ? & ?).
  - eapply HL; [done|]. by apply Hdone.
Qed.

Lemma relay_run batch x r x' :
  db_ok (pg_db (rw_world x)) → Forall fate_ok (pg_script (rw_world x)) →
  relay_once batch x = (r, x') → relay_outcome x batch r x'.
Proof.
  intros Hok Hf. set (w := rw_world x). apply with_relay_run.
  pose proof (relaying_begin w Hok Hf) as Hi0.
  apply wpt_step, wp_map_err, wp_zoom. eapply wp_relay_trip; [exact Hi0| |].
  2: { intros e t Hnc Hi. left. split; [by eapply relaying_untouched|done]. }
  intros _ _ t _ Hi. apply wp_ret. apply wpt_step, wp_map_err, wp_zoom. eapply wp_claim_rows; [exact Hi| |].
  2: { intros e t' Hex Hi'. left. split; [by eapply relaying_untouched|]. intros Hc.
    destruct (Hex Hc) as [? ->]. by apply excuse_limit. }
  simpl. clear t Hi. intros rows t Hcl Hi. destruct rows as [|row rows'] eqn:Hrows.
  { apply wp_wpt, wp_ret. left. split_and!; [done|by eapply relaying_untouched|done|done]. }
  rewrite <-Hrows in *. assert (rows ≠ []) as Hne by by rewrite Hrows. clear Hrows row rows'.
  pose proof (decode_no_panic rows) as Hnp.
  apply wpt_step, wp_lift. destruct (decode_rows rows) as [[seqs envs]|e|] eqn:Hdec; [|simpl|done].
  2: { left. split; [by eapply relaying_untouched|]. intros _. by eapply excuse_decode. }
  pose proof (decode_keys _ _ _ Hdec) as ->. simpl.
  apply wpt_bind. unfold wpt at 1, on_sink, st_map_err, st_zoom. simpl.
  destruct (sink_deliver envs (rw_sink x)) as [[[]|e|] s] eqn:Hsink; simpl.
  - apply wp_wpt. eapply (wp_take x batch); simpl; try done.
    + intros n y' Hd. by right.
    + intros e y' Hnc Hu. left. done.
    + intros e n y' Hlost Hd. right. by exists e, n.
  - left. split; [by eapply relaying_untouched|]. intros _. by eapply excuse_sink.
  - split; [by eapply relaying_untouched|]. by eexists _, _, _.
Qed.

(** Of the sink, a pass leaves what it was or what one delivery made of it. *)
Definition sink_after (s s' : S) : Prop := s' = s ∨ ∃ envs, (sink_deliver envs s).2 = s'.

Lemma bind_sink {E T U : Type} (m : ST (RelayTx G C S) E T) (k : T → ST (RelayTx G C S) E U) (P Q : S → Prop) y :
  (∀ s, P s → Q s) → P (rt_sink (m y).2) → (∀ a y, P (rt_sink y) → Q (rt_sink (k a y).2)) →
  Q (rt_sink (st_bind m k y).2).
Proof. intros HPQ Hm Hk. unfold st_bind. destruct (m y) as [[a|e|] y']; [by apply Hk|by apply HPQ..]. Qed.

Lemma on_tx_sink {E F T : Type} (f : E → F) (m : ST Tx E T) y :
  rt_sink (st_map_err f (on_tx (S:=S) m) y).2 = rt_sink y.
Proof. unfold st_map_err, on_tx, st_zoom. by destruct (m (rt_tx y)). Qed.

Lemma relay_sink batch x : sink_after (rw_sink x) (rw_sink (relay_once batch x).2).
Proof.
  unfold relay_once, with_relay_tx. set (y := RelayTx_mk _ _).
  match goal with |- context [let '(_, _) := ?m y in _] => enough (sink_after (rw_sink x) (rt_sink (m y).2)) by by destruct (m y) end.
  set (same := λ s, s = rw_sink x). assert (Hs : ∀ s, same s → sink_after (rw_sink x) s) by (intros s ->; by left).
  apply (bind_sink _ _ same); [done|by rewrite on_tx_sink|]. intros _ y1 H1.
  apply (bind_sink _ _ same); [done|by rewrite on_tx_sink|]. intros rows y2 H2. destruct rows as [|row rows]; [by apply Hs|].
  apply (bind_sink _ _ same); [done|done|]. intros [seqs envs] y3 H3.
  apply (bind_sink _ _ (sink_after (rw_sink x))); [done| |].
  { right. exists envs. unfold st_map_err, on_sink, st_zoom. rewrite H3. by destruct (sink_deliver envs (rw_sink x)). }
  intros _ y4 H4. apply (bind_sink _ _ (sink_after (rw_sink x))); [done|by rewrite on_tx_sink|]. intros _ y5 H5.
  apply (bind_sink _ _ (sink_after (rw_sink x))); [done|by rewrite on_tx_sink|done].
Qed.
Lemma relay_sound batch x r x' :
  db_ok (pg_db (rw_world x)) → Forall fate_ok (pg_script (rw_world x)) → relay_once batch x = (r, x') →
  db_ok (pg_db (rw_world x')) ∧ db_grows (pg_db (rw_world x)) (pg_db (rw_world x')).
Proof.
  intros Hok Hf Hrun. apply relay_run in Hrun; [|done..].
  assert (Hdel : ∀ n, delivered x batch x' n → db_ok (pg_db (rw_world x')) ∧ db_grows (pg_db (rw_world x)) (pg_db (rw_world x'))).
  { intros n (rows & envs & d & _ & _ & _ & _ & _ & Hd & Hg & Ht & _). destruct (taken_ok _ _ _ Ht Hd). split; [done|by etrans]. }
  destruct r as [n|e|]; simpl in Hrun.
  - destruct Hrun as [(_ & [] & _)|Hd]; [done|by eapply Hdel].
  - destruct Hrun as [[[] _]|(e0 & n & _ & _ & Hd)]; [done|by eapply Hdel].
  - by destruct Hrun as [[] _].
Qed.

(** ** Promises *)

(** C10: A pass of the relay, with other sessions at work and whatever goes wrong:
    it leaves the outbox as it was, and has reported no delivery, or it has
    removed exactly the rows whose envelopes the sink has accepted, and
    reports their number, unless the answer of the commit was lost. *)
Theorem relay_takes_only_accepted batch x r x' :
  db_ok (pg_db (rw_world x)) → Forall fate_ok (pg_script (rw_world x)) → relay_once batch x = (r, x') →
  let d0 := pg_db (rw_world x) in let d' := pg_db (rw_world x') in
  db_ok d' ∧ db_grows d0 d' ∧
  ((outside (pg_script (rw_world x)) d0 d' ∧ ∀ n, r = Ok n → n = 0 ∧ rw_sink x' = rw_sink x) ∨
   ∃ rows envs d, rows ≠ [] ∧ decode_rows rows = Ok (rows.*1, envs) ∧
     sink_deliver envs (rw_sink x) = (Ok tt, rw_sink x') ∧
     outside (pg_script (rw_world x)) d0 d ∧ taken rows d d' ∧
     (r = Ok (Z.min (Z.of_nat (length envs)) U32_MAX) ∨
      ∃ e, AnswerLost e ∈ pg_script (rw_world x) ∧ r = Err (relay_backend e))).
Proof.
  intros Hok Hf Hrun d0 d'. destruct (relay_sound _ _ _ _ Hok Hf Hrun). split; [done|]. split; [done|].
  apply relay_run in Hrun; [|done..]. destruct r as [n|e|]; simpl in Hrun.
  - destruct Hrun as [(-> & Hu & Hs & _)|(rows & envs & d & _ & Hne & Hdec & Hs & Ho & _ & _ & Ht & _ & _ & ->)];
      [left|right; exists rows, envs, d; auto 7]. split; [apply (wi_outside Hu)|]. by intros n [= <-].
  - destruct Hrun as [[Hu _]|(e0 & n & Hl & -> & (rows & envs & d & _ & Hne & Hdec & Hs & Ho & _ & _ & Ht & _))];
      [left; by split; [apply (wi_outside Hu)|]|right]. exists rows, envs, d. split_and!; try done. right. by exists e0.
  - left. by split; [apply (wi_outside (proj1 Hrun))|].
Qed.

(** Rows are claimed from the front of the outbox. *)
Lemma first_rows_prefix batch (m : gmap Z OutboxRow) j k ob k' ob' :
  first_rows ∅ batch m !! j = Some (k, ob) → m !! k' = Some ob' → k' < k →
  ∃ i, (i < j)%nat ∧ first_rows ∅ batch m !! i = Some (k', ob').
Proof.
  unfold first_rows. set (l := order_by _ _). intros Hj Hk' Hlt.
  apply lookup_take_Some in Hj as [Hj Hjb].
  assert ((k', ob') ∈ l) as Hin.
  { unfold l. rewrite order_by_perm, list_elem_of_filter, elem_of_map_to_list. split; [by apply not_elem_of_empty|done]. }
  apply list_elem_of_lookup in Hin as [i Hi]. exists i.
  assert (i < j)%nat as Hij.
  { destruct (decide (i < j)%nat) as [?|Hge]; [done|exfalso]. destruct (decide (i = j)) as [->|Hne].
    - rewrite Hi in Hj. injection Hj as -> ->. lia.
    - assert (leb_rel outbox_leb (k, ob) (k', ob')) as Hl.
      { eapply (sorted_lookup _ l j i); [|lia|done|done]. apply order_by_sorted; intros a b; unfold outbox_leb; rewrite ?Z.leb_le; lia. }
      unfold leb_rel, outbox_leb in Hl. simpl in Hl. apply Z.leb_le in Hl. lia. }
  split; [done|]. apply lookup_take_Some. split; [done|lia].
Qed.

Lemma db_ok_unique d : db_ok d → ∀ id, NoDup (event_id <$> db_stream d id).
Proof. intros Hd id. destruct (db_stream_held d id Hd) as [->|Hh]; [constructor|apply Hh]. Qed.

(** C24: As long as no other relay holds rows of the outbox, what a pass delivers
    is closed downwards in each stream: before an envelope the sink gets
    every envelope of the same stream that is in the outbox and precedes
    it. *)
Theorem relay_keeps_stream_order batch x n x' :
  db_ok (pg_db (rw_world x)) → Forall fate_ok (pg_script (rw_world x)) → single_relay (pg_script (rw_world x)) →
  relay_once batch x = (Ok n, x') →
  ∃ d rows envs, outside (pg_script (rw_world x)) (pg_db (rw_world x)) d ∧
    n = Z.min (Z.of_nat (length rows)) U32_MAX ∧ decode_rows rows = Ok (rows.*1, envs) ∧
    (rows = [] ∨ sink_deliver envs (rw_sink x) = (Ok tt, rw_sink x')) ∧
    ∀ j k ob env, rows !! j = Some (k, ob) → announces d ob env →
      ∀ k' ob' env', tb_outbox (db_tables d) !! k' = Some ob' → ob_stream_id ob' = ob_stream_id ob →
        announces d ob' env' → envelope_version env' < envelope_version env →
        ∃ i, (i < j)%nat ∧ rows !! i = Some (k', ob').
Proof.
  intros Hok Hf Hsg Hrun. apply relay_run in Hrun; [|done..]. simpl in Hrun.
  assert (Hord : ∀ rows, claimed (rw_world x) batch rows → ∃ d, outside (pg_script (rw_world x)) (pg_db (rw_world x)) d ∧
    ∀ j k ob env, rows !! j = Some (k, ob) → announces d ob env →
      ∀ k' ob' env', tb_outbox (db_tables d) !! k' = Some ob' → ob_stream_id ob' = ob_stream_id ob →
        announces d ob' env' → envelope_version env' < envelope_version env →
        ∃ i, (i < j)%nat ∧ rows !! i = Some (k', ob')).
  { intros rows (d & locked & Ho & Hd & Hl & _ & ->). rewrite (Hl Hsg). exists d. split; [done|].
    intros j k ob env Hj Ha k' ob' env' Hk' Hst Ha' Hlt. apply (first_rows_prefix _ _ j k ob); [done|done|].
    assert (tb_outbox (db_tables d) !! k = Some ob) as Hk by (eapply first_rows_in, list_elem_of_lookup_2, Hj).
    destruct (Z.lt_trichotomy k' k) as [?|[->|Hgt]]; [done|exfalso..].
    - rewrite Hk in Hk'. injection Hk' as ->. rewrite (announces_unique d ob' env env') in Hlt;
        [lia|by apply db_ok_unique|done..].
    - pose proof (ok_outbox_order _ Hd k k' ob ob' env env' ltac:(lia) Hk Hk' (eq_sym Hst) Ha Ha'). lia. }
  destruct Hrun as [(-> & _ & _ & Hcl)|(rows & envs & d & Hcl & _ & Hdec & Hs & _ & _ & _ & _ & _ & _ & ->)].
  - destruct (Hord _ Hcl) as (d & Ho & Hrows). exists d, [], []. by split_and!; [..|left|].
  - destruct (Hord _ Hcl) as (d1 & Ho & Hrows). exists d1, rows, envs. split_and!; [done| |done|by right|done].
    by rewrite (decode_length _ _ _ Hdec).
Qed.
End pass.

(** ** Draining *)

Section drain.
Context `{ext : Externals} {pg : Postgres} {G C : Type} {S : Type} `{!EventSink S}.
Local Abbreviation RelayWorld := (RelayWorld G C S).
Implicit Types (x : RelayWorld) (m : gmap Z OutboxRow) (rows : list (Z * OutboxRow)).

(** The outbox in order. *)
Definition queue_of m : list (Z * OutboxRow) := order_by outbox_leb (map_to_list m).

(** Every row reads as an envelope. *)
Definition readable m : Prop := map_Forall (λ _ ob, ∃ env, envelope_from_value (ob_envelope ob) = inl env) m.

(** From here on the sink takes whatever it is given. *)
Definition accepting (s : S) : Prop :=
  ∃ P : S → Prop, P s ∧ ∀ envs s, P s → ∃ s', sink_deliver envs s = (Ok tt, s') ∧ P s'.

Lemma accepting_next envs s s' : accepting s → sink_deliver envs s = (Ok tt, s') → accepting s'.
Proof. intros (P & Hs & HP) Hd. destruct (HP envs s Hs) as (s1 & Hd1 & H1). exists P. split; [congruence|done]. Qed.

(** Batches delivered one after the other. *)
Fixpoint deliver_all (chunks : list (list EventEnvelope)) : ST S SinkError unit :=
  match chunks with
  | [] => st_ret tt
  | envs :: chunks => let! _ := sink_deliver envs in deliver_all chunks
  end.

Lemma outbox_leb_total a b : outbox_leb a b = true ∨ outbox_leb b a = true.
Proof. unfold outbox_leb. rewrite !Z.leb_le. lia. Qed.

Lemma outbox_leb_trans a b c : outbox_leb a b = true → outbox_leb b c = true → outbox_leb a c = true.
Proof. unfold outbox_leb. rewrite !Z.leb_le. lia. Qed.

Lemma first_rows_queue batch m : first_rows ∅ batch m = take (Z.to_nat batch) (queue_of m).
Proof. unfold first_rows, queue_of. f_equal. f_equal. apply list_filter_all. apply Forall_forall. by intros ? _ ?%elem_of_empty. Qed.

Lemma queue_unique m rows :
  rows ≡ₚ map_to_list m → StronglySorted (leb_rel outbox_leb) rows → queue_of m = rows.
Proof.
  intros Hp Hs. apply order_by_unique; [apply outbox_leb_total|apply outbox_leb_trans|done|done|].
  intros [k1 a] [k2 b] H1%elem_of_map_to_list H2%elem_of_map_to_list. unfold outbox_leb. rewrite !Z.leb_le. simpl.
  intros ? ?. assert (k1 = k2) as <- by lia. congruence.
Qed.

Lemma queue_sorted m : StronglySorted (leb_rel outbox_leb) (queue_of m).
Proof. apply order_by_sorted; [apply outbox_leb_total|apply outbox_leb_trans]. Qed.

Lemma elem_of_queue m k ob : (k, ob) ∈ queue_of m ↔ m !! k = Some ob.
Proof. unfold queue_of. by rewrite order_by_perm, elem_of_map_to_list. Qed.

Lemma queue_length m : length (queue_of m) = size m.
Proof. unfold queue_of. rewrite order_by_perm. apply length_map_to_list. Qed.

Lemma queue_empty : queue_of ∅ = [].
Proof. apply nil_length_inv. by rewrite queue_length, map_size_empty. Qed.

(** Without its first rows, the outbox is the rest of the queue. *)
Lemma queue_drop n m m' :
  (∀ k, m' !! k = if decide (k ∈ (take n (queue_of m)).*1) then None else m !! k) →
  queue_of m' = drop n (queue_of m).
Proof.
  intros Hm'. apply queue_unique.
  - assert (NoDup (queue_of m).*1) as Hnd by (unfold queue_of; rewrite order_by_perm; apply NoDup_fst_map_to_list).
    rewrite <-(take_drop n (queue_of m)), fmap_app in Hnd. apply NoDup_app in Hnd as (_ & Hdis & Hnd).
    apply NoDup_Permutation; [by eapply NoDup_fmap_1|apply NoDup_map_to_list|].
    intros [k ob]. rewrite elem_of_map_to_list, Hm'.
    pose proof (elem_of_queue m k ob) as Hin.
    rewrite <-(take_drop n (queue_of m)), elem_of_app in Hin. case_decide as Hk.
    + split; [|done]. intros Hd. exfalso. apply (Hdis k Hk). apply list_elem_of_fmap. by exists (k, ob).
    + rewrite <-Hin. split; [by right|]. intros [Ht|?]; [|done]. exfalso. apply Hk, list_elem_of_fmap. by exists (k, ob).
  - pose proof (queue_sorted m) as Hs. rewrite <-(take_drop n (queue_of m)) in Hs. by apply StronglySorted_app_1_r in Hs.
Qed.

Lemma decode_total rows :
  Forall (λ row, ∃ env, envelope_from_value (ob_envelope row.2) = inl env) rows →
  ∃ envs, decode_rows rows = Ok (rows.*1, envs).
Proof.
  induction 1 as [|[k ob] rows [env He] _ [envs IH]]; [by exists []|]. exists (env :: envs). simpl in *.
  by rewrite He, IH.
Qed.

Lemma decode_app rows1 rows2 envs1 envs2 :
  decode_rows rows1 = Ok (rows1.*1, envs1) → decode_rows rows2 = Ok (rows2.*1, envs2) →
  decode_rows (rows1 ++ rows2) = Ok ((rows1 ++ rows2).*1, envs1 ++ envs2).
Proof.
  revert envs1. induction rows1 as [|[k ob] rows1 IH]; intros envs1; simpl; [by intros [= <-]|].
  destruct (envelope_from_value _) as [env|]; simpl; [|done].
  destruct (decode_rows rows1) as [[ks es]| |] eqn:Hd; simpl; [|done..]. intros [= -> <-] H2.
  by rewrite (IH es).
Qed.

(** A pass of a relay that nothing disturbs. *)
Lemma relay_pass_alone x :
  let m := tb_outbox (db_tables (pg_db (rw_world x))) in
  let rows := take 64 (queue_of m) in
  db_ok (pg_db (rw_world x)) → pg_script (rw_world x) = [] → accepting (rw_sink x) → readable m →
  ∃ x' n, relay_once RELAY_BATCH x = (Ok n, x') ∧ db_ok (pg_db (rw_world x')) ∧ pg_script (rw_world x') = [] ∧
    queue_of (tb_outbox (db_tables (pg_db (rw_world x')))) = drop 64 (queue_of m) ∧
    ∃ envs, decode_rows rows = Ok (rows.*1, envs) ∧
      (rows = [] ∧ rw_sink x' = rw_sink x ∨ sink_deliver envs (rw_sink x) = (Ok tt, rw_sink x')).
Proof.
  intros m rows Hok Hsc Hacc Hread. destruct (relay_once RELAY_BATCH x) as [r x'] eqn:Hrun.
  apply relay_run in Hrun; [|done|by rewrite Hsc].
  assert (Hcl : ∀ rows', claimed (rw_world x) RELAY_BATCH rows' → rows' = rows).
  { intros rows' (d & locked & Ho & _ & Hl & _ & ->). rewrite Hsc in *. apply outside_alone in Ho. rewrite Ho, Hl.
    - by rewrite first_rows_queue.
    - by intros ? ? ? ?%elem_of_nil. }
  destruct (decode_total rows) as [envs Hdec].
  { apply Forall_forall. intros [k ob] (i & Hi & _)%elem_of_take. apply list_elem_of_lookup_2 in Hi.
    apply elem_of_queue in Hi. by apply (Hread k ob). }
  assert (Halone : calm (around (rw_world x))) by (apply alone_calm; done).
  destruct r as [n|e|]; simpl in Hrun.
  - destruct Hrun as [(-> & Hu & Hs & Hnil%Hcl)|(rows' & envs' & d & Hc & Hne & Hdec' & Hs & Ho & Hd & _ & Ht & _ & Hsub & ->)].
    + destruct (wi_alone Hu Hsc) as [Hs' Ht]. exists x', 0. split; [done|]. split; [apply Hu|]. split; [done|]. split.
      * rewrite Ht. fold m. subst rows. symmetry in Hnil. apply (f_equal length) in Hnil. rewrite length_take in Hnil.
        simpl in Hnil. destruct (queue_of m); [done|simpl in Hnil; lia].
      * exists envs. split; [done|]. by left.
    + apply Hcl in Hc as ->. rewrite Hsc in *. apply list_nil_subseteq in Hsub. apply outside_alone in Ho.
      destruct (taken_ok _ _ _ Ht Hd) as [Hok' _]. exists x'. eexists. split; [done|]. split; [done|]. split; [done|]. split.
      * apply queue_drop. intros k. by rewrite (tk_outbox _ _ _ Ht), Ho.
      * exists envs'. split; [done|]. by right.
  - exfalso. destruct Hrun as [[_ Hex]|(e0 & n & Hl & _)]; [|rewrite Hsc in Hl; by apply elem_of_nil in Hl].
    destruct (Hex Halone) as [Hneg _ _|rows' Hc%Hcl Hd _|rows' seqs envs' e0 _ _ Hs _]; [done|congruence|].
    destruct Hacc as (P & HP & Hall). destruct (Hall envs' _ HP) as (s' & Hs' & _). congruence.
  - exfalso. destruct Hrun as (_ & rows' & seqs & envs' & _ & _ & Hs).
    destruct Hacc as (P & HP & Hall). destruct (Hall envs' _ HP) as (s2 & Hs2 & _). congruence.
Qed.

(** C23: A sink that accepts gets everything: with enough ticks for its size the
    outbox is empty, and the sink has been given the envelopes of its rows,
    each once, in the order of the outbox; no error is printed. *)
Theorem relay_drains_outbox ticks err x :
  let m := tb_outbox (db_tables (pg_db (rw_world x))) in
  db_ok (pg_db (rw_world x)) → pg_script (rw_world x) = [] → accepting (rw_sink x) → readable m →
  Z.of_nat (size m) ≤ RELAY_BATCH * Z.of_nat ticks →
  ∃ envs chunks x', relay_ticker ticks err x = (err, x') ∧
    decode_rows (queue_of m) = Ok ((queue_of m).*1, envs) ∧ concat chunks = envs ∧
    tb_outbox (db_tables (pg_db (rw_world x'))) = ∅ ∧
    deliver_all chunks (rw_sink x) = (Ok tt, rw_sink x').
Proof.
  revert x. induction ticks as [|ticks IH]; intros x m Hok Hsc Hacc Hread Hsize.
  { assert (m = ∅) as Hm by (apply map_size_empty_inv; lia). exists [], [], x. rewrite Hm, queue_empty. by split_and!. }
  destruct (relay_pass_alone x Hok Hsc Hacc Hread) as (x1 & n & Hrun & Hok1 & Hsc1 & Hq & envs & Hdec & Hsink).
  fold m in Hq, Hdec, Hsink. set (m1 := tb_outbox (db_tables (pg_db (rw_world x1)))) in *.
  destruct (IH x1 Hok1 Hsc1) as (envs1 & chunks & x2 & Hrun2 & Hdec1 & Hcat & Hempty & Hall).
  { destruct Hsink as [[_ ->]|Hs]; [done|by eapply accepting_next]. }
  { intros k ob Hk. apply (Hread k). apply elem_of_queue. rewrite <-(take_drop 64 (queue_of m)), <-Hq.
    apply elem_of_app. right. by apply elem_of_queue. }
  { fold m1. rewrite <-queue_length, Hq, length_drop, queue_length. unfold RELAY_BATCH in *. lia. }
  fold m1 in Hdec1. exists (envs ++ envs1). simpl. unfold relay_tick. rewrite Hrun.
  assert (decode_rows (queue_of m) = Ok ((queue_of m).*1, envs ++ envs1)) as Hd.
  { rewrite <-(take_drop 64 (queue_of m)). apply decode_app; [done|]. by rewrite <-Hq. }
  destruct Hsink as [[Hnil Hs]|Hs].
  - assert (envs = []) as -> by (rewrite Hnil in Hdec; by injection Hdec). exists chunks, x2. by rewrite <-Hs.
  - exists (envs :: chunks), x2. split_and!; [done|done|by rewrite <-Hcat|done|]. simpl. unfold st_bind. by rewrite Hs.
Qed.
End drain.

(** ** Presence *)

Section presence.
Context `{ext : Externals} {pg : Postgres} {G C : Type}.

Lemma workers_sound f d : db_ok d → db_ok (set_workers f d) ∧ db_grows d (set_workers f d).
Proof.
  intros [? ? ? ? ? ? ?]. split; split; try done. intros id s Hs. exists []. by rewrite app_nil_r.
Qed.

(** Presence touches nothing but its own table. *)
Lemma presence_sound attempt worker queue (p : PgPresence G C) :
  let d := pg_db (pp_world p) in let d' := pg_db (pp_world (PgPresence_seen attempt worker queue p)) in
  db_ok d → db_ok d' ∧ db_grows d d'.
Proof. intros d d' Hd. subst d d'. destruct attempt as [|[now|]|e|now]; simpl; try done; by apply workers_sound. Qed.
End presence.

(** ** Notifications *)

Section notifier.
Context `{ext : Externals} {pg : Postgres} {G C : Type}.
Implicit Types (w : PgWorld G C) (d : Db).

Lemma same_tables_sound d d' :
  db_tables d' = db_tables d → db_seqs d' = db_seqs d → db_ok d → db_ok d' ∧ db_grows d d'.
Proof.
  intros Ht Hs Hd. assert (Hlog : db_log d' = db_log d) by (unfold db_log; by rewrite Ht).
  split.
  - destruct Hd. split; rewrite ?Hlog, ?Ht, ?Hs; try done; unfold announces, db_stream; by rewrite ?Hlog.
  - split; rewrite ?Hlog, ?Ht, ?Hs; try done. intros id s Hls. exists []. by rewrite app_nil_r.
Qed.

(** An empty transaction publishes what was there. *)
Lemma overlay_empty {K A : Type} `{Countable K} (m : gmap K A) : overlay ∅ m = m.
Proof. apply map_eq. intros k. by rewrite overlay_lookup, lookup_empty. Qed.

Lemma notify_publishes q (t : Tx G C) :
  tx_writes t = no_writes →
  db_tables (tx_db (publish (write (write_notify q) t))) = db_tables (tx_db t) ∧
  db_seqs (tx_db (publish (write (write_notify q) t))) = db_seqs (tx_db t) ∧
  db_notified (tx_db (publish (write (write_notify q) t))) = db_notified (tx_db t) ++ [q].
Proof.
  intros Hw. split; [|split; [done|simpl; by rewrite Hw]].
  change (db_tables (tx_db (publish (write (write_notify q) t))))
    with (view (write_notify q (tx_writes t)) (db_tables (tx_db t))).
  rewrite Hw. unfold view. simpl. rewrite map_empty_union, !overlay_empty. by destruct (db_tables (tx_db t)).
Qed.

Lemma notify_sound queue w :
  db_ok (pg_db w) → Forall fate_ok (pg_script w) →
  db_ok (pg_db (PgSignal_notify queue w)) ∧ db_grows (pg_db w) (pg_db (PgSignal_notify queue w)).
Proof.
  intros Hok Hf. unfold PgSignal_notify, autocommit.
  assert (Hfin : ∀ t : Tx G C, tx_writes t = no_writes → db_ok (tx_db t) → db_grows (pg_db w) (tx_db t) →
    let r := match (let! q := bind_text (QueueName_as_str queue) in st_modify (write (write_notify q))) t with
      | (Ok a, t) => (Ok a, tx_world (publish t)) | (r, t) => (r, tx_world t) end in
    db_ok (pg_db r.2) ∧ db_grows (pg_db w) (pg_db r.2)).
  { intros t Hw Hd Hg. unfold st_bind. rewrite bind_text_run. destruct (text_ok _); [|by split]. simpl.
    destruct (notify_publishes (QueueName_as_str queue) t Hw) as (Ht & Hs & _).
    destruct (same_tables_sound _ _ Ht Hs Hd). split; [done|by etrans]. }
  destruct (pg_script w) as [|[others jobs outbox|e|e] script] eqn:Hsc.
  - by apply Hfin.
  - apply Forall_cons in Hf as [Hf _]. apply Hfin; unfold interfere; destruct (compatible _ _ _);
      try done; by apply Hf.
  - by split.
  - by apply (Hfin (next_script (Tx_mk w no_writes))).
Qed.

(** A notification that nothing disturbs is the next one the listener gets,
    and who waits for the queue is woken by it. *)
Theorem notify_reaches_waiters queue w l :
  pg_script w = [] → text_ok (QueueName_as_str queue) = true →
  let w' := PgSignal_notify queue w in
  db_tables (pg_db w') = db_tables (pg_db w) ∧
  ∃ sent, db_notified (pg_db w') = db_notified (pg_db w) ++ sent ∧
    ln_sent (listen (Notification <$> sent) l) = ln_sent l ++ sent ∧
    wait queue (Payload <$> sent) = Some 1%nat.
Proof.
  intros Hsc Hq w'. destruct (notify_publishes (QueueName_as_str queue) (Tx_mk w no_writes) eq_refl) as (Ht & _ & Hn).
  assert (w' = tx_world (publish (write (write_notify (QueueName_as_str queue)) (Tx_mk w no_writes)))) as ->.
  { unfold w', PgSignal_notify, autocommit. rewrite Hsc. unfold st_bind. by rewrite bind_text_run, Hq. }
  split; [exact Ht|]. exists [QueueName_as_str queue]. split; [exact Hn|]. split; [done|].
  simpl. by rewrite decide_True.
Qed.
End notifier.
