(* ===== verification/PgNotify.v ===== *)
(** * An append that leaves a job pending announces its queue

    The projection of a pending job notifies its queue in the transaction of
    the append, so the notification is delivered exactly if and when the job
    becomes visible; whoever waits for the queue is woken by it. Statements
    are framed by what they do to the pending notifications: nothing, except
    for [sql_notify]. *)

From S2P Require Import Prelude Std Ids Retry Events Job Lifecycle Commands Ports UseCases Contract Kept.
From S2P Require Import Signal Postgres PgStore PgRows PgTx PgAppend PgInsert PgProject PgCommit PgPublish.

Open Scope string_scope.
Open Scope list_scope.
Open Scope Z_scope.

Create HintDb hush.

Section notify.
Context `{ext : Externals} {pg : Postgres} {G C : Type}.
Local Abbreviation Tx := (Tx G C).
Implicit Types (t : Tx) (id : JobId) (j : Job).

(** ** Frame *)

Section frame.
Context (undisturbed : Prop) (delivered : list string).

(** The transaction will deliver [ns]; without other sessions, nothing has
    been delivered since. *)
Definition will_notify (ns : list string) t : Prop :=
  wr_notify (tx_writes t) = ns ∧
  (undisturbed → pg_script (tx_world t) = [] ∧ db_notified (tx_db t) = delivered).

Definition hushed {E A : Type} (m : ST Tx E A) : Prop := ∀ ns t, will_notify ns t → will_notify ns (m t).2.

Lemma hushed_ret {E A : Type} (a : A) : hushed (st_ret (E:=E) a).
Proof. by intros ns t. Qed.

Lemma hushed_err {E A : Type} (e : E) : hushed (st_err (A:=A) e).
Proof. by intros ns t. Qed.

Lemma hushed_lift {E A : Type} (r : result A E) : hushed (st_lift r).
Proof. by intros ns t. Qed.

Lemma hushed_get {E : Type} : hushed (st_get (E:=E)).
Proof. by intros ns t. Qed.

Lemma hushed_bind {E A B : Type} (m : ST Tx E A) (k : A → ST Tx E B) :
  hushed m → (∀ a, hushed (k a)) → hushed (st_bind m k).
Proof.
  intros Hm Hk ns t Ht. unfold st_bind. specialize (Hm ns t Ht). destruct (m t) as [[a|e|] t1]; [|done..].
  by apply Hk.
Qed.

Lemma hushed_map_err {E F A : Type} (f : E → F) (m : ST Tx E A) : hushed m → hushed (st_map_err f m).
Proof. intros Hm ns t Ht. specialize (Hm ns t Ht). unfold st_map_err. by destruct (m t) as [[] ?]. Qed.

Lemma hushed_round_trip {A : Type} (body : gset Uuid → gset Z → ST Tx SqlxError A) :
  (∀ jobs outbox, hushed (body jobs outbox)) → hushed (round_trip body).
Proof.
  intros Hb ns t [Hn Ha]. unfold round_trip. destruct (pg_script (tx_world t)) as [|f script] eqn:Hs.
  { apply Hb. split; [done|]. intros Hu. by split; [|apply Ha]. }
  assert (Hno : ¬ undisturbed) by (intros Hu; by destruct (Ha Hu)).
  destruct f as [others jobs outbox|e|e]; [|by split..]. apply Hb. unfold interfere.
  destruct (compatible _ _ _); by split.
Qed.

Lemma hushed_seqs {E A : Type} (next : Tx → A * Tx) :
  (∀ t, tx_writes (next t).2 = tx_writes t ∧ pg_script (tx_world (next t).2) = pg_script (tx_world t) ∧
     db_notified (tx_db (next t).2) = db_notified (tx_db t)) → hushed (st_total (E:=E) next).
Proof.
  intros Hn ns t [H1 H2]. unfold st_total. specialize (Hn t). destruct (next t) as [a t']. simpl in *.
  destruct Hn as (Hw & Hs & Hd). split; [by rewrite Hw|]. intros Hu. rewrite Hs, Hd. by apply H2.
Qed.

Lemma hushed_run {E A : Type} (m : ST Tx E A) ns t r t' :
  hushed m → will_notify ns t → m t = (r, t') → will_notify ns t'.
Proof. intros Hm Hn Hrun. specialize (Hm ns t Hn). by rewrite Hrun in Hm. Qed.

Lemma hushed_write {E : Type} (f : Writes → Writes) :
  (∀ wr, wr_notify (f wr) = wr_notify wr) → hushed (st_modify (E:=E) (write f)).
Proof. intros Hf ns t [H1 H2]. split; [|done]. simpl. by rewrite Hf. Qed.
End frame.
End notify.

#[export] Hint Resolve hushed_ret hushed_err hushed_lift hushed_get hushed_bind hushed_map_err : hush.
#[export] Hint Resolve hushed_round_trip hushed_seqs hushed_write : hush.

Ltac hush := repeat (intros; first [progress eauto 2 with hush | apply hushed_bind | apply hushed_map_err
  | apply hushed_round_trip | apply hushed_seqs | apply hushed_write | case_match]); try done.

Section statements.
Context `{ext : Externals} {pg : Postgres} {G C : Type} (undisturbed : Prop) (delivered : list string).
Local Abbreviation Tx := (Tx G C).
Local Abbreviation hushed := (hushed (G:=G) (C:=C) undisturbed delivered).
Local Abbreviation will_notify := (will_notify (G:=G) (C:=C) undisturbed delivered).
Implicit Types (t : Tx) (id : JobId) (j : Job).

Lemma hushed_text s : hushed (bind_text s).
Proof. unfold bind_text. hush. Qed.

Lemma hushed_text_opt s : hushed (bind_text_opt s).
Proof. pose proof hushed_text. unfold bind_text_opt. hush. Qed.

Lemma hushed_time_opt o : hushed (bind_time_opt o).
Proof. unfold bind_time_opt, bind_time. hush. Qed.

Lemma hushed_insert_event u v eid ty sv p corr caus tr x :
  hushed (sql_insert_event u v eid ty sv p corr caus tr x).
Proof.
  pose proof hushed_text. pose proof hushed_text_opt. unfold sql_insert_event, bind_jsonb, bind_time. hush.
Qed.

Lemma hushed_insert_outbox eid u v : hushed (sql_insert_outbox eid u v).
Proof. unfold sql_insert_outbox, bind_jsonb. hush. Qed.

Lemma hushed_inserts id expected envs : hushed (insert_envelopes id expected envs).
Proof.
  pose proof hushed_insert_event. pose proof hushed_insert_outbox.
  induction envs as [|env envs IH]; simpl; hush.
Qed.

Lemma hushed_load id : hushed (load_in_tx id).
Proof. unfold load_in_tx, sql_select_stream. hush. Qed.

Lemma hushed_upsert u row : hushed (upsert_dispatch u row).
Proof. unfold upsert_dispatch. hush. Qed.

(** ** Results *)

(** What holds whenever [m] succeeds. *)
Definition yields {E A : Type} (m : ST Tx E A) (P : A → Tx → Prop) : Prop :=
  ∀ t a t', m t = (Ok a, t') → P a t'.

Lemma yields_bind {E A B : Type} (m : ST Tx E A) (k : A → ST Tx E B) (M : A → Prop) P :
  yields m (λ a _, M a) → (∀ a, M a → yields (k a) P) → yields (st_bind m k) P.
Proof. intros Hm Hk t b t' (a & t1 & H1%Hm & H2)%st_bind_ok. by eapply Hk. Qed.

Lemma yields_round_trip {A : Type} (body : gset Uuid → gset Z → ST Tx SqlxError A) P :
  (∀ jobs outbox, yields (body jobs outbox) P) → yields (round_trip body) P.
Proof.
  intros Hb t a t'. unfold round_trip. destruct (pg_script (tx_world t)) as [|[]]; [by apply Hb..|done|done].
Qed.

Lemma yields_any {E A : Type} (m : ST Tx E A) : yields m (λ _ _, True).
Proof. done. Qed.

Lemma yields_text s : yields (bind_text s) (λ a _, a = s).
Proof. intros t a t'. unfold bind_text. destruct (text_ok s); [by intros [= <- _]|done]. Qed.

Lemma yields_upsert u (row : Z → DispatchRow) :
  yields (upsert_dispatch u row) (λ _ t', ∃ seq, wr_dispatch (tx_writes t') !! u = Some (Some (row seq))).
Proof.
  apply (yields_bind _ _ (λ _, True)); [apply yields_any|]. intros seq _.
  apply (yields_bind _ _ (λ _, True)); [apply yields_any|]. intros t0 _ t a t' [= _ <-]. simpl.
  eexists. apply lookup_insert_eq.
Qed.

Lemma yields_pending u q p nb :
  yields (sql_upsert_pending u q p nb) (λ _ t', ∃ row, wr_dispatch (tx_writes t') !! u = Some (Some row) ∧
    dq_lease_id row = None ∧ dq_queue row = q).
Proof.
  apply yields_round_trip. intros _ _. eapply yields_bind; [apply yields_text|]. intros q' ->.
  eapply yields_bind; [apply yields_any|]. intros nb' _ t a t' (seq & Hr)%yields_upsert. by eexists.
Qed.

Lemma yields_leased u q p l wk x :
  yields (sql_upsert_leased u q p l wk x) (λ _ t', ∃ row, wr_dispatch (tx_writes t') !! u = Some (Some row) ∧
    dq_lease_id row = Some l).
Proof.
  apply yields_round_trip. intros _ _. eapply yields_bind; [apply yields_any|]. intros q' _.
  eapply yields_bind; [apply yields_any|]. intros wk' _. eapply yields_bind; [apply yields_any|].
  intros x' _ t a t' (seq & Hr)%yields_upsert. by eexists.
Qed.

(** ** The projection *)

(** What the projection of a job announces. *)
Definition announced j : list string :=
  match job_state j with
  | S_Pending _ => [QueueName_as_str (job_queue j)]
  | _ => []
  end.

(** The row it writes, as far as it tells. *)
Definition row_written j (row : option DispatchRow) : Prop :=
  match job_state j with
  | S_Pending _ => ∃ r, row = Some r ∧ dq_lease_id r = None ∧ dq_queue r = QueueName_as_str (job_queue j)
  | S_Leased _ _ _ | S_Running _ _ _ => ∃ r, row = Some r ∧ is_Some (dq_lease_id r)
  | _ => row = None
  end.

Lemma notify_adds q t t' :
  will_notify [] t → sql_notify q t = (Ok tt, t') →
  will_notify [q] t' ∧ wr_dispatch (tx_writes t') = wr_dispatch (tx_writes t).
Proof.
  intros [Hn Ha]. unfold sql_notify, round_trip, st_bind, bind_text.
  destruct (pg_script (tx_world t)) as [|[others jobs outbox|e|e] script] eqn:Hs; [| |done|done];
    (destruct (text_ok q); [|done]); intros [= <-].
  - split; [|done]. split; [simpl; by rewrite Hn|]. intros Hu. by split; [|apply Ha].
  - assert (Hno : ¬ undisturbed) by (intros Hu; by destruct (Ha Hu)). unfold interfere.
    destruct (compatible _ _ _); (split; [|done]); (split; [simpl; by rewrite Hn|done]).
Qed.

Lemma delete_writes u t t' :
  will_notify [] t → sql_delete_dispatch u t = (Ok tt, t') →
  will_notify [] t' ∧ wr_dispatch (tx_writes t') !! u = Some None.
Proof.
  intros Hn Hrun. split.
  - assert (hushed (sql_delete_dispatch u)) as Hh by (unfold sql_delete_dispatch; hush).
    by eapply hushed_run.
  - revert t t' Hn Hrun. assert (yields (sql_delete_dispatch u) (λ _ t', wr_dispatch (tx_writes t') !! u = Some None)) as Hy.
    { apply yields_round_trip. intros _ _ t a t' [= _ <-]. simpl. apply lookup_insert_eq. }
    intros t t' _. apply Hy.
Qed.

Lemma project_announces j t t' :
  will_notify [] t → project_in_tx j t = (Ok tt, t') →
  will_notify (announced j) t' ∧
  ∃ row, wr_dispatch (tx_writes t') !! JobId_as_uuid (job_id j) = Some row ∧ row_written j row.
Proof.
  assert (Herr : ∀ (m : ST Tx SqlxError unit) t t', st_map_err db m t = (Ok tt, t') → m t = (Ok tt, t')).
  { intros m t0 t0'. unfold st_map_err. destruct (m t0) as [[[]| |] ?]; [by intros [= ->]|done..]. }
  assert (Hup : ∀ u q p nb, hushed (sql_upsert_pending u q p nb)).
  { pose proof hushed_text. pose proof hushed_time_opt.
    pose proof hushed_upsert. unfold sql_upsert_pending. hush. }
  assert (Hul : ∀ u q p l wk x, hushed (sql_upsert_leased u q p l wk x)).
  { pose proof hushed_text. pose proof hushed_upsert.
    unfold sql_upsert_leased, bind_time. hush. }
  intros Hn. unfold project_in_tx, announced, row_written. destruct (job_state j) as [nb|wk l x|wk l x| | | | |].
  - intros ([] & t1 & H1%Herr & H2%Herr)%st_bind_ok.
    assert (Hn1 : will_notify [] t1) by by eapply hushed_run. apply yields_pending in H1 as (row & Hr & Hl & Hq).
    destruct (notify_adds _ _ _ Hn1 H2) as [? Hd]. split; [done|]. exists (Some row). rewrite Hd. by split; [|exists row].
  - intros H%Herr. split; [eapply hushed_run; [apply Hul|exact Hn|exact H]|].
    apply yields_leased in H as (row & Hr & Hl). exists (Some row). split; [done|]. exists row. by rewrite Hl.
  - intros H%Herr. split; [eapply hushed_run; [apply Hul|exact Hn|exact H]|].
    apply yields_leased in H as (row & Hr & Hl). exists (Some row). split; [done|]. exists row. by rewrite Hl.
  - intros [? ?]%Herr%delete_writes; [|done]. eauto.
  - intros [? ?]%Herr%delete_writes; [|done]. eauto.
  - intros [? ?]%Herr%delete_writes; [|done]. eauto.
  - intros [? ?]%Herr%delete_writes; [|done]. eauto.
  - intros [? ?]%Herr%delete_writes; [|done]. eauto.
Qed.

(** ** The append *)

Lemma load_ids id t envs t' :
  load_in_tx id t = (Ok envs, t') → Forall (λ env, stream_id env = id) envs.
Proof.
  assert (yields (st_map_err db (sql_select_stream (JobId_as_uuid id)))
    (λ rows _, Forall (λ row, ev_stream_id row = JobId_as_uuid id) rows)) as Hr.
  { intros t0 rows t0'. unfold st_map_err. destruct (sql_select_stream _ t0) as [[rows1| |] t1] eqn:H1; [|done..].
    intros [= <- <-]. revert t0 rows1 t1 H1. apply yields_round_trip. intros _ _ t0 rows1 t1 [= <- _].
    apply Forall_forall. intros row Hin. unfold rows_of in Hin. rewrite order_by_perm in Hin. unfold stream_rows in Hin.
    by apply list_elem_of_filter in Hin as [? _]. }
  intros (rows & t1 & Hrows%Hr & He)%st_bind_ok. unfold st_lift in He.
  destruct (envelopes_from_rows rows) as [envs'| |] eqn:Hread; [|done..]. injection He as <- _.
  apply read_rows_ok in Hread. clear Hr. induction Hread as [|row env rows envs Hrow _ IH]; [constructor|].
  apply Forall_cons in Hrows as [Hu Hrows]. apply read_row_ok in Hrow as (ev & _ & _ & _ & ->).
  constructor; [|by apply IH]. simpl. rewrite Hu. by destruct id.
Qed.

Lemma append_in_tx_announces id expected envs t j t' :
  will_notify [] t → append_in_tx id expected envs t = (Ok j, t') →
  will_notify (announced j) t' ∧
  ∃ row, wr_dispatch (tx_writes t') !! JobId_as_uuid id = Some row ∧ row_written j row.
Proof.
  intros Hn. unfold append_in_tx. intros (cur & t1 & H1 & H)%st_bind_ok.
  assert (Hn1 : will_notify [] t1).
  { eapply hushed_run; [|exact Hn|exact H1]. unfold sql_max_version. hush. }
  apply st_bind_ok in H as (cur' & t2 & H2 & H). unfold st_lift in H2. injection H2 as _ <-.
  destruct (negb (cur' =? expected)); [done|]. destruct (negb (batch_in_order id cur' envs)); [done|].
  apply st_bind_ok in H as ([] & t3 & H3 & H). eapply hushed_run in H3; [|apply hushed_inserts|exact Hn1].
  apply st_bind_ok in H as (ss & t4 & H4 & H). pose proof (load_ids _ _ _ _ H4) as Hids.
  eapply hushed_run in H4; [|apply hushed_load|exact H3].
  apply st_bind_ok in H as (j' & t5 & H5 & H). unfold st_lift in H5.
  destruct (from_events ss) as [j1| |] eqn:Hj; [|done..]. injection H5 as <- <-.
  apply st_bind_ok in H as ([] & t6 & H6 & H). injection H as <- <-.
  destruct (project_announces _ _ _ H4 H6) as [? Hrow]. split; [done|].
  assert (job_id j1 = id) as <-; [|done]. by eapply folded_id.
Qed.

Lemma commit_delivers ns t t' :
  will_notify ns t → sql_commit t = (Ok tt, t') →
  (∃ before, db_notified (tx_db t') = before ++ ns ∧ (undisturbed → before = delivered)) ∧
  ∀ u row, wr_dispatch (tx_writes t) !! u = Some row → tb_dispatch (db_tables (tx_db t')) !! u = row.
Proof.
  intros [Hn Ha]. assert (Hpub : ∀ t1, tx_writes t1 = tx_writes t →
    db_notified (tx_db (publish t1)) = db_notified (tx_db t1) ++ ns ∧
    ∀ u row, wr_dispatch (tx_writes t) !! u = Some row → tb_dispatch (db_tables (tx_db (publish t1))) !! u = row).
  { intros t1 Hw. split; [simpl; by rewrite Hw, Hn|]. intros u row Hu.
    change (tb_dispatch (db_tables (tx_db (publish t1))))
      with (overlay (wr_dispatch (tx_writes t1)) (tb_dispatch (db_tables (tx_db t1)))).
    by rewrite overlay_lookup, Hw, Hu. }
  unfold sql_commit. destruct (pg_script (tx_world t)) as [|[others jobs outbox|e|e] script] eqn:Hs;
    [| |done|done]; intros [= <-].
  - destruct (Hpub t eq_refl) as [H1 ?]. split; [|done]. exists (db_notified (tx_db t)). split; [done|].
    intros Hu. by apply Ha.
  - assert (Hno : ¬ undisturbed) by (intros Hu; by destruct (Ha Hu)).
    destruct (Hpub (interfere others (next_script t))) as [H1 ?]; [unfold interfere; by destruct (compatible _ _ _)|].
    split; [|done]. by eexists.
Qed.
End statements.

Section append.
Context `{ext : Externals} {pg : Postgres} {G C : Type}.
Implicit Types (w : PgWorld G C) (id : JobId).

Lemma written_dispatched (j j' : Job) row : row_written j row → dispatched j' row → announced j = announced j'.
Proof.
  unfold row_written, dispatched, announced. intros Hr Hd.
  destruct (job_state j), (job_state j'); try done; subst;
    repeat match goal with
    | H : ∃ _, _ |- _ => destruct H
    | H : _ ∧ _ |- _ => destruct H
    | H : is_Some _ |- _ => destruct H
    end; simplify_eq/=; congruence.
Qed.

(** What an append announces, it announces with its commit. *)
Lemma append_announces id expected envs w w' :
  db_ok (pg_db w) → Forall fate_ok (pg_script w) → envs ≠ [] → Z.of_nat (length envs) ≤ I64_MAX →
  Postgres_append id expected envs w = (Ok tt, w') →
  ∃ j before, from_events (db_stream (pg_db w') id) = Ok j ∧
    db_notified (pg_db w') = before ++ announced j ∧ (pg_script w = [] → before = db_notified (pg_db w)).
Proof.
  intros Hok Hf Hne Hl Hrun. pose proof Hrun as Hout. apply append_run in Hout; [|done|done|by left|done].
  destruct Hout as (j & [_ _ _ _ (d & kept & _ & _ & _ & Hcom)]).
  pose proof (com_log _ _ _ _ _ _ _ Hcom) as Hlog. pose proof (com_dispatched _ _ _ _ _ _ _ Hcom) as Hd.
  unfold Postgres_append, with_tx in Hrun. destruct (st_bind _ _ _) as [r t] eqn:Ht in Hrun. injection Hrun as -> <-.
  apply st_bind_ok in Ht as ([] & t1 & H1 & Ht). apply st_bind_ok in Ht as (j' & t2 & H2 & Ht).
  assert (Hn1 : will_notify (pg_script w = []) (db_notified (pg_db w)) [] t1).
  { refine (hushed_run _ _ _ [] (Tx_mk w no_writes) _ _ _ _ H1); [unfold sql_begin; hush|by split]. }
  destruct (append_in_tx_announces _ _ _ _ _ _ _ _ Hn1 H2) as (Hn2 & row & Hw & Hrow).
  assert (Hc : sql_commit t2 = (Ok tt, t)).
  { revert Ht. unfold st_map_err. destruct (sql_commit t2) as [[[]| |] ?]; [by intros [= ->]|done..]. }
  destruct (commit_delivers _ _ _ _ _ Hn2 Hc) as ((before & Hb & Hun) & Hpub).
  exists j, before. split; [unfold db_stream; rewrite Hlog, lookup_insert_eq; apply Hcom|].
  change (pg_db (tx_world t)) with (tx_db t) in Hd. rewrite (Hpub _ _ Hw) in Hd.
  rewrite <-(written_dispatched _ _ _ Hrow Hd). split; [exact Hb|exact Hun].
Qed.
End append.
