(* ===== verification/Wakeup.v ===== *)
(** * From an append to a waiting fetch

    The pieces of a wake-up together: an append announces the queue of a job
    it leaves pending when it commits, the database delivers the notification
    to the listener, the hub broadcasts it, and the wait that subscribed
    before returns. *)

From S2P Require Import Prelude Std Ids Retry Events Job Lifecycle Commands Ports UseCases Contract Kept.
From S2P Require Import Signal Hub Postgres PgStore PgRows PgTx PgNotify.

Open Scope string_scope.
Open Scope list_scope.
Open Scope Z_scope.

Section wakeup.
Context `{ext : Externals} {pg : Postgres} {G C B R : Type} `{!Broadcast B R}.
Implicit Types (w : PgWorld G C) (id : JobId) (s : PgSignal (B:=B)).

(** C9: A committed append that leaves its job pending reaches whoever waits for
    the job's queue: on every hub and for every order in which its listener,
    the wait and others take their turns, once the listener has received what
    the commit delivered, the wait returns within as many more polls as there
    were turns. An append that leaves its job in another state delivers
    nothing. *)
Theorem append_reaches_waiters id expected envs w w' s :
  db_ok (pg_db w) → Forall fate_ok (pg_script w) → envs ≠ [] → Z.of_nat (length envs) ≤ I64_MAX →
  Postgres_append id expected envs w = (Ok tt, w') → hub_ok s → (0 < sig_clones s)%nat →
  ∃ j before delivered, from_events (db_stream (pg_db w') id) = Ok j ∧
    db_notified (pg_db w') = before ++ delivered ∧ (pg_script w = [] → before = db_notified (pg_db w)) ∧
    match job_state j with
    | S_Pending _ => ∀ turns, delivered ⊆ payloads turns →
        let '(s', waiter) := hub_run turns (s, PgSignal_wait (job_queue j) (sig_hub s)) in
        returned (Nat.iter (S (length turns)) (wait_poll (sig_hub s')) waiter) = true
    | _ => delivered = []
    end.
Proof.
  intros Hok Hf Hne Hl Hrun Hh Hn. destruct (append_announces _ _ _ _ _ Hok Hf Hne Hl Hrun) as (j & before & Hj & Hs & Hb).
  exists j, before, (announced j). split; [done|]. split; [done|]. split; [done|]. unfold announced.
  destruct (job_state j) as [nb| | | | | | |]; try done. intros turns Hin.
  pose proof (no_lost_wakeup (job_queue j) turns s Hh Hn) as Hw. destruct (hub_run turns _) as [s' waiter].
  apply Hw. left. apply Hin. by left.
Qed.
End wakeup.
