(* ===== verification/PgContract.v ===== *)
(** * The PostgreSQL store keeps the event-store contract

    While no other session commits and nothing fails, the store of this
    process implements [EventStoreContract]; with other sessions around it,
    [append_run] says what is left of that. *)

From S2P Require Import Prelude Std Ids Retry Events Job Lifecycle Commands Ports UseCases Contract Kept.
From S2P Require Import Postgres PgStore PgRows PgTx PgAppend PgInsert PgProject PgCommit PgPublish.

Open Scope string_scope.
Open Scope list_scope.
Open Scope Z_scope.

(** What the broker counts on from its ids (UUIDs of version 7) and from its
    clock: an event id is new, and the time fits a column. *)
Class FreshIdSource (G : Type) `{!IdGenerator G} : Type := {
  spent : G → Uuid → Prop;
  job_id_spent g u : spent g u → spent (gen_job_id g).2 u;
  event_id_spent g u : spent g u → spent (gen_event_id g).2 u;
  lease_id_spent g u : spent g u → spent (gen_lease_id g).2 u;
  correlation_id_spent g u : spent g u → spent (gen_correlation_id g).2 u;
  jitter_spent g u : spent g u → spent (jitter_seed g).2 u;
  event_id_fresh g : ¬ spent g (EventId_as_uuid (gen_event_id g).1) ∧
    spent (gen_event_id g).2 (EventId_as_uuid (gen_event_id g).1);
}.

Class SaneClock `{pg : Postgres} (C : Type) `{!Clock C} : Type := {
  sane : C → Prop;
  sane_now c : sane c → time_ok (clock_now c).1 ∧ sane (clock_now c).2;
}.

Section contract.
Context `{ext : Externals} {pg : Postgres} {G C : Type}.
Context `{!IdGenerator G, !Clock C, !FreshIdSource G, !SaneClock C}.
Local Abbreviation World := (PgWorld G C).
Implicit Types (w : World) (id : JobId) (envs s : list EventEnvelope) (d : Db).

(** The ids of the recorded events. *)
Definition used_ids d (u : Uuid) : Prop :=
  ∃ id s env, db_log d !! id = Some s ∧ env ∈ s ∧ EventId_as_uuid (event_id env) = u.

Record pg_healthy w : Prop := {
  ph_ok : db_ok (pg_db w);
  ph_script : pg_script w = [];
  ph_ids u : used_ids (pg_db w) u → spent (pg_ids w) u;
  ph_clock : sane (pg_clock w);
}.

Definition pg_prepared w envs : Prop :=
  Forall (λ env, time_ok (recorded_at env) ∧ schema_version env = SCHEMA_VERSION ∧
    ¬ used_ids (pg_db w) (EventId_as_uuid (event_id env)) ∧
    spent (pg_ids w) (EventId_as_uuid (event_id env))) envs ∧
  NoDup (event_id <$> envs).

(** ** Rows and envelopes *)

Lemma row_used d k row :
  db_ok d → tb_events (db_tables d) !! k = Some row → used_ids d (ev_event_id row).
Proof.
  intros [Hr _ _ _ _] Hk. set (m := tb_events (db_tables d)) in *.
  assert (row ∈ rows_of m (ev_stream_id row)) as Hin by (apply elem_of_rows_of; eauto).
  pose proof (rows_readable _ (ev_stream_id row) Hr) as Hf%read_rows_ok.
  apply list_elem_of_lookup in Hin as [i Hi]. destruct (Forall2_lookup_l _ _ _ _ _ Hf Hi) as (env & He & Henv).
  exists (JobId_new (ev_stream_id row)), (envs_of m (ev_stream_id row)), env. split_and!.
  - unfold db_log. rewrite pg_log_lookup, decide_False; [done|]. simpl.
    intros Hn. subst m. by rewrite Hn in Hi.
  - by eapply list_elem_of_lookup_2.
  - apply read_row_ok in Henv as (? & _ & _ & _ & ->). done.
Qed.

Lemma unused_ids d env : db_ok d → ¬ used_ids d (EventId_as_uuid (event_id env)) →
  unused (tb_events (db_tables d)) env.
Proof. intros Hd Hn k row Hk Heq. apply Hn. rewrite <-Heq. by eapply row_used. Qed.

(** ** Wrapping *)

Definition pg_quiet w w' : Prop :=
  pg_db w' = pg_db w ∧ pg_script w' = pg_script w ∧
  (∀ u, spent (pg_ids w) u → spent (pg_ids w') u) ∧ (sane (pg_clock w) → sane (pg_clock w')).

Lemma quiet_healthy w w' : pg_quiet w w' → pg_healthy w → pg_healthy w'.
Proof. intros (Hd & Hs & Hi & Hc) [? ? ? ?]. split; [by rewrite Hd|by rewrite Hs|rewrite Hd; auto|auto]. Qed.

Lemma wrap_each_prepared id t corr caus trace v evs w envs w' :
  wrap_each id t corr caus trace v evs w = (envs, w') →
  pg_db w' = pg_db w ∧ (∀ u, spent (pg_ids w) u → spent (pg_ids w') u) ∧
  Forall (λ env, recorded_at env = t ∧ schema_version env = SCHEMA_VERSION ∧
    ¬ spent (pg_ids w) (EventId_as_uuid (event_id env)) ∧
    spent (pg_ids w') (EventId_as_uuid (event_id env))) envs ∧ NoDup (event_id <$> envs).
Proof.
  revert v w envs w'. induction evs as [|ev evs IH]; intros v w envs w'; simpl.
  { intros [= <- <-]. split_and!; [done|done|constructor..]. }
  destruct (gen_event_id (pg_ids w)) as [x g] eqn:Hg.
  pose proof (event_id_fresh (pg_ids w)) as [Hf Hs]. pose proof (event_id_spent (pg_ids w)) as Hm.
  rewrite Hg in Hf, Hs, Hm. simpl in *.
  destruct (wrap_each _ _ _ _ _ _ evs _) as [envs1 w1] eqn:Hw. intros [= <- <-].
  apply IH in Hw as (-> & Hm1 & Hall & Hnd). simpl in *. split_and!; [done|auto| |].
  - constructor; simpl; [by auto|]. eapply Forall_impl; [exact Hall|]. simpl.
    intros env (? & ? & Hn & ?). split_and!; [done..| |done]. by intros ?%Hm.
  - simpl. constructor; [|done]. intros Hin. apply list_elem_of_fmap in Hin as (env & -> & Hin).
    rewrite Forall_forall in Hall. destruct (Hall _ Hin) as (_ & _ & Hn & _). by destruct Hn.
Qed.

Lemma wrap_events_prepared id v corr caus trace evs w envs w' :
  pg_healthy w → wrap_events id v corr caus trace evs w = (envs, w') → pg_prepared w' envs.
Proof.
  intros [Hok Hsc Hids Hcl]. unfold wrap_events. simpl. pose proof (sane_now _ Hcl) as [Ht Hc'].
  destruct (clock_now (pg_clock w)) as [t c]. simpl in *.
  intros (Hd & Hm & Hall & Hnd)%wrap_each_prepared. split; [|done].
  eapply Forall_impl; [exact Hall|]. simpl. intros env (-> & ? & Hn & ?). split_and!; [done..| |done].
  rewrite Hd. simpl. by intros ?%Hids.
Qed.

(** ** The store *)

Lemma load_alone w id :
  pg_healthy w → Postgres_load id w = (ok_or (db_log (pg_db w) !! id) (StreamNotFound id), w).
Proof.
  intros [Hok Hsc _ _]. unfold Postgres_load, with_tx, st_bind, st_map_err, sql_select_stream, round_trip.
  simpl. rewrite Hsc. unfold tx_view, view, st_get, st_ret. simpl. rewrite map_empty_union.
  unfold db_log. rewrite pg_log_lookup. unfold tx_db. simpl.
  pose proof (rows_readable _ (JobId_as_uuid id) (ok_rows _ Hok)) as Hr.
  destruct (rows_of _ _) as [|row rows] eqn:Hrows; simpl; [done|].
  unfold st_lift. rewrite <-Hr. done.
Qed.

Lemma prepared_possible w id expected envs :
  pg_healthy w → pg_prepared w envs →
  acceptable (db_stream (pg_db w) id) id expected envs →
  Z.of_nat (length (db_stream (pg_db w) id) + length envs) ≤ I64_MAX →
  Forall pg_storable (event <$> envs) → Forall (λ env, trace_ok (traceparent env)) envs →
  possible (pg_db w) (around w) id expected envs.
Proof.
  intros [Hok Hsc _ _] [Hp Hnd] Hacc Hl Hst Htr. rewrite Forall_fmap in Hst.
  split; [done|]. split; [destruct Hacc as (<- & _); lia|]. split; [|split; [done|split]].
  - rewrite Forall_forall in *. intros env Hin. destruct (Hp _ Hin) as (? & Hs & _).
    split; [auto|done|by rewrite Hs|by apply Hst].
  - rewrite Forall_forall in *. intros env Hin d Hd. simpl in Hd. rewrite Hsc in Hd.
    rewrite (outside_alone _ _ Hd). apply unused_ids; [done|]. by apply Hp.
  - apply Forall_true. by intros env ?%elem_of_nil.
Qed.

Lemma committed_used id expected envs d d' kept j u :
  committed id expected envs d d' kept j → used_ids d' u →
  used_ids d u ∨ ∃ env, env ∈ envs ∧ EventId_as_uuid (event_id env) = u.
Proof.
  intros Hc (id' & s & env & Hs & Hin & Hu). rewrite (com_log _ _ _ _ _ _ _ Hc) in Hs.
  apply lookup_insert_Some in Hs as [[<- <-]|[_ Hs]]; [|left; by exists id', s, env].
  apply elem_of_app in Hin as [Hin|Hin].
  - left. unfold db_stream in Hin. destruct (db_log d !! id) as [s|] eqn:Hs; [|by apply elem_of_nil in Hin].
    by exists id, s, env.
  - right. apply list_elem_of_lookup in Hin as [i Hi].
    destruct (Forall2_lookup_r _ _ _ _ _ (com_kept _ _ _ _ _ _ _ Hc) Hi) as (env' & He & Hk).
    exists env'. split; [by eapply list_elem_of_lookup_2|]. by rewrite <-Hu, (kept_event_id _ _ Hk).
Qed.

Lemma append_alone w id expected envs :
  pg_healthy w → pg_prepared w envs →
  Z.of_nat (length (db_stream (pg_db w) id) + length envs) ≤ I64_MAX →
  ∃ r w', Postgres_append id expected envs w = (r, w') ∧ pg_healthy w' ∧
    ((acceptable (db_stream (pg_db w) id) id expected envs ∧ r = Ok tt ∧
      ∃ kept, Forall2 kept_as envs kept ∧
        (Forall pg_storable (event <$> envs) → event <$> kept = event <$> envs) ∧
        db_log (pg_db w') = <[id := db_stream (pg_db w) id ++ kept]> (db_log (pg_db w))) ∨
     (db_log (pg_db w') = db_log (pg_db w) ∧
      (acceptable (db_stream (pg_db w) id) id expected envs → Forall pg_storable (event <$> envs) →
       Forall (λ env, trace_ok (traceparent env)) envs → False) ∧
      if decide (Z.of_nat (length (db_stream (pg_db w) id)) = expected)
      then ∃ msg, r = Err (Store_Backend msg) else r = Err (VersionConflict id expected))).
Proof.
  intros Hw Hp Hl. pose proof Hw as [Hok Hsc Hids Hcl].
  destruct (Postgres_append id expected envs w) as [r w'] eqn:Hrun. exists r, w'. split; [done|].
  assert (Ha : alone (around w)) by done.
  apply append_run in Hrun; [|done|by rewrite Hsc|by right|lia].
  destruct r as [[]|e|]; [| |done].
  - destruct Hrun as (j & [Hf Hok' Hs' [Hi' Hc'] (d & kept & Ho & _ & _ & Hcom)]). simpl in *.
    rewrite Hsc in Ho, Hs'. apply list_nil_subseteq in Hs'. apply outside_alone in Ho.
    assert (db_log d = db_log (pg_db w) ∧ db_stream d id = db_stream (pg_db w) id) as [Hlg Hst].
    { unfold db_stream, db_log. by rewrite Ho. }
    pose proof (com_log _ _ _ _ _ _ _ Hcom) as Hlog. rewrite Hlg, Hst in Hlog.
    pose proof (com_acceptable _ _ _ _ _ _ _ Hcom) as Hacc. rewrite Hst in Hacc. split.
    + split; [done|done| |by rewrite Hc']. intros u Hu. rewrite Hi'.
      destruct (committed_used _ _ _ _ _ _ _ _ Hcom Hu) as [(i & s & env & Hs & ?)|(env & Hin & <-)].
      * apply Hids. exists i, s, env. by rewrite <-Hlg.
      * destruct Hp as [Hp _]. rewrite Forall_forall in Hp. by apply Hp.
    + left. split_and!; [done..|]. exists kept. split_and!; [apply Hcom|apply Hcom|done].
  - destruct Hrun as [(? & ? & _ & Hlost & _)|(Hi & Hc & Hq)].
    { simpl in Hlost. rewrite Hsc in Hlost. by apply elem_of_nil in Hlost. }
    destruct (wi_alone Hi Ha) as [Hs' Ht]. pose proof (wi_own Hi) as [Hid' Hc']. simpl in Hid', Hc'.
    assert (db_log (pg_db w') = db_log (pg_db w)) as Hlog by (unfold db_log; by rewrite Ht). split.
    + split; [apply Hi|done| |by rewrite Hc']. intros u (i & s & env & Hs & ?). rewrite Hid'.
      apply Hids. exists i, s, env. by rewrite <-Hlog.
    + right. specialize (Hq Ha). split_and!; [done| |case_decide; naive_solver]. intros Hacc Hst Htr.
      destruct (Hc (alone_calm _ Ha)) as [Hno|[_ Hlt]]; [by apply Hno, prepared_possible|].
      unfold db_stream in Hlt. rewrite Hlog in Hlt. destruct Hacc as (? & _). unfold db_stream in *. lia.
Qed.

Lemma pg_quiet_log w w' :
  pg_quiet w w' → (pg_healthy w → pg_healthy w') ∧ db_log (pg_db w') = db_log (pg_db w).
Proof. intros Hq. split; [by apply quiet_healthy|]. by destruct Hq as (-> & _). Qed.

(** Drawing an id or the time moves nothing else. *)
Lemma draw_ids w {A : Type} (m : A * G) :
  (∀ u, spent (pg_ids w) u → spent m.2 u) → pg_quiet w (snd (let '(x, g) := m in (x, set_pg_ids g w))).
Proof. destruct m as [x g]. intros Hm. by split_and!. Qed.

Lemma draw_clock w : pg_quiet w (snd (clock_now w)).
Proof.
  simpl. pose proof (sane_now (pg_clock w)) as Hs. destruct (clock_now (pg_clock w)) as [t c].
  split_and!; try done. simpl. intros Hc. by apply Hs.
Qed.

#[export] Instance Postgres_EventStoreContract : EventStoreContract World.
Proof.
  refine {|
    healthy := pg_healthy;
    log_of w := db_log (pg_db w);
    max_len := I64_MAX;
    storable := pg_storable;
    traceable := trace_ok;
    prepared := pg_prepared;
    quiet := pg_quiet;
  |}.
  - apply pg_quiet_log.
  - done.
  - intros w id s [Hok _ _ _] Hs. apply (held_ok _ _ _ (ok_streams _ Hok _ _ Hs)).
  - intros w id s [Hok _ _ _] Hs. apply (held_traces _ _ _ (ok_streams _ Hok _ _ Hs)).
  - intros w id Hw. by apply load_alone.
  - intros w id expected envs Hw Hp Hl. by apply append_alone.
  - intros w. apply pg_quiet_log, draw_ids, job_id_spent.
  - intros w. apply pg_quiet_log, draw_ids, event_id_spent.
  - intros w. apply pg_quiet_log, draw_ids, lease_id_spent.
  - intros w. apply pg_quiet_log, draw_ids, correlation_id_spent.
  - intros w. apply pg_quiet_log, draw_ids, jitter_spent.
  - intros w. apply pg_quiet_log, draw_clock.
  - intros w id v corr caus trace evs envs w'. apply wrap_events_prepared.
Defined.
End contract.
