(* ===== verification/Agree.v ===== *)
(** * The two stores agree

    [koine-store-memory] and [koine-store-postgres] implement one port. Two
    stores that keep the contract of that port and hold the same streams, up
    to record times and the normal form of JSON values, answer every append
    both can hold alike and hold the same streams afterwards: a bisimulation,
    proved for any two such stores and stated for these. *)

From S2P Require Import Prelude Std Ids Retry Events Job Lifecycle Commands Ports UseCases Contract Kept.
From S2P Require Import MemStore MemDispatcher MemFacts Postgres PgStore PgRows PgTx PgAppend PgContract.

Open Scope string_scope.
Open Scope list_scope.
Open Scope Z_scope.

(** ** The equivalence *)

Section kept.
Context `{ext : Externals}.

Lemma similar_trans a b c : similar a b → similar b c → similar a c.
Proof. destruct a, b; simpl; intros H; try done; destruct c; simpl; intros; destruct_and?; subst; congruence || done. Qed.

#[export] Instance kept_as_equivalence : Equivalence kept_as.
Proof.
  split; [exact kept_as_refl|exact kept_as_sym|]. intros x y z [] []. split; try congruence. by eapply similar_trans.
Qed.

(** Whether a batch may extend a stream does not depend on how either is
    kept. *)
#[export] Instance acceptable_proper :
  Proper (Forall2 kept_as ==> eq ==> eq ==> Forall2 kept_as ==> iff) acceptable.
Proof.
  assert (Himp : ∀ old old' id v envs envs', Forall2 kept_as old old' → Forall2 kept_as envs envs' →
    acceptable old id v envs → acceptable old' id v envs').
  { intros old old' id v envs envs' Ho He (Hl & Hs & Hi & j & Hj).
    split; [by rewrite <-(Forall2_length _ _ _ Ho)|]. destruct (acceptable_kept old id v envs envs') as (_ & ? & ? & _);
      [done|by split_and!; eauto|]. split_and!; [done..|].
    destruct (from_events_alike (old ++ envs) (old' ++ envs') j) as (j' & ? & _); [by apply Forall2_app|done|eauto]. }
  intros old old' Ho id _ <- v _ <- envs envs' He. split; apply Himp; try done; by apply all_kept_sym.
Qed.
End kept.

(** ** Any two stores *)

Section agree.
Context `{ext : Externals} {W1 W2 : Type}.
Context `{!EventStore W1, !IdGenerator W1, !Clock W1, !EventStoreContract W1}.
Context `{!EventStore W2, !IdGenerator W2, !Clock W2, !EventStoreContract W2}.
Implicit Types (id : JobId) (envs : list EventEnvelope).

Definition same_stream (s1 s2 : option (list EventEnvelope)) : Prop := option_Forall2 (Forall2 kept_as) s1 s2.

(** The same streams. *)
Definition same_streams (w1 : W1) (w2 : W2) : Prop := ∀ id, same_stream (log_of w1 !! id) (log_of w2 !! id).

(** The same answer, up to the text of a backend error. *)
Definition same_answer {A : Type} (r1 r2 : result A EventStoreError) : Prop :=
  match r1, r2 with
  | Err (Store_Backend _), Err (Store_Backend _) => True
  | _, _ => r1 = r2
  end.

Lemma same_stream_default s1 s2 : same_stream s1 s2 → Forall2 kept_as (default [] s1) (default [] s2).
Proof. by destruct 1. Qed.

Lemma contracts_agree id expected envs (w1 : W1) (w2 : W2) :
  healthy w1 → healthy w2 → same_streams w1 w2 →
  prepared w1 envs → prepared w2 envs →
  Z.of_nat (length (default [] (log_of w1 !! id)) + length envs) ≤ max_len (W:=W1) →
  Z.of_nat (length (default [] (log_of w2 !! id)) + length envs) ≤ max_len (W:=W2) →
  Forall (storable (W:=W1)) (event <$> envs) → Forall (storable (W:=W2)) (event <$> envs) →
  Forall (λ env, traceable (W:=W1) (traceparent env)) envs →
  Forall (λ env, traceable (W:=W2) (traceparent env)) envs →
  ∃ r1 w1' r2 w2', store_append id expected envs w1 = (r1, w1') ∧ store_append id expected envs w2 = (r2, w2') ∧
    healthy w1' ∧ healthy w2' ∧ same_answer r1 r2 ∧ same_streams w1' w2' ∧
    (r1 = Ok tt ↔ acceptable (default [] (log_of w1 !! id)) id expected envs).
Proof.
  intros Hw1 Hw2 Hs Hp1 Hp2 Hl1 Hl2 Hst1 Hst2 Htr1 Htr2.
  pose proof (same_stream_default _ _ (Hs id)) as Hid.
  destruct (append_spec w1 id expected envs Hw1 Hp1 Hl1) as (r1 & w1' & H1 & Hh1 & Hc1).
  destruct (append_spec w2 id expected envs Hw2 Hp2 Hl2) as (r2 & w2' & H2 & Hh2 & Hc2).
  exists r1, w1', r2, w2'. split_and!; [done|done|done|done|..].
  all: destruct Hc1 as [(Ha1 & -> & kept1 & Hk1 & _ & Hg1)|(Hg1 & Hno1 & Hr1)],
    Hc2 as [(Ha2 & -> & kept2 & Hk2 & _ & Hg2)|(Hg2 & Hno2 & Hr2)].
  all: try (exfalso; rewrite Hid in Ha1; by apply Hno2).
  all: try (exfalso; rewrite <-Hid in Ha2; by apply Hno1).
  - done.
  - rewrite <-(Forall2_length _ _ _ Hid) in Hr2. case_decide; [|by subst].
    destruct Hr1 as [? ->], Hr2 as [? ->]. done.
  - intros id'. rewrite Hg1, Hg2. destruct (decide (id = id')) as [<-|Hne].
    + rewrite !lookup_insert_eq. constructor. apply Forall2_app; [done|].
      etrans; [by symmetry|exact Hk2].
    + rewrite !lookup_insert_ne by done. apply Hs.
  - intros id'. rewrite Hg1, Hg2. apply Hs.
  - done.
  - split; [|intros Ha; exfalso; by apply Hno1]. intros ->. clear Hr2. case_decide; [by destruct Hr1|done].
Qed.

Lemma loads_agree id (w1 : W1) (w2 : W2) :
  healthy w1 → healthy w2 → same_streams w1 w2 →
  match (store_load id w1).1, (store_load id w2).1 with
  | Ok s1, Ok s2 => Forall2 kept_as s1 s2
  | r1, r2 => r1 = r2
  end.
Proof. intros H1 H2 Hs. rewrite !load_spec by done. simpl. by destruct (Hs id). Qed.
End agree.

(** ** The in-memory store and PostgreSQL *)

Section stores.
Context `{ext : Externals} {pg : Postgres} {G C G' C' : Type}.
Context `{!IdGenerator G, !Clock C, !IdGenerator G', !Clock C', !FreshIdSource G', !SaneClock C'}.
Implicit Types (m : MemWorld G C) (w : PgWorld G' C') (id : JobId) (envs : list EventEnvelope).

(** The same streams in memory and in the tables. *)
Definition mirrors m w : Prop :=
  ∀ id, same_stream (streams (mem_inner m) !! id) (db_log (pg_db w) !! id).

(** C21: On undisturbed stores with the same streams, an append of a batch that
    the columns of the database hold gets the same answer in memory and in
    PostgreSQL: it is accepted by both or by neither, a version conflict in
    one is one in the other; and both hold and load the same streams
    afterwards. *)
Theorem stores_agree id expected envs m w :
  mem_healthy m → pg_healthy w → mirrors m w → pg_prepared w envs →
  Z.of_nat (length (db_stream (pg_db w) id) + length envs) ≤ I64_MAX →
  Forall pg_storable (event <$> envs) → Forall (λ env, trace_ok (traceparent env)) envs →
  ∃ r1 m' r2 w', InMemory_append id expected envs m = (r1, m') ∧ Postgres_append id expected envs w = (r2, w') ∧
    mem_healthy m' ∧ pg_healthy w' ∧ same_answer r1 r2 ∧ mirrors m' w' ∧
    (r1 = Ok tt ↔ acceptable (db_stream (pg_db w) id) id expected envs) ∧
    ∀ id', match (InMemory_load id' m').1, (Postgres_load id' w').1 with
           | Ok s1, Ok s2 => Forall2 kept_as s1 s2
           | a1, a2 => a1 = a2
           end.
Proof.
  intros Hm Hw Hs Hp Hl Hst Htr.
  assert (Hlen : length (default [] (streams (mem_inner m) !! id)) = length (db_stream (pg_db w) id))
    by by eapply Forall2_length, same_stream_default.
  destruct (contracts_agree (W1:=MemWorld G C) (W2:=PgWorld G' C') id expected envs m w)
    as (r1 & m' & r2 & w' & H1 & H2 & Hm' & Hw' & Ha & Hs' & Hok); try done.
  - simpl. rewrite Hlen. unfold U64_MAX, I64_MAX in *. lia.
  - by apply Forall_true.
  - by apply Forall_true.
  - exists r1, m', r2, w'. split_and!; try done.
    + rewrite Hok. apply acceptable_proper; try done. by apply same_stream_default.
    + intros id'. exact (loads_agree (W1:=MemWorld G C) (W2:=PgWorld G' C') id' m' w' Hm' Hw' Hs').
Qed.
End stores.
