(* ===== verification/PgPick.v ===== *)
(** * Selecting a row for the claim and the retirement

    What [SELECT ... FOR UPDATE SKIP LOCKED] gives, what the locked row says
    of its job, and how the transaction draws ids and the time. *)

From stdpp Require Import sorting.
From S2P Require Import Prelude Std Ids Retry Events Job Lifecycle Commands Ports UseCases Contract Kept.
From S2P Require Import Postgres PgStore PgDispatcher PgRows PgTx PgAppend PgInsert PgProject PgCommit PgPublish.

Open Scope string_scope.
Open Scope list_scope.
Open Scope Z_scope.

(** ** Orders *)

Lemma claim_order_total a b : claim_order a b = true ∨ claim_order b a = true.
Proof.
  unfold claim_order. destruct a as [? a], b as [? b]. simpl.
  rewrite !orb_true_iff, !andb_true_iff, !Z.ltb_lt, !Z.eqb_eq, !Z.leb_le. lia.
Qed.

Lemma claim_order_trans a b c :
  claim_order a b = true → claim_order b c = true → claim_order a c = true.
Proof.
  unfold claim_order. destruct a as [? a], b as [? b], c as [? c]. simpl.
  rewrite !orb_true_iff, !andb_true_iff, !Z.ltb_lt, !Z.eqb_eq, !Z.leb_le. lia.
Qed.

Lemma retire_order_total a b : retire_order a b = true ∨ retire_order b a = true.
Proof.
  unfold retire_order. destruct a as [u a], b as [v b]; simpl.
  destruct (dq_lease_expires_at a), (dq_lease_expires_at b); auto;
    rewrite ?orb_true_iff, ?andb_true_iff, ?Z.ltb_lt, ?Z.eqb_eq, ?N.leb_le; lia.
Qed.

Lemma retire_order_trans a b c :
  retire_order a b = true → retire_order b c = true → retire_order a c = true.
Proof.
  unfold retire_order. destruct a as [u a], b as [v b], c as [x c]; simpl.
  destruct (dq_lease_expires_at a), (dq_lease_expires_at b), (dq_lease_expires_at c); try done;
    rewrite ?orb_true_iff, ?andb_true_iff, ?Z.ltb_lt, ?Z.eqb_eq, ?N.leb_le; lia.
Qed.

(** ** Selection *)

Section select.
Context (leb : Uuid * DispatchRow → Uuid * DispatchRow → bool).
Hypothesis leb_total : ∀ a b, leb a b = true ∨ leb b a = true.
Hypothesis leb_trans : ∀ a b c, leb a b = true → leb b c = true → leb a c = true.

(** The first row that satisfies [p] among those nobody else holds. *)
Definition picked (locked : gset Uuid) (p : DispatchRow → bool) (m : gmap Uuid DispatchRow)
    (u : Uuid) (row : DispatchRow) : Prop :=
  m !! u = Some row ∧ p row = true ∧ (u ∉ locked) ∧
  ∀ u' row', m !! u' = Some row' → p row' = true → u' ∉ locked → leb (u, row) (u', row') = true.

Lemma first_unlocked_spec locked p m :
  match first_unlocked locked p leb m with
  | None => ∀ u row, m !! u = Some row → p row = true → u ∈ locked
  | Some u => ∃ row, picked locked p m u row
  end.
Proof.
  unfold first_unlocked. set (l := base.filter _ _).
  assert (Hl : ∀ u row, (u, row) ∈ l ↔ m !! u = Some row ∧ p row = true ∧ (u ∉ locked)).
  { intros u row. unfold l. rewrite list_elem_of_filter, elem_of_map_to_list. simpl. tauto. }
  pose proof (order_by_head leb leb_total leb_trans l) as Hh.
  destruct (head (order_by leb l)) as [[u row]|]; simpl.
  - destruct Hh as [(? & ? & ?)%Hl Hmin]. exists row. split_and!; [done..|].
    intros u' row' ? ? ?. by apply Hmin, Hl.
  - intros u row Hm Hp. destruct (decide (u ∈ locked)); [done|].
    assert ((u, row) ∈ l) as Hin by by apply Hl. rewrite Hh in Hin. by apply elem_of_nil in Hin.
Qed.
End select.

Section pick.
Context `{ext : Externals} {pg : Postgres} {G C : Type}.
Local Abbreviation Tx := (Tx G C).
Local Abbreviation Around := (Around G C).
Implicit Types (t : Tx) (id : JobId) (own : Around) (u : Uuid) (row : DispatchRow).
Implicit Types (L : list (Z * EventRow)) (K : list (Z * OutboxRow)) (D : gmap Uuid (option DispatchRow)).

(** A transaction that has written nothing is one of any stream. *)
Lemma tx_inv_any d0 own id id' D t :
  tx_inv d0 own id 0 [] [] D t → tx_inv d0 own id' 0 [] [] D t.
Proof.
  intros [? ? ? ? ? ? ? ? ? ? ? ? ? ? ?]. split; try done; [split; [done|lia]|..].
  - split; [constructor|]. by intros row env ?%elem_of_nil.
  - by intros k ob _ _ k' ?%elem_of_nil.
Qed.

Definition with_lock u row own : Around :=
  Around_mk (ar_ids own) (ar_clock own) (ar_script own) (<[u := row]> (ar_locks own)).

Lemma lock_inv d0 own id D t u row :
  tx_inv d0 own id 0 [] [] D t → tb_dispatch (db_tables (tx_db t)) !! u = Some row →
  tx_inv d0 (with_lock u row own) id 0 [] [] D (write (lock_job u) t).
Proof.
  intros [[] ? ? ? ? Hlk ? ? ? ? ? ? ? ? ?] Hu. split; try done. simpl.
  intros u' row' [[<- <-]|[_ Hu']]%lookup_insert_Some.
  - split; [set_solver|done].
  - destruct (Hlk _ _ Hu'). split; [set_solver|done].
Qed.

Lemma view_dispatch d0 own id L K t :
  tx_inv d0 own id 0 L K ∅ t → tb_dispatch (tx_view t) = tb_dispatch (db_tables (tx_db t)).
Proof.
  intros Hi. apply map_eq. intros k.
  change (tb_dispatch (tx_view t)) with (overlay (wr_dispatch (tx_writes t)) (tb_dispatch (db_tables (tx_db t)))).
  by rewrite overlay_lookup, (ti_dispatch Hi), lookup_empty.
Qed.

Lemma wp_select leb d0 own id t locked p (Q : option Uuid → Tx → Prop) (X : SqlxError → Tx → Prop) :
  (∀ a b, leb a b = true ∨ leb b a = true) →
  (∀ a b c, leb a b = true → leb b c = true → leb a c = true) →
  tx_inv d0 own id 0 [] [] ∅ t →
  ((∀ u row, tb_dispatch (db_tables (tx_db t)) !! u = Some row → p row = true → u ∈ locked) → Q None t) →
  (∀ u row t', picked leb locked p (tb_dispatch (db_tables (tx_db t))) u row → tx_db t' = tx_db t →
    tx_inv d0 (with_lock u row own) id 0 [] [] ∅ t' → Q (Some u) t') →
  wp (select_for_update locked p leb) t Q X.
Proof.
  intros Htot Htr Hi HN HS. apply wp_bind, wp_get. rewrite (view_dispatch _ _ _ _ _ _ Hi).
  pose proof (first_unlocked_spec leb Htot Htr locked p (tb_dispatch (db_tables (tx_db t)))) as Hf.
  destruct (first_unlocked _ _ _ _) as [u|]; [|by apply wp_ret, HN].
  destruct Hf as (row & Hp). apply wp_bind, wp_modify, wp_ret. apply (HS u row); [done|done|].
  apply lock_inv; [done|]. apply Hp.
Qed.

(** ** Drawing ids and the time *)

(** Only the id source and the clock have moved. *)
Definition drawn t t' : Prop :=
  tx_writes t' = tx_writes t ∧ tx_db t' = tx_db t ∧ pg_script (tx_world t') = pg_script (tx_world t).

Definition own_at t own : Around :=
  Around_mk (pg_ids (tx_world t)) (pg_clock (tx_world t)) (ar_script own) (ar_locks own).

Lemma drawn_inv d0 own id expected L K D t t' :
  drawn t t' → tx_inv d0 own id expected L K D t → tx_inv d0 (own_at t' own) id expected L K D t'.
Proof.
  intros (Hw & Hd & Hs) [[Hf Hok Hg Hown Hsc Hout] ? ? ? ? ? ? ? ? ? ? ? ? ? ?]. unfold tx_db in *.
  split; rewrite ?Hw; unfold tx_db; rewrite ?Hd; try done.
  split; simpl; rewrite ?Hd, ?Hs; done.
Qed.

Lemma drawn_trans t1 t2 t3 : drawn t1 t2 → drawn t2 t3 → drawn t1 t3.
Proof. intros (? & ? & ?) (? & ? & ?). unfold drawn. split_and!; congruence. Qed.

Context `{!IdGenerator G, !Clock C}.
Local Existing Instances Tx_Clock Tx_IdGenerator.

Lemma drawn_clock t : drawn t (clock_now t).2.
Proof. simpl. by destruct (clock_now (pg_clock (tx_world t))). Qed.

Lemma drawn_lease_id t : drawn t (gen_lease_id t).2.
Proof. simpl. by destruct (gen_lease_id (pg_ids (tx_world t))). Qed.

Lemma drawn_jitter t : drawn t (jitter_seed t).2.
Proof. simpl. by destruct (jitter_seed (pg_ids (tx_world t))). Qed.

(** Wrapping inside a transaction is wrapping in its world. *)
Lemma wrap_each_tx id x corr caus trace v evs t :
  wrap_each id x corr caus trace v evs t
  = (let '(envs, w) := wrap_each id x corr caus trace v evs (tx_world t) in (envs, set_tx_world w t)).
Proof.
  revert v t. induction evs as [|ev evs IH]; intros v t; simpl; [by destruct t|].
  destruct (gen_event_id (pg_ids (tx_world t))) as [eid g]. rewrite IH. simpl.
  by destruct (wrap_each _ _ _ _ _ _ evs _).
Qed.

Lemma wrap_events_tx id v corr caus trace evs t :
  wrap_events id v corr caus trace evs t
  = (let '(envs, w) := wrap_events id v corr caus trace evs (tx_world t) in (envs, set_tx_world w t)).
Proof.
  unfold wrap_events. simpl. destruct (clock_now (pg_clock (tx_world t))) as [x c].
  rewrite wrap_each_tx. simpl. by destruct (wrap_each _ _ _ _ _ _ evs _).
Qed.

Lemma wrap_each_draws id x corr caus trace v evs (w : PgWorld G C) :
  pg_db (wrap_each id x corr caus trace v evs w).2 = pg_db w ∧
  pg_script (wrap_each id x corr caus trace v evs w).2 = pg_script w.
Proof.
  revert v w. induction evs as [|ev evs IH]; intros v w; simpl; [done|].
  destruct (gen_event_id (pg_ids w)) as [eid g]. specialize (IH (u64_add v 1) (set_pg_ids g w)).
  by destruct (wrap_each _ _ _ _ _ _ evs _).
Qed.

Lemma drawn_wrap id v corr caus trace evs t : drawn t (wrap_events id v corr caus trace evs t).2.
Proof.
  rewrite wrap_events_tx. unfold wrap_events. simpl. destruct (clock_now (pg_clock (tx_world t))) as [x c].
  pose proof (wrap_each_draws id x corr caus trace v evs (set_pg_clock c (tx_world t))) as [Hd Hs].
  by destruct (wrap_each _ _ _ _ _ _ evs _).
Qed.
End pick.
