(* ===== verification/PgRecord.v ===== *)
(** * Recording a decision in an open transaction

    Claim and retirement load a stream, decide on it, and append what was
    decided: the events are recorded on the very stream they were decided
    on, or not at all. *)

From stdpp Require Import sorting.
From S2P Require Import Prelude Std Ids Retry Events Job Lifecycle Commands Ports UseCases Contract Kept.
From S2P Require Import Postgres PgStore PgDispatcher PgRows PgTx PgAppend PgInsert PgProject PgCommit PgPublish.
From S2P Require Import PgContract PgPick.

Open Scope string_scope.
Open Scope list_scope.
Open Scope Z_scope.

Section record.
Context `{ext : Externals} {pg : Postgres} {G C : Type} `{!IdGenerator G, !Clock C}.
Local Abbreviation World := (PgWorld G C).
Local Abbreviation Tx := (Tx G C).
Local Abbreviation Around := (Around G C).
Local Existing Instances Tx_Clock Tx_IdGenerator.
Implicit Types (t : Tx) (w : World) (id : JobId) (own : Around) (s envs kept : list EventEnvelope).

(** ** The id source and the clock only move on *)

Inductive draw : G * C → G * C → Prop :=
| draw_job_id g c : draw (g, c) ((gen_job_id g).2, c)
| draw_event_id g c : draw (g, c) ((gen_event_id g).2, c)
| draw_lease_id g c : draw (g, c) ((gen_lease_id g).2, c)
| draw_correlation_id g c : draw (g, c) ((gen_correlation_id g).2, c)
| draw_jitter g c : draw (g, c) ((jitter_seed g).2, c)
| draw_time g c : draw (g, c) (g, (clock_now c).2).

Definition moves : relation (G * C) := rtc draw.

Definition sources w : G * C := (pg_ids w, pg_clock w).

Lemma wrap_each_moves id x corr caus trace v evs w :
  moves (sources w) (sources (wrap_each id x corr caus trace v evs w).2).
Proof.
  revert v w. induction evs as [|ev evs IH]; intros v w; simpl; [done|].
  pose proof (draw_event_id (pg_ids w) (pg_clock w)) as Hd.
  destruct (gen_event_id (pg_ids w)) as [eid g]. specialize (IH (u64_add v 1) (set_pg_ids g w)).
  destruct (wrap_each _ _ _ _ _ _ evs _). eapply rtc_l; [exact Hd|exact IH].
Qed.

Lemma wrap_moves id v corr caus trace evs w :
  moves (sources w) (sources (wrap_events id v corr caus trace evs w).2).
Proof.
  unfold wrap_events. simpl. pose proof (draw_time (pg_ids w) (pg_clock w)) as Hd.
  destruct (clock_now (pg_clock w)) as [x c].
  eapply rtc_l; [exact Hd|]. apply (wrap_each_moves _ _ _ _ _ _ _ (set_pg_clock c w)).
Qed.

(** ** Outcomes *)

(** Nothing of this process's is in the database. *)
Record unrecorded w w' : Prop := {
  un_fates : Forall fate_ok (pg_script w');
  un_script : pg_script w' ⊆ pg_script w;
  un_ok : db_ok (pg_db w');
  un_grows : db_grows (pg_db w) (pg_db w');
  un_outside : outside (pg_script w) (pg_db w) (pg_db w');
  un_moves : moves (sources w) (sources w');
}.

(** [evs] has been appended to the stream [s] of [id], wrapped with the
    lineage of [s]; [j'] is the job afterwards. The state in between is that
    of the wrapping. *)
Record recorded w id s (evs : list JobEvent) w' (j' : Job) : Prop := {
  rec_fates : Forall fate_ok (pg_script w');
  rec_script : pg_script w' ⊆ pg_script w;
  rec_ok : db_ok (pg_db w');
  rec_grows : db_grows (pg_db w) (pg_db w');
  rec_commit : ∃ w1 w2 d envs kept, unrecorded w w1 ∧
    (let '(corr, caus, trace) := lineage_of s in
     wrap_events id (Z.of_nat (length s)) corr caus trace evs w1 = (envs, w2)) ∧
    sources w' = sources w2 ∧
    outside (pg_script w) (pg_db w1) d ∧ db_grows (pg_db w1) d ∧ db_stream d id = s ∧
    event <$> kept = evs ∧ committed id (Z.of_nat (length s)) envs d (pg_db w') kept j';
}.

(** The transaction of [w], before it has written. *)
Definition opened w own id t : Prop :=
  tx_inv (pg_db w) own id 0 [] [] ∅ t ∧ ar_script own = pg_script w ∧
  moves (sources w) (ar_ids own, ar_clock own).

Lemma world_unrecorded w own w' :
  world_inv (pg_db w) own w' → ar_script own = pg_script w →
  moves (sources w) (ar_ids own, ar_clock own) → unrecorded w w'.
Proof.
  intros [Hf Hok Hg [Hi Hc] Hs Ho] Hsc Hm. rewrite Hsc in *. split; try done.
  unfold sources. by rewrite Hi, Hc.
Qed.

Lemma opened_unrecorded w own id t : opened w own id t → unrecorded w (tx_world t).
Proof. intros (Hi & ? & ?). eapply world_unrecorded; [apply (ti_world Hi)|done..]. Qed.

Lemma opened_begin w id : db_ok (pg_db w) → Forall fate_ok (pg_script w) →
  opened w (around w) id (Tx_mk w no_writes).
Proof. intros Hok Hf. split; [by apply begin_inv|]. split; [done|]. unfold sources. reflexivity. Qed.

(** Drawing inside the transaction. *)
Lemma opened_draw w own id t t' :
  opened w own id t → drawn t t' → moves (sources (tx_world t)) (sources (tx_world t')) →
  opened w (own_at t' own) id t'.
Proof.
  intros (Hi & Hs & Hm) Hd Hm'. split; [by eapply drawn_inv|]. split; [done|].
  destruct (wi_own (ti_world Hi)) as [Hg Hc]. unfold sources at 1 in Hm'. rewrite Hg, Hc in Hm'.
  by etrans.
Qed.

Lemma opened_drawn w own id t t' :
  opened w own id t → drawn t t' → draw (sources (tx_world t)) (sources (tx_world t')) →
  opened w (own_at t' own) id t' ∧ db_stream (tx_db t') id = db_stream (tx_db t) id.
Proof.
  intros Ho Hd Hm. split; [eapply opened_draw; [done..|by apply rtc_once]|].
  by destruct Hd as (_ & -> & _).
Qed.

Lemma opened_lease_id w own id t : opened w own id t →
  opened w (own_at (gen_lease_id t).2 own) id (gen_lease_id t).2 ∧
  db_stream (tx_db (gen_lease_id t).2) id = db_stream (tx_db t) id.
Proof.
  intros Ho. apply opened_drawn; [done|apply drawn_lease_id|].
  pose proof (draw_lease_id (pg_ids (tx_world t)) (pg_clock (tx_world t))) as Hm.
  unfold sources. simpl. by destruct (gen_lease_id (pg_ids (tx_world t))).
Qed.

Lemma opened_jitter w own id t : opened w own id t →
  opened w (own_at (jitter_seed t).2 own) id (jitter_seed t).2 ∧
  db_stream (tx_db (jitter_seed t).2) id = db_stream (tx_db t) id.
Proof.
  intros Ho. apply opened_drawn; [done|apply drawn_jitter|].
  pose proof (draw_jitter (pg_ids (tx_world t)) (pg_clock (tx_world t))) as Hm.
  unfold sources. simpl. by destruct (jitter_seed (pg_ids (tx_world t))).
Qed.

Lemma opened_clock w own id t : opened w own id t →
  opened w (own_at (clock_now t).2 own) id (clock_now t).2.
Proof.
  intros Ho. apply (opened_drawn w own id t); [done|apply drawn_clock|].
  pose proof (draw_time (pg_ids (tx_world t)) (pg_clock (tx_world t))) as Hm.
  unfold sources. simpl. by destruct (clock_now (pg_clock (tx_world t))).
Qed.

(** ** The locked row and its job *)

Lemma locked_job w own id t row :
  opened w own id t → ar_locks own !! JobId_as_uuid id = Some row →
  ∃ j, from_events (db_stream (tx_db t) id) = Ok j ∧ dispatched j (Some row) ∧
    job_version j = Z.of_nat (length (db_stream (tx_db t) id)) ∧
    stream_held id (db_stream (tx_db t) id) (Some row).
Proof.
  intros (Hi & _) Hl. destruct (ti_locks Hi _ _ Hl) as [_ Hrow].
  pose proof (inv_ok _ _ _ _ _ _ _ _ Hi) as Hok. unfold db_stream.
  destruct (db_log (tx_db t) !! id) as [s|] eqn:Hs; simpl.
  - pose proof (ok_streams _ Hok _ _ Hs) as Hheld. rewrite Hrow in Hheld.
    destruct (held_ok _ _ _ Hheld) as (Hlen & _ & j & Hj). exists j. split_and!; [done| | |done].
    + by apply (held_job _ _ _ Hheld).
    + by apply from_events_version.
  - apply (ok_undispatched _ Hok) in Hs. congruence.
Qed.

Lemma wp_load_opened w own id t (Q : list EventEnvelope → Tx → Prop) (X : EventStoreError → Tx → Prop) :
  opened w own id t →
  (∀ t', opened w own id t' → Q (db_stream (tx_db t') id) t') →
  (∀ e t', ¬ calm own → opened w own id t' → X e t') → wp (load_in_tx id) t Q X.
Proof.
  intros (Hi & Hs & Hm) HQ HX. apply wp_bind, wp_map_err. eapply wp_round_trip; [exact Hi| |].
  2: { intros Hnc e t' Hi'. by apply HX. }
  clear t Hi. intros _ _ t Hi. apply wp_bind, wp_get, wp_ret, wp_lift. rewrite (view_rows _ _ _ _ _ _ _ _ Hi).
  simpl. rewrite app_nil_r.
  rewrite (rows_readable _ (JobId_as_uuid id) (ok_rows _ (inv_ok _ _ _ _ _ _ _ _ Hi))).
  rewrite <-db_stream_envs by (by eapply inv_ok). by apply HQ.
Qed.

(** ** Wrap, append, commit *)

Lemma kept_plain envs kept evs :
  Forall2 kept_as envs kept → event <$> envs = evs → Forall (λ ev, carries_json ev = false) evs →
  event <$> kept = evs.
Proof.
  intros Hk <- Hp. apply similar_all_plain; [done|]. apply Forall2_fmap.
  eapply Forall2_impl; [exact Hk|]. by intros ?? [].
Qed.

Lemma wrap_in_tx w own id t t2 v corr caus trace evs envs :
  opened w own id t → wrap_events id v corr caus trace evs t = (envs, t2) →
  opened w (own_at t2 own) id t2 ∧ tx_db t2 = tx_db t ∧
  wrap_events id v corr caus trace evs (tx_world t) = (envs, tx_world t2).
Proof.
  intros Ho Hw. pose proof (drawn_wrap id v corr caus trace evs t) as Hd. rewrite Hw in Hd. simpl in Hd.
  rewrite wrap_events_tx in Hw. pose proof (wrap_moves id v corr caus trace evs (tx_world t)) as Hm.
  destruct (wrap_events id v corr caus trace evs (tx_world t)) as [envs' w2]. injection Hw as -> <-.
  split; [by eapply opened_draw|]. split; [apply Hd|done].
Qed.

(** A published append of the transaction is a record of the decision. *)
Lemma after_recorded w own id t t2 s evs envs w' j' :
  opened w own id t → s = db_stream (tx_db t) id → Forall (λ ev, carries_json ev = false) evs →
  event <$> envs = evs →
  (let '(corr, caus, trace) := lineage_of s in
   wrap_events id (Z.of_nat (length s)) corr caus trace evs t = (envs, t2)) →
  world_after (tx_db t2) (own_at t2 own) id (Z.of_nat (length s)) envs j' w' →
  recorded w id s evs w' j'.
Proof.
  intros Ho Hs Hp Hev Hwrap Ha. pose proof (opened_unrecorded _ _ _ _ Ho) as Hun.
  assert (opened w (own_at t2 own) id t2 ∧ tx_db t2 = tx_db t ∧
    (let '(corr, caus, trace) := lineage_of s in
     wrap_events id (Z.of_nat (length s)) corr caus trace evs (tx_world t) = (envs, tx_world t2)))
    as (Ho2 & Hdb & Hww).
  { destruct (lineage_of s) as [[corr caus] trace]. by eapply wrap_in_tx. }
  destruct Ho2 as (_ & Hsc & _). destruct Ha as [Hf Hok Hs' [Hi Hc] (d & kept & Hout & Hg1 & Hg2 & Hcom)].
  rewrite Hsc in *. rewrite Hdb in *. unfold tx_db in *. split; try done.
  - etrans; [apply Hun|]. by etrans.
  - exists (tx_world t), (tx_world t2), d, envs, kept. split_and!; try done.
    + unfold sources. by rewrite Hi, Hc.
    + destruct (grows_stream _ _ id Hg1) as [more Hm].
      destruct (com_acceptable _ _ _ _ _ _ _ Hcom) as (Hlen & _). rewrite Hm, <-Hs, length_app in Hlen.
      destruct more; [by rewrite Hm, app_nil_r|simpl in *; lia].
    + eapply kept_plain; [apply Hcom|done..].
Qed.

Lemma wp_record w own id t t2 s evs envs {A : Type} (f : Job → A) (Q : A → Tx → Prop)
    (X : DispatchError → Tx → Prop) :
  opened w own id t → s = db_stream (tx_db t) id → Forall (λ ev, carries_json ev = false) evs →
  evs ≠ [] → Z.of_nat (length evs) ≤ I64_MAX → event <$> envs = evs →
  (let '(corr, caus, trace) := lineage_of s in
   wrap_events id (Z.of_nat (length s)) corr caus trace evs t = (envs, t2)) →
  (∀ j' t', recorded w id s evs (tx_world t') j' → Q (f j') t') →
  (∀ e j' t', AnswerLost e ∈ pg_script w → recorded w id s evs (tx_world t') j' →
     X (Dispatch_Store (db e)) t') →
  (∀ e t', unrecorded w (tx_world t') →
     (alone (around w) → ¬ possible (tx_db t2) (own_at t2 own) id (Z.of_nat (length s)) envs) → X e t') →
  wp (let! folded := st_map_err Dispatch_Store (append_in_tx id (Z.of_nat (length s)) envs) in
      let! _ := st_map_err (Dispatch_Store ∘ db) sql_commit in
      st_ret (f folded)) t2 Q X.
Proof.
  intros Ho Hs Hp Hne Hl Hev Hwrap HQ HL HX.
  assert (opened w (own_at t2 own) id t2) as (Hi2 & Hsc & Hm).
  { destruct (lineage_of s) as [[corr caus] trace]. by eapply wrap_in_tx. }
  assert (Hafter : ∀ w' j', world_after (tx_db t2) (own_at t2 own) id (Z.of_nat (length s)) envs j' w' →
    recorded w id s evs w' j') by (intros; by eapply after_recorded).
  assert (Hback : ∀ w', world_inv (tx_db t2) (own_at t2 own) w' → unrecorded w w').
  { intros w' Hw'. eapply world_unrecorded; [|done|exact Hm].
    by eapply world_inv_trans; [exact Hw'|apply (ti_world Hi2)..]. }
  assert (envs ≠ []) as Hne' by (intros ->; by rewrite <-Hev in Hne).
  apply wp_bind, wp_map_err. eapply wp_append_in_tx with (d0 := tx_db t2);
    [by left|by eapply tx_inv_rebase|by rewrite <-Hev, length_fmap in Hl| |].
  - intros j' t' Hd. apply wp_bind, wp_map_err. eapply wp_commit; [by left|exact Hd| |].
    + intros t3 Ha. apply wp_ret, HQ. by apply Hafter.
    + intros e t3 Hnc [Hw|[Hlost Ha]].
      * apply HX; [by apply Hback|]. intros Ha. exfalso. apply Hnc, alone_calm. unfold alone in *. by rewrite Hsc.
      * rewrite Hsc in Hlost. eapply HL; [done|by apply Hafter].
  - intros e t' (Hw & Hc & _). apply HX; [by apply Hback|]. intros Ha Hpos.
    assert (Ha2 : alone (own_at t2 own)) by (unfold alone in *; by rewrite Hsc).
    destruct (Hc (alone_calm _ Ha2)) as [?|[_ Hlt]]; [done|]. destruct Hpos as [(Hlen & _) _].
    destruct (wi_alone Hw Ha2) as [_ Ht]. unfold db_stream, db_log, tx_db in *. rewrite Ht in Hlt. lia.
Qed.
End record.
