(* ===== verification/PgClaim.v ===== *)
(** * Claim, retirement and heartbeat on PostgreSQL

    What each leaves in the database, whatever other sessions do: a claim
    that answers with a job has recorded its lease on the stream it saw, a
    retirement the expiry; every other end leaves nothing behind. *)

From stdpp Require Import sorting.
From S2P Require Import Prelude Std Ids Retry Events Job Lifecycle Commands Ports UseCases Contract Kept.
From S2P Require Import Postgres PgStore PgDispatcher PgRows PgTx PgAppend PgInsert PgProject PgCommit PgPublish.
From S2P Require Import PgContract PgPick PgRecord.

Open Scope string_scope.
Open Scope list_scope.
Open Scope Z_scope.

Section claim.
Context `{ext : Externals} {pg : Postgres} {G C : Type} `{!IdGenerator G, !Clock C}.
Local Abbreviation World := (PgWorld G C).
Local Abbreviation Tx := (Tx G C).
Local Abbreviation Around := (Around G C).
Local Existing Instances Tx_Clock Tx_IdGenerator.
Implicit Types (t : Tx) (w : World) (id : JobId) (own : Around) (s envs kept : list EventEnvelope).

Lemma with_tx_runt {E T : Type} (f : ST Tx E T) (P : result T E → World → Prop) w r w' :
  wpt f (Tx_mk w no_writes) (λ a t', P (Ok a) (tx_world t')) (λ e t', P (Err e) (tx_world t'))
    (λ t', P Panic (tx_world t')) →
  with_tx f w = (r, w') → P r w'.
Proof. unfold wpt, with_tx. destruct (f _) as [[] t']; by intros ? [= <- <-]. Qed.

(** A database the claim may have seen. *)
Definition seen w d : Prop := outside (pg_script w) (pg_db w) d.

(** The lease of a job: picked first among the claimable rows nobody held,
    pending and due. *)
Record leases w (queue : QueueName) (worker : WorkerId) (now : DateTime) (ttl : Duration)
    id s (j : Job) (l : LeaseId) : Prop := {
  ls_job : from_events s = Ok j;
  ls_queue : job_queue j = queue;
  ls_event : lease j worker l now ttl = Ok (E_Leased worker l (now + ttl));
  ls_first : ∃ d now' locked row, seen w d ∧ timestamptz now = inl now' ∧ (alone (around w) → locked = ∅) ∧
    picked claim_order locked (claim_where (QueueName_as_str queue) now') (tb_dispatch (db_tables d))
      (JobId_as_uuid id) row;
}.

(** ** Beginning *)

Lemma wpt_begin w own id t {B} (k : ST Tx DispatchError B) Q (X : DispatchError → Tx → Prop) (Y : Tx → Prop) :
  opened w own id t →
  (∀ t', opened w own id t' → wpt k t' Q X Y) →
  (∀ e t', ¬ calm own → unrecorded w (tx_world t') → X e t') →
  wpt (let! _ := st_map_err (Dispatch_Store ∘ db) sql_begin in k) t Q X Y.
Proof.
  intros (Hi & Hs & Hm) HQ HX. apply wpt_step, wp_map_err. eapply wp_begin; [exact Hi| |].
  - intros t' Hi'. by apply HQ.
  - intros e t' Hnc Hi'. apply HX; [done|]. by eapply opened_unrecorded.
Qed.

Lemma opened_any w own id id' t : opened w own id t → opened w own id' t.
Proof. intros (? & ? & ?). split; [by eapply tx_inv_any|done]. Qed.

Lemma opened_seen w own id t : opened w own id t → seen w (tx_db t).
Proof. intros (Hi & Hs & _). pose proof (wi_outside (ti_world Hi)) as Ho. by rewrite Hs in Ho. Qed.

(** ** The claim *)

Lemma wp_pick_claim w own id t queue now (Q : option Uuid → Tx → Prop) (X : SqlxError → Tx → Prop) :
  opened w own id t →
  (∀ (locked : gset Uuid) d now', seen w d → timestamptz now = inl now' →
    (alone (around w) → locked = ∅) → ∀ t', opened w own id t' →
    (∀ u row, tb_dispatch (db_tables d) !! u = Some row → claim_where queue now' row = true → u ∈ locked) →
    Q None t') →
  (∀ (locked : gset Uuid) d now' u row t', seen w d → timestamptz now = inl now' →
    (alone (around w) → locked = ∅) →
    picked claim_order locked (claim_where queue now') (tb_dispatch (db_tables d)) u row →
    opened w (with_lock u row own) id t' → Q (Some u) t') →
  (∀ e t', (calm own → ¬ (text_ok queue = true ∧ time_ok now)) → opened w own id t' → X e t') →
  wp (sql_pick_claim queue now) t Q X.
Proof.
  intros Ho HN HS HX. pose proof Ho as (Hi & Hs & Hm). unfold sql_pick_claim.
  eapply wp_round_trip_locks; [exact Hi| |].
  2: { intros Hnc e t' Hi'. by apply HX. }
  clear t Hi Ho. intros jobs _ t Hlk Hi. assert (alone (around w) → jobs = ∅) as Hlk' by (unfold alone in *; by rewrite Hs in Hlk). apply wp_bind. unfold wp at 1. rewrite bind_text_run.
  destruct (text_ok queue) eqn:Hq; [|by apply HX; [intros _ [? _]|]].
  apply wp_bind, wp_lift. destruct (timestamptz now) as [now'|e] eqn:Hn; simpl.
  2: { apply HX; [|done]. intros _ [_ [? ?]]. congruence. }
  assert (opened w own id t) as Ho by done. pose proof (opened_seen _ _ _ _ Ho) as Hseen.
  eapply wp_select; [apply claim_order_total|apply claim_order_trans|exact Hi| |].
  - intros Hnone. by eapply (HN jobs (tx_db t) now').
  - intros u row t' Hp Hdb Hi'. by eapply (HS jobs (tx_db t) now').
Qed.

(** The row of a claimable job is that of a pending one, due as far as a
    column can tell. *)
Lemma claimable_job queue now now' j row :
  dispatched j (Some row) → claim_where queue now' row = true → timestamptz now = inl now' →
  QueueName_as_str (job_queue j) = queue ∧
  ∃ nb, job_state j = S_Pending nb ∧
    (eligible_at nb now = true ∨ ∃ x, nb = Some x ∧ now < x ∧ timestamptz x = inl now').
Proof.
  unfold dispatched, claim_where. intros Hd [[Hq Hl]%andb_true_iff Hnb]%andb_true_iff Hnow.
  apply bool_decide_eq_true in Hq.
  destruct (job_state j) as [nb|?? |? ? ?| | | | |]; try done; destruct Hd as (seq & nb' & Hd); try naive_solver.
  destruct Hd as [Hc [= ->]]. simpl in *. split; [done|]. exists nb. split; [done|].
  destruct nb as [x|]; [|by left]. destruct nb' as [x'|]; [|done]. simpl in *. apply Z.leb_le in Hnb.
  destruct (Z.leb_spec x now); [by left|right]. exists x. split_and!; [done|done|].
  pose proof (timestamptz_mono now x now' x' Hnow Hc). assert (x' = now') by lia. congruence.
Qed.

(** Why a claim that nothing disturbs may fail: a parameter no column takes,
    an unusable ttl, a job due within the current tick of the column, or an
    event that cannot be stored. *)
Inductive claim_excuse w (queue : QueueName) (worker : WorkerId) (now : DateTime) (ttl : Duration) : Prop :=
| excuse_parameter : ¬ (text_ok (QueueName_as_str queue) = true ∧ time_ok now) →
    claim_excuse w queue worker now ttl
| excuse_ttl : TimeDelta_from_std ttl = None → claim_excuse w queue worker now ttl
| excuse_tick d id j x now' : seen w d → from_events (db_stream d id) = Ok j →
    job_state j = S_Pending (Some x) → now < x → timestamptz now = inl now' → timestamptz x = inl now' →
    claim_excuse w queue worker now ttl
| excuse_store w1 own t id s j envs l :
    unrecorded w w1 → opened w own id t → s = db_stream (tx_db t) id → leases w queue worker now ttl id s j l →
    (let '(corr, caus, trace) := lineage_of s in
     wrap_events id (Z.of_nat (length s)) corr caus trace [E_Leased worker l (now + ttl)] w1
     = (envs, tx_world t)) →
    ¬ possible (tx_db t) own id (Z.of_nat (length s)) envs → claim_excuse w queue worker now ttl.

(** What a claim answers and leaves behind. *)
Definition claim_outcome w (queue : QueueName) (worker : WorkerId) (ttl : Duration)
    (r : result (option LeasedJob) DispatchError) w' : Prop :=
  let now := (clock_now (pg_clock w)).1 in
  match r with
  | Ok (Some lj) => ∃ s j j', leases w queue worker now ttl (leased_job_id lj) s j (leased_lease lj) ∧
      recorded w (leased_job_id lj) s [E_Leased worker (leased_lease lj) (now + ttl)] w' j' ∧
      lj = {| leased_job_id := leased_job_id lj; leased_queue := job_queue j';
              leased_payload := job_payload j'; leased_attempt := job_attempt j';
              leased_lease := leased_lease lj; leased_expires_at := now + ttl;
              leased_correlation_id := (lineage_of s).1.1; leased_traceparent := (lineage_of s).2 |}
  | Ok None => unrecorded w w' ∧ ∃ (locked : gset Uuid) d now', seen w d ∧ timestamptz now = inl now' ∧
      (alone (around w) → locked = ∅) ∧
      ∀ u row, tb_dispatch (db_tables d) !! u = Some row →
        claim_where (QueueName_as_str queue) now' row = true → u ∈ locked
  | Err e => (unrecorded w w' ∧ (alone (around w) → claim_excuse w queue worker now ttl)) ∨
      ∃ e0 id s j l j', e = Dispatch_Store (db e0) ∧ AnswerLost e0 ∈ pg_script w ∧
        leases w queue worker now ttl id s j l ∧ recorded w id s [E_Leased worker l (now + ttl)] w' j'
  | Panic => unrecorded w w' ∧ ∃ δ, TimeDelta_from_std ttl = Some δ ∧ checked_add_signed now δ = None
  end.

(** The part after the load. *)
Definition claim_rest (queue : QueueName) (worker : WorkerId) (now : DateTime) (ttl : Duration) id
    (stream : list EventEnvelope) : ST Tx DispatchError (option LeasedJob) :=
  let! job := st_lift (map_err
    (λ e, Dispatch_Store (Store_Backend ("fold: " +:+ DomainError_to_string e))) (from_events stream)) in
  let! lease_id := st_total gen_lease_id in
  let! ev := st_lift (map_err
    (λ e, Dispatch_Store (Store_Backend ("index/state drift: " +:+ DomainError_to_string e)))
    (lease job worker lease_id now ttl)) in
  let '(correlation, causation, trace) := lineage_of stream in
  let! envelopes := st_total (wrap_events id (job_version job) correlation causation trace [ev]) in
  let! expires_at := st_lift (granted_deadline envelopes) in
  let! folded := st_map_err Dispatch_Store (append_in_tx id (job_version job) envelopes) in
  let! _ := st_map_err (Dispatch_Store ∘ db) sql_commit in
  st_ret (Some
    {| leased_job_id := id; leased_queue := job_queue folded; leased_payload := job_payload folded;
       leased_attempt := job_attempt folded; leased_lease := lease_id; leased_expires_at := expires_at;
       leased_correlation_id := correlation; leased_traceparent := trace |}).

Lemma wrapped_events id v corr caus trace evs t : event <$> (wrap_events id v corr caus trace evs t).1 = evs.
Proof.
  unfold wrap_events. destruct (clock_now t) as [x t1].
  destruct (wrap_each id x corr caus trace v evs t1) as [envs t2] eqn:Hw.
  by apply wrap_each_spec in Hw as (? & _).
Qed.

(** The part after the decision. *)
Definition claim_grant id (job : Job) (lease_id : LeaseId) (stream : list EventEnvelope) (ev : JobEvent)
    : ST Tx DispatchError (option LeasedJob) :=
  let '(correlation, causation, trace) := lineage_of stream in
  let! envelopes := st_total (wrap_events id (job_version job) correlation causation trace [ev]) in
  let! expires_at := st_lift (granted_deadline envelopes) in
  let! folded := st_map_err Dispatch_Store (append_in_tx id (job_version job) envelopes) in
  let! _ := st_map_err (Dispatch_Store ∘ db) sql_commit in
  st_ret (Some
    {| leased_job_id := id; leased_queue := job_queue folded; leased_payload := job_payload folded;
       leased_attempt := job_attempt folded; leased_lease := lease_id; leased_expires_at := expires_at;
       leased_correlation_id := correlation; leased_traceparent := trace |}).

Lemma wp_claim_grant w own id t queue worker ttl s j l :
  let now := (clock_now (pg_clock w)).1 in
  opened w own id t → s = db_stream (tx_db t) id → job_version j = Z.of_nat (length s) →
  leases w queue worker now ttl id s j l →
  wp (claim_grant id j l s (E_Leased worker l (now + ttl))) t
    (λ a t', claim_outcome w queue worker ttl (Ok a) (tx_world t'))
    (λ e t', claim_outcome w queue worker ttl (Err e) (tx_world t')).
Proof.
  intros now Ho Hs Hv Hls. unfold claim_grant. rewrite Hv.
  destruct (lineage_of s) as [[corr caus] trace] eqn:Hl. apply wp_bind, wp_total.
  pose proof (wrapped_events id (Z.of_nat (length s)) corr caus trace [E_Leased worker l (now + ttl)] t) as Hev.
  destruct (wrap_events _ _ _ _ _ _ t) as [envs t2] eqn:Hw. simpl in Hev |- *.
  destruct envs as [|env [|]]; try done. apply wp_bind, wp_lift. simpl. injection Hev as Hev. rewrite Hev.
  destruct (wrap_in_tx _ _ _ _ _ _ _ _ _ _ _ Ho Hw) as (Ho2 & Hdb & Hww).
  apply (wp_record w own id t t2 s [E_Leased worker l (now + ttl)] [env] (λ folded, Some
    {| leased_job_id := id; leased_queue := job_queue folded; leased_payload := job_payload folded;
       leased_attempt := job_attempt folded; leased_lease := l; leased_expires_at := now + ttl;
       leased_correlation_id := corr; leased_traceparent := trace |})); try done.
  - by apply Forall_singleton.
  - simpl. by rewrite Hev.
  - by rewrite Hl.
  - intros j' t' Hr. exists s, j, j'. split; [done|]. split; [done|].
    unfold lineage_of in Hl. by injection Hl as <- _ <-.
  - intros e j' t' Hlost Hr. right. by exists e, id, s, j, l, j'.
  - intros e t' Hu Hno. left. split; [done|]. intros Ha.
    eapply (excuse_store w queue worker now ttl (tx_world t) (own_at t2 own) t2 id s j [env] l);
      [by eapply opened_unrecorded|done|by rewrite Hdb|done|by rewrite Hl|by apply Hno].
Qed.

Lemma wpt_claim_rest w own id t queue worker ttl locked d now' row :
  let now := (clock_now (pg_clock w)).1 in
  opened w own id t → ar_locks own !! JobId_as_uuid id = Some row →
  seen w d → timestamptz now = inl now' → (alone (around w) → locked = ∅) →
  picked claim_order locked (claim_where (QueueName_as_str queue) now') (tb_dispatch (db_tables d))
    (JobId_as_uuid id) row →
  wpt (claim_rest queue worker now ttl id (db_stream (tx_db t) id)) t
    (λ a t', claim_outcome w queue worker ttl (Ok a) (tx_world t'))
    (λ e t', claim_outcome w queue worker ttl (Err e) (tx_world t'))
    (λ t', claim_outcome w queue worker ttl Panic (tx_world t')).
Proof.
  intros now Ho Hlock Hseen Hnow Hlk Hp. set (s := db_stream (tx_db t) id).
  destruct (locked_job _ _ _ _ _ Ho Hlock) as (j & Hj & Hdis & Hv & _). fold s in Hj, Hv.
  destruct (claimable_job _ _ _ _ _ Hdis (proj1 (proj2 Hp)) Hnow) as (Hq & nb & Hst & Hdue).
  apply wpt_step, wp_lift. rewrite Hj. simpl map_err. cbn beta iota.
  apply wpt_step, wp_total. destruct (opened_lease_id _ _ _ _ Ho) as [Ho1 Hs1]. fold s in Hs1. symmetry in Hs1.
  revert Ho1 Hs1. generalize (gen_lease_id t).2 (gen_lease_id t).1. intros t1 l Ho1 Hs1.
  pose proof (opened_unrecorded _ _ _ _ Ho1) as Hun.
  unfold lease. rewrite Hst. destruct (eligible_at nb now) eqn:He.
  2: { apply wpt_bind, wpt_lift. left. split; [done|]. intros _.
    destruct Hdue as [?|(x & -> & ? & ?)]; [congruence|].
    eapply (excuse_tick w queue worker now ttl (tx_db t) id j); [by eapply opened_seen|done..]. }
  destruct (TimeDelta_from_std ttl) as [δ|] eqn:Hδ; simpl.
  2: { apply wpt_bind, wpt_lift. left. split; [done|]. intros _. by apply excuse_ttl. }
  destruct (checked_add_signed now δ) as [x|] eqn:Hx; simpl.
  2: { apply wpt_bind, wpt_lift. split; [done|]. by exists δ. }
  assert (lease j worker l now ttl = Ok (E_Leased worker l (now + ttl))) as Hev.
  { unfold lease. rewrite Hst, He, Hδ. simpl. rewrite Hx. simpl.
    apply checked_add_exact in Hx as ->. by apply from_std_exact in Hδ as ->. }
  apply checked_add_exact in Hx as ->. apply from_std_exact in Hδ as ->.
  apply wpt_step, wp_lift. simpl. apply wp_wpt. eapply (wp_claim_grant w _ id t1 queue worker ttl s j l); try done.
  split; [done| |done|by exists d, now', locked, row].
  destruct (job_queue j), queue. simpl in Hq. by rewrite Hq.
Qed.

(** Claim, by its parts. *)
Lemma pg_claim_run queue worker ttl w r w' :
  db_ok (pg_db w) → Forall fate_ok (pg_script w) →
  Postgres_claim queue worker ttl w = (r, w') → claim_outcome w queue worker ttl r w'.
Proof.
  intros Hok Hf. unfold Postgres_claim, st_bind at 1, st_total at 1. simpl clock_now.
  pose proof (opened_clock _ _ _ _ (opened_begin w (JobId_new 0) Hok Hf)) as Ho. simpl in Ho.
  destruct (clock_now (pg_clock w)) as [now c] eqn:Hc. simpl in Ho. intros Hrun.
  revert Hrun. apply with_tx_runt. apply (wpt_begin _ _ _ _ _ _ _ _ Ho).
  2: { intros e t' Hnc Hu. left. split; [done|]. intros Ha%alone_calm. by destruct Hnc. }
  clear Ho. intros t Ho. apply wpt_step, wp_map_err. eapply wp_pick_claim; [exact Ho|..].
  - intros locked d now' Hseen Hnow Hlk t' Ho' Hnone. unfold claim_outcome. simpl. rewrite ?Hc.
    split; [by eapply opened_unrecorded|]. by exists locked, d, now'.
  - intros locked d now' u row t' Hseen Hnow Hlk Hp Ho'.
    apply (opened_any _ _ _ (JobId_new u)) in Ho'. apply wpt_step, wp_map_err.
    eapply wp_load_opened; [exact Ho'| |].
    + intros t2 Ho2.
      assert (Hnow2 : timestamptz (clock_now (pg_clock w)).1 = inl now') by by rewrite Hc.
      pose proof (wpt_claim_rest w _ _ t2 queue worker ttl locked d now' row Ho2
        (lookup_insert_eq _ _ _) Hseen Hnow2 Hlk Hp) as Hr. rewrite Hc in Hr. exact Hr.
    + intros e t2 Hnc Ho2. left. split; [by eapply opened_unrecorded|].
      intros Ha%alone_calm. by destruct Hnc.
  - intros e t' Hex Ho'. left. split; [by eapply opened_unrecorded|]. intros Ha. rewrite Hc.
    by apply excuse_parameter, Hex, alone_calm.
Qed.
End claim.
