(* ===== verification/PgRetire.v ===== *)
(** * Retirement on PostgreSQL

    One expired lease at a time: the row whose deadline passed first among
    those nobody holds, in one transaction with its expiry. *)

From stdpp Require Import sorting.
From S2P Require Import Prelude Std Ids Retry Events Job Lifecycle Commands Ports UseCases Contract Kept.
From S2P Require Import Postgres PgStore PgDispatcher PgRows PgTx PgAppend PgInsert PgProject PgCommit PgPublish.
From S2P Require Import PgContract PgPick PgRecord PgClaim.

Open Scope string_scope.
Open Scope list_scope.
Open Scope Z_scope.

Section retire.
Context `{ext : Externals} {pg : Postgres} {G C : Type} `{!IdGenerator G, !Clock C}.
Local Abbreviation World := (PgWorld G C).
Local Abbreviation Tx := (Tx G C).
Local Abbreviation Around := (Around G C).
Local Existing Instances Tx_Clock Tx_IdGenerator.
Implicit Types (t : Tx) (w : World) (id : JobId) (own : Around) (s envs kept : list EventEnvelope).

(** ** Committing nothing *)

Lemma view_nothing (wr : Writes) (tb : Tables) :
  wr_events wr = ∅ → wr_dispatch wr = ∅ → wr_outbox wr = ∅ → view wr tb = tb.
Proof.
  intros He Hd Ho. unfold view. rewrite He, Hd, Ho, map_empty_union. destruct tb. simpl.
  f_equal; apply map_eq; intros k; by rewrite overlay_lookup, lookup_empty.
Qed.

Lemma publish_nothing d0 own id t :
  tx_inv d0 own id 0 [] [] ∅ t → tx_world (publish t) = tx_world t.
Proof.
  intros Hi. unfold publish, tx_view. simpl. rewrite (ti_silent Hi), app_nil_r by done.
  rewrite view_nothing by apply Hi. unfold tx_db. by destruct (tx_world t) as [[] ? ? ?].
Qed.

Lemma wp_commit_nothing w own id t (Q : unit → Tx → Prop) (X : SqlxError → Tx → Prop) :
  opened w own id t → (∀ t', unrecorded w (tx_world t') → Q tt t') →
  (∀ e t', ¬ calm own → unrecorded w (tx_world t') → X e t') → wp sql_commit t Q X.
Proof.
  intros (Hi & Hs & Hm) HQ HX.
  assert (Hpub : ∀ t', tx_inv (pg_db w) own id 0 [] [] ∅ t' → unrecorded w (tx_world (publish t'))).
  { intros t' Hi'. rewrite (publish_nothing _ _ _ _ Hi'). by eapply opened_unrecorded. }
  eapply wp_commit_cases; [exact Hi|..].
  - intros t' Ht. by apply HQ, Hpub, Ht.
  - intros e t' Hnc Ht. apply HX; [done|]. eapply opened_unrecorded. split; [by apply Ht|done].
  - intros e t' Hnc _ Ht. apply HX; [done|]. by apply Hpub, Ht.
Qed.

(** ** The retirement *)

(** The expiry of a lease: picked first among the rows past their deadline
    that nobody held. *)
Record expires w (now : DateTime) id s (j : Job) (seed : Z) (evs : list JobEvent) : Prop := {
  ex_job : from_events s = Ok j;
  ex_held : ∃ worker l x, holds worker l x (job_state j);
  ex_events : expire_lease j now seed = Ok evs;
  ex_first : ∃ d now' (locked : gset Uuid) row, seen w d ∧ timestamptz now = inl now' ∧
    (alone (around w) → locked = ∅) ∧ picked retire_order locked (retire_where now') (tb_dispatch (db_tables d)) (JobId_as_uuid id) row;
}.

Definition retire_outcome w (r : result (option JobId) DispatchError) w' : Prop :=
  let now := (clock_now (pg_clock w)).1 in
  match r with
  | Ok (Some id) => ∃ s j seed evs j', expires w now id s j seed evs ∧ recorded w id s evs w' j'
  | Ok None => unrecorded w w' ∧ ∃ (locked : gset Uuid) d now', seen w d ∧ timestamptz now = inl now' ∧
      (alone (around w) → locked = ∅) ∧
      ∀ u row, tb_dispatch (db_tables d) !! u = Some row → retire_where now' row = true → u ∈ locked
  | Err e => unrecorded w w' ∨
      ∃ e0 id s j seed evs j', e = Dispatch_Store (db e0) ∧ AnswerLost e0 ∈ pg_script w ∧
        expires w now id s j seed evs ∧ recorded w id s evs w' j'
  | Panic => False
  end.

Lemma wp_pick_expired w own id t now (Q : option Uuid → Tx → Prop) (X : SqlxError → Tx → Prop) :
  opened w own id t →
  (∀ (locked : gset Uuid) d now' t', seen w d → timestamptz now = inl now' →
    (alone (around w) → locked = ∅) → opened w own id t' →
    (∀ u row, tb_dispatch (db_tables d) !! u = Some row → retire_where now' row = true → u ∈ locked) →
    Q None t') →
  (∀ (locked : gset Uuid) d now' u row t', seen w d → timestamptz now = inl now' →
    (alone (around w) → locked = ∅) →
    picked retire_order locked (retire_where now') (tb_dispatch (db_tables d)) u row →
    opened w (with_lock u row own) id t' → Q (Some u) t') →
  (∀ e t', opened w own id t' → X e t') →
  wp (sql_pick_expired now) t Q X.
Proof.
  intros Ho HN HS HX. pose proof Ho as (Hi & Hs & Hm). unfold sql_pick_expired.
  eapply wp_round_trip_locks; [exact Hi| |].
  2: { intros Hnc e t' Hi'. by apply HX. }
  clear t Hi Ho. intros jobs _ t Hlk Hi. assert (alone (around w) → jobs = ∅) as Hlk' by (unfold alone in *; by rewrite Hs in Hlk).
  apply wp_bind, wp_lift. destruct (timestamptz now) as [now'|e] eqn:Hn; simpl; [|by apply HX].
  assert (opened w own id t) as Ho by done. pose proof (opened_seen _ _ _ _ Ho) as Hseen.
  eapply wp_select; [apply retire_order_total|apply retire_order_trans|exact Hi| |].
  - intros Hnone. by eapply (HN jobs (tx_db t) now').
  - intros u row t' Hp Hdb Hi'. by eapply (HS jobs (tx_db t) now').
Qed.

(** The row of a lease past its deadline is that of a leased or running job. *)
Lemma expired_job now' j row :
  dispatched j (Some row) → retire_where now' row = true → ∃ worker l x, holds worker l x (job_state j).
Proof.
  unfold dispatched, retire_where. intros Hd [Hl _]%andb_true_iff.
  destruct (job_state j) as [nb|w l x|w l x| | | | |]; try done; [|by exists w, l, x; constructor..].
  destruct Hd as (seq & nb' & _ & [= ->]). done.
Qed.

(** The part after the load. *)
Definition retire_rest (now : DateTime) id (stream : list EventEnvelope)
    : ST Tx DispatchError (option JobId) :=
  let! job := st_lift (map_err Dispatch_Domain (from_events stream)) in
  let! seed := st_total jitter_seed in
  let! events := st_lift (map_err Dispatch_Domain (expire_lease job now seed)) in
  let '(correlation, causation, trace) := lineage_of stream in
  let! envelopes := st_total (wrap_events id (job_version job) correlation causation trace events) in
  let! _ := st_map_err Dispatch_Store (append_in_tx id (job_version job) envelopes) in
  let! _ := st_map_err (Dispatch_Store ∘ db) sql_commit in
  st_ret (Some id).

Lemma wp_retire_rest w own id t now locked d now' row :
  now = (clock_now (pg_clock w)).1 →
  opened w own id t → ar_locks own !! JobId_as_uuid id = Some row →
  seen w d → timestamptz now = inl now' → (alone (around w) → locked = ∅) →
  picked retire_order locked (retire_where now') (tb_dispatch (db_tables d)) (JobId_as_uuid id) row →
  wp (retire_rest now id (db_stream (tx_db t) id)) t
    (λ a t', retire_outcome w (Ok a) (tx_world t')) (λ e t', retire_outcome w (Err e) (tx_world t')).
Proof.
  intros Heq Ho Hlock Hseen Hnow Hlk Hp. set (s := db_stream (tx_db t) id).
  destruct (locked_job _ _ _ _ _ Ho Hlock) as (j & Hj & Hdis & Hv & _). fold s in Hj, Hv.
  pose proof (expired_job _ _ _ Hdis (proj1 (proj2 Hp))) as Hheld.
  apply wp_bind, wp_lift. rewrite Hj. simpl map_err. cbn beta iota.
  apply wp_bind, wp_total. destruct (opened_jitter _ _ _ _ Ho) as [Ho1 Hs1]. fold s in Hs1. symmetry in Hs1.
  revert Ho1 Hs1. generalize (jitter_seed t).2 (jitter_seed t).1. intros t1 seed Ho1 Hs1.
  apply wp_bind, wp_lift. destruct (expire_lease j now seed) as [evs|e|] eqn:Hx; cbn [map_err].
  3: by apply expire_no_panic in Hx.
  2: { left. by eapply opened_unrecorded. }
  assert (expires w now id s j seed evs) as Hexp by (split; [done..|by exists d, now', locked, row]).
  assert (evs ≠ [] ∧ Z.of_nat (length evs) ≤ I64_MAX ∧ Forall (λ ev, carries_json ev = false) evs)
    as (Hne & Hle & Hp').
  { apply expire_ok in Hx as (worker & l & x & second & _ & -> & H2). split_and!; [done|done|].
    constructor; [done|]. apply Forall_singleton. by eapply retry_decision_plain. }
  rewrite Hv. destruct (lineage_of s) as [[corr caus] trace] eqn:Hl. apply wp_bind, wp_total.
  pose proof (wrapped_events id (Z.of_nat (length s)) corr caus trace evs t1) as Hev.
  destruct (wrap_events _ _ _ _ _ _ t1) as [envs t2] eqn:Hw. simpl in Hev |- *.
  apply (wp_record w (own_at t1 own) id t1 t2 s evs envs (λ _, Some id)); try done.
  - by rewrite Hl.
  - intros j1 t3 Hr. subst now. by exists s, j, seed, evs, j1.
  - intros e j1 t3 Hlost Hr. right. subst now. by exists e, id, s, j, seed, evs, j1.
  - intros e t' Hu _. by left.
Qed.

Lemma retire_run w r w' :
  db_ok (pg_db w) → Forall fate_ok (pg_script w) →
  Postgres_retire_one w = (r, w') → retire_outcome w r w'.
Proof.
  intros Hok Hf. unfold Postgres_retire_one. apply with_tx_run.
  apply wp_bind, wp_map_err. pose proof (opened_begin w (JobId_new 0) Hok Hf) as (Hi & Hs & Hm).
  eapply wp_begin; [exact Hi| |].
  2: { intros e t' _ Hi'. left. by eapply opened_unrecorded. }
  clear Hi. intros t Hi. assert (Ho : opened w (around w) (JobId_new 0) t) by done.
  apply wp_bind, wp_total. pose proof (opened_clock _ _ _ _ Ho) as Ho1.
  assert (Hnow : (clock_now t).1 = (clock_now (pg_clock w)).1).
  { destruct (wi_own (ti_world Hi)) as [_ Hc]. simpl in Hc |- *. rewrite Hc.
    by destruct (clock_now (pg_clock w)). }
  revert Ho1 Hnow. generalize (clock_now t).2 (clock_now t).1. clear t Hi Ho. intros t now Ho Hnow.
  apply wp_bind, wp_map_err. eapply wp_pick_expired; [exact Ho|..].
  - intros locked d now' t' Hseen Hn Hlk Ho' Hnone. apply wp_bind, wp_map_err.
    eapply wp_commit_nothing; [exact Ho'| |].
    + intros t2 Hu. apply wp_ret. unfold retire_outcome. rewrite <-Hnow. split; [done|].
      by exists locked, d, now'.
    + intros e t2 _ Hu. by left.
  - intros locked d now' u row t' Hseen Hn Hlk Hp Ho'.
    apply (opened_any _ _ _ (JobId_new u)) in Ho'. apply wp_bind, wp_map_err.
    eapply wp_load_opened; [exact Ho'| |].
    + intros t2 Ho2. eapply (wp_retire_rest w _ _ t2 now); [done|exact Ho2|apply lookup_insert_eq|done..].
    + intros e t2 _ Ho2. left. by eapply opened_unrecorded.
  - intros e t' Ho'. left. by eapply opened_unrecorded.
Qed.
End retire.
