(* ===== verification/PgHeartbeat.v ===== *)
(** * Heartbeats on PostgreSQL

    [extend_lease] moves the deadline of the rows under the lease that are
    still ahead of their deadline, and nothing else: no event is written. *)

From stdpp Require Import sorting.
From S2P Require Import Prelude Std Ids Retry Events Job Lifecycle Commands Ports UseCases Contract Kept.
From S2P Require Import Postgres PgStore PgDispatcher PgRows PgTx PgAppend PgInsert PgProject PgCommit PgPublish.
From S2P Require Import PgContract PgPick PgRecord PgClaim.

Open Scope string_scope.
Open Scope list_scope.
Open Scope Z_scope.

Section heartbeat.
Context `{ext : Externals} {pg : Postgres} {G C : Type} `{!IdGenerator G, !Clock C}.
Local Abbreviation World := (PgWorld G C).
Local Abbreviation Tx := (Tx G C).
Local Abbreviation Around := (Around G C).
Local Existing Instances Tx_Clock Tx_IdGenerator.
Implicit Types (t : Tx) (w : World) (id : JobId) (own : Around) (d : Db) (H : gmap Uuid DispatchRow).

(** The rows [H] get the deadline [x]. *)
Definition moved (x : DateTime) H : gmap Uuid DispatchRow := set_lease_expires_at x <$> H.

(** The rows a heartbeat on [lease] reaches at [now]. *)
Definition reached (lease : Uuid) (now : DateTime) d : gmap Uuid DispatchRow :=
  base.filter (λ x, extend_where lease now x.2 = true) (tb_dispatch (db_tables d)).

(** [d'] is [d] with new deadlines for the rows [H] of it. *)
Record extended lease (now x : DateTime) d H d' : Prop := {
  exd_rows u row : H !! u = Some row → tb_dispatch (db_tables d) !! u = Some row ∧ extend_where lease now row = true;
  exd_dispatch : tb_dispatch (db_tables d') = moved x H ∪ tb_dispatch (db_tables d);
  exd_events : tb_events (db_tables d') = tb_events (db_tables d);
  exd_outbox : tb_outbox (db_tables d') = tb_outbox (db_tables d);
  exd_workers : tb_workers (db_tables d') = tb_workers (db_tables d);
  exd_seqs : db_seqs d' = db_seqs d;
}.

(** A deadline moves within what the projection leaves open. *)
Lemma dispatched_moved x j row :
  dispatched j (Some row) → is_Some (dq_lease_id row) → dispatched j (Some (set_lease_expires_at x row)).
Proof.
  unfold dispatched. destruct (job_state j); try done.
  - intros (seq & nb' & _ & [= ->]) [? ?]. done.
  - intros (seq & t' & [= ->]) _. by exists seq, x.
  - intros (seq & t' & [= ->]) _. by exists seq, x.
Qed.

Lemma extended_ok lease now x d H d' : extended lease now x d H d' → db_ok d → db_ok d' ∧ db_grows d d'.
Proof.
  intros [Hr Hd He Ho _ Hs] [Hrows Hstr Hun Hgl Hob Han Hord].
  assert (Hlog : db_log d' = db_log d) by (unfold db_log; by rewrite He).
  assert (Hann : ∀ ob env, announces d' ob env ↔ announces d ob env) by (intros; unfold announces, db_stream; by rewrite Hlog).
  assert (Hlook : ∀ u, tb_dispatch (db_tables d') !! u = tb_dispatch (db_tables d) !! u ∨
    ∃ row, H !! u = Some row ∧ tb_dispatch (db_tables d) !! u = Some row ∧ is_Some (dq_lease_id row) ∧
      tb_dispatch (db_tables d') !! u = Some (set_lease_expires_at x row)).
  { intros u. rewrite Hd. unfold moved. destruct (H !! u) as [row|] eqn:Hu.
    - right. destruct (Hr _ _ Hu) as [Hrow [Hl _]%andb_true_iff]. exists row. split_and!; [done|done| |].
      + apply bool_decide_eq_true in Hl. by eexists.
      + apply lookup_union_Some_l. by rewrite lookup_fmap, Hu.
    - left. apply lookup_union_r. by rewrite lookup_fmap, Hu. }
  split; split; rewrite ?Hlog, ?He, ?Ho, ?Hs; try done.
  - intros id s Hls. destruct (Hstr _ _ Hls) as [? ? ? ? Hj]. split; [done..|].
    intros j Hjj. destruct (Hj j Hjj) as [? Hdis]. split; [done|].
    destruct (Hlook (JobId_as_uuid id)) as [-> | (row & _ & Hrow & Hl & ->)]; [done|].
    rewrite Hrow in Hdis. by apply dispatched_moved.
  - intros id Hn. destruct (Hlook (JobId_as_uuid id)) as [-> | (row & _ & Hrow & _)]; [by apply Hun|].
    by rewrite Hun in Hrow.
  - intros k ob (env & Henv)%Han. exists env. by apply Hann.
  - intros k1 k2 ob1 ob2 env1 env2. rewrite !Hann. by apply Hord.
  - intros id s Hls. exists []. by rewrite app_nil_r.
Qed.

(** ** The statement *)

(** The transaction has written the new deadlines of [H] and nothing else. *)
Definition beaten w own (x : DateTime) H t : Prop :=
  tx_inv (pg_db w) (Around_mk (ar_ids own) (ar_clock own) (ar_script own) H) (JobId_new 0) 0 [] []
    (Some <$> moved x H) t.

Lemma write_all x (l : list (Uuid * DispatchRow)) t :
  let t' := foldr (λ y t, write (write_dispatch y.1 (Some (set_lease_expires_at x y.2))) t) t l in
  tx_world t' = tx_world t ∧
  wr_events (tx_writes t') = wr_events (tx_writes t) ∧ wr_outbox (tx_writes t') = wr_outbox (tx_writes t) ∧
  wr_notify (tx_writes t') = wr_notify (tx_writes t) ∧
  wr_dispatch (tx_writes t')
  = list_to_map ((λ y, (y.1, Some (set_lease_expires_at x y.2))) <$> l) ∪ wr_dispatch (tx_writes t).
Proof.
  induction l as [|[u row] l (IH1 & IH2 & IH3 & IH4 & IH5)]; simpl.
  - by rewrite map_empty_union.
  - split_and!; [done..|]. by rewrite IH5, insert_union_l.
Qed.

Lemma reached_list lease now d :
  let l := base.filter (λ x, extend_where lease now x.2 = true) (map_to_list (tb_dispatch (db_tables d))) in
  reached lease now d = list_to_map l ∧ size (reached lease now d) = length l.
Proof.
  intros l. unfold reached. rewrite map_filter_alt. split; [done|]. apply map_size_list_to_map.
  apply NoDup_fmap_2_strong; [|apply NoDup_filter, NoDup_map_to_list].
  intros [u row] [u' row'] [_ H1%elem_of_map_to_list]%list_elem_of_filter
    [_ H2%elem_of_map_to_list]%list_elem_of_filter Heq. simpl in Heq. subst. congruence.
Qed.

Lemma written_list {A B} (f : A → B) (l : list (Uuid * A)) :
  list_to_map ((λ y, (y.1, f y.2)) <$> l) = f <$> (list_to_map l : gmap Uuid A).
Proof.
  induction l as [|[u a] l IH]; [symmetry; apply fmap_empty|].
  change (<[u := f a]> (list_to_map ((λ y, (y.1, f y.2)) <$> l)) = f <$> (<[u := a]> (list_to_map l : gmap Uuid A))).
  by rewrite fmap_insert, IH.
Qed.

Lemma wp_extend w own t lease deadline now (Q : Z → Tx → Prop) (X : SqlxError → Tx → Prop) :
  opened w own (JobId_new 0) t →
  (∀ d now' x t', seen w d → timestamptz now = inl now' → timestamptz deadline = inl x →
    beaten w own x (reached lease now' d) t' → Q (Z.of_nat (size (reached lease now' d))) t') →
  (∀ e t', opened w own (JobId_new 0) t' → X e t') →
  wp (sql_extend deadline lease now) t Q X.
Proof.
  intros (Hi & Hs & Hm) HQ HX. eapply wp_round_trip; [exact Hi| |].
  2: { intros _ e t' Hi'. by apply HX. }
  clear t Hi. intros _ _ t Hi. apply wp_bind, wp_lift.
  destruct (timestamptz deadline) as [x|e] eqn:Hx; cbn [of_sum]; [|by apply HX].
  apply wp_bind, wp_lift. destruct (timestamptz now) as [now'|e] eqn:Hn; cbn [of_sum]; [|by apply HX].
  apply wp_bind, wp_get. rewrite (view_dispatch _ _ _ _ _ _ Hi). apply wp_bind, wp_modify, wp_ret.
  destruct (reached_list lease now' (tx_db t)) as [Hr Hsz]. simpl in Hr, Hsz.
  set (l := base.filter _ _) in *. rewrite <-Hsz.
  destruct (write_all x l t) as (Hw1 & Hw2 & Hw3 & Hw4 & Hw5). simpl in *.
  apply (HQ (tx_db t) now' x); [by eapply (opened_seen w own (JobId_new 0))|done..|].
  rewrite (written_list (λ row, Some (set_lease_expires_at x row)) l), <-Hr, (ti_dispatch Hi), map_union_empty in Hw5.
  destruct Hi as [[] ? ? ? Hsil ? ? ? ? ? ? ?]. unfold beaten, tx_db in *.
  split; unfold tx_db; rewrite ?Hw1, ?Hw2, ?Hw3, ?Hw4, ?Hw5; try done.
  - unfold moved. by rewrite <-map_fmap_compose.
  - intros _. by apply Hsil.
  - simpl. intros u row Hu. split.
    + apply elem_of_union_l, elem_of_dom. by rewrite lookup_fmap, Hu.
    + unfold reached in Hu. by apply map_lookup_filter_Some in Hu as [? _].
Qed.

(** ** The heartbeat *)

(** What a heartbeat answers and leaves behind. *)
Definition beats w (lease : LeaseId) (ttl : Duration) (w' : World) (b : bool) : Prop :=
  let now := (clock_now (pg_clock w)).1 in
  db_ok (pg_db w') ∧ Forall fate_ok (pg_script w') ∧ pg_script w' ⊆ pg_script w ∧
  db_grows (pg_db w) (pg_db w') ∧ moves (sources w) (sources w') ∧
  ∃ d0 d now' x, seen w d0 ∧ seen w d ∧ timestamptz now = inl now' ∧ timestamptz (now + ttl) = inl x ∧
    extended (LeaseId_as_uuid lease) now' x d (reached (LeaseId_as_uuid lease) now' d0) (pg_db w') ∧
    b = negb (bool_decide (reached (LeaseId_as_uuid lease) now' d0 = ∅)).

Definition heartbeat_outcome w (lease : LeaseId) (ttl : Duration) (r : result bool DispatchError) w' : Prop :=
  let now := (clock_now (pg_clock w)).1 in
  match r with
  | Ok b => beats w lease ttl w' b
  | Err e => unrecorded w w' ∨
      ∃ e0 b, e = Dispatch_Store (db e0) ∧ AnswerLost e0 ∈ pg_script w ∧ beats w lease ttl w' b
  | Panic => unrecorded w w' ∧ ∃ δ, TimeDelta_from_std ttl = Some δ ∧ checked_add_signed now δ = None
  end.

Lemma publish_beaten w own x lease now' d0 t :
  beaten w own x (reached lease now' d0) t →
  extended lease now' x (tx_db t) (reached lease now' d0) (tx_db (publish t)).
Proof.
  intros Hi. split; try done.
  - intros u row Hu. split; [apply (ti_locks Hi _ _ Hu)|].
    unfold reached in Hu. by apply map_lookup_filter_Some in Hu as [_ ?].
  - change (tb_dispatch (db_tables (tx_db (publish t))))
      with (overlay (wr_dispatch (tx_writes t)) (tb_dispatch (db_tables (tx_db t)))).
    rewrite (ti_dispatch Hi). apply map_eq. intros u. rewrite overlay_lookup, lookup_fmap, lookup_union.
    by destruct (moved x _ !! u), (tb_dispatch _ !! u).
  - change (tb_events (db_tables (tx_db (publish t)))) with (tb_events (tx_view t)).
    rewrite (view_events _ _ _ _ _ _ _ _ Hi). apply map_empty_union.
  - change (tb_outbox (db_tables (tx_db (publish t))))
      with (overlay (wr_outbox (tx_writes t)) (tb_outbox (db_tables (tx_db t)))).
    rewrite (ti_outbox Hi). apply map_eq. intros u. simpl. by rewrite overlay_lookup, lookup_empty.
Qed.

Lemma publish_beats w own x lease ttl now' d0 t :
  let now := (clock_now (pg_clock w)).1 in
  beaten w own x (reached (LeaseId_as_uuid lease) now' d0) t →
  ar_script own = pg_script w → moves (sources w) (ar_ids own, ar_clock own) →
  seen w d0 → timestamptz now = inl now' → timestamptz (now + ttl) = inl x →
  beats w lease ttl (tx_world (publish t))
    (negb (bool_decide (reached (LeaseId_as_uuid lease) now' d0 = ∅))).
Proof.
  intros now Hi Hs Hm Hseen Hn Hx. pose proof (publish_beaten _ _ _ _ _ _ _ Hi) as Hext.
  destruct (ti_world Hi) as [Hf Hok Hg [Hg' Hc'] Hsc Hout]. simpl in *. rewrite Hs in *.
  destruct (extended_ok _ _ _ _ _ _ Hext Hok) as [Hok' Hg2]. split_and!; try done.
  - by etrans.
  - unfold sources. simpl. by rewrite Hg', Hc'.
  - by exists d0, (tx_db t), now', x.
Qed.

Lemma heartbeat_run lease ttl w r w' :
  db_ok (pg_db w) → Forall fate_ok (pg_script w) →
  Postgres_extend_lease lease ttl w = (r, w') →
  match TimeDelta_from_std ttl with
  | None => r = Err (Dispatch_Backend "ttl out of range") ∧ w' = w
  | Some _ => heartbeat_outcome w lease ttl r w'
  end.
Proof.
  intros Hok Hf. unfold Postgres_extend_lease. destruct (TimeDelta_from_std ttl) as [δ|] eqn:Hδ;
    [|by intros [= <- <-]].
  apply with_tx_runt. pose proof (opened_begin w (JobId_new 0) Hok Hf) as Ho0.
  apply (wpt_begin _ _ _ _ _ _ _ _ Ho0); [|by left]. intros t Ho. apply wpt_step, wp_total.
  pose proof (opened_clock _ _ _ _ Ho) as Ho1.
  assert (Hnow : (clock_now t).1 = (clock_now (pg_clock w)).1).
  { destruct (wi_own (ti_world (proj1 Ho))) as [_ Hc]. simpl in Hc |- *. rewrite Hc.
    by destruct (clock_now (pg_clock w)). }
  assert (Hlk : ar_locks (own_at (clock_now t).2 (around w)) = ∅) by done.
  revert Ho1 Hnow Hlk. generalize (own_at (clock_now t).2 (around w)) as own.
  generalize (clock_now t).2 (clock_now t).1. clear t Ho Ho0. intros t now own Ho Hnow Hlk.
  apply wpt_bind, wpt_lift. destruct (checked_add_signed now δ) as [deadline|] eqn:Hx; simpl.
  2: { split; [by eapply opened_unrecorded|]. rewrite <-Hnow. by exists δ. }
  apply checked_add_exact in Hx as ->. apply from_std_exact in Hδ as ->. subst now.
  apply wp_wpt, wp_bind, wp_map_err. eapply wp_extend; [exact Ho|..].
  2: { intros e t' Ho'. left. by eapply opened_unrecorded. }
  intros d now' x t' Hseen Hn Hx Hi. pose proof Ho as (_ & Hs & Hm).
  assert (Hb : ∀ t2, stable (Around_mk (ar_ids own) (ar_clock own) (ar_script own)
    (reached (LeaseId_as_uuid lease) now' d)) t' t2 → beats w lease ttl (tx_world (publish t2))
    (0 <? Z.of_nat (size (reached (LeaseId_as_uuid lease) now' d)))).
  { intros t2 Ht. replace (0 <? _) with (negb (bool_decide (reached (LeaseId_as_uuid lease) now' d = ∅))).
    - by eapply publish_beats; [apply Ht, Hi|..].
    - destruct (bool_decide_reflect (reached (LeaseId_as_uuid lease) now' d = ∅)) as [->|Hne]; [done|].
      apply map_size_non_empty_iff in Hne.
      symmetry. apply Z.ltb_lt. lia. }
  apply wp_bind, wp_map_err. eapply wp_commit_cases; [exact Hi|..].
  - intros t2 Ht. by apply wp_ret, Hb.
  - intros e t2 Hnc Ht. left. eapply world_unrecorded; [|exact Hs|exact Hm].
    destruct (ti_world (Ht _ _ _ _ _ _ Hi)). by split.
  - intros e t2 Hnc Hlost Ht. right. eexists e, _. split_and!; [done| |by apply Hb].
    simpl in Hlost. by rewrite Hs in Hlost.
Qed.
End heartbeat.
