(* ===== verification/PgRebuild.v ===== *)
(** * The dispatch table is derived state

    [rebuild_dispatch] replays the whole log into the dispatch table. On a
    database nobody else writes to (its documented precondition), whatever
    the table held about the jobs of the log, afterwards every job has the
    row its fold calls for. *)

From S2P Require Import Prelude Std Ids Retry Events Job Lifecycle Commands Ports UseCases Contract Kept.
From S2P Require Import Postgres PgStore PgRows PgTx PgAppend PgInsert PgProject PgCommit PgPublish.

Open Scope string_scope.
Open Scope list_scope.
Open Scope Z_scope.

Section rebuild.
Context `{ext : Externals} {pg : Postgres} {G C : Type}.
Local Abbreviation World := (PgWorld G C).
Local Abbreviation Tx := (Tx G C).
Implicit Types (t : Tx) (w : World) (id : JobId) (u : Uuid) (d : Db) (D : gmap Uuid (option DispatchRow)).

(** The row the fold of a job calls for: of a lease, with the deadline that
    was recorded. *)
Definition replayed (j : Job) (row : option DispatchRow) : Prop :=
  dispatched j row ∧
  match job_state j with
  | S_Leased _ _ x | S_Running _ _ x => ∃ r, row = Some r ∧ column_of (Some x) (dq_lease_expires_at r)
  | _ => True
  end.

(** A sound database, but for the contents of the dispatch table. *)
Record log_sound d : Prop := {
  ls_rows : rows_ok (tb_events (db_tables d));
  ls_streams id s : db_log d !! id = Some s → ∃ row, stream_held id s row;
  ls_orphans id : db_log d !! id = None → tb_dispatch (db_tables d) !! JobId_as_uuid id = None;
  ls_global k : is_Some (tb_events (db_tables d) !! k) → k ≤ sq_global (db_seqs d);
  ls_outbox k : is_Some (tb_outbox (db_tables d) !! k) → k ≤ sq_outbox (db_seqs d);
  ls_announced k ob : tb_outbox (db_tables d) !! k = Some ob → ∃ env, announces d ob env;
  ls_order k1 k2 ob1 ob2 env1 env2 : k1 < k2 →
    tb_outbox (db_tables d) !! k1 = Some ob1 → tb_outbox (db_tables d) !! k2 = Some ob2 →
    ob_stream_id ob1 = ob_stream_id ob2 → announces d ob1 env1 → announces d ob2 env2 →
    envelope_version env1 < envelope_version env2;
}.

Lemma db_ok_log_sound d : db_ok d → log_sound d.
Proof. intros [? Hs ? ? ? ? ?]. split; try done. intros id s Hl. eexists. by apply Hs. Qed.

(** A transaction of a session of its own, that has written [D] to the
    dispatch table and nothing else but notifications. *)
Record rebuilding w D t : Prop := {
  rb_script : pg_script (tx_world t) = [];
  rb_tables : db_tables (tx_db t) = db_tables (pg_db w);
  rb_seqs : sq_global (db_seqs (tx_db t)) = sq_global (db_seqs (pg_db w)) ∧
            sq_outbox (db_seqs (tx_db t)) = sq_outbox (db_seqs (pg_db w));
  rb_events : wr_events (tx_writes t) = ∅;
  rb_outbox : wr_outbox (tx_writes t) = ∅;
  rb_dispatch : wr_dispatch (tx_writes t) = D;
  rb_sources : pg_ids (tx_world t) = pg_ids w ∧ pg_clock (tx_world t) = pg_clock w;
}.

(** What must come of [m]. *)
Definition must {E A : Type} (m : ST Tx E A) t (Q : A → Tx → Prop) : Prop := wp m t Q (λ _ _, False).

Lemma must_statement w D t {A} (body : gset Uuid → gset Z → ST Tx SqlxError A) Q :
  rebuilding w D t → must (body ∅ ∅) t Q → must (round_trip body) t Q.
Proof. intros Hr. unfold must, wp, round_trip. by rewrite (rb_script _ _ _ Hr). Qed.

Lemma rebuilding_view w D t : rebuilding w D t → tb_events (tx_view t) = tb_events (db_tables (pg_db w)).
Proof.
  intros Hr. change (tb_events (tx_view t)) with (wr_events (tx_writes t) ∪ tb_events (db_tables (tx_db t))).
  rewrite (rb_events _ _ _ Hr), (rb_tables _ _ _ Hr). apply map_empty_union.
Qed.

(** ** Load and projection *)

Lemma rebuild_load w D t u :
  log_sound (pg_db w) → rebuilding w D t →
  load_in_tx (JobId_new u) t = (Ok (envs_of (tb_events (db_tables (pg_db w))) u), t).
Proof.
  intros Hl Hr. unfold load_in_tx, st_bind, st_map_err, sql_select_stream, round_trip.
  rewrite (rb_script _ _ _ Hr). unfold st_get, st_ret, st_lift. cbn -[tx_view].
  rewrite (rebuilding_view _ _ _ Hr). by rewrite (rows_readable _ _ (ls_rows _ Hl)).
Qed.

Lemma must_upsert w D t u row (Q : unit → Tx → Prop) :
  rebuilding w D t → (∀ seq t', rebuilding w (<[u := Some (row seq)]> D) t' → Q tt t') →
  must (upsert_dispatch u row) t Q.
Proof.
  intros [] HQ. apply wp_bind, wp_total. simpl. apply wp_bind, wp_get, wp_modify.
  eapply HQ. split; try done. simpl. by f_equal.
Qed.

Lemma must_leased w D t j wk l x :
  rebuilding w D t → text_ok (QueueName_as_str (job_queue j)) = true → text_ok (WorkerId_as_str wk) = true →
  time_ok x → job_state j = S_Leased wk l x ∨ job_state j = S_Running wk l x →
  must (st_map_err db (sql_upsert_leased (JobId_as_uuid (job_id j)) (QueueName_as_str (job_queue j))
    (priority_value (job_priority j)) (LeaseId_as_uuid l) (WorkerId_as_str wk) x)) t
    (λ _ t', ∃ row, rebuilding w (<[JobId_as_uuid (job_id j) := row]> D) t' ∧ replayed j row).
Proof.
  intros Hr Hq Hwk [x' Hx] Hst. apply wp_map_err, (must_statement w D); [done|].
  apply wp_bind. unfold wp at 1. rewrite bind_text_run, Hq.
  apply wp_bind. unfold wp at 1. rewrite bind_text_run, Hwk.
  apply wp_bind, wp_lift. rewrite Hx. simpl. eapply must_upsert; [done|]. intros seq t' Hr'.
  eexists. split; [done|]. unfold replayed, dispatched.
  destruct Hst as [-> | ->]; (split; [by eexists seq, _|by eexists]).
Qed.

Lemma must_pending w D t j nb :
  rebuilding w D t → text_ok (QueueName_as_str (job_queue j)) = true → times_ok (S_Pending nb) →
  job_state j = S_Pending nb →
  must (let! _ := st_map_err db (sql_upsert_pending (JobId_as_uuid (job_id j)) (QueueName_as_str (job_queue j))
        (priority_value (job_priority j)) nb) in
      st_map_err db (sql_notify (QueueName_as_str (job_queue j)))) t
    (λ _ t', ∃ row, rebuilding w (<[JobId_as_uuid (job_id j) := row]> D) t' ∧ replayed j row).
Proof.
  intros Hr Hq Hti Hst. apply wp_bind, wp_map_err, (must_statement w D); [done|].
  apply wp_bind. unfold wp at 1. rewrite bind_text_run, Hq. apply wp_bind.
  pose proof (bind_times_run nb t) as Hb. unfold wp at 1.
  destruct (bind_time_opt nb t) as [[nb'|e|] t'] eqn:He; [|by destruct Hb as (_ & _ & x & -> & Hx)|done].
  destruct Hb as [Hc ->]. eapply must_upsert; [done|]. intros seq t2 Hr2.
  apply wp_map_err. eapply must_statement; [done|]. apply wp_bind. unfold wp at 1. rewrite bind_text_run, Hq.
  apply wp_modify. eexists. split; [by destruct Hr2; split|]. unfold replayed, dispatched. rewrite Hst.
  split; [by eexists _, _|done].
Qed.

Lemma must_project w D t j :
  rebuilding w D t → text_ok (QueueName_as_str (job_queue j)) = true → texts_ok (job_state j) →
  times_ok (job_state j) →
  must (project_in_tx j) t
    (λ _ t', ∃ row, rebuilding w (<[JobId_as_uuid (job_id j) := row]> D) t' ∧ replayed j row).
Proof.
  intros Hr Hq Htx Hti. unfold project_in_tx.
  destruct (job_state j) as [nb|wk l x|wk l x| | | | |] eqn:Hst.
  1: by apply must_pending.
  1, 2: eapply must_leased; eauto.
  all: apply wp_map_err, (must_statement w D); [done|]; apply wp_modify; exists None;
    (split; [destruct Hr; by split; try done; simpl; f_equal|]); unfold replayed, dispatched; by rewrite Hst.
Qed.

(** ** The loop *)

(** The stream folds to a job with a dispatch row. *)
Definition dispatchable_stream d u : bool :=
  match from_events (envs_of (tb_events (db_tables d)) u) with
  | Ok j => dispatchable (job_state j)
  | _ => false
  end.

(** The row of [u] is the replay of its stream. *)
Definition replayed_stream d u (row : option DispatchRow) : Prop :=
  ∃ j, from_events (envs_of (tb_events (db_tables d)) u) = Ok j ∧ job_id j = JobId_new u ∧ replayed j row.

Lemma stream_job d u :
  log_sound d → u ∈ stream_ids (tb_events (db_tables d)) →
  ∃ j, from_events (envs_of (tb_events (db_tables d)) u) = Ok j ∧ job_id j = JobId_new u ∧
    text_ok (QueueName_as_str (job_queue j)) = true ∧ texts_ok (job_state j) ∧ times_ok (job_state j).
Proof.
  intros Hl Hu%elem_of_stream_ids.
  assert (db_log d !! JobId_new u = Some (envs_of (tb_events (db_tables d)) u)) as Hs.
  { unfold db_log. by rewrite pg_log_lookup, decide_False. }
  destruct (ls_streams _ Hl _ _ Hs) as [row Hheld].
  destruct (held_ok _ _ _ Hheld) as (_ & Hids & j & Hj). exists j. split; [done|]. split; [by eapply folded_id|].
  pose proof (read_names _ _ (rows_readable _ u (ls_rows _ Hl))) as Hn.
  destruct (job_texts _ _ Hn Hj) as [? ?]. split; [done|]. split; [done|]. by apply (held_job _ _ _ Hheld).
Qed.

Lemma must_streams w us n D t :
  log_sound (pg_db w) → rebuilding w D t → Forall (λ u, u ∈ stream_ids (tb_events (db_tables (pg_db w)))) us →
  must (rebuild_streams us n) t (λ n' t', ∃ D', rebuilding w D' t' ∧
    n' = foldl (λ n u, if dispatchable_stream (pg_db w) u then u32_add n 1 else n) n us ∧
    (∀ u, u ∈ us → ∃ row, D' !! u = Some row ∧ replayed_stream (pg_db w) u row) ∧
    ∀ u, u ∉ us → D' !! u = D !! u).
Proof.
  intros Hl. revert n D t. induction us as [|u us IH]; intros n D t Hr Hus.
  { apply wp_ret. exists D. split_and!; [done|done|by intros u ?%elem_of_nil|done]. }
  apply Forall_cons in Hus as [Hu Hus]. destruct (stream_job _ _ Hl Hu) as (j & Hj & Hid & Hq & Htx & Hti).
  assert (dispatchable_stream (pg_db w) u = dispatchable (job_state j)) as Hdis
    by (unfold dispatchable_stream; by rewrite Hj).
  simpl. apply wp_bind. unfold wp at 1. rewrite (rebuild_load _ _ _ _ Hl Hr).
  apply wp_bind, wp_lift. rewrite Hj. simpl. apply wp_bind. eapply wp_mono; [by eapply must_project| |done].
  intros _ t1 (row & Hr1 & Hrow). rewrite Hid in Hr1. simpl in Hr1.
  eapply wp_mono; [by eapply IH| |done]. intros n' t' (D' & Hr' & -> & Hin & Hout). exists D'.
  split; [done|]. split; [simpl; by rewrite Hdis|]. split.
  - intros u' [->|Hu']%elem_of_cons; [|by apply Hin]. destruct (decide (u ∈ us)) as [Hu'|Hu']; [by apply Hin|].
    exists row. rewrite (Hout _ Hu'), lookup_insert_eq. split; [done|]. by exists j.
  - intros u' [Hne Hu']%not_elem_of_cons. by rewrite (Hout _ Hu'), lookup_insert_ne.
Qed.

Lemma count_wraps (p : Uuid → bool) us n :
  foldl (λ n u, if p u then u32_add n 1 else n) (wrap 32 n) us
  = wrap 32 (n + Z.of_nat (length (base.filter (λ u, p u = true) us))).
Proof.
  revert n. induction us as [|u us IH]; intros n; simpl; [by rewrite Z.add_0_r|]. destruct (p u) eqn:Hp.
  - rewrite filter_cons_True by done. simpl.
    assert (u32_add (wrap 32 n) 1 = wrap 32 (n + 1)) as -> by apply Zplus_mod_idemp_l.
    rewrite IH. f_equal. lia.
  - rewrite filter_cons_False by by rewrite Hp. apply IH.
Qed.

(** ** The replay *)

(** What the transaction of [rebuild_dispatch] has written by its commit. *)
Definition rebuilt w (us : list Uuid) (r : result Z EventStoreError) w' : Prop :=
  ∃ t D, w' = tx_world (publish t) ∧ rebuilding w D t ∧
    r = Ok (foldl (λ n u, if dispatchable_stream (pg_db w) u then u32_add n 1 else n) 0 us) ∧
    (∀ u, u ∈ us → ∃ row, D !! u = Some row ∧ replayed_stream (pg_db w) u row) ∧
    ∀ u, u ∉ us → D !! u = None.

Lemma rebuild_run w r w' :
  log_sound (pg_db w) → pg_script w = [] → rebuild_dispatch w = (r, w') →
  ∃ us, us ≡ₚ elements (stream_ids (tb_events (db_tables (pg_db w)))) ∧ rebuilt w us r w'.
Proof.
  intros Hl Hsc. set (m := tb_events (db_tables (pg_db w))).
  set (us := order_by (λ a b, min_global_seq m a <=? min_global_seq m b) (elements (stream_ids m))).
  intros Hrun. exists us. split; [apply order_by_perm|]. revert Hrun. apply (with_tx_run _ (rebuilt w us)).
  assert (Hr : rebuilding w ∅ (Tx_mk w no_writes)) by by split.
  eapply (wp_mono _ _ (λ n t', rebuilt w us (Ok n) (tx_world t')) (λ _ _, False)); [|done..].
  apply wp_bind, wp_map_err, (must_statement w ∅); [done|]. apply wp_ret, wp_bind, wp_map_err.
  eapply must_statement; [done|]. apply wp_bind, wp_get, wp_ret.
  rewrite (rebuilding_view _ _ _ Hr). fold m. fold us. apply wp_bind.
  eapply wp_mono; [eapply must_streams; [done|done|]| |done].
  { apply Forall_forall. intros u. unfold us. by rewrite order_by_perm, elem_of_elements. }
  intros n t (D & Hr' & -> & Hin & Hout). apply wp_bind, wp_map_err.
  unfold wp at 1, sql_commit. rewrite (rb_script _ _ _ Hr'). apply wp_ret. by exists t, D.
Qed.

(** The tables after the commit. *)
Lemma rebuilt_tables w D t :
  rebuilding w D t → log_sound (pg_db w) →
  (∀ u, u ∈ stream_ids (tb_events (db_tables (pg_db w))) →
     ∃ row, D !! u = Some row ∧ replayed_stream (pg_db w) u row) →
  (∀ u, u ∉ stream_ids (tb_events (db_tables (pg_db w))) → D !! u = None) →
  tb_events (tx_view t) = tb_events (db_tables (pg_db w)) ∧
  tb_outbox (tx_view t) = tb_outbox (db_tables (pg_db w)) ∧
  ∀ u, if decide (u ∈ stream_ids (tb_events (db_tables (pg_db w))))
       then replayed_stream (pg_db w) u (tb_dispatch (tx_view t) !! u)
       else tb_dispatch (tx_view t) !! u = None.
Proof.
  intros Hr Hl Hin Hout. split; [by apply (rebuilding_view _ D)|]. split.
  { change (tb_outbox (tx_view t)) with (overlay (wr_outbox (tx_writes t)) (tb_outbox (db_tables (tx_db t)))).
    rewrite (rb_outbox _ _ _ Hr), (rb_tables _ _ _ Hr). apply map_eq. intros k. by rewrite overlay_lookup, lookup_empty. }
  intros u. change (tb_dispatch (tx_view t)) with (overlay (wr_dispatch (tx_writes t)) (tb_dispatch (db_tables (tx_db t)))).
  rewrite overlay_lookup, (rb_dispatch _ _ _ Hr), (rb_tables _ _ _ Hr). case_decide as Hu.
  - by destruct (Hin _ Hu) as (row & -> & ?).
  - rewrite (Hout _ Hu). apply (ls_orphans _ Hl (JobId_new u)). unfold db_log.
    rewrite pg_log_lookup, decide_True; [done|]. simpl. apply dec_stable. by rewrite <-elem_of_stream_ids.
Qed.

Lemma replayed_some d u row : replayed_stream d u row → is_Some row ↔ dispatchable_stream d u = true.
Proof.
  intros (j & Hj & _ & Hd & _). unfold dispatchable_stream. rewrite Hj. unfold dispatched in Hd.
  destruct (job_state j); simpl; naive_solver.
Qed.

Lemma rebuilt_size d (m : gmap Uuid DispatchRow) us :
  us ≡ₚ elements (stream_ids (tb_events (db_tables d))) →
  (∀ u, if decide (u ∈ stream_ids (tb_events (db_tables d)))
        then replayed_stream d u (m !! u) else m !! u = None) →
  size m = length (base.filter (λ u, dispatchable_stream d u = true) us).
Proof.
  intros Hus Hm. assert (NoDup us) as Hnd by (rewrite Hus; apply NoDup_elements).
  rewrite <-size_dom, <-(size_list_to_set (C:=gset Uuid)) by by apply NoDup_filter.
  f_equal. apply set_eq. intros u. rewrite elem_of_dom, elem_of_list_to_set, list_elem_of_filter, Hus, elem_of_elements.
  specialize (Hm u). case_decide as Hu.
  - rewrite (replayed_some _ _ _ Hm). naive_solver.
  - rewrite Hm. split; [by intros [??]|naive_solver].
Qed.

(** C22: Rebuilding the dispatch table: whatever the table held about the jobs of
    the log, afterwards it has exactly the rows their folds call for and the
    database is sound; the log and the outbox are as they were, and the
    answer counts the rows. *)
Theorem rebuild_replays_log w :
  log_sound (pg_db w) → pg_script w = [] →
  ∃ w', let tb := db_tables (pg_db w') in
    rebuild_dispatch w = (Ok (wrap 32 (Z.of_nat (size (tb_dispatch tb)))), w') ∧
    db_ok (pg_db w') ∧ tb_events tb = tb_events (db_tables (pg_db w)) ∧
    tb_outbox tb = tb_outbox (db_tables (pg_db w)) ∧
    ∀ id j, from_events (db_stream (pg_db w) id) = Ok j →
      replayed j (tb_dispatch tb !! JobId_as_uuid id).
Proof.
  intros Hl Hsc.
  destruct (rebuild_dispatch w) as [r w'] eqn:Hrun.
  destruct (rebuild_run _ _ _ Hl Hsc Hrun) as (us & Hus & t & D & -> & Hr & -> & Hin & Hout).
  assert (Hmem : ∀ u, u ∈ us ↔ u ∈ stream_ids (tb_events (db_tables (pg_db w)))).
  { intros u. by rewrite Hus, elem_of_elements. }
  destruct (rebuilt_tables w D t Hr Hl) as (Hev & Hob & Hrow); [intros u ?%Hmem; auto|intros u Hu; apply Hout; by rewrite Hmem|].
  exists (tx_world (publish t)). cbv zeta. change (db_tables (pg_db (tx_world (publish t)))) with (tx_view t).
  assert (Hlog : db_log (pg_db (tx_world (publish t))) = db_log (pg_db w)).
  { unfold db_log. change (db_tables (pg_db (tx_world (publish t)))) with (tx_view t). by rewrite Hev. }
  assert (Hann : ∀ ob env, announces (pg_db (tx_world (publish t))) ob env ↔ announces (pg_db w) ob env)
    by (intros; unfold announces, db_stream; by rewrite Hlog).
  assert (Hrep : ∀ id s j, db_log (pg_db w) !! id = Some s → from_events s = Ok j →
    replayed j (tb_dispatch (tx_view t) !! JobId_as_uuid id)).
  { intros id s j Hs Hj. specialize (Hrow (JobId_as_uuid id)). unfold db_log in Hs. rewrite pg_log_lookup in Hs.
    case_decide as Hn; [done|]. injection Hs as <-. rewrite decide_True in Hrow by by apply elem_of_stream_ids.
    destruct Hrow as (j' & Hj' & _ & ?). congruence. }
  split_and!; [|split|done|done|].
  - do 2 f_equal. erewrite rebuilt_size by done. change 0 with (wrap 32 0) at 1. by rewrite count_wraps.
  - change (db_tables (pg_db (tx_world (publish t)))) with (tx_view t). rewrite Hev. apply Hl.
  - intros id s Hs. rewrite Hlog in Hs. destruct (ls_streams _ Hl _ _ Hs) as [row [Hok Hlen Htr Hnd Hj]].
    split; [done..|]. intros j Hjs. split; [by apply Hj|]. by apply (Hrep id s).
  - intros id Hs. rewrite Hlog in Hs. specialize (Hrow (JobId_as_uuid id)).
    change (db_tables (pg_db (tx_world (publish t)))) with (tx_view t). rewrite decide_False in Hrow; [done|].
    rewrite elem_of_stream_ids. unfold db_log in Hs. rewrite pg_log_lookup in Hs. case_decide; [tauto|done].
  - intros k. change (db_tables (pg_db (tx_world (publish t)))) with (tx_view t).
    change (db_seqs (pg_db (tx_world (publish t)))) with (db_seqs (tx_db t)). rewrite Hev, (proj1 (rb_seqs _ _ _ Hr)). apply Hl.
  - intros k. change (db_tables (pg_db (tx_world (publish t)))) with (tx_view t).
    change (db_seqs (pg_db (tx_world (publish t)))) with (db_seqs (tx_db t)). rewrite Hob, (proj2 (rb_seqs _ _ _ Hr)). apply Hl.
  - intros k ob. change (db_tables (pg_db (tx_world (publish t)))) with (tx_view t). rewrite Hob.
    intros (env & Han)%(ls_announced _ Hl). exists env. by apply Hann.
  - intros k1 k2 ob1 ob2 env1 env2. change (db_tables (pg_db (tx_world (publish t)))) with (tx_view t).
    rewrite Hob, !Hann. apply Hl.
  - intros id j Hj. unfold db_stream in Hj. destruct (db_log (pg_db w) !! id) as [s|] eqn:Hs; [|done]. by apply (Hrep id s).
Qed.
End rebuild.
