(* ===== verification/PgSystem.v ===== *)
(** * The broker on PostgreSQL

    The store and the dispatcher keep the contracts of [Contract] and
    [System], so what is proved of the broker against these contracts holds
    of the broker on PostgreSQL; and what each call promises when other
    brokers work on the same database. *)

From stdpp Require Import sorting.
From S2P Require Import Prelude Std Ids Retry Events Job Lifecycle Commands Ports UseCases Contract UseCaseFacts System Kept.
From S2P Require Import Postgres PgStore PgDispatcher PgRows PgTx PgAppend PgInsert PgProject PgCommit PgPublish.
From S2P Require Import PgContract PgPick PgRecord PgClaim PgRetire PgHeartbeat.

Open Scope string_scope.
Open Scope list_scope.
Open Scope Z_scope.

Section alone.
Context `{ext : Externals} {pg : Postgres} {G C : Type}.
Context `{!IdGenerator G, !Clock C, !FreshIdSource G, !SaneClock C}.
Local Abbreviation World := (PgWorld G C).
Implicit Types (w : World) (id : JobId) (s envs kept : list EventEnvelope) (d : Db).

(** ** The dispatcher keeps its contract *)

Lemma moves_spent (a b : G * C) u : moves a b → spent a.1 u → spent b.1 u.
Proof.
  induction 1 as [|a b c Hd _ IH]; [done|]. intros Hs. apply IH. destruct Hd; simpl in *;
    [by apply job_id_spent|by apply event_id_spent|by apply lease_id_spent|by apply correlation_id_spent
    |by apply jitter_spent|done].
Qed.

Lemma moves_sane (a b : G * C) : moves a b → sane a.2 → sane b.2.
Proof. induction 1 as [|a b c Hd _ IH]; [done|]. intros Hs. apply IH. destruct Hd; simpl in *; [done..|by apply sane_now]. Qed.

Lemma unrecorded_healthy w w' :
  pg_healthy w → unrecorded w w' → pg_healthy w' ∧ db_log (pg_db w') = db_log (pg_db w).
Proof.
  intros [Hok Hsc Hids Hcl] [Hf Hs Hok' _ Hout Hm]. rewrite Hsc in *. apply list_nil_subseteq in Hs.
  apply outside_alone in Hout. assert (db_log (pg_db w') = db_log (pg_db w)) as Hlog by (unfold db_log; by rewrite Hout).
  split; [split|done]; [done|done| |by apply (moves_sane _ _ Hm)].
  intros u (i & s & env & Hls & ?). apply (moves_spent _ _ u Hm), Hids. exists i, s, env. by rewrite <-Hlog.
Qed.

Lemma recorded_healthy w id s evs w' j' :
  pg_healthy w → recorded w id s evs w' j' → s ≠ [] →
  pg_healthy w' ∧ ∃ envs, db_log (pg_db w) !! id = Some s ∧ event <$> envs = evs ∧
    db_log (pg_db w') = <[id := s ++ envs]> (db_log (pg_db w)) ∧
    Forall (λ env, stream_id env = id) envs ∧ from_events (s ++ envs) = Ok j'.
Proof.
  intros Hw [Hf Hs Hok' _ (w1 & w2 & d & envs & kept & Hu & Hwrap & Hsrc & Hout & _ & Hst & Hev & Hcom)] Hne.
  destruct (unrecorded_healthy _ _ Hw Hu) as [Hw1 Hlog1]. pose proof Hw as [_ Hsc _ _]. rewrite Hsc in *.
  apply list_nil_subseteq in Hs. apply outside_alone in Hout.
  assert (db_log d = db_log (pg_db w)) as Hlog by (rewrite <-Hlog1; unfold db_log; by rewrite Hout).
  assert (Hprep : pg_prepared w2 envs ∧ moves (sources w1) (sources w2)).
  { destruct (lineage_of s) as [[corr caus] trace]. split; [by eapply wrap_events_prepared|].
    pose proof (wrap_moves id (Z.of_nat (length s)) corr caus trace evs w1) as Hm. by rewrite Hwrap in Hm. }
  destruct Hprep as [[Hp _] Hm]. injection Hsrc as Hi Hc. split.
  - split; [done|done| |rewrite Hc; apply (moves_sane _ _ Hm), Hw1]. intros u Hused. rewrite Hi.
    destruct (committed_used _ _ _ _ _ _ _ _ Hcom Hused) as [(i & s' & env & Hls & ?)|(env & Hin & <-)].
    + apply (moves_spent _ _ u Hm), Hw1. exists i, s', env. by rewrite Hlog1, <-Hlog.
    + rewrite Forall_forall in Hp. by apply Hp.
  - exists kept. unfold db_stream in Hst. rewrite Hlog in Hst. split_and!; [|done| | |].
    + by destruct (db_log (pg_db w) !! id); simpl in Hst; subst.
    + rewrite (com_log _ _ _ _ _ _ _ Hcom). unfold db_stream. by rewrite Hlog, Hst.
    + eapply kept_ids; [apply (com_kept _ _ _ _ _ _ _ Hcom)|].
      by destruct (com_acceptable _ _ _ _ _ _ _ Hcom) as (_ & _ & ? & _).
    + pose proof (com_job _ _ _ _ _ _ _ Hcom) as Hj. unfold db_stream in Hj. by rewrite Hlog, Hst in Hj.
Qed.

Lemma recorded_log w id s j c evs w' j' :
  pg_healthy w → recorded w id s evs w' j' → from_events s = Ok j → exec c j = Ok evs →
  log_step (db_log (pg_db w)) (db_log (pg_db w')) ∧ pg_healthy w'.
Proof.
  intros Hw Hr Hj Hc.
  destruct (recorded_healthy _ _ _ _ _ _ Hw Hr) as (Hw' & envs & Hs & Hev & Hlog & Hids & Hj');
    [by eapply from_events_nonempty|]. split; [|done]. rewrite Hlog. by eapply log_command.
Qed.

Lemma unrecorded_log w w' (P : Prop) :
  pg_healthy w → unrecorded w w' → log_step (db_log (pg_db w)) (db_log (pg_db w')) ∧ (P → pg_healthy w').
Proof. intros Hw Hu. destruct (unrecorded_healthy _ _ Hw Hu) as [? ->]. split; [constructor|done]. Qed.

#[export] Instance Postgres_DispatcherContract : DispatcherContract World.
Proof.
  split.
  - intros w q wk ttl r w' Hw _ Hrun. pose proof Hw as [Hok Hsc _ _].
    apply pg_claim_run in Hrun; [|done|by rewrite Hsc].
    destruct r as [[lj|]|e|]; simpl in Hrun.
    + destruct Hrun as (s & j & j' & Hl & Hr & _).
      eapply recorded_log with (c := C_Lease wk (leased_lease lj) (clock_now (pg_clock w)).1 ttl) in Hr
        as [? ?]; [done|done|apply Hl|]. simpl. by rewrite (ls_event _ _ _ _ _ _ _ _ _ Hl).
    + destruct Hrun as [Hu _]. exact (unrecorded_log w w' _ Hw Hu).
    + destruct Hrun as [[Hu _]|(e0 & id & s & j & l & j' & _ & Hlost & _)]; [exact (unrecorded_log w w' _ Hw Hu)|].
      rewrite Hsc in Hlost. by apply elem_of_nil in Hlost.
    + destruct Hrun as [Hu _]. exact (unrecorded_log w w' _ Hw Hu).
  - intros w l ttl r w' Hw Hrun. pose proof Hw as [Hok Hsc Hids Hcl].
    apply heartbeat_run in Hrun; [|done|by rewrite Hsc].
    destruct (TimeDelta_from_std ttl); [|by destruct Hrun as [_ ->]].
    assert (Hun : unrecorded w w' → db_log (pg_db w') = db_log (pg_db w) ∧ (r ≠ Panic → pg_healthy w')).
    { intros Hu. destruct (unrecorded_healthy _ _ Hw Hu). auto. }
    destruct r as [b|e|]; simpl in Hrun; [|destruct Hrun as [Hu|(e0 & b & _ & Hlost & _)]; [by apply Hun|]|].
    + destruct Hrun as (Hok' & Hf & Hs & _ & Hm & d0 & d & now' & x & _ & Hd & _ & _ & Hext & _).
      rewrite Hsc in *. unfold seen in Hd. rewrite Hsc in Hd. apply list_nil_subseteq in Hs. apply outside_alone in Hd.
      assert (db_log (pg_db w') = db_log (pg_db w)) as Hlog.
      { unfold db_log. by rewrite (exd_events _ _ _ _ _ _ Hext), Hd. }
      split; [done|]. intros _. split; [done|done| |by apply (moves_sane _ _ Hm)].
      intros u (i & s & env & Hls & ?). apply (moves_spent _ _ u Hm), Hids. exists i, s, env. by rewrite <-Hlog.
    + rewrite Hsc in Hlost. by apply elem_of_nil in Hlost.
    + destruct Hrun as [Hu _]. by apply Hun.
  - intros w r w' Hw _ Hrun. pose proof Hw as [Hok Hsc _ _].
    apply retire_run in Hrun; [|done|by rewrite Hsc].
    destruct r as [[id|]|e|]; simpl in Hrun; [| | |done].
    + destruct Hrun as (s & j & seed & evs & j' & Hx & Hr).
      eapply recorded_log with (c := C_Expire (clock_now (pg_clock w)).1 seed) in Hr as [? ?];
        [done|done|apply Hx|apply Hx].
    + destruct Hrun as [Hu _]. exact (unrecorded_log w w' _ Hw Hu).
    + destruct Hrun as [Hu|(e0 & id & s & j & seed & evs & j' & _ & Hlost & _)]; [exact (unrecorded_log w w' _ Hw Hu)|].
      rewrite Hsc in Hlost. by apply elem_of_nil in Hlost.
Qed.

(** ** A claim that nothing disturbs *)

Lemma leased_acceptable w queue worker now ttl id s j l v envs :
  leases w queue worker now ttl id s j l → stream_ok id s → v = Z.of_nat (length s) →
  sequential v envs → Forall (λ env, stream_id env = id) envs →
  event <$> envs = [E_Leased worker l (now + ttl)] → acceptable s id v envs.
Proof.
  intros Hl (Hlen & _) -> Hseq Hids Hev. split_and!; [done..|].
  pose proof (ls_job _ _ _ _ _ _ _ _ _ Hl) as Hj. pose proof (ls_event _ _ _ _ _ _ _ _ _ Hl) as He.
  rewrite from_events_app, Hj by (by eapply from_events_nonempty). simpl.
  apply lease_ok in He as (nb & Hst & _ & _ & _).
  destruct (apply_cases (E_Leased worker l (now + ttl)) j) as [(s' & _ & Ha)|[Hn _]].
  - eexists. apply fold_rest_ok. rewrite (from_events_version _ _ Hj Hlen), Hev. split; [done|].
    simpl. by rewrite Ha.
  - exfalso. eapply Hn. rewrite Hst. constructor.
Qed.

Lemma claim_possible w w1 own t queue worker now ttl id s j envs l :
  pg_healthy w → unrecorded w w1 → opened w own id t → s = db_stream (tx_db t) id →
  leases w queue worker now ttl id s j l → pg_storable (E_Leased worker l (now + ttl)) →
  (let '(corr, caus, trace) := lineage_of s in
   wrap_events id (Z.of_nat (length s)) corr caus trace [E_Leased worker l (now + ttl)] w1 = (envs, tx_world t)) →
  Z.of_nat (length s) < I64_MAX → possible (tx_db t) own id (Z.of_nat (length s)) envs.
Proof.
  intros Hw Hu Ho Hs Hl Hst Hwrap Hlen. destruct (unrecorded_healthy _ _ Hw Hu) as [Hw1 _].
  destruct (unrecorded_healthy _ _ Hw (opened_unrecorded _ _ _ _ Ho)) as [Ht _].
  destruct (lineage_of s) as [[corr caus] trace] eqn:Hlin.
  assert (healthy w1) as Hw1' by exact Hw1.
  destruct (wrap_events_spec _ _ _ _ _ _ _ _ _ Hw1' Hwrap) as (_ & Hlog & Hev & Hseq & Hwr).
  pose proof (wrap_events_prepared _ _ _ _ _ _ _ _ _ Hw1 Hwrap) as Hp.
  pose proof (ls_job _ _ _ _ _ _ _ _ _ Hl) as Hj. pose proof (from_events_nonempty _ _ Hj) as Hne.
  assert (Hls : db_log (tx_db t) !! id = Some s).
  { unfold db_stream in Hs. destruct (db_log (tx_db t) !! id); simpl in Hs; subst; done. }
  pose proof (ok_streams _ (ph_ok _ Ht) _ _ Hls) as [Hok _ Htr _].
  assert (possible (tx_db t) (around (tx_world t)) id (Z.of_nat (length s)) envs) as Hpos.
  { apply prepared_possible; [done|done| | | |].
    - change (pg_db (tx_world t)) with (tx_db t). rewrite <-Hs. by eapply leased_acceptable; [..|by eapply wrapped_stream_ids|].
    - change (pg_db (tx_world t)) with (tx_db t). rewrite <-Hs. apply (f_equal length) in Hev.
      rewrite length_fmap in Hev. rewrite Hev. simpl. lia.
    - rewrite Hev. by apply Forall_singleton.
    - eapply Forall_impl; [exact Hwr|]. intros env (_ & _ & _ & -> & _).
      change trace with (corr, caus, trace).2. rewrite <-Hlin. unfold lineage_of. simpl.
      destruct s as [|env0 s]; [done|]. by apply Forall_cons in Htr as [? _]. }
  destruct Hpos as (Ha & Hb & Hf & Hnd & Hun & Hid). split; [done|]. split; [done|]. split; [done|]. split; [done|].
  split; [|done]. eapply Forall_impl; [exact Hun|]. intros env Hn d Hd. apply Hn.
  destruct Ho as (Hi & Hsc & _). rewrite Hsc, (ph_script _ Hw) in Hd. simpl. by rewrite (ph_script _ Ht).
Qed.
End alone.
