(* ===== verification/PgPromises.v ===== *)
(** * What the PostgreSQL adapters promise

    Each call of one broker, with any number of other brokers on the same
    database: what it leaves there for every answer, lost answers and
    failures included; and what it does when nothing disturbs it. *)

From stdpp Require Import sorting.
From S2P Require Import Prelude Std Ids Retry Events Job Lifecycle Commands Ports UseCases Contract UseCaseFacts System Kept.
From S2P Require Import Postgres PgStore PgDispatcher PgRows PgTx PgAppend PgInsert PgProject PgCommit PgPublish.
From S2P Require Import PgContract PgPick PgRecord PgClaim PgRetire PgHeartbeat PgSystem PgRelay PgRelayFacts.

Open Scope string_scope.
Open Scope list_scope.
Open Scope Z_scope.

Section shared.
Context `{ext : Externals} {pg : Postgres} {G C : Type} `{!IdGenerator G, !Clock C}.
Local Abbreviation World := (PgWorld G C).
Implicit Types (w : World) (id : JobId) (s envs kept : list EventEnvelope) (d : Db).

(** Between [d] and [d'] one stream got the events [evs], decided on all of
    it, with its lineage; the job is [j'] now, and its dispatch row says so.
    No other job's row moved. *)
Definition grew id s (evs : list JobEvent) (j' : Job) d d' : Prop :=
  db_stream d id = s ∧
  (∃ kept, db_log d' = <[id := s ++ kept]> (db_log d) ∧ event <$> kept = evs ∧
    sequential (Z.of_nat (length s)) kept ∧
    (let '(corr, caus, trace) := lineage_of s in Forall (wrapped id corr caus trace) kept) ∧
    from_events (s ++ kept) = Ok j') ∧
  dispatched j' (tb_dispatch (db_tables d') !! JobId_as_uuid id) ∧
  ∀ u, u ≠ JobId_as_uuid id → tb_dispatch (db_tables d') !! u = tb_dispatch (db_tables d) !! u.

Lemma wrap_events_wrapped id v corr caus trace evs w envs w' :
  wrap_events id v corr caus trace evs w = (envs, w') → Forall (wrapped id corr caus trace) envs.
Proof.
  unfold wrap_events. destruct (clock_now w) as [x w1]. intros Hw.
  by apply wrap_each_spec in Hw as (_ & _ & ?).
Qed.

Lemma recorded_grew w id s evs w' j' :
  recorded w id s evs w' j' →
  db_ok (pg_db w') ∧ db_grows (pg_db w) (pg_db w') ∧
  ∃ d, seen w d ∧ grew id s evs j' d (pg_db w').
Proof.
  intros [Hf Hsc Hok Hg (w1 & w2 & d & envs & kept & Hu & Hwrap & _ & Ho & _ & Hs & Hev & Hcom)].
  split; [done|]. split; [done|]. exists d. split.
  { unfold seen. etrans; [apply (un_outside _ _ Hu)|done]. }
  pose proof (com_kept _ _ _ _ _ _ _ Hcom) as Hk. pose proof (com_acceptable _ _ _ _ _ _ _ Hcom) as (_ & Hseq & _).
  pose proof (com_log _ _ _ _ _ _ _ Hcom) as Hlog. pose proof (com_job _ _ _ _ _ _ _ Hcom) as Hj.
  rewrite Hs in Hlog, Hj. split; [done|]. split; [|split; [apply Hcom|]].
  - exists kept. split; [done|]. split; [done|]. split; [by eapply kept_sequential|]. split; [|done].
    destruct (lineage_of s) as [[corr caus] trace]. eapply kept_wrapped; [done|]. by eapply wrap_events_wrapped.
  - intros u Hu'. by eapply (com_others _ _ _ _ _ _ _ Hcom).
Qed.

(** Every call leaves a sound database in which streams have only grown. *)

Definition kept_sound w w' : Prop := db_ok (pg_db w') ∧ db_grows (pg_db w) (pg_db w').

Lemma unrecorded_sound w w' : unrecorded w w' → kept_sound w w' ∧ seen w (pg_db w').
Proof. by intros []. Qed.

Lemma recorded_sound w id s evs w' j' : recorded w id s evs w' j' → kept_sound w w'.
Proof. by intros []. Qed.

Lemma append_sound id expected envs w r w' :
  db_ok (pg_db w) → Forall fate_ok (pg_script w) → envs ≠ [] → Z.of_nat (length envs) ≤ I64_MAX →
  Postgres_append id expected envs w = (r, w') → kept_sound w w'.
Proof.
  intros Hok Hf Hne Hl Hrun. apply append_run in Hrun; [|done..|by left|done].
  assert (Hdone : ∀ j, world_after (pg_db w) (around w) id expected envs j w' → kept_sound w w').
  { intros j [_ Hok' _ _ (d & kept & _ & Hg & Hg' & _)]. split; [done|by etrans]. }
  destruct r as [[]|e|]; [| |done].
  - destruct Hrun as [j Ha]. by eapply Hdone.
  - destruct Hrun as [(e0 & j & _ & _ & Ha)|([] & _)]; [by eapply Hdone|by split].
Qed.

Lemma claim_sound queue worker ttl w r w' :
  db_ok (pg_db w) → Forall fate_ok (pg_script w) → Postgres_claim queue worker ttl w = (r, w') →
  kept_sound w w'.
Proof.
  intros Hok Hf Hrun. apply pg_claim_run in Hrun; [|done..]. destruct r as [[lj|]|e|]; simpl in Hrun.
  - destruct Hrun as (s & j & j' & _ & Hr & _). by eapply recorded_sound.
  - by apply unrecorded_sound, Hrun.
  - destruct Hrun as [[Hu _]|(e0 & id & s & j & l & j' & _ & _ & _ & Hr)];
      [by apply unrecorded_sound|by eapply recorded_sound].
  - by apply unrecorded_sound, Hrun.
Qed.

Lemma retire_sound w r w' :
  db_ok (pg_db w) → Forall fate_ok (pg_script w) → Postgres_retire_one w = (r, w') → kept_sound w w'.
Proof.
  intros Hok Hf Hrun. apply retire_run in Hrun; [|done..]. destruct r as [[id|]|e|]; simpl in Hrun; [| | |done].
  - destruct Hrun as (s & j & seed & evs & j' & _ & Hr). by eapply recorded_sound.
  - by apply unrecorded_sound, Hrun.
  - destruct Hrun as [Hu|(e0 & id & s & j & seed & evs & j' & _ & _ & _ & Hr)];
      [by apply unrecorded_sound|by eapply recorded_sound].
Qed.

Lemma heartbeat_sound lease ttl w r w' :
  db_ok (pg_db w) → Forall fate_ok (pg_script w) → Postgres_extend_lease lease ttl w = (r, w') →
  kept_sound w w'.
Proof.
  intros Hok Hf Hrun. apply heartbeat_run in Hrun; [|done..].
  destruct (TimeDelta_from_std ttl); [|by destruct Hrun as [_ ->]].
  assert (Hb : ∀ b, beats w lease ttl w' b → kept_sound w w') by (intros b (? & _ & _ & ? & _); by split).
  destruct r as [b|e|]; simpl in Hrun; [by eapply Hb| |by apply unrecorded_sound, Hrun].
  destruct Hrun as [Hu|(e0 & b & _ & _ & Hbt)]; [by apply unrecorded_sound|by eapply Hb].
Qed.

(** ** The append *)

(** C4: An append is atomic, whatever other brokers commit and whatever fails
    around its round trips: either the whole batch has joined the stream at
    the expected version of the state it met, with its announcements in the
    outbox and the dispatch row its fold calls for, and the answer is [Ok]
    unless that answer was lost; or the database shows none of it and the
    answer is an error. *)
Theorem append_atomic id expected envs w r w' :
  db_ok (pg_db w) → Forall fate_ok (pg_script w) → envs ≠ [] → Z.of_nat (length envs) ≤ I64_MAX →
  Postgres_append id expected envs w = (r, w') →
  db_ok (pg_db w') ∧ db_grows (pg_db w) (pg_db w') ∧
  ((∃ d kept j, seen w d ∧ committed id expected envs d (pg_db w') kept j ∧
      (r = Ok tt ∨ ∃ e, AnswerLost e ∈ pg_script w ∧ r = Err (db e))) ∨
   (seen w (pg_db w') ∧ ∃ e, r = Err e)).
Proof.
  intros Hok Hf Hne Hl Hrun. destruct (append_sound _ _ _ _ _ _ Hok Hf Hne Hl Hrun) as [Hok' Hg].
  split; [done|]. split; [done|]. apply append_run in Hrun; [|done..|by left|done]. destruct r as [[]|e|]; [| |done].
  - left. destruct Hrun as (j & [_ _ _ _ (d & kept & Ho & _ & _ & Hcom)]). exists d, kept, j. auto.
  - destruct Hrun as [(e0 & j & -> & Hlost & [_ _ _ _ (d & kept & Ho & _ & _ & Hcom)])|(Hi & _ & _)].
    + left. exists d, kept, j. split; [done|]. split; [done|]. right. by exists e0.
    + right. split; [apply (wi_outside Hi)|by exists e].
Qed.

(** C14: With other brokers at work but nothing failing, an append that was
    possible when it began either goes through or is refused with
    [VersionConflict] because the stream has really moved on. *)
Theorem append_under_contention id expected envs w r w' :
  db_ok (pg_db w) → Forall fate_ok (pg_script w) → calm (around w) →
  envs ≠ [] → possible (pg_db w) (around w) id expected envs →
  Postgres_append id expected envs w = (r, w') →
  (r = Ok tt ∧ ∃ d kept j, seen w d ∧ committed id expected envs d (pg_db w') kept j) ∨
  (r = Err (VersionConflict id expected) ∧ seen w (pg_db w') ∧
   expected < Z.of_nat (length (db_stream (pg_db w') id))).
Proof.
  intros Hok Hf Hc Hne Hpos Hrun.
  assert (Z.of_nat (length envs) ≤ I64_MAX) as Hl.
  { destruct Hpos as ((Hex & _) & Hl & _). lia. }
  apply append_run in Hrun; [|done..|by left|done]. destruct r as [[]|e|]; [| |done].
  - left. destruct Hrun as (j & [_ _ _ _ (d & kept & Ho & _ & _ & Hcom)]). split; [done|]. by exists d, kept, j.
  - right. destruct Hrun as [(e0 & j & _ & Hlost & _)|(Hi & Hno & _)].
    { destruct (Hc _ Hlost) as (? & ? & ? & ?). done. }
    destruct (Hno Hc) as [?|[-> Hlt]]; [done|]. split; [done|]. split; [apply (wi_outside Hi)|done].
Qed.

(** ** Claim *)

Lemma leased_after s kept j worker l x j' :
  from_events s = Ok j → event <$> kept = [E_Leased worker l x] → from_events (s ++ kept) = Ok j' →
  job_state j' = S_Leased worker l x ∧ job_queue j' = job_queue j ∧
  job_payload j' = job_payload j ∧ job_attempt j' = job_attempt j.
Proof.
  intros Hj Hev. rewrite from_events_app, Hj by (by eapply from_events_nonempty). simpl.
  intros [_ Ha]%fold_rest_ok. rewrite Hev in Ha. simpl in Ha.
  destruct (apply (E_Leased worker l x) j) as [[[]| |] j1] eqn:Hap; [|done..]. injection Ha as <-.
  apply apply_ok_inv in Hap as (s' & Hs & ->). simpl. by inversion Hs.
Qed.

(** The lease [l] was given to [worker] on the whole of the stream [s] of
    [id]: the job was pending, due, and in the queue. *)
Definition granted w (queue : QueueName) (worker : WorkerId) (ttl : Duration) id s (j : Job) (l : LeaseId) d'
    : Prop :=
  let now := (clock_now (pg_clock w)).1 in
  from_events s = Ok j ∧ job_queue j = queue ∧
  (∃ nb, job_state j = S_Pending nb ∧ eligible_at nb now = true) ∧
  ∃ d j', seen w d ∧ grew id s [E_Leased worker l (now + ttl)] j' d d' ∧
    job_state j' = S_Leased worker l (now + ttl).

Lemma recorded_granted w queue worker ttl id s j l w' j' :
  let now := (clock_now (pg_clock w)).1 in
  leases w queue worker now ttl id s j l → recorded w id s [E_Leased worker l (now + ttl)] w' j' →
  granted w queue worker ttl id s j l (pg_db w') ∧ job_queue j' = queue ∧
  job_payload j' = job_payload j ∧ job_attempt j' = job_attempt j.
Proof.
  intros now [Hj Hq He _] Hr. apply recorded_grew in Hr as (_ & _ & d & Hd & Hg).
  pose proof Hg as (_ & (kept & _ & Hev & _ & _ & Hj') & _).
  apply (leased_after _ _ _ _ _ _ _ Hj Hev) in Hj' as (Hst & Hq' & ? & ?).
  apply lease_ok in He as (nb & Hp & Hdue & _). subst queue. split; [|done].
  split; [done|]. split; [done|]. split; [by exists nb|]. by exists d, j'.
Qed.

(** C7: A claim is atomic: a lease that is answered, or whose answer was lost,
    is recorded as the one event the claim decided on the whole stream of a
    pending, due job of the queue, with its dispatch row; in every other case
    the claim has left nothing. It panics only on a deadline that is no
    date. *)
Theorem claim_atomic queue worker ttl w r w' :
  db_ok (pg_db w) → Forall fate_ok (pg_script w) → Postgres_claim queue worker ttl w = (r, w') →
  let now := (clock_now (pg_clock w)).1 in
  db_ok (pg_db w') ∧ db_grows (pg_db w) (pg_db w') ∧
  match r with
  | Ok (Some lj) => leased_queue lj = queue ∧ leased_expires_at lj = now + ttl ∧
      ∃ s j, granted w queue worker ttl (leased_job_id lj) s j (leased_lease lj) (pg_db w') ∧
        leased_payload lj = job_payload j ∧ leased_attempt lj = job_attempt j
  | Ok None => seen w (pg_db w')
  | Err e => seen w (pg_db w') ∨
      ∃ e0 id s j l, AnswerLost e0 ∈ pg_script w ∧ e = Dispatch_Store (db e0) ∧
        granted w queue worker ttl id s j l (pg_db w')
  | Panic => seen w (pg_db w') ∧
      ∃ δ, TimeDelta_from_std ttl = Some δ ∧ checked_add_signed now δ = None
  end.
Proof.
  intros Hok Hf Hrun now. destruct (claim_sound _ _ _ _ _ _ Hok Hf Hrun) as [Hok' Hg].
  split; [done|]. split; [done|]. apply pg_claim_run in Hrun; [|done..]. destruct r as [[lj|]|e|]; simpl in Hrun.
  - destruct Hrun as (s & j & j' & Hl & Hr & Hlj).
    destruct (recorded_granted _ _ _ _ _ _ _ _ _ _ Hl Hr) as (Hgr & Hq & Hp & Ha).
    split; [by rewrite Hlj|]. split; [by rewrite Hlj|]. exists s, j. split; [done|]. by rewrite Hlj.
  - by apply unrecorded_sound, Hrun.
  - destruct Hrun as [[Hu _]|(e0 & id & s & j & l & j' & -> & Hlost & Hl & Hr)].
    + left. by apply unrecorded_sound.
    + right. exists e0, id, s, j, l. split; [done|]. split; [done|]. by eapply recorded_granted.
  - destruct Hrun as [Hu Hd]. split; [by apply unrecorded_sound|done].
Qed.

(** ** Retirement *)

(** The lease of [id] was past its deadline in the dispatch table, and its
    expiry is recorded on the whole of the stream [s]. *)
Definition retired w id s (j : Job) (l : LeaseId) d' : Prop :=
  let now := (clock_now (pg_clock w)).1 in
  from_events s = Ok j ∧ (∃ worker x, holds worker l x (job_state j)) ∧
  (∃ d now' row t, seen w d ∧ timestamptz now = inl now' ∧
    tb_dispatch (db_tables d) !! JobId_as_uuid id = Some row ∧ dq_lease_expires_at row = Some t ∧ t ≤ now') ∧
  ∃ d seed second j', seen w d ∧ grew id s [E_LeaseExpired l; second] j' d d' ∧
    retry_decision_event j (u32_add (job_attempt j) 1) now seed = Ok second ∧
    job_attempt j' = u32_add (job_attempt j) 1 ∧ ∀ worker l' x, ¬ holds worker l' x (job_state j').

Lemma expired_after s kept j l second now seed j' :
  from_events s = Ok j → event <$> kept = [E_LeaseExpired l; second] → from_events (s ++ kept) = Ok j' →
  retry_decision_event j (u32_add (job_attempt j) 1) now seed = Ok second →
  job_attempt j' = u32_add (job_attempt j) 1 ∧ ∀ worker l' x, ¬ holds worker l' x (job_state j').
Proof.
  intros Hj Hev. rewrite from_events_app, Hj by (by eapply from_events_nonempty). simpl.
  intros [_ Ha]%fold_rest_ok Hd. rewrite Hev in Ha. simpl in Ha.
  destruct (apply (E_LeaseExpired l) j) as [[[]| |] j1] eqn:Hap; [|done..].
  apply apply_ok_inv in Hap as (s1 & _ & ->). destruct (apply second _) as [[[]| |] j2] eqn:Hap2 in Ha; [|done..].
  injection Ha as <-. apply apply_ok_inv in Hap2 as (s2 & Hs2 & ->).
  apply retry_decision_ok in Hd as [[_ ->]|(_ & delay & _ & ->)]; simpl;
    (split; [done|]); intros worker l' x Hh; inversion Hs2; subst; inversion Hh.
Qed.

Lemma recorded_retired w id s j seed evs w' j' :
  let now := (clock_now (pg_clock w)).1 in
  expires w now id s j seed evs → recorded w id s evs w' j' → ∃ l, retired w id s j l (pg_db w').
Proof.
  intros now [Hj _ He (d & now' & locked & row & Hseen & Hnow & _ & Hrow & Hw & _)] Hr.
  apply recorded_grew in Hr as (_ & _ & d1 & Hd1 & Hg).
  pose proof Hg as (_ & (kept & _ & Hev & _ & _ & Hj') & _).
  apply expire_ok in He as (worker & l & x & second & Hh & -> & Hdec).
  destruct (expired_after _ _ _ _ _ _ _ _ Hj Hev Hj' Hdec) as [Ha Hn].
  exists l. split; [done|]. split; [by exists worker, x|]. split.
  - unfold retire_where in Hw. destruct (dq_lease_expires_at row) as [t|] eqn:Ht;
      [|by rewrite andb_false_r in Hw]. apply andb_true_iff in Hw as [_ Hle%Z.leb_le].
    by exists d, now', row, t.
  - by exists d1, seed, second, j'.
Qed.

(** C15: A retirement is atomic: the job it answers had a lease past its deadline
    in the dispatch table and now has the expiry with its retry decision on
    record, one attempt counted and no lease; in every other case it has left
    nothing, and it never panics. *)
Theorem retirement_atomic w r w' :
  db_ok (pg_db w) → Forall fate_ok (pg_script w) → Postgres_retire_one w = (r, w') →
  db_ok (pg_db w') ∧ db_grows (pg_db w) (pg_db w') ∧
  match r with
  | Ok (Some id) => ∃ s j l, retired w id s j l (pg_db w')
  | Ok None => seen w (pg_db w')
  | Err e => seen w (pg_db w') ∨
      ∃ e0 id s j l, AnswerLost e0 ∈ pg_script w ∧ e = Dispatch_Store (db e0) ∧ retired w id s j l (pg_db w')
  | Panic => False
  end.
Proof.
  intros Hok Hf Hrun. destruct (retire_sound _ _ _ Hok Hf Hrun) as [Hok' Hg].
  split; [done|]. split; [done|]. apply retire_run in Hrun; [|done..].
  destruct r as [[id|]|e|]; simpl in Hrun; [| | |done].
  - destruct Hrun as (s & j & seed & evs & j' & Hx & Hr).
    destruct (recorded_retired _ _ _ _ _ _ _ _ Hx Hr) as [l Hl]. by exists s, j, l.
  - by apply unrecorded_sound, Hrun.
  - destruct Hrun as [Hu|(e0 & id & s & j & seed & evs & j' & -> & Hlost & Hx & Hr)].
    + left. by apply unrecorded_sound.
    + right. destruct (recorded_retired _ _ _ _ _ _ _ _ Hx Hr) as [l Hl]. by exists e0, id, s, j, l.
Qed.

(** ** Heartbeat *)

Lemma reached_some lease now d :
  negb (bool_decide (reached lease now d = ∅)) = true ↔
  ∃ u row t, tb_dispatch (db_tables d) !! u = Some row ∧
    dq_lease_id row = Some lease ∧ dq_lease_expires_at row = Some t ∧ now < t.
Proof.
  rewrite negb_true_iff, bool_decide_eq_false. unfold reached, extend_where. split.
  - intros (u & row & [Hu Hw]%map_lookup_filter_Some)%map_choose. simpl in Hw.
    apply andb_true_iff in Hw as [Hl%bool_decide_eq_true Ht].
    destruct (dq_lease_expires_at row) as [t|] eqn:He; [|done]. exists u, row, t. apply Z.ltb_lt in Ht. done.
  - intros (u & row & t & Hu & Hl & Ht & Hlt) He. assert (base.filter (λ x, (bool_decide (dq_lease_id x.2 = Some lease) &&
      match dq_lease_expires_at x.2 with None => false | Some t => now <? t end)%bool = true)
      (tb_dispatch (db_tables d)) !! u = Some row) as Hin; [|by rewrite He, lookup_empty in Hin].
    apply map_lookup_filter_Some. split; [done|]. simpl. rewrite Hl, Ht, bool_decide_true by done.
    by apply Z.ltb_lt.
Qed.

(** C16: A heartbeat is atomic: it moves to the new deadline exactly the rows of
    the lease whose deadline was ahead, and answers whether there was one; an
    error means that nothing moved, unless the answer was lost. *)
Theorem heartbeat_atomic lease ttl w r w' :
  db_ok (pg_db w) → Forall fate_ok (pg_script w) → Postgres_extend_lease lease ttl w = (r, w') →
  let now := (clock_now (pg_clock w)).1 in
  let moved_to b := ∃ d0 d now' x, seen w d0 ∧ seen w d ∧
    timestamptz now = inl now' ∧ timestamptz (now + ttl) = inl x ∧
    extended (LeaseId_as_uuid lease) now' x d (reached (LeaseId_as_uuid lease) now' d0) (pg_db w') ∧
    (b = true ↔ ∃ u row t, tb_dispatch (db_tables d0) !! u = Some row ∧
      dq_lease_id row = Some (LeaseId_as_uuid lease) ∧ dq_lease_expires_at row = Some t ∧ now' < t) in
  db_ok (pg_db w') ∧ db_grows (pg_db w) (pg_db w') ∧
  match r with
  | Ok b => moved_to b
  | Err e => seen w (pg_db w') ∨
      ∃ e0 b, AnswerLost e0 ∈ pg_script w ∧ e = Dispatch_Store (db e0) ∧ moved_to b
  | Panic => seen w (pg_db w') ∧
      ∃ δ, TimeDelta_from_std ttl = Some δ ∧ checked_add_signed now δ = None
  end.
Proof.
  intros Hok Hf Hrun now moved_to. destruct (heartbeat_sound _ _ _ _ _ Hok Hf Hrun) as [Hok' Hg].
  split; [done|]. split; [done|]. apply heartbeat_run in Hrun; [|done..].
  destruct (TimeDelta_from_std ttl) as [δ|] eqn:Hδ.
  2: { destruct Hrun as [-> ->]. left. unfold seen. reflexivity. }
  assert (Hb : ∀ b, beats w lease ttl w' b → moved_to b).
  { intros b (_ & _ & _ & _ & _ & d0 & d & now' & x & ? & ? & ? & ? & ? & ->).
    exists d0, d, now', x. split_and!; try done. apply reached_some. }
  destruct r as [b|e|]; simpl in Hrun.
  - by apply Hb.
  - destruct Hrun as [Hu|(e0 & b & -> & Hlost & Hbt)]; [left; by apply unrecorded_sound|].
    right. exists e0, b. auto.
  - destruct Hrun as [Hu (δ' & Hd & ?)]. split; [by apply unrecorded_sound|]. exists δ'. by rewrite <-Hδ.
Qed.
End shared.

(** ** Other brokers *)

Section sessions.
Context `{ext : Externals} {pg : Postgres} {G C : Type} `{!IdGenerator G, !Clock C}.
Context {S : Type} `{!EventSink S}.
Local Abbreviation World := (PgWorld G C).

(** Another broker, wherever its own calls are disturbed, is a session of
    the kind the theorems above allow around this one. *)
Definition session (call : World → World) : Prop :=
  ∀ script (g : G) (c : C) jobs outbox, Forall fate_ok script →
    fate_ok (Runs (λ d, pg_db (call (PgWorld_mk d script g c))) jobs outbox).

(** C8: What the theorems about one broker assume of the others, every broker
    keeps, in each of its calls, in every environment of the same kind: the
    calls of any number of brokers compose. *)
Theorem brokers_are_sessions id expected envs queue worker lease ttl batch (sink : S) attempt seen_on dropped :
  envs ≠ [] → Z.of_nat (length envs) ≤ I64_MAX →
  session (λ w, (Postgres_append id expected envs w).2) ∧
  session (λ w, (Postgres_claim queue worker ttl w).2) ∧
  session (λ w, (Postgres_extend_lease lease ttl w).2) ∧
  session (λ w, (Postgres_retire_one w).2) ∧
  session (λ w, rw_world (relay_once batch (RelayWorld_mk w sink)).2) ∧
  session (λ w, pp_world (PgPresence_seen attempt worker seen_on (PgPresence_mk w dropped))) ∧
  session (PgSignal_notify queue).
Proof.
  intros Hne Hl. split_and!; intros script g c jobs outbox Hs d Hd;
    [..|by apply (presence_sound attempt worker seen_on (PgPresence_mk (PgWorld_mk d script g c) dropped))
    |by apply (notify_sound queue (PgWorld_mk d script g c))];
    lazymatch goal with
    | |- db_ok (pg_db (rw_world (?call ?w0).2)) ∧ _ => destruct (call w0) as [r w'] eqn:Hrun; simpl
    | |- db_ok (pg_db (?call ?w0).2) ∧ _ => destruct (call w0) as [r w'] eqn:Hrun; simpl
    end.
  - by eapply append_sound in Hrun.
  - by eapply claim_sound in Hrun.
  - by eapply heartbeat_sound in Hrun.
  - by eapply retire_sound in Hrun.
  - by eapply relay_sound in Hrun.
Qed.
End sessions.

(** ** A broker of its own *)

Section alone.
Context `{ext : Externals} {pg : Postgres} {G C : Type}.
Context `{!IdGenerator G, !Clock C, !FreshIdSource G, !SaneClock C}.
Local Abbreviation World := (PgWorld G C).
Implicit Types (w : World) (id : JobId) (s envs kept : list EventEnvelope) (d : Db).

(** C20: An append on an undisturbed database: a batch that continues the stream
    and that the columns hold is accepted and loads back behind what was
    there, event for event; a batch that does not is refused and every stream
    loads as before. *)
Theorem append_loads_back id expected envs w :
  pg_healthy w → pg_prepared w envs →
  Z.of_nat (length (db_stream (pg_db w) id) + length envs) ≤ I64_MAX →
  ∃ r w', Postgres_append id expected envs w = (r, w') ∧ pg_healthy w' ∧
    (acceptable (db_stream (pg_db w) id) id expected envs → Forall pg_storable (event <$> envs) →
     Forall (λ env, trace_ok (traceparent env)) envs →
     r = Ok tt ∧ ∃ kept, Forall2 kept_as envs kept ∧ event <$> kept = event <$> envs ∧
       Postgres_load id w' = (Ok (db_stream (pg_db w) id ++ kept), w')) ∧
    (¬ acceptable (db_stream (pg_db w) id) id expected envs →
     r ≠ Ok tt ∧ (Postgres_load id w').1 = (Postgres_load id w).1) ∧
    ∀ id', id' ≠ id → (Postgres_load id' w').1 = (Postgres_load id' w).1.
Proof.
  intros Hw Hp Hl. destruct (append_alone w id expected envs Hw Hp Hl) as (r & w' & Hrun & Hw' & Hc).
  exists r, w'. split; [done|]. split; [done|].
  assert (Hload : ∀ id', db_log (pg_db w') !! id' = db_log (pg_db w) !! id' →
    (Postgres_load id' w').1 = (Postgres_load id' w).1) by (intros id' He; by rewrite !load_alone, He).
  destruct Hc as [(Hacc & -> & kept & Hk & Hsame & Hlog)|(Hlog & Hno & Hr)].
  - split; [|split; [done|]].
    + intros _ Hst _. split; [done|]. exists kept. split; [done|]. split; [by apply Hsame|].
      by rewrite load_alone, Hlog, lookup_insert_eq.
    + intros id' Hne. apply Hload. by rewrite Hlog, lookup_insert_ne.
  - split; [intros ? ? ?; by destruct Hno|]. split; [|intros id' _; apply Hload; by rewrite Hlog].
    intros _. split; [|apply Hload; by rewrite Hlog].
    case_decide; [by destruct Hr as [msg ->]|by rewrite Hr].
Qed.

(** A pending job of the queue that is due. *)
Definition due d (queue : QueueName) (now : DateTime) id : Prop :=
  ∃ j nb, from_events (db_stream d id) = Ok j ∧ job_queue j = queue ∧
    job_state j = S_Pending nb ∧ eligible_at nb now = true.

(** What this claim needs: a ttl and a time it can record, room in every
    stream, and no job that becomes due within the current tick of the
    column. *)
Record claim_ready w (queue : QueueName) (worker : WorkerId) (ttl : Duration) : Prop := {
  cr_queue : text_ok (QueueName_as_str queue) = true;
  cr_ttl : is_Some (TimeDelta_from_std ttl ≫= checked_add_signed (clock_now (pg_clock w)).1);
  cr_event l : pg_storable (E_Leased worker l ((clock_now (pg_clock w)).1 + ttl));
  cr_room id : Z.of_nat (length (db_stream (pg_db w) id)) < I64_MAX;
  cr_tick id j x : from_events (db_stream (pg_db w) id) = Ok j → job_state j = S_Pending (Some x) →
    (clock_now (pg_clock w)).1 < x → timestamptz x ≠ timestamptz (clock_now (pg_clock w)).1;
}.

Lemma seen_alone w d : pg_script w = [] → seen w d → db_tables d = db_tables (pg_db w).
Proof. unfold seen. intros ->. apply outside_alone. Qed.

Lemma same_tables_stream d d' id : db_tables d' = db_tables d → db_stream d' id = db_stream d id.
Proof. intros Ht. unfold db_stream, db_log. by rewrite Ht. Qed.

(** The dispatch row of a pending job is claimable when the job is due, and
    already when it becomes due within the tick. *)
Lemma pending_claimable d id j nb now now' :
  db_ok d → timestamptz now = inl now' → from_events (db_stream d id) = Ok j → job_state j = S_Pending nb →
  eligible_at nb now = true ∨ (∃ x, nb = Some x ∧ timestamptz x = inl now') →
  ∃ row, tb_dispatch (db_tables d) !! JobId_as_uuid id = Some row ∧
    claim_where (QueueName_as_str (job_queue j)) now' row = true.
Proof.
  intros Hd Hn Hj Hst Hdue. destruct (db_stream_held _ id Hd) as [Hnil|Hheld]; [by rewrite Hnil in Hj|].
  destruct (held_job _ _ _ Hheld _ Hj) as [_ Hrow]. unfold dispatched in Hrow. rewrite Hst in Hrow.
  destruct Hrow as (seq & nb' & Hc & ->). eexists. split; [done|]. unfold claim_where. simpl.
  rewrite bool_decide_true by done. simpl. destruct nb as [x|], nb' as [x'|]; try done. simpl in Hc. apply Z.leb_le.
  destruct Hdue as [Hdue|(y & [= <-] & Hy)]; [|rewrite Hy in Hc; injection Hc as ->; lia].
  apply Z.leb_le in Hdue. by eapply timestamptz_mono.
Qed.

Lemma due_claimable d queue now now' id :
  db_ok d → timestamptz now = inl now' → due d queue now id →
  ∃ row, tb_dispatch (db_tables d) !! JobId_as_uuid id = Some row ∧
    claim_where (QueueName_as_str queue) now' row = true.
Proof. intros Hd Hn (j & nb & Hj & <- & Hst & Hdue). eapply pending_claimable; eauto. Qed.

(** A claim that is ready has no excuse. *)
Lemma ready_no_excuse queue worker ttl w :
  pg_healthy w → claim_ready w queue worker ttl →
  ¬ claim_excuse w queue worker (clock_now (pg_clock w)).1 ttl.
Proof.
  intros Hw [Hq [x Hx] Hev Hroom Htick] Hex. pose proof Hw as [Hok Hsc _ Hcl].
  destruct Hex as [Hno|Hno|d id j y now' Hd Hj Hst Hlt Hn Hy|w1 own t id s j envs l Hu Ho Hs Hl Hwrap Hno].
  - apply Hno. split; [done|]. by apply sane_now.
  - by rewrite Hno in Hx.
  - rewrite (same_tables_stream _ _ id (seen_alone _ _ Hsc Hd)) in Hj. apply (Htick _ _ _ Hj Hst Hlt). congruence.
  - apply Hno. eapply claim_possible; [exact Hw|exact Hu|exact Ho|exact Hs|exact Hl|apply Hev|exact Hwrap|].
    rewrite Hs, (same_tables_stream _ _ id (seen_alone _ _ Hsc (opened_seen _ _ _ _ Ho))). apply Hroom.
Qed.

(** C17: A claim on an undisturbed database answers nothing only if no job of the
    queue is due; otherwise it leases the due job that comes first, by
    priority and then by the order of its dispatch row. *)
Theorem claim_serves_due_jobs queue worker ttl w :
  pg_healthy w → claim_ready w queue worker ttl →
  let now := (clock_now (pg_clock w)).1 in
  ∃ r w', Postgres_claim queue worker ttl w = (Ok r, w') ∧ pg_healthy w' ∧
  match r with
  | None => (∀ id, ¬ due (pg_db w) queue now id) ∧ db_log (pg_db w') = db_log (pg_db w)
  | Some lj =>
      let id := leased_job_id lj in
      due (pg_db w) queue now id ∧
      (∃ kept, db_log (pg_db w') = <[id := db_stream (pg_db w) id ++ kept]> (db_log (pg_db w)) ∧
        event <$> kept = [E_Leased worker (leased_lease lj) (now + ttl)]) ∧
      ∃ row, tb_dispatch (db_tables (pg_db w)) !! JobId_as_uuid id = Some row ∧
        ∀ id' row', due (pg_db w) queue now id' →
          tb_dispatch (db_tables (pg_db w)) !! JobId_as_uuid id' = Some row' →
          dq_priority row' < dq_priority row ∨
          dq_priority row' = dq_priority row ∧ dq_seq row ≤ dq_seq row'
  end.
Proof.
  intros Hw Hr now. pose proof Hw as [Hok Hsc _ Hcl].
  destruct (Postgres_claim queue worker ttl w) as [r w'] eqn:Hrun.
  apply pg_claim_run in Hrun; [|done|by rewrite Hsc].
  assert (Hun : unrecorded w w' → pg_healthy w' ∧ db_log (pg_db w') = db_log (pg_db w))
    by by apply unrecorded_healthy.
  destruct r as [[lj|]|e|]; simpl in Hrun.
  - destruct Hrun as (s & j & j' & Hl & Hrec & _).
    destruct (recorded_healthy _ _ _ _ _ _ Hw Hrec) as (Hw' & kept & Hs & Hev & Hlog & _);
      [by eapply from_events_nonempty, Hl|].
    assert (Hst : db_stream (pg_db w) (leased_job_id lj) = s) by (unfold db_stream; by rewrite Hs).
    destruct Hl as [Hj Hq He (d & now' & locked & row & Hd & Hn & Hlk & Hrow & _ & _ & Hmin)].
    rewrite (Hlk Hsc), (seen_alone _ _ Hsc Hd) in *.
    exists (Some lj), w'. split; [done|]. split; [done|]. split; [|split].
    + apply lease_ok in He as (nb & Hp & Hdue & _). exists j, nb. by rewrite Hst.
    + exists kept. by rewrite Hst.
    + exists row. split; [done|]. intros id' row' Hdue Hrow'.
      destruct (due_claimable _ _ _ _ _ Hok Hn Hdue) as (row2 & Hrow2 & Hc).
      assert (Ho : claim_order (JobId_as_uuid (leased_job_id lj), row) (JobId_as_uuid id', row') = true)
        by (apply Hmin; [done|congruence|set_solver]). revert Ho. unfold claim_order. simpl.
      rewrite orb_true_iff, andb_true_iff, Z.ltb_lt, Z.eqb_eq, Z.leb_le. lia.
  - destruct Hrun as (Hu & locked & d & now' & Hd & Hn & Hlk & Hall).
    rewrite (Hlk Hsc), (seen_alone _ _ Hsc Hd) in *. destruct (Hun Hu) as [Hw' Hlog].
    exists None, w'. split; [done|]. split; [done|]. split; [|done]. intros id Hdue.
    destruct (due_claimable _ _ _ _ _ Hok Hn Hdue) as (row & Hrow & Hc).
    by apply (Hall _ _ Hrow), elem_of_empty in Hc.
  - exfalso. destruct Hrun as [[_ Hex]|(e0 & id & s & j & l & j' & _ & Hlost & _)].
    + by eapply ready_no_excuse, Hex.
    + rewrite Hsc in Hlost. by apply elem_of_nil in Hlost.
  - exfalso. destruct Hrun as (_ & δ & Hδ & Hx). destruct (cr_ttl _ _ _ _ Hr) as [x Hsome].
    rewrite Hδ in Hsome. simpl in Hsome. congruence.
Qed.
(** The row comes before the other in the order of the claim. *)
Definition ahead (row other : DispatchRow) : Prop :=
  dq_priority other < dq_priority row ∨ dq_priority other = dq_priority row ∧ dq_seq row < dq_seq other.

(** C32: The column of the due time holds the start of its tick. A job that
    becomes due later within the current tick is picked by the claim when its
    row comes first, but not leased, since its aggregate is not due: the claim
    of its queue then fails, whatever other jobs of the queue are due, and
    leaves the tables as they were, so that it goes on failing for the rest
    of the tick. *)
Theorem claim_within_tick_fails queue worker ttl w id j x now' row :
  let now := (clock_now (pg_clock w)).1 in
  pg_healthy w → is_Some (TimeDelta_from_std ttl ≫= checked_add_signed now) →
  from_events (db_stream (pg_db w) id) = Ok j → job_queue j = queue → job_state j = S_Pending (Some x) →
  now < x → timestamptz x = inl now' → timestamptz now = inl now' →
  tb_dispatch (db_tables (pg_db w)) !! JobId_as_uuid id = Some row →
  (∀ u other, tb_dispatch (db_tables (pg_db w)) !! u = Some other → u ≠ JobId_as_uuid id →
    claim_where (QueueName_as_str queue) now' other = true → ahead row other) →
  ∃ e w', Postgres_claim queue worker ttl w = (Err e, w') ∧ pg_healthy w' ∧
    db_tables (pg_db w') = db_tables (pg_db w).
Proof.
  intros now Hw [end_ Hend] Hj <- Hst Hlt Hx Hn Hrow Hahead. pose proof Hw as [Hok Hsc _ _].
  destruct (pending_claimable _ id j (Some x) now now' Hok Hn Hj Hst ltac:(eauto)) as (row1 & Hrow1 & Hcl).
  assert (row1 = row) as -> by congruence. clear Hrow1.
  destruct (Postgres_claim (job_queue j) worker ttl w) as [r w'] eqn:Hrun.
  apply pg_claim_run in Hrun; [|done|by rewrite Hsc]. destruct r as [[lj|]|e|]; simpl in Hrun; fold now in Hrun.
  - exfalso. destruct Hrun as (s & j1 & j1' & [Hj1 _ He (d & n1 & locked & row1 & Hd & Hn1 & Hlk & Hr1 & Hc1 & _ & Hmin)] & Hrec & _).
    destruct (recorded_healthy _ _ _ _ _ _ Hw Hrec) as (_ & kept & Hs & _); [by eapply from_events_nonempty, Hj1|].
    rewrite (Hlk Hsc), (seen_alone _ _ Hsc Hd) in *. assert (n1 = now') as -> by congruence.
    assert (Ho : claim_order (JobId_as_uuid (leased_job_id lj), row1) (JobId_as_uuid id, row) = true)
      by (apply Hmin; [done|done|set_solver]).
    destruct (decide (JobId_as_uuid (leased_job_id lj) = JobId_as_uuid id)) as [E|Hne].
    + assert (leased_job_id lj = id) as Hid by (clear -E; destruct (leased_job_id lj), id; simpl in E; congruence).
      apply lease_ok in He as (nb & Hp & Hdue & _). unfold db_stream in Hj. rewrite <-Hid, Hs in Hj. simpl in Hj.
      assert (j1 = j) as -> by congruence. rewrite Hst in Hp. injection Hp as <-. apply Z.leb_le in Hdue. lia.
    + specialize (Hahead _ _ Hr1 Hne Hc1). revert Ho Hahead. unfold claim_order, ahead. simpl.
      rewrite orb_true_iff, andb_true_iff, Z.ltb_lt, Z.eqb_eq, Z.leb_le. lia.
  - exfalso. destruct Hrun as (_ & locked & d & n1 & Hd & Hn1 & Hlk & Hall).
    rewrite (Hlk Hsc), (seen_alone _ _ Hsc Hd) in *. assert (n1 = now') as -> by congruence. by apply (Hall _ _ Hrow), elem_of_empty in Hcl.
  - destruct Hrun as [[Hu _]|(e0 & id1 & s & j1 & l & j' & _ & Hlost & _)]; [|rewrite Hsc in Hlost; by apply elem_of_nil in Hlost].
    exists e, w'. split; [done|]. split; [by apply (unrecorded_healthy w)|]. apply (seen_alone w); [done|by apply unrecorded_sound].
  - exfalso. destruct Hrun as (_ & δ & Hδ & He). rewrite Hδ in Hend. simpl in Hend. congruence.
Qed.
End alone.
