(* ===== verification/PgSafe.v ===== *)
(** * Programs that keep the database

    What the sequences of calls that make up a request leave behind when
    other brokers work on the same database: a call that keeps the database
    sound and only lets streams grow is safe, and programs made of safe calls
    are safe. The ports are an interface ([SafePorts]) that the adapters
    implement and the use cases and the gRPC handlers rely on. *)

From stdpp Require Import sorting.
From S2P Require Import Prelude Std Ids Retry Events Job Lifecycle Commands Ports UseCases Contract UseCaseFacts System Kept.
From S2P Require Import Postgres PgStore PgDispatcher PgRows PgTx PgAppend PgInsert PgProject PgCommit PgPublish.
From S2P Require Import PgContract PgPick PgRecord PgClaim PgRetire PgHeartbeat PgSystem PgRelay PgRelayFacts Grpc.

Open Scope string_scope.
Open Scope list_scope.
Open Scope Z_scope.

Section safe.
Context `{ext : Externals} {pg : Postgres} {G C : Type}.

(** A sound database whose other sessions keep it sound. *)
Definition sound (w : PgWorld G C) : Prop := db_ok (pg_db w) ∧ Forall fate_ok (pg_script w).

(** From [w] to [w'] the database has stayed sound and grown. *)
Definition stays (w w' : PgWorld G C) : Prop := sound w' ∧ db_grows (pg_db w) (pg_db w').

Lemma stays_refl w : sound w → stays w w.
Proof. by split. Qed.

Lemma stays_trans w1 w2 w3 : stays w1 w2 → stays w2 w3 → stays w1 w3.
Proof. intros [_ H1] [? H2]. split; [done|by etrans]. Qed.

(** ** A broker's state with such a database in it *)

Class HasPg (W : Type) : Type := { pg_of : W → PgWorld G C }.

Context {W : Type} `{!HasPg W}.

Definition safe {E A : Type} (m : ST W E A) : Prop := ∀ w, sound (pg_of w) → stays (pg_of w) (pg_of (m w).2).

(** What touches neither the database nor its script. *)
Definition aside (w w' : W) : Prop :=
  pg_db (pg_of w') = pg_db (pg_of w) ∧ pg_script (pg_of w') = pg_script (pg_of w).

Lemma aside_stays w w' : aside w w' → sound (pg_of w) → stays (pg_of w) (pg_of w').
Proof. intros [Hd Hs] [? ?]. unfold stays, sound. by rewrite Hd, Hs. Qed.

Lemma safe_ret {E A : Type} (a : A) : safe (E:=E) (st_ret a).
Proof. intros w Hw. by apply stays_refl. Qed.

Lemma safe_err {E A : Type} (e : E) : safe (A:=A) (st_err e).
Proof. intros w Hw. by apply stays_refl. Qed.

Lemma safe_lift {E A : Type} (r : result A E) : safe (st_lift r).
Proof. intros w Hw. by apply stays_refl. Qed.

Lemma safe_bind {E A B : Type} (m : ST W E A) (k : A → ST W E B) : safe m → (∀ a, safe (k a)) → safe (st_bind m k).
Proof.
  intros Hm Hk w Hw. specialize (Hm w Hw). unfold st_bind. destruct (m w) as [[a|e|] w1]; [|done..].
  eapply stays_trans; [exact Hm|]. apply Hk, Hm.
Qed.

Lemma safe_map_err {E F A : Type} (f : E → F) (m : ST W E A) : safe m → safe (st_map_err f m).
Proof. intros Hm w Hw. specialize (Hm w Hw). unfold st_map_err. by destruct (m w). Qed.

Lemma safe_total {E A : Type} (m : W → A * W) : (∀ w, aside w (m w).2) → safe (E:=E) (st_total m).
Proof. intros Hm w Hw. unfold st_total. specialize (Hm w). destruct (m w). by apply aside_stays. Qed.

Lemma safe_modify {E : Type} (f : W → W) :
  (∀ w, sound (pg_of w) → stays (pg_of w) (pg_of (f w))) → safe (E:=E) (st_modify f).
Proof. intros Hf w Hw. by apply Hf. Qed.

(** ** The ports *)

Class SafePorts `{!EventStore W, !Dispatcher W, !IdGenerator W, !Clock W, !WorkerPresence W} : Prop := {
  safe_append id v envs : envs ≠ [] → Z.of_nat (length envs) ≤ I64_MAX → safe (store_append id v envs);
  safe_load id : safe (store_load id);
  safe_claim queue worker ttl : safe (lease_next queue worker ttl);
  safe_extend lease ttl : safe (extend_lease lease ttl);
  safe_retire : safe retire_next_expired_lease;
  retire_no_panic w : sound (pg_of w) → (retire_next_expired_lease w).1 ≠ Panic;
  aside_clock w : aside w (clock_now w).2;
  aside_event_id w : aside w (gen_event_id w).2;
  aside_seed w : aside w (jitter_seed w).2;
  safe_seen worker queue w : sound (pg_of w) → stays (pg_of w) (pg_of (presence_seen worker queue w));
}.
End safe.

Arguments HasPg {ext} G C W.

Create HintDb safe.
#[export] Hint Resolve safe_ret safe_err safe_lift safe_bind safe_map_err : safe.

(** ** The use cases and the handlers *)

Section programs.
Context `{ext : Externals} {pg : Postgres} {G C W : Type} `{!HasPg G C W}.
Context `{!EventStore W, !Dispatcher W, !IdGenerator W, !Clock W, !WorkerPresence W, !SafePorts}.
Implicit Types (w : W).

Lemma aside_refl w : aside w w.
Proof. done. Qed.

Lemma aside_trans w1 w2 w3 : aside w1 w2 → aside w2 w3 → aside w1 w3.
Proof. intros [H1 H2] [H3 H4]. split; congruence. Qed.

Lemma wrap_each_aside id t corr caus trace v evs w :
  let '(envs, w') := wrap_each id t corr caus trace v evs w in aside w w' ∧ length envs = length evs.
Proof.
  revert v w. induction evs as [|ev evs IH]; intros v w; simpl; [done|].
  pose proof (aside_event_id w) as H1. destruct (gen_event_id w) as [i w1].
  specialize (IH (u64_add v 1) w1). destruct (wrap_each _ _ _ _ _ _ evs w1) as [envs w2]. destruct IH as [H2 H3].
  split; [by eapply aside_trans|simpl; by rewrite H3].
Qed.

Lemma safe_ack_append job stream evs :
  evs ≠ [] → Z.of_nat (length evs) ≤ I64_MAX → safe (WorkerAck_append job stream evs).
Proof.
  intros Hne Hl w Hw. unfold WorkerAck_append. destruct (lineage_of stream) as [[corr caus] trace].
  unfold st_bind, st_total, wrap_events. pose proof (aside_clock w) as H1. destruct (clock_now w) as [t w1].
  pose proof (wrap_each_aside (job_id job) t corr caus trace (job_version job) evs w1) as H2.
  destruct (wrap_each _ _ _ _ _ _ evs w1) as [envs w2]. destruct H2 as [H2 H3].
  assert (Hs : stays (pg_of w) (pg_of w2)) by (apply aside_stays; [by eapply aside_trans|done]).
  eapply stays_trans; [exact Hs|]. apply safe_append; [|by rewrite H3|apply Hs].
  intros ->. by destruct evs.
Qed.

Lemma safe_ack_load id : safe (WorkerAck_load id).
Proof. unfold WorkerAck_load. eauto using safe_load with safe. Qed.

Lemma safe_ack_one job stream ev : safe (WorkerAck_append job stream [ev]).
Proof. by apply safe_ack_append. Qed.
#[local] Hint Resolve safe_ack_load safe_ack_one : safe.

Lemma safe_start id worker : safe (WorkerAck_start id worker).
Proof. unfold WorkerAck_start. apply safe_bind; [eauto with safe|]. intros [job stream]. eauto with safe. Qed.

Lemma safe_succeed id worker lease res : safe (WorkerAck_succeed id worker lease res).
Proof.
  unfold WorkerAck_succeed, record_conflict. apply safe_bind; [eauto with safe|]. intros [job stream].
  destruct (succeed job lease res); eauto with safe.
Qed.

Lemma safe_fail id worker lease error : safe (WorkerAck_fail id worker lease error).
Proof.
  unfold WorkerAck_fail, record_conflict. apply safe_bind; [eauto with safe|]. intros [job stream].
  apply safe_bind; [apply safe_total, aside_clock|]. intros now. apply safe_bind; [apply safe_total, aside_seed|].
  intros seed. destruct (fail job lease error now seed) as [evs|e|] eqn:Hf; [|eauto with safe..].
  apply fail_ok in Hf as (w & t & second & _ & -> & _). apply safe_bind; [|eauto with safe].
  by apply safe_map_err, safe_ack_append.
Qed.

Lemma safe_sweep_loop fuel n : safe (sweep_loop fuel n).
Proof.
  revert n. induction fuel as [|fuel IH]; intros n; simpl; [apply safe_ret|].
  apply safe_bind; [apply safe_map_err, safe_retire|]. intros [id|]; [apply IH|apply safe_ret].
Qed.

Lemma sweep_no_panic fuel n w : sound (pg_of w) → (sweep_loop fuel n w).1 ≠ Panic.
Proof.
  revert n w. induction fuel as [|fuel IH]; intros n w Hw; simpl; [done|]. unfold st_bind, st_map_err.
  pose proof (safe_retire w Hw) as [Hs _]. pose proof (retire_no_panic w Hw) as Hn.
  destruct (retire_next_expired_lease w) as [[[id|]|e|] w1]; try done. by apply IH.
Qed.

Context {wire : Wire} (config : GrpcConfig) (md : MetadataMap).

Lemma safe_grpc_fetch req : safe (WorkerApi_fetch config md req).
Proof.
  unfold WorkerApi_fetch. repeat (apply safe_bind; [apply safe_lift|intros ?]).
  apply safe_bind; [apply safe_modify; intros w; apply safe_seen|]. eauto with safe.
Qed.

Lemma safe_grpc_start req : safe (WorkerApi_start config md req).
Proof.
  unfold WorkerApi_start. repeat (apply safe_bind; [apply safe_lift|intros ?]).
  apply safe_bind; [apply safe_modify; intros w; apply safe_seen|]. eauto using safe_start with safe.
Qed.

Lemma safe_grpc_succeed req : safe (WorkerApi_succeed config md req).
Proof. unfold WorkerApi_succeed. eauto 9 using safe_succeed with safe. Qed.

Lemma safe_grpc_fail req : safe (WorkerApi_fail config md req).
Proof. unfold WorkerApi_fail. eauto 9 using safe_fail with safe. Qed.

Lemma safe_grpc_heartbeat req : safe (WorkerApi_heartbeat config md req).
Proof. unfold WorkerApi_heartbeat, Heartbeat_execute. eauto 9 using safe_extend with safe. Qed.
End programs.

(** ** The adapters *)

Section adapters.
Context `{ext : Externals} {pg : Postgres} {G C : Type} `{!IdGenerator G, !Clock C}.
Implicit Types (w : PgWorld G C).

Lemma unrecorded_stays w w' : unrecorded w w' → stays w w'.
Proof. by intros []. Qed.

Lemma recorded_stays w id s evs w' j' : recorded w id s evs w' j' → stays w w'.
Proof. by intros []. Qed.

Lemma append_stays id v envs w :
  envs ≠ [] → Z.of_nat (length envs) ≤ I64_MAX → sound w → stays w (Postgres_append id v envs w).2.
Proof.
  intros Hne Hl [Hok Hf]. destruct (Postgres_append id v envs w) as [r w'] eqn:Hrun.
  apply append_run in Hrun; [|done..|by left|done].
  assert (Hdone : ∀ j, world_after (pg_db w) (around w) id v envs j w' → stays w w').
  { intros j [? ? _ _ (d & kept & _ & Hg & Hg' & _)]. split; [done|by etrans]. }
  destruct r as [[]|e|]; [| |done].
  - destruct Hrun as [j Ha]. by eapply Hdone.
  - destruct Hrun as [(e0 & j & _ & _ & Ha)|([] & _)]; [by eapply Hdone|by split].
Qed.

Lemma load_stays id w : sound w → stays w (Postgres_load id w).2.
Proof.
  intros [Hok Hf]. unfold Postgres_load, with_tx, sql_select_stream, round_trip, st_bind, st_map_err.
  change (pg_script (tx_world (Tx_mk w no_writes))) with (pg_script w). destruct (pg_script w) as [|f script] eqn:Hs.
  { simpl. assert (stays w w) by (apply stays_refl; split; [done|by rewrite Hs]). by destruct (rows_of _ _). }
  apply Forall_cons in Hf as [Hf1 Hf2].
  assert (Hsk : stays w (tx_world (next_script (Tx_mk w no_writes)))).
  { split; [split; [done|]|done]. unfold next_script. simpl. by rewrite Hs. }
  destruct f as [others jobs outbox|e|e]; [|by simpl..].
  assert (Hin : stays w (tx_world (interfere others (next_script (Tx_mk w no_writes))))).
  { unfold interfere. case_match; [|done]. destruct (Hf1 (pg_db w) Hok) as [Ho Hg]. split; [split|]; simpl; [done|by rewrite Hs|done]. }
  simpl. by destruct (rows_of _ _).
Qed.

Lemma claim_stays queue worker ttl w : sound w → stays w (Postgres_claim queue worker ttl w).2.
Proof.
  intros [Hok Hf]. destruct (Postgres_claim queue worker ttl w) as [r w'] eqn:Hrun. apply pg_claim_run in Hrun; [|done..].
  destruct r as [[lj|]|e|]; simpl in Hrun |- *.
  - destruct Hrun as (s & j & j' & _ & Hr & _). by eapply recorded_stays.
  - by apply unrecorded_stays, Hrun.
  - destruct Hrun as [[Hu _]|(e0 & id & s & j & l & j' & _ & _ & _ & Hr)];
      [by apply unrecorded_stays|by eapply recorded_stays].
  - by apply unrecorded_stays, Hrun.
Qed.

Lemma retire_stays w : sound w → stays w (Postgres_retire_one w).2 ∧ (Postgres_retire_one w).1 ≠ Panic.
Proof.
  intros [Hok Hf]. destruct (Postgres_retire_one w) as [r w'] eqn:Hrun. apply retire_run in Hrun; [|done..].
  destruct r as [[id|]|e|]; simpl in Hrun |- *; [| | |done]; (split; [|done]).
  - destruct Hrun as (s & j & seed & evs & j' & _ & Hr). by eapply recorded_stays.
  - by apply unrecorded_stays, Hrun.
  - destruct Hrun as [Hu|(e0 & id & s & j & seed & evs & j' & _ & _ & _ & Hr)];
      [by apply unrecorded_stays|by eapply recorded_stays].
Qed.

Lemma heartbeat_stays lease ttl w : sound w → stays w (Postgres_extend_lease lease ttl w).2.
Proof.
  intros [Hok Hf]. destruct (Postgres_extend_lease lease ttl w) as [r w'] eqn:Hrun. apply heartbeat_run in Hrun; [|done..].
  destruct (TimeDelta_from_std ttl); [|destruct Hrun as [_ ->]; by apply stays_refl].
  assert (Hb : ∀ b, beats w lease ttl w' b → stays w w') by (intros b (? & ? & _ & ? & _); by split).
  destruct r as [b|e|]; simpl in Hrun |- *; [by eapply Hb| |by apply unrecorded_stays, Hrun].
  destruct Hrun as [Hu|(e0 & b & _ & _ & Hbt)]; [by apply unrecorded_stays|by eapply Hb].
Qed.

Context {S : Type} `{!EventSink S}.

Lemma relay_stays batch (x : RelayWorld G C S) :
  sound (rw_world x) → stays (rw_world x) (rw_world (relay_once batch x).2).
Proof.
  intros [Hok Hf]. destruct (relay_once batch x) as [r x'] eqn:Hrun.
  destruct (relay_sound _ _ _ _ Hok Hf Hrun) as [Hok' Hg]. split; [split; [done|]|done]. apply relay_run in Hrun; [|done..].
  assert (Hdel : ∀ n, delivered x batch x' n → Forall fate_ok (pg_script (rw_world x'))).
  { by intros n (rows & envs & d & _ & _ & _ & _ & _ & _ & _ & _ & ? & _). }
  destruct r as [n|e|]; simpl in Hrun |- *.
  - destruct Hrun as [(_ & [] & _)|Hd]; [done|by eapply Hdel].
  - destruct Hrun as [[[] _]|(e0 & n & _ & _ & Hd)]; [done|by eapply Hdel].
  - by destruct Hrun as [[] _].
Qed.
End adapters.
