(* ===== verification/ServeFacts.v ===== *)
(** * Correctness of the server as a whole

    Whatever calls, ticks, streams and other brokers come in whatever order:
    the database stays sound and its streams only grow, the streams keep
    their bounds, the tickers and the listener go on unless a line could not
    be printed; and callers without the configured token
    might as well not have called. *)

From S2P Require Import Prelude Std Ids Retry Events Job Lifecycle Commands Ports UseCases Contract UseCaseFacts System.
From S2P Require Import Postgres PgStore PgDispatcher PgRows PgTx PgRelay PgRelayFacts PgSafe.
From S2P Require Import Grpc GrpcFacts Signal Hub Stream Server ServerFacts Serve.

Open Scope string_scope.
Open Scope list_scope.
Open Scope Z_scope.

Section serve.
Context `{ext : Externals} {wire : Wire} {pg : Postgres} {G C : Type} `{!IdGenerator G, !Clock C}.
Context {Ch B R : Type} `{!Mpsc Ch, !Broadcast B R}.
Local Abbreviation World := (ServeWorld G C).
Local Abbreviation Process := (Process (G:=G) (C:=C) (Ch:=Ch) (B:=B)).
Local Abbreviation ServeTurn := (ServeTurn (G:=G) (C:=C)).
Implicit Types (w : World) (p : Process).

(** ** The ports are safe *)

#[export] Instance Serve_HasPg : HasPg G C World := {| pg_of := sw_pg |}.

Lemma on_pg_safe {E A : Type} (m : ST (PgWorld G C) E A) :
  (∀ x, sound x → stays x (m x).2) → safe (W:=World) (on_pg m).
Proof. intros Hm w Hw. unfold on_pg, st_zoom. specialize (Hm _ Hw). by destruct (m _). Qed.

Lemma from_pg_aside {A : Type} (m : PgWorld G C → A * PgWorld G C) w :
  (pg_db (m (sw_pg w)).2 = pg_db (sw_pg w) ∧ pg_script (m (sw_pg w)).2 = pg_script (sw_pg w)) → aside w (from_pg m w).2.
Proof. unfold from_pg, aside. simpl. by destruct (m (sw_pg w)). Qed.

#[export] Instance Serve_SafePorts : SafePorts (W:=World).
Proof.
  split.
  - intros id v envs Hne Hl. apply on_pg_safe. intros x. by apply append_stays.
  - intros id. apply on_pg_safe. intros x. apply load_stays.
  - intros queue worker ttl. apply on_pg_safe. intros x. apply claim_stays.
  - intros lease ttl. apply on_pg_safe. intros x. apply heartbeat_stays.
  - apply on_pg_safe. intros x Hx. by apply retire_stays.
  - intros w Hw. simpl. unfold on_pg, st_zoom. destruct (retire_stays _ Hw) as [_ Hp]. by destruct (Postgres_retire_one _).
  - intros w. apply from_pg_aside. simpl. by destruct (clock_now _).
  - intros w. apply from_pg_aside. simpl. by destruct (gen_event_id _).
  - intros w. apply from_pg_aside. simpl. by destruct (jitter_seed _).
  - intros worker queue w [Hok Hf]. simpl.
    assert (Hs : ∀ attempt rest, stays (sw_pg w) (sw_pg (ServeWorld_mk (PgPresence_seen attempt worker queue (sw_presence w)) rest))).
    { intros attempt rest. destruct (presence_sound attempt worker queue (sw_presence w) Hok) as [Hok' Hg].
      split; [split; [done|]|done]. unfold sw_pg in *. by destruct attempt as [|[]| |]. }
    destruct (sw_attempts w) as [|attempt rest]; [exact (Hs Pool_saturated [])|exact (Hs attempt rest)].
Qed.

(** ** The database *)

Lemma safe_handle config md call : safe (handle (Ch:=Ch) config md call).
Proof.
  destruct call; simpl; apply safe_bind; eauto with safe.
  - apply safe_grpc_fetch.
  - apply safe_grpc_start.
  - apply safe_grpc_succeed.
  - apply safe_grpc_fail.
  - apply safe_grpc_heartbeat.
Qed.

Lemma task_turn_stays (s : Stream (Ch:=Ch)) w : sound (sw_pg w) → stays (sw_pg w) (sw_pg (task_turn s w).2).
Proof.
  intros Hw. unfold task_turn. destruct (st_task s) as [|m breaks| |]; [|by destruct (mpsc_send _ _) as [[] ?]; apply stays_refl|by apply stays_refl..].
  pose proof (safe_claim (st_queue s) (st_worker s) (st_ttl s) w Hw) as Hs. unfold LeaseNextJob_execute.
  by destruct (lease_next _ _ _ w) as [[[job|]|e|] w1].
Qed.

Lemma stream_turn_stays t (s : Stream (Ch:=Ch)) w :
  own_turn t = true → sound (sw_pg w) → stays (sw_pg w) (sw_pg (stream_turn t (s, w)).2).
Proof.
  intros Ho Hw. destruct t; simpl; [by apply task_turn_stays|..|done]; try by apply stays_refl.
  - destruct (st_task s); by apply stays_refl.
  - destruct (st_task s); [..|destruct (gone _)|]; by apply stays_refl.
  - destruct (mpsc_recv _) as [[]]; by apply stays_refl.
Qed.

(** What happens elsewhere keeps to what other brokers do. *)
Definition turn_ok (t : ServeTurn) : Prop :=
  match t with
  | Elsewhere f => ∀ w, sound (sw_pg w) → stays (sw_pg w) (sw_pg (f w))
  | _ => True
  end.

(** The standard streams have taken every line so far. *)
Definition heard p : Prop := out_lost (pr_out p) = [] ∧ out_lost (pr_err p) = [].

(** The process is in order: a sound database, every stream within its
    bounds; and as long as no line was lost, both tickers and the listener
    running. *)
Record in_order p : Prop := {
  io_sound : sound (sw_pg (pr_world p));
  io_streams : Forall stream_ok (pr_streams p);
  io_sweeping : heard p → pr_sweeping p = true;
  io_relaying : heard p → pr_relaying p = true;
  io_listening : heard p → hub_listening (sig_hub (pr_signal p)) = true;
}.

(** ** What ends a task *)

(** A line keeps what was lost; without its panic nothing more is. *)
Lemma println_lost {E : Type} line o o' (r : result unit E) :
  println line o = (r, o') → out_lost o' = [] → out_lost o = [] ∧ is_panic r = false.
Proof. intros Hp Hl. destruct (println_cases (E:=E) line o) as [[Hr Ho]|[_ Ho]]; rewrite Hp in *; simpl in *; [|done]. subst r. by rewrite <-Ho. Qed.

Lemma deliver_lost envs (o o' : Output) r :
  sink_deliver envs o = (r, o') → out_lost o' = [] → out_lost o = [] ∧ r ≠ Panic.
Proof.
  intros Hp Hl. simpl in Hp. match type of Hp with printlns ?ls _ = _ => destruct (printlns_cases (E:=SinkError) ls o) as [[Hr Ho]|[_ Ho]] end;
    rewrite Hp in *; simpl in *; [|done]. subst r. by rewrite <-Ho.
Qed.

Lemma sweep_tick_lost fuel out err w goes_on out' err' w' :
  sound (sw_pg w) → sweep_tick fuel out err w = (goes_on, out', err', w') →
  out_lost out' = [] → out_lost err' = [] → goes_on = true ∧ out_lost out = [] ∧ out_lost err = [].
Proof.
  intros Hs. unfold sweep_tick, SweepExpiredLeases_execute. pose proof (sweep_no_panic fuel 0 _ Hs) as Hn.
  destruct (sweep_loop fuel 0 w) as [[[n|]|[e]|] w1]; [destruct (n =? 0)|..|done].
  - by intros [= <- <- <- _].
  - destruct (println _ out) as [x o] eqn:Hp. intros [= <- <- <- _] Ho ?.
    destruct (println_lost _ _ _ _ Hp Ho) as [? ->]. done.
  - by intros [= <- <- <- _].
  - destruct (println _ err) as [x o] eqn:Hp. intros [= <- <- <- _] ? Ho.
    destruct (println_lost _ _ _ _ Hp Ho) as [? ->]. done.
Qed.

Lemma relay_tick_lost err (x x' : RelayWorld G C Output) goes_on err' :
  sound (rw_world x) → relay_tick err x = (goes_on, err', x') →
  out_lost (rw_sink x') = [] → out_lost err' = [] → goes_on = true ∧ out_lost (rw_sink x) = [] ∧ out_lost err = [].
Proof.
  intros [Hok Hf] Ht Ho He. unfold relay_tick in Ht. pose proof (relay_sink RELAY_BATCH x) as Hk.
  destruct (relay_once RELAY_BATCH x) as [r x1] eqn:Hrun. apply relay_run in Hrun; [|done..]. simpl in Hk.
  assert (Hout : out_lost (rw_sink x1) = [] → out_lost (rw_sink x) = []).
  { destruct Hk as [->|[envs Hd]]; [done|]. destruct (sink_deliver envs (rw_sink x)) as [r1 o1] eqn:E. simpl in Hd. subst o1.
    intros Hl. by destruct (deliver_lost _ _ _ _ E Hl). }
  destruct r as [n|e|].
  - injection Ht as <- <- <-. auto.
  - destruct (println _ err) as [r2 o] eqn:Hp. injection Ht as <- <- <-.
    destruct (println_lost _ _ _ _ Hp He) as [? ->]. auto.
  - injection Ht as <- <- <-. destruct Hrun as (_ & rows & seqs & envs & _ & _ & Hd). by destruct (deliver_lost _ _ _ _ Hd Ho).
Qed.

Lemma hub_round_lost r err (h : SignalHub (B:=B)) err' h' :
  hub_round_on r err h = (err', h') → out_lost err' = [] →
  out_lost err = [] ∧ hub_listening h' = hub_listening h.
Proof.
  unfold hub_round_on, hub_round. destruct (hub_listening h) eqn:Hon; [|by intros [= <- <-]].
  destruct (listener_line r (hub_listener h)) as [line|]; [|by intros [= <- <-]].
  destruct (println line err) as [x o] eqn:Hp. intros [= <- <-] Ho. destruct (println_lost _ _ _ _ Hp Ho) as [? ->]. done.
Qed.

Lemma sweep_turn_in_order fuel p :
  in_order p → in_order (sweep_turn fuel p) ∧
    db_grows (pg_db (sw_pg (pr_world p))) (pg_db (sw_pg (pr_world (sweep_turn fuel p)))).
Proof.
  intros Hp. pose proof Hp as [Hs Hst Hsw Hre Hli]. unfold sweep_turn. destruct (pr_sweeping p) eqn:Hon; [|by split].
  destruct (sweep_tick fuel (pr_out p) (pr_err p) (pr_world p)) as [[[g out] err] w'] eqn:Ht.
  pose proof (sweep_tick_lost _ _ _ _ _ _ _ _ Hs Ht) as Hl.
  assert (w' = (sweep_loop fuel 0 (pr_world p)).2) as ->.
  { unfold sweep_tick, SweepExpiredLeases_execute in Ht. destruct (sweep_loop fuel 0 (pr_world p)) as [[[n|]|[e]|] w1];
      [destruct (n =? 0)|..]; try destruct (println _ _); by simplify_eq. }
  pose proof (safe_sweep_loop fuel 0 _ Hs) as [Hs' Hg]. split; [|done].
  split; simpl; [done|done|..]; intros [Ho He]; destruct (Hl Ho He) as (-> & ? & ?); [done|by apply Hre|by apply Hli].
Qed.

Lemma relay_turn_in_order p :
  in_order p → in_order (relay_turn p) ∧
    db_grows (pg_db (sw_pg (pr_world p))) (pg_db (sw_pg (pr_world (relay_turn p)))).
Proof.
  intros Hp. pose proof Hp as [Hs Hst Hsw Hre Hli]. unfold relay_turn. destruct (pr_relaying p) eqn:Hon; [|by split].
  set (x := RelayWorld_mk (sw_pg (pr_world p)) (pr_out p)).
  destruct (relay_tick (pr_err p) x) as [[g err] x'] eqn:Ht. pose proof (relay_tick_lost _ _ _ _ _ (Hs : sound (rw_world x)) Ht) as Hl.
  assert (x' = (relay_once RELAY_BATCH x).2) as ->.
  { unfold relay_tick in Ht. destruct (relay_once RELAY_BATCH x) as [[|e|] x1]; try destruct (println _ _); by simplify_eq. }
  pose proof (relay_stays RELAY_BATCH x Hs) as [Hs' Hg]. split; [|exact Hg].
  split; simpl; [exact Hs'|done|..]; intros [Ho He]; destruct (Hl Ho He) as (-> & ? & ?); [by apply Hsw|done|by apply Hli].
Qed.

Lemma serve_turn_in_order config t p :
  turn_ok t → in_order p →
  in_order (serve_turn config t p) ∧
  db_grows (pg_db (sw_pg (pr_world p))) (pg_db (sw_pg (pr_world (serve_turn config t p)))).
Proof.
  intros Ht Hp. pose proof Hp as [Hs Hst Hsw Hre Hli]. destruct t as [md call|i t|fuel| |r|f]; simpl.
  - unfold call_turn. pose proof (safe_handle config md call _ Hs) as [Hs' Hg].
    destruct (handle config md call (pr_world p)) as [r w] eqn:Hh. simpl in *. split; [|done]. split; simpl; [done| |done..].
    apply Forall_app. split; [done|]. destruct r as [[reply streams]|e|]; [|constructor..].
    revert Hh. unfold handle. destruct call; intros (a & w1 & _ & Hr)%st_bind_ok; injection Hr as _ <- _;
      [apply Forall_singleton, open_ok|constructor..].
  - destruct (own_turn t) eqn:Ho; [|done]. unfold stream_at. destruct (pr_streams p !! i) as [s|] eqn:Hi; [|done].
    pose proof (stream_turn_stays t s _ Ho Hs) as [Hs' Hg].
    assert (Hok : stream_ok (stream_turn t (s, pr_world p)).1).
    { apply stream_turn_ok. by eapply Forall_lookup_1. }
    destruct (stream_turn t (s, pr_world p)) as [s' w'] eqn:E. cbn [fst snd] in *. split; [|done]. split; simpl; [done| |done..].
    by apply Forall_insert.
  - by apply sweep_turn_in_order.
  - by apply relay_turn_in_order.
  - unfold listen_turn. destruct (hub_round_on r (pr_err p) (sig_hub (pr_signal p))) as [err h] eqn:Hr. split; [|done].
    split; simpl; [done|done|..]; intros [Ho He]; destruct (hub_round_lost _ _ _ _ _ Hr He) as [? Hh];
      [by apply Hsw|by apply Hre|]. simpl. rewrite Hh. by apply Hli.
  - destruct (Ht _ Hs) as [Hs' Hg]. split; [by split|done].
Qed.

(** C2: Over the life of the server, whatever calls, streams, ticks and other
    brokers come in whatever order, and whatever fails: the database stays
    sound (each stream folds, the dispatch table is the projection of the
    log, the outbox announces it in order) and streams only grow; every fetch
    stream keeps within its channel, its jobs in the order of their leases;
    and neither a ticker nor the listener ends but by the panic of a line that
    the standard streams did not take. *)
Theorem server_stays_in_order config turns p :
  in_order p → Forall turn_ok turns →
  in_order (serve_turns config turns p) ∧
  db_grows (pg_db (sw_pg (pr_world p))) (pg_db (sw_pg (pr_world (serve_turns config turns p)))).
Proof.
  intros Hp Ht. revert p Hp. induction Ht as [|t turns Ht _ IH]; intros p Hp; simpl; [done|].
  destruct (serve_turn_in_order config t p Ht Hp) as [Hp' Hg]. destruct (IH _ Hp') as [? Hg']. split; [done|by etrans].
Qed.

(** ** Who counts *)

(** The caller presents the token and names a worker. *)
Definition presents (tok : string) (md : MetadataMap) : bool :=
  bool_decide (tok ≠ "" ∧ metadata_str md "authorization" = Some ("Bearer " +:+ tok)) &&
  match metadata_str md "koine-worker-id" with Some s => is_ok (WorkerId_new s) | None => false end.

Definition admitted (tok : string) (t : ServeTurn) : bool :=
  match t with Called md _ => presents tok md | _ => true end.

(** All of the process but the answers it gave. *)
Definition no_answers p : Process :=
  Process_mk (pr_world p) (pr_signal p) (pr_streams p) (pr_sweeping p) (pr_relaying p) (pr_out p) (pr_err p) [].

Lemma refused_check config md : presents (token config) md = false → check md (token config) = Err unauthenticated.
Proof.
  intros Hp. destruct (check_cases md (token config)) as [(wk & s & _ & H1 & H2 & H3 & H4)|[? _]]; [|done].
  exfalso. unfold presents in Hp. rewrite bool_decide_true in Hp by done. by rewrite H3, H4 in Hp.
Qed.

Lemma refused_handle config md call w :
  presents (token config) md = false → handle (Ch:=Ch) config md call w = (Err unauthenticated, w).
Proof.
  intros Hp%refused_check. destruct call; simpl; unfold WorkerApi_fetch, WorkerApi_start, WorkerApi_succeed,
    WorkerApi_fail, WorkerApi_heartbeat; st_unfold; by rewrite Hp.
Qed.

Lemma refused_turn config t p :
  admitted (token config) t = false → no_answers (serve_turn config t p) = no_answers p.
Proof.
  destruct t as [md call| | | | |]; try done. intros Hp. simpl in Hp |- *. unfold call_turn.
  rewrite refused_handle by done. unfold no_answers. simpl. by rewrite app_nil_r.
Qed.

(** What a turn does, apart from the answers, does not depend on them. *)
Lemma serve_turn_answers config t p :
  no_answers (serve_turn config t p) = no_answers (serve_turn config t (no_answers p)).
Proof.
  destruct t as [md call|i t|fuel| |r|f]; simpl; try done.
  - unfold call_turn. simpl. by destruct (handle config md call (pr_world p)).
  - destruct (own_turn t); [|done]. unfold stream_at. cbn [no_answers pr_streams pr_world]. destruct (pr_streams p !! i) as [s|]; [|done].
    by destruct (stream_turn t (s, pr_world p)).
  - unfold sweep_turn. simpl. destruct (pr_sweeping p); [|done]. by destruct (sweep_tick fuel _ _ (pr_world p)) as [[[? ?] ?] ?].
  - unfold relay_turn. simpl. destruct (pr_relaying p); [|done]. by destruct (relay_tick _ _) as [[? ?] ?].
  - unfold listen_turn. simpl. by destruct (hub_round_on _ _ _).
Qed.

Lemma serve_turns_admitted config turns p p' :
  no_answers p = no_answers p' →
  no_answers (serve_turns config turns p)
    = no_answers (serve_turns config (base.filter (λ t, admitted (token config) t = true) turns) p').
Proof.
  revert p p'. induction turns as [|t turns IH]; intros p p' Hp; simpl; [done|]. rewrite filter_cons. case_decide as Ha; simpl.
  - apply IH. by rewrite serve_turn_answers, Hp, <-serve_turn_answers.
  - apply IH. rewrite refused_turn; [done|]. by destruct (admitted _ t).
Qed.

Context {platform : Platform}.

(** C3: Only callers with the token count. A process serves only with a
    configuration whose token is the non-empty [KOINE_WORKER_TOKEN] of its
    environment; and all that it does to the database, to its streams and
    prints, over any order of turns, is what it does when every call without
    that token and a worker id is taken out. *)
Theorem only_the_token_counts lookup out turns o err w r p :
  run lookup out turns o err w = (r, Some p) →
  ∃ cfg signal o', start_up lookup out = Ok (cfg, signal) ∧
    lookup "KOINE_WORKER_TOKEN" = Some (cfg_worker_token cfg) ∧ cfg_worker_token cfg ≠ "" ∧
    no_answers p = no_answers (serve_turns (serve_grpc_config cfg)
      (base.filter (λ t, admitted (cfg_worker_token cfg) t = true) turns) (Process_new signal o' err w)).
Proof.
  unfold run. destruct (start_up lookup out) as [[cfg signal]|e|] eqn:Hs; [|done..].
  destruct (println _ o) as [[[]|e|] o'] eqn:Hp; [|done..]. intros [= _ <-].
  pose proof Hs as Hc. apply result_bind_ok in Hc as (cfg' & Hc & H). apply result_bind_ok in H as ([] & _ & H).
  apply result_bind_ok in H as (signal' & _ & [= -> ->]). exists cfg, signal, o'. split; [done|]. destruct (token_configured lookup cfg Hc) as [? ?]. split; [done|]. split; [done|].
  by apply (serve_turns_admitted (serve_grpc_config cfg)).
Qed.
End serve.
