(* ===== verification/JsonSamples.v ===== *)
(** * A concrete JSON

    JSON values as trees with the view of [Serde], and the texts of the
    samples; the encoder evaluates on it, and the facts assumed of other
    crates hold there together. *)

From S2P Require Import Prelude Std Ids Retry Events Serde SerdeFacts.

Open Scope string_scope.
Open Scope list_scope.
Open Scope Z_scope.

(** ** Trees *)

Inductive Scalar : Type :=
| J_Null
| J_Bool (b : bool)
| J_Int (n : Z)
| J_Str (s : string).

#[export] Instance Scalar_eq_dec : EqDecision Scalar.
Proof. solve_decision. Defined.

(** A node 0 is an object, of nodes with a key and a value; other nodes are
    arrays. *)
Definition Tree : Type := gen_tree Scalar.

Definition json_externals : Externals.
Proof.
  refine {|
    Value := Tree;
    Uuid_to_string := sample_uuid_to_string;
    TimeDelta_from_std := sample_from_std;
    checked_add_signed := sample_checked_add;
  |}; apply sample_externals.
Defined.

#[local] Existing Instance json_externals.

Definition entry (x : string * Tree) : Tree := GenNode 1 [GenLeaf (J_Str x.1); x.2].

Definition of_entry (t : Tree) : option (string * Tree) :=
  match t with
  | GenNode _ [GenLeaf (J_Str k); v] => Some (k, v)
  | _ => None
  end.

Definition tree_of_view (vw : View) : Tree :=
  match vw with
  | V_Null => GenLeaf J_Null
  | V_Bool b => GenLeaf (J_Bool b)
  | V_Int n => GenLeaf (J_Int n)
  | V_Str s => GenLeaf (J_Str s)
  | V_Obj m => GenNode 0 (entry <$> map_to_list m)
  | V_Other => GenNode 2 []
  end.

Definition view_of_tree (t : Tree) : View :=
  match t with
  | GenLeaf J_Null => V_Null
  | GenLeaf (J_Bool b) => V_Bool b
  | GenLeaf (J_Int n) => V_Int n
  | GenLeaf (J_Str s) => V_Str s
  | GenNode 0 ts => V_Obj (list_to_map (omap of_entry ts))
  | GenNode _ _ => V_Other
  end.

Lemma of_entries (l : list (string * Tree)) : omap of_entry (entry <$> l) = l.
Proof. induction l as [|[k v] l IH]; [done|].
  change (((k, v) :: omap of_entry (entry <$> l)) = (k, v) :: l). by rewrite IH.
Qed.

Lemma view_of_tree_of_view vw : representable vw → view_of_tree (tree_of_view vw) = vw.
Proof.
  destruct vw; try done. intros _. unfold tree_of_view, view_of_tree.
  rewrite of_entries. f_equal. apply list_to_map_to_list.
Qed.

(** ** Texts *)

(** The inverse of the printing of identifiers. *)
Fixpoint positive_of_bits (s : string) : option positive :=
  match s with
  | EmptyString => None
  | String a s =>
      if Ascii.eqb a "1" then
        match s with
        | EmptyString => Some xH
        | _ => xI <$> positive_of_bits s
        end
      else if Ascii.eqb a "0" then xO <$> positive_of_bits s
      else None
  end.

Definition uuid_of_bits (s : string) : option Uuid :=
  match s with
  | EmptyString => Some N0
  | _ => Npos <$> positive_of_bits s
  end.

Lemma positive_of_bits_spec p : positive_of_bits (bits_of_pos p) = Some p.
Proof. induction p as [p IH|p IH|]; simpl; [|by rewrite IH|done]. rewrite IH. by destruct p. Qed.

Lemma uuid_of_bits_spec u : uuid_of_bits (sample_uuid_to_string u) = Some u.
Proof.
  destruct u as [|p]; [done|].
  transitivity (Npos <$> positive_of_bits (bits_of_pos p)); [by destruct p|by rewrite positive_of_bits_spec].
Qed.

(** A time prints as its sign and its nanoseconds. *)
Definition time_to_bits (t : DateTime) : string :=
  String (if t <? 0 then "-" else "+") (sample_uuid_to_string (Z.abs_N t)).

Definition time_of_bits (s : string) : option DateTime :=
  match s with
  | String a s => n ← uuid_of_bits s; Some (if Ascii.eqb a "-" then - Z.of_N n else Z.of_N n)
  | EmptyString => None
  end.

Lemma time_of_bits_spec t : time_of_bits (time_to_bits t) = Some t.
Proof.
  unfold time_to_bits, time_of_bits. rewrite uuid_of_bits_spec. simpl. f_equal.
  destruct (Z.ltb_spec t 0); simpl; lia.
Qed.

(** ** The encoder *)

Definition refuse {A : Type} (_ : Tree) : result A string := Err "invalid type".

Definition json_serde : SerdeJson.
Proof.
  refine {|
    json_view := view_of_tree : Value → View;
    of_view := tree_of_view;
    view_of_view := view_of_tree_of_view;
    uuid_from_text := uuid_of_bits;
    time_to_text := time_to_bits;
    time_from_text := time_of_bits;
    uuid_text := uuid_of_bits_spec;
    time_text := time_of_bits_spec;
    missing_field name := "missing field `" +:+ name +:+ "`";
    invalid what _ := "invalid " +:+ what;
    fields_other _ := refuse;
    tag_other := refuse;
    reason_other := refuse;
    reported_other := refuse;
  |}.
Defined.

#[local] Existing Instance json_serde.

(** [json!({...})] *)
Definition json (fields : list (string * Tree)) : Value := v_obj fields.

Definition json_int (n : Z) : Tree := GenLeaf (J_Int n).

Definition json_str (s : string) : Tree := GenLeaf (J_Str s).
