(* ===== verification/ChannelSamples.v ===== *)
(** * Concrete channels

    The channels of tokio as lists, which satisfy what is assumed of them. *)

From S2P Require Import Prelude Std Ids Retry Events Job Ports UseCases Grpc Stream Signal Hub.

Open Scope string_scope.
Open Scope list_scope.
Open Scope Z_scope.

(** ** The broadcast channel *)

Record ListHub : Type := ListHub_mk { lh_sent : list string; lh_room : nat; lh_closed : bool }.

Definition lh_recv (b : ListHub) (pos : nat) : Received * nat :=
  if decide (lh_room b < length (lh_sent b) - pos)%nat then (Got Lagged, (length (lh_sent b) - lh_room b)%nat)
  else
    match lh_sent b !! pos with
    | Some p => (Got (Payload p), S pos)
    | None => (if lh_closed b then Got Closed else Pending, pos)
    end.

Definition list_broadcast : Broadcast ListHub nat.
Proof.
  refine {|
    bc_channel n := ListHub_mk [] n false;
    bc_subscribe b := length (lh_sent b);
    bc_send p b := ListHub_mk (lh_sent b ++ [p]) (lh_room b) (lh_closed b);
    bc_close b := ListHub_mk (lh_sent b) (lh_room b) true;
    bc_recv := lh_recv;
    bc_sent := lh_sent;
    bc_pos r := r;
    bc_room := lh_room;
    bc_closed := lh_closed;
  |}; try done.
  - intros b r p Hl Hr. unfold lh_recv. rewrite decide_False by lia. by rewrite Hl.
  - intros b r Hr. unfold lh_recv. by rewrite decide_True by lia.
  - intros b r ->. unfold lh_recv. rewrite decide_False by lia. rewrite lookup_ge_None_2 by lia. by destruct (lh_closed b).
Defined.

(** ** The channel of a fetch *)

Record ListChan : Type := ListChan_mk { lc_queued : list Message; lc_room : nat; lc_gone : bool }.

Definition list_mpsc : Mpsc ListChan.
Proof.
  refine {|
    mpsc_channel n := ListChan_mk [] n false;
    mpsc_send m c :=
      if lc_gone c then (Gone, c)
      else if decide (lc_room c ≤ length (lc_queued c))%nat then (Full, c)
      else (Sent, ListChan_mk (lc_queued c ++ [m]) (lc_room c) (lc_gone c));
    mpsc_recv c :=
      match lc_queued c with
      | [] => (None, c)
      | m :: ms => (Some m, ListChan_mk ms (lc_room c) (lc_gone c))
      end;
    mpsc_hangup c := ListChan_mk [] (lc_room c) true;
    queued := lc_queued;
    Stream.room := lc_room;
    gone := lc_gone;
  |}; try done.
  - by intros m c ->.
  - intros m c -> Hr. by rewrite decide_True.
  - intros m c -> Hr. rewrite decide_False by lia. by eexists.
  - by intros c ->.
  - intros c m ms ->. by eexists.
Defined.
