(* ===== verification/TestKit.v ===== *)
(** * Running the unit tests of the sources

    The tests of the crates, translated like the code they test: a test is a
    computation that panics where an assertion fails, and passes if it ends.
    Files [JobTests], [DomainTests], [StoreTests] and [EdgeTests] hold them;
    each closes with the lemma that the model passes them. Payloads are the trees of [JsonSamples]. *)

From S2P Require Import Prelude Std Ids Retry Events Job Ports.

Open Scope string_scope.
Open Scope list_scope.
Open Scope Z_scope.

Definition Test : Type := result unit Empty_set.

Definition passes (t : Test) : bool := is_ok t.

(** [assert!], [assert_eq!], [assert_ne!], [Result::expect],
    [Result::expect_err], [Option::expect] *)
Definition assert (b : bool) : Test := if b then Ok tt else Panic.

Definition assert_eq {A : Type} `{!EqDecision A} (a b : A) : Test := assert (bool_decide (a = b)).

Definition assert_ne {A : Type} `{!EqDecision A} (a b : A) : Test := assert (bool_decide (a ≠ b)).

Definition expect {A E F : Type} (r : result A E) : result A F :=
  match r with Ok a => Ok a | _ => Panic end.

Definition expect_err {A E F : Type} (r : result A E) : result E F :=
  match r with Err e => Ok e | _ => Panic end.

Definition expect_some {A F : Type} (o : option A) : result A F := or_panic o.

Definition is_err {A E : Type} (r : result A E) : bool := match r with Err _ => true | _ => false end.

(** [str::repeat] on one character *)
Fixpoint repeated (a : ascii) (n : nat) : string :=
  match n with
  | O => EmptyString
  | S n => String a (repeated a n)
  end.

(** ** Equality, as derived *)

#[export] Instance DomainError_eq_dec : EqDecision DomainError.
Proof. solve_decision. Defined.

#[export] Instance ParkReason_eq_dec : EqDecision ParkReason.
Proof. solve_decision. Defined.

#[export] Instance ReportedOutcome_eq_dec : EqDecision ReportedOutcome.
Proof. solve_decision. Defined.

#[export] Instance JobError_eq_dec : EqDecision JobError.
Proof. solve_decision. Defined.

#[export] Instance Priority_eq_dec : EqDecision Priority.
Proof. solve_decision. Defined.

#[export] Instance RetryPolicy_eq_dec : EqDecision RetryPolicy.
Proof. solve_decision. Defined.

#[export] Instance RetryDecision_eq_dec : EqDecision RetryDecision.
Proof. solve_decision. Defined.

#[export] Instance JobState_eq_dec : EqDecision JobState.
Proof. solve_decision. Defined.

#[export] Instance JobEvent_eq_dec `{ext : Externals} : EqDecision JobEvent.
Proof. solve_decision. Defined.

#[export] Instance EventEnvelope_eq_dec `{ext : Externals} : EqDecision EventEnvelope.
Proof. solve_decision. Defined.

(** [Utc.with_ymd_and_hms(2026, 7, 18, 12, 0, 0)] *)
Definition TS : DateTime := 1784376000 * 1000000000.
