(* ===== verification/JobTests.v ===== *)
(** * The unit tests of the aggregate ([koine-domain/src/job.rs]) *)

From S2P Require Import Prelude Std Ids Retry Events Job Serde JsonSamples TestKit.

Open Scope string_scope.
Open Scope list_scope.
Open Scope Z_scope.

#[local] Existing Instance json_externals.
#[local] Existing Instance json_serde.

Definition ts : DateTime := TS.

Definition env (version : Z) (ev : JobEvent) : EventEnvelope :=
  {| event_id := EventId_new (Z.to_N version);
     stream_id := JobId_new 1;
     envelope_version := version;
     recorded_at := ts;
     correlation_id := CorrelationId_new 9;
     causation_id := None;
     traceparent := None;
     schema_version := SCHEMA_VERSION;
     event := ev |}.

Definition enqueued : result JobEvent Empty_set :=
  let? q := expect (QueueName_new "default") in
  Ok (initial_event q (json [("k", json_int 1)]) (Priority_mk 3) RetryPolicy_default None).

Definition worker : result WorkerId Empty_set := expect (WorkerId_new "w1").

Definition lease_id : LeaseId := LeaseId_new 50.

(** Applying to a job that is kept: the answer and the job. *)
Definition applied (ev : JobEvent) (job : Job) : result unit DomainError * Job := apply ev job.

Definition folds_the_happy_path : Test :=
  let? e := enqueued in
  let? w := worker in
  let? job := expect (from_events
    [env 1 e; env 2 (E_Leased w lease_id ts); env 3 (E_Started w); env 4 (E_Succeeded None)]) in
  let? _ := assert_eq (job_state job) S_Succeeded in
  let? _ := assert_eq (job_version job) 4 in
  assert_eq (job_attempt job) 0.

Definition stream_must_start_with_enqueued : Test :=
  let? err := expect_err (from_events [env 1 E_Suspended]) in
  assert_eq err (StreamMustStartWithEnqueued "suspended").

Definition rejects_non_sequential_versions : Test :=
  let? e := enqueued in
  let? err := expect_err (from_events [env 1 e; env 3 E_Suspended]) in
  assert_eq err (NonSequentialVersion 2 3).

Definition started_is_illegal_while_pending : Test :=
  let? e := enqueued in
  let? w := worker in
  let? job := expect (from_events [env 1 e]) in
  let '(r, job) := applied (E_Started w) job in
  let? err := expect_err r in
  let? _ := assert_eq err (IllegalTransition "pending" "started") in
  assert_eq (job_version job) 1.

Definition failed_records_attempt_and_returns_to_pending : Test :=
  let? e := enqueued in
  let? w := worker in
  let? job := expect (from_events [env 1 e; env 2 (E_Leased w lease_id ts); env 3 (E_Started w)]) in
  let '(r, job) := applied (E_Failed {| error_kind := "k"; message := "m"; stacktrace := None; retryable := true |} 1) job in
  let? _ := expect r in
  let? _ := assert_eq (job_attempt job) 1 in
  let? _ := assert_eq (job_state job) (S_Pending None) in
  let '(r, job) := applied (E_RetryScheduled 1 ts) job in
  let? _ := expect r in
  assert_eq (job_state job) (S_Pending (Some ts)).

Definition lease_expiry_increments_attempt : Test :=
  let? e := enqueued in
  let? w := worker in
  let? job := expect (from_events [env 1 e; env 2 (E_Leased w lease_id ts)]) in
  let '(r, job) := applied (E_LeaseExpired lease_id) job in
  let? _ := expect r in
  let? _ := assert_eq (job_attempt job) 1 in
  assert_eq (job_state job) (S_Pending None).

Definition terminal_states_absorb_everything_except_late_ack : Test :=
  let? e := enqueued in
  let? w := worker in
  let? job := expect (from_events [env 1 e; env 2 (E_Cancelled None)]) in
  let '(r, job) := applied E_Suspended job in
  let? _ := assert (is_err r) in
  let '(r, job) := applied (E_LateAckConflict w lease_id Reported_Failed) job in
  let? _ := expect r in
  let? _ := assert_eq (job_state job) S_Cancelled in
  assert_eq (job_version job) 3.

Definition repair_resets_attempts_and_replaces_payload : Test :=
  let? e := enqueued in
  let? w := worker in
  let? job := expect (from_events
    [env 1 e; env 2 (E_Leased w lease_id ts); env 3 (E_LeaseExpired lease_id); env 4 (E_Parked RetriesExhausted)]) in
  let '(r, job) := applied (E_Repaired (Some (json [("k", json_int 2)])) "fixed") job in
  let? _ := expect r in
  let? _ := assert_eq (job_attempt job) 0 in
  let? _ := assert_eq (job_payload job) (json [("k", json_int 2)]) in
  assert_eq (job_state job) (S_Pending None).

Definition running_job : result Job Empty_set :=
  let? e := enqueued in
  let? w := worker in
  expect (from_events [env 1 e; env 2 (E_Leased w lease_id ts); env 3 (E_Started w)]).

Definition lease_requires_eligibility : Test :=
  let? e := enqueued in
  let? w := worker in
  let? job := expect (from_events [env 1 e]) in
  let? ev := expect (lease job w lease_id ts (Duration_from_secs 30)) in
  let? _ := assert (match ev with E_Leased _ _ _ => true | _ => false end) in
  let future := ts + Duration_from_secs 3600 in
  let? q := expect (QueueName_new "default") in
  let? scheduled := expect (from_events
    [env 1 (initial_event q (json []) (Priority_mk 0) RetryPolicy_default (Some future))]) in
  assert (is_err (lease scheduled w lease_id ts (Duration_from_secs 30))).

Definition start_rejects_a_different_worker : Test :=
  let? e := enqueued in
  let? w := worker in
  let? job := expect (from_events [env 1 e; env 2 (E_Leased w lease_id ts)]) in
  let? other := expect (WorkerId_new "intruder") in
  let? err := expect_err (start job other) in
  let? _ := assert_eq err LeaseMismatch in
  assert (is_ok (start job w)).

Definition succeed_rejects_a_stale_lease : Test :=
  let? job := running_job in
  let stale := LeaseId_new 999 in
  let? err := expect_err (succeed job stale None) in
  let? _ := assert_eq err LeaseMismatch in
  assert (is_ok (succeed job lease_id None)).

Definition failure (retryable : bool) : JobError :=
  {| error_kind := "k"; message := "m"; stacktrace := None; retryable := retryable |}.

Definition fail_retryable_schedules_a_retry : Test :=
  let? job := running_job in
  let? events := expect (fail job lease_id (failure true) ts 7) in
  let? _ := assert_eq (length events) 2%nat in
  let? _ := assert (match events !! 0%nat with Some (E_Failed _ 1) => true | _ => false end) in
  assert (match events !! 1%nat with Some (E_RetryScheduled 1 _) => true | _ => false end).

Definition fail_non_retryable_parks : Test :=
  let? job := running_job in
  let? events := expect (fail job lease_id (failure false) ts 7) in
  assert (match events !! 1%nat with Some (E_Parked NonRetryableError) => true | _ => false end).

(** [job.retry_policy = RetryPolicy { max_attempts: 1, ..default }] *)
Definition set_retry_policy (p : RetryPolicy) (j : Job) : Job :=
  Job_mk (job_id j) (job_queue j) (job_priority j) (job_payload j) p (job_attempt j) (job_state j) (job_version j).

Definition fail_at_exhaustion_parks : Test :=
  let? job := running_job in
  let job := set_retry_policy
    {| max_attempts := 1; base_delay := base_delay RetryPolicy_default; max_delay := max_delay RetryPolicy_default |} job in
  let? events := expect (fail job lease_id (failure true) ts 7) in
  assert (match events !! 1%nat with Some (E_Parked RetriesExhausted) => true | _ => false end).

Definition expire_lease_emits_expiry_plus_retry_decision : Test :=
  let? e := enqueued in
  let? w := worker in
  let? job := expect (from_events [env 1 e; env 2 (E_Leased w lease_id ts)]) in
  let? events := expect (expire_lease job ts 7) in
  let? _ := assert (match events !! 0%nat with Some (E_LeaseExpired _) => true | _ => false end) in
  assert (match events !! 1%nat with Some (E_RetryScheduled 1 _) => true | _ => false end).

Definition cancel_is_legal_until_terminal : Test :=
  let? job := running_job in
  let? _ := assert (is_ok (cancel job (Some "op"))) in
  let? e := enqueued in
  let? w := worker in
  let? finished := expect (from_events
    [env 1 e; env 2 (E_Leased w lease_id ts); env 3 (E_Started w); env 4 (E_Succeeded None)]) in
  assert (is_err (cancel finished None)).

Definition job_tests : list Test :=
  [folds_the_happy_path; stream_must_start_with_enqueued; rejects_non_sequential_versions;
   started_is_illegal_while_pending; failed_records_attempt_and_returns_to_pending;
   lease_expiry_increments_attempt; terminal_states_absorb_everything_except_late_ack;
   repair_resets_attempts_and_replaces_payload; lease_requires_eligibility; start_rejects_a_different_worker;
   succeed_rejects_a_stale_lease; fail_retryable_schedules_a_retry; fail_non_retryable_parks;
   fail_at_exhaustion_parks; expire_lease_emits_expiry_plus_retry_decision; cancel_is_legal_until_terminal].

Lemma job_tests_pass : forallb passes job_tests = true.
Proof. vm_compute. reflexivity. Qed.
