(* ===== verification/DomainTests.v ===== *)
(** * The unit tests of the events, retries, names, identifiers and lineage
      ([koine-domain/src/events.rs], [retry.rs], [queue.rs], [ids.rs],
      [koine-application/src/lineage.rs])

    [to_string] followed by [from_str] is the value in between: the text of
    JSON belongs to [serde_json]. *)

From S2P Require Import Prelude Std Ids Retry Events Job Serde JsonSamples Ports TestKit.

Open Scope string_scope.
Open Scope list_scope.
Open Scope Z_scope.

#[local] Existing Instance json_externals.
#[local] Existing Instance json_serde.

(** A loop over tests. *)
Fixpoint for_each {A : Type} (l : list A) (body : A → Test) : Test :=
  match l with
  | [] => Ok tt
  | a :: l => let? _ := body a in for_each l body
  end.

(** [lo..hi] *)
Definition range (lo hi : Z) : list Z := (fun n => lo + Z.of_nat n) <$> seq 0 (Z.to_nat (hi - lo)).

(** ** events.rs *)

Definition sample_events : result (list JobEvent) Empty_set :=
  let? worker := expect (WorkerId_new "w1") in
  let lease := LeaseId_new 2 in
  let t := TS in
  let? queue := expect (QueueName_new "default") in
  Ok [E_Enqueued queue (json [("n", json_int 1)]) (Priority_mk 5) RetryPolicy_default None;
      E_Leased worker lease t;
      E_Started worker;
      E_Succeeded (Some (json_str "ok"));
      E_Failed {| error_kind := "io"; message := "boom"; stacktrace := None; retryable := true |} 1;
      E_LeaseExpired lease;
      E_RetryScheduled 2 t;
      E_Parked RetriesExhausted;
      E_Cancelled (Some "operator");
      E_LateAckConflict worker lease Reported_Succeeded;
      E_Stalled;
      E_CheckpointRecorded "step-1" (json_int 1);
      E_SignalReceived "resume" v_null;
      E_ApprovalRequested "deploy";
      E_ApprovalGranted "deploy" "kael";
      E_ApprovalDenied "deploy" "kael";
      E_Suspended;
      E_Resumed;
      E_Repaired None "fixed input"].

(** [json["type"] == kind]: a missing key or a value that is no object reads
    as null. *)
Definition tagged (v : Value) (kind : string) : bool :=
  match json_view v with
  | V_Obj m => match m !! "type" with Some t => bool_decide (t = v_str kind) | None => false end
  | _ => false
  end.

Definition serde_tag_matches_kind_for_every_variant : Test :=
  let? evs := sample_events in
  for_each evs (fun ev =>
    let j := JobEvent_to_value ev in
    let? _ := assert (tagged j (kind ev)) in
    let? back := expect (JobEvent_from_value j) in
    assert_eq back ev).

Definition envelope_round_trips : Test :=
  let env :=
    {| event_id := EventId_new 10;
       stream_id := JobId_new 11;
       envelope_version := 1;
       recorded_at := TS;
       correlation_id := CorrelationId_new 12;
       causation_id := None;
       traceparent := Some "00-11111111111111111111111111111111-2222222222222222-01";
       schema_version := SCHEMA_VERSION;
       event := E_Suspended |} in
  let? back := expect (EventEnvelope_from_value (EventEnvelope_to_value env)) in
  assert_eq back env.

(** The time is the text of the encoder for 2026-07-18T12:00:00Z. *)
Definition envelope_deserializes_without_optional_lineage : Test :=
  let j := json
    [("event_id", v_uuid 1); ("stream_id", v_uuid 2); ("version", json_int 1);
     ("recorded_at", v_time TS); ("correlation_id", v_uuid 3); ("schema_version", json_int 1);
     ("event", json [("type", json_str "suspended")])] in
  let? env := expect (EventEnvelope_from_value j) in
  let? _ := assert_eq (causation_id env) None in
  assert_eq (traceparent env) None.

(** ** retry.rs *)

Definition parks_when_attempts_exhausted : Test :=
  let p := {| max_attempts := 3; base_delay := base_delay RetryPolicy_default;
              max_delay := max_delay RetryPolicy_default |} in
  let? _ := assert_eq (RetryPolicy_decide p 3 42) Park in
  assert_eq (RetryPolicy_decide p 4 42) Park.

Definition is_deterministic_for_equal_inputs : Test :=
  let p := RetryPolicy_default in
  assert_eq (RetryPolicy_decide p 2 1234) (RetryPolicy_decide p 2 1234).

(** The number of decisions that differ, for the set of their debug texts. *)
Definition distinct (l : list RetryDecision) : Z := Z.of_nat (length (remove_dups l)).

Definition different_seeds_can_differ : Test :=
  let p := RetryPolicy_default in
  assert (1 <? distinct (RetryPolicy_decide p 5 <$> range 0 32)).

Definition delay_never_exceeds_cap : Test :=
  let p := {| max_attempts := 100; base_delay := Duration_from_secs 1; max_delay := Duration_from_secs 30 |} in
  for_each (range 1 99) (fun attempt =>
    for_each (range 0 16) (fun seed =>
      match RetryPolicy_decide p attempt seed with
      | RetryAfter d => assert (d <=? Duration_from_secs 30)
      | Park => Ok tt
      end)).

Definition extreme_max_delay_never_panics : Test :=
  let p := {| max_attempts := 10; base_delay := DURATION_MAX; max_delay := DURATION_MAX |} in
  assert (match RetryPolicy_decide p 1 7 with RetryAfter _ => true | Park => false end).

Definition first_attempt_delay_is_within_base : Test :=
  let p := RetryPolicy_default in
  match RetryPolicy_decide p 1 99 with
  | RetryAfter d => assert (d <=? base_delay p)
  | Park => Panic
  end.

Definition different_attempts_can_differ_for_fixed_seed : Test :=
  let p := RetryPolicy_default in
  assert (4 <? distinct ((fun attempt => RetryPolicy_decide p attempt 42) <$> range 1 16)).

(** ** queue.rs *)

Definition accepts_valid_queue_names : Test :=
  for_each ["default"; "emails.high"; "a"; "x_1-2.z"] (fun name => assert (is_ok (QueueName_new name))).

Definition rejects_invalid_queue_names : Test :=
  let too_long := repeated "q" 129 in
  for_each [""; "UPPER"; "with space"; "ünïcode"; too_long] (fun name => assert (is_err (QueueName_new name))).

Definition queue_name_deserialization_revalidates : Test :=
  let? _ := assert (is_ok (read_queue (json_str "ok-queue"))) in
  assert (is_err (read_queue (json_str "NOT OK"))).

Definition priority_defaults_to_zero : Test := assert_eq Priority_default (Priority_mk 0).

(** ** ids.rs *)

Definition job_id_serde_is_transparent : Test :=
  let id := JobId_new 7 in
  let j := v_uuid (JobId_as_uuid id) in
  let? _ := assert_eq j (json_str (Uuid_to_string (JobId_as_uuid id))) in
  let? back := expect (read_uuid j) in
  assert_eq (JobId_new back) id.

Definition worker_id_rejects_empty_and_oversized : Test :=
  let? _ := assert (is_err (WorkerId_new "")) in
  let? _ := assert (is_err (WorkerId_new (repeated "w" 257))) in
  assert (is_ok (WorkerId_new "worker-1")).

Definition worker_id_deserialization_revalidates : Test :=
  let? _ := assert (is_ok (read_worker (json_str "ok-worker"))) in
  assert (is_err (read_worker (json_str ""))).

(** ** lineage.rs *)

(** The counter of the test's id source; its clock has no state. *)
Record TestIds : Type := TestIds_mk { test_counter : Z }.

Definition TestIds_next (w : TestIds) : Uuid * TestIds :=
  (Z.to_N (test_counter w), TestIds_mk (u64_add (test_counter w) 1)).

#[export] Instance TestIds_ids : IdGenerator TestIds := {|
  gen_job_id w := let '(u, w) := TestIds_next w in (JobId_new u, w);
  gen_event_id w := let '(u, w) := TestIds_next w in (EventId_new u, w);
  gen_lease_id w := let '(u, w) := TestIds_next w in (LeaseId_new u, w);
  gen_correlation_id w := let '(u, w) := TestIds_next w in (CorrelationId_new u, w);
  jitter_seed w := (7, w);
|}.

#[export] Instance TestClock_now : Clock TestIds := {| clock_now w := (TS, w) |}.

Definition wraps_events_with_sequential_versions_and_shared_lineage : Test :=
  let ids := TestIds_mk 1 in
  let stream := JobId_new 500 in
  let correlation := CorrelationId_new 600 in
  let '(envelopes, _) :=
    wrap_events stream 4 correlation None (Some "00-abc-def-01") [E_Suspended; E_Resumed] ids in
  let? _ := assert_eq (length envelopes) 2%nat in
  let? e0 := expect_some (envelopes !! 0%nat) in
  let? e1 := expect_some (envelopes !! 1%nat) in
  let? _ := assert_eq (envelope_version e0) 5 in
  let? _ := assert_eq (envelope_version e1) 6 in
  let? _ := assert_eq (correlation_id e0) correlation in
  let? _ := assert_eq (traceparent e1) (Some "00-abc-def-01") in
  assert_ne (event_id e0) (event_id e1).

Definition domain_tests : list Test :=
  [serde_tag_matches_kind_for_every_variant; envelope_round_trips;
   envelope_deserializes_without_optional_lineage;
   parks_when_attempts_exhausted; is_deterministic_for_equal_inputs; different_seeds_can_differ;
   delay_never_exceeds_cap; extreme_max_delay_never_panics; first_attempt_delay_is_within_base;
   different_attempts_can_differ_for_fixed_seed;
   accepts_valid_queue_names; rejects_invalid_queue_names; queue_name_deserialization_revalidates;
   priority_defaults_to_zero;
   job_id_serde_is_transparent; worker_id_rejects_empty_and_oversized; worker_id_deserialization_revalidates;
   wraps_events_with_sequential_versions_and_shared_lineage].

Lemma domain_tests_pass : forallb passes domain_tests = true.
Proof. vm_compute. reflexivity. Qed.
