(* ===== verification/StoreTests.v ===== *)
(** * The unit tests of the in-memory adapters
      ([koine-store-memory/src/store.rs], [dispatcher.rs])

    A test is a computation over the store, the id source and the clock the
    crate keeps for its tests; the calls of one test run one after the other
    on the state the earlier ones left. *)

From S2P Require Import Prelude Std Ids Retry Events Job Serde JsonSamples Ports MemStore MemDispatcher TestKit.

Open Scope string_scope.
Open Scope list_scope.
Open Scope Z_scope.

#[local] Existing Instance json_externals.
#[local] Existing Instance json_serde.

Definition TestWorld : Type := MemWorld SeededIds FixedClock.

Definition Tokio (A : Type) : Type := ST TestWorld Empty_set A.

(** [.await.expect(..)] and [.await.expect_err(..)] *)
Definition awaited {A E : Type} (m : ST TestWorld E A) : Tokio A :=
  fun w => let '(r, w) := m w in (expect r, w).

Definition awaited_err {A E : Type} (m : ST TestWorld E A) : Tokio E :=
  fun w => let '(r, w) := m w in (expect_err r, w).

Definition check (t : Test) : Tokio unit := st_lift t.

(** A test on a fresh store, with ids seeded by [seed]. *)
Definition clock : FixedClock := FixedClock_at TS.

Definition world (seed : Z) : TestWorld := MemWorld_mk InMemoryEventStore_new (SeededIds_new seed) clock.

Definition on_world (seed : Z) (t : Tokio unit) : Test := (t (world seed)).1.

(** ** store.rs *)

Definition enqueue_envelopes : Tokio (JobId * list EventEnvelope) :=
  let! stream := st_total gen_job_id in
  let! correlation := st_total gen_correlation_id in
  let! queue := st_lift (expect (QueueName_new "default")) in
  let ev := initial_event queue (json [("n", json_int 1)]) (Priority_mk 0) RetryPolicy_default None in
  let! envelopes := st_total (wrap_events stream 0 correlation None None [ev]) in
  st_ret (stream, envelopes).

Definition is_not_found (e : EventStoreError) : bool :=
  match e with StreamNotFound _ => true | _ => false end.

Definition is_backend (e : EventStoreError) : bool :=
  match e with Store_Backend _ => true | _ => false end.

Definition is_conflict (expected : Z) (e : EventStoreError) : bool :=
  match e with VersionConflict _ v => v =? expected | _ => false end.

Definition appends_and_loads_a_stream : Test := on_world 1 (
  let! enqueued := enqueue_envelopes in
  let '(stream, envelopes) := enqueued in
  let! _ := awaited (store_append stream 0 envelopes) in
  let! loaded := awaited (store_load stream) in
  check (assert_eq loaded envelopes)).

Definition rejects_version_conflicts : Test := on_world 1 (
  let! enqueued := enqueue_envelopes in
  let '(stream, envelopes) := enqueued in
  let! _ := awaited (store_append stream 0 envelopes) in
  let! err := awaited_err (store_append stream 0 envelopes) in
  check (assert (is_conflict 0 err))).

Definition load_of_unknown_stream_is_not_found : Test := on_world 2 (
  let! stream := st_total gen_job_id in
  let! err := awaited_err (store_load stream) in
  check (assert (is_not_found err))).

Definition append_maintains_the_dispatch_index : Test := on_world 3 (
  let! enqueued := enqueue_envelopes in
  let '(stream, envelopes) := enqueued in
  let! _ := awaited (store_append stream 0 envelopes) in
  let! w := st_get in
  let! entry := st_lift (expect_some (index (mem_inner w) !! stream)) in
  let! _ := check (assert (match entry_lease entry with None => true | Some _ => false end)) in
  let! correlation := st_total gen_correlation_id in
  let! cancel := st_total (wrap_events stream 1 correlation None None [E_Cancelled None]) in
  let! _ := awaited (store_append stream 1 cancel) in
  let! w := st_get in
  check (assert (match index (mem_inner w) !! stream with None => true | Some _ => false end))).

Definition fold_rejected_append_leaves_no_trace : Test := on_world 5 (
  let! stream := st_total gen_job_id in
  let! correlation := st_total gen_correlation_id in
  let! bad := st_total (wrap_events stream 0 correlation None None [E_Suspended]) in
  let! err := awaited_err (store_append stream 0 bad) in
  let! _ := check (assert (is_backend err)) in
  let! err := awaited_err (store_load stream) in
  check (assert (is_not_found err))).

Definition failed_append_leaves_no_phantom_stream : Test := on_world 4 (
  let! enqueued := enqueue_envelopes in
  let '(stream, envelopes) := enqueued in
  let! err := awaited_err (store_append stream 5 envelopes) in
  let! _ := check (assert (is_conflict 5 err)) in
  let! err := awaited_err (store_load stream) in
  check (assert (is_not_found err))).

Definition fold_rejected_append_on_existing_stream_keeps_prior_events : Test := on_world 6 (
  let! enqueued := enqueue_envelopes in
  let '(stream, envelopes) := enqueued in
  let! _ := awaited (store_append stream 0 envelopes) in
  let! correlation := st_total gen_correlation_id in
  let! worker := st_lift (expect (WorkerId_new "w")) in
  let! bad := st_total (wrap_events stream 1 correlation None None [E_Started worker]) in
  let! err := awaited_err (store_append stream 1 bad) in
  let! _ := check (assert (is_backend err)) in
  let! loaded := awaited (store_load stream) in
  check (assert_eq loaded envelopes)).

(** ** dispatcher.rs *)

(** The queue and the worker of the fixture; its store, ids and clock are
    [world 9]. *)
Record Fixture : Type := Fixture_mk { fx_queue : QueueName; fx_worker : WorkerId }.

Definition fixture : Tokio Fixture :=
  let! queue := st_lift (expect (QueueName_new "default")) in
  let! worker := st_lift (expect (WorkerId_new "w1")) in
  st_ret (Fixture_mk queue worker).

Definition with_fixture (t : Fixture → Tokio unit) : Test := on_world 9 (let! f := fixture in t f).

Definition enqueue (f : Fixture) (priority : Z) (not_before_secs : option Z) : Tokio JobId :=
  let! stream := st_total gen_job_id in
  let! correlation := st_total gen_correlation_id in
  let! now := st_total clock_now in
  let! not_before :=
    match not_before_secs with
    | Some s => let! t := st_lift (or_panic (checked_add_signed now (Duration_from_secs s))) in st_ret (Some t)
    | None => st_ret None
    end in
  let ev := initial_event (fx_queue f) (json [("job", json_str (Uuid_to_string (JobId_as_uuid stream)))])
    (Priority_mk priority) RetryPolicy_default not_before in
  let! envelopes := st_total (wrap_events stream 0 correlation None None [ev]) in
  let! _ := awaited (store_append stream 0 envelopes) in
  st_ret stream.

Definition advance (by_ : Duration) : Tokio unit :=
  st_zoom mem_clock set_mem_clock (FixedClock_advance TIMEDELTA_MAX by_).

Definition lease_for (f : Fixture) (ttl : Duration) : Tokio (option LeasedJob) :=
  awaited (lease_next (fx_queue f) (fx_worker f) ttl).

Definition leased_for (f : Fixture) (ttl : Duration) : Tokio LeasedJob :=
  let! o := lease_for f ttl in st_lift (expect_some o).

Definition retire : Tokio (option JobId) := awaited retire_next_expired_lease.

Definition is_none {A : Type} (o : option A) : bool := match o with None => true | Some _ => false end.

Definition claims_by_priority_then_fifo : Test := with_fixture (fun f =>
  let! low_first := enqueue f 0 None in
  let! high := enqueue f 9 None in
  let! low_second := enqueue f 0 None in
  let ttl := Duration_from_secs 30 in
  let! first := lease_for f ttl in
  let! second := lease_for f ttl in
  let! third := lease_for f ttl in
  let! fourth := lease_for f ttl in
  let! first := st_lift (expect_some first) in
  let! _ := check (assert_eq (leased_job_id first) high) in
  let! second := st_lift (expect_some second) in
  let! _ := check (assert_eq (leased_job_id second) low_first) in
  let! third := st_lift (expect_some third) in
  let! _ := check (assert_eq (leased_job_id third) low_second) in
  check (assert (is_none fourth))).

Definition respects_not_before : Test := with_fixture (fun f =>
  let! _ := enqueue f 0 (Some 60) in
  let ttl := Duration_from_secs 30 in
  let! o := lease_for f ttl in
  let! _ := check (assert (is_none o)) in
  let! _ := advance (Duration_from_secs 61) in
  let! o := lease_for f ttl in
  check (assert (negb (is_none o)))).

Definition claim_appends_the_leased_event : Test := with_fixture (fun f =>
  let! id := enqueue f 0 None in
  let! claimed := leased_for f (Duration_from_secs 30) in
  let! _ := check (assert_eq (leased_job_id claimed) id) in
  let! stream := awaited (store_load id) in
  let! _ := check (assert_eq (length stream) 2%nat) in
  let! e0 := st_lift (expect_some (stream !! 0%nat)) in
  let! e1 := st_lift (expect_some (stream !! 1%nat)) in
  let! _ := check (assert_eq (kind (event e1)) "leased") in
  check (assert_eq (correlation_id e1) (correlation_id e0))).

Definition extend_and_expiry : Test := with_fixture (fun f =>
  let! _ := enqueue f 0 None in
  let! claimed := leased_for f (Duration_from_secs 30) in
  let! r := retire in
  let! _ := check (assert_eq r None) in
  let! _ := advance (Duration_from_secs 20) in
  let! live := awaited (extend_lease (leased_lease claimed) (Duration_from_secs 30)) in
  let! _ := check (assert live) in
  let! _ := advance (Duration_from_secs 31) in
  let! r := retire in
  let! _ := check (assert_eq r (Some (leased_job_id claimed))) in
  let! live := awaited (extend_lease (leased_lease claimed) (Duration_from_secs 30)) in
  check (assert (negb live))).

Definition heartbeat_first_fences_retirement : Test := with_fixture (fun f =>
  let! id := enqueue f 0 None in
  let! leased := leased_for f (Duration_from_secs 30) in
  let! _ := advance (Duration_from_secs 20) in
  let! live := awaited (extend_lease (leased_lease leased) (Duration_from_secs 30)) in
  let! _ := check (assert live) in
  let! _ := advance (Duration_from_secs 11) in
  let! r := retire in
  let! _ := check (assert_eq r None) in
  let! stream := awaited (store_load id) in
  check (assert_eq (length stream) 2%nat)).

Definition retirement_first_rejects_heartbeat_and_happens_once : Test := with_fixture (fun f =>
  let! _ := enqueue f 0 None in
  let! leased := leased_for f (Duration_from_secs 30) in
  let! _ := advance (Duration_from_secs 31) in
  let! r := retire in
  let! _ := check (assert_eq r (Some (leased_job_id leased))) in
  let! r := retire in
  let! _ := check (assert_eq r None) in
  let! live := awaited (extend_lease (leased_lease leased) (Duration_from_secs 30)) in
  check (assert (negb live))).

Definition retires_lowest_expired_job_id_first : Test := with_fixture (fun f =>
  let! one := enqueue f 0 None in
  let! two := enqueue f 0 None in
  let '(expected_first, expected_second) := if JobId_leb one two then (one, two) else (two, one) in
  let! _ := leased_for f (Duration_from_secs 30) in
  let! _ := leased_for f (Duration_from_secs 30) in
  let! _ := advance (Duration_from_secs 31) in
  let! r := retire in
  let! _ := check (assert_eq r (Some expected_first)) in
  let! r := retire in
  check (assert_eq r (Some expected_second))).

Definition extend_lease_rejects_unrepresentable_ttl : Test := with_fixture (fun f =>
  let! _ := enqueue f 0 None in
  let! claimed := leased_for f (Duration_from_secs 30) in
  let! err := awaited_err (extend_lease (leased_lease claimed) DURATION_MAX) in
  check (assert (match err with Dispatch_Backend _ => true | _ => false end))).

Definition store_tests : list Test :=
  [appends_and_loads_a_stream; rejects_version_conflicts; load_of_unknown_stream_is_not_found;
   append_maintains_the_dispatch_index; fold_rejected_append_leaves_no_trace;
   failed_append_leaves_no_phantom_stream; fold_rejected_append_on_existing_stream_keeps_prior_events;
   claims_by_priority_then_fifo; respects_not_before; claim_appends_the_leased_event; extend_and_expiry;
   heartbeat_first_fences_retirement; retirement_first_rejects_heartbeat_and_happens_once;
   retires_lowest_expired_job_id_first; extend_lease_rejects_unrepresentable_ttl].

Lemma store_tests_pass : forallb passes store_tests = true.
Proof. vm_compute. reflexivity. Qed.
