(* ===== verification/EdgeTests.v ===== *)
(** * The unit tests of the server's edge
      ([koine-grpc/src/auth.rs], [koine-server/src/serve.rs])

    Headers are a map of texts here, and addresses are IPv4 with a port. *)

From S2P Require Import Prelude Std Ids Retry Events Job Serde JsonSamples Ports Grpc Server TestKit.

Open Scope string_scope.
Open Scope list_scope.
Open Scope Z_scope.

#[local] Existing Instance json_externals.
#[local] Existing Instance json_serde.

#[local] Instance test_wire : Wire := {|
  MetadataMap := gmap string string;
  metadata_str md name := md !! name;
  Uuid_parse_str := uuid_of_bits;
  json_from_str s := Some (json_str s);
  json_to_string _ := None;
  parse_display := uuid_of_bits_spec;
|}.

#[local] Instance Code_eq_dec : EqDecision Code.
Proof. solve_decision. Defined.

(** ** auth.rs *)

Definition TOKEN : string := "s3cr3t-token".

Definition with_header (name : string) (value : option string) (md : gmap string string) : gmap string string :=
  match value with
  | Some v => <[name := v]> md
  | None => md
  end.

Definition metadata (auth worker_id : option string) : MetadataMap :=
  with_header "koine-worker-id" worker_id (with_header "authorization" auth ∅).

Definition unauthenticated_with (md : MetadataMap) (expected_token : string) : result Status Empty_set :=
  let? err := expect_err (check md expected_token) in
  let? _ := assert_eq (status_code err) Unauthenticated in
  Ok err.

(** The tests that look at the code alone. *)
Definition refused (md : MetadataMap) (expected_token : string) : Test :=
  let? _ := unauthenticated_with md expected_token in Ok tt.

Definition refused_plainly (md : MetadataMap) (expected_token : string) : Test :=
  let? err := unauthenticated_with md expected_token in
  assert_eq (status_message err) "invalid credentials".

Definition valid_pair_is_ok : Test :=
  let? worker := expect (check (metadata (Some ("Bearer " +:+ TOKEN)) (Some "worker-1")) TOKEN) in
  assert_eq (WorkerId_as_str worker) "worker-1".

Definition wrong_token_same_length_is_unauthenticated : Test :=
  let wrong := repeated "x" (String.length TOKEN) in
  let? _ := assert_ne wrong TOKEN in
  refused_plainly (metadata (Some ("Bearer " +:+ wrong)) (Some "worker-1")) TOKEN.

Definition wrong_token_different_length_is_unauthenticated : Test :=
  refused (metadata (Some "Bearer short") (Some "worker-1")) TOKEN.

Definition missing_authorization_header_is_unauthenticated : Test :=
  refused (metadata None (Some "worker-1")) TOKEN.

Definition missing_worker_id_header_is_unauthenticated : Test :=
  refused (metadata (Some ("Bearer " +:+ TOKEN)) None) TOKEN.

Definition empty_worker_id_is_unauthenticated : Test :=
  refused (metadata (Some ("Bearer " +:+ TOKEN)) (Some "")) TOKEN.

Definition control_char_worker_id_is_unauthenticated : Test :=
  let worker := "worker" +:+ String (Ascii.ascii_of_nat 9) "1" in
  refused_plainly (metadata (Some ("Bearer " +:+ TOKEN)) (Some worker)) TOKEN.

Definition missing_bearer_prefix_is_unauthenticated : Test :=
  refused (metadata (Some TOKEN) (Some "worker-1")) TOKEN.

Definition empty_expected_token_rejects_empty_presented_token : Test :=
  refused_plainly (metadata (Some "Bearer ") (Some "worker-1")) "".

Definition empty_expected_token_rejects_any_presented_token : Test :=
  refused_plainly (metadata (Some ("Bearer " +:+ TOKEN)) (Some "worker-1")) "".

(** ** serve.rs *)

(** The parts of a text between the occurrences of a character. *)
Fixpoint split_on (c : ascii) (s : string) : list string :=
  match s with
  | EmptyString => [EmptyString]
  | String a s =>
      match split_on c s with
      | part :: parts => if Ascii.eqb a c then EmptyString :: part :: parts else String a part :: parts
      | [] => []
      end
  end.

(** Four octets and a port. *)
Definition parse_ipv4_socket (s : string) : (list Z * Z) + string :=
  let refused := inr "invalid socket address syntax" in
  match split_on ":" s with
  | [host; port] =>
      match parse_uint 255 <$> split_on "." host, parse_uint 65535 port with
      | [Ok a; Ok b; Ok c; Ok d], Ok p => inl ([a; b; c; d], p)
      | _, _ => refused
      end
  | _ => refused
  end.

#[local] Instance test_platform : Platform := {|
  SocketAddr := list Z * Z;
  SocketAddr_parse := parse_ipv4_socket;
  str_debug s := "'" +:+ s +:+ "'";
|}.

#[local] Instance SocketAddr_eq_dec : EqDecision SocketAddr.
Proof. change (EqDecision (list Z * Z)). apply _. Defined.

Definition lookup_in (vars : gmap string string) (name : string) : option string := vars !! name.

Definition parsed (vars : list (string * string)) : result ServeConfig string :=
  parse_config (lookup_in (list_to_map vars)).

(** [addr.parse::<SocketAddr>().expect(..)] *)
Definition addr_of (s : string) : result SocketAddr Empty_set :=
  match SocketAddr_parse s with inl a => Ok a | inr _ => Panic end.

(** [str::contains] *)
Fixpoint str_contains (part s : string) : bool :=
  String.prefix part s || match s with String _ s => str_contains part s | EmptyString => false end.

Definition missing_token_is_refused : Test :=
  let? err := expect_err (parsed []) in
  assert_eq err "KOINE_WORKER_TOKEN is required".

Definition empty_token_is_refused : Test :=
  let? err := expect_err (parsed [("KOINE_WORKER_TOKEN", "")]) in
  assert_eq err "KOINE_WORKER_TOKEN is required".

Definition defaults_apply_when_only_token_is_set : Test :=
  let? cfg := expect (parsed [("KOINE_WORKER_TOKEN", "t")]) in
  let? _ := assert_eq (cfg_database_url cfg) DEFAULT_DATABASE_URL in
  let? addr := addr_of DEFAULT_GRPC_ADDR in
  let? _ := assert_eq (cfg_grpc_addr cfg) addr in
  let? _ := assert_eq (cfg_max_lease_ttl cfg) (Duration_from_millis DEFAULT_MAX_LEASE_TTL_MS) in
  let? _ := assert_eq (cfg_idle_poll cfg) (Duration_from_millis DEFAULT_IDLE_POLL_MS) in
  let? _ := assert_eq (pool_max_connections (cfg_pool_config cfg)) 16 in
  assert_eq (PoolConfig_acquire_timeout (cfg_pool_config cfg)) (Duration_from_secs 5).

Definition overrides_are_parsed : Test :=
  let? cfg := expect (parsed
    [("KOINE_WORKER_TOKEN", "t"); ("DATABASE_URL", "postgres://x:y@host/db");
     ("KOINE_GRPC_ADDR", "127.0.0.1:9000"); ("KOINE_MAX_LEASE_TTL_MS", "60000");
     ("KOINE_IDLE_POLL_MS", "250"); ("KOINE_DB_MAX_CONNECTIONS", "4");
     ("KOINE_DB_ACQUIRE_TIMEOUT_MS", "900")]) in
  let? _ := assert_eq (cfg_worker_token cfg) "t" in
  let? _ := assert_eq (cfg_database_url cfg) "postgres://x:y@host/db" in
  let? addr := addr_of "127.0.0.1:9000" in
  let? _ := assert_eq (cfg_grpc_addr cfg) addr in
  let? _ := assert_eq (cfg_max_lease_ttl cfg) (Duration_from_mins 1) in
  let? _ := assert_eq (cfg_idle_poll cfg) (Duration_from_millis 250) in
  let? _ := assert_eq (pool_max_connections (cfg_pool_config cfg)) 4 in
  assert_eq (PoolConfig_acquire_timeout (cfg_pool_config cfg)) (Duration_from_millis 900).

(** A variable with a value that is refused, by name. *)
Definition names_the_variable (name value : string) : Test :=
  let? err := expect_err (parsed [("KOINE_WORKER_TOKEN", "t"); (name, value)]) in
  assert (str_contains name err).

Definition invalid_addr_is_rejected : Test := names_the_variable "KOINE_GRPC_ADDR" "not-an-addr".

Definition invalid_ttl_is_rejected : Test := names_the_variable "KOINE_MAX_LEASE_TTL_MS" "not-a-number".

Definition invalid_idle_poll_is_rejected : Test := names_the_variable "KOINE_IDLE_POLL_MS" "not-a-number".

Definition zero_resource_values_are_rejected : Test :=
  let? _ := names_the_variable "KOINE_MAX_LEASE_TTL_MS" "0" in
  let? _ := names_the_variable "KOINE_IDLE_POLL_MS" "0" in
  let? _ := names_the_variable "KOINE_DB_MAX_CONNECTIONS" "0" in
  names_the_variable "KOINE_DB_ACQUIRE_TIMEOUT_MS" "0".

Definition invalid_pool_size_is_rejected : Test := names_the_variable "KOINE_DB_MAX_CONNECTIONS" "not-a-number".

Definition invalid_acquire_timeout_is_rejected : Test :=
  names_the_variable "KOINE_DB_ACQUIRE_TIMEOUT_MS" "not-a-number".

Definition edge_tests : list Test :=
  [valid_pair_is_ok; wrong_token_same_length_is_unauthenticated;
   wrong_token_different_length_is_unauthenticated; missing_authorization_header_is_unauthenticated;
   missing_worker_id_header_is_unauthenticated; empty_worker_id_is_unauthenticated;
   control_char_worker_id_is_unauthenticated; missing_bearer_prefix_is_unauthenticated;
   empty_expected_token_rejects_empty_presented_token; empty_expected_token_rejects_any_presented_token;
   missing_token_is_refused; empty_token_is_refused; defaults_apply_when_only_token_is_set;
   overrides_are_parsed; invalid_addr_is_rejected; invalid_ttl_is_rejected; invalid_idle_poll_is_rejected;
   zero_resource_values_are_rejected; invalid_pool_size_is_rejected;
   invalid_acquire_timeout_is_rejected].

Lemma edge_tests_pass : forallb passes edge_tests = true.
Proof. vm_compute. reflexivity. Qed.
