(* ===== verification/PgSamples.v ===== *)
(** * A concrete database

    A JSON encoder that is invertible by construction, a server with
    microsecond times, and a broker over an empty database: the PostgreSQL
    definitions evaluate on it, and their hypotheses hold there together. *)

From S2P Require Import Prelude Std Ids Retry Events Job Lifecycle Commands Ports UseCases Contract.
From S2P Require Import MemDispatcher Postgres PgStore PgDispatcher PgRows PgTx PgAppend PgContract.

Open Scope string_scope.
Open Scope list_scope.
Open Scope Z_scope.

(** ** Values: a JSON value is its code, a positive number *)

Definition pg_externals : Externals.
Proof.
  refine {|
    Value := positive;
    Value_eq_dec := Pos.eq_dec;
    Uuid_to_string := sample_uuid_to_string;
    TimeDelta_from_std := sample_from_std;
    checked_add_signed := sample_checked_add;
  |}; apply sample_externals.
Defined.

#[local] Existing Instance pg_externals.

#[local] Arguments encode : simpl never.
#[local] Arguments decode : simpl never.

(** Records and events as lists of the codes of their fields. *)
Class Coded (A : Type) : Type := {
  fields : A → list positive;
  of_fields : list positive → option A;
  of_fields_fields x : of_fields (fields x) = Some x;
}.

Definition code {A} `{Coded A} (x : A) : positive := encode (fields x).

Definition uncode {A} `{Coded A} (p : positive) : option A := decode p ≫= of_fields.

Lemma uncode_code {A} `{Coded A} (x : A) : uncode (code x) = Some x.
Proof. unfold uncode, code. rewrite decode_encode. simpl. apply of_fields_fields. Qed.

Ltac coded := intros []; cbn; rewrite ?decode_encode, ?uncode_code; reflexivity.

#[local] Instance JobError_coded : Coded JobError.
Proof. refine {|
  fields e := [encode (error_kind e); encode (message e); encode (stacktrace e); encode (retryable e)];
  of_fields l :=
    match l with
    | [a; b; c; d] => a ← decode a; b ← decode b; c ← decode c; d ← decode d; Some (JobError_mk a b c d)
    | _ => None
    end;
|}. coded. Defined.

#[local] Instance RetryPolicy_coded : Coded RetryPolicy.
Proof. refine {|
  fields p := [encode (max_attempts p); encode (base_delay p); encode (max_delay p)];
  of_fields l :=
    match l with
    | [a; b; c] => a ← decode a; b ← decode b; c ← decode c; Some (RetryPolicy_mk a b c)
    | _ => None
    end;
|}. coded. Defined.

Definition reason_code (r : ParkReason) : Z :=
  match r with RetriesExhausted => 0 | NonRetryableError => 1 | ApprovalDenied => 2 end.

Definition of_reason_code (n : Z) : ParkReason :=
  if n =? 0 then RetriesExhausted else if n =? 1 then NonRetryableError else ApprovalDenied.

Definition outcome_code (o : ReportedOutcome) : bool :=
  match o with Reported_Succeeded => true | Reported_Failed => false end.

Definition of_outcome_code (b : bool) : ReportedOutcome :=
  if b then Reported_Succeeded else Reported_Failed.

Definition tag (n : Z) : positive := encode n.

Definition event_fields (ev : JobEvent) : list positive :=
  match ev with
  | E_Enqueued q p pr rp nb =>
      [tag 0; encode (QueueName_as_str q); p; encode (priority_value pr); code rp; encode nb]
  | E_Leased w l t => [tag 1; encode (WorkerId_as_str w); encode (LeaseId_as_uuid l); encode t]
  | E_Started w => [tag 2; encode (WorkerId_as_str w)]
  | E_Succeeded r => [tag 3; encode r]
  | E_Failed e n => [tag 4; code e; encode n]
  | E_LeaseExpired l => [tag 5; encode (LeaseId_as_uuid l)]
  | E_RetryScheduled n t => [tag 6; encode n; encode t]
  | E_Parked r => [tag 7; encode (reason_code r)]
  | E_Cancelled r => [tag 8; encode r]
  | E_LateAckConflict w l o =>
      [tag 9; encode (WorkerId_as_str w); encode (LeaseId_as_uuid l); encode (outcome_code o)]
  | E_Stalled => [tag 10]
  | E_CheckpointRecorded k d => [tag 11; encode k; d]
  | E_SignalReceived n d => [tag 12; encode n; d]
  | E_ApprovalRequested k => [tag 13; encode k]
  | E_ApprovalGranted k a => [tag 14; encode k; encode a]
  | E_ApprovalDenied k a => [tag 15; encode k; encode a]
  | E_Suspended => [tag 16]
  | E_Resumed => [tag 17]
  | E_Repaired p n => [tag 18; encode p; encode n]
  end.

Definition event_of_fields (l : list positive) : option JobEvent :=
  match l with
  | [] => None
  | t :: l =>
      n ← decode (A:=Z) t;
      match n, l with
      | 0, [q; p; pr; rp; nb] => q ← decode q; pr ← decode pr; rp ← uncode rp; nb ← decode nb;
          Some (E_Enqueued (QueueName_mk q) p (Priority_mk pr) rp nb)
      | 1, [w; l; t] => w ← decode w; l ← decode l; t ← decode t;
          Some (E_Leased (WorkerId_mk w) (LeaseId_new l) t)
      | 2, [w] => w ← decode w; Some (E_Started (WorkerId_mk w))
      | 3, [r] => r ← decode r; Some (E_Succeeded r)
      | 4, [e; n] => e ← uncode e; n ← decode n; Some (E_Failed e n)
      | 5, [l] => l ← decode l; Some (E_LeaseExpired (LeaseId_new l))
      | 6, [n; t] => n ← decode n; t ← decode t; Some (E_RetryScheduled n t)
      | 7, [r] => r ← decode r; Some (E_Parked (of_reason_code r))
      | 8, [r] => r ← decode r; Some (E_Cancelled r)
      | 9, [w; l; o] => w ← decode w; l ← decode l; o ← decode o;
          Some (E_LateAckConflict (WorkerId_mk w) (LeaseId_new l) (of_outcome_code o))
      | 10, [] => Some E_Stalled
      | 11, [k; d] => k ← decode k; Some (E_CheckpointRecorded k d)
      | 12, [n; d] => n ← decode n; Some (E_SignalReceived n d)
      | 13, [k] => k ← decode k; Some (E_ApprovalRequested k)
      | 14, [k; a] => k ← decode k; a ← decode a; Some (E_ApprovalGranted k a)
      | 15, [k; a] => k ← decode k; a ← decode a; Some (E_ApprovalDenied k a)
      | 16, [] => Some E_Suspended
      | 17, [] => Some E_Resumed
      | 18, [p; n] => p ← decode p; n ← decode n; Some (E_Repaired p n)
      | _, _ => None
      end
  end.

#[local] Instance JobEvent_coded : Coded JobEvent.
Proof. refine {|
  fields := event_fields;
  of_fields := event_of_fields;
|}.
  intros ev. destruct ev; unfold event_fields, event_of_fields, tag; rewrite decode_encode; cbn;
    rewrite ?decode_encode, ?uncode_code; cbn;
    repeat match goal with
    | x : QueueName |- _ => destruct x | x : WorkerId |- _ => destruct x
    | x : LeaseId |- _ => destruct x | x : Priority |- _ => destruct x
    | x : ParkReason |- _ => destruct x | x : ReportedOutcome |- _ => destruct x
    end; reflexivity.
Defined.

#[local] Instance EventEnvelope_coded : Coded EventEnvelope.
Proof. refine {|
  fields env :=
    [encode (EventId_as_uuid (event_id env)); encode (JobId_as_uuid (stream_id env));
     encode (envelope_version env); encode (recorded_at env);
     encode (CorrelationId_as_uuid (correlation_id env));
     encode (EventId_as_uuid <$> causation_id env); encode (traceparent env);
     encode (schema_version env); code (event env)];
  of_fields l :=
    match l with
    | [a; b; c; d; e; f; g; h; i] =>
        a ← decode a; b ← decode b; c ← decode c; d ← decode d; e ← decode e; f ← decode f;
        g ← decode g; h ← decode h; i ← uncode i;
        Some {| event_id := EventId_new a; stream_id := JobId_new b; envelope_version := c;
                recorded_at := d; correlation_id := CorrelationId_new e;
                causation_id := EventId_new <$> f; traceparent := g; schema_version := h;
                event := i |}
    | _ => None
    end;
|}.
  intros [[] [] ? ? [] [[]|] ? ? ?]; cbn; rewrite ?decode_encode, ?uncode_code; reflexivity.
Defined.

(** ** The server *)

(** The range of TIMESTAMPTZ: from 4713 BC to 294276 AD. *)
Definition TIMESTAMPTZ_MIN : DateTime := -210866803200 * 1000000000.

Definition TIMESTAMPTZ_MAX : DateTime := 9224318016000 * 1000000000.

Definition sample_timestamptz (t : DateTime) : DateTime + SqlxError :=
  if (TIMESTAMPTZ_MIN <=? t) && (t <? TIMESTAMPTZ_MAX) then inl (t / 1000 * 1000)
  else inr (Sqlx_Database "22008" None "timestamp out of range").

Definition of_option {A : Type} (o : option A) : A + string :=
  match o with
  | Some a => inl a
  | None => inr "not this type"
  end.

Definition read_event (v : Value) : JobEvent + string :=
  match uncode v with
  | None => inr "not an event"
  | Some ev => if names_valid ev then inl ev else inr "invalid name"
  end.

Lemma sample_timestamptz_ok t t' :
  sample_timestamptz t = inl t' → TIMESTAMPTZ_MIN ≤ t < TIMESTAMPTZ_MAX ∧ t' = t / 1000 * 1000.
Proof.
  unfold sample_timestamptz. destruct (Z.leb_spec TIMESTAMPTZ_MIN t), (Z.ltb_spec t TIMESTAMPTZ_MAX);
    simpl; naive_solver.
Qed.

Definition sample_postgres : Postgres.
Proof.
  refine {|
    event_to_value ev := inl (code ev : Value);
    event_from_value v := read_event v;
    envelope_to_value env := inl (code env : Value);
    envelope_from_value v := of_option (uncode v);
    jsonb v := inl v;
    timestamptz := sample_timestamptz;
    invalid_text := Sqlx_Database "22021" None "invalid byte sequence";
    negative_limit := Sqlx_Database "2201W" None "LIMIT must not be negative";
    violation_text c := "duplicate key value violates unique constraint " +:+ c;
    names_version_first := false;
    SqlxError_to_string e := match e with Sqlx_Database _ _ t | Sqlx_Other t => t end;
  |}.
  - intros ev v v' ev' [= <-] [= <-]. unfold read_event. rewrite uncode_code.
    destruct (names_valid ev); [|done]. intros [= <-]. apply similar_refl.
  - intros ev v. unfold read_event. destruct (uncode v) as [ev'|]; [|done].
    destruct (names_valid ev') eqn:Hn; [|done]. by intros [= <-].
  - intros env v v' _ _ _. by eexists _, _.
  - done.
  - intros t e. unfold sample_timestamptz. destruct (_ && _); [done|]. intros [= <-]. by intros c x.
  - by intros c x.
  - intros t t' [_ ->]%sample_timestamptz_ok. pose proof (Z.mod_pos_bound t 1000).
    pose proof (Z.div_mod t 1000). lia.
  - intros t1 t2 t1' t2' [_ ->]%sample_timestamptz_ok [_ ->]%sample_timestamptz_ok ?.
    apply Z.mul_le_mono_nonneg_r; [lia|]. by apply Z.div_le_mono.
  - intros t t' [Hr ->]%sample_timestamptz_ok. unfold sample_timestamptz.
    assert (TIMESTAMPTZ_MIN ≤ t / 1000 * 1000 ≤ t) as Hd.
    { split; [|pose proof (Z.mul_div_le t 1000); lia].
      change TIMESTAMPTZ_MIN with (TIMESTAMPTZ_MIN / 1000 * 1000).
      apply Z.mul_le_mono_nonneg_r; [lia|]. apply Z.div_le_mono; lia. }
    destruct (Z.leb_spec TIMESTAMPTZ_MIN (t / 1000 * 1000)); [|lia].
    destruct (Z.ltb_spec (t / 1000 * 1000) TIMESTAMPTZ_MAX); [|lia]. simpl.
    by rewrite Z.div_mul.
Defined.

#[local] Existing Instance sample_postgres.

(** ** The broker *)

(** Ids from an unbounded counter, as version 7 UUIDs are meant to be: never
    the same twice. *)
Record FreshIds : Type := FreshIds_mk { fresh_next : N }.

#[export] Instance FreshIds_IdGenerator : IdGenerator FreshIds := {|
  gen_job_id g := (JobId_new (fresh_next g), FreshIds_mk (fresh_next g + 1));
  gen_event_id g := (EventId_new (fresh_next g), FreshIds_mk (fresh_next g + 1));
  gen_lease_id g := (LeaseId_new (fresh_next g), FreshIds_mk (fresh_next g + 1));
  gen_correlation_id g := (CorrelationId_new (fresh_next g), FreshIds_mk (fresh_next g + 1));
  jitter_seed g := (Z.of_N (fresh_next g), FreshIds_mk (fresh_next g + 1));
|}.

Definition pg_T0 : DateTime := 1700000000 * 1000000000.

Definition PgBroker : Type := PgWorld FreshIds FixedClock.

Definition p0 : PgBroker := PgWorld_mk Db_empty [] (FreshIds_mk 1) (FixedClock_at pg_T0).

Definition pg_q1 : QueueName := QueueName_mk "mail".

Definition pg_wk1 : WorkerId := WorkerId_mk "worker-1".

Definition pg_job1 : EnqueueCommand :=
  {| cmd_queue := pg_q1;
     cmd_payload := (1%positive : Value);
     cmd_priority := Priority_default;
     cmd_retry_policy := RetryPolicy_default;
     cmd_not_before := None;
     cmd_lineage := Lineage_default |}.

Definition p_enqueued : PgBroker := snd (EnqueueJob_execute pg_job1 p0).

Definition p_leased : PgBroker :=
  snd (LeaseNextJob_execute pg_q1 pg_wk1 (Duration_from_secs 30) p_enqueued).

(** ** Its id source and clock *)

#[export] Instance FreshIds_Fresh : FreshIdSource FreshIds.
Proof.
  refine {| spent g u := (u < fresh_next g)%N |}; simpl; intros; [lia..|]. split; lia.
Defined.

Lemma T0_sane (t : DateTime) : TIMESTAMPTZ_MIN ≤ t < TIMESTAMPTZ_MAX → time_ok t.
Proof.
  intros Ht. exists (t / 1000 * 1000). simpl. unfold sample_timestamptz.
  destruct (Z.leb_spec TIMESTAMPTZ_MIN t), (Z.ltb_spec t TIMESTAMPTZ_MAX); simpl; (done || lia).
Qed.

#[export] Instance FixedClock_Sane : SaneClock FixedClock.
Proof.
  refine {| sane c := TIMESTAMPTZ_MIN ≤ fixed_now c < TIMESTAMPTZ_MAX |}.
  intros c Hc. simpl. split; [by apply T0_sane|done].
Defined.

Lemma empty_ok : db_ok Db_empty.
Proof.
  split; simpl; try by intros k [? ?]; try done.
  - split; [by intros k row ?|]. intros u. by intros i row Hi.
  - intros id s Hs. exfalso. unfold db_log in Hs. simpl in Hs. rewrite pg_log_lookup in Hs. by case_decide.
  - intros id _. apply lookup_empty.
  - by intros k1 k2 ob1 ob2 env1 env2 _ Hk.
Qed.

Lemma p0_healthy : pg_healthy p0.
Proof.
  split; [apply empty_ok|done| |by vm_compute].
  intros u (id & s & env & Hs & _). exfalso. unfold db_log in Hs. simpl in Hs. rewrite pg_log_lookup in Hs. by case_decide.
Qed.

(** The column keeps every event whose names and times are valid. *)
Lemma sample_storable ev : names_valid ev = true → times_fit ev → pg_storable ev.
Proof.
  intros Hn Ht. split; [|exact Ht]. exists (code ev), (code ev).
  split; [done|]. split; [done|]. simpl. unfold read_event. by rewrite uncode_code, Hn.
Qed.
