(* ===== verification/PgRuns.v ===== *)
(** * Concrete runs on PostgreSQL

    The end-to-end exercise of the composition root on the sample database,
    to its end, and what its verdict says there. *)

From S2P Require Import Prelude Std Ids Retry Events Job Lifecycle Commands Ports UseCases Contract.
From S2P Require Import MemDispatcher Server DevLoop Postgres PgStore PgDispatcher PgRelay DevRun PgRows PgTx PgContract PgSamples.

Open Scope string_scope.
Open Scope list_scope.
Open Scope Z_scope.

#[local] Existing Instance pg_externals.
#[local] Existing Instance sample_postgres.

(** ** JSON literals *)

Definition read_json (v : Value) : option (list (string * bool) + string) := decode v.

Definition sample_get_bool (v : Value) (name : string) : option bool :=
  match read_json v with
  | Some (inl fields) => snd <$> head (base.filter (λ f, f.1 = name) fields)
  | _ => None
  end.

Definition sample_json : Json.
Proof.
  refine {|
    get_bool := sample_get_bool;
    json_flags fields := (encode (inl fields : list (string * bool) + string) : Value);
    json_string s := (encode (inr s : list (string * bool) + string) : Value);
  |}; intros; unfold sample_get_bool, read_json; rewrite decode_encode.
  - by rewrite filter_cons_True.
  - by rewrite filter_cons_False.
  - done.
Defined.

#[local] Existing Instance sample_json.

(** ** The exercise *)

Definition pg_at (t : DateTime) (w : PgBroker) : PgBroker := set_pg_clock (FixedClock_at t) w.

Definition advance (secs : Z) (w : PgBroker) : PgBroker :=
  pg_at (fixed_now (pg_clock w) + Duration_from_secs secs) w.

(** The worker goes round; the crashed lease runs out and is swept; the
    retries become due and the worker goes round again. *)
Definition dev_schedule : list (Turn (G:=FreshIds) (C:=FixedClock)) :=
  [Worker_turn; Worker_turn; Main_turn false; Worker_turn; Worker_turn;
   Between (advance 3); Main_turn false; Between (advance 3);
   Worker_turn; Main_turn false; Worker_turn; Worker_turn; Main_turn false].

Definition dev_start : RelayWorld FreshIds FixedClock Output := RelayWorld_mk p0 Output_new.

Definition dev_end : RelayWorld FreshIds FixedClock Output := snd (run 10 dev_schedule dev_start).

(** [dev-loop] to its end on the database: the plain job runs through once;
    the crashed lease is swept and the job runs again; the failed job is
    retried. No story misses a marker, no job is left in the dispatch table,
    and the relay has printed a line for each of the nineteen events, next to
    the four of the exercise, and emptied the outbox. *)
Theorem dev_loop_completes :
  (run 10 dev_schedule dev_start).1 = Ok (Some tt) ∧
  (story (JobId_new 1) (rw_world dev_end)).1 = Ok ["enqueued"; "leased"; "started"; "succeeded"] ∧
  (story (JobId_new 4) (rw_world dev_end)).1
    = Ok ["enqueued"; "leased"; "lease_expired"; "retry_scheduled"; "leased"; "started"; "succeeded"] ∧
  (story (JobId_new 7) (rw_world dev_end)).1
    = Ok ["enqueued"; "leased"; "started"; "failed"; "retry_scheduled"; "leased"; "started"; "succeeded"] ∧
  length (out_lines (rw_sink dev_end)) = 23%nat ∧
  tb_outbox (db_tables (pg_db (rw_world dev_end))) = ∅ ∧
  tb_dispatch (db_tables (pg_db (rw_world dev_end))) = ∅.
Proof.
  split; [vm_cast_no_check (eq_refl (A:=result (option unit) string) (Ok (Some tt)))|].
  split; [vm_cast_no_check (eq_refl (story (JobId_new 1) (rw_world dev_end)).1)|].
  split; [vm_cast_no_check (eq_refl (story (JobId_new 4) (rw_world dev_end)).1)|].
  split; [vm_cast_no_check (eq_refl (story (JobId_new 7) (rw_world dev_end)).1)|].
  split; [vm_cast_no_check (eq_refl 23%nat)|].
  split; apply map_size_empty_inv; vm_cast_no_check (eq_refl 0%nat).
Qed.

Lemma run_verdict_witness : ∃ job1 job2 job3 w1 w2 w3,
  story job1 w1 = (Ok ["enqueued"; "leased"; "started"; "succeeded"], w2) ∧
  (∃ k2, story job2 w2 = (Ok k2, w3) ∧ "lease_expired" ∈ k2) ∧
  (∃ k3, story job3 w3 = (Ok k3, rw_world dev_end) ∧ "failed" ∈ k3 ∧ "retry_scheduled" ∈ k3).
Proof.
  assert ((run 10 dev_schedule dev_start).1 = Ok (Some tt)) as Ha
    by vm_cast_no_check (eq_refl (A:=result (option unit) string) (Ok (Some tt))).
  assert (run 10 dev_schedule dev_start = (Ok (Some tt), dev_end)) as Hrun
    by (unfold dev_end; rewrite <- Ha; apply surjective_pairing). clear Ha.
  destruct (run_verdict 10 dev_schedule dev_start dev_end Hrun)
    as (_ & j1 & j2 & j3 & _ & w1 & _ & _ & _ & (k1 & k2 & k3 & w2 & w3 & H1 & H2 & H3 & -> & Hb & Hc)).
  exists j1, j2, j3, w1, w2, w3. clear Hrun. split; [exact H1|]. split; [exists k2; exact (conj H2 Hb)|].
  exists k3. exact (conj H3 Hc).
Defined.
