(* ===== verification/PgWitnesses.v ===== *)
(** * The PostgreSQL theorems at concrete states

    Each theorem with hypotheses about the PostgreSQL adapters, applied to a
    state of the sample database, where its hypotheses hold together. *)

From S2P Require Import Prelude Std Ids Retry Events Job Lifecycle Commands Ports UseCases Contract UseCaseFacts System.
From S2P Require Import MemStore MemDispatcher MemFacts MemSystem Signal Postgres PgStore PgDispatcher PgRelay PgRows PgTx PgAppend PgInsert PgCommit PgPublish.
From S2P Require Import PgRelayFacts PgContract PgClaim PgHeartbeat PgRebuild PgSystem PgPromises PgNotify Agree PgSamples PgRuns.

Open Scope string_scope.
Open Scope list_scope.
Open Scope Z_scope.

#[local] Existing Instance pg_externals.
#[local] Existing Instance sample_postgres.

(** ** The states *)

Definition answer {A B E : Type} (x : result A E * B) : result A E := fst x.

Lemma runs_to {E A : Type} (m : ST PgBroker E A) w : m w = (answer (m w), snd (m w)).
Proof. unfold answer. by destruct (m w). Qed.

(** A run with an answer that was computed. *)
Lemma answers {E A : Type} (m : ST PgBroker E A) w r : answer (m w) = r → ∃ w', m w = (r, w').
Proof. intros <-. eexists. apply runs_to. Qed.

Definition panics {A E : Type} (r : result A E) : bool :=
  match r with Panic => true | _ => false end.

(** A stream of at most [n] events, whichever. *)
Definition no_longer (n : nat) (w : PgBroker) : bool :=
  bool_decide (map_Forall (λ _ s, (length s ≤ n)%nat) (db_log (pg_db w))).

Lemma no_longer_spec n w id s : no_longer n w = true → db_log (pg_db w) !! id = Some s → (length s ≤ n)%nat.
Proof. intros H%bool_decide_eq_true. apply H. Qed.

Lemma no_longer_stream n w id : no_longer n w = true → (length (db_stream (pg_db w) id) ≤ n)%nat.
Proof.
  intros H. unfold db_stream. destruct (db_log _ !! id) as [s|] eqn:Hs; simpl; [|lia]. by eapply no_longer_spec.
Qed.

Lemma pg_enqueue_healthy (w : PgBroker) cmd :
  pg_healthy w → RetryPolicy_typed (cmd_retry_policy cmd) → no_longer 9 w = true →
  pg_healthy (snd (EnqueueJob_execute cmd w)).
Proof.
  intros Hw Hp Hl. assert (healthy w) as H0 by exact Hw.
  edestruct (enqueue_log w cmd) as (_ & H & _); [exact H0|exact Hp| |exact (runs_to (EnqueueJob_execute cmd) w)|exact H].
  change (Z.of_nat (length (db_stream (pg_db w) (gen_job_id w).1)) + 1 ≤ I64_MAX).
  pose proof (no_longer_stream _ _ (gen_job_id w).1 Hl). unfold I64_MAX. lia.
Qed.

Lemma pg_claim_healthy (w : PgBroker) queue worker ttl :
  pg_healthy w → no_longer 9 w = true → panics (answer (LeaseNextJob_execute queue worker ttl w)) = false →
  pg_healthy (snd (LeaseNextJob_execute queue worker ttl w)).
Proof.
  intros Hw Hl Hp. assert (healthy w) as H0 by exact Hw.
  edestruct (lease_next_log w queue worker ttl) as (_ & H);
    [exact H0| |exact (runs_to (LeaseNextJob_execute queue worker ttl) w)|apply H; intros He; by rewrite He in Hp].
  intros id s Hs. pose proof (no_longer_spec _ _ _ _ Hl Hs). unfold room.
  change (Z.of_nat (length s) + 1 ≤ I64_MAX). unfold I64_MAX. lia.
Qed.

Lemma p_enqueued_healthy : pg_healthy p_enqueued.
Proof. apply pg_enqueue_healthy; [exact p0_healthy|by vm_compute..]. Qed.

(** A second job in the queue. *)
Definition p_two : PgBroker := snd (EnqueueJob_execute pg_job1 p_enqueued).

Lemma p_two_healthy : pg_healthy p_two.
Proof. apply pg_enqueue_healthy; [exact p_enqueued_healthy|by vm_compute..]. Qed.

Lemma p_leased_healthy : pg_healthy p_leased.
Proof. unfold p_leased. apply pg_claim_healthy; [exact p_enqueued_healthy|by vm_compute|by vm_compute]. Qed.

#[local] Opaque p0 p_enqueued p_two p_leased.

(** ** Other brokers around them *)

Definition secs30 : Duration := Duration_from_secs 30.

Definition pg_wk2 : WorkerId := WorkerId_mk "worker-2".

Definition other_claim (d : Db) : Db :=
  pg_db (snd (Postgres_claim pg_q1 pg_wk2 secs30 (PgWorld_mk d [] (FreshIds_mk 1000) (FixedClock_at pg_T0)))).

Definition other_seen (d : Db) : Db :=
  pg_db (pp_world (PgPresence_seen (Statement_ran pg_T0) pg_wk2 (Some pg_q1)
    (PgPresence_mk (PgWorld_mk d [] (FreshIds_mk 1000) (FixedClock_at pg_T0)) 0))).

Lemma other_claim_ok jobs outbox : fate_ok (Runs other_claim jobs outbox).
Proof.
  intros d Hd. unfold other_claim.
  eapply (claim_sound pg_q1 pg_wk2 secs30 (PgWorld_mk d [] (FreshIds_mk 1000) (FixedClock_at pg_T0)));
    [exact Hd|constructor|exact (runs_to (Postgres_claim pg_q1 pg_wk2 secs30) _)].
Qed.

Lemma other_seen_ok jobs outbox : fate_ok (Runs other_seen jobs outbox).
Proof.
  intros d Hd.
  by apply (presence_sound _ _ _ (PgPresence_mk (PgWorld_mk d [] (FreshIds_mk 1000) (FixedClock_at pg_T0)) 0)).
Qed.

(** Another broker claims while this one is in its first round trip. *)
Definition raced (w : PgBroker) : PgBroker := set_pg_script [Runs other_claim ∅ ∅] w.

(** Another broker's heartbeat of a worker comes in between. *)
Definition watched (w : PgBroker) : PgBroker := set_pg_script [Runs other_seen ∅ ∅] w.

Lemma raced_ok w : Forall fate_ok (pg_script (raced w)).
Proof. apply Forall_singleton, other_claim_ok. Qed.

Lemma watched_ok w : Forall fate_ok (pg_script (watched w)).
Proof. apply Forall_singleton, other_seen_ok. Qed.

Lemma raced_sound w : pg_healthy w → db_ok (pg_db (raced w)).
Proof. by intros []. Qed.

Lemma watched_sound w : pg_healthy w → db_ok (pg_db (watched w)).
Proof. by intros []. Qed.

Lemma later_sound t w : pg_healthy w → db_ok (pg_db (watched (pg_at t w))).
Proof. by intros []. Qed.

(** ** A batch *)

Definition pid1 : JobId := JobId_new 1.

Definition stop : JobEvent := E_Cancelled (Some "stop").

Definition drawing : list EventEnvelope * PgBroker :=
  wrap_events pid1 1 (CorrelationId_new 2) None None [stop] p_two.

Definition stop_batch : list EventEnvelope := fst drawing.

(** The broker that has wrapped it. *)
Definition p_drawn : PgBroker := snd drawing.

Lemma drawing_split : wrap_events pid1 1 (CorrelationId_new 2) None None [stop] p_two = (stop_batch, p_drawn).
Proof. unfold stop_batch, p_drawn, drawing. by destruct (wrap_events _ _ _ _ _ _ _). Qed.

Lemma p_drawn_healthy : pg_healthy p_drawn.
Proof.
  assert (healthy p_two) as H0 by exact p_two_healthy.
  by destruct (wrap_events_spec _ _ _ _ _ _ _ _ _ H0 drawing_split).
Qed.

Lemma p_drawn_prepared : pg_prepared p_drawn stop_batch.
Proof. exact (wrap_events_prepared _ _ _ _ _ _ _ _ _ p_two_healthy drawing_split). Qed.

Lemma stop_batch_spec :
  event <$> stop_batch = [stop] ∧ sequential 1 stop_batch ∧
  Forall (wrapped pid1 (CorrelationId_new 2) None None) stop_batch.
Proof.
  assert (healthy p_two) as H0 by exact p_two_healthy.
  by destruct (wrap_events_spec _ _ _ _ _ _ _ _ _ H0 drawing_split) as (_ & _ & ?).
Qed.

Lemma stop_batch_length : length stop_batch = 1%nat.
Proof. rewrite <-(length_fmap event). by rewrite (proj1 stop_batch_spec). Qed.

Lemma stop_batch_nonempty : stop_batch ≠ [].
Proof. intros He. pose proof stop_batch_length as Hl. by rewrite He in Hl. Qed.

#[local] Opaque p_drawn stop_batch.

(** ** The append *)

(** The other broker's claim takes version 2: this one's cancellation,
    decided at version 1, is refused, and the claim stays. *)
Lemma append_atomic_witness :
  ∃ w', Postgres_append pid1 1 stop_batch (raced p_drawn) = (Err (VersionConflict pid1 1), w') ∧
    db_ok (pg_db w') ∧ seen (raced p_drawn) (pg_db w').
Proof.
  assert (Ha : answer (Postgres_append pid1 1 stop_batch (raced p_drawn)) = Err (VersionConflict pid1 1)) by by vm_compute.
  destruct (answers (Postgres_append pid1 1 stop_batch) (raced p_drawn) _ Ha) as [w' Hrun].
  destruct (append_atomic _ _ _ (raced p_drawn) _ _ (raced_sound _ p_drawn_healthy) (raced_ok _) stop_batch_nonempty
    ltac:(by rewrite stop_batch_length) Hrun) as (Hok & _ & Hc).
  exists w'. split; [exact Hrun|]. split; [exact Hok|].
  destruct Hc as [(d & kept & j & _ & _ & [Hr|(e & Hin & _)])|[Hs _]]; [done| |exact Hs].
  by apply list_elem_of_singleton in Hin.
Defined.

Definition folds (s : list EventEnvelope) : bool :=
  match from_events s with Ok _ => true | _ => false end.

Lemma folds_spec s : folds s = true → ∃ j, from_events s = Ok j.
Proof. unfold folds. destruct (from_events s) as [j| |]; [|done..]. by exists j. Qed.

Lemma stop_batch_acceptable : acceptable (db_stream (pg_db p_drawn) pid1) pid1 1 stop_batch.
Proof.
  destruct stop_batch_spec as (_ & Hseq & Hwr). split; [by vm_compute|]. split; [exact Hseq|].
  split; [by eapply wrapped_stream_ids|]. apply folds_spec. by vm_compute.
Qed.

Lemma stop_batch_storable : Forall pg_storable (event <$> stop_batch).
Proof. rewrite (proj1 stop_batch_spec). apply Forall_singleton, sample_storable; done. Qed.

Lemma stop_batch_traces : Forall (λ env, trace_ok (traceparent env)) stop_batch.
Proof.
  destruct stop_batch_spec as (_ & _ & Hwr). eapply Forall_impl; [exact Hwr|].
  by intros env (_ & _ & _ & -> & _).
Qed.

(** The watching broker touches no event. *)
Lemma watched_events w d : outside (pg_script (watched w)) (pg_db w) d →
  tb_events (db_tables d) = tb_events (db_tables (pg_db w)).
Proof.
  intros Ho. unfold outside in Ho. induction Ho as [|d d1 d2 Hs _ IH]; [done|]. rewrite IH.
  destruct Hs as [(others & jobs & outbox & Hin & ->)|[-> _]]; [|done].
  apply list_elem_of_singleton in Hin. by injection Hin as -> _ _.
Qed.

Lemma watched_possible w id expected envs :
  possible (pg_db w) (around w) id expected envs →
  possible (pg_db (watched w)) (around (watched w)) id expected envs.
Proof.
  intros (Ha & Hb & Hf & Hnd & Hun & Hid).
  split; [exact Ha|]. split; [exact Hb|]. split; [exact Hf|]. split; [exact Hnd|]. split; [|exact Hid].
  eapply Forall_impl; [exact Hun|]. intros env Hn d Hd. simpl. rewrite (watched_events _ _ Hd).
  apply (Hn (pg_db w)). constructor.
Qed.

Lemma stop_batch_possible :
  possible (pg_db (watched p_drawn)) (around (watched p_drawn)) pid1 1 stop_batch.
Proof.
  apply watched_possible, prepared_possible; [exact p_drawn_healthy|exact p_drawn_prepared
    |exact stop_batch_acceptable|by vm_compute|exact stop_batch_storable|exact stop_batch_traces].
Qed.

Lemma watched_calm w : calm (around (watched w)).
Proof. intros f Hf%list_elem_of_singleton. by exists other_seen, ∅, ∅. Qed.

Lemma append_under_contention_witness :
  ∃ w' d kept j, Postgres_append pid1 1 stop_batch (watched p_drawn) = (Ok tt, w') ∧
    committed pid1 1 stop_batch d (pg_db w') kept j.
Proof.
  assert (Ha : answer (Postgres_append pid1 1 stop_batch (watched p_drawn)) = Ok tt) by by vm_compute.
  destruct (answers (Postgres_append pid1 1 stop_batch) (watched p_drawn) _ Ha) as [w' Hrun].
  destruct (append_under_contention _ _ _ (watched p_drawn) _ _ (watched_sound _ p_drawn_healthy) (watched_ok _)
    (watched_calm _) stop_batch_nonempty stop_batch_possible Hrun)
    as [(_ & d & kept & j & _ & Hcom)|(? & _)]; [|done].
  exists w', d, kept, j. split; [exact Hrun|exact Hcom].
Defined.

Lemma append_loads_back_witness :
  ∃ w' kept, Postgres_append pid1 1 stop_batch p_drawn = (Ok tt, w') ∧ event <$> kept = [stop] ∧
    Postgres_load pid1 w' = (Ok (db_stream (pg_db p_drawn) pid1 ++ kept), w').
Proof.
  destruct (append_loads_back pid1 1 stop_batch p_drawn p_drawn_healthy p_drawn_prepared)
    as (r & w' & Hrun & _ & Hyes & _); [by vm_compute|].
  destruct (Hyes stop_batch_acceptable stop_batch_storable stop_batch_traces) as (-> & kept & _ & Hev & Hload).
  exists w', kept. split; [exact Hrun|]. split; [|exact Hload]. by rewrite Hev, (proj1 stop_batch_spec).
Defined.

(** ** Claims *)

Definition leases_job (id : JobId) (r : result (option LeasedJob) DispatchError) : bool :=
  match r with
  | Ok (Some lj) => bool_decide (leased_job_id lj = id)
  | _ => false
  end.

Lemma leases_job_run (m : ST PgBroker DispatchError (option LeasedJob)) w id :
  leases_job id (answer (m w)) = true → ∃ lj w', m w = (Ok (Some lj), w') ∧ leased_job_id lj = id.
Proof.
  unfold answer. destruct (m w) as [[[lj|]| |] w']; try done. intros H%bool_decide_eq_true. by exists lj, w'.
Qed.

(** The other broker takes the first job, this one the second. *)
Lemma claim_atomic_witness :
  ∃ lj w' s j, Postgres_claim pg_q1 pg_wk1 secs30 (raced p_two) = (Ok (Some lj), w') ∧
    leased_job_id lj = JobId_new 4 ∧ db_ok (pg_db w') ∧
    granted (raced p_two) pg_q1 pg_wk1 secs30 (JobId_new 4) s j (leased_lease lj) (pg_db w').
Proof.
  assert (Ha : leases_job (JobId_new 4) (answer (Postgres_claim pg_q1 pg_wk1 secs30 (raced p_two))) = true) by by vm_compute.
  destruct (leases_job_run (Postgres_claim pg_q1 pg_wk1 secs30) _ _ Ha) as (lj & w' & Hrun & Hid).
  destruct (claim_atomic pg_q1 pg_wk1 secs30 (raced p_two) _ _ (raced_sound _ p_two_healthy) (raced_ok _) Hrun)
    as (Hok & _ & _ & _ & s & j & Hg & _).
  exists lj, w', s, j. split; [exact Hrun|]. split; [exact Hid|]. split; [exact Hok|].
  by rewrite <-Hid.
Defined.

(** No pending job waits for a time. *)
Definition undated (w : PgBroker) : bool :=
  bool_decide (map_Forall (λ _ s, match from_events s with
    | Ok j => match job_state j with S_Pending (Some _) => false | _ => true end
    | _ => true
    end = true) (db_log (pg_db w))).

Lemma undated_spec w id j x :
  undated w = true → from_events (db_stream (pg_db w) id) = Ok j → job_state j ≠ S_Pending (Some x).
Proof.
  intros Hu%bool_decide_eq_true Hj Hst. unfold db_stream in Hj.
  destruct (db_log (pg_db w) !! id) as [s|] eqn:Hs; [|done]. simpl in Hj. specialize (Hu _ _ Hs). simpl in Hu.
  by rewrite Hj, Hst in Hu.
Qed.

Lemma p_two_ready : claim_ready p_two pg_q1 pg_wk1 secs30.
Proof.
  assert (Hnow : (clock_now (pg_clock p_two)).1 = pg_T0) by by vm_compute.
  split; rewrite ?Hnow.
  - by vm_compute.
  - exists (pg_T0 + secs30). by vm_compute.
  - intros l. apply sample_storable; [done|]. apply (T0_sane (pg_T0 + secs30)). clear. by vm_compute.
  - intros id. assert (no_longer 9 p_two = true) as H by by vm_compute.
    pose proof (no_longer_stream _ _ id H). unfold I64_MAX. lia.
  - intros id j x Hj Hst _ _. assert (undated p_two = true) as H by by vm_compute.
    by apply (undated_spec _ _ _ x H Hj).
Qed.

(** The job that was enqueued first goes first. *)
Lemma claim_serves_due_jobs_witness :
  ∃ lj w', Postgres_claim pg_q1 pg_wk1 secs30 p_two = (Ok (Some lj), w') ∧ leased_job_id lj = pid1 ∧
    due (pg_db p_two) pg_q1 pg_T0 pid1.
Proof.
  assert (Ha : leases_job pid1 (answer (Postgres_claim pg_q1 pg_wk1 secs30 p_two)) = true) by by vm_compute.
  destruct (leases_job_run (Postgres_claim pg_q1 pg_wk1 secs30) _ _ Ha) as (lj & w' & Hrun & Hid).
  destruct (claim_serves_due_jobs pg_q1 pg_wk1 secs30 p_two p_two_healthy p_two_ready)
    as (r & w1 & Hrun1 & _ & Hr).
  rewrite Hrun in Hrun1. injection Hrun1 as <- <-. destruct Hr as (Hdue & _).
  exists lj, w'. split; [exact Hrun|]. split; [exact Hid|]. rewrite Hid in Hdue. exact Hdue.
Defined.

(** ** A claim within the tick *)

(** A job due half a microsecond after the broker's now, and one that is due,
    behind it. *)
Definition pg_job_soon : EnqueueCommand :=
  {| cmd_queue := pg_q1;
     cmd_payload := (1%positive : Value);
     cmd_priority := Priority_default;
     cmd_retry_policy := RetryPolicy_default;
     cmd_not_before := Some (pg_T0 + 500);
     cmd_lineage := Lineage_default |}.

Definition p_soon : PgBroker := snd (EnqueueJob_execute pg_job1 (snd (EnqueueJob_execute pg_job_soon p0))).

Lemma p_soon_healthy : pg_healthy p_soon.
Proof. apply pg_enqueue_healthy; [apply pg_enqueue_healthy; [exact p0_healthy|by vm_compute..]|by vm_compute..]. Qed.

(** The first job of the queue becomes due at [x], in the current tick; by
    computation. *)
Definition soon_due (w : PgBroker) (x : DateTime) : bool :=
  match from_events (db_stream (pg_db w) pid1), tb_dispatch (db_tables (pg_db w)) !! JobId_as_uuid pid1 with
  | Ok j, Some row =>
      bool_decide (job_queue j = pg_q1) && match job_state j with S_Pending (Some y) => y =? x | _ => false end &&
      bool_decide (map_Forall (λ u other, u ≠ JobId_as_uuid pid1 → claim_where (QueueName_as_str pg_q1) pg_T0 other = true →
        dq_priority other < dq_priority row ∨ dq_priority other = dq_priority row ∧ dq_seq row < dq_seq other)
        (tb_dispatch (db_tables (pg_db w))))
  | _, _ => false
  end.

(** The second job of the queue is due. *)
Definition pid4 : JobId := JobId_new 4.

Definition is_due (w : PgBroker) (id : JobId) : bool :=
  match from_events (db_stream (pg_db w) id) with
  | Ok j => bool_decide (job_queue j = pg_q1) && match job_state j with S_Pending nb => eligible_at nb pg_T0 | _ => false end
  | _ => false
  end.

Lemma is_due_spec w id : is_due w id = true → due (pg_db w) pg_q1 pg_T0 id.
Proof.
  unfold is_due, due. destruct (from_events _) as [j| |]; [|done..]. destruct (job_state j) as [nb| | | | | | |] eqn:Hst;
    rewrite ?andb_false_r; [|done..]. intros [Hq%bool_decide_eq_true He]%andb_true_iff. by exists j, nb.
Qed.

Lemma claim_within_tick_fails_witness :
  due (pg_db p_soon) pg_q1 pg_T0 pid4 ∧
  ∃ e w', Postgres_claim pg_q1 pg_wk1 secs30 p_soon = (Err e, w') ∧ pg_healthy w' ∧
    db_tables (pg_db w') = db_tables (pg_db p_soon).
Proof.
  assert (Hb : soon_due p_soon (pg_T0 + 500) = true) by by vm_compute.
  assert (Hd : is_due p_soon pid4 = true) by by vm_compute.
  split; [exact (is_due_spec _ _ Hd)|]. clear Hd. unfold soon_due in Hb.
  destruct (from_events (db_stream (pg_db p_soon) pid1)) as [j| |] eqn:Hj; [|discriminate Hb..].
  destruct (tb_dispatch (db_tables (pg_db p_soon)) !! JobId_as_uuid pid1) as [row|] eqn:Hrow; [|discriminate Hb].
  apply andb_true_iff in Hb as [[Hq%bool_decide_eq_true Hx]%andb_true_iff Hall%bool_decide_eq_true].
  destruct (job_state j) as [[y|]| | | | | | |] eqn:Hst; try discriminate Hx. apply Z.eqb_eq in Hx as ->.
  apply (claim_within_tick_fails pg_q1 pg_wk1 secs30 p_soon pid1 j (pg_T0 + 500) pg_T0 row p_soon_healthy
    ltac:(by eexists) Hj Hq Hst ltac:(by vm_compute) ltac:(by vm_compute) ltac:(by vm_compute) Hrow).
  intros u other Hu Hne Hc. exact (Hall u other Hu Hne Hc).
Defined.

(** ** Leases *)

(** The claimed job, [n] seconds into its lease of thirty. *)
Definition p_later (n : Z) : PgBroker := pg_at (pg_T0 + Duration_from_secs n) p_leased.

Lemma p_later_ok n : db_ok (pg_db (watched (p_later n))).
Proof. apply later_sound, p_leased_healthy. Qed.

#[local] Opaque p_later.

Lemma retirement_atomic_witness :
  ∃ w' s j l, Postgres_retire_one (watched (p_later 60)) = (Ok (Some pid1), w') ∧ db_ok (pg_db w') ∧
    retired (watched (p_later 60)) pid1 s j l (pg_db w').
Proof.
  assert (Ha : answer (Postgres_retire_one (watched (p_later 60))) = Ok (Some pid1)) by by vm_compute.
  destruct (answers Postgres_retire_one (watched (p_later 60)) _ Ha) as [w' Hrun].
  destruct (retirement_atomic (watched (p_later 60)) _ _ (p_later_ok 60) (watched_ok _) Hrun)
    as (Hok & _ & s & j & l & Hr).
  exists w', s, j, l. split; [exact Hrun|]. split; [exact Hok|exact Hr].
Defined.

Definition pg_lease1 : LeaseId := LeaseId_new 4.

Lemma heartbeat_atomic_witness :
  ∃ w', Postgres_extend_lease pg_lease1 secs30 (watched (p_later 10)) = (Ok true, w') ∧ db_ok (pg_db w') ∧
    ∃ d0 now' u row t, seen (watched (p_later 10)) d0 ∧
      tb_dispatch (db_tables d0) !! u = Some row ∧ dq_lease_id row = Some 4%N ∧
      dq_lease_expires_at row = Some t ∧ now' < t.
Proof.
  assert (Ha : answer (Postgres_extend_lease pg_lease1 secs30 (watched (p_later 10))) = Ok true) by by vm_compute.
  destruct (answers (Postgres_extend_lease pg_lease1 secs30) (watched (p_later 10)) _ Ha) as [w' Hrun].
  destruct (heartbeat_atomic pg_lease1 secs30 (watched (p_later 10)) _ _ (p_later_ok 10) (watched_ok _) Hrun)
    as (Hok & _ & d0 & d & now' & x & Hd0 & _ & _ & _ & _ & Hb).
  destruct (proj1 Hb eq_refl) as (u & row & t & Hu & Hl & Ht & Hlt).
  exists w'. split; [exact Hrun|]. split; [exact Hok|].
  exists d0, now', u, row, t. exact (conj Hd0 (conj Hu (conj Hl (conj Ht Hlt)))).
Defined.

Lemma brokers_are_sessions_witness :
  fate_ok (Runs (λ d, pg_db (Postgres_claim pg_q1 pg_wk2 secs30
    (PgWorld_mk d [Fails (Sqlx_Other "gone")] (FreshIds_mk 1000) (FixedClock_at pg_T0))).2) ∅ ∅).
Proof.
  destruct (brokers_are_sessions (G:=FreshIds) (C:=FixedClock) (S:=Output) pid1 1 stop_batch pg_q1 pg_wk2 pg_lease1 secs30
    RELAY_BATCH Output_new Pool_saturated None 0 stop_batch_nonempty) as (_ & H & _);
    [by rewrite stop_batch_length|].
  apply (H [Fails (Sqlx_Other "gone")]). by apply Forall_singleton.
Defined.

(** ** Rebuild *)

Lemma rebuild_replays_log_witness :
  ∃ w' j row, rebuild_dispatch p_leased = (Ok 1, w') ∧ db_ok (pg_db w') ∧
    from_events (db_stream (pg_db p_leased) pid1) = Ok j ∧
    tb_dispatch (db_tables (pg_db w')) !! 1%N = Some row ∧ replayed j (Some row).
Proof.
  destruct (rebuild_replays_log p_leased (db_ok_log_sound _ (ph_ok _ p_leased_healthy)) (ph_script _ p_leased_healthy))
    as (w' & Hrun & Hok & _ & _ & Hrep).
  assert (Ha : answer (rebuild_dispatch p_leased) = Ok 1) by by vm_compute.
  assert (folds (db_stream (pg_db p_leased) pid1) = true) as [j Hj]%folds_spec by by vm_compute.
  assert (Hst : match from_events (db_stream (pg_db p_leased) pid1) with
    | Ok j => dispatchable (job_state j) | _ => false end = true) by by vm_compute.
  rewrite Hj in Hst. pose proof (Hrep _ _ Hj) as Hrow. simpl in Hrow.
  destruct (tb_dispatch (db_tables (pg_db w')) !! 1%N) as [row|] eqn:Hr.
  2: { destruct Hrow as [Hd _]. unfold dispatched in Hd. by destruct (job_state j); naive_solver. }
  exists w', j, row. split; [|by split_and!].
  unfold answer in Ha. rewrite Hrun in *. simpl in Ha. by rewrite Ha.
Defined.

(** ** The relay *)

Definition relaying_to (w : PgBroker) : RelayWorld FreshIds FixedClock Output :=
  RelayWorld_mk w Output_new.

Lemma relay_answers {E A : Type} (m : ST (RelayWorld FreshIds FixedClock Output) E A) x r :
  answer (m x) = r → ∃ x', m x = (r, x').
Proof. intros <-. unfold answer. destruct (m x) as [r x']. by exists x'. Qed.

Lemma raced_outbox w : single_relay (pg_script (raced w)).
Proof. intros others jobs locked Hin%list_elem_of_singleton. by injection Hin. Qed.

Lemma relayed_sound w : pg_healthy w → db_ok (pg_db (rw_world (relaying_to (raced w)))).
Proof. by intros []. Qed.

(** The announcement of the other broker's claim comes with the two this
    one had. *)
Lemma relay_takes_only_accepted_witness :
  ∃ x' rows envs d, relay_once RELAY_BATCH (relaying_to (raced p_two)) = (Ok 3, x') ∧ db_ok (pg_db (rw_world x')) ∧
    decode_rows rows = Ok (rows.*1, envs) ∧ length envs = 3%nat ∧ taken rows d (pg_db (rw_world x')).
Proof.
  assert (Ha : answer (relay_once RELAY_BATCH (relaying_to (raced p_two))) = Ok 3) by by vm_compute.
  destruct (relay_answers (relay_once RELAY_BATCH) (relaying_to (raced p_two)) _ Ha) as [x' Hrun].
  destruct (relay_takes_only_accepted RELAY_BATCH (relaying_to (raced p_two)) _ _ (relayed_sound _ p_two_healthy) (raced_ok _) Hrun)
    as (Hok & _ & [[_ Hno]|(rows & envs & d & _ & Hdec & _ & _ & Ht & Hr)]); [by destruct (Hno 3 eq_refl)|].
  exists x', rows, envs, d. split; [exact Hrun|]. split; [exact Hok|]. split; [exact Hdec|]. split; [|exact Ht].
  clear Ha. destruct Hr as [[= Hr]|(e & _ & ?)]; [|done]. unfold U32_MAX in Hr. lia.
Defined.

(** The announcements leave in the order of their stream. *)
Lemma relay_keeps_stream_order_witness :
  ∃ x' d rows envs, relay_once RELAY_BATCH (relaying_to (raced p_two)) = (Ok 3, x') ∧
    length rows = 3%nat ∧ decode_rows rows = Ok (rows.*1, envs) ∧
    ∀ j k ob env k' ob' env', rows !! j = Some (k, ob) → announces d ob env →
      tb_outbox (db_tables d) !! k' = Some ob' → ob_stream_id ob' = ob_stream_id ob → announces d ob' env' →
      envelope_version env' < envelope_version env → ∃ i, (i < j)%nat ∧ rows !! i = Some (k', ob').
Proof.
  assert (Ha : answer (relay_once RELAY_BATCH (relaying_to (raced p_two))) = Ok 3) by by vm_compute.
  destruct (relay_answers (relay_once RELAY_BATCH) (relaying_to (raced p_two)) _ Ha) as [x' Hrun]. clear Ha.
  destruct (relay_keeps_stream_order RELAY_BATCH (relaying_to (raced p_two)) _ _ (relayed_sound _ p_two_healthy)
    (raced_ok _) (raced_outbox _) Hrun) as (d & rows & envs & _ & Hn & Hdec & _ & Hord).
  exists x', d, rows, envs. split; [exact Hrun|]. split; [unfold U32_MAX in Hn; lia|]. split; [exact Hdec|].
  intros j k ob env k' ob' env' H1 H2 H3 H4 H5 H6. exact (Hord j k ob env H1 H2 k' ob' env' H3 H4 H5 H6).
Defined.

(** Every row of the outbox reads as an envelope, by computation. *)
Definition reads (w : PgBroker) : bool :=
  bool_decide (map_Forall (λ _ ob, match envelope_from_value (ob_envelope ob) with inl _ => true | _ => false end = true)
    (tb_outbox (db_tables (pg_db w)))).

Lemma reads_readable w : reads w = true → readable (tb_outbox (db_tables (pg_db w))).
Proof.
  intros H%bool_decide_eq_true k ob Hk. specialize (H _ _ Hk). cbv beta in H.
  destruct (envelope_from_value (ob_envelope ob)) as [env|]; [by exists env|done].
Qed.

Lemma printing_accepts : accepting Output_new.
Proof.
  exists (λ o, out_script o = []). split; [done|]. intros envs o Ho. simpl.
  set (lines := _ <$> envs). clearbody lines. clear envs. revert o Ho.
  induction lines as [|line lines IH]; intros o Ho; simpl; [by exists o|]. unfold st_bind, println. rewrite Ho. by apply IH.
Qed.

Lemma relay_drains_outbox_witness :
  ∃ chunks x', relay_ticker 1 Output_new (relaying_to p_two) = (Output_new, x') ∧
    tb_outbox (db_tables (pg_db (rw_world x'))) = ∅ ∧ deliver_all chunks Output_new = (Ok tt, rw_sink x').
Proof.
  assert (reads p_two = true) as Hr%reads_readable by by vm_compute.
  assert (Hs : (size (tb_outbox (db_tables (pg_db p_two))) <=? 64)%nat = true) by by vm_compute.
  destruct (relay_drains_outbox 1 Output_new (relaying_to p_two)) as (envs & chunks & x' & Hrun & _ & _ & Hempty & Hall).
  - exact (ph_ok _ p_two_healthy).
  - exact (ph_script _ p_two_healthy).
  - exact printing_accepts.
  - exact Hr.
  - apply Nat.leb_le in Hs. unfold RELAY_BATCH. change (rw_world (relaying_to p_two)) with p_two. lia.
  - exists chunks, x'. split; [exact Hrun|]. split; [exact Hempty|exact Hall].
Defined.

(** ** Notifications, and the other store *)

Definition open_event : JobEvent := E_Enqueued pg_q1 (1%positive : @Value pg_externals) Priority_default RetryPolicy_default None.

Definition opening_draw : list EventEnvelope * PgBroker :=
  wrap_events (JobId_new 77) 0 (CorrelationId_new 2) None None [open_event] p0.

Definition open_batch : list EventEnvelope := fst opening_draw.

Definition p_opened : PgBroker := snd opening_draw.

Lemma opening_split : wrap_events (JobId_new 77) 0 (CorrelationId_new 2) None None [open_event] p0 = (open_batch, p_opened).
Proof. unfold open_batch, p_opened, opening_draw. by destruct (wrap_events _ _ _ _ _ _ _). Qed.

Lemma p_opened_healthy : pg_healthy p_opened.
Proof.
  assert (healthy p0) as H0 by exact p0_healthy.
  by destruct (wrap_events_spec _ _ _ _ _ _ _ _ _ H0 opening_split).
Qed.

Lemma p_opened_prepared : pg_prepared p_opened open_batch.
Proof. exact (wrap_events_prepared _ _ _ _ _ _ _ _ _ p0_healthy opening_split). Qed.

Lemma open_batch_spec :
  event <$> open_batch = [open_event] ∧ Forall (wrapped (JobId_new 77) (CorrelationId_new 2) None None) open_batch.
Proof.
  assert (healthy p0) as H0 by exact p0_healthy.
  by destruct (wrap_events_spec _ _ _ _ _ _ _ _ _ H0 opening_split) as (_ & _ & ? & _ & ?).
Qed.

Lemma open_batch_length : length open_batch = 1%nat.
Proof. rewrite <-(length_fmap event). by rewrite (proj1 open_batch_spec). Qed.

Lemma open_batch_nonempty : open_batch ≠ [].
Proof. intros He. pose proof open_batch_length as Hl. by rewrite He in Hl. Qed.

#[local] Opaque p_opened open_batch.

Definition m_empty : MemWorld FreshIds FixedClock :=
  MemWorld_mk InMemoryEventStore_new (FreshIds_mk 1) (FixedClock_at pg_T0).

Lemma m_empty_healthy : mem_healthy m_empty.
Proof. exact (proj1 (mem_initial (Sys_mk m_empty []) eq_refl eq_refl)). Qed.

Lemma empty_mirrors : mirrors m_empty p0.
Proof.
  intros id. simpl. assert (db_log (pg_db p0) !! id = None) as ->.
  { unfold db_log. simpl. rewrite pg_log_lookup. by case_decide. }
  rewrite lookup_empty. constructor.
Qed.

Lemma opened_mirrors : mirrors m_empty p_opened.
Proof.
  assert (healthy p0) as H0 by exact p0_healthy.
  destruct (wrap_events_spec _ _ _ _ _ _ _ _ _ H0 opening_split) as (_ & Hlog & _).
  intros id. pose proof (empty_mirrors id) as Hm. change (db_log (pg_db p_opened) = db_log (pg_db p0)) in Hlog.
  by rewrite Hlog.
Qed.

(** Both stores open the stream. *)
Lemma stores_agree_witness :
  ∃ m' w', InMemory_append (JobId_new 77) 0 open_batch m_empty = (Ok tt, m') ∧
    Postgres_append (JobId_new 77) 0 open_batch p_opened = (Ok tt, w') ∧ mirrors m' w'.
Proof.
  assert (Ha : answer (Postgres_append (JobId_new 77) 0 open_batch p_opened) = Ok tt) by by vm_compute.
  destruct (answers (Postgres_append (JobId_new 77) 0 open_batch) p_opened _ Ha) as [w0 Hrun]. clear Ha.
  destruct (stores_agree (JobId_new 77) 0 open_batch m_empty p_opened m_empty_healthy p_opened_healthy opened_mirrors
    p_opened_prepared) as (r1 & m' & r2 & w' & H1 & H2 & _ & _ & Hans & Hmir & _).
  - by vm_compute.
  - rewrite (proj1 open_batch_spec). apply Forall_singleton, sample_storable; done.
  - eapply Forall_impl; [exact (proj2 open_batch_spec)|]. by intros env (_ & _ & _ & -> & _).
  - rewrite Hrun in H2. injection H2 as <- <-. exists m', w0.
    destruct r1 as [[]|[]|]; [exact (conj H1 (conj Hrun Hmir))|done..].
Defined.
