(* ===== verification/ServeWitnesses.v ===== *)
(** * The theorems on streams, signals and the server at concrete states

    A server over the sample database: what is assumed
    of tokio, tonic and the encoder holds there together, and each theorem
    with hypotheses is applied to a run. *)

From S2P Require Import Prelude Std Ids Retry Events Serde SerdeFacts JsonSamples Job Lifecycle Commands Ports UseCases Contract.
From S2P Require Import UseCaseFacts System MemStore MemDispatcher Grpc Stream Signal Hub ChannelSamples Server Serve.
From S2P Require Import Postgres PgSerde PgStore PgDispatcher PgRelay PgRows PgTx PgNotify PgContract Wakeup PgSafe ServeFacts PgSamples PgRuns PgWitnesses.

Open Scope string_scope.
Open Scope list_scope.
Open Scope Z_scope.

#[local] Existing Instances list_broadcast list_mpsc.

(** ** JSON *)

Section json.
#[local] Existing Instance json_externals.
#[local] Existing Instance json_serde.

Definition leased_event : JobEvent := E_Leased (WorkerId_mk "worker-1") (LeaseId_new 5) 1700000000123456789.

Definition done_event : JobEvent := E_Succeeded (Some (json [("total", json_int 3)])).

Definition done_envelope : EventEnvelope :=
  {| event_id := EventId_new 10; stream_id := JobId_new 11; envelope_version := 4; recorded_at := 1700000000000000000;
     correlation_id := CorrelationId_new 12; causation_id := Some (EventId_new 9); traceparent := Some "00-abc-def-01";
     schema_version := 1; event := done_event |}.

Lemma event_round_trip_witness :
  JobEvent_from_value (JobEvent_to_value leased_event) = Ok leased_event ∧
  JobEvent_from_value (JobEvent_to_value done_event) = Ok done_event.
Proof.
  assert (H1 : event_typed leased_event) by (vm_compute; reflexivity).
  assert (H2 : no_null done_event) by (intros H; discriminate H).
  split; [exact (event_round_trip leased_event H1 I)|exact (event_round_trip done_event I H2)].
Defined.

Lemma read_envelope_typed_witness : envelope_typed done_envelope.
Proof.
  apply (read_envelope_typed (EventEnvelope_to_value done_envelope)).
  vm_cast_no_check (@eq_refl (result EventEnvelope string) (Ok done_envelope)).
Defined.

(** An envelope of a later version: the causation is left out, the trace is
    there, and there are new fields in the envelope and in its event. *)
Definition later_event_fields : list (string * Value) := ("cost", json_int 7) :: tagged_fields done_event.

Definition later_event : gmap string Value := list_to_map later_event_fields.

Definition without (k : string) (fields : list (string * Value)) : list (string * Value) :=
  base.filter (λ x, x.1 ≠ k) fields.

Lemma assoc_without k k' fields : assoc k (without k' fields) = if decide (k = k') then None else assoc k fields.
Proof.
  induction fields as [|[k1 x] fields IH]; [by case_decide|]. unfold without in *. rewrite filter_cons.
  destruct (decide (_ ≠ k')) as [H1|H1]; cbn [assoc fst] in *; rewrite IH; destruct (String.eqb_spec k k1) as [->|]; try done.
  - by rewrite decide_False.
  - apply dec_stable in H1 as ->. by rewrite !decide_True by done.
Qed.

Definition later_envelope_fields : list (string * Value) :=
  ("priority_class", json_str "bulk") :: ("event", of_view (V_Obj later_event)) ::
    without "causation_id" (EventEnvelope_fields done_envelope).

Definition later_fields : gmap string Value := list_to_map later_envelope_fields.

Lemma envelope_evolves_witness :
  EventEnvelope_from_value (of_view (V_Obj later_fields)) = Ok (lineage_in later_fields done_envelope) ∧
  later_fields !! "causation_id" = None ∧ traceparent (lineage_in later_fields done_envelope) = Some "00-abc-def-01".
Proof.
  split; [|split; [vm_cast_no_check (@eq_refl (option Value) None)|vm_cast_no_check (eq_refl (Some "00-abc-def-01"))]].
  refine (envelope_evolves done_envelope later_fields _ later_event (of_view (V_Obj later_event)) _ _ _ _ _ _ _).
  - split; [split; vm_compute; discriminate|]. split; [split; vm_compute; discriminate|exact I].
  - intros H. discriminate H.
  - by apply view_of_view.
  - intros k x Ha Hne. unfold later_fields. rewrite assoc_lookup. unfold later_envelope_fields. cbn [assoc].
    destruct (String.eqb_spec k "priority_class") as [->|_]; [discriminate Ha|].
    destruct (String.eqb_spec k "event") as [->|_]; [by destruct Hne|]. rewrite assoc_without.
    case_decide as Hc; [|by left]. right. rewrite Hc. split; [by left|reflexivity].
  - unfold later_fields. rewrite assoc_lookup. reflexivity.
  - by apply view_of_view.
  - intros k x Ha. unfold later_event. rewrite assoc_lookup. unfold later_event_fields. cbn [assoc].
    destruct (String.eqb_spec k "cost") as [->|_]; [discriminate Ha|exact Ha].
Defined.

Lemma view_kept_all (R : Value → Value → Prop) vw : (∀ x, R x x) → view_kept R vw vw.
Proof. intros HR. destruct vw; constructor. intros k. destruct (m !! k); by constructor. Qed.

Lemma bits_text_ok u : text_ok (sample_uuid_to_string u) = true.
Proof. destruct u as [|p]; [done|]. change (text_ok (bits_of_pos p) = true). induction p as [p IH|p IH|]; done. Qed.

Lemma time_text_ok t : text_ok (time_to_bits t) = true.
Proof.
  unfold time_to_bits. pose proof (bits_text_ok (Z.abs_N t)) as Hb. destruct (t <? 0); exact Hb.
Qed.

(** A column that takes everything it is given as it is. *)
Definition json_server : PgServer.
Proof.
  refine {|
    srv_jsonb v := inl v;
    srv_timestamptz := sample_timestamptz;
    srv_invalid_text := Sqlx_Database "22021" None "invalid byte sequence";
    srv_negative_limit := Sqlx_Database "2201W" None "LIMIT must not be negative";
    srv_violation_text c := "duplicate key value violates unique constraint " +:+ c;
    srv_names_version_first := false;
    srv_error_to_string e := match e with Sqlx_Database _ _ t | Sqlx_Other t => t end;
  |}.
  - intros v v' [= <-]. apply view_kept_all. by intros x.
  - by eexists.
  - by eexists.
  - by eexists.
  - by eexists.
  - done.
  - apply bits_text_ok.
  - apply time_text_ok.
  - exact (@timestamptz_refusal _ sample_postgres).
  - by intros c x.
  - exact (@timestamptz_near _ sample_postgres).
  - exact (@timestamptz_mono _ sample_postgres).
  - exact (@timestamptz_again _ sample_postgres).
Defined.
End json.

(** ** The server over the sample database *)

#[local] Opaque p0 p_enqueued p_two p_leased p_opened open_batch.

#[local] Existing Instance pg_externals.
#[local] Existing Instance sample_postgres.

#[local] Instance serve_wire : Wire := {|
  MetadataMap := string → option string;
  metadata_str md name := md name;
  Uuid_parse_str := uuid_of_bits;
  json_from_str s := Some 1%positive;
  json_to_string v := Some "{}";
  parse_display := uuid_of_bits_spec;
|}.

#[local] Instance serve_platform : Platform := {|
  SocketAddr := string;
  SocketAddr_parse s := inl s;
  str_debug s := s;
|}.

Definition serve_headers (tok : string) (name : string) : option string :=
  if String.eqb name "authorization" then Some ("Bearer " +:+ tok)
  else if String.eqb name "koine-worker-id" then Some "worker-1"
  else None.

Definition serve_env (name : string) : option string :=
  if String.eqb name "KOINE_WORKER_TOKEN" then Some "s3cr3t" else None.

Definition all_well : Outside :=
  {| out_connect _ _ _ := Ok tt; out_migrate := Ok tt; out_listener_pool _ _ _ := Ok tt; out_listener := Ok tt;
     out_listen := Ok tt; out_transport := Ok tt; out_addr s := s |}.

Abbreviation SampleWorld := (ServeWorld FreshIds FixedClock).

Definition serve_world (w : PgBroker) : SampleWorld := ServeWorld_mk (PgPresence_mk w 0) [].

(** A signal, as [connect] makes it. *)
Definition fresh_signal : PgSignal (B:=ListHub) :=
  {| sig_hub := {| hub_notifications := ListHub_mk [] NOTIFICATION_BUFFER false; hub_listener := Listener_new;
                   hub_listening := true |};
     sig_clones := 1 |}.

(** A worker fetches and gets a job; somebody without the token knocks; the
    tickers tick; another broker claims. *)
Definition another_claims (w : SampleWorld) : SampleWorld :=
  snd (on_pg (E:=DispatchError) (lease_next pg_q1 pg_wk2 secs30) w).

Definition fetching : Call := Call_fetch (FetchRequest_mk "mail" 30000).

Definition a_day : list (ServeTurn (G:=FreshIds) (C:=FixedClock)) :=
  [Listens (Notification "mail"); Called (serve_headers "s3cr3t") fetching; Stream_turns 0 Task_turn;
   Called (serve_headers "guess") fetching; Stream_turns 0 Task_turn; Sweep_ticks 10; Relay_ticks;
   Elsewhere another_claims; Stream_turns 0 Reader_turn; Stream_turns 0 Task_turn].

Abbreviation SampleProcess := (Process (G:=FreshIds) (C:=FixedClock) (Ch:=ListChan) (B:=ListHub)).

Definition opened_process : SampleProcess := Process_new fresh_signal Output_new Output_new (serve_world p_two).

Lemma opened_in_order : in_order opened_process.
Proof.
  split; [|constructor|reflexivity..].
  destruct p_two_healthy as [Hok Hq _]. split; [exact Hok|].
  change (Forall fate_ok (pg_script p_two)). rewrite Hq. constructor.
Qed.

Lemma a_day_ok : Forall turn_ok a_day.
Proof.
  unfold a_day. repeat (apply Forall_cons; split; [try exact I|]); [|by apply Forall_nil]. intros w Hw.
  exact (on_pg_safe (E:=DispatchError) (lease_next pg_q1 pg_wk2 secs30) (claim_stays pg_q1 pg_wk2 secs30) w Hw).
Qed.

Definition serve_config : GrpcConfig := {| token := "s3cr3t"; max_lease_ttl := Duration_from_secs 300; idle_poll := Duration_from_secs 1 |}.

(** What the day comes to: the worker holds one job and has read it, the
    other broker holds the other, and the guess was turned away. *)
Definition day_is_done (p : SampleProcess) : bool :=
  bool_decide ((λ s, (length (st_claimed s), length (st_read s))) <$> pr_streams p = [(1, 1)%nat]) &&
  bool_decide ((λ r, match r with Ok _ => true | _ => false end) <$> pr_answers p = [true; false]) &&
  bool_decide (map_Forall (λ _ s, length s = 2%nat) (db_log (pg_db (sw_pg (pr_world p))))).

Lemma server_stays_in_order_witness :
  in_order (serve_turns serve_config a_day opened_process) ∧ day_is_done (serve_turns serve_config a_day opened_process) = true.
Proof.
  split; [|vm_compute; reflexivity].
  exact (proj1 (server_stays_in_order serve_config a_day opened_process opened_in_order a_day_ok)).
Defined.

(** The same day from the environment on: without the guess, nothing is
    different. *)
Definition the_run : result unit string * option SampleProcess := Serve.run serve_env all_well a_day Output_new Output_new (serve_world p_two).

Lemma served : ∃ p, the_run = (Ok tt, Some p).
Proof. unfold the_run, Serve.run. eexists. reflexivity. Qed.

Lemma only_the_token_counts_witness :
  ∃ p cfg signal o, the_run = (Ok tt, Some p) ∧ start_up serve_env all_well = Ok (cfg, signal) ∧
    serve_env "KOINE_WORKER_TOKEN" = Some (cfg_worker_token cfg) ∧ cfg_worker_token cfg ≠ "" ∧
    no_answers p = no_answers (serve_turns (serve_grpc_config cfg)
      (base.filter (λ t, admitted (cfg_worker_token cfg) t = true) a_day)
      (Process_new signal o Output_new (serve_world p_two))).
Proof.
  destruct served as [p Hp].
  destruct (only_the_token_counts serve_env all_well a_day Output_new Output_new (serve_world p_two) (Ok tt) p Hp)
    as (cfg & signal & o & H).
  exists p, cfg, signal, o. split; [exact Hp|exact H].
Defined.

(** ** A stream of its own *)

Definition claims_and_reads : list (StreamTurn (W:=PgBroker)) := [Task_turn; Task_turn; Task_turn; Task_turn; Reader_turn].

Lemma fetch_backpressure_witness :
  let s := (stream_run (Ch:=ListChan) claims_and_reads (fetch_open (pg_q1, pg_wk1, secs30), p_two)).1 in
  (length (st_claimed s) = 2%nat ∧ length (st_read s) = 1%nat) ∧
  (length (st_claimed s) ≤ length (st_read s) + 17)%nat ∧
  jobs_in (st_read s) `prefix_of` omap message_of (st_claimed s).
Proof.
  intros s. split; [split; vm_compute; reflexivity|].
  refine (fetch_backpressure (pg_q1, pg_wk1, secs30) claims_and_reads p_two _). vm_compute. reflexivity.
Defined.

(** ** A job opened under a waiting fetch *)

Lemma append_reaches_waiters_witness :
  ∃ w' j before delivered, Postgres_append (JobId_new 77) 0 open_batch (watched p_opened) = (Ok tt, w') ∧
    from_events (db_stream (pg_db w') (JobId_new 77)) = Ok j ∧
    db_notified (pg_db w') = before ++ delivered ∧
    match job_state j with
    | S_Pending _ => ∀ turns, delivered ⊆ payloads turns →
        let '(s', waiter) := hub_run turns (fresh_signal, PgSignal_wait (job_queue j) (sig_hub fresh_signal)) in
        returned (Nat.iter (S (length turns)) (wait_poll (sig_hub s')) waiter) = true
    | _ => delivered = []
    end.
Proof.
  assert (Ha : answer (Postgres_append (JobId_new 77) 0 open_batch (watched p_opened)) = Ok tt) by by vm_compute.
  destruct (answers (Postgres_append (JobId_new 77) 0 open_batch) (watched p_opened) _ Ha) as [w' Hrun]. clear Ha.
  assert (Hh : hub_ok fresh_signal) by by split.
  destruct (append_reaches_waiters (JobId_new 77) 0 open_batch (watched p_opened) w' fresh_signal
    (watched_sound _ p_opened_healthy) (watched_ok _) open_batch_nonempty ltac:(by rewrite open_batch_length) Hrun
    Hh ltac:(simpl; lia)) as (j & before & delivered & Hj & Hs & _ & Hw).
  exists w', j, before, delivered. split; [exact Hrun|]. split; [exact Hj|]. split; [exact Hs|exact Hw].
Defined.
