(* ===== verification/Samples.v ===== *)
(** * Concrete runs of the in-memory broker

    One broker assembled from the in-memory store and dispatcher, the
    deterministic clock and the seeded id source of [test_support.rs], driven
    through the life of one job: enqueue, claim, heartbeat, start, success.
    The states of these runs instantiate the theorems of the other files. *)

From S2P Require Import Prelude Std Ids Retry Events Job Lifecycle Commands Ports UseCases Contract.
From S2P Require Import UseCaseFacts System MemStore MemDispatcher MemFacts MemSelect MemDispatchFacts.
From S2P Require Import MemSweep MemSystem Grpc GrpcFacts.

Open Scope string_scope.
Open Scope list_scope.
Open Scope Z_scope.

#[local] Existing Instance sample_externals.

(** ** The broker *)

Definition T0 : DateTime := 1700000000 * 1000000000.

Definition secs (n : Z) : Duration := Duration_from_secs n.

Definition Broker : Type := MemWorld SeededIds FixedClock.

Definition b0 : Broker :=
  MemWorld_mk InMemoryEventStore_new (SeededIds_new 7) (FixedClock_at T0).

Definition at_time (t : DateTime) (b : Broker) : Broker := set_mem_clock (FixedClock_at t) b.

Definition q1 : QueueName := QueueName_mk "mail".

Definition wk1 : WorkerId := WorkerId_mk "worker-1".

Definition job1 : EnqueueCommand :=
  {| cmd_queue := q1;
     cmd_payload := ("{}" : Value);
     cmd_priority := Priority_default;
     cmd_retry_policy := RetryPolicy_default;
     cmd_not_before := None;
     cmd_lineage := Lineage_default |}.

Definition id1 : JobId := JobId_new (Z.to_N (7 * 2 ^ 64 + 1)).

(** The lease the first claim grants: the fourth id drawn. *)
Definition l1 : LeaseId := LeaseId_new (Z.to_N (7 * 2 ^ 64 + 4)).

(** ** The states of the run *)

Definition b_enqueued : Broker := snd (EnqueueJob_execute job1 b0).

Definition b_leased : Broker := snd (LeaseNextJob_execute q1 wk1 (secs 30) b_enqueued).

Definition stream_of (b : Broker) : list EventEnvelope :=
  default [] (streams (mem_inner b) !! id1).

Definition job_of (b : Broker) : Job :=
  match from_events (stream_of b) with
  | Ok j => j
  | _ => Job_mk id1 q1 Priority_default ("" : Value) RetryPolicy_default 0 S_Suspended 0
  end.

Definition b_heartbeat : Broker := snd (Heartbeat_execute l1 (secs 30) (at_time (T0 + secs 20) b_leased)).

Definition b_started : Broker :=
  snd (WorkerAck_append (job_of b_leased) (stream_of b_leased) [E_Started wk1] b_leased).

Definition b_succeeded : Broker :=
  snd (WorkerAck_append (job_of b_started) (stream_of b_started) [E_Succeeded None] b_started).

(** The worker reports the same success again. *)
Definition b_late : Broker :=
  snd (WorkerAck_append (job_of b_succeeded) (stream_of b_succeeded)
    [late_ack wk1 l1 Reported_Succeeded] b_succeeded).

(** ** A wire *)

(** Metadata as a function of the header's name, JSON text as it is, and the
    inverse of the samples' printing of identifiers. *)
Fixpoint pos_of_bits (s : string) : option positive :=
  match s with
  | EmptyString => None
  | String a s =>
      if Ascii.eqb a "1" then
        match s with
        | EmptyString => Some xH
        | _ => xI <$> pos_of_bits s
        end
      else if Ascii.eqb a "0" then xO <$> pos_of_bits s
      else None
  end.

Definition sample_parse (s : string) : option Uuid :=
  match s with
  | EmptyString => Some N0
  | _ => Npos <$> pos_of_bits s
  end.

Lemma pos_of_bits_spec p : pos_of_bits (bits_of_pos p) = Some p.
Proof.
  induction p as [p IH|p IH|]; simpl; [|by rewrite IH|done]. rewrite IH. by destruct p.
Qed.

Lemma sample_parse_spec u : sample_parse (Uuid_to_string u) = Some u.
Proof.
  destruct u as [|p]; [done|].
  transitivity (Npos <$> pos_of_bits (bits_of_pos p)); [by destruct p|by rewrite pos_of_bits_spec].
Qed.

Definition sample_wire : Wire := {|
  MetadataMap := string → option string;
  metadata_str md name := md name;
  Uuid_parse_str := sample_parse;
  json_from_str s := Some s;
  json_to_string v := Some v;
  parse_display := sample_parse_spec;
|}.

Definition grpc1 : GrpcConfig :=
  {| token := "s3cr3t"; max_lease_ttl := secs 300; idle_poll := secs 1 |}.

Definition headers1 (name : string) : option string :=
  if String.eqb name "authorization" then Some "Bearer s3cr3t"
  else if String.eqb name "koine-worker-id" then Some "worker-1"
  else None.

(** ** Lemmas *)

Lemma stream_of_spec (b : Broker) :
  bool_decide (is_Some (streams (mem_inner b) !! id1)) = true →
  streams (mem_inner b) !! id1 = Some (stream_of b).
Proof. intros [s Hs]%bool_decide_eq_true. unfold stream_of. by rewrite Hs. Qed.

Lemma job_of_spec (b : Broker) :
  is_ok (from_events (stream_of b)) = true → from_events (stream_of b) = Ok (job_of b).
Proof. unfold job_of. by destruct (from_events _). Qed.

(** Steps of the run, with the outcome read off by evaluation. *)
Lemma run_enqueue n (b : Broker) sn cmd :
  runs n (Sys_mk b0 []) (Sys_mk b sn) → RetryPolicy_typed (cmd_retry_policy cmd) →
  is_panic (fst (EnqueueJob_execute cmd b)) = false →
  runs (S n) (Sys_mk b0 []) (Sys_mk (snd (EnqueueJob_execute cmd b)) sn).
Proof.
  intros Hr Hp Hok%not_panic. eapply runs_snoc; [done|].
  eapply sys_enqueue; [exact Hp|apply surjective_pairing|exact Hok].
Qed.

Lemma run_lease n (b : Broker) sn q wk ttl :
  runs n (Sys_mk b0 []) (Sys_mk b sn) →
  is_panic (fst (LeaseNextJob_execute q wk ttl b)) = false →
  runs (S n) (Sys_mk b0 []) (Sys_mk (snd (LeaseNextJob_execute q wk ttl b)) sn).
Proof.
  intros Hr Hok%not_panic. eapply runs_snoc; [done|].
  eapply sys_lease; [apply surjective_pairing|exact Hok].
Qed.

Lemma run_heartbeat n (b : Broker) sn l ttl t :
  runs n (Sys_mk b0 []) (Sys_mk b sn) →
  is_panic (fst (Heartbeat_execute l ttl (at_time t b))) = false →
  runs (S (S n)) (Sys_mk b0 []) (Sys_mk (snd (Heartbeat_execute l ttl (at_time t b))) sn).
Proof.
  intros Hr Hok%not_panic. eapply runs_snoc; [eapply runs_snoc; [done|]|].
  - by apply (sys_time b sn (at_time t b)).
  - eapply sys_heartbeat; [apply surjective_pairing|exact Hok].
Qed.

Lemma sample_healthy n (b : Broker) sn :
  runs n (Sys_mk b0 []) (Sys_mk b sn) → Z.of_nat n ≤ 1000 → mem_healthy b.
Proof.
  intros Hr Hn. pose proof (initial_inv _ (mem_initial (Sys_mk b0 []) eq_refl eq_refl)) as Hi.
  apply (inv_healthy _ _ (runs_inv 0 _ _ _ Hr Hi ltac:(lia) ltac:(simpl; unfold U64_MAX; lia))).
Qed.

Lemma load_step (b : Broker) sn :
  mem_healthy b → bool_decide (is_Some (streams (mem_inner b) !! id1)) = true →
  sys_step (Sys_mk b sn) (Sys_mk b ((id1, stream_of b) :: sn)).
Proof.
  intros Hw Hs%stream_of_spec. apply sys_load.
  pose proof (load_spec (W:=Broker) b id1 Hw) as ->. simpl. by rewrite Hs.
Qed.

(** A handler loads the stream and appends what it decided on it. *)
Lemma run_record n (b : Broker) sn c evs :
  runs n (Sys_mk b0 []) (Sys_mk b sn) → (Z.of_nat n ≤ 1000) →
  bool_decide (is_Some (streams (mem_inner b) !! id1)) = true →
  is_ok (from_events (stream_of b)) = true → exec c (job_of b) = Ok evs →
  is_panic (fst (WorkerAck_append (job_of b) (stream_of b) evs b)) = false →
  runs (S (S n)) (Sys_mk b0 [])
    (Sys_mk (snd (WorkerAck_append (job_of b) (stream_of b) evs b)) ((id1, stream_of b) :: sn)).
Proof.
  intros Hr Hn Hs Hj%job_of_spec Hc Hok%not_panic.
  pose proof (sample_healthy _ _ _ Hr Hn) as Hw.
  eapply runs_snoc; [eapply runs_snoc; [done|]|].
  - by apply load_step.
  - eapply (sys_record _ _ id1); [by left|exact Hj|exact Hc|apply surjective_pairing|exact Hok].
Qed.

Lemma sample_seq n (b : Broker) sn :
  runs n (Sys_mk b0 []) (Sys_mk b sn) → Z.of_nat n ≤ 1000 → seq_ok (mem_inner b).
Proof.
  intros Hr Hn. pose proof (initial_inv _ (mem_initial (Sys_mk b0 []) eq_refl eq_refl)) as Hi.
  apply (runs_seq _ _ _ Hr Hi); [simpl; unfold U64_MAX; lia| |done].
  split_and!; [done|by intros ? ?..].
Qed.

Lemma runs_enqueued : runs 1 (Sys_mk b0 []) (Sys_mk b_enqueued []).
Proof. apply run_enqueue; [constructor|by vm_compute|by vm_compute]. Qed.

Lemma runs_leased : runs 2 (Sys_mk b0 []) (Sys_mk b_leased []).
Proof. apply run_lease; [apply runs_enqueued|by vm_compute]. Qed.

Lemma runs_heartbeat : runs 4 (Sys_mk b0 []) (Sys_mk b_heartbeat []).
Proof. apply run_heartbeat; [apply runs_leased|by vm_compute]. Qed.

Lemma leased_state : job_state (job_of b_leased) = S_Leased wk1 l1 (T0 + secs 30).
Proof. by vm_compute. Qed.

Lemma runs_started : ∃ sn, runs 4 (Sys_mk b0 []) (Sys_mk b_started sn).
Proof.
  eexists. apply (run_record 2 b_leased [] (C_Start wk1));
    [apply runs_leased|by vm_compute|by vm_compute|by vm_compute| |by vm_compute].
  unfold exec, start. by rewrite leased_state.
Qed.

Lemma started_state : job_state (job_of b_started) = S_Running wk1 l1 (T0 + secs 30).
Proof. by vm_compute. Qed.

(** The success is decided on a snapshot, which its handler keeps. *)
Lemma run_succeeded_snapshot sn :
  runs 4 (Sys_mk b0 []) (Sys_mk b_started sn) →
  runs 6 (Sys_mk b0 []) (Sys_mk b_succeeded ((id1, stream_of b_started) :: sn)).
Proof.
  intros Hr. apply (run_record 4 b_started sn (C_Succeed l1 None));
    [exact Hr|by vm_compute|by vm_compute|by vm_compute| |by vm_compute].
  unfold exec, succeed. by rewrite started_state.
Qed.

Lemma runs_succeeded : ∃ sn, runs 6 (Sys_mk b0 []) (Sys_mk b_succeeded sn).
Proof. destruct runs_started as [sn Hr]. eexists. by apply run_succeeded_snapshot. Qed.

Lemma run_late sn : ∃ sn', runs 2 (Sys_mk b_succeeded sn) (Sys_mk b_late sn').
Proof.
  destruct runs_succeeded as [sn0 Hr]. eexists.
  eapply (runs_snoc 1); [eapply (runs_snoc 0); [constructor|]|].
  - apply (load_step b_succeeded sn); [exact (sample_healthy _ _ _ Hr ltac:(lia))|by vm_compute].
  - eapply (sys_record _ _ id1 (stream_of b_succeeded) (job_of b_succeeded)
      (C_LateAck wk1 l1 Reported_Succeeded));
      [by left|by apply job_of_spec; vm_compute|done|apply surjective_pairing|].
    apply not_panic. by vm_compute.
Qed.
