(* ===== verification/Witnesses.v ===== *)
(** * The theorems at concrete states

    Each theorem with hypotheses, applied to a state of the runs of
    [Samples]: its hypotheses hold there, together. *)

From S2P Require Import Prelude Std Ids Retry Events Job Lifecycle Commands Ports UseCases Contract.
From S2P Require Import UseCaseFacts System MemStore MemDispatcher MemFacts MemSelect MemDispatchFacts.
From S2P Require Import MemSweep MemSystem Grpc GrpcFacts Stream StreamFacts Samples ChannelSamples.

Open Scope string_scope.
Open Scope list_scope.
Open Scope Z_scope.

#[local] Existing Instance sample_externals.

#[local] Existing Instance sample_wire.

#[local] Existing Instance list_mpsc.

#[local] Opaque b_enqueued b_leased b_heartbeat b_started b_succeeded b_late job_of stream_of.

(** ** The samples, as the theorems ask for them *)

Definition s_leased : list EventEnvelope := stream_of b_leased.

Definition s_started : list EventEnvelope := stream_of b_started.

Definition s_succeeded : list EventEnvelope := stream_of b_succeeded.

Lemma b0_initial : initial (Sys_mk b0 []).
Proof. by apply mem_initial. Qed.

Lemma enqueued_healthy : mem_healthy b_enqueued.
Proof. apply (sample_healthy 1 _ [] runs_enqueued). lia. Qed.

Lemma leased_healthy : mem_healthy b_leased.
Proof. apply (sample_healthy 2 _ [] runs_leased). lia. Qed.

Lemma started_healthy : mem_healthy b_started.
Proof. destruct runs_started as [sn Hr]. apply (sample_healthy 4 _ sn Hr). lia. Qed.

Lemma succeeded_healthy : mem_healthy b_succeeded.
Proof. destruct runs_succeeded as [sn Hr]. apply (sample_healthy 6 _ sn Hr). lia. Qed.

Lemma heartbeat_healthy : mem_healthy b_heartbeat.
Proof. apply (sample_healthy 4 _ [] runs_heartbeat). lia. Qed.

Lemma leased_stream : streams (mem_inner b_leased) !! id1 = Some s_leased.
Proof. apply stream_of_spec. by vm_compute. Qed.

Lemma started_stream : streams (mem_inner b_started) !! id1 = Some s_started.
Proof. apply stream_of_spec. by vm_compute. Qed.

Lemma succeeded_stream : streams (mem_inner b_succeeded) !! id1 = Some s_succeeded.
Proof. apply stream_of_spec. by vm_compute. Qed.

Lemma leased_job : from_events s_leased = Ok (job_of b_leased).
Proof. apply job_of_spec. by vm_compute. Qed.

Lemma started_job : from_events s_started = Ok (job_of b_started).
Proof. apply job_of_spec. by vm_compute. Qed.

Lemma succeeded_job : from_events s_succeeded = Ok (job_of b_succeeded).
Proof. apply job_of_spec. by vm_compute. Qed.

(** ** The lifecycle and the commands *)

Lemma from_events_numbered_witness : job_version (job_of b_succeeded) = 4.
Proof.
  destruct (from_events_numbered s_succeeded (job_of b_succeeded) succeeded_job) as [H _];
    [by vm_compute|]. rewrite H. by vm_compute.
Defined.

Lemma late_stream : stream_of b_late = s_succeeded ++ drop 4 (stream_of b_late).
Proof. vm_cast_no_check (eq_refl (stream_of b_late)). Qed.

Lemma late_job : from_events (stream_of b_late) = Ok (job_of b_late).
Proof. apply job_of_spec. by vm_compute. Qed.

Lemma terminal_absorbs_witness :
  length (stream_of b_late) = 5%nat ∧ job_state (job_of b_late) = job_state (job_of b_succeeded) ∧
  Forall (λ env, kind (event env) = "late_ack_conflict") (drop 4 (stream_of b_late)).
Proof.
  destruct (terminal_absorbs s_succeeded (drop 4 (stream_of b_late)) (job_of b_succeeded)
    (job_of b_late) succeeded_job) as (H1 & _ & _ & H2);
    [by vm_compute|rewrite <-late_stream; exact late_job|].
  split; [by vm_compute|]. split; [exact H1|exact H2].
Defined.

Lemma commands_emit_applicable_events_witness :
  ∃ j', apply_all [E_Started wk1] (job_of b_leased) = Ok j' ∧ job_version j' = 3 ∧ job_attempt j' = 0.
Proof.
  assert (H : exec (C_Start wk1) (job_of b_leased) = Ok [E_Started wk1])
    by (unfold exec, start; by rewrite leased_state).
  destruct (commands_emit_applicable_events (C_Start wk1) (job_of b_leased) [E_Started wk1] H)
    as (j' & Ha & Hv & Hat); [by vm_compute..|by split; vm_compute|].
  exists j'. split; [exact Ha|]. rewrite Hv, Hat. by split; vm_compute.
Defined.

Lemma attempts_capped_witness :
  ∃ hist j, driven hist j ∧ job_state j = S_Succeeded ∧
    deliveries hist ≤ attempts_allowed (job_retry_policy j).
Proof.
  destruct runs_succeeded as [sn Hr].
  pose proof (runs_inv 0 _ _ _ Hr (initial_inv _ b0_initial) ltac:(lia) ltac:(by vm_compute)) as Hinv.
  destruct (inv_driven _ _ Hinv id1 s_succeeded succeeded_stream) as (env & rest & j & _ & Hj & Hd).
  exists (event <$> rest), j. split; [exact Hd|]. split.
  - pose proof (Ok_inj _ _ (eq_trans (eq_sym succeeded_job) Hj)) as <-. by vm_compute.
  - apply (attempts_capped (event <$> rest) j Hd).
Defined.

(** ** The use cases *)

Lemma enqueue_opens_stream_witness :
  ∃ w' env, EnqueueJob_execute job1 b0 = (Ok id1, w') ∧
    log_of w' = <[id1 := [env]]> (log_of b0) ∧ envelope_version env = 1.
Proof.
  destruct (enqueue_opens_stream job1 b0) as (w' & env & H1 & _ & H2 & H3 & _);
    [exact (proj1 b0_initial)|by vm_compute|by vm_compute|by vm_compute|exact (lookup_empty _)|done|done|].
  exists w', env. split; [exact H1|]. split; [exact H2|exact H3].
Defined.

Definition greedy : EnqueueCommand :=
  {| cmd_queue := q1;
     cmd_payload := ("{}" : Value);
     cmd_priority := Priority_default;
     cmd_retry_policy := {| max_attempts := 10001; base_delay := secs 1; max_delay := secs 60 |};
     cmd_not_before := None;
     cmd_lineage := Lineage_default |}.

Lemma enqueue_refuses_bad_policy_witness :
  ∃ reason, EnqueueJob_execute greedy b0 = (Err (InvalidPolicy reason), b0).
Proof.
  apply (enqueue_refuses_bad_policy greedy b0); [by vm_compute|].
  intros [[_ H] _]. by vm_compute in H.
Defined.

Lemma succeed_recorded_or_conflict_witness :
  ∃ w' j', WorkerAck_succeed id1 wk1 l1 None b_started = (Ok Recorded, w') ∧
    extends b_started w' id1 s_started [E_Succeeded None] j' ∧ job_state j' = S_Succeeded.
Proof.
  destruct (succeed_recorded_or_conflict b_started id1 s_started (job_of b_started) wk1 l1 None)
    as (w' & j' & H & _);
    [exact started_healthy|exact started_stream|exact started_job|by vm_compute|done|done|].
  assert (runs_under l1 (job_of b_started) = true) as E by (by vm_compute). rewrite E in H.
  exists w', j'. exact H.
Defined.

Definition boom : JobError := JobError_mk "E" "boom" None true.

Lemma fail_recorded_or_conflict_witness :
  ∃ out w' evs j', WorkerAck_fail id1 wk1 l1 boom b_started = (Ok out, w') ∧
    extends b_started w' id1 s_started evs j'.
Proof.
  destruct (fail_recorded_or_conflict b_started id1 s_started (job_of b_started) wk1 l1
    boom) as (out & w' & evs & j' & H1 & H2 & _);
    [exact started_healthy|exact started_stream|exact started_job|by vm_compute
    |by intros evs _; apply Forall_true|done|].
  exists out, w', evs, j'. split; [exact H1|exact H2].
Defined.

Lemma start_by_holder_only_witness :
  ∃ w' j', WorkerAck_start id1 wk1 b_leased = (Ok tt, w') ∧
    extends b_leased w' id1 s_leased [E_Started wk1] j' ∧
    job_state j' = S_Running wk1 l1 (T0 + secs 30).
Proof.
  pose proof (start_by_holder_only b_leased id1 s_leased (job_of b_leased) wk1 leased_healthy
    leased_stream leased_job) as H.
  rewrite leased_state in H. rewrite decide_True in H by done. apply H; [by vm_compute|done].
Defined.

Lemma cancel_until_terminal_witness :
  (∃ w' j', CancelJob_execute id1 None b_leased = (Ok tt, w') ∧
     extends b_leased w' id1 s_leased [E_Cancelled None] j' ∧ job_state j' = S_Cancelled) ∧
  CancelJob_execute id1 None b_succeeded
  = (Err (Ack_Domain (IllegalTransition "succeeded" "cancelled")), b_succeeded).
Proof.
  split.
  - pose proof (cancel_until_terminal b_leased id1 s_leased (job_of b_leased) None leased_healthy
      leased_stream leased_job) as H. rewrite leased_state in H. apply H; [by vm_compute|done].
  - pose proof (cancel_until_terminal b_succeeded id1 s_succeeded (job_of b_succeeded) None
      succeeded_healthy succeeded_stream succeeded_job) as H.
    assert (job_state (job_of b_succeeded) = S_Succeeded) as E by (by vm_compute).
    rewrite E in H. apply H; [by vm_compute|done].
Defined.

Lemma decisions_race_witness :
  ∃ w1, WorkerAck_append (job_of b_started) s_started [E_Succeeded None] b_started = (Ok tt, w1) ∧
    ∃ w3, WorkerAck_append (job_of b_started) s_started [E_Cancelled None] w1
      = (Err (VersionConflict id1 3), w3).
Proof.
  destruct (decisions_race b_started id1 s_started (job_of b_started) (C_Succeed l1 None) (C_Cancel None)
    [E_Succeeded None] [E_Cancelled None]) as (w1 & H1 & H2);
    [exact started_healthy|exact started_stream|exact started_job|by vm_compute
    |unfold exec, succeed; by rewrite started_state|unfold exec, cancel; by rewrite started_state|by apply Forall_true|].
  exists w1. split; [exact H1|]. destruct (H2 w1) as (w3 & H3 & _); [by split|].
  exists w3. exact H3.
Defined.

(** ** The system *)

Lemma deliveries_bounded_witness :
  ∃ j, from_events s_succeeded = Ok j ∧
    deliveries (event <$> s_succeeded) ≤ attempts_allowed (job_retry_policy j).
Proof.
  destruct runs_succeeded as [sn Hr].
  destruct (deliveries_bounded 6 (Sys_mk b0 []) (Sys_mk b_succeeded sn) id1 s_succeeded)
    as (j & Hj & Hd & _); [exact b0_initial|exact Hr|by vm_compute|exact succeeded_stream|].
  exists j. split; [exact Hj|exact Hd].
Defined.

Lemma finished_stays_finished_witness :
  ∃ more j', streams (mem_inner b_late) !! id1 = Some (s_succeeded ++ more) ∧
    from_events (s_succeeded ++ more) = Ok j' ∧ job_state j' = job_state (job_of b_succeeded).
Proof.
  destruct runs_succeeded as [sn Hr]. destruct (run_late sn) as (sn' & Hl).
  destruct (finished_stays_finished 6 2 (Sys_mk b0 []) (Sys_mk b_succeeded sn) (Sys_mk b_late sn')
    id1 s_succeeded (job_of b_succeeded)) as (more & j' & H1 & H2 & H3 & _);
    [exact b0_initial|exact Hr|exact Hl|by vm_compute|exact succeeded_stream|exact succeeded_job
    |by vm_compute|].
  exists more, j'. split; [exact H1|]. split; [exact H2|exact H3].
Defined.

(** A handler that loaded the stream before the success tries to cancel. *)
Lemma stale_snapshot_never_recorded_witness :
  ∃ r w', WorkerAck_append (job_of b_started) s_started [E_Cancelled None] b_succeeded = (r, w') ∧
    r = Err (VersionConflict id1 3) ∧ log_of w' = log_of b_succeeded.
Proof.
  destruct runs_succeeded as [sn Hr].
  destruct runs_started as [sn0 Hr0].
  pose proof (run_succeeded_snapshot sn0 Hr0) as Hsnap.
  destruct (WorkerAck_append (job_of b_started) s_started [E_Cancelled None] b_succeeded)
    as [r w'] eqn:Hrun.
  exists r, w'. split; [reflexivity|].
  destruct (stale_snapshot_never_recorded 6 (Sys_mk b0 []) b_succeeded ((id1, s_started) :: sn0) id1
    s_started s_succeeded (job_of b_started) (C_Cancel None) [E_Cancelled None] r w') as (H1 & H2 & _);
    [exact b0_initial|exact Hsnap|by vm_compute|by left|exact succeeded_stream| |exact started_job
    |unfold exec, cancel; by rewrite started_state|exact Hrun|].
  - intros H%(f_equal length). by vm_compute in H.
  - split; [exact H1|exact H2].
Defined.

(** ** The in-memory adapters *)

Lemma singleton_keys {A} (m : gmap JobId A) a b x y :
  size m = 1%nat → m !! a = Some x → m !! b = Some y → a = b.
Proof.
  intros Hs Ha Hb. destruct (decide (a = b)) as [|Hne]; [done|].
  assert (size (delete a m) = 0%nat) as Hz by (rewrite map_size_delete_Some by eauto; lia).
  apply map_size_empty_inv in Hz. rewrite <-(lookup_delete_ne m a b) in Hb by done.
  rewrite Hz in Hb. by apply lookup_empty_Some in Hb.
Qed.

Lemma singleton_leases m : size m = 1%nat → leases_differ m.
Proof. intros Hs id1 id2 e1 e2 ls1 ls2 H1 H2 _ _ _. by eapply singleton_keys. Qed.

Lemma sample_room n (b : Broker) sn m :
  runs n (Sys_mk b0 []) (Sys_mk b sn) → Z.of_nat n ≤ 1000 → m ≤ 2 →
  ∀ id s, streams (mem_inner b) !! id = Some s → Z.of_nat (length s) + m ≤ U64_MAX.
Proof.
  intros Hr Hn Hm id s Hs.
  pose proof (runs_inv 0 _ _ _ Hr (initial_inv _ b0_initial) ltac:(lia)
    ltac:(simpl; unfold U64_MAX; lia)) as Hinv.
  apply (inv_length _ _ Hinv) in Hs. unfold U64_MAX. lia.
Qed.

Lemma default_retirable t (s : list EventEnvelope) (j : Job) :
  Z.of_nat (length s) + 2 ≤ U64_MAX → job_retry_policy j = RetryPolicy_default →
  job_attempt j = 0 → is_Some (sample_checked_add t (secs 900)) → retirable t s j.
Proof.
  intros Hs Hp Ha Ht. unfold retirable. rewrite Hp, Ha. split_and!; [done|by vm_compute..|].
  by exists (secs 900).
Qed.

(** The one leased job of the sample can be retried. *)
Lemma leased_retirable t :
  is_Some (sample_checked_add t (secs 900)) → all_retirable t (mem_inner b_leased).
Proof.
  intros Ht id e ls s j He _ Hs Hj.
  assert (is_Some (index (mem_inner b_leased) !! id1)) as [e1 He1]
    by (apply (bool_decide_eq_true_1 _); by vm_compute).
  assert (id = id1) as -> by (eapply singleton_keys; [|exact He|exact He1]; by vm_compute).
  pose proof (inj Some _ _ (eq_trans (eq_sym leased_stream) Hs)) as <-.
  pose proof (Ok_inj _ _ (eq_trans (eq_sym leased_job) Hj)) as <-.
  apply default_retirable; [by vm_compute|by vm_compute|by vm_compute|exact Ht].
Qed.

Lemma append_all_or_nothing_witness :
  ∃ e, store_append id1 5 [] b_leased = (Err e, b_leased) ∧ e = VersionConflict id1 5.
Proof.
  destruct (append_all_or_nothing b_leased id1 5 []) as [((Hv & _) & _)|(_ & e & H1 & H2)];
    [exact leased_healthy|by vm_compute|by vm_compute in Hv|].
  exists e. split; [exact H1|]. apply H2. by vm_compute.
Defined.

Lemma pick_eligible_spec_witness :
  first_claimable q1 T0 (index (mem_inner b_enqueued)) id1.
Proof.
  pose proof (pick_eligible_spec (mem_inner b_enqueued) q1 T0) as H.
  assert (pick_eligible (mem_inner b_enqueued) q1 T0 = Some id1) as E by (by vm_compute).
  rewrite E in H. apply H. apply (sample_seq 1 b_enqueued [] runs_enqueued). by vm_compute.
Defined.

Lemma selection_order_independent_witness :
  retire_from (T0 + secs 31) (reverse (map_to_list (index (mem_inner b_leased))))
  = retire_from (T0 + secs 31) (map_to_list (index (mem_inner b_leased))).
Proof.
  apply (selection_order_independent (mem_inner b_leased) q1 (T0 + secs 31) l1).
  - apply (sample_seq 2 b_leased [] runs_leased). by vm_compute.
  - apply singleton_leases. by vm_compute.
  - apply reverse_Permutation.
Defined.

Lemma claim_leases_first_claimable_witness :
  ∃ lj w', claim q1 wk1 (secs 30) b_enqueued = (Ok (Some lj), w') ∧
    first_claimable q1 T0 (index (mem_inner b_enqueued)) (leased_job_id lj) ∧
    leased_expires_at lj = T0 + secs 30.
Proof.
  destruct (claim_leases_first_claimable b_enqueued q1 wk1 (secs 30) (secs 30))
    as [(w' & H & _)|(lj & w' & s & j & j' & H1 & H2 & _ & _ & _ & _ & _ & H3 & _)].
  - exact enqueued_healthy.
  - apply (sample_seq 1 b_enqueued [] runs_enqueued). by vm_compute.
  - by vm_compute.
  - eexists. by vm_compute.
  - apply (sample_room 1 b_enqueued [] 1 runs_enqueued); by vm_compute.
  - apply (f_equal (λ p, match fst p with Ok None => true | _ => false end)) in H. by vm_compute in H.
  - exists lj, w'. split; [exact H1|]. split; [exact H2|exact H3].
Defined.

Lemma heartbeat_moves_live_deadline_witness :
  ∃ w' id, mem_extend_lease l1 (secs 60) b_leased = (Ok true, w') ∧
    live l1 T0 (index (mem_inner b_leased)) id ∧
    index (mem_inner w') = alter (set_deadline (T0 + secs 60)) id (index (mem_inner b_leased)).
Proof.
  destruct (heartbeat_moves_live_deadline b_leased l1 (secs 60) (secs 60))
    as (w' & _ & _ & [(id & H)|(H & _)]).
  - exact leased_healthy.
  - apply singleton_leases. by vm_compute.
  - by vm_compute.
  - eexists. by vm_compute.
  - exists w', id. exact H.
  - apply (f_equal (λ p, match fst p with Ok false => true | _ => false end)) in H. by vm_compute in H.
Defined.

Lemma heartbeat_fences_retirement_witness :
  ∃ id, live l1 T0 (index (mem_inner b_leased)) id ∧
    ∀ w2 w3 id', mem_store w2 = mem_store (snd (mem_extend_lease l1 (secs 60) b_leased)) →
      now_of w2 < T0 + secs 60 → retire_one w2 = (Ok (Some id'), w3) → id' ≠ id.
Proof.
  assert (now_of b_leased = T0) as <- by (by vm_compute).
  apply (heartbeat_fences_retirement b_leased l1 (secs 60) (secs 60)
    (snd (mem_extend_lease l1 (secs 60) b_leased))).
  - exact (proj1 leased_healthy).
  - apply singleton_leases. by vm_compute.
  - by vm_compute.
  - eexists. by vm_compute.
  - rewrite (surjective_pairing (mem_extend_lease l1 (secs 60) b_leased)) at 1.
    apply pair_equal_spec. split; [by vm_compute|reflexivity].
Defined.

Lemma retirement_fences_heartbeat_witness :
  ∃ e ls, index (mem_inner b_leased) !! id1 = Some e ∧ entry_lease e = Some ls ∧
    ∀ w2 : Broker, mem_store w2 = mem_store (snd (retire_one (at_time (T0 + secs 31) b_leased))) →
      TimeDelta_from_std (secs 60) = Some (secs 60) →
      is_Some (checked_add_signed (now_of w2) (secs 60)) →
      ∃ w3, mem_extend_lease (ls_lease ls) (secs 60) w2 = (Ok false, w3) ∧ mem_store w3 = mem_store w2.
Proof.
  destruct (retirement_fences_heartbeat (at_time (T0 + secs 31) b_leased) id1
    (snd (retire_one (at_time (T0 + secs 31) b_leased))) (secs 60) (secs 60))
    as (e & ls & H1 & H2 & _ & H3).
  - exact leased_healthy.
  - apply singleton_leases. by vm_compute.
  - apply leased_retirable. eexists. by vm_compute.
  - rewrite (surjective_pairing (retire_one (at_time (T0 + secs 31) b_leased))) at 1.
    apply pair_equal_spec. split; [by vm_compute|reflexivity].
  - exists e, ls. split; [exact H1|]. split; [exact H2|exact H3].
Defined.

Lemma sweep_retires_all_expired_witness :
  ∃ k w', SweepExpiredLeases_execute 2 (at_time (T0 + secs 31) b_leased) = (Ok (Some (wrap 32 k)), w') ∧
    ∀ id e, index (mem_inner w') !! id = Some e → expired (T0 + secs 31) e = false.
Proof.
  destruct (sweep_retires_all_expired (eq (FixedClock_at (T0 + secs 31)))
    (at_time (T0 + secs 31) b_leased) 2) as (k & w' & c & H1 & _ & H2 & _ & H3 & _).
  - by intros c <-.
  - exact leased_healthy.
  - done.
  - intros c <-. apply leased_retirable. eexists. by vm_compute.
  - by vm_compute; lia.
  - exists k, w'. split; [exact H1|]. rewrite <-H2 in H3. exact H3.
Defined.

(** The heartbeat at 20 s had won the lease until 50 s; the start recorded
    after it puts the deadline back to 30 s. *)
Lemma start_forgets_heartbeats_witness :
  ∃ w' e', WorkerAck_start id1 wk1 b_heartbeat = (Ok tt, w') ∧
    index (mem_inner w') !! id1 = Some e' ∧ expired (T0 + secs 31) e' = true.
Proof.
  assert (index (mem_inner b_heartbeat) !! id1 ≫= entry_lease
    = Some (LeaseState_mk l1 wk1 (T0 + secs 50))) as (e & He & Hl)%bind_Some by (by vm_compute).
  destruct (start_forgets_heartbeats b_heartbeat id1 s_leased (job_of b_leased) wk1 l1 (T0 + secs 30)
    e (LeaseState_mk l1 wk1 (T0 + secs 50))) as (w' & e' & H1 & H2 & _ & H3).
  - exact heartbeat_healthy.
  - vm_cast_no_check leased_stream.
  - exact leased_job.
  - exact leased_state.
  - by vm_compute.
  - exact He.
  - exact Hl.
  - exists w', e'. split; [exact H1|]. split; [exact H2|]. apply H3. by split; vm_compute.
Defined.

Lemma unrepresentable_deadline_poisons_witness :
  ∃ w', claim q1 wk1 DATETIME_MAX b_enqueued = (Panic, w') ∧
    store_load id1 w' = (Err (Store_Backend "store mutex poisoned"), w').
Proof.
  destruct (unrepresentable_deadline_poisons b_enqueued q1 wk1 DATETIME_MAX DATETIME_MAX id1)
    as (w' & H1 & _ & H2).
  - exact enqueued_healthy.
  - by vm_compute.
  - apply (sample_seq 1 b_enqueued [] runs_enqueued). by vm_compute.
  - by vm_compute.
  - by vm_compute.
  - exists w'. split; [exact H1|]. destruct (H2 id1 0 [] q1 wk1 0 l1) as (w1 & _ & H3 & _). exact H3.
Defined.

Lemma dispatch_order_well_defined_witness : seq_ok (mem_inner b_leased) ∧ sound (mem_inner b_leased).
Proof.
  destruct (dispatch_order_well_defined 2 (Sys_mk b0 []) (Sys_mk b_leased [])) as (H1 & H2 & _);
    [done|done|exact runs_leased|by vm_compute|].
  split; [exact H1|exact H2].
Defined.

Lemma index_reflects_log_witness : ∃ seq deadline, index (mem_inner b_leased) !! id1
  = Some {| entry_queue := job_queue (job_of b_leased); entry_priority := job_priority (job_of b_leased);
            entry_seq := seq; entry_not_before := None;
            entry_lease := Some {| ls_lease := l1; ls_worker := wk1; ls_expires_at := deadline |} |}.
Proof.
  pose proof (index_reflects_log (mem_inner b_leased) id1 s_leased (job_of b_leased)
    (proj2 leased_healthy) leased_stream leased_job) as H.
  rewrite leased_state in H. exact H.
Defined.

(** ** The gRPC data plane *)

Definition no_headers : @MetadataMap sample_externals sample_wire := λ _ : string, None.

Definition md1 : @MetadataMap sample_externals sample_wire := headers1.

Lemma refused_leaves_no_trace_witness :
  WorkerApi_start grpc1 no_headers (StartRequest_mk "1") b_leased = (Err unauthenticated, b_leased).
Proof.
  apply (refused_leaves_no_trace (W:=Broker) grpc1 no_headers unauthenticated b_leased
    (FetchRequest_mk "mail" 1) (StartRequest_mk "1") (SucceedRequest_mk "1" "1" None)
    (FailRequest_mk "1" "1" None) (HeartbeatRequest_mk "1" 1)).
  by vm_compute.
Defined.

Definition lj1 : LeasedJob :=
  {| leased_job_id := id1; leased_queue := q1; leased_payload := ("{}" : Value); leased_attempt := 0;
     leased_lease := l1; leased_expires_at := T0 + secs 30;
     leased_correlation_id := CorrelationId_new 0; leased_traceparent := None |}.

Definition msg1 : v1_LeasedJob :=
  {| msg_job_id := Uuid_to_string (JobId_as_uuid id1); msg_queue := "mail"; msg_payload_json := "{}";
     msg_attempt := 0; msg_lease_id := Uuid_to_string (LeaseId_as_uuid l1);
     msg_expires_at_unix_ms := timestamp_millis (T0 + secs 30);
     msg_correlation_id := Uuid_to_string 0; msg_traceparent := None |}.

Lemma echoed_success_reaches_job_witness :
  ∃ w' j', WorkerApi_succeed grpc1 md1
      (SucceedRequest_mk (msg_job_id msg1) (msg_lease_id msg1) (Some "42")) b_started
    = (Ok ACK_OUTCOME_RECORDED, w') ∧
    extends b_started w' id1 s_started [E_Succeeded (Some ("42" : Value))] j' ∧ job_state j' = S_Succeeded.
Proof.
  destruct (echoed_success_reaches_job (W:=Broker) grpc1 md1 wk1 b_started lj1 msg1 (Some "42")
    ltac:(by vm_compute) eq_refl started_healthy) as [_ H].
  specialize (H (Some ("42" : Value)) eq_refl I I). cbn zeta in H.
  change (log_of b_started !! leased_job_id lj1) with (streams (mem_inner b_started) !! id1) in H.
  rewrite started_stream in H.
  destruct (H ltac:(by vm_compute) (job_of b_started) started_job) as (w' & j' & Hcase).
  assert (runs_under (leased_lease lj1) (job_of b_started) = true) as E by (by vm_compute).
  rewrite E in Hcase. exists w', j'. exact Hcase.
Defined.

Definition fetch_turns : list (StreamTurn (W:=Broker)) := [Task_turn; Task_turn; World_turn id; Task_turn; Reader_turn].

Lemma clamped_fetch_keeps_store_witness :
  mem_healthy (stream_run fetch_turns (fetch_open (Ch:=ListChan) (q1, wk1, secs 300), b_enqueued)).2.
Proof.
  refine (proj2 (clamped_fetch_keeps_store grpc1 md1 (FetchRequest_mk "mail" U64_MAX) b_enqueued q1 wk1
    (secs 300) b_enqueued fetch_turns (eq (FixedClock_at T0)) (secs 300) _ _ _ _ _ _ _ _ _ _)).
  - by intros c <-.
  - by vm_compute.
  - exact enqueued_healthy.
  - by vm_compute.
  - by vm_compute.
  - by vm_compute.
  - intros c <-. eexists. by vm_compute.
  - unfold fetch_turns. repeat (apply Forall_cons; split; [try exact I|]); [|by apply Forall_nil].
    intros n w Hw Hg Hr. split; [exact Hw|]. split; [exact Hg|]. eapply roomy_le; [|exact Hr]. lia.
  - intros id s Hs. pose proof (sample_room 1 b_enqueued [] 2 runs_enqueued ltac:(lia) ltac:(lia) id s Hs).
    pose proof (runs_inv 0 _ _ _ runs_enqueued (initial_inv _ b0_initial) ltac:(lia) ltac:(by vm_compute)) as Hinv.
    apply (inv_length _ _ Hinv) in Hs. unfold U64_MAX. simpl in *. lia.
  - reflexivity.
Defined.
